(* ===== verification/_CoqProject ===== *)
-Q . S2P
Prelude.v
Prog.v
Str.v
Proto.v
FwProto.v
Stream.v
UdpDispatch.v
Addr.v
Parse.v
Ini.v
Conf.v
Nftables.v
NftSpec.v
Batches.v
NftOps.v
FwRefine.v
FwServer.v
FwClient.v
Protocol.v
ProtoSafe.v
Client.v
ClientSafe.v
System.v
Unreliable.v
EndToEnd.v
Agreement.v
SystemSafe.v
Systemd.v
Os.v
Daemon.v
Sessions.v
OsUsers.v
Seccomp.v
Mains.v
