(* ===== verification/Prelude.v ===== *)
(** * letmein: a verification development

    letmein opens and closes ports of a firewall on behalf of authenticated users. A client
    ([letmein]) sends a knock, or a close, to the control daemon ([letmeind]), which authenticates it by
    a challenge and response and passes the request over a Unix socket to the firewall daemon
    ([letmeinfwd]); that one keeps the open ports as leases with a timeout and mirrors them as rules in
    a chain of nftables. This library models the three programs and the crates they share, and
    proves what makes them correct. This file is its prelude: bytes, machine integers, results,
    and lemmas on lists that all other files use.

    ** How the program is modelled

    - A [u8] is a byte, [u16] to [u64] are integers with the range of their width as a predicate;
      additions and conversions that can overflow are written out, and panic as in a build with
      overflow checks (the release profile turns them on). A [&str] is a list of Unicode scalar
      values (Str.v), a [HashMap] a [gmap] whose iteration order is a parameter ([HashOrder]), an
      [Instant] or [Duration] a number of nanoseconds.
    - [ah::Result] is [res]: [Ok], [Err] with the text of the error, or [Panic]. The release profile
      aborts on a panic, so a panic ends a program and is never caught. Details inside the texts of errors
      are left out.
    - Pure functions are functions. Asynchronous functions, and those that call the system, are
      programs (Prog.v): trees of the commands they issue to their environment, with one branch for
      every answer. A property of all branches holds for every peer and every failure of the
      system. [steps] is the small-step execution with its history, [wp] the rule for proofs about
      all executions, [exec] the execution in an environment with a state of its own, [run] executes
      a program against a handler, for the concrete examples. [method] is a program with a mutable
      receiver.
    - Tasks that run concurrently are interleavings of their steps (UdpDispatch.v, Daemon.v,
      Sessions.v, System.v, SystemSafe.v). A mutex makes an operation one step.

    ** The parts, and where they are modelled

    - The control messages, their authentication and the random tokens (letmein-proto/src/lib.rs):
      Proto.v. HMAC-SHA3-256 and the constant time comparison are the class [Crypto].
    - Sending and receiving over TCP, and the messages of the Unix socket (letmein-proto/src/socket.rs,
      letmein-fwproto/src/lib.rs): FwProto.v has the messages, Stream.v the loops over a stream
      that delivers pieces of any size.
    - The UDP dispatcher with its queues and limits (letmein-proto/src/socket.rs): UdpDispatch.v.
    - The configuration (letmein-conf): Parse.v the scalar values, Ini.v the file format and the
      lists of items, Conf.v the options, the loading and the look-ups.
    - The firewall (letmeinfwd/src/firewall.rs, firewall/nftables.rs): Addr.v the text of addresses,
      Nftables.v the leases, the rules and all operations; NftSpec.v the documented behaviour of [nft] as
      the class [NftKernel]; Batches.v which commands the operations hand to [nft]; NftOps.v the
      invariant between leases and rules, and what each operation does on every path; FwRefine.v an
      executable instance of the kernel, the abstract machine (a map from openings to closing
      times, and what is stale because [nft] failed to remove it) and the refinement.
    - The server of the firewall daemon (letmeinfwd/src/server.rs): FwServer.v, written against the class
      [FirewallOpen] that stands for the trait of the same name.
    - The session of the control daemon (letmeind/src/protocol.rs, firewall_client.rs): Protocol.v and
      FwClient.v; ProtoSafe.v has what it guarantees.
    - The client (letmein/src/client.rs, resolver.rs, command/): Client.v and ClientSafe.v. Agreement.v
      puts a run of the client and sessions of the control daemon side by side, with an attacker for
      a network.
    - All three together: System.v has the client, a session and the firewall daemon side by side,
      with queues of messages between them and two networks, a reliable and an unreliable one;
      Unreliable.v follows the histories of the sessions on the unreliable one, EndToEnd.v has the
      runs on the reliable one and the theorems about both. SystemSafe.v runs both daemons in operation: any number of
      sessions with arbitrary peers, the requests under way, the maintenance, the exit and the restart
      of the firewall daemon (letmeind/src/main.rs, letmeinfwd/src/main.rs).
    - The connections of the control daemon (letmein-proto/src/socket.rs, letmeind/src/server.rs, main.rs):
      Sessions.v has the sockets with their closed-flags and the connections from their acceptance to
      their Drop, over the shared dispatcher.
    - The processes around the protocols: Systemd.v (letmein-systemd), Daemon.v (the sockets, the accept task, the
      main loop and the exit of both daemons), OsUsers.v (uid_gid.rs, verify.rs), Os.v (files,
      paths, configuration files), Seccomp.v (letmein-seccomp and the lists of the programs), Mains.v
      (the start of the three programs, and the firewall daemon from its start to its end).

    ** What the theorems show

    - Authentication (Proto.v, ProtoSafe.v, ClientSafe.v): the firewall is only touched after a
      complete challenge and response for a permitted user and resource, whatever the peer does;
      what the client and the daemon send, when, and under which key; that an honest session
      succeeds; the error policy. What is not authenticated is also a theorem: the response covers neither
      the operation of the first message nor the address of the peer.
    - Agreement (Agreement.v): the response that a session accepts was made for its own challenge, by a
      client with the key of the user that asked for this resource; a response is good for one nonce. The
      theorems assume nothing about the hash function; they name the two inputs of a collision.
    - Firewall (NftOps.v, FwRefine.v): for every run, with operations that fail and with time that
      passes, the chain admits exactly what the abstract machine admits that performs the same
      operations within the same intervals of time. A successful maintenance enforces the
      timeouts in both directions; the start and the end leave exact chains; the rules of other
      chains are never touched. After a removal that [nft] refused, rules without a lease may
      remain; the machine has them as stale openings, and there are none while the removals succeed.
    - Composition (FwServer.v, Unreliable.v, EndToEnd.v): requests are checked and acknowledged
      truthfully; every interleaving of client, control daemon and firewall daemon ends. If messages
      arrive and nobody is slower than the timeouts, client and control daemon report the same;
      if not, their results may differ, but neither reports a success that the firewall did not
      have; a success of the client is a lease in the firewall.
    - Operation (SystemSafe.v): in every reachable state of the two daemons every rule of the chain
      goes back to an authenticated session of its address. As long as the calls of the firewall succeed,
      the last acknowledged request for an address and a port decides: an opened port is open until
      its timeout has passed and for at most the age of the last maintenance after that, a closed
      one is closed. The sessions of this model are those of ProtoSafe.v, its firewall that of NftSpec.v, so the theorems about
      the parts carry the whole.
    - Data (Proto.v, FwProto.v, Stream.v, Ini.v, Conf.v, ClientSafe.v): round trips and exact error
      behaviour of the codecs and of the parser; loaded configurations are well formed, grant exactly
      what the file says and do not depend on the iteration order of hash maps.
    - Dispatcher (UdpDispatch.v): while no queue overflows, counters and limits hold and the accepted
      datagrams are delivered in order to the right peer, but for those that a disconnect discards; an
      overflowing queue breaks the counter.
    - Connections (Sessions.v): the number of UDP sessions is limited and no step panics unless a queue
      overflows; the end of the process panics while a connection is open; one bad datagram from anywhere
      ends the session that happens to wait.
    - Processes (Daemon.v, Mains.v, Seccomp.v, OsUsers.v): which sockets are served, that the limit
      on connections is not enforced, who may connect to the firewall daemon and that anybody else ends it,
      that a clean exit of its process leaves no rules, that the filters, if they are switched on, are in
      place before the client uses the network and before the daemons serve (the sockets of the control
      daemon are bound before), and which calls exactly they let through.

    ** Bounds and fuel

    Programs and parsers are structurally recursive or recurse on a list of events; nothing
    important depends on fuel. Two definitions carry it: printing a number ([digits_from], with a
    bound on the digits that [show_radix] computes from the number) and [schedule] in EndToEnd.v,
    which only serves concrete examples. The loops over a stream are given the list of
    answers of the operating system and say when they still wait. Termination of the
    whole system is a theorem of its own ([system_agreement]).

    ** Parameters

    [Crypto] (the MAC), [HashOrder] (iteration of hash maps), [NftKernel] (the [nft] program),
    [Seccompiler] (the filter compiler) and the answers of the system and of the name resolver.
    Every class with laws has an instance that is used in the witnesses.

    ** Not modelled

    - The runtime that schedules tasks, beyond the order of their steps: waking up, fairness, and the time
      that passes between two steps, except as read from the clock.
    - The derived parser of the command line and the output to the terminal.
    - The name resolver, the third-party crates for nftables, seccomp and systemd, and the
      generated bindings to the C library, which are interfaces here.
    - Targets other than Linux on x86_64 with pointers of 64 bits.
    - The stub of [nft] and the shell scripts of the tests. *)

From Stdlib Require Export ZArith Lia ZifyBool.
From Stdlib Require Export Strings.Byte.
From stdpp Require Export base gmap sets list strings vector.
From coqutil Require Export Word.LittleEndianList Byte.

#[export] Set Default Proof Using "Type".

(** ** Bytes and machine integers

    A Rust [u8] is a [Byte.byte]; [u16], [u32] and [u64] values are integers of [Z] together with
    the range predicate of their width. *)

Abbreviation byte := Corelib.Init.Byte.byte.
Abbreviation u16 := Z (only parsing).
Abbreviation u32 := Z (only parsing).

Definition fits (bits : Z) (z : Z) : Prop := (0 <= z < 2 ^ bits)%Z.

#[export] Instance fits_dec bits z : Decision (fits bits z).
Proof. unfold fits. apply _. Defined.

Definition u16_max : Z := 65535.
Definition u32_max : Z := 4294967295.

#[export] Instance byte_eq_dec : EqDecision byte := Byte.byte_eq_dec.

#[export] Program Instance byte_countable : Countable byte :=
  inj_countable' byte.unsigned byte.of_Z byte.of_Z_unsigned.

Lemma byte_range (b : byte) : (0 <= byte.unsigned b < 256)%Z.
Proof. exact (byte.unsigned_range b). Qed.

(** [uN::to_be_bytes] and [uN::from_be_bytes], for an integer of [n] bytes. *)
Definition to_be_bytes (n : nat) (z : Z) : list byte := rev (le_split n z).
Definition from_be_bytes (bs : list byte) : Z := le_combine (rev bs).

Lemma length_to_be_bytes n z : length (to_be_bytes n z) = n.
Proof. unfold to_be_bytes. by rewrite length_rev, length_le_split. Qed.

Lemma from_to_be_bytes n z :
  fits (Z.of_nat n * 8) z → from_be_bytes (to_be_bytes n z) = z.
Proof.
  intros Hz. unfold from_be_bytes, to_be_bytes.
  rewrite rev_involutive, le_combine_split. by apply Z.mod_small.
Qed.

Lemma from_to_be_bytes_2 z : fits 16 z → from_be_bytes (to_be_bytes 2 z) = z.
Proof. exact (from_to_be_bytes 2 z). Qed.
Lemma from_to_be_bytes_4 z : fits 32 z → from_be_bytes (to_be_bytes 4 z) = z.
Proof. exact (from_to_be_bytes 4 z). Qed.

Lemma to_from_be_bytes n bs :
  length bs = n → to_be_bytes n (from_be_bytes bs) = bs.
Proof.
  intros Hn. unfold from_be_bytes, to_be_bytes.
  rewrite <- Hn, <- length_rev, split_le_combine. apply rev_involutive.
Qed.

Lemma from_be_bytes_fits bits bs :
  (8 * Z.of_nat (length bs) = bits)%Z → fits bits (from_be_bytes bs).
Proof.
  intros <-. unfold fits, from_be_bytes.
  rewrite <- (length_rev bs). apply le_combine_bound.
Qed.

Lemma to_be_bytes_inj n z1 z2 :
  fits (Z.of_nat n * 8) z1 → fits (Z.of_nat n * 8) z2 →
  to_be_bytes n z1 = to_be_bytes n z2 → z1 = z2.
Proof.
  intros H1 H2 E. rewrite <- (from_to_be_bytes n z1 H1), <- (from_to_be_bytes n z2 H2).
  by rewrite E.
Qed.

(** ** Slices of a byte buffer

    [buf[off..off + len]] and [buf[off..][..bs.len()].copy_from_slice(bs)]. *)

Section slices.
Context {A : Type}.
Implicit Types (buf bs : list A).

Definition slice (off len : nat) (buf : list A) : list A := take len (drop off buf).

Definition write_at (off : nat) (bs buf : list A) : list A :=
  take off buf ++ bs ++ drop (off + length bs) buf.

Lemma length_write_at off bs buf :
  off + length bs ≤ length buf → length (write_at off bs buf) = length buf.
Proof.
  intros H. unfold write_at. rewrite !length_app, length_take, length_drop. lia.
Qed.

Lemma length_slice off len buf :
  off + len ≤ length buf → length (slice off len buf) = len.
Proof. intros H. unfold slice. rewrite length_take, length_drop. lia. Qed.

Lemma slice_write_at_eq off bs buf :
  off + length bs ≤ length buf → slice off (length bs) (write_at off bs buf) = bs.
Proof.
  intros H. unfold slice, write_at.
  rewrite drop_app_length' by (rewrite length_take; lia).
  by rewrite take_app_length.
Qed.

Lemma slice_at_field off len bs buf :
  length bs = len → off + len ≤ length buf → slice off len (write_at off bs buf) = bs.
Proof. intros <-. apply slice_write_at_eq. Qed.

Lemma slice_write_at_before off len off' bs buf :
  off + len ≤ off' → off' + length bs ≤ length buf →
  slice off len (write_at off' bs buf) = slice off len buf.
Proof.
  intros H H'. apply list_eq. intros i. unfold slice, write_at.
  destruct (decide (i < len)) as [Hi|Hi].
  - rewrite !lookup_take_lt, !lookup_drop by lia.
    rewrite lookup_app_l by (rewrite length_take; lia).
    by rewrite lookup_take_lt by lia.
  - by rewrite !lookup_take_ge by lia.
Qed.

Lemma slice_write_at_after off len off' bs buf :
  off' + length bs ≤ off → off' + length bs ≤ length buf →
  slice off len (write_at off' bs buf) = slice off len buf.
Proof.
  intros H H'. unfold slice, write_at. f_equal.
  rewrite drop_app_ge by (rewrite length_take; lia).
  rewrite drop_app_ge by (rewrite length_take; lia).
  rewrite drop_drop, length_take. f_equal. lia.
Qed.

Lemma slice_all buf : slice 0 (length buf) buf = buf.
Proof. unfold slice. rewrite drop_0. by rewrite firstn_all. Qed.

Lemma slice_app_split off len1 len2 buf :
  slice off (len1 + len2) buf = slice off len1 buf ++ slice (off + len1) len2 buf.
Proof.
  unfold slice. rewrite <- drop_drop. generalize (drop off buf). clear buf. intros buf.
  revert buf. induction len1 as [|n IH]; intros [|x buf]; simpl; try done.
  - by rewrite !take_nil.
  - f_equal. apply IH.
Qed.

End slices.

Arguments to_be_bytes : simpl never.
Arguments from_be_bytes : simpl never.
Arguments slice : simpl never.
Arguments write_at : simpl never.

(** ** Arrays

    [[A; n]] is [vec A n]; [array_try_from] is [<[A; n]>::try_from] on a slice. *)

Definition array_try_from {A} (n : nat) (l : list A) : option (vec A n) :=
  match decide (length l = n) with
  | left e => Some (eq_rect (length l) (vec A) (list_to_vec l) n e)
  | right _ => None
  end.

Lemma vec_to_list_eq_rect {A} n m (e : n = m) (v : vec A n) :
  vec_to_list (eq_rect n (vec A) v m e) = vec_to_list v.
Proof. by destruct e. Qed.

Lemma array_try_from_Some {A} n (l : list A) v :
  array_try_from n l = Some v ↔ vec_to_list v = l.
Proof.
  unfold array_try_from. destruct (decide (length l = n)) as [e|Hne].
  - assert (E : vec_to_list (eq_rect (length l) (vec A) (list_to_vec l) n e) = l)
      by (by rewrite vec_to_list_eq_rect, vec_to_list_to_vec).
    split; [intros [= <-]; done|]. intros Hv. f_equal. apply vec_to_list_inj2. by rewrite Hv.
  - split; [done|]. intros <-. by rewrite length_vec_to_list in Hne.
Qed.

Lemma array_try_from_vec {A n} (v : vec A n) : array_try_from n (vec_to_list v) = Some v.
Proof. by apply array_try_from_Some. Qed.

Lemma array_try_from_is_Some {A} n (l : list A) : is_Some (array_try_from n l) ↔ length l = n.
Proof.
  unfold array_try_from. destruct (decide (length l = n)) as [e|Hne].
  - split; [done|eauto].
  - split; [by intros []|done].
Qed.

#[export] Program Instance vec_countable {A} `{Countable A} n : Countable (vec A n) :=
  inj_countable vec_to_list (array_try_from n) _.
Next Obligation. intros. apply array_try_from_vec. Qed.

(** ** Results

    [ah::Result<A>]: a value, an [anyhow] error, or an unwinding panic (a failed [assert!],
    [unreachable!], arithmetic overflow). The release profile of [Cargo.toml] sets
    [panic = "abort"], [overflow-checks = true] and [debug-assertions = false]: a [Panic] ends the
    process, an integer overflow is a [Panic], and a [debug_assert!] is not executed.

    An [anyhow::Error] is an opaque text. It is represented by the constant part of its format
    string, without the formatted arguments. *)

Abbreviation error := string (only parsing).

Inductive res (A : Type) : Type :=
| Ok (a : A)
| Err (e : error)
| Panic (why : string).
Arguments Ok {A} a.
Arguments Err {A} e.
Arguments Panic {A} why.

#[export] Instance res_eq_dec {A} `{EqDecision A} : EqDecision (res A).
Proof.
  intros [a|e|w] [a'|e'|w']; try (right; discriminate);
    [destruct (decide (a = a')) as [->|Hne]|destruct (decide (e = e')) as [->|Hne]
    |destruct (decide (w = w')) as [->|Hne]]; (by left) || (right; congruence).
Defined.

#[export] Instance res_ret : MRet res := @Ok.
#[export] Instance res_bind : MBind res := λ A B f r,
  match r with Ok a => f a | Err e => Err e | Panic w => Panic w end.
#[export] Instance res_fmap : FMap res := λ A B f r,
  match r with Ok a => Ok (f a) | Err e => Err e | Panic w => Panic w end.

Definition is_ok {A} (r : res A) : bool := match r with Ok _ => true | _ => false end.
Definition is_err {A} (r : res A) : bool := match r with Err _ => true | _ => false end.
Definition is_panic {A} (r : res A) : bool := match r with Panic _ => true | _ => false end.
Definition no_panic {A} (r : res A) : Prop := match r with Panic _ => False | _ => True end.

(** [Result::context]: the error is replaced by a new outermost message. *)
Definition context {A} (msg : string) (r : res A) : res A :=
  match r with Err _ => Err msg | _ => r end.

(** [assert!(b)] and [Option::ok_or]. *)
Definition assert (b : bool) (why : string) : res () := if b then Ok () else Panic why.
Definition ok_or {A} (o : option A) (e : error) : res A :=
  match o with Some a => Ok a | None => Err e end.

Lemma res_bind_ok {A B} (r : res A) (f : A → res B) b :
  (r ≫= f) = Ok b ↔ ∃ a, r = Ok a ∧ f a = Ok b.
Proof. destruct r; cbn; naive_solver. Qed.

Lemma no_panic_bind {A B} (r : res A) (f : A → res B) :
  no_panic r → (∀ a, r = Ok a → no_panic (f a)) → no_panic (r ≫= f).
Proof. destruct r; cbn; naive_solver. Qed.

Lemma no_panic_context {A} msg (r : res A) : no_panic (context msg r) ↔ no_panic r.
Proof. by destruct r. Qed.

(** A loop over a list with early returns. *)
Fixpoint foldM {A B} (f : B → A → res B) (b : B) (l : list A) : res B :=
  match l with [] => Ok b | x :: l' => b' ← f b x; foldM f b' l' end.

Lemma foldM_app {A B} (f : B → A → res B) b l1 l2 :
  foldM f b (l1 ++ l2) = (b' ← foldM f b l1; foldM f b' l2).
Proof.
  revert b. induction l1 as [|x l1 IH]; intros b; simpl; [done|].
  destruct (f b x); simpl; [apply IH|done..].
Qed.

(** The rule for loops: an invariant of the accumulator. *)
Lemma foldM_invariant {A B} (P : B → Prop) (f : B → A → res B) b l b' :
  P b → (∀ b x b', x ∈ l → P b → f b x = Ok b' → P b') → foldM f b l = Ok b' → P b'.
Proof.
  revert b. induction l as [|x l IH]; intros b Hb Hf; simpl; [by intros [= <-]|].
  intros (b1 & H1 & H2)%res_bind_ok. eapply IH; [|intros; eapply Hf; [by right|..]; done|exact H2].
  eapply Hf; [by left|done..].
Qed.

Lemma foldM_no_panic {A B} (P : B → Prop) (f : B → A → res B) b l :
  P b → (∀ b x, P b → no_panic (f b x)) → (∀ b x b', P b → f b x = Ok b' → P b') →
  no_panic (foldM f b l).
Proof.
  intros Hb Hn Hf. revert b Hb. induction l as [|x l IH]; intros b Hb; simpl; [done|].
  apply no_panic_bind; [by apply Hn|]. intros b' E. by eapply IH, Hf.
Qed.

Lemma filter_all_id {A} (P : A → Prop) `{∀ x, Decision (P x)} (l : list A) : (∀ x, x ∈ l → P x) → filter P l = l.
Proof.
  induction l as [|x l IH]; intros Hl; [done|]. rewrite filter_cons_True by (apply Hl; by left).
  f_equal. apply IH. intros. apply Hl. by right.
Qed.

Lemma filter_none_nil {A} (P : A → Prop) `{∀ x, Decision (P x)} (l : list A) : (∀ x, x ∈ l → ¬ P x) → filter P l = [].
Proof.
  induction l as [|x l IH]; intros Hl; [done|]. rewrite filter_cons_False by (apply Hl; by left).
  apply IH. intros. apply Hl. by right.
Qed.

Lemma filter_ext_in {A} (P Q : A → Prop) `{∀ x, Decision (P x)} `{∀ x, Decision (Q x)} (l : list A) :
  (∀ x, x ∈ l → P x ↔ Q x) → filter P l = filter Q l.
Proof.
  induction l as [|x l IH]; intros Hpq; [done|]. rewrite !filter_cons, IH by (intros; apply Hpq; by right).
  specialize (Hpq x ltac:(by left)). repeat case_decide; tauto || done.
Qed.

Lemma filter_in_submseteq {A} `{EqDecision A} (ts l : list A) :
  NoDup ts → ∃ l', l ≡ₚ filter (.∈ l) ts ++ l'.
Proof.
  intros Hnd. assert (Hs : filter (.∈ l) ts ⊆+ l).
  { apply NoDup_submseteq; [by apply NoDup_filter|]. by intros x [? _]%list_elem_of_filter. }
  by apply submseteq_Permutation in Hs.
Qed.

Lemma NoDup_omap_inj {A B} (f : A → option B) (l : list A) :
  NoDup l → (∀ x y b, x ∈ l → y ∈ l → f x = Some b → f y = Some b → x = y) → NoDup (omap f l).
Proof.
  induction 1 as [|x l Hx _ IH]; intros Hf; simpl; [constructor|].
  assert (Hl : NoDup (omap f l)) by (apply IH; intros ???? ?; apply Hf; by right).
  destruct (f x) as [b|] eqn:E; [|done]. constructor; [|done]. intros (y & Hy & Ey)%list_elem_of_omap.
  apply Hx. by rewrite (Hf x y b (list_elem_of_here _ _) ltac:(by right) E Ey).
Qed.

Lemma bind_nil {A B} (f : A → list B) l : l ≫= f = [] ↔ Forall (λ x, f x = []) l.
Proof.
  induction l as [|x l IH]; [done|]. rewrite Forall_cons, <- IH, bind_cons. split; [apply app_eq_nil|by intros [-> ->]].
Qed.

Lemma bind_single {A B} (f : A → list B) x : [x] ≫= f = f x.
Proof. apply app_nil_r. Qed.

Lemma ok_or_ok {A} (o : option A) e a : ok_or o e = Ok a ↔ o = Some a.
Proof. destruct o; cbn; naive_solver. Qed.

(** ** Iteration over a hash map

    [HashMap::iter], [values], [values_mut] and [retain] visit the entries in an unspecified
    order. The order is a parameter: an instance lists the entries of a map in some order, and
    what is proved for every instance holds for every order. *)

Class HashOrder : Type := {
  hash_iter : ∀ {K V : Type} `{Countable K}, gmap K V → list (K * V);
  hash_iter_perm : ∀ {K V : Type} `{Countable K} (m : gmap K V), hash_iter m ≡ₚ map_to_list m;
}.

Definition sorted_order : HashOrder := {|
  hash_iter _ _ _ _ m := map_to_list m;
  hash_iter_perm _ _ _ _ m := reflexivity _;
|}.

Section hash_order.
Context `{HO : HashOrder} `{Countable K} {V : Type}.
Implicit Types (m : gmap K V).

Lemma elem_of_hash_iter m k v : (k, v) ∈ hash_iter m ↔ m !! k = Some v.
Proof. rewrite (hash_iter_perm m). apply elem_of_map_to_list. Qed.

Lemma NoDup_hash_iter_fst m : NoDup (hash_iter m).*1.
Proof. rewrite (hash_iter_perm m). apply NoDup_fst_map_to_list. Qed.

Lemma hash_iter_nil m : hash_iter m = [] ↔ m = ∅.
Proof.
  rewrite <- map_to_list_empty_iff. split; intros E.
  - apply Permutation_nil. by rewrite <- E, (hash_iter_perm m).
  - apply Permutation_nil. by rewrite <- E, (hash_iter_perm m).
Qed.

Lemma hash_iter_insert m k v :
  m !! k = None → hash_iter (<[k := v]> m) ≡ₚ (k, v) :: hash_iter m.
Proof.
  intros Hk. rewrite (hash_iter_perm (<[k:=v]> m)), map_to_list_insert by done.
  constructor. symmetry. apply hash_iter_perm.
Qed.

Lemma hash_iter_delete m k v :
  m !! k = Some v → hash_iter m ≡ₚ (k, v) :: hash_iter (delete k m).
Proof.
  intros Hk. rewrite (hash_iter_perm m), <- (map_to_list_delete m k v) by done.
  constructor. symmetry. apply hash_iter_perm.
Qed.

End hash_order.

(** ** Automation *)

Create HintDb letmein.
Create Rewrite HintDb letmein.
#[export] Hint Rewrite @length_write_at @length_slice length_to_be_bytes using lia : letmein.
#[export] Hint Resolve byte_range from_be_bytes_fits : letmein.

(** Reads a field out of a buffer built by [write_at]: the write of the field itself, after
    skipping the writes to other fields. *)
Ltac length_simpl :=
  repeat first [rewrite length_write_at by length_simpl | rewrite length_replicate
               | rewrite length_to_be_bytes]; lia.
Ltac read_field :=
  repeat first
    [ rewrite slice_write_at_after by length_simpl
    | rewrite slice_write_at_before by length_simpl ].

(** Splits the innermost [match] or [if] of a hypothesis or of the goal, keeping its equation. *)
Ltac case_innermost t :=
  match t with
  | context [match ?x with _ => _ end] => case_innermost x
  | _ => destruct t eqn:?
  end.
Ltac case_goal :=
  match goal with |- context [match ?x with _ => _ end] => case_innermost x end.
Ltac case_hyp H :=
  match type of H with context [match ?x with _ => _ end] => case_innermost x end.

(** Inverts a chain of successful binds of the result monad. *)
Ltac inv_res :=
  repeat match goal with
  | H : (mbind _ _) = Ok _ |- _ =>
      apply res_bind_ok in H; let a := fresh "a" in let E := fresh "E" in
      destruct H as (a & E & H)
  | H : ok_or _ _ = Ok _ |- _ => apply ok_or_ok in H
  | H : Ok _ = Ok _ |- _ => injection H as H
  | H : mret _ = Ok _ |- _ => injection H as H
  | H : Err _ = Ok _ |- _ => discriminate H
  | H : Panic _ = Ok _ |- _ => discriminate H
  end; subst.
