(* ===== verification/Prog.v ===== *)
(** * Effectful programs

    The asynchronous functions of the daemons and of the client talk to the outside (socket,
    clock, random source, firewall process) through a fixed set of operations. Such a function is
    modelled as a [prog]: a finitely deep tree whose nodes are the commands it issues, with one
    subtree for every answer the environment may give. Nothing is assumed about the answers, so a
    statement about all paths of the tree covers a malicious peer and a failing system. *)

From S2P Require Import Prelude.

(** The commands of an interface and the type of the answers to each of them. *)
Record iface : Type := Iface { cmd : Type; resp : cmd → Type }.

Inductive prog (I : iface) (R : Type) : Type :=
| Ret (r : R)
| Vis (c : cmd I) (k : resp I c → prog I R).
Arguments Ret {I R} r.
Arguments Vis {I R} c k.

Declare Scope prog_scope.
Delimit Scope prog_scope with prog.

Section prog.
Context {I : iface}.

Fixpoint pbind {A B} (p : prog I A) (f : A → prog I B) : prog I B :=
  match p with
  | Ret a => f a
  | Vis c k => Vis c (λ x, pbind (k x) f)
  end.

Definition call (c : cmd I) : prog I (resp I c) := Vis c Ret.

(** A computation that may fail, and the [?] operator. *)
Definition cbind {A B} (p : prog I (res A)) (f : A → prog I (res B)) : prog I (res B) :=
  pbind p (λ r, match r with Ok a => f a | Err e => Ret (Err e) | Panic w => Ret (Panic w) end).

(** [let _ = p.await;]: an error is dropped, a panic is not. *)
Definition ignore {A} (p : prog I (res A)) : prog I (res ()) :=
  pbind p (λ r, Ret (match r with Panic w => Panic w | _ => Ok () end)).

(** One interaction: the command and its answer. A history is the list of interactions so far,
    oldest first. *)
Definition event : Type := { c : cmd I & resp I c }.
Abbreviation history := (list event).
Definition ev (c : cmd I) (x : resp I c) : event := existT c x.

(** [steps p t p']: after the interactions [t], [p] has become [p']. *)
Inductive steps {R} : prog I R → history → prog I R → Prop :=
| steps_nil p : steps p [] p
| steps_cons c k x t p' : steps (k x) t p' → steps (Vis c k) (ev c x :: t) p'.

(** The program, started with history [t], issues only commands allowed by [P] at the point where
    it issues them, and returns only results allowed by [Q] of the complete history. *)
Fixpoint wp {R} (P : history → cmd I → Prop) (Q : history → R → Prop)
    (t : history) (p : prog I R) : Prop :=
  match p with
  | Ret r => Q t r
  | Vis c k => P t c ∧ ∀ x, wp P Q (t ++ [ev c x]) (k x)
  end.

(** Executes a program against a handler with a state of its own. *)
Fixpoint run {R S} (h : ∀ c : cmd I, S → resp I c * S) (p : prog I R) (s : S)
    : R * S * history :=
  match p with
  | Ret r => (r, s, [])
  | Vis c k =>
      let '(x, s1) := h c s in
      let '(r, s2, t) := run h (k x) s1 in
      (r, s2, ev c x :: t)
  end.

End prog.

Arguments event I : clear implicits.
Abbreviation history I := (list (event I)).

Notation "'let*' x := p 'in' q" := (pbind p (λ x, q))
  (at level 10, x pattern, p at level 100, q at level 200,
   format "'[' 'let*'  x  :=  p  'in' ']' '//' q") : prog_scope.
Notation "'let?' x := p 'in' q" := (cbind p (λ x, q))
  (at level 10, x pattern, p at level 100, q at level 200,
   format "'[' 'let?'  x  :=  p  'in' ']' '//' q") : prog_scope.

Section laws.
Context {I : iface}.

Lemma pbind_assoc_wp {A B C} P Q (p : prog I A) (f : A → prog I B) (g : B → prog I C) t :
  wp P Q t (pbind (pbind p f) g) ↔ wp P Q t (pbind p (λ a, pbind (f a) g)).
Proof.
  revert t. induction p as [a|c k IH]; intros t; simpl; [done|].
  split; intros [H1 H2]; (split; [done|]); intros x; by apply IH.
Qed.

(** The rule for sequential composition. *)
Lemma wp_bind {A B} P Q (p : prog I A) (f : A → prog I B) t :
  wp P (λ t' a, wp P Q t' (f a)) t p ↔ wp P Q t (pbind p f).
Proof.
  revert t. induction p as [a|c k IH]; intros t; simpl; [done|].
  split; intros [H1 H2]; (split; [done|]); intros x; by apply IH.
Qed.

Lemma wp_cbind {A B} P Q (p : prog I (res A)) (f : A → prog I (res B)) t :
  wp P (λ t' r, match r with
                | Ok a => wp P Q t' (f a)
                | Err e => Q t' (Err e)
                | Panic w => Q t' (Panic w)
                end) t p →
  wp P Q t (cbind p f).
Proof.
  intros H. apply wp_bind. revert t H.
  induction p as [r|c k IH]; intros t; simpl; [by destruct r|].
  intros [H1 H2]. split; [done|]. intros x. by apply IH.
Qed.

Lemma wp_mono {R} (P P' : history I → cmd I → Prop) (Q Q' : history I → R → Prop) t p :
  (∀ t c, P t c → P' t c) → (∀ t r, Q t r → Q' t r) → wp P Q t p → wp P' Q' t p.
Proof.
  intros HP HQ. revert t. induction p as [r|c k IH]; intros t; simpl; [by apply HQ|].
  intros [H1 H2]. split; [by apply HP|]. intros x. by apply IH.
Qed.

(** Two properties of the same program hold together. *)
Lemma wp_and {R} (P P' : history I → cmd I → Prop) (Q Q' : history I → R → Prop) t p :
  wp P Q t p → wp P' Q' t p →
  wp (λ t c, P t c ∧ P' t c) (λ t r, Q t r ∧ Q' t r) t p.
Proof.
  revert t. induction p as [r|c k IH]; intros t; simpl; [done|].
  intros [H1 H2] [H1' H2']. split; [done|]. intros x. by apply IH.
Qed.

Lemma steps_wp {R} (P : history I → cmd I → Prop) (Q : history I → R → Prop) t0 p t p' :
  steps p t p' → wp P Q t0 p → wp P Q (t0 ++ t) p'.
Proof.
  intros H. revert t0. induction H as [p|c k x t p' _ IH]; intros t0 Hp.
  - by rewrite app_nil_r.
  - rewrite (cons_middle (ev c x)), app_assoc. apply IH. by apply Hp.
Qed.

(** [wp] says exactly what all the executions do, the unfinished ones included. *)
Lemma wp_steps {R} (P : history I → cmd I → Prop) (Q : history I → R → Prop) t0 p :
  wp P Q t0 p ↔
  (∀ t c k, steps p t (Vis c k) → P (t0 ++ t) c) ∧
  (∀ t r, steps p t (Ret r) → Q (t0 ++ t) r).
Proof.
  split.
  - intros Hp. split.
    + intros t c k H. by destruct (steps_wp P Q t0 _ _ _ H Hp).
    + intros t r H. exact (steps_wp P Q t0 _ _ _ H Hp).
  - revert t0. induction p as [r|c k IH]; intros t0 [H1 H2]; simpl.
    + rewrite <- (app_nil_r t0). apply H2. constructor.
    + split; [rewrite <- (app_nil_r t0); eapply H1; constructor|].
      intros x. apply IH. split; intros t; [intros c' k' H|intros r H]; rewrite <- app_assoc.
      * eapply H1. by constructor.
      * eapply H2. by constructor.
Qed.

Lemma steps_trans {R} (p p1 p2 : prog I R) t t' :
  steps p t p1 → steps p1 t' p2 → steps p (t ++ t') p2.
Proof. induction 1 as [p|c k x t p1 _ IH]; intros Hs; simpl; [done|]. constructor. by apply IH. Qed.

(** Where an execution was before an interaction. *)
Lemma steps_split {R} (p p' : prog I R) t1 e t2 :
  steps p (t1 ++ e :: t2) p' → ∃ k, steps p t1 (Vis (projT1 e) k).
Proof.
  revert p. induction t1 as [|e1 t1 IH]; intros p Hs; simpl in Hs; inversion Hs; subst.
  - eexists. apply steps_nil.
  - match goal with Hr : steps _ _ _ |- _ => apply IH in Hr as [k' ?] end. exists k'. by constructor.
Qed.

Lemma run_steps {R S} (h : ∀ c : cmd I, S → resp I c * S) (p : prog I R) s r s' t :
  run h p s = (r, s', t) → steps p t (Ret r).
Proof.
  revert s r s' t. induction p as [r0|c k IH]; intros s r s' t; simpl.
  - intros [= -> -> <-]. constructor.
  - destruct (h c s) as [x s1]. destruct (run h (k x) s1) as [[r1 s2] t1] eqn:E.
    intros [= -> -> <-]. constructor. by eapply IH.
Qed.

Lemma run_bind {A B S} (h : ∀ c : cmd I, S → resp I c * S) (p : prog I A) (f : A → prog I B) s :
  run h (pbind p f) s =
  let '(a, s1, t1) := run h p s in
  let '(b, s2, t2) := run h (f a) s1 in (b, s2, t1 ++ t2).
Proof.
  revert s. induction p as [a|c k IH]; intros s; simpl.
  - by destruct (run h (f a) s) as [[b s2] t2].
  - destruct (h c s) as [x s1]. rewrite IH.
    destruct (run h (k x) s1) as [[a s2] t2]. by destruct (run h (f a) s2) as [[b s3] t3].
Qed.

(** Every program terminates as soon as every command is answered. *)
Lemma run_total {R S} (h : ∀ c : cmd I, S → resp I c * S) (p : prog I R) s :
  ∃ r s' t, run h p s = (r, s', t) ∧ steps p t (Ret r).
Proof.
  destruct (run h p s) as [[r s'] t] eqn:E. exists r, s', t. split; [done|].
  by eapply run_steps.
Qed.

End laws.

(** ** Methods on [&mut self]

    A method that mutates its receiver and may fail: the receiver keeps what was written to it
    before an early return. *)

Section methods.
Context {I : iface} {S : Type}.

Definition method (A : Type) : Type := S → prog I (res A * S).

Definition mret {A} (r : res A) : method A := λ s, Ret (r, s).

Definition method_bind {A B} (m : method A) (f : A → method B) : method B := λ s,
  pbind (m s) (λ '(r, s1),
    match r with
    | Ok a => f a s1
    | Err e => Ret (Err e, s1)
    | Panic w => Ret (Panic w, s1)
    end).

Definition mget : method S := λ s, Ret (Ok s, s).
Definition mset (s : S) : method () := λ _, Ret (Ok (), s).
Definition mmodify (f : S → S) : method () := λ s, Ret (Ok (), f s).
Definition mcall (c : cmd I) : method (resp I c) := λ s, Vis c (λ x, Ret (Ok x, s)).

(** A computation that does not touch the receiver. *)
Definition mlift {A} (p : prog I (res A)) : method A := λ s, pbind p (λ r, Ret (r, s)).

(** [match m.await { Ok(a) => f, Err(e) => g }]. *)
Definition mtry {A B} (m : method A) (f : res A → method B) : method B := λ s,
  pbind (m s) (λ '(r, s1),
    match r with Panic w => Ret (Panic w, s1) | _ => f r s1 end).

End methods.

Arguments method I S A : clear implicits.

Notation "'let!' x := m 'in' q" := (method_bind m (λ x, q))
  (at level 10, x pattern, m at level 100, q at level 200,
   format "'[' 'let!'  x  :=  m  'in' ']' '//' q") : prog_scope.

(** The rules for methods: the precondition of each combinator, computed backwards. *)
Section wp_methods.
Context {I : iface} {S : Type} (P : history I → cmd I → Prop).

Definition wpm {A} (Q : history I → res A → S → Prop) (t : history I) (m : method I S A) (s : S) : Prop :=
  wp P (λ t' rs, Q t' rs.1 rs.2) t (m s).

Lemma wpm_bind {A B} (Q : history I → res B → S → Prop) t (m : method I S A) f s :
  wpm (λ t1 r s1, match r with
                  | Ok a => wpm Q t1 (f a) s1
                  | Err e => Q t1 (Err e) s1
                  | Panic w => Q t1 (Panic w) s1
                  end) t m s →
  wpm Q t (method_bind m f) s.
Proof.
  unfold wpm, method_bind. intros Hm. apply wp_bind. revert Hm. apply wp_mono; [done|].
  intros t1 [[a|e|w] s1]; done.
Qed.

Lemma wpm_try {A B} (Q : history I → res B → S → Prop) t (m : method I S A) (f : res A → method I S B) s :
  wpm (λ t1 r s1, match r with Panic w => Q t1 (Panic w) s1 | _ => wpm Q t1 (f r) s1 end) t m s →
  wpm Q t (mtry m f) s.
Proof.
  unfold wpm, mtry. intros Hm. apply wp_bind. revert Hm. apply wp_mono; [done|].
  intros t1 [[a|e|w] s1]; done.
Qed.

Lemma wpm_ret {A} (Q : history I → res A → S → Prop) t r s : Q t r s → wpm Q t (mret r) s.
Proof. done. Qed.
Lemma wpm_get (Q : history I → res S → S → Prop) t s : Q t (Ok s) s → wpm Q t mget s.
Proof. done. Qed.
Lemma wpm_set (Q : history I → res () → S → Prop) t s' s : Q t (Ok ()) s' → wpm Q t (mset s') s.
Proof. done. Qed.
Lemma wpm_modify (Q : history I → res () → S → Prop) t f s : Q t (Ok ()) (f s) → wpm Q t (mmodify f) s.
Proof. done. Qed.
Lemma wpm_lift {A} (Q : history I → res A → S → Prop) t (p : prog I (res A)) s :
  wp P (λ t' r, Q t' r s) t p → wpm Q t (mlift p) s.
Proof. unfold wpm, mlift. intros Hp. apply wp_bind. revert Hp. by apply wp_mono. Qed.

Lemma wpm_mono {A} (Q Q' : history I → res A → S → Prop) t m s :
  (∀ t' r s', Q t' r s' → Q' t' r s') → wpm Q t m s → wpm Q' t m s.
Proof. intros HQ. apply wp_mono; [done|]. intros t' [r s']. apply HQ. Qed.

End wp_methods.

Arguments wpm : simpl never.

(** Walks backwards through a method. *)
Ltac wpm_step :=
  lazymatch goal with
  | |- wpm _ _ _ (method_bind _ _) _ => apply wpm_bind
  | |- wpm _ _ _ (mtry _ _) _ => apply wpm_try
  | |- wpm _ _ _ (mret _) _ => apply wpm_ret
  | |- wpm _ _ _ mget _ => apply wpm_get
  | |- wpm _ _ _ (mset _) _ => apply wpm_set
  | |- wpm _ _ _ (mmodify _) _ => apply wpm_modify
  | |- wpm _ _ _ (mlift _) _ => apply wpm_lift
  end.

(** ** Random bytes

    A program draws random bytes from the operating system through its interface;
    [getrandom::fill] either fills the whole buffer or fails. *)

Class HasRandom (I : iface) : Type := {
  random_cmd : nat → cmd I;
  random_resp : ∀ n, resp I (random_cmd n) → option (vec byte n);
}.

(** ** Execution in an environment

    [exec st s p r s']: in an environment whose states evolve by [st], which may answer a command
    in several ways, [p] started in [s] returns [r] and leaves the environment in [s']. *)

Section exec.
Context {I : iface} {S : Type} (st : S → ∀ c : cmd I, resp I c → S → Prop).

Fixpoint exec {R} (s : S) (p : prog I R) (r : R) (s' : S) : Prop :=
  match p with
  | Ret a => r = a ∧ s' = s
  | Vis c k => ∃ x s1, st s c x s1 ∧ exec s1 (k x) r s'
  end.

Lemma exec_ret_inv {R} s (r r' : R) s' : exec s (Ret r) r' s' ↔ r' = r ∧ s' = s.
Proof. done. Qed.

Lemma exec_vis_inv {R} s c (k : resp I c → prog I R) r s' :
  exec s (Vis c k) r s' ↔ ∃ x s1, st s c x s1 ∧ exec s1 (k x) r s'.
Proof. done. Qed.

Lemma exec_bind_inv {A B} s (p : prog I A) (f : A → prog I B) r s' :
  exec s (pbind p f) r s' ↔ ∃ a s1, exec s p a s1 ∧ exec s1 (f a) r s'.
Proof.
  revert s. induction p as [a|c k IH]; intros s; simpl.
  - split; [intros He; by exists a, s|]. by intros (a' & s1 & [-> ->] & He).
  - setoid_rewrite IH. naive_solver.
Qed.

(** A handler that chooses one of the allowed answers yields an execution. *)
Lemma run_exec {R} (h : ∀ c : cmd I, S → resp I c * S) (p : prog I R) s r s' t :
  (∀ c s, st s c (h c s).1 (h c s).2) → run h p s = (r, s', t) → exec s p r s'.
Proof.
  intros Hh. revert s t. induction p as [a|c k IH]; intros s t; simpl; [by intros [= -> -> _]|].
  specialize (Hh c s). destruct (h c s) as [x s1]. destruct (run h (k x) s1) as [[r1 s2] t1] eqn:E.
  intros [= -> -> _]. exists x, s1. split; [done|]. by eapply IH.
Qed.

Lemma exec_call_inv s c x s' : exec s (call c) x s' ↔ st s c x s'.
Proof. unfold call. simpl. naive_solver. Qed.

End exec.

(** A sequence of method calls: the part that succeeded, or where it stopped. *)
Section exec_methods.
Context {I : iface} {S T : Type} (st : T → ∀ c : cmd I, resp I c → T → Prop).

Lemma exec_mbind_inv {A B} (m : method I S A) (f : A → method I S B) s t r s' t' :
  exec st t (method_bind m f s) (r, s') t' ↔
  ∃ r1 s1 t1, exec st t (m s) (r1, s1) t1 ∧
    match r1 with
    | Ok a => exec st t1 (f a s1) (r, s') t'
    | Err e => r = Err e ∧ s' = s1 ∧ t' = t1
    | Panic w => r = Panic w ∧ s' = s1 ∧ t' = t1
    end.
Proof.
  unfold method_bind. rewrite exec_bind_inv. split.
  - intros ([r1 s1] & t1 & H1 & H2). exists r1, s1, t1. split; [done|].
    destruct r1; simpl in H2; naive_solver.
  - intros (r1 & s1 & t1 & H1 & H2). exists (r1, s1), t1. split; [done|].
    destruct r1; simpl; naive_solver.
Qed.

Lemma exec_mtry_inv {A B} (m : method I S A) (f : res A → method I S B) s t r s' t' :
  exec st t (mtry m f s) (r, s') t' ↔
  ∃ r1 s1 t1, exec st t (m s) (r1, s1) t1 ∧
    match r1 with
    | Panic w => r = Panic w ∧ s' = s1 ∧ t' = t1
    | _ => exec st t1 (f r1 s1) (r, s') t'
    end.
Proof.
  unfold mtry. rewrite exec_bind_inv. split.
  - intros ([r1 s1] & t1 & H1 & H2). exists r1, s1, t1. split; [done|].
    destruct r1; [done|done|]. simpl in H2. naive_solver.
  - intros (r1 & s1 & t1 & H1 & H2). exists (r1, s1), t1. split; [done|].
    destruct r1; [done|done|]. simpl. naive_solver.
Qed.

Lemma exec_mcall_inv c (s : S) t r s' t' :
  exec st t (mcall c s) (r, s') t' ↔ ∃ x, st t c x t' ∧ r = Ok x ∧ s' = s.
Proof. unfold mcall. simpl. naive_solver. Qed.

Lemma exec_mlift_inv {A} (p : prog I (res A)) (s : S) t r s' t' :
  exec st t (mlift p s) (r, s') t' ↔ exec st t p r t' ∧ s' = s.
Proof. unfold mlift. rewrite exec_bind_inv. simpl. naive_solver. Qed.

Lemma exec_mret_inv {A} (a : res A) (s : S) t r s' t' :
  exec st t (mret a s) (r, s') t' ↔ r = a ∧ s' = s ∧ t' = t.
Proof. unfold mret. simpl. naive_solver. Qed.

End exec_methods.

Arguments exec : simpl never.

(** Inverts the execution of a method that is built from the combinators above. *)
Ltac inv_exec_step :=
  match goal with
  | H : exec _ _ (method_bind _ _ _) _ _ |- _ =>
      let r := fresh "r" in let s := fresh "s" in let t := fresh "t" in
      apply exec_mbind_inv in H as (r & s & t & ? & H)
  | H : exec _ _ (mtry _ _ _) _ _ |- _ =>
      let r := fresh "r" in let s := fresh "s" in let t := fresh "t" in
      apply exec_mtry_inv in H as (r & s & t & ? & H)
  | H : exec ?st ?t (mcall ?c ?s) (?r, ?s') ?t' |- _ =>
      let x := fresh "x" in apply (exec_mcall_inv st c s t r s' t') in H as (x & ? & ? & ?)
  | H : exec _ _ (mlift _ _) _ _ |- _ => apply exec_mlift_inv in H as [H ?]
  | H : exec _ _ (mret _ _) _ _ |- _ => apply exec_mret_inv in H as (? & ? & ?)
  | H : exec _ _ (mget _) _ _ |- _ => apply exec_ret_inv in H as [? ?]
  | H : exec _ _ (mset _ _) _ _ |- _ => apply exec_ret_inv in H as [? ?]
  | H : exec _ _ (mmodify _ _) _ _ |- _ => apply exec_ret_inv in H as [? ?]
  | H : exec _ _ (Ret _) _ _ |- _ => apply exec_ret_inv in H as [? ?]
  | H : exec _ _ (pbind _ _) _ _ |- _ =>
      let a := fresh "a" in let t := fresh "t" in
      apply exec_bind_inv in H as (a & t & ? & H)
  | H : exec ?st ?s (call ?c) ?x ?s' |- _ => apply (exec_call_inv st s c x s') in H
  | H : _ = Panic _ ∧ _ = _ ∧ _ = _ |- _ => destruct H as (? & ? & ?)
  | H : _ = Err _ ∧ _ = _ ∧ _ = _ |- _ => destruct H as (? & ? & ?)
  end; simplify_eq/=.

(** ** Combining interfaces

    The commands of both interfaces; a program over one of them is a program over the sum. *)

Definition isum (I J : iface) : iface :=
  Iface (cmd I + cmd J) (λ c, match c with inl c => resp I c | inr c => resp J c end).

Fixpoint inj_l {I J R} (p : prog I R) : prog (isum I J) R :=
  match p with
  | Ret r => Ret r
  | Vis c k => Vis (inl c : cmd (isum I J)) (λ x, inj_l (k x))
  end.

Fixpoint inj_r {I J R} (p : prog J R) : prog (isum I J) R :=
  match p with
  | Ret r => Ret r
  | Vis c k => Vis (inr c : cmd (isum I J)) (λ x, inj_r (k x))
  end.

(** Environments side by side. *)
Definition st_sum {I J : iface} {S T} (stI : S → ∀ c : cmd I, resp I c → S → Prop)
    (stJ : T → ∀ c : cmd J, resp J c → T → Prop) (st : S * T) (c : cmd (isum I J))
    : resp (isum I J) c → S * T → Prop :=
  match c with
  | inl c => λ x st', stI st.1 c x st'.1 ∧ st'.2 = st.2
  | inr c => λ x st', stJ st.2 c x st'.2 ∧ st'.1 = st.1
  end.

Section sum.
Context {I J : iface} {S T : Type} (stI : S → ∀ c : cmd I, resp I c → S → Prop)
  (stJ : T → ∀ c : cmd J, resp J c → T → Prop).

Lemma exec_inj_l {R} (p : prog I R) s t r s' t' :
  exec (st_sum stI stJ) (s, t) (inj_l p) r (s', t') ↔ exec stI s p r s' ∧ t' = t.
Proof.
  revert s. induction p as [a|c k IH]; intros s; simpl inj_l.
  - rewrite !exec_ret_inv. naive_solver.
  - rewrite !exec_vis_inv. simpl. split.
    + intros (x & [s1 t1] & [Hs E] & He). simpl in *. subst t1. apply IH in He as [He ->]. eauto.
    + intros [(x & s1 & Hs & He) ->]. exists x, (s1, t). split; [done|]. by apply IH.
Qed.

Lemma exec_inj_r {R} (p : prog J R) s t r s' t' :
  exec (st_sum stI stJ) (s, t) (inj_r p) r (s', t') ↔ exec stJ t p r t' ∧ s' = s.
Proof.
  revert t. induction p as [a|c k IH]; intros t; simpl inj_r.
  - rewrite !exec_ret_inv. naive_solver.
  - rewrite !exec_vis_inv. simpl. split.
    + intros (x & [s1 t1] & [Hs E] & He). simpl in *. subst s1. apply IH in He as [He ->]. eauto.
    + intros [(x & t1 & Hs & He) ->]. exists x, (s, t1). split; [done|]. by apply IH.
Qed.

End sum.

(** ** What holds of every result

    [leaves Q p]: every result that [p] can return satisfies [Q], whatever the answers. *)

Fixpoint leaves {I R} (Q : R → Prop) (p : prog I R) : Prop :=
  match p with Ret r => Q r | Vis c k => ∀ x, leaves Q (k x) end.

Lemma leaves_mono {I R} (Q Q' : R → Prop) (p : prog I R) : (∀ r, Q r → Q' r) → leaves Q p → leaves Q' p.
Proof. intros HQ. induction p as [r|c k IH]; simpl; [apply HQ|]. intros Hk x. by apply IH. Qed.

Lemma leaves_bind {I A B} (Q : B → Prop) (p : prog I A) (f : A → prog I B) :
  leaves (λ a, leaves Q (f a)) p → leaves Q (pbind p f).
Proof. induction p as [a|c k IH]; simpl; [done|]. intros Hk x. by apply IH. Qed.

Lemma leaves_any {I R} (Q : R → Prop) (p : prog I R) : (∀ r, Q r) → leaves Q p.
Proof. intros HQ. induction p as [r|c k IH]; simpl; [apply HQ|]. intros x. apply IH. Qed.

(** For a property of the successful results. *)
Lemma leaves_ok_bind {I A B} (P : B → Prop) (Q : A → Prop) (p : prog I (res A)) (f : A → prog I (res B)) :
  leaves (λ r, ∀ a, r = Ok a → Q a) p → (∀ a, Q a → leaves (λ r, ∀ b, r = Ok b → P b) (f a)) →
  leaves (λ r, ∀ b, r = Ok b → P b) (cbind p f).
Proof.
  intros Hp Hf. unfold cbind. apply leaves_bind. eapply leaves_mono, Hp. intros [a|e|w] Ha; [|done..].
  by apply Hf, Ha.
Qed.

Lemma leaves_inj_r {I J R} (Q : R → Prop) (p : prog J R) : leaves Q p → leaves Q (inj_r (I := I) p).
Proof. induction p as [r|c k IH]; simpl; [done|]. intros Hk x. by apply IH. Qed.

Lemma leaves_exec {I R S} (st : S → ∀ c : cmd I, resp I c → S → Prop) (Q : R → Prop) (p : prog I R) s r s' :
  leaves Q p → exec st s p r s' → Q r.
Proof.
  revert s. induction p as [a|c k IH]; intros s; simpl leaves.
  - intros Hq (-> & _)%exec_ret_inv. done.
  - intros Hq (x & s1 & _ & He)%exec_vis_inv. by eapply IH.
Qed.

Lemma leaves_steps {I R} (Q : R → Prop) (p : prog I R) t r : leaves Q p → steps p t (Ret r) → Q r.
Proof.
  intros Hq Hs. remember (Ret r) as p' eqn:E. induction Hs as [p|c k x t p' _ IH]; [by subst|].
  by apply IH.
Qed.

(** A property of the receiver that a method keeps, however it ends. *)
Definition keeps {I : iface} {S A : Type} (K : S → Prop) (m : method I S A) : Prop :=
  ∀ s, K s → leaves (λ rs : res A * S, K rs.2) (m s).

Section keeps.
Context {I : iface} {S : Type} (K : S → Prop).

Lemma keeps_bind {A B} (m : method I S A) (f : A → method I S B) :
  keeps K m → (∀ a, keeps K (f a)) → keeps K (method_bind m f).
Proof.
  intros Hm Hf s Hs. unfold method_bind. apply leaves_bind. eapply leaves_mono, Hm, Hs.
  intros [[a|e|w] s1] Hk; simpl in *; [by apply Hf|done|done].
Qed.

Lemma keeps_try {A B} (m : method I S A) (f : res A → method I S B) :
  keeps K m → (∀ a, keeps K (f a)) → keeps K (mtry m f).
Proof.
  intros Hm Hf s Hs. unfold mtry. apply leaves_bind. eapply leaves_mono, Hm, Hs.
  intros [[a|e|w] s1] Hk; simpl in *; [by apply Hf|by apply Hf|done].
Qed.

Lemma keeps_ret {A} (r : res A) : keeps K (mret (I := I) r).
Proof. by intros s Hs. Qed.
Lemma keeps_get : keeps K (mget (I := I)).
Proof. by intros s Hs. Qed.
Lemma keeps_modify f : (∀ s, K s → K (f s)) → keeps K (mmodify (I := I) f).
Proof. intros Hf s Hs. by apply Hf. Qed.
Lemma keeps_call c : keeps K (mcall (I := I) c).
Proof. by intros s Hs x. Qed.
Lemma keeps_lift {A} (p : prog I (res A)) : keeps K (mlift p).
Proof.
  intros s Hs. unfold mlift. apply leaves_bind. induction p as [r|c k IH]; simpl; [done|]. intros x. apply IH.
Qed.

End keeps.

#[export] Hint Resolve keeps_bind keeps_try keeps_ret keeps_get keeps_call keeps_lift : letmein.
