(* ===== verification/Str.v ===== *)
(** * Strings

    A Rust [&str] or [String] is a list of Unicode scalar values. This file models the functions
    of the standard library that the configuration parser, the identifiers and the address
    formatting call. *)

From Stdlib Require Import Ascii.
From S2P Require Import Prelude.
Local Open Scope Z_scope.

Abbreviation str := (list Z) (only parsing).

(** An ASCII literal of the source. *)
Definition lit (s : string) : str := (λ a, Z.of_N (Ascii.N_of_ascii a)) <$> String.list_ascii_of_string s.
Arguments lit s%_string.

Definition ch (a : Ascii.ascii) : Z := Z.of_N (Ascii.N_of_ascii a).
Arguments ch a%_char.

Section trimming.
Implicit Types (s : str) (c : Z).

(** [char::is_whitespace]: the code points with the Unicode property White_Space. *)
Definition is_whitespace c : bool :=
  ((9 <=? c) && (c <=? 13)) || (c =? 32) || (c =? 133) || (c =? 160) || (c =? 5760) ||
  ((8192 <=? c) && (c <=? 8202)) || (c =? 8232) || (c =? 8233) || (c =? 8239) ||
  (c =? 8287) || (c =? 12288).

Fixpoint trim_start s : str :=
  match s with
  | [] => []
  | c :: s' => if is_whitespace c then trim_start s' else s
  end.
Definition trim_end s : str := rev (trim_start (rev s)).
Definition trim s : str := trim_end (trim_start s).

(** [str::to_lowercase], with the results that contain an ASCII character: the capital letters,
    the Kelvin sign and the dotted capital I. Every other character stays as it is here; the
    source compares the result with ASCII words only, which no such character can match. *)
Definition char_to_lowercase c : str :=
  if (65 <=? c) && (c <=? 90) then [c + 32]
  else if c =? 8490 then [107]
  else if c =? 304 then [105; 775]
  else [c].
Definition to_lowercase s : str := s ≫= char_to_lowercase.

Definition is_ascii s : bool := forallb (λ c, c <? 128) s.

(** [str::find] of a character, as the number of characters before it, and the two sides. *)
Fixpoint find_char c s : option (str * str) :=
  match s with
  | [] => None
  | c' :: s' =>
      if c =? c' then Some ([], s')
      else match find_char c s' with Some (a, b) => Some (c' :: a, b) | None => None end
  end.

(** [str::split] on a character: never the empty list. *)
Fixpoint split_char c s : list str :=
  match s with
  | [] => [[]]
  | c' :: s' =>
      if c =? c' then [] :: split_char c s'
      else match split_char c s' with a :: l => (c' :: a) :: l | [] => [[c']] end
  end.

Fixpoint strip_prefix p s : option str :=
  match p, s with
  | [], _ => Some s
  | a :: p', b :: s' => if a =? b then strip_prefix p' s' else None
  | _ :: _, [] => None
  end.

Definition starts_with c s : bool := match s with c' :: _ => c =? c' | [] => false end.
Definition ends_with c s : bool := match last s with Some c' => c =? c' | None => false end.

(** [str::lines]: split after each line feed; a line loses its line feed and then one carriage
    return before it. What follows the last line feed is a line if it is not empty. *)
Definition strip_cr s : str :=
  match last s with Some c => if c =? 13 then removelast s else s | None => s end.
Fixpoint lines_from (pieces : list str) : list str :=
  match pieces with
  | [] => []
  | [l] => match l with [] => [] | _ => [l] end
  | l :: rest => strip_cr l :: lines_from rest
  end.
Definition lines s : list str := lines_from (split_char 10 s).

End trimming.

(** ** Numbers *)

Section numbers.
Implicit Types (s : str) (c : Z).

(** [char::to_digit]. *)
Definition to_digit (radix c : Z) : option Z :=
  let d :=
    if (48 <=? c) && (c <=? 57) then c - 48
    else if (97 <=? c) && (c <=? 122) then c - 97 + 10
    else if (65 <=? c) && (c <=? 90) then c - 65 + 10
    else 99 in
  if d <? radix then Some d else None.

Definition is_ascii_digit c : bool := (48 <=? c) && (c <=? 57).
Definition is_ascii_hexdigit c : bool :=
  is_ascii_digit c || ((97 <=? c) && (c <=? 102)) || ((65 <=? c) && (c <=? 70)).

(** The accumulation loop of [from_str_radix], with its checked multiplication and addition. *)
Fixpoint parse_digits (max radix acc : Z) s : option Z :=
  match s with
  | [] => Some acc
  | c :: s' =>
      match to_digit radix c with
      | None => None
      | Some d =>
          if max <? acc * radix then None
          else if max <? acc * radix + d then None
          else parse_digits max radix (acc * radix + d) s'
      end
  end.

(** [uN::from_str_radix] for an unsigned type with the largest value [max]: an empty string and a
    lone sign are errors, a plus sign is accepted, a minus sign is not. *)
Definition from_str_radix (max : Z) s (radix : Z) : res Z :=
  match s with
  | [] => Err "cannot parse integer from empty string"
  | c :: rest =>
      let digits := if c =? ch "+" then rest else s in
      match digits with
      | [] => Err "invalid digit found in string"
      | _ => ok_or (parse_digits max radix 0 digits) "invalid digit found in string"
      end
  end.

(** [str::parse] into an unsigned type. *)
Definition parse_uint (max : Z) s : res Z := from_str_radix max s 10.

Definition digit_char (upper : bool) (d : Z) : Z :=
  if d <? 10 then 48 + d else (if upper then 55 else 87) + d.

Fixpoint digits_from (fuel : nat) (radix : Z) (upper : bool) (z : Z) (acc : str) : str :=
  match fuel with
  | O => acc
  | S f =>
      let acc' := digit_char upper (z mod radix) :: acc in
      if z / radix =? 0 then acc' else digits_from f radix upper (z / radix) acc'
  end.

(** [{}], [{:x}] and [{:X}] of an unsigned integer. *)
Definition show_radix (radix : Z) (upper : bool) (z : Z) : str :=
  digits_from (S (Z.to_nat (Z.log2 z))) radix upper z [].
Definition show_dec : Z → str := show_radix 10 false.
Definition show_hex : Z → str := show_radix 16 false.

(** [{:0nX}]: padded with zeros on the left to [n] characters. *)
Definition show_HEX_padded (n : nat) (z : Z) : str :=
  let s := show_radix 16 true z in replicate (n - length s) (ch "0") ++ s.

(** *** Lemmas *)

Lemma to_digit_char radix upper d :
  0 <= d < radix → radix <= 36 → to_digit radix (digit_char upper d) = Some d.
Proof.
  intros Hd Hr. unfold to_digit, digit_char.
  destruct (Z.ltb_spec d 10); [|destruct upper];
    repeat (case_match; try lia); simplify_eq; f_equal; lia.
Qed.

Lemma to_digit_bounds radix c d :
  radix <= 36 → to_digit radix c = Some d → 0 <= d < radix ∧ 48 <= c <= 122.
Proof.
  unfold to_digit. intros Hr H. repeat (case_match; try done); simplify_eq; lia.
Qed.

Lemma digit_not_whitespace radix c d :
  radix <= 36 → to_digit radix c = Some d → is_whitespace c = false.
Proof.
  intros Hr Hd.
  pose proof (to_digit_bounds _ _ _ Hr Hd). unfold is_whitespace.
  lia.
Qed.

Lemma digits_from_valid fuel radix upper z acc :
  2 <= radix <= 36 →
  Forall (λ c, is_Some (to_digit radix c)) acc →
  Forall (λ c, is_Some (to_digit radix c)) (digits_from fuel radix upper z acc).
Proof.
  intros Hr. revert z acc. induction fuel as [|f IH]; intros z acc Hacc; simpl; [done|].
  assert (Forall (λ c, is_Some (to_digit radix c)) (digit_char upper (z mod radix) :: acc)).
  { constructor; [|done]. rewrite to_digit_char; [eauto| |lia].
    apply Z.mod_pos_bound. lia. }
  case_match; auto.
Qed.

Lemma show_radix_valid radix upper z :
  2 <= radix <= 36 → Forall (λ c, is_Some (to_digit radix c)) (show_radix radix upper z).
Proof. intros Hr. by apply digits_from_valid. Qed.

Lemma parse_digits_from max fuel radix upper z acc :
  2 <= radix <= 36 → 0 <= z <= max → z < radix ^ Z.of_nat fuel → (0 < fuel)%nat →
  parse_digits max radix 0 (digits_from fuel radix upper z acc) = parse_digits max radix z acc.
Proof.
  intros Hr. revert z acc. induction fuel as [|f IH]; intros z acc Hz Hf Hpos; [lia|]. simpl.
  pose proof (Z.mod_pos_bound z radix ltac:(lia)) as Hm.
  pose proof (Z.div_mod z radix ltac:(lia)) as Hdm.
  assert (Hstep : ∀ a, 0 <= a → a * radix + z mod radix = z →
    parse_digits max radix a (digit_char upper (z mod radix) :: acc) = parse_digits max radix z acc).
  { intros a Ha E. simpl. rewrite to_digit_char by lia.
    rewrite (proj2 (Z.ltb_ge _ _)) by lia. by rewrite E, (proj2 (Z.ltb_ge _ _)) by lia. }
  destruct (Z.eqb_spec (z / radix) 0) as [E|E].
  - apply Hstep; lia.
  - assert (Hq : 0 <= z / radix) by (apply Z.div_pos; lia).
    assert (Hq2 : z / radix <= z) by (apply Z.div_le_upper_bound; nia).
    assert (Hf' : z / radix < radix ^ Z.of_nat f).
    { apply Z.div_lt_upper_bound; [lia|]. rewrite <- Z.pow_succ_r by lia.
      by rewrite <- Nat2Z.inj_succ. }
    rewrite IH; [apply Hstep; lia|lia|done|].
    destruct f; [|lia]. simpl in Hf'. lia.
Qed.

Lemma parse_show_radix max radix upper z :
  2 <= radix <= 36 → 0 <= z <= max →
  parse_digits max radix 0 (show_radix radix upper z) = Some z.
Proof.
  intros Hr Hz. unfold show_radix. rewrite parse_digits_from; [done|done|done| |lia].
  rewrite Nat2Z.inj_succ, Z2Nat.id by apply Z.log2_nonneg.
  destruct (decide (z = 0)) as [->|Hz0]; [simpl; lia|].
  apply Z.lt_le_trans with (2 ^ Z.succ (Z.log2 z)); [by apply Z.log2_spec; lia|].
  apply Z.pow_le_mono_l. lia.
Qed.

Lemma parse_digits_zeros max radix n s :
  2 <= radix <= 36 → 0 <= max →
  parse_digits max radix 0 (replicate n (ch "0") ++ s) = parse_digits max radix 0 s.
Proof.
  intros Hr Hm. induction n as [|n IH]; [done|].
  assert (E : to_digit radix (ch "0") = Some 0).
  { change (to_digit radix (ch "0")) with (if 0 <? radix then Some 0 else None).
    destruct (Z.ltb_spec 0 radix); [done|lia]. }
  cbn [replicate app parse_digits]. rewrite E, Z.mul_0_l, Z.add_0_r.
  destruct (Z.ltb_spec max 0); [lia|exact IH].
Qed.

Lemma show_radix_inj radix upper z1 z2 :
  2 <= radix <= 36 → 0 <= z1 → 0 <= z2 →
  show_radix radix upper z1 = show_radix radix upper z2 → z1 = z2.
Proof.
  intros Hr H1 H2 E.
  pose proof (parse_show_radix (Z.max z1 z2) radix upper z1 Hr ltac:(lia)) as E1.
  pose proof (parse_show_radix (Z.max z1 z2) radix upper z2 Hr ltac:(lia)) as E2.
  rewrite E in E1. congruence.
Qed.

Lemma show_radix_nonempty radix upper z : show_radix radix upper z ≠ [].
Proof.
  assert (H : ∀ f z acc, acc ≠ [] → digits_from f radix upper z acc ≠ []).
  { induction f as [|f IH]; intros z' acc Hacc; simpl; [done|]. case_match; [done|]. by apply IH. }
  unfold show_radix. simpl. case_match; [done|]. by apply H.
Qed.

(** A digit is neither a sign nor a separator, so printing a number and parsing it again, with any
    number of leading zeros, gives the number back. *)
Lemma to_digit_not_plus radix c d : radix <= 36 → to_digit radix c = Some d → c ≠ ch "+".
Proof.
  intros Hr H ->. change ((if 99 <? radix then Some 99 else None) = Some d) in H.
  destruct (Z.ltb_spec 99 radix); [lia|done].
Qed.

Lemma from_str_radix_padded max radix upper n z :
  2 <= radix <= 36 → 0 <= z <= max →
  from_str_radix max (replicate n (ch "0") ++ show_radix radix upper z) radix = Ok z.
Proof.
  intros Hr Hz. set (s := replicate n (ch "0") ++ show_radix radix upper z).
  assert (Hp : parse_digits max radix 0 s = Some z).
  { unfold s. rewrite parse_digits_zeros by lia. by apply parse_show_radix. }
  unfold from_str_radix. destruct s as [|c rest] eqn:Es.
  { unfold s in Es. apply app_eq_nil in Es as [_ Es]. by apply show_radix_nonempty in Es. }
  assert (Hc : c ≠ ch "+").
  { simpl in Hp. destruct (to_digit radix c) as [d|] eqn:Ed; [|done].
    by eapply to_digit_not_plus; [|exact Ed]; lia. }
  rewrite (proj2 (Z.eqb_neq _ _) Hc). by rewrite Hp.
Qed.

Lemma trim_start_id s : Forall (λ c, is_whitespace c = false) s → trim_start s = s.
Proof. destruct 1 as [|c s Hc _]; simpl; [done|]. by rewrite Hc. Qed.

Lemma trim_id s : Forall (λ c, is_whitespace c = false) s → trim s = s.
Proof.
  intros H. unfold trim, trim_end. rewrite (trim_start_id s H), trim_start_id.
  - apply rev_involutive.
  - by apply Forall_rev.
Qed.

Lemma show_HEX_padded_digits n z :
  Forall (λ c, is_Some (to_digit 16 c)) (show_HEX_padded n z).
Proof.
  unfold show_HEX_padded. apply Forall_app. split.
  - apply Forall_replicate. by exists 0.
  - by apply show_radix_valid.
Qed.

Lemma length_digits_from fuel radix upper z acc :
  2 <= radix → 0 <= z →
  (length acc ≤ length (digits_from fuel radix upper z acc))%nat ∧
  ∀ n, z < radix ^ Z.of_nat n → (0 < n)%nat →
    (length (digits_from fuel radix upper z acc) ≤ n + length acc)%nat.
Proof.
  intros Hr. revert z acc. induction fuel as [|f IH]; intros z acc Hz; simpl; [split; [done|lia]|].
  destruct (Z.eqb_spec (z / radix) 0) as [E|E]; simpl; [split; [lia|intros; lia]|].
  pose proof (Z.div_pos z radix ltac:(lia) ltac:(lia)).
  destruct (IH (z / radix) (digit_char upper (z mod radix) :: acc)) as [IH1 IH2]; [lia|].
  simpl in *. split; [lia|]. intros n Hn Hpos. destruct n as [|n]; [lia|].
  assert (z / radix < radix ^ Z.of_nat n).
  { apply Z.div_lt_upper_bound; [lia|]. rewrite <- Z.pow_succ_r by lia.
    by rewrite <- Nat2Z.inj_succ. }
  destruct n as [|n]; [simpl in *; lia|]. specialize (IH2 (S n) ltac:(done)). lia.
Qed.

Lemma length_show_HEX_padded n z :
  0 <= z < 16 ^ Z.of_nat n → (0 < n)%nat → length (show_HEX_padded n z) = n.
Proof.
  intros Hz Hn. unfold show_HEX_padded. rewrite length_app, length_replicate.
  destruct (length_digits_from (S (Z.to_nat (Z.log2 z))) 16 true z []) as [_ H]; [lia|lia|].
  specialize (H n ltac:(lia) Hn). cbn [length] in H.
  unfold show_radix. lia.
Qed.

Lemma parse_digits_bound max radix acc s z :
  0 <= acc <= max → 2 <= radix <= 36 → parse_digits max radix acc s = Some z → 0 <= z <= max.
Proof.
  intros Hacc Hr. revert acc Hacc. induction s as [|c s IH]; intros acc Hacc; simpl.
  { intros [= <-]. done. }
  destruct (to_digit radix c) as [d|] eqn:Ed; [|done].
  apply to_digit_bounds in Ed as [Hd _]; [|lia].
  destruct (Z.ltb_spec max (acc * radix)); [done|].
  destruct (Z.ltb_spec max (acc * radix + d)); [done|].
  apply IH. nia.
Qed.

(** What an unsigned parse returns fits the type. *)
Lemma from_str_radix_bound max s radix z :
  0 <= max → 2 <= radix <= 36 → from_str_radix max s radix = Ok z → 0 <= z <= max.
Proof.
  intros Hm Hr. unfold from_str_radix. repeat (case_match; try done);
    intros H'; apply ok_or_ok in H'; eapply parse_digits_bound; try exact H'; lia.
Qed.

End numbers.

(** ** Splitting what was joined *)

(** Joins the parts with a separator character between them. *)
Definition join (c : Z) (l : list str) : str :=
  match l with [] => [] | x :: l' => x ++ (l' ≫= (λ y, c :: y)) end.

Section split.
Implicit Types (c : Z) (s : str) (l : list str).

Lemma split_char_none c s : c ∉ s → split_char c s = [s].
Proof.
  induction s as [|c' s IH]; intros H; simpl; [done|].
  apply not_elem_of_cons in H as [Hne Hs].
  destruct (Z.eqb_spec c c'); [done|]. by rewrite IH.
Qed.

Lemma split_char_app c a b : split_char c (a ++ c :: b) = split_char c a ++ split_char c b.
Proof.
  assert (Hnil : ∀ s, split_char c s ≠ []).
  { intros s. destruct s as [|c' s]; simpl; [done|]. case_match; [done|]. by case_match. }
  induction a as [|c' a IH]; simpl.
  - by rewrite Z.eqb_refl.
  - destruct (Z.eqb_spec c c'); [by rewrite IH|]. rewrite IH.
    destruct (split_char c a) eqn:E; [by apply Hnil in E|]. done.
Qed.

Lemma split_char_join c l :
  Forall (λ s, c ∉ s) l → l ≠ [] → split_char c (join c l) = l.
Proof.
  destruct l as [|x l]; [done|]. intros [Hx Hl]%Forall_cons _. unfold join.
  revert x Hx. induction Hl as [|y l Hy Hl IH]; intros x Hx.
  - simpl; rewrite app_nil_r. by apply split_char_none.
  - change (split_char c (x ++ c :: (y ++ (l ≫= (λ y, c :: y)))) = x :: y :: l).
    by rewrite split_char_app, split_char_none, (IH y Hy).
Qed.

(** The pieces of a joined list; the empty list leaves one empty piece. *)
Definition pieces l : list str := match l with [] => [[]] | _ => l end.

Lemma split_char_pieces c l : Forall (λ s, c ∉ s) l → split_char c (join c l) = pieces l.
Proof.
  intros H. destruct l as [|x l]; [done|]. unfold pieces. by apply split_char_join.
Qed.

(** The first empty piece separates lists of non-empty pieces. *)
Lemma app_empty_piece_inj (p q x y : list str) :
  Forall (λ s, s ≠ []) p → Forall (λ s, s ≠ []) q → p ++ [] :: x = q ++ [] :: y → p = q ∧ x = y.
Proof.
  intros Hp. revert q. induction Hp as [|a p Ha Hp IH]; intros q Hq E;
    destruct Hq as [|b q Hb Hq]; simplify_eq/=; [done..|].
  by destruct (IH q Hq) as [-> ->].
Qed.

Lemma pieces_inj (l1 l2 : list str) :
  Forall (λ s, s ≠ []) l1 → Forall (λ s, s ≠ []) l2 → pieces l1 = pieces l2 → l1 = l2.
Proof.
  intros H1 H2. destruct H1, H2; simpl; intros; by simplify_eq.
Qed.

Lemma pieces_empty_piece_inj (p q x y : list str) :
  Forall (λ s, s ≠ []) p → Forall (λ s, s ≠ []) q →
  Forall (λ s, s ≠ []) x → Forall (λ s, s ≠ []) y →
  pieces p ++ [[]] ++ pieces x = pieces q ++ [[]] ++ pieces y → p = q ∧ x = y.
Proof.
  intros Hp Hq Hx Hy E. destruct Hp as [|a p Ha Hp], Hq as [|b q Hb Hq]; simpl in E.
  - injection E as E. split; [done|]. by apply pieces_inj.
  - by simplify_eq.
  - by simplify_eq.
  - change (a :: p ++ [] :: pieces x) with ((a :: p) ++ [] :: pieces x) in E.
    change (b :: q ++ [] :: pieces y) with ((b :: q) ++ [] :: pieces y) in E.
    apply app_empty_piece_inj in E as [-> E]; [|by constructor..].
    split; [done|]. by apply pieces_inj.
Qed.

Lemma split_char_nonempty c s : split_char c s ≠ [].
Proof. destruct s as [|c' s]; simpl; [done|]. case_match; [done|]. by case_match. Qed.

Lemma not_elem_of_join c sep (l : list str) :
  c ≠ sep → Forall (λ s, c ∉ s) l → c ∉ join sep l.
Proof.
  intros Hne H. unfold join. destruct H as [|x l Hx H]; [apply not_elem_of_nil|].
  intros [?|Hin]%elem_of_app; [done|]. apply list_elem_of_bind in Hin as (y & Hc & Hy).
  rewrite Forall_forall in H. apply elem_of_cons in Hc as [?|?]; [done|]. by apply (H y).
Qed.

(** Lines that are terminated by line feeds and hold none. *)
Lemma lines_concat (ls : list str) :
  Forall (λ l : str, (10 ∉ l) ∧ last l ≠ Some 13) ls → lines (ls ≫= (λ l : str, l ++ [10])) = ls.
Proof.
  intros H. unfold lines. induction H as [|l ls [H10 H13] H IH]; [done|].
  change ((l :: ls) ≫= (λ l : str, l ++ [10])) with ((l ++ [10]) ++ (ls ≫= (λ l : str, l ++ [10]))).
  rewrite <- app_assoc. simpl ([10] ++ _). rewrite split_char_app, split_char_none by done.
  destruct (split_char 10 _) as [|p ps] eqn:E; [by apply split_char_nonempty in E|].
  simpl. rewrite <- IH. simpl. f_equal.
  unfold strip_cr. destruct (last l) as [c|]; [|done].
  destruct (Z.eqb_spec c 13) as [->|]; [done|done].
Qed.

End split.

