(* ===== verification/Proto.v ===== *)
(** * The wire protocol (letmein-proto/src/lib.rs)

    Identifiers, random tokens, the message type with its authentication token, and its
    serialization. HMAC-SHA3-256 and the constant-time comparison belong to other crates: the class
    [Crypto] states what is used of them. *)

From Stdlib Require Import Ascii.
From S2P Require Import Prelude Prog Str.
Local Open Scope Z_scope.
Local Open Scope prog_scope.

(** The primitives of the crates [hmac], [sha3] and [subtle]. *)
Class Crypto : Type := {
  hmac_sha3_256 : list byte → list byte → list byte;
  hmac_length : ∀ key data, length (hmac_sha3_256 key data) = 32%nat;
  ct_eq : list byte → list byte → bool;
  ct_eq_spec : ∀ a b, ct_eq a b = bool_decide (a = b);
}.

Definition PORT : u16 := 5800.
Definition MAGIC : u32 := 991672089. (* 0x3B1BB719 *)
Definition SALT_SIZE : nat := 8.
Definition AUTH_SIZE : nat := 32.
Definition KEY_SIZE : nat := 32.
Definition ZERO_AUTH : list byte := replicate AUTH_SIZE x00.

(** ** Identifiers *)

Record UserId : Type := MkUserId { UserId_0 : u32 }.
Record ResourceId : Type := MkResourceId { ResourceId_0 : u32 }.

#[export] Instance UserId_eq_dec : EqDecision UserId.
Proof. solve_decision. Defined.
#[export] Instance ResourceId_eq_dec : EqDecision ResourceId.
Proof. solve_decision. Defined.
#[export] Program Instance UserId_countable : Countable UserId :=
  inj_countable' UserId_0 MkUserId _.
Next Obligation. by intros []. Qed.
#[export] Program Instance ResourceId_countable : Countable ResourceId :=
  inj_countable' ResourceId_0 MkResourceId _.
Next Obligation. by intros []. Qed.

(** [Display] and [FromStr] of the macro [impl_id!]. *)
Definition id_display (id : u32) : str := show_HEX_padded 8 id.
Definition id_from_str (s : str) : res u32 := from_str_radix u32_max (trim s) 16.

Definition UserId_display (id : UserId) : str := id_display (UserId_0 id).
Definition UserId_from_str (s : str) : res UserId := MkUserId <$> id_from_str s.
Definition ResourceId_display (id : ResourceId) : str := id_display (ResourceId_0 id).
Definition ResourceId_from_str (s : str) : res ResourceId := MkResourceId <$> id_from_str s.

(** ** Random tokens *)

(** The sanity checks on the bytes that [getrandom::fill] delivered. *)
Definition secure_random_check (buf : list byte) : res (list byte) :=
  let sz := length buf in
  _ ← assert (negb (bool_decide (buf = replicate sz x00))) "assertion failed: buf != 00";
  _ ← assert (negb (bool_decide (buf = replicate sz xff))) "assertion failed: buf != FF";
  match buf with
  | [] => Panic "index out of bounds"
  | first :: _ =>
      _ ← assert (negb (forallb (λ x, bool_decide (x = first)) buf)) "assertion failed: all equal";
      Ok buf
  end.

Definition secure_random {I} `{HasRandom I} (SZ : nat) : prog I (res (list byte)) :=
  if (SZ <? 8)%nat then Ret (Panic "assertion failed: SZ >= 8")
  else
    let* x := call (random_cmd SZ) in
    match random_resp SZ x with
    | None => Ret (Panic "getrandom failed")
    | Some buf => Ret (secure_random_check (vec_to_list buf))
    end.

(** ** Operations *)

Inductive Operation : Type := Knock | Challenge | Response | ComeIn | GoAway | Close.

#[export] Instance Operation_eq_dec : EqDecision Operation.
Proof. solve_decision. Defined.

Definition Operation_to_u32 (op : Operation) : u32 :=
  match op with
  | Knock => 0 | Challenge => 1 | Response => 2 | ComeIn => 3 | GoAway => 4 | Close => 5
  end.

Definition Operation_try_from (value : u32) : res Operation :=
  if value =? Operation_to_u32 Knock then Ok Knock
  else if value =? Operation_to_u32 Challenge then Ok Challenge
  else if value =? Operation_to_u32 Response then Ok Response
  else if value =? Operation_to_u32 ComeIn then Ok ComeIn
  else if value =? Operation_to_u32 GoAway then Ok GoAway
  else if value =? Operation_to_u32 Close then Ok Close
  else Err "Invalid Message/Operation value".

(** ** Messages *)

Definition MSG_SIZE : nat := 4 + 4 + 4 + 4 + SALT_SIZE + AUTH_SIZE.
Definition MSG_OFFS_MAGIC : nat := 0.
Definition MSG_OFFS_OPERATION : nat := 4.
Definition MSG_OFFS_USER : nat := 8.
Definition MSG_OFFS_RESOURCE : nat := 12.
Definition MSG_OFFS_SALT : nat := 16.
Definition MSG_OFFS_AUTH : nat := 24.

Record Message : Type := MkMessage {
  m_magic : u32;
  m_operation : Operation;
  m_user : UserId;
  m_resource : ResourceId;
  m_salt : list byte;
  m_auth : list byte;
}.

#[export] Instance Message_eq_dec : EqDecision Message.
Proof. solve_decision. Defined.

(** The widths that the Rust types of the fields enforce, and the constant magic code. *)
Record Message_wf (m : Message) : Prop := {
  wf_magic : m_magic m = MAGIC;
  wf_user : fits 32 (UserId_0 (m_user m));
  wf_resource : fits 32 (ResourceId_0 (m_resource m));
  wf_salt : length (m_salt m) = SALT_SIZE;
  wf_auth : length (m_auth m) = AUTH_SIZE;
}.

Definition set_auth (auth : list byte) (m : Message) : Message :=
  MkMessage (m_magic m) (m_operation m) (m_user m) (m_resource m) (m_salt m) auth.

(** [Message::new]. *)
Definition Message_new {I} `{HasRandom I} (operation : Operation) (user : UserId)
    (resource : ResourceId) : prog I (res Message) :=
  let? salt := secure_random SALT_SIZE in
  Ret (Ok (MkMessage MAGIC operation user resource salt ZERO_AUTH)).

Section authentication.
Context `{Crypto}.

(** The bytes fed to the MAC by the sequence of [mac.update] calls. *)
Definition mac_input (m : Message) (challenge : list byte) : list byte :=
  to_be_bytes 4 (Operation_to_u32 (m_operation m)) ++
  to_be_bytes 4 (UserId_0 (m_user m)) ++
  to_be_bytes 4 (ResourceId_0 (m_resource m)) ++
  m_salt m ++ challenge.

Definition authenticate (m : Message) (shared_key challenge : list byte) : res (list byte) :=
  _ ← assert (length shared_key =? KEY_SIZE)%nat "assertion failed: shared_key.len() == KEY_SIZE";
  _ ← assert (length challenge =? AUTH_SIZE)%nat "assertion failed: challenge.len() == AUTH_SIZE";
  Ok (hmac_sha3_256 shared_key (mac_input m challenge)).

Definition authenticate_no_challenge (m : Message) (shared_key : list byte) : res (list byte) :=
  authenticate m shared_key ZERO_AUTH.

Definition check_auth_ok (m : Message) (shared_key : list byte) (challenge : Message) : res bool :=
  _ ← assert (bool_decide (m_operation challenge = Challenge))
        "assertion failed: challenge.operation() == Challenge";
  _ ← assert (bool_decide (m_operation m = Response))
        "assertion failed: self.operation() == Response";
  a ← authenticate m shared_key (m_auth challenge);
  Ok (ct_eq (m_auth m) a).

Definition is_initial (op : Operation) : bool :=
  bool_decide (op = Knock) || bool_decide (op = Close).

Definition check_auth_ok_no_challenge (m : Message) (shared_key : list byte) : res bool :=
  _ ← assert (is_initial (m_operation m)) "Operation must be Knock or Close";
  a ← authenticate_no_challenge m shared_key;
  Ok (ct_eq (m_auth m) a).

Definition generate_auth (m : Message) (shared_key : list byte) (challenge : Message)
    : res Message :=
  _ ← assert (bool_decide (m_operation challenge = Challenge))
        "assertion failed: challenge.operation() == Challenge";
  _ ← assert (bool_decide (m_operation m = Response))
        "assertion failed: self.operation() == Response";
  a ← authenticate m shared_key (m_auth challenge);
  Ok (set_auth a m).

Definition generate_auth_no_challenge (m : Message) (shared_key : list byte) : res Message :=
  _ ← assert (is_initial (m_operation m)) "Operation must be Knock or Close";
  a ← authenticate_no_challenge m shared_key;
  Ok (set_auth a m).

End authentication.

Definition generate_challenge {I} `{HasRandom I} (m : Message) : prog I (res Message) :=
  if bool_decide (m_operation m = Challenge) then
    let? auth := secure_random AUTH_SIZE in Ret (Ok (set_auth auth m))
  else Ret (Panic "assertion failed: self.operation() == Challenge").

(** [Message::msg_serialize]. *)
Definition msg_serialize (m : Message) : res (list byte) :=
  let buf := replicate MSG_SIZE x00 in
  let buf := write_at MSG_OFFS_MAGIC (to_be_bytes 4 (m_magic m)) buf in
  let buf := write_at MSG_OFFS_OPERATION (to_be_bytes 4 (Operation_to_u32 (m_operation m))) buf in
  let buf := write_at MSG_OFFS_USER (to_be_bytes 4 (UserId_0 (m_user m))) buf in
  let buf := write_at MSG_OFFS_RESOURCE (to_be_bytes 4 (ResourceId_0 (m_resource m))) buf in
  let buf := write_at MSG_OFFS_SALT (m_salt m) buf in
  let buf := write_at MSG_OFFS_AUTH (m_auth m) buf in
  Ok buf.

(** [Message::try_msg_deserialize]. *)
Definition try_msg_deserialize (buf : list byte) : res Message :=
  if negb (length buf =? MSG_SIZE)%nat then Err "Deserialize: Raw message size mismatch."
  else
    let magic := from_be_bytes (slice MSG_OFFS_MAGIC 4 buf) in
    let operation := from_be_bytes (slice MSG_OFFS_OPERATION 4 buf) in
    let user := from_be_bytes (slice MSG_OFFS_USER 4 buf) in
    let resource := from_be_bytes (slice MSG_OFFS_RESOURCE 4 buf) in
    let salt := slice MSG_OFFS_SALT SALT_SIZE buf in
    let auth := slice MSG_OFFS_AUTH AUTH_SIZE buf in
    if negb (magic =? MAGIC) then Err "Deserialize: Invalid magic code."
    else
      operation ← Operation_try_from operation;
      Ok (MkMessage magic operation (MkUserId user) (MkResourceId resource) salt auth).

(** ** Lemmas *)

Lemma Operation_try_from_to op : Operation_try_from (Operation_to_u32 op) = Ok op.
Proof. by destruct op. Qed.

Lemma Operation_try_from_ok v op : Operation_try_from v = Ok op → v = Operation_to_u32 op.
Proof.
  unfold Operation_try_from. repeat case_match; intros; simplify_eq;
    match goal with H : (_ =? _) = true |- _ => by apply Z.eqb_eq in H end.
Qed.

Lemma Operation_try_from_no_panic v : no_panic (Operation_try_from v).
Proof. unfold Operation_try_from. by repeat case_match. Qed.

Lemma Operation_fits op : fits 32 (Operation_to_u32 op).
Proof. unfold fits. by destruct op. Qed.

Lemma Operation_to_u32_inj op1 op2 : Operation_to_u32 op1 = Operation_to_u32 op2 → op1 = op2.
Proof. by destruct op1, op2. Qed.

(** Arithmetic on the constant sizes and offsets. *)
Ltac msg_sizes :=
  unfold MSG_SIZE, MSG_OFFS_MAGIC, MSG_OFFS_OPERATION, MSG_OFFS_USER, MSG_OFFS_RESOURCE,
    MSG_OFFS_SALT, MSG_OFFS_AUTH, SALT_SIZE, AUTH_SIZE, KEY_SIZE in *; lia.

Section layout.
Context (m : Message) (Hsalt : length (m_salt m) = SALT_SIZE) (Hauth : length (m_auth m) = AUTH_SIZE).

Lemma msg_serialize_layout : ∃ buf, msg_serialize m = Ok buf ∧ length buf = MSG_SIZE ∧
  slice MSG_OFFS_MAGIC 4 buf = to_be_bytes 4 (m_magic m) ∧
  slice MSG_OFFS_OPERATION 4 buf = to_be_bytes 4 (Operation_to_u32 (m_operation m)) ∧
  slice MSG_OFFS_USER 4 buf = to_be_bytes 4 (UserId_0 (m_user m)) ∧
  slice MSG_OFFS_RESOURCE 4 buf = to_be_bytes 4 (ResourceId_0 (m_resource m)) ∧
  slice MSG_OFFS_SALT SALT_SIZE buf = m_salt m ∧
  slice MSG_OFFS_AUTH AUTH_SIZE buf = m_auth m.
Proof using Hsalt Hauth.
  unfold SALT_SIZE, AUTH_SIZE in *. eexists. split; [reflexivity|].
  unfold MSG_SIZE, MSG_OFFS_MAGIC, MSG_OFFS_OPERATION, MSG_OFFS_USER, MSG_OFFS_RESOURCE,
    MSG_OFFS_SALT, MSG_OFFS_AUTH, SALT_SIZE, AUTH_SIZE.
  split; [length_simpl|].
  split_and!; read_field; apply slice_at_field; first [done | by rewrite length_to_be_bytes | length_simpl].
Qed.

End layout.

(** A message buffer is the concatenation of its fields. *)
Lemma msg_buffer_fields (buf : list byte) :
  length buf = MSG_SIZE →
  buf = slice MSG_OFFS_MAGIC 4 buf ++ slice MSG_OFFS_OPERATION 4 buf ++
        slice MSG_OFFS_USER 4 buf ++ slice MSG_OFFS_RESOURCE 4 buf ++
        slice MSG_OFFS_SALT SALT_SIZE buf ++ slice MSG_OFFS_AUTH AUTH_SIZE buf.
Proof.
  intros H. rewrite <- (slice_all buf) at 1. rewrite H.
  change MSG_SIZE with (4 + (4 + (4 + (4 + (8 + 32)))))%nat. by rewrite !slice_app_split.
Qed.

(** The checks of [try_msg_deserialize], in their order. *)
Lemma try_msg_deserialize_cases buf :
  (length buf ≠ MSG_SIZE ∧ try_msg_deserialize buf = Err "Deserialize: Raw message size mismatch.") ∨
  (length buf = MSG_SIZE ∧ from_be_bytes (slice MSG_OFFS_MAGIC 4 buf) ≠ MAGIC ∧
   try_msg_deserialize buf = Err "Deserialize: Invalid magic code.") ∨
  (length buf = MSG_SIZE ∧ from_be_bytes (slice MSG_OFFS_MAGIC 4 buf) = MAGIC ∧
   try_msg_deserialize buf =
     (operation ← Operation_try_from (from_be_bytes (slice MSG_OFFS_OPERATION 4 buf));
      Ok (MkMessage MAGIC operation
            (MkUserId (from_be_bytes (slice MSG_OFFS_USER 4 buf)))
            (MkResourceId (from_be_bytes (slice MSG_OFFS_RESOURCE 4 buf)))
            (slice MSG_OFFS_SALT SALT_SIZE buf) (slice MSG_OFFS_AUTH AUTH_SIZE buf)))).
Proof.
  unfold try_msg_deserialize. destruct (Nat.eqb_spec (length buf) MSG_SIZE); simpl; [|by left].
  destruct (Z.eqb_spec (from_be_bytes (slice MSG_OFFS_MAGIC 4 buf)) MAGIC) as [->|]; simpl.
  - by do 2 right.
  - by right; left.
Qed.

Lemma slice_be_fits off (buf : list byte) :
  (off + 4 ≤ length buf)%nat → fits 32 (from_be_bytes (slice off 4 buf)).
Proof. intros H. apply from_be_bytes_fits. by rewrite length_slice. Qed.

Lemma slice_be_bytes off (buf : list byte) :
  (off + 4 ≤ length buf)%nat → to_be_bytes 4 (from_be_bytes (slice off 4 buf)) = slice off 4 buf.
Proof. intros H. apply to_from_be_bytes. by rewrite length_slice. Qed.

#[export] Hint Rewrite slice_be_bytes using lia : letmein.

Lemma secure_random_check_ok buf buf' :
  secure_random_check buf = Ok buf' →
  buf' = buf ∧ buf ≠ replicate (length buf) x00 ∧ buf ≠ replicate (length buf) xff.
Proof.
  intros H. unfold secure_random_check, assert in H.
  repeat (case_bool_decide || case_match || simpl in H); by simplify_eq.
Qed.

(** Random bytes in a program over any interface. *)
Section random_lemmas.
Context {I : iface} `{HR : HasRandom I} (P : history I → cmd I → Prop).

(** The random source fails, or its bytes fail the sanity checks. *)
Definition bad_random {n} (x : option (vec byte n)) : bool :=
  match x with Some v => is_panic (secure_random_check v) | None => true end.

Lemma wp_random (Q : history I → res (list byte) → Prop) t n :
  (8 <= n)%nat → P t (random_cmd n) →
  (∀ x v, random_resp n x = Some v → Q (t ++ [ev (random_cmd n) x]) (Ok (vec_to_list v))) →
  (∀ x w, bad_random (random_resp n x) = true → Q (t ++ [ev (random_cmd n) x]) (Panic w)) →
  wp P Q t (secure_random n).
Proof.
  intros Hn HP Hok Hp. unfold secure_random. rewrite (proj2 (Nat.ltb_ge _ _)) by lia.
  simpl. split; [done|]. intros x. specialize (Hok x). specialize (Hp x).
  destruct (random_resp n x) as [v|]; simpl; [|by apply Hp].
  simpl in Hp. destruct (secure_random_check v) as [b|e|w] eqn:E.
  - apply secure_random_check_ok in E as [-> _]. by apply Hok.
  - exfalso. revert E. unfold secure_random_check. destruct (vec_to_list v); simpl; unfold assert;
      repeat case_match; done.
  - by apply Hp.
Qed.

Lemma wp_new (Q : history I → res Message → Prop) t op u r :
  P t (random_cmd SALT_SIZE) →
  (∀ x v, random_resp SALT_SIZE x = Some v →
     Q (t ++ [ev (random_cmd SALT_SIZE) x]) (Ok (MkMessage MAGIC op u r (vec_to_list v) ZERO_AUTH))) →
  (∀ x w, bad_random (random_resp SALT_SIZE x) = true → Q (t ++ [ev (random_cmd SALT_SIZE) x]) (Panic w)) →
  wp P Q t (Message_new op u r).
Proof.
  intros HP Hok Hp. unfold Message_new. apply wp_cbind. apply wp_random; [unfold SALT_SIZE; lia|done..].
Qed.

End random_lemmas.

Section auth_lemmas.
Context `{Crypto}.

Lemma authenticate_ok m key challenge :
  length key = KEY_SIZE → length challenge = AUTH_SIZE →
  authenticate m key challenge = Ok (hmac_sha3_256 key (mac_input m challenge)).
Proof. intros Hk Hc. unfold authenticate. by rewrite Hk, Hc. Qed.

Lemma check_auth_ok_spec m key challenge :
  length key = KEY_SIZE → length (m_auth challenge) = AUTH_SIZE →
  m_operation challenge = Challenge → m_operation m = Response →
  check_auth_ok m key challenge =
    Ok (bool_decide (m_auth m = hmac_sha3_256 key (mac_input m (m_auth challenge)))).
Proof.
  intros Hk Hc Hop Hop'. unfold check_auth_ok.
  rewrite Hop, Hop', !bool_decide_eq_true_2 by done. simpl.
  rewrite authenticate_ok by done. simpl. by rewrite ct_eq_spec.
Qed.

Lemma check_auth_ok_no_challenge_spec m key :
  length key = KEY_SIZE → is_initial (m_operation m) = true →
  check_auth_ok_no_challenge m key =
    Ok (bool_decide (m_auth m = hmac_sha3_256 key (mac_input m ZERO_AUTH))).
Proof.
  intros Hk Hop. unfold check_auth_ok_no_challenge, authenticate_no_challenge. rewrite Hop. simpl.
  rewrite authenticate_ok by done. simpl. by rewrite ct_eq_spec.
Qed.

Lemma mac_input_set_auth a m c : mac_input (set_auth a m) c = mac_input m c.
Proof. done. Qed.

End auth_lemmas.

Lemma msg_serialize_deserialize m :
  Message_wf m →
  ∃ buf, msg_serialize m = Ok buf ∧ length buf = MSG_SIZE ∧ try_msg_deserialize buf = Ok m.
Proof.
  intros [Hmagic Huser Hres Hsalt Hauth].
  destruct (msg_serialize_layout m Hsalt Hauth) as (buf & Hser & Hlen & Ema & Eop & Eus & Ers & Esa & Eau).
  exists buf. split_and!; [done|done|].
  destruct (try_msg_deserialize_cases buf) as [[? _]|[(_ & Hm & _)|(_ & _ & ->)]]; [done| |].
  - rewrite Ema, Hmagic in Hm. by destruct Hm.
  - rewrite Eop, Eus, Ers, Esa, Eau, !from_to_be_bytes_4 by (done || apply Operation_fits).
    rewrite Operation_try_from_to. simpl. rewrite <- Hmagic. by destruct m as [? ? [] [] ? ?].
Qed.

(** ** Properties *)

(** A well-formed message is serialized without an error to [MSG_SIZE] bytes, and
    deserializing these bytes gives the same message back. *)
Lemma msg_roundtrip m :
  Message_wf m →
  ∃ buf, msg_serialize m = Ok buf ∧ length buf = MSG_SIZE ∧ try_msg_deserialize buf = Ok m.
Proof. apply msg_serialize_deserialize. Qed.

(** C36 (canonical form). Whatever bytes arrive: if they deserialize to a message, then the message
    is well-formed and serializes to exactly these bytes. So the message determines the datagram,
    and no two datagrams carry the same message. *)
Theorem msg_deserialize_canonical buf m :
  try_msg_deserialize buf = Ok m → Message_wf m ∧ msg_serialize m = Ok buf.
Proof.
  intros Hde. destruct (try_msg_deserialize_cases buf) as [[_ E]|[(_ & _ & E)|(Hlen & Hmag & E)]];
    rewrite E in Hde; [done|done|]. clear E. inv_res.
  match goal with Ho : Operation_try_from _ = Ok ?op |- _ => apply Operation_try_from_ok in Ho as Hop end.
  set (m := MkMessage _ _ _ _ _ _).
  assert (Hs : length (m_salt m) = SALT_SIZE) by (apply length_slice; msg_sizes).
  assert (Ha : length (m_auth m) = AUTH_SIZE) by (apply length_slice; msg_sizes).
  split.
  - split; [done| | |done|done]; apply slice_be_fits; msg_sizes.
  - destruct (msg_serialize_layout m Hs Ha) as (buf' & -> & Hlen' & Ema & Eop & Eus & Ers & Esa & Eau).
    f_equal. rewrite (msg_buffer_fields buf' Hlen'), (msg_buffer_fields buf Hlen).
    rewrite Ema, Eop, Eus, Ers, Esa, Eau. unfold m.
    cbn [m_magic m_operation m_user m_resource m_salt m_auth UserId_0 ResourceId_0].
    rewrite <- Hop, <- Hmag.
    rewrite !slice_be_bytes by (msg_sizes). done.
Qed.

(** Deserialization never panics. It fails with the size error unless the buffer
    has [MSG_SIZE] bytes, else with the magic error unless the first four bytes are the magic code,
    else with the operation error unless the next four bytes are one of the six operations. *)
Lemma msg_deserialize_errors buf :
  no_panic (try_msg_deserialize buf) ∧
  (try_msg_deserialize buf = Err "Deserialize: Raw message size mismatch." ↔
     length buf ≠ MSG_SIZE) ∧
  (try_msg_deserialize buf = Err "Deserialize: Invalid magic code." ↔
     length buf = MSG_SIZE ∧ slice MSG_OFFS_MAGIC 4 buf ≠ to_be_bytes 4 MAGIC) ∧
  (try_msg_deserialize buf = Err "Invalid Message/Operation value" ↔
     length buf = MSG_SIZE ∧ slice MSG_OFFS_MAGIC 4 buf = to_be_bytes 4 MAGIC ∧
     ∀ op, slice MSG_OFFS_OPERATION 4 buf ≠ to_be_bytes 4 (Operation_to_u32 op)).
Proof.
  assert (Hmagic : length buf = MSG_SIZE →
    from_be_bytes (slice MSG_OFFS_MAGIC 4 buf) = MAGIC ↔
    slice MSG_OFFS_MAGIC 4 buf = to_be_bytes 4 MAGIC).
  { intros Hl. split; intros E; [|rewrite E; by apply from_to_be_bytes_4].
    rewrite <- E. symmetry. apply slice_be_bytes. msg_sizes. }
  destruct (try_msg_deserialize_cases buf) as [[Hl ->]|[(Hl & Hm & ->)|(Hl & Hm & ->)]].
  - by split_and!; split; try tauto; intros; destruct_and?.
  - rewrite (Hmagic Hl) in Hm. by split_and!; split; try tauto; intros; destruct_and?.
  - apply (Hmagic Hl) in Hm.
    assert (Hop : (∀ op, slice MSG_OFFS_OPERATION 4 buf ≠ to_be_bytes 4 (Operation_to_u32 op)) ↔
      Operation_try_from (from_be_bytes (slice MSG_OFFS_OPERATION 4 buf)) =
        Err "Invalid Message/Operation value").
    { split.
      - intros Hne. destruct (Operation_try_from _) as [op| |] eqn:E.
        + apply Operation_try_from_ok in E. destruct (Hne op). rewrite <- E. symmetry.
          apply slice_be_bytes. msg_sizes.
        + unfold Operation_try_from in E. by repeat (case_match; [by simplify_eq|]); simplify_eq.
        + pose proof (Operation_try_from_no_panic (from_be_bytes (slice MSG_OFFS_OPERATION 4 buf))) as Hn.
          by rewrite E in Hn.
      - intros E op Hs. rewrite Hs, from_to_be_bytes_4, Operation_try_from_to in E by
          apply Operation_fits. done. }
    rewrite Hop.
    destruct (Operation_try_from _) as [op|e|w] eqn:E; simpl; [by split_and!; split; intros; destruct_and?| |].
    + unfold Operation_try_from in E. repeat (case_match; [by simplify_eq|]).
      injection E as <-. split_and!; split; try tauto; intros; by destruct_and?.
    + pose proof (Operation_try_from_no_panic (from_be_bytes (slice MSG_OFFS_OPERATION 4 buf))) as Hn.
      by rewrite E in Hn.
Qed.

(** The MAC covers every field: the byte string that is authenticated determines the
    operation, the user, the resource, the salt and the challenge token: no two different
    combinations of well-formed fields share a MAC input. *)
Lemma mac_input_inj m1 m2 c1 c2 :
  Message_wf m1 → Message_wf m2 → length c1 = AUTH_SIZE → length c2 = AUTH_SIZE →
  mac_input m1 c1 = mac_input m2 c2 →
  m_operation m1 = m_operation m2 ∧ m_user m1 = m_user m2 ∧ m_resource m1 = m_resource m2 ∧
  m_salt m1 = m_salt m2 ∧ c1 = c2.
Proof.
  intros [_ Hu1 Hr1 Hs1 _] [_ Hu2 Hr2 Hs2 _] Hc1 Hc2 E. unfold mac_input in E.
  apply app_inj_1 in E as [Eop E]; [|by rewrite !length_to_be_bytes].
  apply app_inj_1 in E as [Eu E]; [|by rewrite !length_to_be_bytes].
  apply app_inj_1 in E as [Er E]; [|by rewrite !length_to_be_bytes].
  apply app_inj_1 in E as [Es Ec]; [|congruence].
  apply to_be_bytes_inj in Eop; [|apply Operation_fits..].
  apply to_be_bytes_inj in Eu; [|done..]. apply to_be_bytes_inj in Er; [|done..].
  split_and!; [by apply Operation_to_u32_inj| | |done|done].
  - by destruct (m_user m1), (m_user m2); simpl in *; subst.
  - by destruct (m_resource m1), (m_resource m2); simpl in *; subst.
Qed.

(** Identifiers are printed as eight hexadecimal digits that parse to the identifier. *)
Lemma id_display_roundtrip (u : UserId) (r : ResourceId) :
  fits 32 (UserId_0 u) → fits 32 (ResourceId_0 r) →
  UserId_from_str (UserId_display u) = Ok u ∧ length (UserId_display u) = 8%nat ∧
  ResourceId_from_str (ResourceId_display r) = Ok r ∧ length (ResourceId_display r) = 8%nat.
Proof.
  assert (H : ∀ id, fits 32 id →
    id_from_str (id_display id) = Ok id ∧ length (id_display id) = 8%nat).
  { intros id Hid. unfold id_from_str, id_display. rewrite trim_id.
    - split; [apply from_str_radix_padded|apply length_show_HEX_padded];
        unfold fits, u32_max in *; lia.
    - eapply Forall_impl; [apply show_HEX_padded_digits|]. intros c [d Hd].
      by eapply digit_not_whitespace; [|exact Hd]. }
  intros Hu Hr. destruct (H _ Hu) as [Eu Lu]. destruct (H _ Hr) as [Er Lr].
  unfold UserId_from_str, UserId_display, ResourceId_from_str, ResourceId_display.
  rewrite Eu, Er. by destruct u, r.
Qed.

(** ** Witnesses *)

(** A checksum in the place of the MAC, for evaluation on concrete inputs. *)
Definition toy_mac (key data : list byte) : list byte :=
  to_be_bytes 32 (foldl (λ acc b, (acc * 257 + byte.unsigned b + 1) mod 2 ^ 256) 0 (key ++ data)).

Definition toy_crypto : Crypto := {|
  hmac_sha3_256 := toy_mac;
  hmac_length _ _ := length_to_be_bytes 32 _;
  ct_eq a b := bool_decide (a = b);
  ct_eq_spec _ _ := eq_refl;
|}.

Definition sample_message : Message :=
  MkMessage MAGIC Close (MkUserId 2753813927) (MkResourceId 3160244343)
    (replicate 8 x4a) (replicate 32 x17).

Lemma sample_message_wf : Message_wf sample_message.
Proof. by split. Qed.

Lemma msg_deserialize_canonical_witness :
  let buf := to_be_bytes 4 MAGIC ++ to_be_bytes 4 3 ++ replicate 48 x9a in
  ∃ m, try_msg_deserialize buf = Ok m ∧ Message_wf m ∧ msg_serialize m = Ok buf.
Proof.
  intros buf. destruct (try_msg_deserialize buf) as [m| |] eqn:E; [|exfalso; vm_compute in E; discriminate E..].
  exists m. split; [reflexivity|]. exact (msg_deserialize_canonical buf m E).
Defined.

