(* ===== verification/FwProto.v ===== *)
(** * The firewall control protocol (letmein-fwproto/src/lib.rs)

    Addresses, the messages that [letmeind] and [letmeinfwd] exchange over the Unix socket, and
    their serialization. *)

From S2P Require Import Prelude.
Local Open Scope Z_scope.

(** [std::net::IpAddr], with the octets in network order. *)
Inductive IpAddr : Type := V4 (octets : vec byte 4) | V6 (octets : vec byte 16).

#[export] Instance IpAddr_eq_dec : EqDecision IpAddr.
Proof. solve_decision. Defined.
#[export] Program Instance IpAddr_countable : Countable IpAddr :=
  inj_countable' (λ a, match a with V4 o => inl o | V6 o => inr o end)
    (λ s, match s with inl o => V4 o | inr o => V6 o end) _.
Next Obligation. by intros []. Qed.

(** ** Enumerations *)

Inductive FirewallOperation : Type := FwNack | FwAck | FwOpen | FwClose.

Definition FirewallOperation_to_u16 (op : FirewallOperation) : u16 :=
  match op with FwNack => 0 | FwAck => 1 | FwOpen => 2 | FwClose => 3 end.

Definition FirewallOperation_try_from (value : u16) : res FirewallOperation :=
  if value =? FirewallOperation_to_u16 FwOpen then Ok FwOpen
  else if value =? FirewallOperation_to_u16 FwAck then Ok FwAck
  else if value =? FirewallOperation_to_u16 FwNack then Ok FwNack
  else if value =? FirewallOperation_to_u16 FwClose then Ok FwClose
  else Err "Invalid FirewallMessage/Operation value".

Inductive PortType : Type := PtTcp | PtUdp | PtTcpUdp.

Definition PortType_to_u16 (t : PortType) : u16 :=
  match t with PtTcp => 0 | PtUdp => 1 | PtTcpUdp => 2 end.

Definition PortType_try_from (value : u16) : res PortType :=
  if value =? PortType_to_u16 PtTcp then Ok PtTcp
  else if value =? PortType_to_u16 PtUdp then Ok PtUdp
  else if value =? PortType_to_u16 PtTcpUdp then Ok PtTcpUdp
  else Err "Invalid FirewallMessage/PortType value".

Inductive AddrType : Type := AtIpv6 | AtIpv4.

Definition AddrType_to_u16 (t : AddrType) : u16 :=
  match t with AtIpv6 => 0 | AtIpv4 => 1 end.

Definition AddrType_try_from (value : u16) : res AddrType :=
  if value =? AddrType_to_u16 AtIpv6 then Ok AtIpv6
  else if value =? AddrType_to_u16 AtIpv4 then Ok AtIpv4
  else Err "Invalid FirewallMessage/AddrType value".

#[export] Instance FirewallOperation_eq_dec : EqDecision FirewallOperation.
Proof. solve_decision. Defined.
#[export] Instance PortType_eq_dec : EqDecision PortType.
Proof. solve_decision. Defined.
#[export] Instance AddrType_eq_dec : EqDecision AddrType.
Proof. solve_decision. Defined.

(** ** Messages *)

Definition ADDR_SIZE : nat := 16.
Definition FWMSG_SIZE : nat := 2 + 2 + 2 + 2 + ADDR_SIZE.
Definition FWMSG_OFFS_OPERATION : nat := 0.
Definition FWMSG_OFFS_PORT_TYPE : nat := 2.
Definition FWMSG_OFFS_PORT : nat := 4.
Definition FWMSG_OFFS_ADDR_TYPE : nat := 6.
Definition FWMSG_OFFS_ADDR : nat := 8.

Record FirewallMessage : Type := MkFirewallMessage {
  f_operation : FirewallOperation;
  f_port_type : PortType;
  f_port : u16;
  f_addr_type : AddrType;
  f_addr : vec byte ADDR_SIZE;
}.

#[export] Instance FirewallMessage_eq_dec : EqDecision FirewallMessage.
Proof. solve_decision. Defined.

(** [#[derive(Default)]] of [FirewallMessage]. *)
Definition FirewallMessage_default : FirewallMessage :=
  MkFirewallMessage FwNack PtTcp 0 AtIpv6 (vreplicate ADDR_SIZE x00).

Definition addr_to_octets (addr : IpAddr) : AddrType * vec byte ADDR_SIZE :=
  match addr with
  | V4 o => (AtIpv4, vreplicate 12 x00 +++ o)
  | V6 o => (AtIpv6, o)
  end.

Definition octets_to_addr (addr_type : AddrType) (addr : vec byte ADDR_SIZE) : IpAddr :=
  match addr_type with
  | AtIpv4 => V4 (snd (@Vector.splitat byte 12 4 addr))
  | AtIpv6 => V6 addr
  end.

Definition new_open (addr : IpAddr) (port_type : PortType) (port : u16) : FirewallMessage :=
  let (addr_type, addr) := addr_to_octets addr in
  MkFirewallMessage FwOpen port_type port addr_type addr.

Definition new_close (addr : IpAddr) (port_type : PortType) (port : u16) : FirewallMessage :=
  let (addr_type, addr) := addr_to_octets addr in
  MkFirewallMessage FwClose port_type port addr_type addr.

Definition with_operation (op : FirewallOperation) (m : FirewallMessage) : FirewallMessage :=
  MkFirewallMessage op (f_port_type m) (f_port m) (f_addr_type m) (f_addr m).

Definition new_ack : FirewallMessage := with_operation FwAck FirewallMessage_default.
Definition new_nack : FirewallMessage := with_operation FwNack FirewallMessage_default.

Definition fwmsg_port (m : FirewallMessage) : option (PortType * u16) :=
  match f_operation m with
  | FwOpen | FwClose => Some (f_port_type m, f_port m)
  | FwAck | FwNack => None
  end.

Definition fwmsg_addr (m : FirewallMessage) : option IpAddr :=
  match f_operation m with
  | FwOpen | FwClose => Some (octets_to_addr (f_addr_type m) (f_addr m))
  | FwAck | FwNack => None
  end.

(** [FirewallMessage::msg_serialize]. *)
Definition fwmsg_serialize (m : FirewallMessage) : res (list byte) :=
  let buf := replicate FWMSG_SIZE x00 in
  let buf := write_at FWMSG_OFFS_OPERATION
               (to_be_bytes 2 (FirewallOperation_to_u16 (f_operation m))) buf in
  let buf := write_at FWMSG_OFFS_PORT_TYPE (to_be_bytes 2 (PortType_to_u16 (f_port_type m))) buf in
  let buf := write_at FWMSG_OFFS_PORT (to_be_bytes 2 (f_port m)) buf in
  let buf := write_at FWMSG_OFFS_ADDR_TYPE (to_be_bytes 2 (AddrType_to_u16 (f_addr_type m))) buf in
  let buf := write_at FWMSG_OFFS_ADDR (vec_to_list (f_addr m)) buf in
  Ok buf.

(** [FirewallMessage::try_msg_deserialize]. *)
Definition fwmsg_try_deserialize (buf : list byte) : res FirewallMessage :=
  if negb (length buf =? FWMSG_SIZE)%nat then Err "Deserialize: Raw message size mismatch."
  else
    let operation := from_be_bytes (slice FWMSG_OFFS_OPERATION 2 buf) in
    let port_type := from_be_bytes (slice FWMSG_OFFS_PORT_TYPE 2 buf) in
    let port := from_be_bytes (slice FWMSG_OFFS_PORT 2 buf) in
    let addr_type := from_be_bytes (slice FWMSG_OFFS_ADDR_TYPE 2 buf) in
    let addr := slice FWMSG_OFFS_ADDR ADDR_SIZE buf in
    operation ← FirewallOperation_try_from operation;
    port_type ← PortType_try_from port_type;
    addr_type ← AddrType_try_from addr_type;
    addr ← ok_or (array_try_from ADDR_SIZE addr) "could not convert slice to array";
    Ok (MkFirewallMessage operation port_type port addr_type addr).

(** ** Lemmas *)

Ltac fwmsg_sizes :=
  unfold FWMSG_SIZE, FWMSG_OFFS_OPERATION, FWMSG_OFFS_PORT_TYPE, FWMSG_OFFS_PORT,
    FWMSG_OFFS_ADDR_TYPE, FWMSG_OFFS_ADDR, ADDR_SIZE in *; lia.

Lemma FirewallOperation_try_from_ok v op :
  FirewallOperation_try_from v = Ok op ↔ v = FirewallOperation_to_u16 op.
Proof.
  split; [|by intros ->; destruct op].
  unfold FirewallOperation_try_from. repeat case_match; intros; simplify_eq; lia.
Qed.

Lemma PortType_try_from_ok v t : PortType_try_from v = Ok t ↔ v = PortType_to_u16 t.
Proof.
  split; [|by intros ->; destruct t].
  unfold PortType_try_from. repeat case_match; intros; simplify_eq; lia.
Qed.

Lemma AddrType_try_from_ok v t : AddrType_try_from v = Ok t ↔ v = AddrType_to_u16 t.
Proof.
  split; [|by intros ->; destruct t].
  unfold AddrType_try_from. repeat case_match; intros; simplify_eq; lia.
Qed.

Lemma enum_fits_16 op t a :
  fits 16 (FirewallOperation_to_u16 op) ∧ fits 16 (PortType_to_u16 t) ∧ fits 16 (AddrType_to_u16 a).
Proof. unfold fits. by destruct op, t, a. Qed.

Lemma octets_to_addr_to_octets addr :
  let (t, o) := addr_to_octets addr in octets_to_addr t o = addr.
Proof.
  destruct addr as [o|o]; [|done]. unfold addr_to_octets, octets_to_addr.
  by rewrite (Vector.splitat_append (vreplicate 12 x00) o).
Qed.

Lemma fwmsg_serialize_layout m : ∃ buf, fwmsg_serialize m = Ok buf ∧ length buf = FWMSG_SIZE ∧
  slice FWMSG_OFFS_OPERATION 2 buf = to_be_bytes 2 (FirewallOperation_to_u16 (f_operation m)) ∧
  slice FWMSG_OFFS_PORT_TYPE 2 buf = to_be_bytes 2 (PortType_to_u16 (f_port_type m)) ∧
  slice FWMSG_OFFS_PORT 2 buf = to_be_bytes 2 (f_port m) ∧
  slice FWMSG_OFFS_ADDR_TYPE 2 buf = to_be_bytes 2 (AddrType_to_u16 (f_addr_type m)) ∧
  slice FWMSG_OFFS_ADDR ADDR_SIZE buf = vec_to_list (f_addr m).
Proof.
  pose proof (length_vec_to_list (f_addr m)) as Haddr.
  eexists. split; [reflexivity|].
  unfold FWMSG_SIZE, FWMSG_OFFS_OPERATION, FWMSG_OFFS_PORT_TYPE, FWMSG_OFFS_PORT,
    FWMSG_OFFS_ADDR_TYPE, FWMSG_OFFS_ADDR, ADDR_SIZE in *.
  split; [length_simpl|].
  split_and!; read_field; apply slice_at_field;
    first [done | by rewrite length_to_be_bytes | length_simpl].
Qed.

Lemma fwmsg_buffer_fields (buf : list byte) :
  length buf = FWMSG_SIZE →
  buf = slice FWMSG_OFFS_OPERATION 2 buf ++ slice FWMSG_OFFS_PORT_TYPE 2 buf ++
        slice FWMSG_OFFS_PORT 2 buf ++ slice FWMSG_OFFS_ADDR_TYPE 2 buf ++
        slice FWMSG_OFFS_ADDR ADDR_SIZE buf.
Proof.
  intros H. rewrite <- (slice_all buf) at 1. rewrite H.
  change FWMSG_SIZE with (2 + (2 + (2 + (2 + 16))))%nat. by rewrite !slice_app_split.
Qed.

Lemma fwmsg_try_deserialize_ok buf m :
  fwmsg_try_deserialize buf = Ok m ↔
  length buf = FWMSG_SIZE ∧
  from_be_bytes (slice FWMSG_OFFS_OPERATION 2 buf) = FirewallOperation_to_u16 (f_operation m) ∧
  from_be_bytes (slice FWMSG_OFFS_PORT_TYPE 2 buf) = PortType_to_u16 (f_port_type m) ∧
  from_be_bytes (slice FWMSG_OFFS_PORT 2 buf) = f_port m ∧
  from_be_bytes (slice FWMSG_OFFS_ADDR_TYPE 2 buf) = AddrType_to_u16 (f_addr_type m) ∧
  slice FWMSG_OFFS_ADDR ADDR_SIZE buf = vec_to_list (f_addr m).
Proof.
  unfold fwmsg_try_deserialize. destruct (Nat.eqb_spec (length buf) FWMSG_SIZE) as [Hl|]; simpl;
    [|naive_solver].
  split.
  - intros H. inv_res. simpl.
    repeat match goal with
    | H : FirewallOperation_try_from _ = Ok _ |- _ => apply FirewallOperation_try_from_ok in H
    | H : PortType_try_from _ = Ok _ |- _ => apply PortType_try_from_ok in H
    | H : AddrType_try_from _ = Ok _ |- _ => apply AddrType_try_from_ok in H
    | H : array_try_from _ _ = Some _ |- _ => apply array_try_from_Some in H
    end. by split_and!.
  - intros (_ & ->%FirewallOperation_try_from_ok & ->%PortType_try_from_ok & -> &
            ->%AddrType_try_from_ok & ->).
    simpl. rewrite array_try_from_vec. simpl. by destruct m.
Qed.

(** What a message from the socket says about an address and a port. *)
Lemma fwmsg_serialize_port_fits buf m :
  fwmsg_try_deserialize buf = Ok m → fits 16 (f_port m).
Proof.
  intros (Hl & _ & _ & <- & _)%fwmsg_try_deserialize_ok. apply from_be_bytes_fits.
  rewrite length_slice by fwmsg_sizes. done.
Qed.

Lemma fwmsg_addr_new_open addr t p : fwmsg_addr (new_open addr t p) = Some addr.
Proof.
  pose proof (octets_to_addr_to_octets addr) as H. unfold new_open.
  destruct (addr_to_octets addr) as [at' o]. unfold fwmsg_addr. simpl. by rewrite H.
Qed.
Lemma fwmsg_addr_new_close addr t p : fwmsg_addr (new_close addr t p) = Some addr.
Proof.
  pose proof (octets_to_addr_to_octets addr) as H. unfold new_close.
  destruct (addr_to_octets addr) as [at' o]. unfold fwmsg_addr. simpl. by rewrite H.
Qed.

Lemma new_open_fields addr t p :
  f_operation (new_open addr t p) = FwOpen ∧ fwmsg_port (new_open addr t p) = Some (t, p) ∧
  f_port (new_open addr t p) = p.
Proof. unfold new_open. by destruct (addr_to_octets addr). Qed.
Lemma new_close_fields addr t p :
  f_operation (new_close addr t p) = FwClose ∧ fwmsg_port (new_close addr t p) = Some (t, p) ∧
  f_port (new_close addr t p) = p.
Proof. unfold new_close. by destruct (addr_to_octets addr). Qed.

Lemma fwmsg_roundtrip_lemma m :
  fits 16 (f_port m) →
  ∃ buf, fwmsg_serialize m = Ok buf ∧ length buf = FWMSG_SIZE ∧ fwmsg_try_deserialize buf = Ok m.
Proof.
  intros Hp. destruct (fwmsg_serialize_layout m) as (buf & Hs & Hl & Eop & Ept & Ep & Eat & Ea).
  exists buf. split_and!; [done|done|]. apply fwmsg_try_deserialize_ok.
  destruct (enum_fits_16 (f_operation m) (f_port_type m) (f_addr_type m)) as (H1 & H2 & H3).
  rewrite Eop, Ept, Ep, Eat, !from_to_be_bytes_2 by done. done.
Qed.

(** ** Properties *)

(** Every firewall message with a 16-bit port is serialized to [FWMSG_SIZE] bytes
    that deserialize to the same message; in particular the receiver of an open or close request
    reads exactly the address, the port type and the port that the sender put in. *)
Lemma fwmsg_roundtrip addr t p (close : bool) :
  fits 16 p →
  ∃ buf, fwmsg_serialize ((if close then new_close else new_open) addr t p) = Ok buf ∧
    length buf = FWMSG_SIZE ∧
    ∃ m, fwmsg_try_deserialize buf = Ok m ∧
      f_operation m = (if close then FwClose else FwOpen) ∧
      fwmsg_addr m = Some addr ∧ fwmsg_port m = Some (t, p).
Proof.
  intros Hp. set (m := (if close then new_close else new_open) addr t p).
  assert (Hm : fwmsg_addr m = Some addr ∧ fwmsg_port m = Some (t, p) ∧ f_port m = p ∧
    f_operation m = if close then FwClose else FwOpen).
  { unfold m. destruct close.
    - destruct (new_close_fields addr t p) as (? & ? & ?). by rewrite fwmsg_addr_new_close.
    - destruct (new_open_fields addr t p) as (? & ? & ?). by rewrite fwmsg_addr_new_open. }
  destruct Hm as (Ha & Hpt & Hpo & Ho).
  destruct (fwmsg_roundtrip_lemma m) as (buf & Hs & Hl & Hd); [by rewrite Hpo|]. eauto 10.
Qed.

(** Deserialization of a firewall message never panics, and when
    it succeeds the message has a 16-bit port and serializes to exactly the received bytes. *)
Lemma fwmsg_deserialize_canonical buf :
  no_panic (fwmsg_try_deserialize buf) ∧
  ∀ m, fwmsg_try_deserialize buf = Ok m → fits 16 (f_port m) ∧ fwmsg_serialize m = Ok buf.
Proof.
  split.
  - unfold fwmsg_try_deserialize. destruct (negb _); [done|].
    repeat (apply no_panic_bind; [|intros ? _]);
      unfold FirewallOperation_try_from, PortType_try_from, AddrType_try_from, ok_or;
      by repeat case_match.
  - intros m Hd. split; [by eapply fwmsg_serialize_port_fits|].
    apply fwmsg_try_deserialize_ok in Hd as (Hl & Hop & Hpt & Hp & Hat & Ha).
    destruct (fwmsg_serialize_layout m) as (buf' & -> & Hl' & Eop & Ept & Ep & Eat & Ea).
    f_equal. rewrite (fwmsg_buffer_fields buf' Hl'), (fwmsg_buffer_fields buf Hl).
    rewrite Eop, Ept, Ep, Eat, Ea, <- Hop, <- Hpt, <- Hp, <- Hat, <- Ha.
    by rewrite !to_from_be_bytes by (rewrite length_slice; fwmsg_sizes).
Qed.

(** ** Witnesses *)

Definition sample_v4 : IpAddr := V4 [# x01; x02; x03; x04].

