(* ===== verification/Stream.v ===== *)
(** * Messages over byte streams (the TCP variant of letmein-proto/src/socket.rs, and the [send] and
    [recv] methods of letmein-fwproto/src/lib.rs)

    The send and receive loops run until the operating system has taken or delivered all the bytes
    of a message. They are modelled as functions of the answers of the operating system: the
    result is [None] while the loop still waits for the next answer. *)

From S2P Require Import Prelude Prog Str Proto FwProto.
Local Open Scope nat_scope.

(** The outcome of one iteration: [readable().await] fails, or [try_read] delivers some bytes (none
    at the end of the stream), would block, or fails. *)
Inductive read_ev : Type := RPollErr | RData (bs : list byte) | RWouldBlock | RErr.

(** [writable().await] fails, or [try_write] accepts [n] bytes, would block, or fails. *)
Inductive write_ev : Type := WPollErr | WAccept (n : nat) | WWouldBlock | WErr.

(** ** The loops *)

Fixpoint read_loop (size : nat) (evs : list read_ev) (buf : list byte) (count : nat)
    : option (res (option (list byte))) :=
  match evs with
  | [] => None
  | RPollErr :: _ => Some (Err "Socket polling (rx)")
  | RData bs :: evs' =>
      if length bs =? 0 then Some (Ok None)
      else
        let buf := write_at count bs buf in
        let count := count + length bs in
        if size <? count then Some (Panic "assertion failed: count <= MSG_SIZE")
        else if count =? size then Some (Ok (Some buf))
        else read_loop size evs' buf count
  | RWouldBlock :: evs' => read_loop size evs' buf count
  | RErr :: _ => Some (Err "Socket read")
  end.

(** The result, and the bytes that the operating system has accepted. *)
Fixpoint write_loop (evs : list write_ev) (buf : list byte) (count : nat)
    : option (res ()) * list byte :=
  match evs with
  | [] => (None, [])
  | WPollErr :: _ => (Some (Err "Socket polling (tx)"), [])
  | WAccept n :: evs' =>
      let sent := slice count n buf in
      let count := count + n in
      if length buf <? count then (Some (Panic "assertion failed: count <= buf.len()"), sent)
      else if count =? length buf then (Some (Ok ()), sent)
      else let '(r, sent') := write_loop evs' buf count in (r, sent ++ sent')
  | WWouldBlock :: evs' => write_loop evs' buf count
  | WErr :: _ => (Some (Err "Socket write"), [])
  end.

(** [NetSocket::recv] and [NetSocket::send] of a TCP connection; [closed] is the flag that
    [NetSocket::close] sets. *)
Definition tcp_recv (closed : bool) (evs : list read_ev) : option (res (option (list byte))) :=
  if closed then Some (Err "Socket is closed.")
  else read_loop MSG_SIZE evs (replicate MSG_SIZE x00) 0.

Definition tcp_send (closed : bool) (buf : list byte) (evs : list write_ev)
    : option (res ()) * list byte :=
  if closed then (Some (Err "Socket is closed."), []) else write_loop evs buf 0.

(** [Message::recv] and [Message::send], given the socket operation. *)
Definition Message_recv (recv : option (res (option (list byte)))) : option (res (option Message)) :=
  (λ r, buf ← r;
        match buf with
        | Some buf => msg ← try_msg_deserialize buf; Ok (Some msg)
        | None => Ok None
        end) <$> recv.

Definition Message_send (m : Message) (send : list byte → option (res ()) * list byte)
    : option (res ()) * list byte :=
  match msg_serialize m with
  | Ok buf => send buf
  | Err e => (Some (Err e), [])
  | Panic w => (Some (Panic w), [])
  end.

(** [FirewallMessage::recv] and [FirewallMessage::send]. *)
Definition FirewallMessage_recv (evs : list read_ev) : option (res (option FirewallMessage)) :=
  (λ r, buf ← r;
        match buf with
        | Some buf => msg ← fwmsg_try_deserialize buf; Ok (Some msg)
        | None => Ok None
        end) <$> read_loop FWMSG_SIZE evs (replicate FWMSG_SIZE x00) 0.

Definition FirewallMessage_send (m : FirewallMessage) (evs : list write_ev)
    : option (res ()) * list byte :=
  match fwmsg_serialize m with
  | Ok buf => write_loop evs buf 0
  | Err e => (Some (Err e), [])
  | Panic w => (Some (Panic w), [])
  end.

(** ** Delivery *)

Definition data_of (ev : read_ev) : list byte := match ev with RData bs => bs | _ => [] end.
Definition delivered (evs : list read_ev) : list byte := evs ≫= data_of.

(** Answers without errors and without an end of the stream. *)
Definition flowing (ev : read_ev) : Prop :=
  match ev with RData bs => bs ≠ [] | RWouldBlock => True | _ => False end.

Lemma write_at_prefix {A} count (bs buf : list A) :
  count + length bs <= length buf →
  take (count + length bs) (write_at count bs buf) = take count buf ++ bs.
Proof.
  intros Hle. unfold write_at. rewrite app_assoc, take_app_length'; [done|].
  rewrite length_app, length_take. lia.
Qed.

(** The receive loop collects the bytes in order, however they are split. *)
Lemma read_loop_collects size evs buf count :
  Forall flowing evs → length buf = size → count + length (delivered evs) = size → count < size →
  read_loop size evs buf count = Some (Ok (Some (take count buf ++ delivered evs))).
Proof.
  intros Hf. revert buf count. induction Hf as [|ev evs Hev Hf IH]; intros buf count Hb Hc Hlt.
  { unfold delivered in Hc. simpl in Hc. lia. }
  unfold delivered in *. rewrite bind_cons, length_app in Hc. rewrite bind_cons.
  destruct ev as [|bs| |]; simpl in *; [done| |by apply IH|done].
  assert (Hbs : 0 < length bs) by (destruct bs; [done|simpl; lia]).
  rewrite (proj2 (Nat.eqb_neq _ _)) by lia. rewrite (proj2 (Nat.ltb_ge _ _)) by lia.
  pose proof (write_at_prefix count bs buf ltac:(lia)) as Hp.
  destruct (Nat.eqb_spec (count + length bs) size) as [E|Hne].
  - assert (Hnil : (evs ≫= data_of) = []) by (apply nil_length_inv; lia).
    rewrite Hnil, app_nil_r, <- Hp. rewrite firstn_all2; [done|]. rewrite length_write_at; lia.
  - rewrite IH; [|by rewrite length_write_at by lia|lia|lia]. by rewrite Hp, app_assoc.
Qed.

(** The end of the stream inside of a message. *)
Lemma read_loop_truncated size evs evs' buf count :
  Forall flowing evs → length buf = size → count + length (delivered evs) < size →
  read_loop size (evs ++ RData [] :: evs') buf count = Some (Ok None).
Proof.
  intros Hf. revert buf count. induction Hf as [|ev evs Hev Hf IH]; intros buf count Hb Hc; simpl; [done|].
  unfold delivered in *. rewrite bind_cons, length_app in Hc.
  destruct ev as [|bs| |]; simpl in *; [done| |by apply IH|done].
  assert (Hbs : 0 < length bs) by (destruct bs; [done|simpl; lia]).
  rewrite (proj2 (Nat.eqb_neq _ _)) by lia. rewrite (proj2 (Nat.ltb_ge _ _)) by lia.
  rewrite (proj2 (Nat.eqb_neq (_ + _) _)) by lia. apply IH; [by rewrite length_write_at by lia|lia].
Qed.

(** The send loop reports success exactly when all bytes were accepted, in order. *)
Lemma write_loop_sent evs buf count sent :
  count <= length buf → write_loop evs buf count = (Some (Ok ()), sent) → sent = drop count buf.
Proof.
  revert count sent. induction evs as [|ev evs IH]; intros count sent Hc; simpl; [done|].
  destruct ev as [|n| |]; [done| |by apply IH|done].
  destruct (Nat.ltb_spec (length buf) (count + n)); [done|].
  destruct (Nat.eqb_spec (count + n) (length buf)) as [E|Hne].
  - intros [= <-]. unfold slice. rewrite take_ge; [done|]. rewrite length_drop. lia.
  - destruct (write_loop evs buf (count + n)) as [r sent'] eqn:Ew. intros [= -> <-].
    apply IH in Ew; [|lia]. rewrite Ew. unfold slice. rewrite <- (take_drop n (drop count buf)) at 2.
    by rewrite drop_drop.
Qed.

(** ** Properties *)

(** C37 (round trip). Whatever a successful send of a well-formed message has put on a TCP stream,
    a receiver that gets these bytes obtains that message, in however many pieces the bytes were
    accepted and delivered. *)
Theorem tcp_message_roundtrip m wevs sent revs :
  Message_wf m → Message_send m (λ buf, tcp_send false buf wevs) = (Some (Ok ()), sent) →
  Forall flowing revs → delivered revs = sent →
  Message_recv (tcp_recv false revs) = Some (Ok (Some m)).
Proof.
  intros Hm Hs Hf Hd. unfold Message_send in Hs.
  destruct (msg_serialize_deserialize m Hm) as (buf & Hser & Hlen & Hdes). rewrite Hser in Hs.
  apply write_loop_sent in Hs; [|lia]. rewrite drop_0 in Hs. subst sent.
  unfold tcp_recv. rewrite read_loop_collects; [|done|by rewrite length_replicate|by rewrite Hd|].
  - simpl. by rewrite Hd, Hdes.
  - unfold MSG_SIZE. lia.
Qed.

(** C38 (round trip). The same for the messages to and from the firewall daemon. *)
Theorem firewall_message_roundtrip m wevs sent revs :
  fits 16 (f_port m) → FirewallMessage_send m wevs = (Some (Ok ()), sent) →
  Forall flowing revs → delivered revs = sent →
  FirewallMessage_recv revs = Some (Ok (Some m)).
Proof.
  intros Hm Hs Hf Hd. unfold FirewallMessage_send in Hs.
  destruct (fwmsg_roundtrip_lemma m Hm) as (buf & Hser & Hlen & Hdes). rewrite Hser in Hs.
  apply write_loop_sent in Hs; [|lia]. rewrite drop_0 in Hs. subst sent.
  unfold FirewallMessage_recv.
  rewrite read_loop_collects; [|done|by rewrite length_replicate|by rewrite Hd|].
  - simpl. by rewrite Hd, Hdes.
  - unfold FWMSG_SIZE. lia.
Qed.

(** A connection that ends before a message is complete yields no message, neither a
    truncated one nor an error. *)
Lemma truncated_stream_no_message evs evs' :
  Forall flowing evs → (length (delivered evs) < MSG_SIZE) →
  Message_recv (tcp_recv false (evs ++ RData [] :: evs')) = Some (Ok None).
Proof.
  intros Hf Hl. unfold tcp_recv. rewrite read_loop_truncated; [done|done|by rewrite length_replicate|done].
Qed.

Definition sample_wire : list byte := match msg_serialize sample_message with Ok b => b | _ => [] end.

Lemma tcp_message_roundtrip_witness :
  Message_recv (tcp_recv false [RWouldBlock; RData (take 5 sample_wire); RData (drop 5 sample_wire)]) =
    Some (Ok (Some sample_message)).
Proof.
  apply (tcp_message_roundtrip sample_message [WAccept 30; WWouldBlock; WAccept 0; WAccept (MSG_SIZE - 30)] sample_wire).
  - exact sample_message_wf.
  - vm_compute. reflexivity.
  - repeat constructor; discriminate.
  - vm_compute. reflexivity.
Defined.

Lemma firewall_message_roundtrip_witness :
  FirewallMessage_recv [RData (replicate 1 x00 ++ x01 :: replicate 10 x00); RData (replicate 12 x00)] =
    Some (Ok (Some new_ack)).
Proof.
  apply (firewall_message_roundtrip new_ack [WAccept FWMSG_SIZE] (x00 :: x01 :: replicate 22 x00)).
  - vm_compute. split; [discriminate|reflexivity].
  - vm_compute. reflexivity.
  - repeat constructor; discriminate.
  - reflexivity.
Defined.
