(* ===== verification/UdpDispatch.v ===== *)
(** * The UDP dispatcher (letmein-proto/src/socket.rs)

    Connection tracking for datagrams: the receive queues, the limits, and the counter of queued
    datagrams. The sizes of messages and queues are the parameters of the type, as in the source; the
    counters are natural numbers (the products of a limit and a queue size do not reach 2^64). The
    operations run under one mutex, so any interleaving of the tasks is a sequence of operations. *)

From S2P Require Import Prelude Prog.
Local Open Scope nat_scope.

Section dispatcher.

(** Socket addresses are compared and hashed, nothing else. *)
Context `{HO : HashOrder} {SocketAddr : Type} `{Countable SocketAddr} (MSG_SIZE Q_SIZE : nat).

Record UdpConn : Type := MkUdpConn { rx_queue : list (list byte); peer_addr : SocketAddr; accepted : bool }.

Record UdpDispatcherRx : Type := MkRx {
  conn : gmap SocketAddr UdpConn;
  max_nr_conn : nat;
  nr_queued_dgrams : nat;
}.

Definition UdpDispatcherRx_new (max_nr_conn : nat) : UdpDispatcherRx := MkRx ∅ max_nr_conn 0.

Definition set_conn (f : gmap SocketAddr UdpConn → gmap SocketAddr UdpConn) (s : UdpDispatcherRx)
    : UdpDispatcherRx :=
  MkRx (f (conn s)) (max_nr_conn s) (nr_queued_dgrams s).
Definition set_nr (n : nat) (s : UdpDispatcherRx) : UdpDispatcherRx :=
  MkRx (conn s) (max_nr_conn s) n.

(** The outcome of [socket.try_recv_from]: [n] bytes from a peer, in a buffer of [MSG_SIZE] bytes
    (a longer datagram is cut off), nothing there, or an error. *)
Inductive recv_ev : Type :=
| RecvData (n : nat) (buf : list byte) (from : SocketAddr)
| RecvWouldBlock
| RecvErr.

(** The wake-ups that are sent: [accept_notify] and [recv_notify]. *)
Inductive notify : Type := AcceptNotify | RecvNotify.

(** [UdpDispatcherRx::try_recv]. *)
Definition try_recv (ev : recv_ev) (s : UdpDispatcherRx) : res () * UdpDispatcherRx * list notify :=
  match ev with
  | RecvWouldBlock => (Ok (), s, [])
  | RecvErr => (Err "Socket read", s, [])
  | RecvData n buf from =>
      if negb (n =? MSG_SIZE) then (Err "Socket read: Invalid datagram size", s, [])
      else if max_nr_conn s <? size (conn s)
      then (Panic "assertion failed: self.conn.len() <= self.max_nr_conn", s, [])
      else
        let c := default (MkUdpConn [] from false) (conn s !! from) in
        let s1 := set_conn <[from := c]> s in
        if Q_SIZE <? length (rx_queue c)
        then (Panic "assertion failed: conn.rx_queue.len() <= Q_SIZE", s1, [])
        else if length (rx_queue c) =? Q_SIZE
        then (Err "UDP socket read: RX queue overflow.", set_conn (delete from) s1, [])
        else
          let s2 := set_conn <[from := MkUdpConn (rx_queue c ++ [buf]) (peer_addr c) (accepted c)]> s1 in
          if max_nr_conn s2 <? size (conn s2)
          then (Err "UDP socket read: Too many connections.", set_conn (delete from) s2, [])
          else
            let s3 := set_nr (nr_queued_dgrams s2 + 1) s2 in
            if max_nr_conn s3 * Q_SIZE <? nr_queued_dgrams s3
            then (Panic "assertion failed: self.nr_queued_dgrams <= self.max_nr_conn * Q_SIZE", s3, [])
            else (Ok (), s3, if accepted c then [] else [AcceptNotify; RecvNotify])
  end.

(** [UdpDispatcherRx::recv_notify]. *)
Definition recv_notify (s : UdpDispatcherRx) : list notify :=
  if 0 <? nr_queued_dgrams s then [RecvNotify] else [].

(** The first connection that is not accepted, in the order of iteration. *)
Definition first_not_accepted (s : UdpDispatcherRx) : option (SocketAddr * UdpConn) :=
  List.find (λ kc : SocketAddr * UdpConn, negb (accepted kc.2)) (hash_iter (conn s)).

(** [UdpDispatcherRx::try_accept]. *)
Definition try_accept (ev : recv_ev) (s : UdpDispatcherRx)
    : res (option SocketAddr) * UdpDispatcherRx * list notify :=
  match try_recv ev s with
  | (Panic w, s1, ns) => (Panic w, s1, ns)
  | (Err _, s1, ns) => (Ok None, s1, ns)
  | (Ok _, s1, ns) =>
      match first_not_accepted s1 with
      | Some (k, c) =>
          (Ok (Some (peer_addr c)),
           set_conn <[k := MkUdpConn (rx_queue c) (peer_addr c) true]> s1, ns)
      | None => (Ok None, s1, ns ++ recv_notify s1)
      end
  end.

(** [UdpDispatcherRx::try_recv_from]. *)
Definition try_recv_from (ev : recv_ev) (peer : SocketAddr) (s : UdpDispatcherRx)
    : res (option (list byte)) * UdpDispatcherRx * list notify :=
  match try_recv ev s with
  | (Panic w, s1, ns) => (Panic w, s1, ns)
  | (Err e, s1, ns) => (Err e, s1, ns)
  | (Ok _, s1, ns) =>
      match conn s1 !! peer with
      | Some (MkUdpConn (buf :: q) a acc) =>
          let s2 := set_conn <[peer := MkUdpConn q a acc]> s1 in
          if nr_queued_dgrams s2 =? 0 then (Panic "attempt to subtract with overflow", s2, ns)
          else
            let s3 := set_nr (nr_queued_dgrams s2 - 1) s2 in
            (Ok (Some buf), s3, ns ++ recv_notify s3)
      | _ => (Ok None, s1, ns ++ recv_notify s1)
      end
  end.

(** [UdpDispatcherRx::disconnect]. *)
Definition disconnect (peer : SocketAddr) (s : UdpDispatcherRx) : res () * UdpDispatcherRx :=
  let queued := match conn s !! peer with Some c => length (rx_queue c) | None => 0 end in
  if nr_queued_dgrams s <? queued then (Panic "attempt to subtract with overflow", s)
  else
    let s1 := set_conn (delete peer) (set_nr (nr_queued_dgrams s - queued) s) in
    if bool_decide (conn s1 = ∅) && negb (nr_queued_dgrams s1 =? 0)
    then (Panic "assertion `left == right` failed", s1)
    else (Ok (), s1).

(** The loops of [UdpDispatcher::accept] and [UdpDispatcher::recv_from], as functions of what the
    socket delivers at each iteration; [None] while they still wait. *)
Fixpoint accept_loop (evs : list recv_ev) (s : UdpDispatcherRx) : option (res SocketAddr) * UdpDispatcherRx :=
  match evs with
  | [] => (None, s)
  | ev :: evs' =>
      match try_accept ev s with
      | (Ok (Some peer), s1, _) => (Some (Ok peer), s1)
      | (Ok None, s1, _) => accept_loop evs' s1
      | (Err e, s1, _) => (Some (Err e), s1)
      | (Panic w, s1, _) => (Some (Panic w), s1)
      end
  end.

Fixpoint recv_from_loop (evs : list recv_ev) (peer : SocketAddr) (s : UdpDispatcherRx)
    : option (res (list byte)) * UdpDispatcherRx :=
  match evs with
  | [] => (None, s)
  | ev :: evs' =>
      match try_recv_from ev peer s with
      | (Ok (Some buf), s1, _) => (Some (Ok buf), s1)
      | (Ok None, s1, _) => recv_from_loop evs' peer s1
      | (Err e, s1, _) => (Some (Err e), s1)
      | (Panic w, s1, _) => (Some (Panic w), s1)
      end
  end.

(** [NetSocketUdp]: [send], [recv] and [close], with the closed-flag. *)
Definition udp_recv (closed : bool) (evs : list recv_ev) (peer : SocketAddr) (s : UdpDispatcherRx)
    : option (res (option (list byte))) * UdpDispatcherRx :=
  if closed then (Some (Err "Socket is closed."), s)
  else let (r, s') := recv_from_loop evs peer s in
       ((λ r, buf ← r; Ok (Some buf)) <$> r, s').

Definition udp_close (closed : bool) (peer : SocketAddr) (s : UdpDispatcherRx) : res () * bool * UdpDispatcherRx :=
  if closed then (Ok (), true, s)
  else let (r, s') := disconnect peer s in (r, true, s').

(** ** The counter *)

Definition qlen (c : UdpConn) : nat := length (rx_queue c).
Definition total (m : gmap SocketAddr UdpConn) : nat :=
  sum_list_with (λ kc : SocketAddr * UdpConn, qlen kc.2) (map_to_list m).

Lemma total_empty : total ∅ = 0.
Proof. unfold total. by rewrite map_to_list_empty. Qed.

Lemma total_insert_new m k c : m !! k = None → total (<[k := c]> m) = qlen c + total m.
Proof. intros Hk. unfold total. by rewrite map_to_list_insert. Qed.

Lemma total_delete m k c : m !! k = Some c → total m = qlen c + total (delete k m).
Proof. intros Hk. unfold total. by rewrite <- (map_to_list_delete m k c). Qed.

Lemma total_insert m k c c' : m !! k = Some c → total (<[k := c']> m) + qlen c = total m + qlen c'.
Proof.
  intros Hk. rewrite <- insert_delete_eq, total_insert_new by apply lookup_delete_eq.
  rewrite (total_delete m k c Hk). lia.
Qed.

(** The counter is the number of queued datagrams, and the limits are respected. *)
Record rx_inv (s : UdpDispatcherRx) : Prop := {
  ri_total : nr_queued_dgrams s = total (conn s);
  ri_size : size (conn s) <= max_nr_conn s;
  ri_queue : map_Forall (λ k c, qlen c <= Q_SIZE ∧ peer_addr c = k) (conn s);
}.

Lemma total_bound m : map_Forall (λ (k : SocketAddr) c, qlen c <= Q_SIZE ∧ peer_addr c = k) m → total m <= size m * Q_SIZE.
Proof.
  induction m as [|k c m Hk IH] using map_ind; intros Hm; [by rewrite total_empty|].
  apply map_Forall_insert in Hm as [[Hc _] Hm]; [|done].
  rewrite total_insert_new, map_size_insert_None by done. specialize (IH Hm). lia.
Qed.

Definition queue_of (s : UdpDispatcherRx) (a : SocketAddr) : list (list byte) :=
  match conn s !! a with Some c => rx_queue c | None => [] end.

(** The queue of the sender is full. *)
Definition overflows (ev : recv_ev) (s : UdpDispatcherRx) : bool :=
  match ev with
  | RecvData n _ from => (n =? MSG_SIZE) && (length (queue_of s from) =? Q_SIZE)
  | _ => false
  end.

Lemma size_delete_le (m : gmap SocketAddr UdpConn) k : size (delete k m) <= size m.
Proof. rewrite map_size_delete. destruct (m !! k); simpl; lia. Qed.

(** Receiving a datagram keeps the invariant, unless a queue overflows. *)
Lemma try_recv_inv ev s r s' ns :
  rx_inv s → 0 < Q_SIZE → overflows ev s = false → try_recv ev s = (r, s', ns) →
  no_panic r ∧ rx_inv s' ∧ max_nr_conn s' = max_nr_conn s.
Proof.
  intros [Ht Hsz Hq] HQ Hov. destruct ev as [n buf from| |]; simpl; [|by intros [= <- <- _]..].
  destruct (Nat.eqb_spec n MSG_SIZE) as [->|]; simpl; [|by intros [= <- <- _]].
  rewrite (proj2 (Nat.ltb_ge _ _)) by lia.
  set (c := default (MkUdpConn [] from false) (conn s !! from)).
  assert (Hc : qlen c < Q_SIZE ∧ peer_addr c = from).
  { unfold c. destruct (conn s !! from) as [c0|] eqn:E; simpl; [|done].
    destruct (Hq _ _ E) as [Hle Hpa]. split; [|done].
    simpl in Hov. unfold queue_of in Hov. rewrite E, Nat.eqb_refl in Hov. simpl in Hov.
    apply Nat.eqb_neq in Hov. unfold qlen in *. lia. }
  destruct Hc as [Hc Hpa]. unfold qlen in Hc.
  rewrite (proj2 (Nat.ltb_ge _ _)) by lia. rewrite (proj2 (Nat.eqb_neq _ _)) by lia.
  rewrite insert_insert_eq. set (c' := MkUdpConn (rx_queue c ++ [buf]) (peer_addr c) (accepted c)).
  assert (Hc' : qlen c' = S (qlen c)) by (unfold qlen; simpl; rewrite length_app; simpl; lia).
  assert (Hq' : map_Forall (λ k c, qlen c <= Q_SIZE ∧ peer_addr c = k) (<[from := c']> (conn s))).
  { apply map_Forall_insert_2; [|done]. split; [rewrite Hc'; unfold qlen; lia|done]. }
  assert (Ht' : total (<[from := c']> (conn s)) = S (total (conn s))).
  { destruct (conn s !! from) as [c0|] eqn:E.
    - pose proof (total_insert _ _ _ c' E). simpl in c. unfold c in *. lia.
    - rewrite total_insert_new by done. rewrite Hc'. unfold c. done. }
  destruct (Nat.ltb_spec (max_nr_conn s) (size (<[from := c']> (conn s)))) as [Hlt|Hge].
  - intros [= <- <- _]. split; [done|]. split; [|done].
    assert (conn s !! from = None) as Hn.
    { destruct (conn s !! from) as [c0|] eqn:E; [|done]. rewrite map_size_insert_Some in Hlt by done. lia. }
    split; simpl; rewrite !delete_insert_eq, delete_id by done; done.
  - pose proof (total_bound _ Hq') as Hb. rewrite Ht' in Hb.
    rewrite (proj2 (Nat.ltb_ge _ _)) by nia. intros [= <- <- _]. split; [done|]. split; [|done].
    split; simpl; rewrite insert_insert_eq; [rewrite Ht'; lia|done|done].
Qed.

Lemma first_not_accepted_spec s k c : first_not_accepted s = Some (k, c) → conn s !! k = Some c ∧ accepted c = false.
Proof.
  intros Hf%List.find_some. destruct Hf as [Hin Hacc%negb_true_iff].
  by apply list_elem_of_In, elem_of_hash_iter in Hin.
Qed.

(** Replacing a connection by one with the same queue. *)
Lemma rx_inv_update s k c c' :
  rx_inv s → conn s !! k = Some c → rx_queue c' = rx_queue c → peer_addr c' = peer_addr c →
  rx_inv (set_conn <[k := c']> s).
Proof.
  intros [Ht Hsz Hq] Hk Eq Ep. destruct (Hq _ _ Hk) as [Hc Hpa].
  pose proof (total_insert _ _ _ c' Hk) as Htot. unfold qlen in *. split; simpl.
  - rewrite Eq in Htot. lia.
  - by rewrite map_size_insert_Some.
  - apply map_Forall_insert_2; [|done]. unfold qlen. rewrite Eq, Ep. done.
Qed.

Lemma try_accept_inv ev s r s' ns :
  rx_inv s → 0 < Q_SIZE → overflows ev s = false → try_accept ev s = (r, s', ns) →
  is_err r = false ∧ no_panic r ∧ rx_inv s' ∧
  ∀ a, r = Ok (Some a) → ∃ c, conn s' !! a = Some c ∧ accepted c = true.
Proof.
  intros Hi HQ Hov. unfold try_accept. destruct (try_recv ev s) as [[r1 s1] ns1] eqn:E.
  destruct (try_recv_inv _ _ _ _ _ Hi HQ Hov E) as (Hp & Hi1 & _). destruct r1 as [[]|e|w]; [|by intros [= <- <- _]|done].
  destruct (first_not_accepted s1) as [[k c]|] eqn:Ef; intros [= <- <- _]; [|by split_and!].
  apply first_not_accepted_spec in Ef as [Hk Hacc].
  split_and!; [done|done|by eapply rx_inv_update|].
  intros a [= <-]. destruct (ri_queue _ Hi1 _ _ Hk) as [_ ->]. eexists. simpl. by rewrite lookup_insert_eq.
Qed.

Lemma try_recv_from_inv ev peer s r s' ns :
  rx_inv s → 0 < Q_SIZE → overflows ev s = false → try_recv_from ev peer s = (r, s', ns) → no_panic r ∧ rx_inv s'.
Proof.
  intros Hi HQ Hov. unfold try_recv_from. destruct (try_recv ev s) as [[r1 s1] ns1] eqn:E.
  destruct (try_recv_inv _ _ _ _ _ Hi HQ Hov E) as (Hp & Hi1 & _). destruct r1 as [[]|e|w]; [|by intros [= <- <- _]|done].
  destruct (conn s1 !! peer) as [[[|buf q] a acc]|] eqn:Ep; try by intros [= <- <- _].
  destruct Hi1 as [Ht Hsz Hq]. pose proof (total_insert _ _ _ (MkUdpConn q a acc) Ep) as Htot.
  destruct (Hq _ _ Ep) as [Hc Hpa]. unfold qlen in *. simpl in *.
  rewrite (proj2 (Nat.eqb_neq _ _)) by lia. intros [= <- <- _]. split; [done|]. split; simpl.
  - lia.
  - by rewrite map_size_insert_Some.
  - apply map_Forall_insert_2; [|done]. unfold qlen. simpl. split; [lia|done].
Qed.

Lemma disconnect_inv peer s r s' : rx_inv s → disconnect peer s = (r, s') → r = Ok () ∧ rx_inv s' ∧ conn s' !! peer = None.
Proof.
  intros [Ht Hsz Hq]. unfold disconnect.
  assert (Htot : total (conn s) = match conn s !! peer with Some c => length (rx_queue c) | None => 0 end + total (delete peer (conn s))).
  { destruct (conn s !! peer) as [c|] eqn:E; [by apply total_delete|]. by rewrite delete_id. }
  rewrite (proj2 (Nat.ltb_ge _ _)) by lia. simpl.
  rewrite Ht, Htot. rewrite Nat.add_comm, Nat.add_sub.
  destruct (bool_decide_reflect (delete peer (conn s) = ∅)) as [He|_]; simpl.
  - rewrite He, total_empty. simpl. intros [= <- <-]. split_and!; [done| |simpl; rewrite He; apply lookup_empty].
    split; simpl; rewrite He; [by rewrite total_empty|rewrite map_size_empty; lia|done].
  - intros [= <- <-]. split_and!; [done| |apply lookup_delete_eq].
    split; simpl; [done|etrans; [apply size_delete_le|done]|].
    intros k c [_ Hk]%lookup_delete_Some. by apply Hq.
Qed.

(** ** Delivery *)

(** What an event brings for an address. *)
Definition arrival (ev : recv_ev) (a : SocketAddr) : list (list byte) :=
  match ev with
  | RecvData n buf from => if (n =? MSG_SIZE) && bool_decide (from = a) then [buf] else []
  | _ => []
  end.

Lemma try_recv_queue ev s s' ns a :
  try_recv ev s = (Ok (), s', ns) → queue_of s' a = queue_of s a ++ arrival ev a.
Proof.
  destruct ev as [n buf from| |]; simpl; [|by intros [= <- _]; rewrite app_nil_r|done].
  destruct (Nat.eqb_spec n MSG_SIZE); simpl; [|done].
  destruct (_ <? size (conn s)); [done|].
  set (c := default (MkUdpConn [] from false) (conn s !! from)).
  assert (Hc : rx_queue c = queue_of s from).
  { unfold c, queue_of. by destruct (conn s !! from). }
  destruct (Q_SIZE <? length (rx_queue c)); [done|]. destruct (length (rx_queue c) =? Q_SIZE); [done|].
  destruct (_ <? size _); [done|]. destruct (_ <? _ + 1); [done|]. intros [= <- _].
  unfold queue_of at 1. simpl. rewrite insert_insert_eq, lookup_insert.
  case_decide as E; [subst a; by rewrite bool_decide_eq_true_2, Hc|].
  rewrite bool_decide_eq_false_2, app_nil_r by done. done.
Qed.

(** An error leaves the queues as they were. *)
Lemma try_recv_err_queue ev s e s' ns a :
  rx_inv s → 0 < Q_SIZE → overflows ev s = false → try_recv ev s = (Err e, s', ns) → queue_of s' a = queue_of s a.
Proof.
  intros Hi HQ Hov. destruct ev as [n buf from| |]; simpl in *; [|done|by intros [= _ <- _]].
  destruct (n =? MSG_SIZE); simpl in *; [|by intros [= _ <- _]].
  destruct (_ <? size (conn s)); [done|]. unfold queue_of in Hov.
  destruct (conn s !! from) as [c|] eqn:E; simpl in *; rewrite ?insert_insert_eq.
  - destruct (Q_SIZE <? _); [done|]. rewrite Hov.
    rewrite map_size_insert_Some by done. rewrite (proj2 (Nat.ltb_ge _ _)) by apply Hi.
    by destruct (_ <? _ + 1).
  - destruct (Nat.ltb_spec Q_SIZE 0); [lia|]. rewrite Hov.
    destruct (_ <? size _); [|by destruct (_ <? _ + 1)].
    intros [= _ <- _]. unfold queue_of. simpl. by rewrite ?insert_insert_eq, delete_insert_eq, delete_id.
Qed.

(** ** Accepted connections *)

Definition is_accepted (s : UdpDispatcherRx) (a : SocketAddr) : bool :=
  match conn s !! a with Some c => accepted c | None => false end.

Lemma is_accepted_insert s k c a m n :
  is_accepted (MkRx (<[k := c]> (conn s)) m n) a = if decide (k = a) then accepted c else is_accepted s a.
Proof. unfold is_accepted. simpl. rewrite lookup_insert. by case_decide. Qed.

(** Receiving a datagram neither accepts nor ends a connection, unless a queue overflows. *)
Lemma try_recv_accepted ev s r s' ns a :
  rx_inv s → 0 < Q_SIZE → overflows ev s = false → try_recv ev s = (r, s', ns) → is_accepted s' a = is_accepted s a.
Proof.
  intros [Ht Hsz Hq] HQ Hov. destruct ev as [n buf from| |]; simpl in *; [|by intros [= _ <- _]..].
  destruct (n =? MSG_SIZE); simpl in *; [|by intros [= _ <- _]].
  rewrite (proj2 (Nat.ltb_ge _ _)) by done. unfold queue_of in Hov.
  assert (Hsame : ∀ c m n q, default (MkUdpConn [] from false) (conn s !! from) = c →
    is_accepted (MkRx (<[from := MkUdpConn q (peer_addr c) (accepted c)]> (conn s)) m n) a = is_accepted s a).
  { intros c m k q <-. rewrite is_accepted_insert. case_decide as E; [|done]. subst a. unfold is_accepted.
    by destruct (conn s !! from). }
  destruct (conn s !! from) as [c|] eqn:E; simpl in *; rewrite ?insert_insert_eq.
  - destruct (Hq _ _ E) as [Hc _]. unfold qlen in Hc. rewrite (proj2 (Nat.ltb_ge _ _)), Hov by done.
    rewrite map_size_insert_Some, (proj2 (Nat.ltb_ge _ _)) by done.
    destruct (_ <? _ + 1); intros [= _ <- _]; unfold set_nr, set_conn; simpl; rewrite insert_insert_eq; by apply Hsame.
  - destruct (Nat.ltb_spec Q_SIZE 0); [lia|]. rewrite Hov. destruct (_ <? size _).
    + intros [= _ <- _]. unfold is_accepted. simpl. by rewrite ?insert_insert_eq, delete_insert_eq, delete_id.
    + destruct (_ <? _ + 1); intros [= _ <- _]; unfold set_nr, set_conn; simpl; rewrite insert_insert_eq;
        by apply (Hsame (MkUdpConn [] from false)).
Qed.

(** Accepting a peer that was not accepted. *)
Lemma try_accept_accepted ev s r s' ns :
  rx_inv s → 0 < Q_SIZE → overflows ev s = false → try_accept ev s = (r, s', ns) →
  match r with
  | Ok (Some p) => is_accepted s p = false ∧ ∀ a, is_accepted s' a = bool_decide (p = a) || is_accepted s a
  | _ => ∀ a, is_accepted s' a = is_accepted s a
  end.
Proof.
  intros Hi HQ Hov. unfold try_accept. destruct (try_recv ev s) as [[r1 s1] ns1] eqn:E.
  pose proof (λ a, try_recv_accepted _ _ _ _ _ a Hi HQ Hov E) as Hacc.
  destruct (try_recv_inv _ _ _ _ _ Hi HQ Hov E) as (_ & Hi1 & _).
  destruct r1 as [[]|e|w]; [|by intros [= <- <- _]..].
  destruct (first_not_accepted s1) as [[k c]|] eqn:Ef; intros [= <- <- _]; [|done].
  apply first_not_accepted_spec in Ef as [Hk Hna]. destruct (ri_queue _ Hi1 _ _ Hk) as [_ ->]. split.
  - rewrite <- Hacc. unfold is_accepted. by rewrite Hk.
  - intros a. unfold set_conn. rewrite is_accepted_insert, Hacc. case_decide as Ea; simpl.
    + by rewrite bool_decide_eq_true_2.
    + by rewrite bool_decide_eq_false_2.
Qed.

Lemma try_recv_from_accepted ev peer s r s' ns a :
  rx_inv s → 0 < Q_SIZE → overflows ev s = false → try_recv_from ev peer s = (r, s', ns) →
  is_accepted s' a = is_accepted s a.
Proof.
  intros Hi HQ Hov. unfold try_recv_from. destruct (try_recv ev s) as [[r1 s1] ns1] eqn:E.
  rewrite <- (try_recv_accepted _ _ _ _ _ a Hi HQ Hov E).
  destruct r1 as [[]|e|w]; [|by intros [= _ <- _]..].
  destruct (conn s1 !! peer) as [[[|buf q] pa acc]|] eqn:Ep; try by intros [= _ <- _].
  destruct (_ =? 0); intros [= _ <- _]; unfold set_nr, set_conn; simpl; rewrite is_accepted_insert;
    (case_decide as Ea; [|done]); subst a; unfold is_accepted; by rewrite Ep.
Qed.

Lemma disconnect_accepted peer s r s' a :
  disconnect peer s = (Ok r, s') → is_accepted s' a = negb (bool_decide (peer = a)) && is_accepted s a.
Proof.
  unfold disconnect. destruct (_ <? _); [done|]. destruct (_ && _); [done|]. intros [= _ <-].
  unfold is_accepted. simpl. rewrite lookup_delete. case_decide as E.
  - by rewrite bool_decide_eq_true_2.
  - by rewrite bool_decide_eq_false_2.
Qed.

(** The limit is fixed. *)
Lemma try_recv_max ev s : max_nr_conn (try_recv ev s).1.2 = max_nr_conn s.
Proof. destruct ev as [n buf from| |]; simpl; [|done..]. by repeat case_match. Qed.
Lemma try_accept_max ev s : max_nr_conn (try_accept ev s).1.2 = max_nr_conn s.
Proof.
  rewrite <- (try_recv_max ev s). unfold try_accept. destruct (try_recv ev s) as [[r1 s1] ns1]. by repeat case_match.
Qed.
Lemma try_recv_from_max ev peer s : max_nr_conn (try_recv_from ev peer s).1.2 = max_nr_conn s.
Proof.
  rewrite <- (try_recv_max ev s). unfold try_recv_from. destruct (try_recv ev s) as [[r1 s1] ns1]. by repeat case_match.
Qed.

(** ** Runs of the dispatcher

    The tasks take the lock of the dispatcher for one operation at a time, so a run is a sequence of
    operations. *)
Inductive op : Type :=
| OpAccept (ev : recv_ev)
| OpRecvFrom (ev : recv_ev) (peer : SocketAddr)
| OpDisconnect (peer : SocketAddr).

(** The datagram that an operation hands to its caller, and the state after it. *)
Definition step_op (o : op) (s : UdpDispatcherRx) : res (option (list byte)) * UdpDispatcherRx :=
  match o with
  | OpAccept ev => let '(r, s', _) := try_accept ev s in (_ ← r; Ok None, s')
  | OpRecvFrom ev peer => (try_recv_from ev peer s).1
  | OpDisconnect peer => let (r, s') := disconnect peer s in (_ ← r; Ok None, s')
  end.

Definition op_overflows (o : op) (s : UdpDispatcherRx) : bool :=
  match o with OpAccept ev | OpRecvFrom ev _ => overflows ev s | OpDisconnect _ => false end.

(** What the socket delivers for [a] in one operation, and what the operation hands out. *)
Definition op_arrival (a : SocketAddr) (o : op) (s : UdpDispatcherRx) : list (list byte) :=
  match o with
  | OpAccept ev | OpRecvFrom ev _ => match (try_recv ev s).1.1 with Ok _ => arrival ev a | _ => [] end
  | OpDisconnect _ => []
  end.
Definition op_handed (a : SocketAddr) (o : op) (s : UdpDispatcherRx) : list (list byte) :=
  match o with
  | OpRecvFrom _ peer =>
      if bool_decide (peer = a) then match (step_op o s).1 with Ok (Some buf) => [buf] | _ => [] end else []
  | _ => []
  end.

(** What a disconnect of [a] discards. *)
Definition op_discarded (a : SocketAddr) (o : op) (s : UdpDispatcherRx) : list (list byte) :=
  match o with OpDisconnect peer => if bool_decide (peer = a) then queue_of s a else [] | _ => [] end.

Fixpoint final (os : list op) (s : UdpDispatcherRx) : UdpDispatcherRx :=
  match os with [] => s | o :: os' => final os' (step_op o s).2 end.
Fixpoint collect {A} (f : op → UdpDispatcherRx → A) (os : list op) (s : UdpDispatcherRx) : list A :=
  match os with [] => [] | o :: os' => f o s :: collect f os' (step_op o s).2 end.

Definition no_overflow (os : list op) (s : UdpDispatcherRx) : bool := forallb negb (collect op_overflows os s).

Lemma step_op_inv o s r s' :
  rx_inv s → 0 < Q_SIZE → op_overflows o s = false → step_op o s = (r, s') → no_panic r ∧ rx_inv s'.
Proof.
  intros Hi HQ Hov. destruct o as [ev|ev peer|peer]; simpl in *.
  - destruct (try_accept ev s) as [[r1 s1] ns1] eqn:E.
    destruct (try_accept_inv _ _ _ _ _ Hi HQ Hov E) as (_ & Hp & Hi1 & _).
    intros [= <- <-]. by destruct r1.
  - destruct (try_recv_from ev peer s) as [[r1 s1] ns1] eqn:E. intros [= -> ->].
    by eapply try_recv_from_inv.
  - destruct (disconnect peer s) as [r1 s1] eqn:E.
    destruct (disconnect_inv _ _ _ _ Hi E) as (-> & Hi1 & _). by intros [= <- <-].
Qed.

(** One operation: what is handed out or discarded comes from the front of the queue, what arrives
    goes to its end, and the queues of all other peers stay. *)
Lemma step_op_queue o s a :
  rx_inv s → 0 < Q_SIZE → op_overflows o s = false →
  op_handed a o s ++ op_discarded a o s ++ queue_of (step_op o s).2 a = queue_of s a ++ op_arrival a o s.
Proof.
  intros Hi HQ Hov.
  assert (Hrecv : ∀ ev r s1 ns, overflows ev s = false → try_recv ev s = (r, s1, ns) →
    queue_of s1 a = queue_of s a ++ match r with Ok _ => arrival ev a | _ => [] end).
  { intros ev r s1 ns Hov' E. destruct (try_recv_inv _ _ _ _ _ Hi HQ Hov' E) as [Hp _].
    destruct r as [[]|e|w]; [by eapply try_recv_queue| |done].
    rewrite app_nil_r. by eapply try_recv_err_queue. }
  destruct o as [ev|ev peer|peer]; simpl in *.
  - unfold try_accept. destruct (try_recv ev s) as [[r1 s1] ns1] eqn:E.
    simpl. rewrite <- (Hrecv ev _ _ _ Hov E). destruct r1 as [[]|e|w]; simpl; try done.
    destruct (first_not_accepted s1) as [[k c]|] eqn:Ef; [|done].
    apply first_not_accepted_spec in Ef as [Hk _]. unfold queue_of. simpl.
    rewrite lookup_insert. case_decide as Eka; [subst; by rewrite Hk|done].
  - destruct (try_recv ev s) as [[r1 s1] ns1] eqn:E.
    simpl. rewrite <- (Hrecv ev _ _ _ Hov E).
    destruct (try_recv_inv _ _ _ _ _ Hi HQ Hov E) as (Hp & [Ht _ _] & _).
    unfold try_recv_from. rewrite E. destruct r1 as [[]|e|w]; simpl; try by case_bool_decide.
    destruct (conn s1 !! peer) as [[[|buf q] pa acc]|] eqn:Ec; simpl; try by case_bool_decide.
    pose proof (total_delete _ _ _ Ec) as Htot. unfold qlen in Htot. simpl in Htot.
    rewrite (proj2 (Nat.eqb_neq _ _)) by lia. unfold queue_of. simpl. rewrite lookup_insert.
    case_bool_decide as Ea; [subst a; by rewrite decide_True, Ec|by rewrite decide_False].
  - rewrite app_nil_r. destruct (disconnect peer s) as [r1 s1] eqn:E.
    destruct (disconnect_inv _ _ _ _ Hi E) as (-> & _ & _). simpl.
    unfold disconnect in E. destruct (_ <? _); [done|]. destruct (_ && _); [done|].
    injection E as <-. unfold queue_of. simpl. case_bool_decide as Ha.
    + subst a. rewrite lookup_delete_eq. apply app_nil_r.
    + by rewrite lookup_delete_ne.
Qed.

Lemma rx_inv_new max : rx_inv (UdpDispatcherRx_new max).
Proof. split; simpl; [by rewrite total_empty|rewrite map_size_empty; lia|done]. Qed.

(** ** The properties of the dispatcher *)

(** C19: As long as no receive queue overflows, in every run of the dispatcher (any interleaving of
    accepts, receives and disconnects, with any datagrams, sizes and errors from the socket) no
    assertion fails and no subtraction underflows; the counter of queued datagrams stays the sum of
    the queue lengths, and the limits on connections and queue lengths hold. *)
Theorem dispatcher_invariant (os : list op) (max : nat) :
  0 < Q_SIZE → no_overflow os (UdpDispatcherRx_new max) = true →
  Forall no_panic (collect (λ o s, (step_op o s).1) os (UdpDispatcherRx_new max)) ∧
  rx_inv (final os (UdpDispatcherRx_new max)).
Proof.
  intros HQ. pose proof (rx_inv_new max) as Hi.
  revert Hi. generalize (UdpDispatcherRx_new max). unfold no_overflow.
  induction os as [|o os IH]; intros s Hi; simpl; [by split; [constructor|]|].
  intros [Ho%negb_true_iff Hos]%andb_true_iff.
  destruct (step_op o s) as [r s'] eqn:E. simpl in *.
  destruct (step_op_inv _ _ _ _ Hi HQ Ho E) as [Hp Hi'].
  destruct (IH _ Hi' Hos). split; [by constructor|done].
Qed.

(** C24: As long as no receive queue overflows, the datagrams that the dispatcher has accepted for a
    peer (those of the right size, unless there were too many connections) are, in the order of their
    arrival, each exactly once: handed to that peer's receiver, or discarded by a disconnect of
    that peer, or, at the end, still in its queue. So without a disconnect of the peer, what it has
    received is a prefix of what was accepted for it; the datagrams of others are never handed to it. *)
Theorem dispatcher_fifo (os : list op) (max : nat) (a : SocketAddr) :
  0 < Q_SIZE → no_overflow os (UdpDispatcherRx_new max) = true →
  let s := UdpDispatcherRx_new max in
  concat (collect (op_arrival a) os s) =
    concat (collect (λ o s, op_handed a o s ++ op_discarded a o s) os s) ++ queue_of (final os s) a ∧
  (OpDisconnect a ∉ os → concat (collect (op_arrival a) os s) = concat (collect (op_handed a) os s) ++ queue_of (final os s) a).
Proof.
  intros HQ Hov s. unfold s.
  assert (Hall : concat (collect (op_arrival a) os (UdpDispatcherRx_new max)) =
    concat (collect (λ o s, op_handed a o s ++ op_discarded a o s) os (UdpDispatcherRx_new max)) ++
    queue_of (final os (UdpDispatcherRx_new max)) a).
  { assert (Hq : queue_of (UdpDispatcherRx_new max) a = []) by done.
    rewrite <- (app_nil_l (concat (collect (op_arrival a) _ _))), <- Hq. clear Hq s.
    pose proof (rx_inv_new max) as Hi. revert Hi Hov. generalize (UdpDispatcherRx_new max). unfold no_overflow.
    induction os as [|o os IH]; intros s Hi; simpl; [intros _; by rewrite app_nil_r|].
    intros [Ho%negb_true_iff Hos]%andb_true_iff. destruct (step_op o s) as [r s'] eqn:E. simpl in *.
    destruct (step_op_inv _ _ _ _ Hi HQ Ho E) as [_ Hi'].
    rewrite app_assoc. pose proof (step_op_queue o s a Hi HQ Ho) as Hstep.
    rewrite E in Hstep. simpl in Hstep. rewrite <- Hstep, <- !app_assoc. do 2 f_equal. by apply IH. }
  split; [exact Hall|]. intros Hno. rewrite Hall. f_equal. f_equal. clear -Hno. generalize (UdpDispatcherRx_new max).
  induction os as [|o os IH]; intros s; simpl; [done|]. apply not_elem_of_cons in Hno as [Ho Hno]. f_equal; [|by apply IH].
  destruct o as [| |peer]; simpl; [done|by rewrite app_nil_r|]. by rewrite bool_decide_eq_false_2 by congruence.
Qed.

(** ** The overflow of a receive queue *)

Definition dgram (peer : SocketAddr) (buf : list byte) : op := OpAccept (RecvData MSG_SIZE buf peer).

(** A datagram that is queued. *)
Lemma try_recv_push buf from s c :
  default (MkUdpConn [] from false) (conn s !! from) = c →
  qlen c < Q_SIZE → size (conn s) <= max_nr_conn s →
  size (<[from := c]> (conn s)) <= max_nr_conn s → nr_queued_dgrams s < max_nr_conn s * Q_SIZE →
  (try_recv (RecvData MSG_SIZE buf from) s).1 =
  (Ok (), MkRx (<[from := MkUdpConn (rx_queue c ++ [buf]) (peer_addr c) (accepted c)]> (conn s))
               (max_nr_conn s) (S (nr_queued_dgrams s))).
Proof.
  intros Ec Hq Hs1 Hs2 Hn. unfold qlen in Hq. unfold try_recv. cbv zeta. rewrite Ec, Nat.eqb_refl.
  set (c' := MkUdpConn (rx_queue c ++ [buf]) (peer_addr c) (accepted c)). simpl.
  assert (Hs3 : size (<[from := c']> (conn s)) <= max_nr_conn s).
  { destruct (conn s !! from) eqn:E; [by rewrite map_size_insert_Some|].
    rewrite map_size_insert_None in Hs2 |- * by done. lia. }
  rewrite !(proj2 (Nat.ltb_ge _ _)), (proj2 (Nat.eqb_neq _ _)), insert_insert_eq by lia. simpl.
  rewrite (proj2 (Nat.ltb_ge (max_nr_conn s) _)) by lia.
  rewrite (proj2 (Nat.ltb_ge (_ * _) _)) by lia. unfold set_nr, set_conn. simpl.
  by rewrite insert_insert_eq, Nat.add_1_r.
Qed.

Lemma accept_first peer buf max :
  0 < max → 0 < Q_SIZE →
  (step_op (dgram peer buf) (UdpDispatcherRx_new max)).2 =
  MkRx {[peer := MkUdpConn [buf] peer true]} max 1.
Proof.
  intros Hm HQ. unfold step_op, dgram, try_accept.
  destruct (try_recv _ _) as [rs ns] eqn:E. apply (f_equal fst) in E.
  rewrite (try_recv_push _ _ _ (MkUdpConn [] peer false)) in E; try done; simpl in *; try nia.
  2: rewrite map_size_empty; lia.
  2: rewrite insert_empty, map_size_singleton; lia.
  subst rs. rewrite insert_empty. unfold first_not_accepted, set_conn. simpl.
  assert (Hh : hash_iter (V := UdpConn) {[peer := MkUdpConn [buf] peer false]} = [(peer, MkUdpConn [buf] peer false)]).
  { apply Permutation_singleton_r. by rewrite hash_iter_perm, map_to_list_singleton. }
  rewrite Hh. simpl. by rewrite insert_singleton_eq.
Qed.

Lemma accept_next peer buf max q :
  0 < max → 0 < length q < Q_SIZE →
  (step_op (dgram peer buf) (MkRx {[peer := MkUdpConn q peer true]} max (length q))).2 =
  MkRx {[peer := MkUdpConn (q ++ [buf]) peer true]} max (S (length q)).
Proof.
  intros Hm HQ. unfold step_op, dgram, try_accept.
  destruct (try_recv _ _) as [rs ns] eqn:E. apply (f_equal fst) in E.
  rewrite (try_recv_push _ _ _ (MkUdpConn q peer true)) in E; simpl;
    rewrite ?lookup_singleton_eq, ?insert_singleton_eq, ?map_size_singleton; unfold qlen; simpl; try nia.
  2: done.
  simpl in E.
  subst rs. rewrite insert_singleton_eq. unfold first_not_accepted. simpl.
  assert (Hh : hash_iter (V := UdpConn) {[peer := MkUdpConn (q ++ [buf]) peer true]} = [(peer, MkUdpConn (q ++ [buf]) peer true)]).
  { apply Permutation_singleton_r. by rewrite hash_iter_perm, map_to_list_singleton. }
  by rewrite Hh.
Qed.

(** The first datagrams fill the queue. *)
Lemma accept_fill peer bufs max q :
  0 < max → 0 < length q → length (q ++ bufs) <= Q_SIZE →
  final (dgram peer <$> bufs) (MkRx {[peer := MkUdpConn q peer true]} max (length q)) =
  MkRx {[peer := MkUdpConn (q ++ bufs) peer true]} max (length (q ++ bufs)).
Proof.
  intros Hm. revert q. induction bufs as [|b bufs IH]; intros q Hq Hle; simpl; [by rewrite app_nil_r|].
  rewrite length_app in Hle. simpl in Hle.
  change (MkRx (<[peer := ?c]> ∅) ?m ?n) with (MkRx {[peer := c]} m n).
  pose proof (accept_next peer b max q Hm ltac:(lia)) as E. simpl in E. rewrite E.
  rewrite <- (Nat.add_1_r (length q)). change 1 with (length [b]). rewrite <- length_app, IH.
  - by rewrite <- app_assoc.
  - rewrite length_app. simpl. lia.
  - rewrite !length_app. simpl. lia.
Qed.

Lemma final_app os os' s : final (os ++ os') s = final os' (final os s).
Proof. revert s. induction os as [|o os IH]; intros s; simpl; [done|apply IH]. Qed.

Lemma accept_overflow peer buf max q :
  0 < max → length q = Q_SIZE →
  (step_op (dgram peer buf) (MkRx {[peer := MkUdpConn q peer true]} max Q_SIZE)).2 = MkRx ∅ max Q_SIZE.
Proof.
  intros Hm Hq. unfold step_op, dgram, try_accept, try_recv. cbv zeta.
  rewrite Nat.eqb_refl. cbn [negb conn max_nr_conn nr_queued_dgrams].
  rewrite map_size_singleton, (proj2 (Nat.ltb_ge _ _)), lookup_singleton_eq by lia.
  simpl default. cbn [rx_queue]. rewrite Hq, Nat.ltb_irrefl, Nat.eqb_refl. unfold set_conn. simpl.
  by rewrite insert_singleton_eq, delete_singleton_eq.
Qed.

(** C20: One datagram more than the queue holds, from one address, before any of them is received:
    the connection is dropped, but its datagrams stay in the counter, so that the next disconnect, of
    any peer, fails its assertion. *)
Theorem queue_overflow_breaks_counter (peer a : SocketAddr) (bufs : list (list byte)) (buf : list byte) (max : nat) :
  0 < max → 0 < Q_SIZE → length bufs = Q_SIZE →
  let s := final (dgram peer <$> bufs ++ [buf]) (UdpDispatcherRx_new max) in
  conn s = ∅ ∧ nr_queued_dgrams s = Q_SIZE ∧ ∃ w, (disconnect a s).1 = Panic w.
Proof.
  intros Hm HQ Hlen s.
  assert (Es : s = MkRx ∅ max Q_SIZE).
  { unfold s. rewrite fmap_app, final_app. destruct bufs as [|b bufs]; [simpl in Hlen; lia|].
    change (final (dgram peer <$> b :: bufs) ?s0)
      with (final (dgram peer <$> bufs) (step_op (dgram peer b) s0).2).
    rewrite accept_first by done. change 1 with (length [b]). rewrite accept_fill by (simpl in *; lia).
    change ([b] ++ bufs) with (b :: bufs). rewrite Hlen.
    by apply accept_overflow. }
  rewrite Es. split_and!; [done..|]. unfold disconnect. cbn [conn nr_queued_dgrams].
  rewrite lookup_empty. simpl. rewrite delete_empty, bool_decide_eq_true_2 by done. rewrite Nat.sub_0_r.
  rewrite (proj2 (Nat.eqb_neq _ _)) by lia. simpl. eauto.
Qed.

End dispatcher.

Arguments UdpConn : clear implicits.
Arguments UdpDispatcherRx SocketAddr {_ _}.
Arguments recv_ev : clear implicits.

(** ** Witnesses: two peers, queues of two datagrams of one byte *)

Arguments step_op {HO SocketAddr _ _}.
Arguments OpAccept {SocketAddr}.
Arguments OpRecvFrom {SocketAddr}.
Arguments OpDisconnect {SocketAddr}.
Arguments RecvData {SocketAddr}.
Arguments RecvWouldBlock {SocketAddr}.
Arguments RecvErr {SocketAddr}.

Definition sample_ops : list (op (SocketAddr := nat)) :=
  [OpAccept (RecvData 1 [x01] 7); OpAccept (RecvData 1 [x02] 9); OpRecvFrom (RecvData 1 [x03] 7) 9;
   OpAccept RecvErr; OpRecvFrom RecvWouldBlock 7; OpAccept (RecvData 2 [x05] 8);
   OpAccept (RecvData 1 [x04] 7); OpDisconnect 9].

Lemma dispatcher_invariant_witness :
  Forall no_panic (collect (HO := sorted_order) 1 2 (λ o s, (step_op (HO := sorted_order) 1 2 o s).1) sample_ops (UdpDispatcherRx_new 2)).
Proof.
  refine (proj1 (dispatcher_invariant (HO := sorted_order) 1 2 sample_ops 2 _ _)).
  - repeat constructor.
  - vm_compute. reflexivity.
Defined.

(** Two of the datagrams of peer 7 have arrived but are not received. *)
Lemma dispatcher_fifo_witness :
  concat (collect (HO := sorted_order) 1 2 (op_arrival 1 2 7) sample_ops (UdpDispatcherRx_new 2)) = [[x01]; [x03]; [x04]] ∧
  concat (collect (HO := sorted_order) 1 2 (op_handed (HO := sorted_order) 1 2 7) sample_ops (UdpDispatcherRx_new 2)) = [[x01]] ∧
  [[x01]; [x03]; [x04]] = [[x01]] ++ queue_of (final (HO := sorted_order) 1 2 sample_ops (UdpDispatcherRx_new 2)) 7.
Proof.
  split; [vm_compute; reflexivity|]. split; [vm_compute; reflexivity|].
  refine (proj2 (dispatcher_fifo (HO := sorted_order) 1 2 sample_ops 2 7 _ _) _).
  - repeat constructor.
  - vm_compute. reflexivity.
  - unfold sample_ops. rewrite !not_elem_of_cons. split_and!; try discriminate. apply not_elem_of_nil.
Defined.

(** The sizes of the program: messages of [MSG_SIZE] bytes, queues of four datagrams. *)
Lemma queue_overflow_breaks_counter_witness :
  ∃ w, (disconnect 9 (final (HO := sorted_order) 1 4 (dgram 1 7 <$> [[x01]; [x02]; [x03]; [x04]] ++ [[x05]])
                            (UdpDispatcherRx_new 8))).1 = Panic w.
Proof.
  refine (proj2 (proj2 (queue_overflow_breaks_counter (HO := sorted_order) 1 4 7 9
                          [[x01]; [x02]; [x03]; [x04]] [x05] 8 _ _ _))); [lia|lia|reflexivity].
Defined.
