(* ===== verification/Addr.v ===== *)
(** * Addresses in text form

    [std::net::IpAddr] is printed into the comments that identify the firewall rules. This file
    models the formatting of the standard library and shows that it is injective, so that a rule
    comment identifies one address. *)

From Stdlib Require Import Ascii.
From S2P Require Import Prelude Str FwProto.
Local Open Scope Z_scope.

(** [Display for Ipv4Addr]. *)
Definition ipv4_display (o : vec byte 4) : str :=
  join (ch ".") ((λ b, show_dec (byte.unsigned b)) <$> vec_to_list o).

(** [Ipv6Addr::segments]. *)
Definition segments (o : vec byte 16) : list u16 :=
  (λ i, from_be_bytes (slice (2 * i) 2 (vec_to_list o))) <$> seq 0 8.

(** [Ipv6Addr::to_ipv4_mapped]. *)
Definition to_ipv4_mapped (o : vec byte 16) : option (vec byte 4) :=
  if bool_decide (slice 0 12 (vec_to_list o) = replicate 10 x00 ++ [xff; xff])
  then array_try_from 4 (slice 12 4 (vec_to_list o)) else None.

(** The loop that looks for the first longest run of zero segments. A span is a start index and a
    length. *)
Fixpoint zero_run_loop (i : nat) (segs : list u16) (longest current : nat * nat) : nat * nat :=
  match segs with
  | [] => longest
  | segment :: rest =>
      if segment =? 0 then
        let current := (if (current.2 =? 0)%nat then i else current.1, S current.2) in
        let longest := if (longest.2 <? current.2)%nat then current else longest in
        zero_run_loop (S i) rest longest current
      else zero_run_loop (S i) rest longest (0, 0)%nat
  end.
Definition longest_zero_run (segs : list u16) : nat * nat :=
  zero_run_loop 0 segs (0, 0)%nat (0, 0)%nat.

Definition fmt_subslice (chunk : list u16) : str := join (ch ":") (show_hex <$> chunk).

(** [Display for Ipv6Addr]. *)
Definition ipv6_display (o : vec byte 16) : str :=
  match to_ipv4_mapped o with
  | Some ipv4 => lit "::ffff:" ++ ipv4_display ipv4
  | None =>
      let segs := segments o in
      let (start, len) := longest_zero_run segs in
      if (1 <? len)%nat then
        fmt_subslice (take start segs) ++ lit "::" ++ fmt_subslice (drop (start + len) segs)
      else fmt_subslice segs
  end.

Definition ip_display (a : IpAddr) : str :=
  match a with V4 o => ipv4_display o | V6 o => ipv6_display o end.

(** ** Printed numbers hold digits only *)

Definition digits_only (radix : Z) (s : str) : Prop := Forall (λ c, is_Some (to_digit radix c)) s.

Lemma digits_only_not_in radix c s :
  digits_only radix s → to_digit radix c = None → c ∉ s.
Proof.
  intros H Hc Hin. unfold digits_only in H. rewrite Forall_forall in H.
  destruct (H c Hin). congruence.
Qed.

Lemma show_hex_digits z : digits_only 16 (show_hex z).
Proof. by apply show_radix_valid. Qed.
Lemma show_dec_digits z : digits_only 10 (show_dec z).
Proof. by apply show_radix_valid. Qed.

Lemma show_hex_list_no_colon (l : list Z) : Forall (λ s, ch ":" ∉ s) (show_hex <$> l).
Proof.
  apply Forall_fmap, Forall_true. intros z.
  by eapply digits_only_not_in; [apply show_hex_digits|].
Qed.
Lemma show_hex_list_nonempty (l : list Z) : Forall (λ s : str, s ≠ []) (show_hex <$> l).
Proof. apply Forall_fmap, Forall_true. intros z. apply show_radix_nonempty. Qed.

Lemma show_hex_list_inj (l1 l2 : list Z) :
  Forall (Z.le 0) l1 → Forall (Z.le 0) l2 → show_hex <$> l1 = show_hex <$> l2 → l1 = l2.
Proof.
  intros H1. revert l2. induction H1 as [|z1 l1 Hz1 _ IH]; intros l2 H2 E;
    destruct H2 as [|z2 l2 Hz2 H2]; try done.
  rewrite !fmap_cons in E. injection E as E1 E2. f_equal; [|by apply IH].
  by apply (show_radix_inj 16 false).
Qed.

(** ** Segments *)

Lemma segments_nonneg o : Forall (Z.le 0) (segments o).
Proof.
  apply Forall_fmap, Forall_true. intros i. apply le_combine_bound.
Qed.

Lemma segments_inj o1 o2 : segments o1 = segments o2 → o1 = o2.
Proof.
  intros E. apply vec_to_list_inj2.
  assert (H : ∀ i, (i < 8)%nat → slice (2 * i) 2 (vec_to_list o1) = slice (2 * i) 2 (vec_to_list o2)).
  { intros i Hi. apply (f_equal (λ l, l !! i)) in E. unfold segments in E.
    rewrite !list_lookup_fmap, lookup_seq_lt in E by done. simpl in E. injection E as E.
    apply (f_equal (to_be_bytes 2)) in E.
    rewrite !to_from_be_bytes in E by (rewrite length_slice; rewrite ?length_vec_to_list; lia).
    done. }
  assert (Hs : ∀ o : vec byte 16, vec_to_list o =
    slice 0 2 o ++ slice 2 2 o ++ slice 4 2 o ++ slice 6 2 o ++
    slice 8 2 o ++ slice 10 2 o ++ slice 12 2 o ++ slice 14 2 o).
  { intros o. rewrite <- (slice_all (vec_to_list o)) at 1. rewrite length_vec_to_list.
    change 16%nat with (2 + (2 + (2 + (2 + (2 + (2 + (2 + 2)))))))%nat.
    by rewrite !slice_app_split. }
  rewrite (Hs o1), (Hs o2).
  f_equal; [exact (H 0%nat ltac:(lia))|]. f_equal; [exact (H 1%nat ltac:(lia))|].
  f_equal; [exact (H 2%nat ltac:(lia))|]. f_equal; [exact (H 3%nat ltac:(lia))|].
  f_equal; [exact (H 4%nat ltac:(lia))|]. f_equal; [exact (H 5%nat ltac:(lia))|].
  f_equal; [exact (H 6%nat ltac:(lia))|exact (H 7%nat ltac:(lia))].
Qed.

(** The run that is abbreviated holds zeros only. *)
Lemma zero_run_loop_spec (full : list u16) i segs longest current :
  drop i full = segs → (i ≤ length full)%nat →
  (∀ j, (longest.1 ≤ j < longest.1 + longest.2)%nat → full !! j = Some 0) →
  (longest.1 + longest.2 ≤ i)%nat →
  (∀ j, (current.1 ≤ j < current.1 + current.2)%nat → full !! j = Some 0) →
  (current.2 = 0 ∨ current.1 + current.2 = i)%nat →
  let r := zero_run_loop i segs longest current in
  (r.1 + r.2 ≤ length full)%nat ∧
  (∀ j, (r.1 ≤ j < r.1 + r.2)%nat → full !! j = Some 0).
Proof.
  revert i longest current.
  induction segs as [|seg segs IH]; intros i longest current Hd Hi Hl Hli Hc Hci; simpl.
  { split; [lia|done]. }
  assert (Hseg : full !! i = Some seg) by (by rewrite <- (Nat.add_0_r i), <- lookup_drop, Hd).
  assert (Hd' : drop (S i) full = segs) by (by rewrite <- Nat.add_1_r, <- drop_drop, Hd).
  apply lookup_lt_Some in Hseg as Hlt.
  destruct (Z.eqb_spec seg 0) as [->|Hne].
  - set (cur := (if (current.2 =? 0)%nat then i else current.1, S current.2)).
    assert (Hcur : (∀ j, (cur.1 ≤ j < cur.1 + cur.2)%nat → full !! j = Some 0) ∧
                   (cur.1 + cur.2 = S i)%nat).
    { unfold cur; simpl. destruct (Nat.eqb_spec current.2 0) as [E|E].
      - rewrite E. split; [|lia]. intros j Hj. by replace j with i by lia.
      - split; [|lia]. intros j Hj. destruct (decide (j = i)) as [->|]; [done|]. apply Hc. lia. }
    destruct Hcur as [Hcur Hcur2].
    apply IH; [done|lia|by case_match|case_match; lia|done|lia].
  - apply IH; [done|lia|done|lia| |by left]. intros j Hj. simpl in *. lia.
Qed.

Lemma longest_zero_run_spec (segs : list u16) start len :
  longest_zero_run segs = (start, len) →
  (start + len ≤ length segs)%nat ∧
  segs = take start segs ++ replicate len 0 ++ drop (start + len) segs.
Proof.
  intros E. destruct (zero_run_loop_spec segs 0 segs (0, 0)%nat (0, 0)%nat) as [Hle Hz];
    [done|lia|intros j; simpl; lia|done|intros j; simpl; lia|by left|].
  fold (longest_zero_run segs) in Hle, Hz. rewrite E in Hle, Hz. simpl in Hle, Hz.
  split; [done|]. rewrite <- (take_drop start segs) at 1. f_equal.
  rewrite <- (take_drop len (drop start segs)), drop_drop. f_equal.
  apply list_eq. intros j. destruct (decide (j < len)%nat) as [Hj|Hj].
  - rewrite lookup_take_lt, lookup_drop, lookup_replicate_2 by done. apply Hz. lia.
  - rewrite lookup_take_ge, lookup_ge_None_2; [done|rewrite length_replicate; lia|lia].
Qed.

(** ** Injectivity *)

Lemma byte_unsigned_inj_list (l1 l2 : list byte) :
  (λ b, show_dec (byte.unsigned b)) <$> l1 = (λ b, show_dec (byte.unsigned b)) <$> l2 → l1 = l2.
Proof.
  revert l2. induction l1 as [|b1 l1 IH]; intros [|b2 l2] E; try done.
  rewrite !fmap_cons in E. injection E as E1 E2. f_equal; [|by apply IH].
  apply byte.unsigned_inj.
  by apply (show_radix_inj 10 false); [lia|apply byte_range..|].
Qed.

Lemma show_dec_list_no_char c (l : list byte) :
  to_digit 10 c = None → Forall (λ s, c ∉ s) ((λ b, show_dec (byte.unsigned b)) <$> l).
Proof.
  intros Hc. apply Forall_fmap, Forall_true. intros b.
  by eapply digits_only_not_in; [apply show_dec_digits|].
Qed.

Lemma ipv4_display_split o :
  split_char (ch ".") (ipv4_display o) = (λ b, show_dec (byte.unsigned b)) <$> vec_to_list o.
Proof.
  apply split_char_join; [by apply show_dec_list_no_char|].
  intros E. apply (f_equal length) in E. by rewrite length_fmap, length_vec_to_list in E.
Qed.

Lemma ipv4_display_inj o1 o2 : ipv4_display o1 = ipv4_display o2 → o1 = o2.
Proof.
  intros E. apply (f_equal (split_char (ch "."))) in E. rewrite !ipv4_display_split in E.
  by apply vec_to_list_inj2, byte_unsigned_inj_list.
Qed.

Lemma ipv4_display_no_char c o : to_digit 10 c = None → c ≠ ch "." → c ∉ ipv4_display o.
Proof. intros Hc Hne. apply not_elem_of_join; [done|]. by apply show_dec_list_no_char. Qed.

Lemma ipv4_display_dot o : ch "." ∈ ipv4_display o.
Proof.
  inv_vec o. intros a b c d. unfold ipv4_display, join.
  rewrite vec_to_list_cons, fmap_cons, vec_to_list_cons, fmap_cons.
  apply elem_of_app. right. left.
Qed.

(** The three forms of a printed IPv6 address, split at the colons. *)
Definition hex_pieces (l : list u16) : list str := show_hex <$> l.

Lemma ipv6_display_mapped o ipv4 :
  to_ipv4_mapped o = Some ipv4 →
  split_char (ch ":") (ipv6_display o) = [[]; []; lit "ffff"; ipv4_display ipv4].
Proof.
  intros E. unfold ipv6_display. rewrite E.
  change (lit "::ffff:" ++ ipv4_display ipv4)
    with ([] ++ ch ":" :: ([] ++ ch ":" :: (lit "ffff" ++ ch ":" :: ipv4_display ipv4))).
  rewrite !split_char_app, (split_char_none _ (ipv4_display ipv4)); [done|].
  by apply ipv4_display_no_char.
Qed.

Lemma ipv6_display_compressed o start len :
  to_ipv4_mapped o = None → longest_zero_run (segments o) = (start, len) → (1 < len)%nat →
  split_char (ch ":") (ipv6_display o) =
    pieces (hex_pieces (take start (segments o))) ++ [[]] ++
    pieces (hex_pieces (drop (start + len) (segments o))).
Proof.
  intros Em E Hl. unfold ipv6_display. rewrite Em, E, (proj2 (Nat.ltb_lt _ _) Hl).
  set (a := fmt_subslice (take start (segments o))).
  set (b := fmt_subslice (drop (start + len) (segments o))).
  change (a ++ lit "::" ++ b) with (a ++ ch ":" :: ([] ++ ch ":" :: b)).
  rewrite !split_char_app. unfold a, b, fmt_subslice.
  rewrite !split_char_pieces by apply show_hex_list_no_colon. done.
Qed.

Lemma ipv6_display_plain o start len :
  to_ipv4_mapped o = None → longest_zero_run (segments o) = (start, len) → (len ≤ 1)%nat →
  split_char (ch ":") (ipv6_display o) = hex_pieces (segments o).
Proof.
  intros Em E Hl. unfold ipv6_display. rewrite Em, E, (proj2 (Nat.ltb_ge _ _) Hl).
  apply split_char_join; [apply show_hex_list_no_colon|done].
Qed.

Lemma hex_pieces_inj l1 l2 :
  Forall (Z.le 0) l1 → Forall (Z.le 0) l2 → hex_pieces l1 = hex_pieces l2 → l1 = l2.
Proof. apply show_hex_list_inj. Qed.

Lemma hex_pieces_no_dot l : Forall (λ s, ch "." ∉ s) (hex_pieces l).
Proof.
  apply Forall_fmap, Forall_true. intros z.
  by eapply digits_only_not_in; [apply show_hex_digits|].
Qed.

Lemma pieces_no_dot l : Forall (λ s, ch "." ∉ s) (pieces (hex_pieces l)).
Proof.
  destruct l as [|z l]; [repeat constructor; apply not_elem_of_nil|apply hex_pieces_no_dot].
Qed.

(** No piece of an address that is not IPv4-mapped has a dot. *)
Lemma ipv6_display_no_dot o :
  to_ipv4_mapped o = None → Forall (λ s, ch "." ∉ s) (split_char (ch ":") (ipv6_display o)).
Proof.
  intros Em. destruct (longest_zero_run (segments o)) as [start len] eqn:E.
  destruct (decide (1 < len)%nat) as [Hl|Hl].
  - rewrite (ipv6_display_compressed o start len) by done.
    apply Forall_app. split; [apply pieces_no_dot|]. apply Forall_app. split; [|apply pieces_no_dot].
    repeat constructor. apply not_elem_of_nil.
  - rewrite (ipv6_display_plain o start len) by (done || lia). apply hex_pieces_no_dot.
Qed.

Lemma to_ipv4_mapped_inj o1 o2 v :
  to_ipv4_mapped o1 = Some v → to_ipv4_mapped o2 = Some v → o1 = o2.
Proof.
  assert (H : ∀ o, to_ipv4_mapped o = Some v →
    vec_to_list o = replicate 10 x00 ++ [xff; xff] ++ vec_to_list v).
  { intros o. unfold to_ipv4_mapped. case_bool_decide as E; [|done].
    intros Ev%array_try_from_Some. rewrite Ev, app_assoc, <- E, <- slice_app_split.
    rewrite <- (slice_all (vec_to_list o)) at 1. by rewrite length_vec_to_list. }
  intros H1 H2. apply vec_to_list_inj2. by rewrite (H o1), (H o2).
Qed.

Lemma length_segments o : length (segments o) = 8%nat.
Proof. unfold segments. by rewrite length_fmap, length_seq. Qed.

(** Two addresses that are not IPv4-mapped. *)
Lemma ipv6_display_inj_unmapped o1 o2 :
  to_ipv4_mapped o1 = None → to_ipv4_mapped o2 = None →
  ipv6_display o1 = ipv6_display o2 → o1 = o2.
Proof.
  intros M1 M2 E. apply (f_equal (split_char (ch ":"))) in E.
  pose proof (segments_nonneg o1) as N1. pose proof (segments_nonneg o2) as N2.
  destruct (longest_zero_run (segments o1)) as [s1 l1] eqn:R1.
  destruct (longest_zero_run (segments o2)) as [s2 l2] eqn:R2.
  destruct (longest_zero_run_spec _ _ _ R1) as [B1 D1], (longest_zero_run_spec _ _ _ R2) as [B2 D2].
  rewrite length_segments in B1, B2. apply segments_inj.
  assert (Hplain : ∀ p q l, hex_pieces l ≠ pieces (hex_pieces p) ++ [[]] ++ pieces (hex_pieces q)).
  { intros p q l El. assert (Hin : ([] : str) ∈ hex_pieces l) by (rewrite El; set_solver).
    pose proof (show_hex_list_nonempty l) as Hne. rewrite Forall_forall in Hne.
    by apply (Hne [] Hin). }
  destruct (decide (1 < l1)%nat) as [H1|H1], (decide (1 < l2)%nat) as [H2|H2].
  - rewrite (ipv6_display_compressed o1 s1 l1), (ipv6_display_compressed o2 s2 l2) in E by done.
    apply pieces_empty_piece_inj in E as [Ea Eb]; [|apply show_hex_list_nonempty..].
    apply hex_pieces_inj in Ea; [|by apply Forall_take..].
    apply hex_pieces_inj in Eb; [|by apply Forall_drop..].
    pose proof (f_equal length Ea) as La. pose proof (f_equal length Eb) as Lb.
    rewrite !length_take, !length_segments in La. rewrite !length_drop, !length_segments in Lb.
    assert (l1 = l2) as -> by lia. rewrite D1, D2. congruence.
  - rewrite (ipv6_display_compressed o1 s1 l1), (ipv6_display_plain o2 s2 l2) in E by (done || lia).
    by destruct (Hplain _ _ _ (eq_sym E)).
  - rewrite (ipv6_display_plain o1 s1 l1), (ipv6_display_compressed o2 s2 l2) in E by (done || lia).
    by destruct (Hplain _ _ _ E).
  - rewrite (ipv6_display_plain o1 s1 l1), (ipv6_display_plain o2 s2 l2) in E by (done || lia).
    by apply hex_pieces_inj.
Qed.

Lemma ipv6_display_inj o1 o2 : ipv6_display o1 = ipv6_display o2 → o1 = o2.
Proof.
  intros E. destruct (to_ipv4_mapped o1) as [v1|] eqn:M1, (to_ipv4_mapped o2) as [v2|] eqn:M2.
  - apply (f_equal (split_char (ch ":"))) in E.
    rewrite (ipv6_display_mapped o1 v1), (ipv6_display_mapped o2 v2) in E by done.
    injection E as Ev. apply ipv4_display_inj in Ev as ->. by eapply to_ipv4_mapped_inj.
  - pose proof (ipv6_display_no_dot o2 M2) as H. rewrite <- E, (ipv6_display_mapped o1 v1) in H by done.
    destruct (Forall_inv (Forall_inv_tail (Forall_inv_tail (Forall_inv_tail H)))).
    apply ipv4_display_dot.
  - pose proof (ipv6_display_no_dot o1 M1) as H. rewrite E, (ipv6_display_mapped o2 v2) in H by done.
    destruct (Forall_inv (Forall_inv_tail (Forall_inv_tail (Forall_inv_tail H)))).
    apply ipv4_display_dot.
  - by apply ipv6_display_inj_unmapped.
Qed.

Lemma ipv6_display_colon o : (1 < length (split_char (ch ":") (ipv6_display o)))%nat.
Proof.
  destruct (to_ipv4_mapped o) as [v|] eqn:M.
  - rewrite (ipv6_display_mapped o v) by done. simpl. lia.
  - destruct (longest_zero_run (segments o)) as [s l] eqn:E. destruct (decide (1 < l)%nat) as [Hl|Hl].
    + rewrite (ipv6_display_compressed o s l) by done. rewrite !length_app. simpl.
      assert (H : ∀ p, (0 < length (pieces p))%nat) by (by intros []; simpl; lia).
      pose proof (H (hex_pieces (take s (segments o)))). lia.
    + rewrite (ipv6_display_plain o s l) by (done || lia).
      unfold hex_pieces. rewrite length_fmap, length_segments. lia.
Qed.

Lemma ip_display_inj (a1 a2 : IpAddr) : ip_display a1 = ip_display a2 → a1 = a2.
Proof.
  assert (H : ∀ o4 o6, ipv4_display o4 ≠ ipv6_display o6).
  { intros o4 o6 E. pose proof (ipv6_display_colon o6) as Hc. rewrite <- E in Hc.
    rewrite split_char_none in Hc by (by apply ipv4_display_no_char). simpl in Hc. lia. }
  destruct a1 as [o1|o1], a2 as [o2|o2]; simpl; intros E.
  - by apply ipv4_display_inj in E as ->.
  - by destruct (H o1 o2).
  - by destruct (H o2 o1).
  - by apply ipv6_display_inj in E as ->.
Qed.

(** The characters of an address: digits, dots and colons. *)
Lemma ip_display_no_char c a :
  to_digit 16 c = None → c ≠ ch "." → c ≠ ch ":" → c ∉ ip_display a.
Proof.
  intros Hc Hdot Hcolon.
  assert (Hc10 : to_digit 10 c = None).
  { unfold to_digit in *. repeat case_match; try done; lia. }
  assert (Hf : ∀ l, c ∉ fmt_subslice l).
  { intros l. apply not_elem_of_join; [done|]. apply Forall_fmap, Forall_true. intros z.
    by eapply digits_only_not_in; [apply show_hex_digits|]. }
  destruct a as [o|o]; simpl; [by apply ipv4_display_no_char|].
  unfold ipv6_display. destruct (to_ipv4_mapped o) as [v|].
  - intros [Hin|Hin]%elem_of_app; [|by eapply ipv4_display_no_char in Hin].
    unfold lit in Hin. simpl in Hin. repeat setoid_rewrite elem_of_cons in Hin.
    rewrite elem_of_nil in Hin.
    destruct_or!; subst; done.
  - destruct (longest_zero_run (segments o)) as [s l]. case_match; [|apply Hf].
    intros [Hin|[Hin|Hin]%elem_of_app]%elem_of_app; try by apply Hf in Hin.
    unfold lit in Hin. simpl in Hin. repeat setoid_rewrite elem_of_cons in Hin.
    rewrite elem_of_nil in Hin. by destruct_or!.
Qed.


Example ip_display_samples :
  ip_display sample_v4 = lit "1.2.3.4" ∧
  ip_display (V6 (vreplicate 15 x00 +++ [# x01])) = lit "::1" ∧
  ip_display (V6 (vreplicate 10 x00 +++ [# xff; xff; x0a; x00; x00; x01])) = lit "::ffff:10.0.0.1" ∧
  ip_display (V6 ([# x20; x01; x0d; xb8] +++ vreplicate 10 x00 +++ [# x00; x2a])) = lit "2001:db8::2a".
Proof. by vm_compute. Qed.
