(* ===== verification/Parse.v ===== *)
(** * Scalar values of the configuration (letmein-conf/src/parse.rs)

    Booleans, integers, durations and hexadecimal keys. A duration is a number of nanoseconds. *)

From Stdlib Require Import Ascii.
From S2P Require Import Prelude Str.
Local Open Scope Z_scope.

Definition parse_bool (s : str) : res bool :=
  let s := trim (to_lowercase s) in
  if bool_decide (s ∈ [lit "true"; lit "1"; lit "yes"; lit "on"]) then Ok true
  else if bool_decide (s ∈ [lit "false"; lit "0"; lit "no"; lit "off"]) then Ok false
  else Err "Invalid boolean string".

Definition parse_u16 (s : str) : res u16 :=
  let s := trim s in
  match strip_prefix (lit "0x") s with
  | Some s => from_str_radix u16_max s 16
  | None => parse_uint u16_max s
  end.

Definition parse_u32 (s : str) : res u32 :=
  let s := trim s in
  match strip_prefix (lit "0x") s with
  | Some s => from_str_radix u32_max s 16
  | None => parse_uint u32_max s
  end.

(** ** Floating point

    A finite [f64] is [±m * 2^e]. [str::parse] rounds the decimal number that was written to the
    nearest [f64], ties to even. *)

Inductive f64 : Type := Finite (neg : bool) (m e : Z) | Infinite (neg : bool) | NaN.

(** [n / d] rounded to the nearest integer, ties to even; [0 < d]. *)
Definition round_half_even (n d : Z) : Z :=
  let q := n / d in
  let r := 2 * (n mod d) in
  if r <? d then q
  else if d <? r then q + 1
  else if Z.even q then q else q + 1.

(** The nearest [f64] to [n / d], for [0 <= n] and [0 < d]. *)
Definition f64_of_ratio (neg : bool) (n d : Z) : f64 :=
  if n =? 0 then Finite neg 0 0
  else
    let l0 := Z.log2 n - Z.log2 d in
    let l := if n * 2 ^ Z.max 0 (- l0) <? d * 2 ^ Z.max 0 l0 then l0 - 1 else l0 in
    let e := Z.max (-1074) (l - 52) in
    let m := round_half_even (n * 2 ^ Z.max 0 (- e)) (d * 2 ^ Z.max 0 e) in
    if (2 ^ 1024 <=? m * 2 ^ Z.max 0 e) && (0 <=? e) then Infinite neg else Finite neg m e.

Definition ascii_lower (s : str) : str :=
  (λ c, if (65 <=? c) && (c <=? 90) then c + 32 else c) <$> s.

(** A run of decimal digits: their value after [acc], how many there are, and the rest. *)
Fixpoint scan_digits (acc : Z) (count : nat) (s : str) : Z * nat * str :=
  match s with
  | c :: s' => if is_ascii_digit c then scan_digits (acc * 10 + (c - 48)) (S count) s'
               else (acc, count, s)
  | [] => (acc, count, s)
  end.

Definition split_sign (s : str) : bool * str :=
  match s with
  | c :: s' => if c =? ch "-" then (true, s') else if c =? ch "+" then (false, s') else (false, s)
  | [] => (false, s)
  end.

(** The part after the integer digits: a dot and more digits, if there is a dot. *)
Definition scan_fraction (ip : Z) (s : str) : Z * nat * str :=
  match s with
  | c :: s' => if c =? ch "." then scan_digits ip 0 s' else (ip, O, s)
  | [] => (ip, O, s)
  end.

(** The exponent, up to the end of the text; zero if there is none. *)
Definition scan_exponent (s : str) : option Z :=
  match s with
  | [] => Some 0
  | c :: s' =>
      if (c =? ch "e") || (c =? ch "E") then
        let (eneg, digits) := split_sign s' in
        let '(ev, ne, tail) := scan_digits 0 0 digits in
        match tail with
        | [] => if (ne =? 0)%nat then None else Some (if eneg then - ev else ev)
        | _ :: _ => None
        end
      else None
  end.

(** [f64::from_str]. *)
Definition f64_from_str (s : str) : res f64 :=
  let (neg, body) := split_sign s in
  let low := ascii_lower body in
  if bool_decide (low ∈ [lit "inf"; lit "infinity"]) then Ok (Infinite neg)
  else if bool_decide (low = lit "nan") then Ok NaN
  else
    let '(ip, ni, rest) := scan_digits 0 0 body in
    let '(mant, nf, rest) := scan_fraction ip rest in
    if (ni + nf =? 0)%nat then Err "invalid float literal"
    else
      match scan_exponent rest with
      | None => Err "invalid float literal"
      | Some ex =>
          let e10 := ex - Z.of_nat nf in
          Ok (f64_of_ratio neg (mant * 10 ^ Z.max 0 e10) (10 ^ Z.max 0 (- e10)))
      end.

Definition parse_f64 (s : str) : res f64 :=
  value ← f64_from_str (trim s);
  match value with
  | Finite _ _ _ => Ok value
  | _ => Err "Invalid floating point value (Inf or NaN)"
  end.

(** [secs >= 0.0 && secs <= u32::MAX.into()]: negative zero passes the first test. *)
Definition f64_in_u32_range (v : f64) : bool :=
  match v with
  | Finite neg m e =>
      (negb neg || (m =? 0)) && (m * 2 ^ Z.max 0 e <=? u32_max * 2 ^ Z.max 0 (- e))
  | _ => false
  end.

Definition NANOS_PER_SEC : Z := 1000000000.

(** [Duration::from_secs_f64]: the nearest number of nanoseconds, ties to even. *)
Definition duration_from_secs_f64 (v : f64) : Z :=
  match v with
  | Finite _ m e => round_half_even (m * NANOS_PER_SEC * 2 ^ Z.max 0 e) (2 ^ Z.max 0 (- e))
  | _ => 0
  end.

Definition parse_duration (s : str) : res Z :=
  match parse_u32 s with
  | Ok secs => Ok (secs * NANOS_PER_SEC)
  | _ =>
      match parse_f64 s with
      | Ok secs =>
          if f64_in_u32_range secs then Ok (duration_from_secs_f64 secs) else Err "Invalid Duration"
      | _ => Err "Invalid Duration"
      end
  end.

(** ** Keys *)

Definition parse_hexdigit (s : str) : res Z :=
  _ ← assert (length s =? 1)%nat "assertion failed: s.len() == 1";
  from_str_radix 255 s 16.

Definition parse_hex (SIZE : nat) (s : str) : res (list byte) :=
  let s := trim s in
  if negb (is_ascii s) then Err "Hex string contains invalid characters."
  else if negb (length s =? SIZE * 2)%nat then Err "Hex string is too short"
  else
    mapM (λ i,
      hi ← parse_hexdigit (slice (i * 2) 1 s);
      lo ← parse_hexdigit (slice (i * 2 + 1) 1 s);
      Ok (byte.of_Z (Z.lor (Z.shiftl hi 4) lo))) (seq 0 SIZE).

Definition is_number (s : str) : bool :=
  let s := trim s in
  match strip_prefix (lit "0x") s with
  | Some s => forallb is_ascii_hexdigit s
  | None => forallb is_ascii_digit s
  end.

(** ** Lemmas *)

(** Printed keys are parsed back. *)
Definition hex_string (bs : list byte) : str := concat ((λ b, show_HEX_padded 2 (byte.unsigned b)) <$> bs).

Lemma show_byte (b : byte) :
  ∃ x y, show_HEX_padded 2 (byte.unsigned b) = [x; y] ∧
    (is_whitespace x || is_whitespace y || negb (is_ascii [x; y])) = false ∧
    (hi ← parse_hexdigit [x]; lo ← parse_hexdigit [y]; Ok (byte.of_Z (Z.lor (Z.shiftl hi 4) lo))) = Ok b.
Proof. destruct b; do 2 eexists; repeat split. Qed.

Lemma hex_string_cons b bs : hex_string (b :: bs) = show_HEX_padded 2 (byte.unsigned b) ++ hex_string bs.
Proof. done. Qed.

Lemma hex_string_chars bs :
  Forall (λ c, is_whitespace c = false ∧ (c <? 128) = true) (hex_string bs) ∧
  length (hex_string bs) = (length bs * 2)%nat.
Proof.
  induction bs as [|b bs [IH1 IH2]]; [done|]. rewrite hex_string_cons.
  destruct (show_byte b) as (x & y & -> & Hw & _). simpl in *. split; [|by rewrite IH2].
  repeat constructor; try done; lia.
Qed.

Lemma mapM_hex bs (pre : str) i :
  length pre = (i * 2)%nat →
  mapM (λ i,
    hi ← parse_hexdigit (slice (i * 2) 1 (pre ++ hex_string bs));
    lo ← parse_hexdigit (slice (i * 2 + 1) 1 (pre ++ hex_string bs));
    Ok (byte.of_Z (Z.lor (Z.shiftl hi 4) lo))) (seq i (length bs)) = Ok bs.
Proof.
  revert pre i. induction bs as [|b bs IH]; intros pre i Hp; [done|].
  rewrite hex_string_cons. destruct (show_byte b) as (x & y & -> & _ & Hb). simpl length.
  assert (Es : ∀ n, slice (i * 2 + n) 1 (pre ++ [x; y] ++ hex_string bs) = slice n 1 ([x; y] ++ hex_string bs)).
  { intros n. unfold slice. by rewrite <- drop_drop, drop_app_length'. }
  cbn [seq mapM]. rewrite <- (Nat.add_0_r (i * 2)) at 1. rewrite !Es.
  change (slice 0 1 _) with [x]. change (slice 1 1 _) with [y].
  destruct (parse_hexdigit [x]) as [hi| |]; [|done..]. destruct (parse_hexdigit [y]) as [lo| |]; [|done..].
  cbn in Hb |- *. injection Hb as ->.
  specialize (IH (pre ++ [x; y]) (S i)). rewrite <- (app_assoc pre) in IH. simpl app in IH.
  rewrite IH; [done|]. rewrite length_app. simpl. lia.
Qed.

Lemma parse_hex_string bs s :
  trim s = hex_string bs → parse_hex (length bs) s = Ok bs.
Proof.
  intros Ht. unfold parse_hex. rewrite Ht. destruct (hex_string_chars bs) as [Hc Hl].
  assert (is_ascii (hex_string bs) = true) as ->.
  { apply forallb_forall. intros c Hin%list_elem_of_In. rewrite Forall_forall in Hc. by apply Hc. }
  rewrite Hl, Nat.eqb_refl. simpl. apply (mapM_hex bs []). done.
Qed.

Lemma parse_u16_fits s v : parse_u16 s = Ok v → fits 16 v.
Proof.
  unfold parse_u16, parse_uint, fits. intros H.
  assert (0 <= v <= u16_max); [|unfold u16_max in *; lia].
  case_match; (eapply from_str_radix_bound; [..|exact H]; unfold u16_max; lia).
Qed.

Lemma round_half_even_bound n d b :
  0 < d → 0 <= n → n <= b * d → 0 <= round_half_even n d <= b.
Proof.
  intros Hd Hn Hb. unfold round_half_even.
  pose proof (Z.div_mod n d ltac:(lia)). pose proof (Z.mod_pos_bound n d Hd).
  assert (0 <= n / d) by (apply Z.div_pos; lia).
  assert (n / d <= b) by nia.
  assert (n mod d ≠ 0 → n / d < b) by nia.
  repeat case_match; lia.
Qed.

Lemma round_half_even_nonneg n d : 0 < d → 0 <= n → 0 <= round_half_even n d.
Proof.
  intros Hd Hn. unfold round_half_even.
  assert (0 <= n / d) by (apply Z.div_pos; lia). repeat case_match; lia.
Qed.

Lemma f64_of_ratio_mantissa neg n d neg' m e :
  0 <= n → 0 < d → f64_of_ratio neg n d = Finite neg' m e → 0 <= m.
Proof.
  intros Hn Hd. unfold f64_of_ratio. case_match; [intros; by simplify_eq|].
  cbv zeta. case_match; [done|]. intros [= _ <- _]. apply round_half_even_nonneg.
  - apply Z.mul_pos_pos; [done|]. apply Z.pow_pos_nonneg; lia.
  - apply Z.mul_nonneg_nonneg; [done|]. apply Z.pow_nonneg. lia.
Qed.

Lemma scan_digits_nonneg acc count s v n r :
  0 <= acc → scan_digits acc count s = (v, n, r) → 0 <= v.
Proof.
  revert acc count. induction s as [|c s IH]; intros acc count Ha; simpl; [by intros [= <- _ _]|].
  unfold is_ascii_digit. destruct (_ && _) eqn:E; [|by intros [= <- _ _]].
  apply IH. lia.
Qed.

Lemma f64_from_str_mantissa s neg m e : f64_from_str s = Ok (Finite neg m e) → 0 <= m.
Proof.
  unfold f64_from_str. destruct (split_sign s) as [sg body]. cbv zeta.
  destruct (bool_decide (ascii_lower body ∈ _)); [by intros; simplify_eq|].
  destruct (bool_decide (ascii_lower body = _)); [by intros; simplify_eq|].
  destruct (scan_digits 0 0 body) as [[ip ni] rest] eqn:E1.
  apply scan_digits_nonneg in E1 as Hip; [|done].
  destruct (scan_fraction ip rest) as [[mant nf] r] eqn:E2.
  assert (0 <= mant).
  { unfold scan_fraction in E2. repeat case_match; simplify_eq; [done| |done].
    by eapply scan_digits_nonneg in E2. }
  destruct (ni + nf =? 0)%nat; [done|]. destruct (scan_exponent r); [|done]. intros [= Hf].
  eapply f64_of_ratio_mantissa; [| |exact Hf].
  - apply Z.mul_nonneg_nonneg; [done|]. apply Z.pow_nonneg. lia.
  - apply Z.pow_pos_nonneg; lia.
Qed.

(** A configured duration lies between zero and [u32::MAX] seconds, whether it was
    written as an integer or as a floating point number. *)
Lemma parse_duration_bounds s d :
  parse_duration s = Ok d → 0 <= d <= u32_max * NANOS_PER_SEC.
Proof.
  unfold parse_duration. destruct (parse_u32 s) as [secs|e|w] eqn:E.
  { intros [= <-]. assert (0 <= secs <= u32_max); [|unfold NANOS_PER_SEC; lia].
    unfold parse_u32, parse_uint in E.
    case_match; (eapply from_str_radix_bound; [..|exact E]; unfold u32_max; lia). }
  all: destruct (parse_f64 s) as [v|e'|w'] eqn:F; try done; unfold parse_f64 in F; inv_res;
    repeat case_match; try done; intros; simplify_eq.
  all: match goal with H : f64_from_str _ = Ok (Finite _ ?m ?e) |- _ =>
         apply f64_from_str_mantissa in H as Hm;
         assert (0 < 2 ^ Z.max 0 e) by (apply Z.pow_pos_nonneg; lia);
         assert (0 < 2 ^ Z.max 0 (- e)) by (apply Z.pow_pos_nonneg; lia) end.
  all: unfold f64_in_u32_range in *; unfold duration_from_secs_f64;
    match goal with H : (_ && _) = true |- _ => apply andb_true_iff in H as [_ ?%Z.leb_le] end.
  all: apply round_half_even_bound; [done| |]; unfold NANOS_PER_SEC; nia.
Qed.

Example parse_duration_samples :
  parse_duration (lit "1.5") = Ok 1500000000 ∧ parse_duration (lit " 50 ") = Ok 50000000000 ∧
  parse_duration (lit "0x10") = Ok 16000000000 ∧ parse_duration (lit "1e-9") = Ok 1 ∧
  parse_duration (lit "0.1") = Ok 100000000 ∧ parse_duration (lit "-0.0") = Ok 0 ∧
  parse_duration (lit "-1") = Err "Invalid Duration" ∧
  parse_duration (lit "inf") = Err "Invalid Duration" ∧
  parse_duration (lit "4294967295.5") = Err "Invalid Duration".
Proof. by vm_compute. Qed.
