(* ===== verification/Ini.v ===== *)
(** * The ini-file parser (letmein-conf/src/ini.rs) and the option maps
    (letmein-conf/src/parse_items.rs) *)

From Stdlib Require Import Ascii.
From S2P Require Import Prelude Str.
Local Open Scope Z_scope.

(** [IniSection.options] and [Ini.sections]. *)
Abbreviation IniSection := (gmap str str).
Record Ini : Type := MkIni { sections : gmap str IniSection }.

Definition Ini_new : Ini := MkIni ∅.

(** The local variables of [Ini::parse_str]. *)
Record ini_state : Type := MkIniState {
  is_sections : gmap str IniSection;
  is_in_section : option str;
}.

(** [&line[1..line.len() - 1]]. *)
Definition section_name (line : str) : str := removelast (tail line).

(** The body of the loop of [Ini::parse_str]. *)
Definition parse_line (st : ini_state) (line : str) : res ini_state :=
  let line := trim_start line in
  if bool_decide (line = []) then Ok st
  else if starts_with (ch "#") line then Ok st
  else if starts_with (ch "[") line then
    let line := trim_end line in
    if ends_with (ch "]") line then
      let sname := section_name line in
      if bool_decide (sname = []) then Err "Section name is empty"
      else if bool_decide (is_Some (is_sections st !! sname)) then Err "Duplicate section name"
      else Ok (MkIniState (<[sname := ∅]> (is_sections st)) (Some sname))
    else Err "Invalid section name"
  else
    match is_in_section st with
    | None => Err "Option is not inside of a section"
    | Some section =>
        match find_char (ch "=") line with
        | None => Err "Option has no equal sign '='"
        | Some (before, opt_value) =>
            if (1 <=? length before)%nat then
              let opt_name := trim_end before in
              match is_sections st !! section with
              | None => Panic "called `Option::unwrap()` on a `None` value"
              | Some options =>
                  Ok (MkIniState (<[section := <[opt_name := opt_value]> options]> (is_sections st))
                        (is_in_section st))
              end
            else Err "Option has no name before equal sign '='"
        end
    end.

Fixpoint parse_lines (st : ini_state) (ls : list str) : res ini_state :=
  match ls with
  | [] => Ok st
  | line :: ls' => st' ← parse_line st line; parse_lines st' ls'
  end.

(** [Ini::parse_str]: on success the parser state is replaced, on an error it is unchanged. *)
Definition parse_str (content : str) : res Ini :=
  st ← parse_lines (MkIniState ∅ None) (lines content);
  Ok (MkIni (is_sections st)).

Definition ini_get (ini : Ini) (section opt : str) : option str :=
  sections ini !! section ≫= (λ sect, sect !! opt).

(** [Ini::options_iter]: the options of a section, in the order of the hash map. *)
Definition options_iter `{HashOrder} (ini : Ini) (section : str) : option (list (str * str)) :=
  hash_iter <$> sections ini !! section.

(** ** Option maps: [key: value / key: v1, v2 / v3, v4] *)

Inductive MapItem : Type :=
| KeyValue (key value : str)
| KeyValues (key : str) (values : list str)
| Values (values : list str).

Definition parse_map_item (item : str) : res MapItem :=
  match find_char (ch ":") item with
  | Some (before, value) =>
      if (length before <? 1)%nat then Err "Invalid item key."
      else
        let key := trim before in
        if bool_decide (key = []) then Err "Invalid item key."
        else if bool_decide (is_Some (find_char (ch ",") value)) then
          Ok (KeyValues key (trim <$> split_char (ch ",") value))
        else Ok (KeyValue key (trim value))
  | None => Ok (Values (trim <$> split_char (ch ",") item))
  end.

(** [FromStr for Map]. *)
Definition parse_map (s : str) : res (list MapItem) :=
  mapM parse_map_item (split_char (ch "/") s).

(** ** Lemmas *)

(** The section that options go to has been opened. *)
Definition ini_state_ok (st : ini_state) : Prop :=
  ∀ s, is_in_section st = Some s → is_Some (is_sections st !! s).

Lemma parse_line_ok st line :
  ini_state_ok st →
  no_panic (parse_line st line) ∧ ∀ st', parse_line st line = Ok st' → ini_state_ok st'.
Proof.
  intros Hst. unfold parse_line. cbv zeta.
  repeat (case_match; try (split; [done|by intros; simplify_eq])).
  - split; [done|]. intros st' [= <-] s [= <-]. simpl. by rewrite lookup_insert_eq.
  - split; [done|]. intros st' [= <-] s Hs. simpl in *.
    rewrite lookup_insert. case_decide; [eauto|]. apply Hst. congruence.
  - match goal with H : is_in_section st = Some _ |- _ => apply Hst in H as [? ?] end. congruence.
Qed.

Lemma parse_lines_ok st ls :
  ini_state_ok st →
  no_panic (parse_lines st ls) ∧ ∀ st', parse_lines st ls = Ok st' → ini_state_ok st'.
Proof.
  revert st. induction ls as [|line ls IH]; intros st Hst; simpl; [split; [done|by intros ? [= <-]]|].
  destruct (parse_line_ok st line Hst) as [Hn Hok]. split.
  - apply no_panic_bind; [done|]. intros st' E. by apply IH, Hok.
  - intros st' H. inv_res. by eapply IH; [eapply Hok|].
Qed.

Lemma parse_str_no_panic content : no_panic (parse_str content).
Proof.
  unfold parse_str. apply no_panic_bind; [by apply parse_lines_ok|done].
Qed.

Lemma mapM_no_panic {A B} (f : A → res B) l :
  (∀ x, no_panic (f x)) → no_panic (mapM f l).
Proof.
  intros Hf. induction l as [|x l IH]; simpl; [done|].
  apply no_panic_bind; [done|]. intros y _. apply no_panic_bind; [done|]. by intros.
Qed.

Lemma parse_map_no_panic s : no_panic (parse_map s).
Proof.
  apply mapM_no_panic. intros item. unfold parse_map_item. by repeat case_match.
Qed.

(** A value list of an option map is never empty. *)
Lemma parse_map_item_values item :
  match parse_map_item item with
  | Ok (KeyValues _ vs) | Ok (Values vs) => vs ≠ []
  | _ => True
  end.
Proof.
  unfold parse_map_item. repeat case_match; simplify_eq; try done;
    intros E%fmap_nil_inv; by apply split_char_nonempty in E.
Qed.

Lemma parse_lines_app st ls1 ls2 :
  parse_lines st (ls1 ++ ls2) = (st' ← parse_lines st ls1; parse_lines st' ls2).
Proof.
  revert st. induction ls1 as [|l ls1 IH]; intros st; simpl; [done|].
  destruct (parse_line st l); simpl; [apply IH|done..].
Qed.

(** ** Printing and parsing *)

(** A configuration text: for each section its name line and one line for each option. *)
Definition render_option (o : str * str) : str := o.1 ++ [ch "="] ++ o.2.
Definition render_section (s : str * list (str * str)) : list str :=
  ([ch "["] ++ s.1 ++ [ch "]"]) :: (render_option <$> s.2).
Definition render_ini (l : list (str * list (str * str))) : str :=
  (l ≫= render_section) ≫= (λ line : str, line ++ [10]).

(** What a value, an option name and a section name may look like. *)
Definition no_newline (s : str) : Prop := (10 ∉ s) ∧ last s ≠ Some 13.
Record option_ok (o : str * str) : Prop := {
  oo_value : no_newline o.2;
  oo_newline : 10 ∉ o.1;
  oo_equal : ch "=" ∉ o.1;
  oo_first : ∃ c, head o.1 = Some c ∧ is_whitespace c = false ∧ c ≠ ch "#" ∧ c ≠ ch "[";
  oo_last : ∃ c, last o.1 = Some c ∧ is_whitespace c = false;
}.
Record section_ok (s : str * list (str * str)) : Prop := {
  so_name : s.1 ≠ [] ∧ 10 ∉ s.1;
  so_options : Forall option_ok s.2;
  so_distinct : NoDup s.2.*1;
}.

Lemma find_char_app c a b : c ∉ a → find_char c (a ++ c :: b) = Some (a, b).
Proof.
  induction a as [|x a IH]; intros H; simpl; [by rewrite Z.eqb_refl|].
  apply not_elem_of_cons in H as [Hne Ha].
  destruct (Z.eqb_spec c x); [done|]. by rewrite IH.
Qed.

Lemma trim_end_last s c : last s = Some c → is_whitespace c = false → trim_end s = s.
Proof.
  intros Hl Hw. unfold trim_end. destruct (exists_last (l := s)) as (s' & c' & ->); [by intros ->|].
  rewrite last_snoc in Hl. injection Hl as ->. rewrite rev_unit. simpl. rewrite Hw.
  by rewrite <- rev_unit, rev_involutive.
Qed.

Lemma section_name_brackets (s : str) : section_name ([ch "["] ++ s ++ [ch "]"]) = s.
Proof. unfold section_name. simpl. apply removelast_last. Qed.

Lemma parse_line_section ss cur (s : str) :
  s ≠ [] → ss !! s = None →
  parse_line (MkIniState ss cur) ([ch "["] ++ s ++ [ch "]"]) =
    Ok (MkIniState (<[s := ∅]> ss) (Some s)).
Proof.
  intros Hs Hnone. unfold parse_line.
  assert (Ht : trim_start ([ch "["] ++ s ++ [ch "]"]) = [ch "["] ++ s ++ [ch "]"]) by done.
  rewrite Ht. rewrite bool_decide_eq_false_2 by done.
  assert (Hl : last ([ch "["] ++ s ++ [ch "]"]) = Some (ch "]")).
  { by rewrite app_assoc, last_snoc. }
  rewrite (trim_end_last _ (ch "]")) by done.
  unfold ends_with. rewrite Hl, section_name_brackets. simpl.
  rewrite bool_decide_eq_false_2 by done. by rewrite Hnone, bool_decide_eq_false_2 by (by intros []).
Qed.

Lemma parse_line_option ss s opts o :
  option_ok o → ss !! s = Some opts →
  parse_line (MkIniState ss (Some s)) (render_option o) =
    Ok (MkIniState (<[s := <[o.1 := o.2]> opts]> ss) (Some s)).
Proof.
  intros [_ _ Heq (c & Hc & Hw & Hh & Hb) (d & Hd & Hdw)] Hs. unfold parse_line, render_option.
  destruct o as [k v]; simpl in *. destruct k as [|c' k]; [done|]. injection Hc as ->.
  change ((c :: k) ++ ch "=" :: v) with (c :: (k ++ ch "=" :: v)). simpl trim_start. rewrite Hw.
  rewrite bool_decide_eq_false_2 by done. unfold starts_with.
  rewrite (proj2 (Z.eqb_neq _ _)) by done. rewrite (proj2 (Z.eqb_neq _ _)) by done.
  change (c :: (k ++ ch "=" :: v)) with ((c :: k) ++ ch "=" :: v).
  cbn [is_in_section]. rewrite find_char_app by done. simpl Nat.leb.
  rewrite (trim_end_last (c :: k) d) by done. simpl. by rewrite Hs.
Qed.

(** An option line with white space around the equal sign. *)
Lemma parse_line_spaced ss s opts (name value : str) :
  option_ok (name, value) → ss !! s = Some opts →
  parse_line (MkIniState ss (Some s)) (name ++ lit " = " ++ value) =
    Ok (MkIniState (<[s := <[name := ch " " :: value]> opts]> ss) (Some s)).
Proof.
  intros [_ _ Heq (c & Hc & Hw & Hh & Hb) (d & Hd & Hdw)] Hs. cbn [fst snd] in *.
  assert (E : name ++ lit " = " ++ value = (name ++ [ch " "]) ++ ch "=" :: (ch " " :: value)) by (by rewrite <- app_assoc).
  assert (Ef : find_char (ch "=") (name ++ lit " = " ++ value) = Some (name ++ [ch " "], ch " " :: value)).
  { rewrite E. apply find_char_app. rewrite elem_of_app, list_elem_of_singleton. by intros [?|?]. }
  assert (Et : trim_end (name ++ [ch " "]) = name).
  { unfold trim_end. rewrite rev_app_distr. by apply (trim_end_last _ d). }
  destruct name as [|c' k]; [done|]. injection Hc as ->. revert Ef.
  change ((c :: k) ++ lit " = " ++ value) with (c :: (k ++ lit " = " ++ value)).
  generalize (k ++ lit " = " ++ value). intros rest Ef. unfold parse_line. cbn [trim_start]. rewrite Hw, bool_decide_eq_false_2 by done. unfold starts_with.
  rewrite (proj2 (Z.eqb_neq _ _)) by done. rewrite (proj2 (Z.eqb_neq _ _)) by done.
  cbn [is_in_section]. rewrite Ef. cbn [length Nat.leb]. change (c :: k ++ [ch " "]) with ((c :: k) ++ [ch " "]).
  cbn [is_sections]. by rewrite Et, Hs.
Qed.

Lemma parse_lines_options ss s opts os :
  Forall option_ok os → NoDup os.*1 → ss !! s = Some opts →
  (∀ k, k ∈ os.*1 → opts !! k = None) →
  parse_lines (MkIniState ss (Some s)) (render_option <$> os) =
    Ok (MkIniState (<[s := list_to_map os ∪ opts]> ss) (Some s)).
Proof.
  intros Hos. revert ss opts. induction Hos as [|[k v] os Ho Hos IH]; intros ss opts Hnd Hs Hnew.
  { simpl. rewrite map_empty_union. by rewrite insert_id. }
  rewrite !fmap_cons in *. apply NoDup_cons in Hnd as [Hk Hnd].
  cbn [parse_lines]. rewrite (parse_line_option ss s opts) by done. cbn [mbind res_bind].
  rewrite (IH _ (<[k:=v]> opts)); [|done|by rewrite lookup_insert_eq|].
  - rewrite insert_insert_eq. do 3 f_equal. simpl. rewrite <- insert_union_l.
    rewrite <- insert_union_r; [done|]. by apply not_elem_of_list_to_map_1.
  - intros k' Hk'. rewrite lookup_insert_ne by (by intros ->). apply Hnew. by right.
Qed.

Definition sections_map (l : list (str * list (str * str))) : gmap str IniSection :=
  list_to_map ((λ s, (s.1, list_to_map s.2)) <$> l).

Lemma parse_lines_sections ss cur l :
  Forall section_ok l → NoDup l.*1 → (∀ s, s ∈ l.*1 → ss !! s = None) →
  ∃ cur', parse_lines (MkIniState ss cur) (l ≫= render_section) =
    Ok (MkIniState (sections_map l ∪ ss) cur').
Proof.
  intros Hl. revert ss cur. induction Hl as [|[s os] l [[Hs _] Hos Hnd'] Hl IH]; intros ss cur Hnd Hnew.
  { exists cur. unfold sections_map. by rewrite fmap_nil, list_to_map_nil, (left_id_L ∅ (∪)). }
  rewrite !fmap_cons in *. apply NoDup_cons in Hnd as [Hk Hnd].
  change (((s, os) :: l) ≫= render_section) with
    (([ch "["] ++ s ++ [ch "]"]) :: ((render_option <$> os) ++ (l ≫= render_section))).
  cbn [parse_lines]. simpl in Hs, Hos, Hnd', Hk.
  rewrite parse_line_section by (done || apply Hnew; by left). cbn [mbind res_bind].
  rewrite parse_lines_app, (parse_lines_options _ s ∅);
    [|done|done|by rewrite lookup_insert_eq|intros; apply lookup_empty].
  cbn [mbind res_bind]. rewrite insert_insert_eq, (right_id_L ∅ (∪)).
  destruct (IH (<[s:=list_to_map os]> ss) (Some s) Hnd) as [cur' ->].
  - intros s' Hs'. rewrite lookup_insert_ne by (by intros ->). apply Hnew. by right.
  - exists cur'. do 2 f_equal. unfold sections_map. rewrite fmap_cons. simpl.
    rewrite <- insert_union_l, <- insert_union_r; [done|].
    apply not_elem_of_list_to_map_1. by rewrite <- list_fmap_compose.
Qed.

(** ** Properties *)

(** C39 (round trip). A printed configuration with distinct section names, distinct option names
    within each section, and names and values without line breaks parses without an error, and
    each option of each section then has exactly the value that was printed. *)
Theorem ini_roundtrip (l : list (str * list (str * str))) :
  Forall section_ok l → NoDup l.*1 →
  ∃ ini, parse_str (render_ini l) = Ok ini ∧
    ∀ s os k v, (s, os) ∈ l → (k, v) ∈ os → ini_get ini s k = Some v.
Proof.
  intros Hl Hnd. exists (MkIni (sections_map l)). split.
  - unfold parse_str, render_ini. rewrite lines_concat.
    + destruct (parse_lines_sections ∅ None l Hl Hnd) as [cur ->]; [intros; apply lookup_empty|].
      cbn. by rewrite (right_id_L ∅ (∪)).
    + apply Forall_bind. eapply Forall_impl; [exact Hl|]. intros [s os] [[Hs Hs10] Hos _].
      simpl in *. constructor.
      * split; [|by rewrite (app_assoc [_]), last_snoc].
        intros [?|[?|?%list_elem_of_singleton]%elem_of_app]%elem_of_cons; done.
      * apply Forall_fmap. eapply Forall_impl; [exact Hos|]. intros [k v] [[Hv Hv13] Hk Heq _ _].
        simpl in *. split.
        -- intros [?|[?|?]%elem_of_cons]%elem_of_app; done.
        -- unfold render_option. simpl. rewrite last_app, last_cons.
           by destruct (last v).
  - intros s os k v Hin Hkv. unfold ini_get. simpl.
    assert (Hs : sections_map l !! s = Some (list_to_map os)).
    { apply elem_of_list_to_map_1.
      - by rewrite <- list_fmap_compose.
      - apply list_elem_of_fmap. by exists (s, os). }
    rewrite Hs. simpl. rewrite Forall_forall in Hl. destruct (Hl _ Hin) as [_ _ Hnd'].
    by apply elem_of_list_to_map_1.
Qed.


Lemma ini_roundtrip_witness :
  ∃ ini, parse_str (render_ini [(lit "KEYS", [(lit "00000001", lit " AA ")])]) = Ok ini ∧
    ini_get ini (lit "KEYS") (lit "00000001") = Some (lit " AA ").
Proof.
  destruct (ini_roundtrip [(lit "KEYS", [(lit "00000001", lit " AA ")])]) as (ini & Hp & Hg).
  - repeat constructor; simpl; try (apply (bool_decide_unpack _); vm_compute; exact I).
    + exists (ch "0"). split; [reflexivity|]. split; [reflexivity|]. split; discriminate.
    + exists (ch "1"). split; reflexivity.
  - apply (bool_decide_unpack _). vm_compute. exact I.
  - exists ini. split; [exact Hp|]. apply (Hg (lit "KEYS") [(lit "00000001", lit " AA ")]); left.
Defined.
