(* ===== verification/Conf.v ===== *)
(** * The configuration (letmein-conf/src/lib.rs)

    The typed configuration that the daemons and the client read from an ini file. *)

From Stdlib Require Import Ascii.
From S2P Require Import Prelude Prog Str Proto Parse Ini.
Local Open Scope Z_scope.

Definition DEFAULT_CONTROL_TIMEOUT : Z := 5000 * 1000000.
Definition DEFAULT_NFT_TIMEOUT : Z := 600000 * 1000000.

(** ** Values *)

Record ControlPort : Type := MkControlPort { cp_port : u16; cp_tcp : bool; cp_udp : bool }.

Definition ControlPort_default : ControlPort := MkControlPort PORT true false.

Definition ControlPort_display (p : ControlPort) : str :=
  show_dec (cp_port p) ++ lit "(" ++
  (if cp_tcp p then lit "TCP" ++ (if cp_udp p then lit "/" else []) else []) ++
  (if cp_udp p then lit "UDP" else []) ++ lit ")".

(** [Resource::Port], the only variant. *)
Record Resource : Type := MkResource {
  r_port : u16;
  r_tcp : bool;
  r_udp : bool;
  r_users : list UserId;
}.

#[export] Instance ControlPort_eq_dec : EqDecision ControlPort.
Proof. solve_decision. Defined.
#[export] Instance Resource_eq_dec : EqDecision Resource.
Proof. solve_decision. Defined.

Definition contains_user (r : Resource) (id : UserId) : bool :=
  if bool_decide (r_users r = []) then true else bool_decide (id ∈ r_users r).

Inductive ErrorPolicy : Type := Always | BasicAuth | FullAuth.

Definition ErrorPolicy_display (p : ErrorPolicy) : str :=
  match p with
  | Always => lit "Always"
  | BasicAuth => lit "Basic authentication"
  | FullAuth => lit "Full challenge-response authentication"
  end.

Definition ErrorPolicy_from_str (s : str) : res ErrorPolicy :=
  let s := trim (to_lowercase s) in
  if bool_decide (s = lit "always") then Ok Always
  else if bool_decide (s = lit "basic-auth") then Ok BasicAuth
  else if bool_decide (s = lit "full-auth") then Ok FullAuth
  else Err "Config option 'control-error-policy' is not valid.".

Inductive Seccomp : Type := SeccompOff | SeccompLog | SeccompKill.

Definition Seccomp_display (s : Seccomp) : str :=
  match s with
  | SeccompOff => lit "Off"
  | SeccompLog => lit "Logging only"
  | SeccompKill => lit "Process killing"
  end.

Definition Seccomp_from_str (s : str) : res Seccomp :=
  let s := trim (to_lowercase s) in
  if bool_decide (s = lit "off") then Ok SeccompOff
  else if bool_decide (s = lit "log") then Ok SeccompLog
  else if bool_decide (s = lit "kill") then Ok SeccompKill
  else Err "Config option 'seccomp' is not valid.".

#[export] Instance ErrorPolicy_eq_dec : EqDecision ErrorPolicy.
Proof. solve_decision. Defined.
#[export] Instance Seccomp_eq_dec : EqDecision Seccomp.
Proof. solve_decision. Defined.

(** ** Options of the [GENERAL] section *)

Definition get_debug (ini : Ini) : res bool :=
  match ini_get ini (lit "GENERAL") (lit "debug") with
  | Some debug => parse_bool debug
  | None => Ok false
  end.

(** One word of a [tcp], [udp] list. *)
Definition port_word (p : ControlPort) (v : str) : res ControlPort :=
  let v := to_lowercase v in
  if bool_decide (v = lit "tcp") then Ok (MkControlPort (cp_port p) true (cp_udp p))
  else if bool_decide (v = lit "udp") then Ok (MkControlPort (cp_port p) (cp_tcp p) true)
  else Err "[GENERAL] port: Unknown option".

Definition port_item (p : ControlPort) (item : MapItem) : res ControlPort :=
  match item with
  | KeyValue _ _ | KeyValues _ _ => Err "[GENERAL] port: Unknown option"
  | Values vs =>
      match vs with
      | [v] =>
          if is_number v then
            n ← parse_u16 v; Ok (MkControlPort n (cp_tcp p) (cp_udp p))
          else foldM port_word p vs
      | _ => foldM port_word p vs
      end
  end.

Definition get_port (ini : Ini) : res ControlPort :=
  match ini_get ini (lit "GENERAL") (lit "port") with
  | Some port =>
      map ← context "[GENERAL] port" (parse_map port);
      p ← foldM port_item (MkControlPort PORT false false) map;
      Ok (if negb (cp_tcp p) && negb (cp_udp p)
          then MkControlPort (cp_port p) true (cp_udp p) else p)
  | None => Ok ControlPort_default
  end.

Definition get_control_timeout (ini : Ini) : res Z :=
  match ini_get ini (lit "GENERAL") (lit "control-timeout") with
  | Some timeout => parse_duration timeout
  | None => Ok DEFAULT_CONTROL_TIMEOUT
  end.

Definition get_control_error_policy (ini : Ini) : res ErrorPolicy :=
  match ini_get ini (lit "GENERAL") (lit "control-error-policy") with
  | Some policy => ErrorPolicy_from_str policy
  | None => Ok Always
  end.

Definition get_seccomp (ini : Ini) : res Seccomp :=
  match ini_get ini (lit "GENERAL") (lit "seccomp") with
  | Some seccomp => Seccomp_from_str seccomp
  | None => Ok SeccompOff
  end.

(** ** The [KEYS] section *)

Abbreviation Key := (list byte) (only parsing).

(** The first part of the loop body: identifier and key of one option. *)
Definition key_entry (o : str * str) : res (UserId * Key) :=
  id ← context "[KEYS]" (UserId_from_str o.1);
  key ← context "[KEYS]" (parse_hex KEY_SIZE o.2);
  if bool_decide (key = replicate KEY_SIZE x00) then Err "Invalid key: Key is all zeros (00)"
  else if bool_decide (key = replicate KEY_SIZE xff) then Err "Invalid key: Key is all ones (FF)"
  else Ok (id, key).

Definition keys_step (keys : gmap UserId Key) (o : str * str) : res (gmap UserId Key) :=
  '(id, key) ← key_entry o;
  if bool_decide (is_Some (keys !! id)) then Err "[KEYS] Multiple definitions of key"
  else Ok (<[id := key]> keys).

Definition keys_from_options (options : list (str * str)) : res (gmap UserId Key) :=
  foldM keys_step ∅ options.

Definition get_keys `{HashOrder} (ini : Ini) : res (gmap UserId Key) :=
  match options_iter ini (lit "KEYS") with
  | Some options => keys_from_options options
  | None => Ok ∅
  end.

(** ** The [RESOURCES] section *)

(** The mutable variables of the loop over the items of one resource. *)
Record res_state : Type := MkResState {
  rs_port : option u16;
  rs_users : list str;
  rs_tcp : bool;
  rs_udp : bool;
}.

Definition res_word (st : res_state) (v : str) : res res_state :=
  let v := to_lowercase v in
  if bool_decide (v = lit "tcp") then Ok (MkResState (rs_port st) (rs_users st) true (rs_udp st))
  else if bool_decide (v = lit "udp") then Ok (MkResState (rs_port st) (rs_users st) (rs_tcp st) true)
  else Err "[RESOURCE] unknown option".

Definition res_item (st : res_state) (item : MapItem) : res res_state :=
  match item with
  | KeyValue k v =>
      if bool_decide (k = lit "port") then
        if bool_decide (is_Some (rs_port st)) then Err "[RESOURCE] multiple 'port' values"
        else
          p ← context "[RESOURCES] port" (parse_u16 v);
          Ok (MkResState (Some p) (rs_users st) (rs_tcp st) (rs_udp st))
      else if bool_decide (k = lit "users") then
        if negb (bool_decide (rs_users st = [])) then Err "[RESOURCE] multiple 'users' values"
        else Ok (MkResState (rs_port st) (rs_users st ++ [v]) (rs_tcp st) (rs_udp st))
      else Err "[RESOURCE] unknown option"
  | KeyValues k vs =>
      if bool_decide (k = lit "port") then Err "[RESOURCE] invalid 'port' option"
      else if bool_decide (k = lit "users") then
        if negb (bool_decide (rs_users st = [])) then Err "[RESOURCE] multiple 'users' values"
        else Ok (MkResState (rs_port st) vs (rs_tcp st) (rs_udp st))
      else Err "[RESOURCE] unknown option"
  | Values vs => foldM res_word st vs
  end.

Definition res_user (users : list UserId) (user : str) : res (list UserId) :=
  match UserId_from_str user with
  | Ok u => Ok (users ++ [u])
  | _ => Err "[RESOURCE] 'user' id is invalid"
  end.

(** The loop body up to the comparison with the resources found so far. *)
Definition resource_entry (o : str * str) : res (ResourceId * Resource) :=
  id ← context "[RESOURCES]" (ResourceId_from_str o.1);
  map ← context "[RESOURCES]" (parse_map o.2);
  st ← foldM res_item (MkResState None [] false false) map;
  let tcp := if negb (rs_tcp st) && negb (rs_udp st) then true else rs_tcp st in
  port ← ok_or (rs_port st) "[RESOURCE] No 'port' value present";
  res_users ← foldM res_user [] (rs_users st);
  Ok (id, MkResource port tcp (rs_udp st) res_users).

(** The loop over the resources found so far. *)
Definition check_resource (id : ResourceId) (port : u16) (e : ResourceId * Resource) : res () :=
  if bool_decide (e.1 = id) then Err "[RESOURCE] Multiple definitions of resource ID"
  else if r_port e.2 =? port then Err "[RESOURCE] Multiple definitions of resource port"
  else Ok ().

Definition resources_step `{HashOrder} (resources : gmap ResourceId Resource) (o : str * str)
    : res (gmap ResourceId Resource) :=
  '(id, r) ← resource_entry o;
  _ ← foldM (λ _, check_resource id (r_port r)) () (hash_iter resources);
  Ok (<[id := r]> resources).

Definition resources_from_options `{HashOrder} (options : list (str * str))
    : res (gmap ResourceId Resource) :=
  foldM resources_step ∅ options.

Definition get_resources `{HashOrder} (ini : Ini) : res (gmap ResourceId Resource) :=
  match options_iter ini (lit "RESOURCES") with
  | Some options => resources_from_options options
  | None => Ok ∅
  end.

(** ** The [CLIENT] and [NFTABLES] sections *)

Definition get_default_user (ini : Ini) : res UserId :=
  match ini_get ini (lit "CLIENT") (lit "default-user") with
  | Some default_user => UserId_from_str default_user
  | None => Ok (MkUserId 0)
  end.

Definition get_nft_exe (ini : Ini) : res str :=
  match ini_get ini (lit "NFTABLES") (lit "exe") with
  | Some nft_exe => Ok (trim nft_exe)
  | None => Ok (lit "nft")
  end.

Definition get_nft_family (ini : Ini) : res str :=
  match ini_get ini (lit "NFTABLES") (lit "family") with
  | Some nft_family =>
      let nft_family := trim nft_family in
      if bool_decide (nft_family ∈ [lit "inet"; lit "ip"; lit "ip6"]) then Ok nft_family
      else Err "[NFTABLES] family is invalid"
  | None => Ok []
  end.

Definition get_nft_table (ini : Ini) : res str :=
  match ini_get ini (lit "NFTABLES") (lit "table") with
  | Some nft_table => Ok (trim nft_table)
  | None => Ok []
  end.

Definition get_nft_chain_input (ini : Ini) : res str :=
  match ini_get ini (lit "NFTABLES") (lit "chain-input") with
  | Some nft_chain_input => Ok (trim nft_chain_input)
  | None => Ok []
  end.

Definition get_nft_timeout (ini : Ini) : res Z :=
  match ini_get ini (lit "NFTABLES") (lit "timeout") with
  | Some nft_timeout => parse_duration nft_timeout
  | None => Ok DEFAULT_NFT_TIMEOUT
  end.

(** ** The configuration *)

Inductive ConfigVariant : Type := Server | Client.

#[export] Instance ConfigVariant_eq_dec : EqDecision ConfigVariant.
Proof. solve_decision. Defined.

Record Config : Type := MkConfig {
  c_variant : ConfigVariant;
  c_path : option str;
  c_debug : bool;
  c_port : ControlPort;
  c_control_timeout : Z;
  c_control_error_policy : ErrorPolicy;
  c_seccomp : Seccomp;
  c_keys : gmap UserId Key;
  c_resources : gmap ResourceId Resource;
  c_default_user : UserId;
  c_nft_exe : str;
  c_nft_family : str;
  c_nft_table : str;
  c_nft_chain_input : str;
  c_nft_timeout : Z;
}.

(** [Config::new]. *)
Definition Config_new (variant : ConfigVariant) : Config := {|
  c_variant := variant;
  c_path := None;
  c_debug := false;
  c_port := ControlPort_default;
  c_control_timeout := DEFAULT_CONTROL_TIMEOUT;
  c_control_error_policy := Always;
  c_seccomp := SeccompOff;
  c_keys := ∅;
  c_resources := ∅;
  c_default_user := MkUserId 0;
  c_nft_exe := [];
  c_nft_family := [];
  c_nft_table := [];
  c_nft_chain_input := [];
  c_nft_timeout := DEFAULT_NFT_TIMEOUT;
|}.

(** The fields computed by [Config::load_ini], before they are stored. *)
Definition load_ini_values `{HashOrder} (conf : Config) (ini : Ini) : res Config :=
  debug ← get_debug ini;
  port ← get_port ini;
  control_timeout ← get_control_timeout ini;
  control_error_policy ← get_control_error_policy ini;
  seccomp ← get_seccomp ini;
  keys ← get_keys ini;
  resources ← get_resources ini;
  default_user ← (if bool_decide (c_variant conf = Client)
                  then get_default_user ini else Ok (MkUserId 0));
  '(nft_exe, nft_family, nft_table, nft_chain_input, nft_timeout) ←
    (if bool_decide (c_variant conf = Server) then
       nft_exe ← get_nft_exe ini;
       nft_family ← get_nft_family ini;
       nft_table ← get_nft_table ini;
       nft_chain_input ← get_nft_chain_input ini;
       nft_timeout ← get_nft_timeout ini;
       Ok (nft_exe, nft_family, nft_table, nft_chain_input, nft_timeout)
     else Ok ([], [], [], [], DEFAULT_NFT_TIMEOUT));
  Ok {|
    c_variant := c_variant conf;
    c_path := c_path conf;
    c_debug := debug;
    c_port := port;
    c_control_timeout := control_timeout;
    c_control_error_policy := control_error_policy;
    c_seccomp := seccomp;
    c_keys := keys;
    c_resources := resources;
    c_default_user := default_user;
    c_nft_exe := nft_exe;
    c_nft_family := nft_family;
    c_nft_table := nft_table;
    c_nft_chain_input := nft_chain_input;
    c_nft_timeout := nft_timeout;
  |}.

(** [Config::load_ini]: the result and the configuration afterwards. *)
Definition load_ini `{HashOrder} (conf : Config) (ini : Ini) : res () * Config :=
  match load_ini_values conf ini with
  | Ok conf' => (Ok (), conf')
  | Err e => (Err e, conf)
  | Panic w => (Panic w, conf)
  end.

Definition set_path (path : str) (conf : Config) : Config := {|
  c_variant := c_variant conf; c_path := Some path; c_debug := c_debug conf;
  c_port := c_port conf; c_control_timeout := c_control_timeout conf;
  c_control_error_policy := c_control_error_policy conf; c_seccomp := c_seccomp conf;
  c_keys := c_keys conf; c_resources := c_resources conf;
  c_default_user := c_default_user conf; c_nft_exe := c_nft_exe conf;
  c_nft_family := c_nft_family conf; c_nft_table := c_nft_table conf;
  c_nft_chain_input := c_nft_chain_input conf; c_nft_timeout := c_nft_timeout conf;
|}.

(** [Config::load]. [file] is the result of [Ini::new_from_file]: an unreadable file, a file that
    is not UTF-8 and a file that does not parse are all errors. *)
Definition load `{HashOrder} (conf : Config) (path : str) (file : res Ini) : res () * Config :=
  match file with
  | Panic w => (Panic w, conf)
  | Ok ini =>
      match load_ini conf ini with
      | (Ok _, conf') => (Ok (), set_path path conf')
      | (r, conf') => (r, conf')
      end
  | Err _ =>
      if bool_decide (c_variant conf = Server) then (Err "Failed to load configuration", conf)
      else (Ok (), set_path path conf)
  end.

(** [Config::key] and [Config::resource]. *)
Definition conf_key (conf : Config) (id : UserId) : option Key := c_keys conf !! id.
Definition conf_resource (conf : Config) (id : ResourceId) : option Resource :=
  c_resources conf !! id.

(** [Config::resource_id_by_port]: the loop over the resources returns the first match. *)
Fixpoint first_resource (port : u16) (user_id : option UserId) (l : list (ResourceId * Resource))
    : option ResourceId :=
  match l with
  | [] => None
  | (k, v) :: l' =>
      if r_port v =? port then
        match user_id with
        | Some user_id => if contains_user v user_id then Some k else first_resource port (Some user_id) l'
        | None => Some k
        end
      else first_resource port user_id l'
  end.

Definition resource_id_by_port `{HashOrder} (conf : Config) (port : u16) (user_id : option UserId)
    : option ResourceId :=
  first_resource port user_id (hash_iter (c_resources conf)).

(** ** Lemmas: keys *)

Lemma keys_step_ok keys o keys' :
  keys_step keys o = Ok keys' ↔
  ∃ id key, key_entry o = Ok (id, key) ∧ keys !! id = None ∧ keys' = <[id := key]> keys.
Proof.
  unfold keys_step. split.
  - intros ([id key] & E & H)%res_bind_ok. case_bool_decide as Hs; [done|]. inv_res.
    exists id, key. split_and!; [done| |done]. by apply eq_None_not_Some.
  - intros (id & key & -> & Hn & ->). cbn. by rewrite Hn, bool_decide_eq_false_2 by (by intros []).
Qed.

(** The loop succeeds if every option is a valid entry and no identifier occurs twice; the order of
    the options does not matter. *)
Lemma keys_fold_ok options keys keys' :
  foldM keys_step keys options = Ok keys' ↔
  ∃ entries, Forall2 (λ o e, key_entry o = Ok e) options entries ∧ NoDup entries.*1 ∧
    (∀ id, id ∈ entries.*1 → keys !! id = None) ∧ keys' = list_to_map entries ∪ keys.
Proof.
  revert keys. induction options as [|o options IH]; intros keys; simpl.
  - split.
    + intros [= <-]. exists []. split_and!; [constructor|constructor|set_solver|].
      by rewrite list_to_map_nil, (left_id_L ∅ (∪)).
    + intros (es & H & _ & _ & ->). inversion H; subst.
      by rewrite list_to_map_nil, (left_id_L ∅ (∪)).
  - rewrite res_bind_ok. setoid_rewrite keys_step_ok. split.
    + intros (? & (id & key & He & Hn & ->) & H). apply IH in H as (es & Hes & Hnd & Hf & ->).
      assert (Hid : id ∉ es.*1).
      { intros Hin. apply Hf in Hin. by rewrite lookup_insert_eq in Hin. }
      exists ((id, key) :: es). split_and!; [by constructor|by constructor| |].
      * intros id' [->|Hin]%elem_of_cons; [done|]. specialize (Hf _ Hin).
        by apply lookup_insert_None in Hf as [? _].
      * rewrite <- insert_union_r by (by apply not_elem_of_list_to_map_1). simpl.
        by rewrite insert_union_l.
    + intros (es & Hes & Hnd & Hf & ->). inversion Hes as [|? [id key] ? es' He Hes']; subst.
      rewrite fmap_cons in Hnd, Hf. apply NoDup_cons in Hnd as [Hid Hnd].
      exists (<[id := key]> keys). split; [exists id, key; split_and!; [done|apply Hf; by left|done]|].
      apply IH. exists es'. split_and!; [done|done| |].
      * intros id' Hin. apply lookup_insert_None. split; [apply Hf; by right|by intros <-].
      * rewrite <- insert_union_r by (by apply not_elem_of_list_to_map_1). simpl.
        by rewrite insert_union_l.
Qed.

Lemma key_entry_ok o id key :
  key_entry o = Ok (id, key) →
  UserId_from_str o.1 = Ok id ∧ parse_hex KEY_SIZE o.2 = Ok key ∧
  key ≠ replicate KEY_SIZE x00 ∧ key ≠ replicate KEY_SIZE xff.
Proof.
  unfold key_entry. intros H. inv_res.
  case_bool_decide as Hz; [done|]. case_bool_decide as Ho; [done|]. simplify_eq.
  destruct (UserId_from_str o.1), (parse_hex KEY_SIZE o.2); simpl in *; by simplify_eq.
Qed.

Lemma length_mapM_ok {A B} (f : A → res B) l k : mapM f l = Ok k → length k = length l.
Proof.
  revert k. induction l as [|x l IH]; intros k; simpl; [by intros [= <-]|].
  intros (y & _ & (k' & Hk & [= <-])%res_bind_ok)%res_bind_ok. simpl. f_equal. by apply IH.
Qed.

Lemma length_parse_hex n s key : parse_hex n s = Ok key → length key = n.
Proof.
  unfold parse_hex. cbv zeta. repeat (case_match; [done|]). intros Hk%length_mapM_ok.
  by rewrite length_seq in Hk.
Qed.

(** ** Lemmas: resources *)

(** What the options of one resource are checked for. *)
Record Resource_ok (r : Resource) : Prop := {
  ro_port : fits 16 (r_port r);
  ro_proto : r_tcp r || r_udp r = true;
}.

Lemma res_word_port st v st' : res_word st v = Ok st' → rs_port st' = rs_port st ∧ rs_users st' = rs_users st.
Proof. unfold res_word. repeat case_bool_decide; intros; by simplify_eq/=. Qed.

Lemma res_words_port st vs st' :
  foldM res_word st vs = Ok st' → rs_port st' = rs_port st ∧ rs_users st' = rs_users st.
Proof.
  intros H. apply (foldM_invariant (λ b, rs_port b = rs_port st ∧ rs_users b = rs_users st)) in H;
    [done|done|].
  intros b x b' _ [Hp Hu] [-> ->]%res_word_port. done.
Qed.

Lemma res_item_port_fits st item st' :
  res_item st item = Ok st' → (∀ p, rs_port st = Some p → fits 16 p) →
  ∀ p, rs_port st' = Some p → fits 16 p.
Proof.
  intros H Hst p Hp. destruct item as [k v|k vs|vs]; simpl in H.
  - repeat (case_bool_decide; try done); simpl in H; inv_res; simpl in *; try by apply Hst.
    destruct (parse_u16 v) as [n| |] eqn:Ep; simpl in *; simplify_eq. by eapply parse_u16_fits.
  - repeat (case_bool_decide; try done); simpl in H; inv_res; simpl in *; by apply Hst.
  - apply res_words_port in H as [E _]. rewrite E in Hp. by apply Hst.
Qed.

(** The users that the items of a resource name. *)
Definition item_users (item : MapItem) : list str :=
  match item with
  | KeyValue k v => if bool_decide (k = lit "users") then [v] else []
  | KeyValues k vs => if bool_decide (k = lit "users") then vs else []
  | Values _ => []
  end.

Definition is_users_item (item : MapItem) : bool :=
  match item with
  | KeyValue k _ | KeyValues k _ => bool_decide (k = lit "users")
  | Values _ => false
  end.

Lemma item_users_nil items :
  Forall (λ item, match item with KeyValues _ vs => vs ≠ [] | _ => True end) items →
  Forall (λ item, item_users item = []) items ↔ Forall (λ item, is_users_item item = false) items.
Proof.
  intros Hi. induction Hi as [|item items Hitem _ IH]; [done|]. rewrite !Forall_cons, IH.
  apply Morphisms_Prop.and_iff_morphism; [|done]. destruct item as [k v|k vs|vs]; simpl; [| |done]; by case_bool_decide.
Qed.

Lemma res_item_users st item st' : res_item st item = Ok st' → rs_users st' = rs_users st ++ item_users item.
Proof.
  intros Hr. destruct item as [k v|k vs|vs]; simpl in *.
  - case_bool_decide as Hp.
    + case_bool_decide; [done|]. apply res_bind_ok in Hr as (p & _ & [= <-]).
      rewrite bool_decide_eq_false_2 by (by subst k). by rewrite app_nil_r.
    + case_bool_decide; [|done]. case_bool_decide; [|done]. by injection Hr as <-.
  - case_bool_decide; [done|]. case_bool_decide; [|done]. case_bool_decide as Hu; [|done].
    injection Hr as <-. by rewrite Hu.
  - apply res_words_port in Hr as [_ ->]. by rewrite app_nil_r.
Qed.

Lemma res_items_users st items st' :
  foldM res_item st items = Ok st' → rs_users st' = rs_users st ++ (items ≫= item_users).
Proof.
  revert st. induction items as [|item items IH]; intros st; simpl; [intros [= <-]; by rewrite app_nil_r|].
  intros (st1 & H1%res_item_users & H2%IH)%res_bind_ok. by rewrite H2, H1, <- app_assoc.
Qed.

Lemma res_users_fold l us us' :
  foldM res_user us l = Ok us' → ∃ vs, us' = us ++ vs ∧ Forall2 (λ s u, UserId_from_str s = Ok u) l vs.
Proof.
  revert us. induction l as [|s l IH]; intros us; simpl.
  - intros [= <-]. exists []. by rewrite app_nil_r.
  - intros (us1 & H1 & H2)%res_bind_ok. apply IH in H2 as (vs & -> & Hvs).
    unfold res_user in H1. destruct (UserId_from_str s) as [u| |] eqn:E; try done. inv_res.
    exists (u :: vs). split; [by rewrite <- app_assoc|]. by constructor.
Qed.

Lemma parse_map_values s items :
  parse_map s = Ok items →
  Forall (λ item, match item with KeyValues _ vs => vs ≠ [] | _ => True end) items.
Proof.
  unfold parse_map. generalize (split_char (ch "/") s). intros l. revert items.
  induction l as [|x l IH]; intros items; simpl; [intros [= <-]; constructor|].
  intros H. inv_res. constructor; [|by apply IH].
  pose proof (parse_map_item_values x) as Hx.
  match goal with H : parse_map_item x = Ok ?i |- _ => rewrite H in Hx end. by case_match.
Qed.

Lemma resource_entry_ok o id r : resource_entry o = Ok (id, r) → Resource_ok r.
Proof.
  unfold resource_entry. cbv zeta. intros H. inv_res. split; simpl.
  - match goal with Hf : foldM res_item _ _ = Ok ?st |- _ =>
      assert (∀ q, rs_port st = Some q → fits 16 q) as Hfits; [|by apply Hfits];
      refine (foldM_invariant (λ st, ∀ q, rs_port st = Some q → fits 16 q) _ _ _ _ _ _ Hf); [by simpl|]
    end.
    intros b x b' _ Hb Hs. by eapply res_item_port_fits.
  - by destruct (rs_tcp _), (rs_udp _).
Qed.

(** The name, and who may access the resource. *)
Lemma resource_entry_users o id r :
  resource_entry o = Ok (id, r) →
  ResourceId_from_str o.1 = Ok id ∧ ∃ items, parse_map o.2 = Ok items ∧
    Forall2 (λ s u, UserId_from_str s = Ok u) (items ≫= item_users) (r_users r).
Proof.
  unfold resource_entry. cbv zeta. intros H.
  destruct (ResourceId_from_str o.1) as [id'| |]; [|done..]. destruct (parse_map o.2) as [items| |]; [|done..].
  simpl in H. inv_res. split; [done|]. exists items. split; [done|]. simpl.
  match goal with Hu : foldM res_user [] _ = Ok _ |- _ =>
    apply res_users_fold in Hu as (vs & -> & Hvs) end.
  match goal with Hf : foldM res_item _ _ = Ok _ |- _ => apply res_items_users in Hf; simpl in Hf; by rewrite <- Hf end.
Qed.

Lemma resource_entry_access o id r u :
  resource_entry o = Ok (id, r) →
  ∃ items, parse_map o.2 = Ok items ∧
    (contains_user r u = true ↔
     Forall (λ item, is_users_item item = false) items ∨
     ∃ item s, item ∈ items ∧ s ∈ item_users item ∧ UserId_from_str s = Ok u).
Proof.
  intros (_ & items & Hi & Hu)%resource_entry_users. exists items. split; [done|].
  rewrite <- item_users_nil by (by eapply parse_map_values).
  assert (Hin : u ∈ r_users r ↔ ∃ item s, item ∈ items ∧ s ∈ item_users item ∧ UserId_from_str s = Ok u).
  { rewrite list_elem_of_lookup. split.
    - intros [n Hn]. eapply Forall2_lookup_r in Hu as (s & Hs & E); [|done].
      apply list_elem_of_lookup_2, list_elem_of_bind in Hs as (item & Hs & Hitem). by exists item, s.
    - intros (item & s & Hitem & Hs & E). assert (Hb : s ∈ items ≫= item_users) by (apply list_elem_of_bind; eauto).
      apply list_elem_of_lookup in Hb as [n Hn]. eapply Forall2_lookup_l in Hu as (u' & Hn' & E'); [|done].
      exists n. congruence. }
  rewrite <- Hin. unfold contains_user.
  assert (Hnil : r_users r = [] ↔ Forall (λ item, item_users item = []) items).
  { rewrite <- bind_nil. split; intros E; rewrite E in Hu; [by apply Forall2_nil_inv_r in Hu|by apply Forall2_nil_inv_l in Hu]. }
  case_bool_decide as E; [split; [by left; apply Hnil|done]|]. rewrite bool_decide_eq_true. rewrite <- Hnil. tauto.
Qed.

Section resources.
Context `{HashOrder}.

Lemma check_resources_ok id port (l : list (ResourceId * Resource)) :
  foldM (λ _, check_resource id port) () l = Ok () ↔
  ∀ id' r', (id', r') ∈ l → id' ≠ id ∧ r_port r' ≠ port.
Proof.
  induction l as [|[id' r'] l IH]; simpl; [split; [intros _ ? ? Hin; by apply elem_of_nil in Hin|done]|].
  rewrite res_bind_ok. split.
  - intros ([] & H1 & H2) id1 r1 Hin. unfold check_resource in H1. simpl in H1.
    destruct (bool_decide_reflect (id' = id)); [done|].
    destruct (Z.eqb_spec (r_port r') port); [done|].
    apply elem_of_cons in Hin as [[= -> ->]|Hin]; [done|]. by apply IH in Hin.
  - intros Hl. exists (). split.
    + destruct (Hl id' r') as [Hne Hp]; [by left|]. unfold check_resource. simpl.
      rewrite bool_decide_eq_false_2 by done.
      by rewrite (proj2 (Z.eqb_neq _ _)).
    + apply IH. intros. apply Hl. by right.
Qed.

Lemma resources_step_ok rs o rs' :
  resources_step rs o = Ok rs' ↔
  ∃ id r, resource_entry o = Ok (id, r) ∧ rs !! id = None ∧
    (∀ id' r', rs !! id' = Some r' → r_port r' ≠ r_port r) ∧ rs' = <[id := r]> rs.
Proof.
  unfold resources_step. split.
  - intros ([id r] & E & Hs)%res_bind_ok. apply res_bind_ok in Hs as ([] & Hc & Hs). inv_res.
    rewrite check_resources_ok in Hc. exists id, r. split_and!; [done| | |done].
    + destruct (rs !! id) as [r'|] eqn:Hr; [|done]. apply elem_of_hash_iter in Hr.
      by destruct (Hc _ _ Hr).
    + intros id' r' Hr%elem_of_hash_iter. by destruct (Hc _ _ Hr).
  - intros (id & r & -> & Hn & Hp & ->). cbn.
    assert (foldM (λ _, check_resource id (r_port r)) () (hash_iter rs) = Ok ()) as ->; [|done].
    apply check_resources_ok. intros id' r' Hr%elem_of_hash_iter. split; [congruence|eauto].
Qed.

Lemma resources_fold_ok options rs rs' :
  foldM resources_step rs options = Ok rs' ↔
  ∃ entries, Forall2 (λ o e, resource_entry o = Ok e) options entries ∧
    NoDup entries.*1 ∧ NoDup ((r_port ∘ snd) <$> entries) ∧
    (∀ id r, (id, r) ∈ entries →
       rs !! id = None ∧ ∀ id' r', rs !! id' = Some r' → r_port r' ≠ r_port r) ∧
    rs' = list_to_map entries ∪ rs.
Proof.
  revert rs. induction options as [|o options IH]; intros rs; simpl.
  - split.
    + intros [= <-]. exists []. split_and!; [constructor..| |]; [intros ? ? Hin; by apply elem_of_nil in Hin|].
      by rewrite list_to_map_nil, (left_id_L ∅ (∪)).
    + intros (es & Hes & _ & _ & _ & ->). inversion Hes; subst.
      by rewrite list_to_map_nil, (left_id_L ∅ (∪)).
  - rewrite res_bind_ok. setoid_rewrite resources_step_ok. split.
    + intros (? & (id & r & He & Hn & Hp & ->) & Hf).
      apply IH in Hf as (es & Hes & Hnd & Hndp & Hf & ->).
      assert (Hnew : ∀ id' r', (id', r') ∈ es → id' ≠ id ∧ r_port r' ≠ r_port r).
      { intros id' r' Hin. destruct (Hf _ _ Hin) as [Hi Hq]. split.
        - intros ->. by rewrite lookup_insert_eq in Hi.
        - intros E. by apply (Hq id r); [rewrite lookup_insert_eq|]. }
      assert (Hid : id ∉ es.*1).
      { intros ([? r'] & -> & Hin)%list_elem_of_fmap. by destruct (Hnew _ _ Hin). }
      exists ((id, r) :: es). split_and!; [by constructor|by constructor| | |].
      * rewrite fmap_cons. constructor; [|done].
        intros ([id' r'] & E & Hin)%list_elem_of_fmap. by destruct (Hnew _ _ Hin).
      * intros id1 r1 [[= -> ->]|Hin]%elem_of_cons; [done|]. destruct (Hf _ _ Hin) as [Hi Hq].
        apply lookup_insert_None in Hi as [Hi Hne]. split; [done|].
        intros id' r' Hr. apply (Hq id'). rewrite lookup_insert_ne; [done|]. congruence.
      * rewrite <- insert_union_r by (by apply not_elem_of_list_to_map_1). simpl.
        by rewrite insert_union_l.
    + intros (es & Hes & Hnd & Hndp & Hf & ->).
      inversion Hes as [|? [id r] ? es' He Hes']; subst.
      simpl in Hnd, Hndp. apply NoDup_cons in Hnd as [Hid Hnd].
      apply NoDup_cons in Hndp as [Hport Hndp].
      destruct (Hf id r) as [Hn Hp]; [by left|].
      exists (<[id := r]> rs). split; [by exists id, r|].
      apply IH. exists es'. split_and!; [done|done|done| |].
      * intros id1 r1 Hin. destruct (Hf id1 r1) as [Hn1 Hp1]; [by right|]. split.
        -- apply lookup_insert_None. split; [done|]. intros <-. apply Hid.
           apply list_elem_of_fmap. by exists (id, r1).
        -- intros id' r'. rewrite lookup_insert. case_decide.
           ++ intros [= <-] E. apply Hport. apply list_elem_of_fmap. by exists (id1, r1).
           ++ apply Hp1.
      * rewrite <- insert_union_r by (by apply not_elem_of_list_to_map_1). simpl.
        by rewrite insert_union_l.
Qed.

End resources.

(** ** What a loaded configuration satisfies *)

Lemma port_word_port p v p' : port_word p v = Ok p' → cp_port p' = cp_port p.
Proof. unfold port_word. repeat case_bool_decide; intros; by simplify_eq/=. Qed.

Lemma port_words_port p vs p' : foldM port_word p vs = Ok p' → cp_port p' = cp_port p.
Proof.
  intros Hf. refine (foldM_invariant (λ q, cp_port q = cp_port p) _ _ _ _ _ _ Hf); [done|].
  by intros q v q' _ <- ->%port_word_port.
Qed.

Lemma port_item_fits p item p' : port_item p item = Ok p' → fits 16 (cp_port p) → fits 16 (cp_port p').
Proof.
  unfold port_item. intros Hi Hp. destruct item as [? ?|? ?|[|v [|]]]; try done.
  - by injection Hi as <-.
  - destruct (is_number v); [|by rewrite (port_words_port _ _ _ Hi)].
    inv_res. simpl. by eapply parse_u16_fits.
  - by rewrite (port_words_port _ _ _ Hi).
Qed.

Lemma get_port_ok ini p : get_port ini = Ok p → fits 16 (cp_port p) ∧ cp_tcp p || cp_udp p = true.
Proof.
  unfold get_port. destruct (ini_get _ _ _) as [s|]; [|by intros [= <-]].
  intros Hp. apply res_bind_ok in Hp as (map & _ & (q & Hf & [= <-])%res_bind_ok). split.
  - assert (fits 16 (cp_port q)); [|by destruct (_ && _)].
    refine (foldM_invariant (λ q, fits 16 (cp_port q)) _ _ _ _ _ _ Hf); [done|].
    intros ???? Hb Hi. by eapply port_item_fits.
  - by destruct q as [? [] []].
Qed.

(** A key that may be used: 32 bytes, neither all zeros nor all ones. *)
Definition key_ok (key : Key) : Prop :=
  length key = KEY_SIZE ∧ key ≠ replicate KEY_SIZE x00 ∧ key ≠ replicate KEY_SIZE xff.

Lemma keys_from_options_ok options keys id key :
  keys_from_options options = Ok keys → keys !! id = Some key →
  key_ok key ∧ ∃ o, o ∈ options ∧ UserId_from_str o.1 = Ok id ∧ parse_hex KEY_SIZE o.2 = Ok key.
Proof.
  intros (es & Hes & Hnd & _ & ->)%keys_fold_ok. rewrite (right_id_L ∅ (∪)).
  intros Hin%elem_of_list_to_map_2. apply list_elem_of_lookup in Hin as [i Hi].
  eapply Forall2_lookup_r in Hes as (o & Ho & (Hid & Hk & Hz & Hf)%key_entry_ok); [|done].
  split; [split_and!; [by eapply length_parse_hex|done..]|].
  exists o. split_and!; [by eapply list_elem_of_lookup_2|done..].
Qed.

Lemma resources_from_options_ok `{HashOrder} options rs :
  resources_from_options options = Ok rs →
  (∀ id r, rs !! id = Some r → Resource_ok r ∧ ∃ o, o ∈ options ∧ resource_entry o = Ok (id, r)) ∧
  (∀ id r id' r', rs !! id = Some r → rs !! id' = Some r' → r_port r = r_port r' → id = id').
Proof.
  intros (es & Hes & Hnd & Hndp & _ & ->)%resources_fold_ok. rewrite (right_id_L ∅ (∪)). split.
  - intros id r Hin%elem_of_list_to_map_2. apply list_elem_of_lookup in Hin as [i Hi].
    eapply Forall2_lookup_r in Hes as (o & Ho & He); [|done].
    split; [by eapply resource_entry_ok|]. exists o. split; [by eapply list_elem_of_lookup_2|done].
  - intros id r id' r' Hr%elem_of_list_to_map_2 Hr'%elem_of_list_to_map_2 Hp.
    apply list_elem_of_lookup in Hr as [i Hi]. apply list_elem_of_lookup in Hr' as [j Hj].
    assert (i = j) as ->; [|by simplify_eq].
    eapply (NoDup_lookup _ _ _ (r_port r) Hndp); rewrite list_lookup_fmap;
      [by rewrite Hi|rewrite Hj; simpl; by rewrite Hp].
Qed.

(** The well-formedness of a configuration that has been loaded. *)
Record Config_ok (conf : Config) : Prop := {
  co_port : fits 16 (cp_port (c_port conf)) ∧ cp_tcp (c_port conf) || cp_udp (c_port conf) = true;
  co_keys : ∀ id key, conf_key conf id = Some key → key_ok key;
  co_resources : ∀ id r, conf_resource conf id = Some r → Resource_ok r;
  co_ports : ∀ id r id' r', conf_resource conf id = Some r → conf_resource conf id' = Some r' →
    r_port r = r_port r' → id = id';
  co_family : c_nft_family conf ∈ [[]; lit "inet"; lit "ip"; lit "ip6"];
}.

Lemma Config_new_ok variant : Config_ok (Config_new variant).
Proof.
  split; unfold conf_key, conf_resource; simpl; try by intros; simplify_map_eq.
  by left.
Qed.

Lemma get_nft_family_ok ini f : get_nft_family ini = Ok f → f ∈ [[]; lit "inet"; lit "ip"; lit "ip6"].
Proof.
  unfold get_nft_family. destruct (ini_get _ _ _).
  - case_bool_decide as Hin; [intros [= <-]; by right|done].
  - intros [= <-]. by left.
Qed.

(** The options of a section. *)
Lemma options_iter_get `{HashOrder} ini section :
  match options_iter ini section with
  | Some options => ∀ name v, (name, v) ∈ options ↔ ini_get ini section name = Some v
  | None => ∀ name, ini_get ini section name = None
  end.
Proof.
  unfold options_iter, ini_get. destruct (sections ini !! section) as [sect|]; [|done]. simpl.
  intros name v. apply elem_of_hash_iter.
Qed.

(** A map that a loop has collected, one entry for each option. *)
Lemma collected_lookup {K V} `{Countable K} (entry : str * str → res (K * V)) options entries id v :
  Forall2 (λ o e, entry o = Ok e) options entries → NoDup entries.*1 →
  (list_to_map entries : gmap K V) !! id = Some v ↔ ∃ name s, (name, s) ∈ options ∧ entry (name, s) = Ok (id, v).
Proof.
  intros Hes Hnd. rewrite <- elem_of_list_to_map by done. rewrite list_elem_of_lookup. split.
  - intros [i Hi]. eapply Forall2_lookup_r in Hes as ([name s] & Ho & He); [|done].
    exists name, s. split; [by eapply list_elem_of_lookup_2|done].
  - intros (name & s & [i Hi]%list_elem_of_lookup & He). eapply Forall2_lookup_l in Hes as (e & Hi' & He'); [|done].
    exists i. congruence.
Qed.

Lemma get_keys_exact `{HashOrder} ini keys u key :
  get_keys ini = Ok keys →
  keys !! u = Some key ↔
    ∃ name v, ini_get ini (lit "KEYS") name = Some v ∧ UserId_from_str name = Ok u ∧ parse_hex KEY_SIZE v = Ok key.
Proof.
  unfold get_keys. pose proof (options_iter_get ini (lit "KEYS")) as Ho.
  destruct (options_iter ini (lit "KEYS")) as [options|].
  2:{ intros [= <-]. rewrite lookup_empty. split; [done|]. intros (name & v & Hv & _). by rewrite Ho in Hv. }
  intros (es & Hes & Hnd & _ & ->)%keys_fold_ok. rewrite (right_id_L ∅ (∪)), (collected_lookup _ _ _ _ _ Hes Hnd).
  split.
  - intros (name & v & Hin & (Hid & Hk & _)%key_entry_ok). exists name, v. split; [by apply Ho|done].
  - intros (name & v & Hv%Ho & Hid & Hk). exists name, v. split; [done|].
    apply list_elem_of_lookup in Hv as [i Hi]. eapply Forall2_lookup_l in Hes as ([u' key'] & _ & He); [|done].
    rewrite He. apply key_entry_ok in He as (Hid' & Hk' & _). simpl in *. congruence.
Qed.

Lemma get_resources_exact `{HashOrder} ini rs id r :
  get_resources ini = Ok rs →
  rs !! id = Some r ↔ ∃ name v, ini_get ini (lit "RESOURCES") name = Some v ∧ resource_entry (name, v) = Ok (id, r).
Proof.
  unfold get_resources. pose proof (options_iter_get ini (lit "RESOURCES")) as Ho.
  destruct (options_iter ini (lit "RESOURCES")) as [options|].
  2:{ intros [= <-]. rewrite lookup_empty. split; [done|]. intros (name & v & Hv & _). by rewrite Ho in Hv. }
  intros (es & Hes & Hnd & _ & _ & ->)%resources_fold_ok.
  rewrite (right_id_L ∅ (∪)), (collected_lookup _ _ _ _ _ Hes Hnd). by setoid_rewrite Ho.
Qed.

Lemma load_ini_values_inv `{HashOrder} conf ini conf' :
  load_ini_values conf ini = Ok conf' →
  get_port ini = Ok (c_port conf') ∧ get_keys ini = Ok (c_keys conf') ∧
  get_resources ini = Ok (c_resources conf') ∧ c_variant conf' = c_variant conf ∧
  c_path conf' = c_path conf ∧
  (get_nft_family ini = Ok (c_nft_family conf') ∨ c_nft_family conf' = []).
Proof.
  unfold load_ini_values. intros Hl. inv_res.
  match goal with a : str * str * str * str * Z |- _ => destruct a as [[[[exe fam] table] chain] timeout] end.
  inv_res. simpl. split_and!; try done.
  case_bool_decide; inv_res; simplify_eq; [by left|by right].
Qed.

Lemma get_resources_ok `{HashOrder} ini rs :
  get_resources ini = Ok rs →
  (∀ id r, rs !! id = Some r → Resource_ok r) ∧
  (∀ id r id' r', rs !! id = Some r → rs !! id' = Some r' → r_port r = r_port r' → id = id').
Proof.
  unfold get_resources. destruct (options_iter _ _); [|by intros [= <-]; split; intros; simplify_map_eq].
  intros [Hr Hp]%resources_from_options_ok. split; [|done]. intros id r Hid. by apply Hr in Hid as [].
Qed.

Lemma get_keys_ok `{HashOrder} ini keys id key :
  get_keys ini = Ok keys → keys !! id = Some key → key_ok key.
Proof.
  unfold get_keys. destruct (options_iter _ _); [|by intros [= <-] ?; simplify_map_eq].
  intros Hk Hid. by eapply keys_from_options_ok in Hk as [].
Qed.

Lemma load_ini_values_ok `{HashOrder} conf ini conf' :
  load_ini_values conf ini = Ok conf' → Config_ok conf'.
Proof.
  intros (Hp & Hk & Hr & _ & _ & Hf)%load_ini_values_inv. apply get_resources_ok in Hr as [Hr Hports].
  split; [by eapply get_port_ok| |done|done|].
  - intros id key Hid. by eapply get_keys_ok.
  - destruct Hf as [Hf| ->]; [by eapply get_nft_family_ok|by left].
Qed.

(** Loading does not depend on the order in which the hash maps are visited. *)
Lemma Forall2_Permutation_l {A B} (R : A → B → Prop) l1 l2 k1 :
  l1 ≡ₚ l2 → Forall2 R l1 k1 → ∃ k2, k1 ≡ₚ k2 ∧ Forall2 R l2 k2.
Proof.
  intros Hl. revert k1. induction Hl; intros k1 Hk.
  - inversion Hk; subst. by exists [].
  - inversion Hk as [|? y ? k]; subst. edestruct IHHl as (k2 & ? & ?); [done|].
    exists (y :: k2). split; by constructor.
  - inversion Hk as [|? y1 ? k' ? Hk']; subst. inversion Hk' as [|? y2 ? k'']; subst.
    exists (y2 :: y1 :: k''). split; [constructor|by repeat constructor].
  - edestruct IHHl1 as (k2 & ? & ?); [done|]. edestruct IHHl2 as (k3 & ? & ?); [done|].
    exists k3. split; [by etrans|done].
Qed.

Lemma keys_from_options_perm options options' keys :
  options ≡ₚ options' → keys_from_options options = Ok keys → keys_from_options options' = Ok keys.
Proof.
  unfold keys_from_options. rewrite !keys_fold_ok. intros Hp (es & Hes & Hnd & Hf & ->).
  destruct (Forall2_Permutation_l _ _ _ _ Hp Hes) as (es' & Hpe & Hes').
  exists es'. split_and!; [done|by rewrite <- Hpe|by intros; apply lookup_empty|].
  f_equal. by apply list_to_map_proper.
Qed.

Lemma resources_from_options_perm (HO1 HO2 : HashOrder) options options' rs :
  options ≡ₚ options' → @resources_from_options HO1 options = Ok rs →
  @resources_from_options HO2 options' = Ok rs.
Proof.
  unfold resources_from_options. rewrite !resources_fold_ok.
  intros Hp (es & Hes & Hnd & Hndp & Hf & ->).
  destruct (Forall2_Permutation_l _ _ _ _ Hp Hes) as (es' & Hpe & Hes').
  exists es'. split_and!; [done|by rewrite <- Hpe|by rewrite <- Hpe| |].
  - intros id r Hin. apply Hf. by rewrite Hpe.
  - f_equal. by apply list_to_map_proper.
Qed.

Lemma options_iter_perm (HO1 HO2 : HashOrder) ini s :
  option_Forall2 Permutation (@options_iter HO1 ini s) (@options_iter HO2 ini s).
Proof.
  unfold options_iter. destruct (sections ini !! s) as [m|]; simpl; constructor.
  by rewrite (@hash_iter_perm HO1), (@hash_iter_perm HO2).
Qed.

Lemma get_keys_perm (HO1 HO2 : HashOrder) ini keys :
  @get_keys HO1 ini = Ok keys → @get_keys HO2 ini = Ok keys.
Proof.
  unfold get_keys. destruct (options_iter_perm HO1 HO2 ini (lit "KEYS")); [|done].
  by apply keys_from_options_perm.
Qed.

Lemma get_resources_perm (HO1 HO2 : HashOrder) ini rs :
  @get_resources HO1 ini = Ok rs → @get_resources HO2 ini = Ok rs.
Proof.
  unfold get_resources. destruct (options_iter_perm HO1 HO2 ini (lit "RESOURCES")); [|done].
  by apply resources_from_options_perm.
Qed.

Lemma load_ini_values_perm (HO1 HO2 : HashOrder) conf ini conf' :
  @load_ini_values HO1 conf ini = Ok conf' → @load_ini_values HO2 conf ini = Ok conf'.
Proof.
  unfold load_ini_values.
  repeat (intros (? & Hx & Hl)%res_bind_ok; revert Hl;
    first [apply get_keys_perm with (HO2 := HO2) in Hx
          |apply get_resources_perm with (HO2 := HO2) in Hx|idtac]; rewrite Hx; clear Hx; cbn [mbind res_bind]).
  done.
Qed.

(** ** Absence of panics *)

Lemma from_str_radix_no_panic max s radix : no_panic (from_str_radix max s radix).
Proof.
  unfold from_str_radix. destruct s as [|c s]; [done|]. cbv zeta.
  destruct (if c =? ch "+" then s else c :: s); [done|]. by destruct (parse_digits _ _ _ _).
Qed.
#[local] Hint Resolve from_str_radix_no_panic : letmein.

Lemma parse_u16_no_panic s : no_panic (parse_u16 s).
Proof. unfold parse_u16, parse_uint. case_match; auto with letmein. Qed.
Lemma id_from_str_no_panic s : no_panic (id_from_str s).
Proof. unfold id_from_str. auto with letmein. Qed.
Lemma UserId_from_str_no_panic s : no_panic (UserId_from_str s).
Proof. unfold UserId_from_str. pose proof (id_from_str_no_panic s). by destruct (id_from_str s). Qed.
Lemma ResourceId_from_str_no_panic s : no_panic (ResourceId_from_str s).
Proof. unfold ResourceId_from_str. pose proof (id_from_str_no_panic s). by destruct (id_from_str s). Qed.
Lemma parse_duration_no_panic s : no_panic (parse_duration s).
Proof. unfold parse_duration. by repeat case_match. Qed.

Lemma parse_hex_no_panic n s : no_panic (parse_hex n s).
Proof.
  unfold parse_hex. cbv zeta. destruct (negb (is_ascii _)); [done|].
  destruct (negb _) eqn:E; [done|]. apply negb_false_iff, Nat.eqb_eq in E.
  assert (Hg : ∀ l : list nat, (∀ i, i ∈ l → i < n)%nat →
    no_panic (mapM (λ i, hi ← parse_hexdigit (slice (i * 2) 1 (trim s));
      lo ← parse_hexdigit (slice (i * 2 + 1) 1 (trim s));
      Ok (byte.of_Z (Z.lor (Z.shiftl hi 4) lo))) l)).
  { intros l Hl. induction l as [|i l IH]; simpl; [done|].
    assert (i < n)%nat by (apply Hl; by left).
    apply no_panic_bind; [|intros b _; apply no_panic_bind; [apply IH; intros; apply Hl; by right|done]].
    unfold parse_hexdigit. rewrite !length_slice by lia. cbn.
    repeat (apply no_panic_bind; [auto with letmein|intros]). done. }
  apply Hg. intros i Hi%elem_of_seq. lia.
Qed.

Lemma foldM_no_panic' {A B} (f : B → A → res B) b l :
  (∀ b x, no_panic (f b x)) → no_panic (foldM f b l).
Proof. intros Hf. by apply (foldM_no_panic (λ _, True)). Qed.

#[local] Hint Resolve parse_u16_no_panic UserId_from_str_no_panic ResourceId_from_str_no_panic
  parse_duration_no_panic parse_hex_no_panic parse_map_no_panic : letmein.
#[local] Hint Extern 1 (no_panic (context _ _)) => apply no_panic_context : letmein.

Lemma get_port_no_panic ini : no_panic (get_port ini).
Proof.
  assert (Hw : ∀ p v, no_panic (port_word p v)) by (intros; unfold port_word; by repeat case_bool_decide).
  unfold get_port. case_match; [|done].
  apply no_panic_bind; [auto with letmein|]. intros items _. apply no_panic_bind; [|done].
  apply foldM_no_panic'. intros p [? ?|? ?|[|v [|]]]; simpl; try done.
  - case_match; [|by apply no_panic_bind]. apply no_panic_bind; [auto with letmein|done].
  - apply no_panic_bind; [done|]. intros. apply no_panic_bind; [done|]. intros. by apply foldM_no_panic'.
Qed.

Lemma get_keys_no_panic `{HashOrder} ini : no_panic (get_keys ini).
Proof.
  unfold get_keys. case_match; [|done]. apply foldM_no_panic'. intros keys o. unfold keys_step.
  apply no_panic_bind; [|intros []; by case_bool_decide]. unfold key_entry.
  apply no_panic_bind; [auto with letmein|]. intros. apply no_panic_bind; [auto with letmein|].
  intros. by repeat case_bool_decide.
Qed.

Lemma res_item_no_panic st item : no_panic (res_item st item).
Proof.
  destruct item; simpl.
  - repeat case_bool_decide; try done. apply no_panic_bind; [auto with letmein|done].
  - by repeat case_bool_decide.
  - apply foldM_no_panic'. intros. unfold res_word. by repeat case_bool_decide.
Qed.

Lemma get_resources_no_panic `{HashOrder} ini : no_panic (get_resources ini).
Proof.
  unfold get_resources. case_match; [|done]. apply foldM_no_panic'. intros rs o. unfold resources_step.
  apply no_panic_bind.
  - unfold resource_entry. apply no_panic_bind; [auto with letmein|]. intros.
    apply no_panic_bind; [auto with letmein|]. intros.
    apply no_panic_bind; [apply foldM_no_panic', res_item_no_panic|]. intros st _. cbv zeta.
    apply no_panic_bind; [by destruct (rs_port st)|]. intros.
    apply no_panic_bind; [|done]. apply foldM_no_panic'. intros. unfold res_user. by case_match.
  - intros [id r] _. apply no_panic_bind; [|done]. apply foldM_no_panic'.
    intros. unfold check_resource. by repeat case_match.
Qed.

Lemma load_ini_values_no_panic `{HashOrder} conf ini : no_panic (load_ini_values conf ini).
Proof.
  unfold load_ini_values.
  apply no_panic_bind; [unfold get_debug, parse_bool; by repeat case_match|intros ? _].
  apply no_panic_bind; [apply get_port_no_panic|intros ? _].
  apply no_panic_bind; [unfold get_control_timeout; case_match; auto with letmein; done|intros ? _].
  apply no_panic_bind; [unfold get_control_error_policy, ErrorPolicy_from_str; by repeat case_match|intros ? _].
  apply no_panic_bind; [unfold get_seccomp, Seccomp_from_str; by repeat case_match|intros ? _].
  apply no_panic_bind; [apply get_keys_no_panic|intros ? _].
  apply no_panic_bind; [apply get_resources_no_panic|intros ? _].
  apply no_panic_bind; [unfold get_default_user; repeat case_match; auto with letmein; done|intros ? _].
  apply no_panic_bind; [|by intros [[[[? ?] ?] ?] ?]].
  destruct (bool_decide (c_variant conf = Server)); [|done].
  apply no_panic_bind; [unfold get_nft_exe; by case_match|intros ? _].
  apply no_panic_bind; [unfold get_nft_family; by repeat case_match|intros ? _].
  apply no_panic_bind; [unfold get_nft_table; by case_match|intros ? _].
  apply no_panic_bind; [unfold get_nft_chain_input; by case_match|intros ? _].
  apply no_panic_bind; [unfold get_nft_timeout; case_match; auto with letmein; done|done].
Qed.

(** ** Properties *)

Lemma load_ini_snd_ok `{HashOrder} conf ini : Config_ok conf → Config_ok (load_ini conf ini).2.
Proof.
  intros Hc. unfold load_ini. destruct (load_ini_values conf ini) eqn:E; [|done..].
  by eapply load_ini_values_ok.
Qed.

(** C26 (invariant). Loading a configuration never panics. A load that succeeds, from any file and
    for either variant, leaves a well-formed configuration: the control port is a port with at
    least one protocol, every key has 32 bytes and is neither all zeros nor all ones, every
    resource has a port and a protocol and no two resources share a port. A load that fails
    leaves the previous configuration as it was. *)
Theorem load_ini_wf `{HashOrder} conf ini r conf' :
  load_ini conf ini = (r, conf') →
  no_panic r ∧ (is_ok r → Config_ok conf' ∧ c_variant conf' = c_variant conf) ∧
  (is_err r → conf' = conf).
Proof.
  unfold load_ini. pose proof (load_ini_values_no_panic conf ini) as Hn.
  destruct (load_ini_values conf ini) as [c| |] eqn:E; intros [= <- <-]; [|by split_and!|done].
  split_and!; [done| |done]. intros _. split; [by eapply load_ini_values_ok|].
  by apply load_ini_values_inv in E as (_ & _ & _ & -> & _).
Qed.

(** C28 (equivalence). The outcome of loading does not depend on the order in which the sections
    and options of the ini file and the resources read so far are visited. *)
Theorem load_ini_order_independent (HO1 HO2 : HashOrder) conf ini :
  (@load_ini HO1 conf ini).2 = (@load_ini HO2 conf ini).2 ∧
  is_ok (@load_ini HO1 conf ini).1 = is_ok (@load_ini HO2 conf ini).1.
Proof.
  unfold load_ini.
  destruct (@load_ini_values HO1 conf ini) as [c| |] eqn:E1;
    [by rewrite (load_ini_values_perm HO1 HO2 _ _ _ E1)|..];
  (destruct (@load_ini_values HO2 conf ini) as [c| |] eqn:E2;
    [by rewrite (load_ini_values_perm HO2 HO1 _ _ _ E2) in E1|done..]).
Qed.

(** C27 (functional). What a loaded configuration grants is what the file says. The keys are exactly
    those of the options in the [KEYS] section. The resources are exactly those of the options in
    the [RESOURCES] section, and a user may access a resource if and only if the definition of the
    resource has no [users] item, or one that lists the user. So a definition with a [users] item
    that names no valid user is never a resource that everybody may open. *)
Theorem load_ini_exact `{HashOrder} conf ini conf' :
  load_ini conf ini = (Ok (), conf') →
  (∀ u key, conf_key conf' u = Some key ↔
     ∃ name v, ini_get ini (lit "KEYS") name = Some v ∧ UserId_from_str name = Ok u ∧ parse_hex KEY_SIZE v = Ok key) ∧
  (∀ id r, conf_resource conf' id = Some r ↔
     ∃ name v, ini_get ini (lit "RESOURCES") name = Some v ∧ resource_entry (name, v) = Ok (id, r)) ∧
  (∀ id r u, conf_resource conf' id = Some r →
     ∃ name v items, ini_get ini (lit "RESOURCES") name = Some v ∧
       ResourceId_from_str name = Ok id ∧ parse_map v = Ok items ∧
       (contains_user r u = true ↔
        Forall (λ item, is_users_item item = false) items ∨
        ∃ item s, item ∈ items ∧ s ∈ item_users item ∧ UserId_from_str s = Ok u)).
Proof.
  unfold load_ini. destruct (load_ini_values conf ini) as [c| |] eqn:E; [|done..]. intros [= ->].
  apply load_ini_values_inv in E as (_ & Hk & Hr & _).
  assert (Hres : ∀ id r, conf_resource conf' id = Some r ↔
    ∃ name v, ini_get ini (lit "RESOURCES") name = Some v ∧ resource_entry (name, v) = Ok (id, r))
    by (intros id r; by apply get_resources_exact).
  split_and!; [intros u key; by apply get_keys_exact|done|].
  intros id r u (name & v & Hv & He)%Hres.
  destruct (resource_entry_users _ _ _ He) as (Hid & _).
  destruct (resource_entry_access _ _ _ u He) as (items & Hi & Hu). by exists name, v, items.
Qed.

Lemma first_resource_spec port user l k :
  first_resource port user l = Some k →
  ∃ r, (k, r) ∈ l ∧ r_port r = port ∧ ∀ u, user = Some u → contains_user r u = true.
Proof.
  induction l as [|[k' v] l IH]; simpl; [done|]. intros E.
  assert (first_resource port user l = Some k ∨ k = k' ∧ r_port v = port ∧
    ∀ u, user = Some u → contains_user v u = true) as [Hl|(-> & Hp & Hu)].
  { destruct (Z.eqb_spec (r_port v) port); [|by left].
    destruct user as [u|]; [|right; by simplify_eq].
    destruct (contains_user v u) eqn:Hu; [right|by left]. split_and!; [congruence|done|]. by intros ? [= <-]. }
  - destruct (IH Hl) as (r & Hin & ?). exists r. split; [by right|done].
  - exists v. split_and!; [by left|done|done].
Qed.

Lemma first_resource_complete port user l k r :
  (k, r) ∈ l → r_port r = port → (∀ u, user = Some u → contains_user r u = true) →
  is_Some (first_resource port user l).
Proof.
  intros Hin Hp Hu. induction l as [|[k' v] l IH]; [by apply elem_of_nil in Hin|]. simpl.
  apply elem_of_cons in Hin as [[= <- <-]|Hin].
  - rewrite Hp, Z.eqb_refl. destruct user as [u|]; [|done]. by rewrite Hu.
  - apply IH in Hin as Hs. by repeat case_match.
Qed.

Lemma resource_id_by_port_spec `{HashOrder} conf port user id :
  Config_ok conf →
  resource_id_by_port conf port user = Some id ↔
  ∃ r, conf_resource conf id = Some r ∧ r_port r = port ∧
    ∀ u, user = Some u → contains_user r u = true.
Proof.
  intros Hc. unfold resource_id_by_port. split.
  - intros (r & Hin%elem_of_hash_iter & Hr)%first_resource_spec. by exists r.
  - intros (r & Hid & Hp & Hu). apply elem_of_hash_iter in Hid as Hin.
    destruct (first_resource_complete _ _ _ _ _ Hin Hp Hu) as [k Hk]. rewrite Hk. f_equal.
    apply first_resource_spec in Hk as (r' & Hin'%elem_of_hash_iter & Hp' & _).
    eapply co_ports; [done|exact Hin'|exact Hid|congruence].
Qed.

(** In a well-formed configuration the lookup by port finds the resource with
    that port whenever there is one that the user may access, finds no other resource, and does
    not depend on the order in which the resources are visited. *)
Lemma resource_id_by_port_correct `{HashOrder} conf port user id :
  Config_ok conf →
  resource_id_by_port conf port user = Some id ↔
  ∃ r, conf_resource conf id = Some r ∧ r_port r = port ∧
    ∀ u, user = Some u → contains_user r u = true.
Proof. apply resource_id_by_port_spec. Qed.

(** The example file of the documentation, in short. *)
Definition sample_text : str := lit "
[GENERAL]
port = 5800/UDP
[KEYS]
00000000 = B0CD848E3E3C5E9E6E65A5A2D6E3A1F3E3D0FC3CBB1CC3B2AC0E4EDE9D0C6F5B
[RESOURCES]
00000001 = port: 22 / users: 00000000
00000002 = port: 443 / tcp / udp
".

Definition sample_ini : Ini := match parse_str sample_text with Ok ini => ini | _ => Ini_new end.
Definition sample_conf : Config := (@load_ini sorted_order (Config_new Server) sample_ini).2.

Example sample_conf_resource :
  conf_resource sample_conf (MkResourceId 1) = Some (MkResource 22 true false [MkUserId 0]) ∧
  conf_resource sample_conf (MkResourceId 2) = Some (MkResource 443 true true []) ∧
  length <$> conf_key sample_conf (MkUserId 0) = Some 32%nat ∧
  c_port sample_conf = MkControlPort 5800 false true.
Proof. by vm_compute. Qed.

Lemma sample_conf_ok : Config_ok sample_conf.
Proof. apply load_ini_snd_ok, Config_new_ok. Qed.

Lemma load_ini_wf_witness :
  let '(r, c) := @load_ini sorted_order (Config_new Server) sample_ini in
  r = Ok () ∧ no_panic r ∧ (is_ok r → Config_ok c ∧ c_variant c = Server) ∧ (is_err r → c = Config_new Server).
Proof.
  destruct (@load_ini sorted_order (Config_new Server) sample_ini) as [r c] eqn:E.
  split; [|exact (@load_ini_wf sorted_order _ _ _ _ E)].
  change r with (r, c).1. rewrite <- E. vm_compute. reflexivity.
Defined.

Lemma sample_loaded : @load_ini sorted_order (Config_new Server) sample_ini = (Ok (), sample_conf).
Proof.
  assert (Hl : (@load_ini sorted_order (Config_new Server) sample_ini).1 = Ok ()) by (vm_compute; reflexivity).
  unfold sample_conf. by destruct (@load_ini _ _ _) as [r c]; simpl in *; subst.
Qed.

Lemma sample_resource_1 : conf_resource sample_conf (MkResourceId 1) = Some (MkResource 22 true false [MkUserId 0]).
Proof. vm_compute. reflexivity. Qed.

Lemma load_ini_exact_witness :
  ∃ name v, ini_get sample_ini (lit "RESOURCES") name = Some v ∧
    resource_entry (name, v) = Ok (MkResourceId 1, MkResource 22 true false [MkUserId 0]).
Proof. exact (proj1 (proj1 (proj2 (@load_ini_exact sorted_order _ _ _ sample_loaded)) _ _) sample_resource_1). Defined.

