(* ===== verification/Nftables.v ===== *)
(** * The firewall (letmeinfwd/src/firewall.rs and letmeinfwd/src/firewall/nftables.rs)

    The leases that the firewall daemon keeps in memory, and the batches of commands by which it
    makes the nftables chain of the kernel agree with them. The data that is exchanged with [nft]
    is the part of the schema of the [nftables] crate that the code constructs or inspects. *)

From S2P Require Import Prelude Prog Str FwProto Addr Conf.
Local Open Scope Z_scope.

(** ** Leases *)

Inductive LeasePort : Type := LpTcp (p : u16) | LpUdp (p : u16) | LpTcpUdp (p : u16).
Inductive SingleLeasePort : Type := SlpTcp (p : u16) | SlpUdp (p : u16).

Definition SingleLeasePort_display (port : SingleLeasePort) : str :=
  match port with
  | SlpTcp p => show_dec p ++ lit "/TCP"
  | SlpUdp p => show_dec p ++ lit "/UDP"
  end.

Definition LeasePort_display (port : LeasePort) : str :=
  match port with
  | LpTcp p => show_dec p ++ lit "/TCP"
  | LpUdp p => show_dec p ++ lit "/UDP"
  | LpTcpUdp p => show_dec p ++ lit "/TCP+UDP"
  end.

Definition lease_port_number (port : LeasePort) : u16 :=
  match port with LpTcp p | LpUdp p | LpTcpUdp p => p end.

(** An [Instant] is a number of nanoseconds; adding a [Duration] panics when the seconds leave the
    range of an [i64]. *)
Abbreviation Instant := Z (only parsing).
Definition instant_max : Z := 2 ^ 63 * 1000000000.
Definition instant_add (now d : Z) : res Instant :=
  if now + d <? instant_max then Ok (now + d) else Panic "overflow when adding duration to instant".

Record Lease : Type := MkLease { l_addr : IpAddr; l_port : LeasePort; l_timeout : Instant }.

#[export] Instance LeasePort_eq_dec : EqDecision LeasePort.
Proof. solve_decision. Defined.
#[export] Instance SingleLeasePort_eq_dec : EqDecision SingleLeasePort.
Proof. solve_decision. Defined.
#[export] Program Instance LeasePort_countable : Countable LeasePort :=
  inj_countable' (λ p, match p with LpTcp p => inl p | LpUdp p => inr (inl p) | LpTcpUdp p => inr (inr p) end)
    (λ s, match s with inl p => LpTcp p | inr (inl p) => LpUdp p | inr (inr p) => LpTcpUdp p end) _.
Next Obligation. by intros []. Qed.

Abbreviation LeaseId := (IpAddr * LeasePort)%type.
Abbreviation LeaseMap := (gmap LeaseId Lease).

Definition is_timed_out (l : Lease) (now : Instant) : bool := l_timeout l <=? now.

(** ** The data exchanged with [nft] *)

Inductive NfFamily : Type := NfIP | NfIP6 | NfINet | NfARP | NfBridge | NfNetDev.

Inductive Expression : Type :=
| EPayload (protocol field : str)
| EString (s : str)
| ENumber (n : Z).

(** [Match] with [Operator::EQ], and [Accept]. *)
Inductive Statement : Type :=
| SMatchEq (left right : Expression)
| SAccept.

Record Rule : Type := MkRule {
  ru_family : NfFamily;
  ru_table : str;
  ru_chain : str;
  ru_expr : list Statement;
  ru_handle : option u32;
  ru_comment : option str;
}.

Inductive NfCmd : Type :=
| AddRule (r : Rule)
| DeleteRule (r : Rule)
| FlushChain (family : NfFamily) (table name : str).

(** A listed ruleset holds rules and other objects (tables, chains, sets, metadata). *)
Inductive NfObject : Type := ObjRule (r : Rule) | ObjOther.

#[export] Instance NfFamily_eq_dec : EqDecision NfFamily.
Proof. solve_decision. Defined.
#[export] Instance Expression_eq_dec : EqDecision Expression.
Proof. solve_decision. Defined.
#[export] Instance Statement_eq_dec : EqDecision Statement.
Proof. solve_decision. Defined.
#[export] Instance Rule_eq_dec : EqDecision Rule.
Proof. solve_decision. Defined.

(** ** The interface of the firewall to the system

    The monotonic clock, and the [nft] executable: a test run, a [list ruleset] whose output is
    only printed, the current ruleset, and a batch to apply. *)

Inductive fw_cmd : Type :=
| FNow
| FHelp (exe : str)
| FSpawnList (exe : str)
| FList (exe : str)
| FApply (exe : str) (batch : list NfCmd).

Definition fw_resp (c : fw_cmd) : Type :=
  match c with
  | FNow => Instant
  | FHelp _ => bool
  | FSpawnList _ => ()
  | FList _ => res (list NfObject)
  | FApply _ _ => res ()
  end.

Definition fw_iface : iface := Iface fw_cmd fw_resp.

(** [Lease::new]. *)
Definition Lease_new (conf : Config) (addr : IpAddr) (port : LeasePort) : prog fw_iface (res Lease) :=
  if cp_port (c_port conf) =? lease_port_number port
  then Ret (Panic "assertion `left != right` failed")
  else
    (let* now := call (I := fw_iface) FNow in
     Ret (timeout ← instant_add now (c_nft_timeout conf); Ok (MkLease addr port timeout)))%prog.

(** [Lease::refresh_timeout]. *)
Definition refresh_timeout (conf : Config) (l : Lease) : prog fw_iface (res Lease) :=
  (let* now := call (I := fw_iface) FNow in
   Ret (timeout ← instant_add now (c_nft_timeout conf);
        Ok (MkLease (l_addr l) (l_port l) timeout)))%prog.

(** [prune_all_lease_timeouts]: the pruned leases and the remaining ones. *)
Definition prune_all_lease_timeouts `{HashOrder} (now : Instant) (leases : LeaseMap)
    : list Lease * LeaseMap :=
  (List.filter (λ l, is_timed_out l now) (hash_iter leases).*2,
   filter (λ kl, is_timed_out kl.2 now = false) leases).

(** ** Rules *)

Record NftNames : Type := MkNftNames { n_family : NfFamily; n_table : str; n_chain_input : str }.

Definition NftNames_get (conf : Config) : res NftNames :=
  family ← (if bool_decide (c_nft_family conf = lit "inet") then Ok NfINet
            else if bool_decide (c_nft_family conf = lit "ip") then Ok NfIP
            else if bool_decide (c_nft_family conf = lit "ip6") then Ok NfIP6
            else Err "Unknown nftables family");
  table ← (if bool_decide (c_nft_table conf = []) then Err "nftables table not specified."
           else Ok (c_nft_table conf));
  chain_input ← (if bool_decide (c_nft_chain_input conf = [])
                 then Err "nftables chain-input not specified." else Ok (c_nft_chain_input conf));
  Ok (MkNftNames family table chain_input).

Definition ip_unsupported : error := "IP version not supported by nftables firewall family".

Definition statement_match_saddr (family : NfFamily) (addr : IpAddr) : res Statement :=
  '(protocol, addr) ←
    match addr with
    | V4 a =>
        match family with
        | NfINet | NfIP => Ok (lit "ip", ipv4_display a)
        | _ => Err ip_unsupported
        end
    | V6 a =>
        match to_ipv4_mapped a with
        | Some a4 =>
            match family with
            | NfINet | NfIP => Ok (lit "ip", ipv4_display a4)
            | _ => Err ip_unsupported
            end
        | None =>
            match family with
            | NfINet | NfIP6 => Ok (lit "ip6", ipv6_display a)
            | _ => Err ip_unsupported
            end
        end
    end;
  Ok (SMatchEq (EPayload protocol (lit "saddr")) (EString addr)).

Definition statement_match_dport (port : SingleLeasePort) : Statement :=
  let '(protocol, port) :=
    match port with SlpTcp p => (lit "tcp", p) | SlpUdp p => (lit "udp", p) end in
  SMatchEq (EPayload protocol (lit "dport")) (ENumber port).

Definition statement_accept : Statement := SAccept.

(** Writing to a [String] does not fail. *)
Definition gen_rule_comment (addr : option IpAddr) (port : SingleLeasePort) : str :=
  match addr with Some addr => ip_display addr ++ lit "/" | None => lit "any/" end ++
  SingleLeasePort_display port ++ lit "/accept/letmein/GENERATED".

Definition gen_add_lease_cmd (conf : Config) (addr : option IpAddr) (port : SingleLeasePort)
    : res NfCmd :=
  names ← context "Read configuration" (NftNames_get conf);
  saddr ← match addr with
          | Some addr => s ← statement_match_saddr (n_family names) addr; Ok [s]
          | None => Ok []
          end;
  Ok (AddRule {|
    ru_family := n_family names;
    ru_table := n_table names;
    ru_chain := n_chain_input names;
    ru_expr := saddr ++ [statement_match_dport port; statement_accept];
    ru_handle := None;
    ru_comment := Some (gen_rule_comment addr port);
  |}).

Definition gen_add_lease_cmds (conf : Config) (lease : Lease) : res (list NfCmd) :=
  let addr := Some (l_addr lease) in
  match l_port lease with
  | LpTcp port => c ← gen_add_lease_cmd conf addr (SlpTcp port); Ok [c]
  | LpUdp port => c ← gen_add_lease_cmd conf addr (SlpUdp port); Ok [c]
  | LpTcpUdp port =>
      c1 ← gen_add_lease_cmd conf addr (SlpTcp port);
      c2 ← gen_add_lease_cmd conf addr (SlpUdp port);
      Ok [c1; c2]
  end.

(** [ListedRuleset::find_handle]: the first rule of our chain with the comment of the lease. *)
Fixpoint find_handle (objs : list NfObject) (family : NfFamily) (table chain_input : str)
    (addr : IpAddr) (port : SingleLeasePort) : res u32 :=
  match objs with
  | [] => Err "Nftables 'handle' not found in the kernel ruleset."
  | obj :: objs' =>
      match obj with
      | ObjRule {| ru_family := f; ru_table := t; ru_chain := c;
                   ru_handle := Some h; ru_comment := Some comment |} =>
          if bool_decide (f = family) && bool_decide (t = table) && bool_decide (c = chain_input)
             && bool_decide (comment = gen_rule_comment (Some addr) port)
          then Ok h
          else find_handle objs' family table chain_input addr port
      | _ => find_handle objs' family table chain_input addr port
      end
  end.

(** The closure [new_rule] of [gen_delete_lease_cmds]. *)
Definition delete_cmd (objs : list NfObject) (names : NftNames) (addr : IpAddr)
    (port : SingleLeasePort) : res NfCmd :=
  handle ← find_handle objs (n_family names) (n_table names) (n_chain_input names) addr port;
  Ok (DeleteRule {|
    ru_family := n_family names;
    ru_table := n_table names;
    ru_chain := n_chain_input names;
    ru_expr := [];
    ru_handle := Some handle;
    ru_comment := None;
  |}).

(** A rule that is not found is reported on the console and skipped. *)
Definition push_found (r : res NfCmd) : list NfCmd := match r with Ok cmd => [cmd] | _ => [] end.

Definition gen_delete_lease_cmds (objs : list NfObject) (conf : Config) (lease : Lease)
    : res (list NfCmd) :=
  names ← context "Read configuration" (NftNames_get conf);
  let new_rule := delete_cmd objs names (l_addr lease) in
  Ok match l_port lease with
     | LpTcp port => push_found (new_rule (SlpTcp port))
     | LpUdp port => push_found (new_rule (SlpUdp port))
     | LpTcpUdp port => push_found (new_rule (SlpTcp port)) ++ push_found (new_rule (SlpUdp port))
     end.

(** ** [NftFirewall] *)

Record NftFirewall : Type := MkNftFirewall {
  fw_leases : LeaseMap;
  fw_shutdown : bool;
  fw_num_ctrl_rules : Z;
}.

Definition set_leases (f : LeaseMap → LeaseMap) (fw : NftFirewall) : NftFirewall :=
  MkNftFirewall (f (fw_leases fw)) (fw_shutdown fw) (fw_num_ctrl_rules fw).
Definition set_shutdown (fw : NftFirewall) : NftFirewall :=
  MkNftFirewall (fw_leases fw) true (fw_num_ctrl_rules fw).
Definition set_num_ctrl_rules (n : Z) (fw : NftFirewall) : NftFirewall :=
  MkNftFirewall (fw_leases fw) (fw_shutdown fw) n.

Abbreviation fw_method := (method fw_iface NftFirewall).

(** The count that [print_total_rule_count] prints in debug mode. *)
Definition total_rule_count `{HashOrder} (fw : NftFirewall) : Z :=
  foldl (λ count kl, count + match l_port kl.2 with LpTcp _ | LpUdp _ => 1 | LpTcpUdp _ => 2 end)
    (fw_num_ctrl_rules fw) (hash_iter (fw_leases fw)).

Section NftFirewall.
Context `{HashOrder} (conf : Config).
Local Open Scope prog_scope.

Definition nftables_apply_batch (batch : list NfCmd) : fw_method () :=
  let! r := mcall (FApply (c_nft_exe conf) batch : cmd fw_iface) in
  mret (context "Apply nftables" r).

(** [ListedRuleset::from_kernel]. *)
Definition from_kernel : fw_method (list NfObject) :=
  let! _ := mcall (FSpawnList (c_nft_exe conf) : cmd fw_iface) in
  let! r := mcall (FList (c_nft_exe conf) : cmd fw_iface) in
  mret match r with
       | Ok objects => Ok objects
       | Err _ => Err "nft did not return successfully while getting the current ruleset"
       | Panic w => Panic w
       end.

(** Opens the control port for one protocol, if it is used. *)
Definition add_ctrl_rule (enabled : bool) (port : SingleLeasePort) : fw_method (list NfCmd) :=
  if enabled then
    let! c := mret (gen_add_lease_cmd conf None port) in
    let! _ := mmodify (λ fw, set_num_ctrl_rules (fw_num_ctrl_rules fw + 1) fw) in
    mret (Ok [c])
  else mret (Ok []).

Definition all_lease_cmds (leases : LeaseMap) : res (list NfCmd) :=
  foldM (λ (cmds : list NfCmd) (kl : LeaseId * Lease),
           cs ← gen_add_lease_cmds conf kl.2; Ok (cmds ++ cs)) [] (hash_iter leases).

Definition nftables_full_rebuild : fw_method () :=
  let! names := mret (context "Read configuration" (NftNames_get conf)) in
  let! _ := mmodify (set_num_ctrl_rules 0) in
  let! fw := mget in
  let! cmds :=
    (if fw_shutdown fw then mret (Ok [])
     else
       let! tcp := add_ctrl_rule (cp_tcp (c_port conf)) (SlpTcp (cp_port (c_port conf))) in
       let! udp := add_ctrl_rule (cp_udp (c_port conf)) (SlpUdp (cp_port (c_port conf))) in
       let! cs := mret (all_lease_cmds (fw_leases fw)) in
       mret (Ok (tcp ++ udp ++ cs))) in
  nftables_apply_batch (FlushChain (n_family names) (n_table names) (n_chain_input names) :: cmds).

Definition nftables_add_lease (lease : Lease) : fw_method () :=
  let! cmds := mret (gen_add_lease_cmds conf lease) in
  nftables_apply_batch cmds.

(** In debug mode errors of [nft] are printed and ignored. *)
Definition ignore_in_debug (r : res ()) : res () :=
  match r with Err e => if c_debug conf then Ok () else Err e | _ => r end.

Definition delete_cmds (objs : list NfObject) (leases : list Lease) : res (list NfCmd) :=
  foldM (λ (cmds : list NfCmd) lease, cs ← gen_delete_lease_cmds objs conf lease; Ok (cmds ++ cs))
    [] leases.

Definition nftables_remove_leases (leases : list Lease) : fw_method () :=
  if bool_decide (leases = []) then mret (Ok ())
  else
    mtry from_kernel (λ ruleset,
      match ruleset with
      | Ok objs =>
          let! batch := mret (delete_cmds objs leases) in
          mtry (nftables_apply_batch batch) (λ r, mret (ignore_in_debug r))
      | Err e => mret (ignore_in_debug (Err e))
      | Panic w => mret (Panic w)
      end).

(** [NftFirewall::new]. *)
Definition NftFirewall_new : prog fw_iface (res NftFirewall) :=
  let* ok := call (FHelp (c_nft_exe conf) : cmd fw_iface) in
  if negb ok then Ret (Err "Failed to execute the 'nft' program.")
  else
    let* (r, this) := nftables_full_rebuild (MkNftFirewall ∅ false 0) in
    Ret (_ ← context "nftables initialization" r; Ok this).

Definition assert_running : fw_method () :=
  let! fw := mget in mret (assert (negb (fw_shutdown fw)) "assertion failed: !self.shutdown").

Definition shutdown : fw_method () :=
  let! _ := assert_running in
  let! _ := mmodify set_shutdown in
  let! _ := mmodify (set_leases (λ _, ∅)) in
  nftables_full_rebuild.

Definition maintain : fw_method () :=
  let! _ := assert_running in
  let! now := mcall (FNow : cmd fw_iface) in
  let! fw := mget in
  let '(pruned, leases) := prune_all_lease_timeouts now (fw_leases fw) in
  let! _ := mmodify (set_leases (λ _, leases)) in
  if bool_decide (pruned = []) then mret (Ok ())
  else
    mtry (nftables_remove_leases pruned) (λ r,
      match r with Err _ => nftables_full_rebuild | _ => mret (Ok ()) end).

Definition open_port (remote_addr : IpAddr) (port : LeasePort) : fw_method () :=
  let! _ := assert_running in
  let id := (remote_addr, port) in
  let! fw := mget in
  match fw_leases fw !! id with
  | Some lease =>
      let! lease := mlift (refresh_timeout conf lease) in
      mmodify (set_leases <[id := lease]>)
  | None =>
      let! lease := mlift (Lease_new conf remote_addr port) in
      let! _ := nftables_add_lease lease in
      mmodify (set_leases <[id := lease]>)
  end.

Definition close_port (remote_addr : IpAddr) (port : LeasePort) : fw_method () :=
  let! _ := assert_running in
  let id := (remote_addr, port) in
  let! fw := mget in
  match fw_leases fw !! id with
  | Some lease =>
      let! _ := mmodify (set_leases (delete id)) in
      nftables_remove_leases [lease]
  | None =>
      let! fake_lease := mlift (Lease_new conf remote_addr port) in
      nftables_remove_leases [fake_lease]
  end.

End NftFirewall.
