(* ===== verification/NftSpec.v ===== *)
(** * The kernel behind the firewall

    The documented behaviour of [nft] and of the kernel as an interface, the rules that stand for
    leases, and what the batches of the firewall do to the active rules. *)

From Stdlib Require Import Ascii.
From S2P Require Import Prelude Prog Str FwProto Addr Ini Conf Nftables.
Local Open Scope Z_scope.

(** ** The kernel

    The active rules are a collection of pairs of a handle and a rule. A batch is applied as a
    whole or not at all. *)

Abbreviation active := (list (u32 * Rule)).

Definition in_chain (names : NftNames) (r : Rule) : bool :=
  bool_decide (ru_family r = n_family names) && bool_decide (ru_table r = n_table names)
  && bool_decide (ru_chain r = n_chain_input names).

Definition chain_of (r : Rule) : NftNames := MkNftNames (ru_family r) (ru_table r) (ru_chain r).

(** The effect of one command. *)
Inductive nft_step : NfCmd → active → active → Prop :=
| nft_add r h rs : nft_step (AddRule r) rs ((h, r) :: rs)
| nft_delete r h r' rs1 rs2 :
    ru_handle r = Some h → in_chain (chain_of r) r' →
    nft_step (DeleteRule r) (rs1 ++ (h, r') :: rs2) (rs1 ++ rs2)
| nft_flush f t c rs :
    nft_step (FlushChain f t c) rs (filter (λ hr, in_chain (MkNftNames f t c) hr.2 = false) rs).

Inductive nft_batch : list NfCmd → active → active → Prop :=
| nft_batch_nil rs : nft_batch [] rs rs
| nft_batch_cons c cs rs rs1 rs2 :
    nft_step c rs rs1 → nft_batch cs rs1 rs2 → nft_batch (c :: cs) rs rs2.

(** What a listing says about a rule. *)
Definition view (h : u32) (r : Rule) : u32 * NfFamily * str * str * option str :=
  (h, ru_family r, ru_table r, ru_chain r, ru_comment r).
Definition listed (objs : list NfObject) : list (u32 * NfFamily * str * str * option str) :=
  omap (λ o, match o with ObjRule r => (λ h, view h r) <$> ru_handle r | ObjOther => None end) objs.

(** The answers that the active rules [rs] allow, and the active rules afterwards. *)
Definition kernel_allows (c : fw_cmd) : fw_resp c → active → active → Prop :=
  match c with
  | FApply _ batch => λ x rs rs',
      match x with
      | Ok _ => ∃ rs1, nft_batch batch rs rs1 ∧ rs' ≡ₚ rs1
      | Err _ => rs' ≡ₚ rs
      | Panic _ => False
      end
  | FList _ => λ x rs rs', rs' ≡ₚ rs ∧
      match x with
      | Ok objs => listed objs ≡ₚ (λ hr, view hr.1 hr.2) <$> rs
      | Err _ => True
      | Panic _ => False
      end
  | FNow | FHelp _ | FSpawnList _ => λ _ rs rs', rs' ≡ₚ rs
  end.

Class NftKernel : Type := {
  kstate : Type;
  kstep : kstate → ∀ c : cmd fw_iface, resp fw_iface c → kstate → Prop;
  krules : kstate → active;
  kclock : kstate → Instant;
  krules_handles k : NoDup ((λ hr, (hr.1, ru_family hr.2, ru_table hr.2)) <$> krules k);
  kstep_rules k c x k' : kstep k c x k' → kernel_allows c x (krules k) (krules k');
  kstep_clock k c x k' : kstep k c x k' → kclock k <= kclock k';
  kstep_now k (x : Instant) k' : kstep k FNow x k' → kclock k <= x <= kclock k';
}.

(** The rules of one chain. *)
Definition chain_rules (names : NftNames) (rs : active) : list Rule :=
  (filter (λ hr, in_chain names hr.2 = true) rs).*2.

#[export] Instance chain_rules_proper names : Proper ((≡ₚ) ==> (≡ₚ)) (chain_rules names).
Proof. intros rs rs' Hrs. unfold chain_rules. by rewrite Hrs. Qed.

(** The rules of all other chains, with their handles. *)
Definition foreign (names : NftNames) (rs : active) : active := filter (λ hr, in_chain names hr.2 = false) rs.

(** ** The rules of the leases *)

(** The families that can match an address. *)
Definition supported (family : NfFamily) (addr : IpAddr) : bool :=
  match family, addr with
  | NfINet, _ => true
  | NfIP, V4 _ => true
  | NfIP, V6 a => bool_decide (is_Some (to_ipv4_mapped a))
  | NfIP6, V6 a => negb (bool_decide (is_Some (to_ipv4_mapped a)))
  | _, _ => false
  end.

Definition saddr_of (family : NfFamily) (addr : IpAddr) : list Statement :=
  match statement_match_saddr family addr with Ok s => [s] | _ => [] end.

Definition rule_of (names : NftNames) (addr : option IpAddr) (port : SingleLeasePort) : Rule := {|
  ru_family := n_family names;
  ru_table := n_table names;
  ru_chain := n_chain_input names;
  ru_expr := match addr with Some a => saddr_of (n_family names) a | None => [] end
             ++ [statement_match_dport port; statement_accept];
  ru_handle := None;
  ru_comment := Some (gen_rule_comment addr port);
|}.

Definition singles (port : LeasePort) : list SingleLeasePort :=
  match port with
  | LpTcp p => [SlpTcp p]
  | LpUdp p => [SlpUdp p]
  | LpTcpUdp p => [SlpTcp p; SlpUdp p]
  end.

Lemma singles_NoDup port : NoDup (singles port).
Proof. destruct port; simpl; repeat constructor; set_solver. Qed.

(** The address and single port of each rule of a lease. *)
Definition targets (l : Lease) : list (IpAddr * SingleLeasePort) :=
  (λ p, (l_addr l, p)) <$> singles (l_port l).
Definition target_rule (names : NftNames) (t : IpAddr * SingleLeasePort) : Rule :=
  rule_of names (Some t.1) t.2.
Definition lease_rules (names : NftNames) (l : Lease) : list Rule := target_rule names <$> targets l.

Definition ctrl_rules (conf : Config) (names : NftNames) : list Rule :=
  (if cp_tcp (c_port conf) then [rule_of names None (SlpTcp (cp_port (c_port conf)))] else []) ++
  (if cp_udp (c_port conf) then [rule_of names None (SlpUdp (cp_port (c_port conf)))] else []).

(** The rules that the chain should hold. *)
Definition expected_rules (conf : Config) (names : NftNames) (fw : NftFirewall) : list Rule :=
  if fw_shutdown fw then []
  else ctrl_rules conf names ++ ((map_to_list (fw_leases fw)).*2 ≫= lease_rules names).

Lemma statement_match_saddr_spec family addr :
  if supported family addr then ∃ s, statement_match_saddr family addr = Ok s
  else statement_match_saddr family addr = Err ip_unsupported.
Proof.
  unfold supported, statement_match_saddr. destruct addr as [a|a].
  - destruct family; simpl; eauto.
  - destruct (to_ipv4_mapped a); destruct family; simpl; eauto.
Qed.

Section rules.
Context (conf : Config) (names : NftNames).
Hypothesis Hnames : NftNames_get conf = Ok names.

Lemma gen_add_lease_cmd_spec addr port :
  gen_add_lease_cmd conf addr port =
    if match addr with Some a => supported (n_family names) a | None => true end
    then Ok (AddRule (rule_of names addr port)) else Err ip_unsupported.
Proof using Hnames.
  unfold gen_add_lease_cmd, rule_of, saddr_of. rewrite Hnames. cbn.
  destruct addr as [a|]; [|done]. pose proof (statement_match_saddr_spec (n_family names) a) as Hs.
  destruct (supported _ _); [|by rewrite Hs]. by destruct Hs as [s ->].
Qed.

Lemma gen_add_lease_cmds_spec l :
  gen_add_lease_cmds conf l =
    if supported (n_family names) (l_addr l) then Ok (AddRule <$> lease_rules names l)
    else Err ip_unsupported.
Proof using Hnames.
  unfold gen_add_lease_cmds, lease_rules, targets. cbv zeta.
  destruct (l_port l); rewrite !gen_add_lease_cmd_spec; by destruct (supported _ _).
Qed.

Lemma in_chain_rule addr port : in_chain names (rule_of names addr port) = true.
Proof. unfold in_chain. simpl. by rewrite !bool_decide_eq_true_2. Qed.

Lemma lease_rules_in_chain l : Forall (λ r, in_chain names r = true) (lease_rules names l).
Proof. unfold lease_rules. apply Forall_fmap, Forall_forall. intros t _. apply in_chain_rule. Qed.

End rules.

(** ** Comments identify rules *)

Definition single_number (p : SingleLeasePort) : u16 := match p with SlpTcp n | SlpUdp n => n end.

Lemma slash_not_in_dec n : ch "/" ∉ show_dec n.
Proof.
  intros Hin. pose proof (show_radix_valid 10 false n ltac:(lia)) as Hv.
  rewrite Forall_forall in Hv. apply Hv in Hin as [? Hd]. by vm_compute in Hd.
Qed.

Lemma SingleLeasePort_display_inj p q s :
  0 <= single_number p → 0 <= single_number q →
  SingleLeasePort_display p ++ s = SingleLeasePort_display q ++ s → p = q.
Proof.
  intros Hp Hq E%(f_equal (find_char (ch "/"))).
  destruct p as [n|n], q as [m|m]; simpl in *; rewrite <- !app_assoc in E;
    change (lit "/TCP" ++ s) with (ch "/" :: (lit "TCP" ++ s)) in E;
    change (lit "/UDP" ++ s) with (ch "/" :: (lit "UDP" ++ s)) in E;
    rewrite !find_char_app in E by apply slash_not_in_dec; simplify_eq.
  all: f_equal; by eapply (show_radix_inj 10 false).
Qed.

Definition comment_prefix (addr : option IpAddr) : str :=
  match addr with Some addr => ip_display addr | None => lit "any" end.

Lemma gen_rule_comment_prefix addr port :
  find_char (ch "/") (gen_rule_comment addr port) =
    Some (comment_prefix addr, SingleLeasePort_display port ++ lit "/accept/letmein/GENERATED").
Proof.
  rewrite <- (find_char_app (ch "/") (comment_prefix addr)).
  - f_equal. unfold gen_rule_comment. destruct addr; [|done]. by rewrite <- app_assoc.
  - destruct addr as [a|]; simpl; [apply ip_display_no_char; by vm_compute|].
    apply (bool_decide_unpack _). by vm_compute.
Qed.

Lemma comment_prefix_inj a b : comment_prefix a = comment_prefix b → a = b.
Proof.
  assert (Hany : ∀ x, ip_display x ≠ lit "any").
  { intros x E. apply (ip_display_no_char (ch "n") x); [by vm_compute..|].
    rewrite E. apply (bool_decide_unpack _). by vm_compute. }
  destruct a as [a|], b as [b|]; simpl; intros E; [by apply ip_display_inj in E as ->|..|done].
  - by apply Hany in E.
  - symmetry in E. by apply Hany in E.
Qed.

Lemma gen_rule_comment_inj a p b q :
  0 <= single_number p → 0 <= single_number q →
  gen_rule_comment a p = gen_rule_comment b q → a = b ∧ p = q.
Proof.
  intros Hp Hq E%(f_equal (find_char (ch "/"))). rewrite !gen_rule_comment_prefix in E.
  injection E as Ea Ep. split; [by apply comment_prefix_inj|].
  by eapply SingleLeasePort_display_inj.
Qed.

(** ** Deleting by handle *)

Definition comment_of (t : IpAddr * SingleLeasePort) : option str := Some (gen_rule_comment (Some t.1) t.2).

Definition lookup_handle (objs : list NfObject) (names : NftNames) (t : IpAddr * SingleLeasePort) : res u32 :=
  find_handle objs (n_family names) (n_table names) (n_chain_input names) t.1 t.2.

Lemma find_handle_spec objs names t :
  match lookup_handle objs names t with
  | Ok h => ∃ r, ObjRule r ∈ objs ∧ ru_handle r = Some h ∧ in_chain names r = true ∧ ru_comment r = comment_of t
  | Err _ => ∀ r, ObjRule r ∈ objs → is_Some (ru_handle r) → in_chain names r = true → ru_comment r ≠ comment_of t
  | Panic _ => False
  end.
Proof.
  unfold lookup_handle. induction objs as [|o objs IH]; simpl; [by intros r ?%elem_of_nil|].
  destruct (find_handle objs _ _ _ _ _) as [h'|e|w] eqn:E; [..|done].
  - destruct IH as (r & Hr & Hrest).
    assert (Hskip : ∃ r0, ObjRule r0 ∈ o :: objs ∧ ru_handle r0 = Some h' ∧ in_chain names r0 = true ∧
      ru_comment r0 = comment_of t) by (exists r; split; [by right|done]).
    destruct o as [[f tb c ex [h|] [cm|]]|]; try done.
    destruct (_ && _) eqn:Hm; [|done].
    apply andb_true_iff in Hm as [Hc Hcm%bool_decide_eq_true]. subst cm.
    eexists. split; [by left|]. done.
  - assert (Hskip : ∀ r0, ru_comment r0 = None ∨ ru_handle r0 = None ∨ in_chain names r0 = false ∨
      ru_comment r0 ≠ comment_of t → o = ObjRule r0 → ∀ r, ObjRule r ∈ o :: objs → is_Some (ru_handle r) →
      in_chain names r = true → ru_comment r ≠ comment_of t).
    { intros r0 Hr0 -> r [[= ->]|Hin]%elem_of_cons Hh Hc; [|by apply IH].
      unfold comment_of in *. destruct Hr0 as [->|[Hn|[Hf|?]]]; [done| | |done].
      - rewrite Hn in Hh. by destruct Hh.
      - congruence. }
    destruct o as [[f tb c ex [h|] [cm|]]|]; try (eapply Hskip; [|reflexivity]; simpl; by eauto).
    + destruct (_ && _) eqn:Hm.
      * apply andb_true_iff in Hm as [Hc Hcm%bool_decide_eq_true]. subst cm.
        eexists. split; [by left|]. done.
      * eapply Hskip; [|reflexivity]. right; right. simpl. unfold comment_of, in_chain. simpl.
        apply andb_false_iff in Hm as [?|Hm%bool_decide_eq_false]; [by left|right; congruence].
    + intros r [?|Hin]%elem_of_cons; [done|by apply IH].
Qed.

Lemma elem_of_listed objs h r :
  ObjRule r ∈ objs → ru_handle r = Some h → view h r ∈ listed objs.
Proof.
  intros Hin Hh. apply list_elem_of_omap. exists (ObjRule r). split; [done|]. by rewrite Hh.
Qed.

Lemma elem_of_listed_inv objs v :
  v ∈ listed objs → ∃ h r, ObjRule r ∈ objs ∧ ru_handle r = Some h ∧ v = view h r.
Proof.
  intros ([r|] & Hin & Hv)%list_elem_of_omap; [|done].
  apply fmap_Some in Hv as (h & Hh & ->). by exists h, r.
Qed.

Lemma view_in_chain names h r h' r' : view h r = view h' r' → in_chain names r = in_chain names r'.
Proof. unfold view, in_chain. by intros [= -> -> -> -> _]. Qed.

(** In terms of the active rules that were listed. *)
Lemma lookup_handle_spec objs names t rs :
  listed objs ≡ₚ (λ hr, view hr.1 hr.2) <$> rs →
  match lookup_handle objs names t with
  | Ok h => ∃ r, (h, r) ∈ rs ∧ in_chain names r = true ∧ ru_comment r = comment_of t
  | Err _ => ∀ h r, (h, r) ∈ rs → in_chain names r = true → ru_comment r ≠ comment_of t
  | Panic _ => False
  end.
Proof.
  intros Hl. pose proof (find_handle_spec objs names t) as Hf.
  destruct (lookup_handle objs names t) as [h|e|w]; [..|done].
  - destruct Hf as (r & Hin & Hh & Hc & Hcm). eapply elem_of_listed in Hin; [|done].
    rewrite Hl in Hin. apply list_elem_of_fmap in Hin as ([h' r'] & Hv & Hin). simpl in Hv.
    pose proof (view_in_chain names _ _ _ _ Hv) as Hc'. unfold view in Hv.
    injection Hv as -> _ _ _ Hcm'. exists r'. split_and!; [done|congruence|congruence].
  - intros h r Hin Hc Hcm.
    assert (Hv : view h r ∈ listed objs) by (rewrite Hl; apply list_elem_of_fmap; by exists (h, r)).
    apply elem_of_listed_inv in Hv as (h' & r' & Hin' & Hh' & Hv).
    pose proof (view_in_chain names _ _ _ _ Hv) as Hc'. unfold view in Hv. injection Hv as _ _ _ _ Hcm'.
    apply (Hf r'); [done|by rewrite Hh'|congruence|congruence].
Qed.

Definition target_found (objs : list NfObject) (names : NftNames) (t : IpAddr * SingleLeasePort) : bool :=
  is_ok (lookup_handle objs names t).

Definition delete_batch (objs : list NfObject) (names : NftNames) (ts : list (IpAddr * SingleLeasePort))
    : list NfCmd :=
  ts ≫= (λ t, push_found (delete_cmd objs names t.1 t.2)).

Lemma delete_cmds_targets conf names objs leases :
  NftNames_get conf = Ok names →
  delete_cmds conf objs leases = Ok (delete_batch objs names (leases ≫= targets)).
Proof.
  intros Hn. unfold delete_cmds, delete_batch.
  assert (Hg : ∀ l, gen_delete_lease_cmds objs conf l =
    Ok (targets l ≫= (λ t, push_found (delete_cmd objs names t.1 t.2)))).
  { intros l. unfold gen_delete_lease_cmds, targets. rewrite Hn. simpl.
    destruct (l_port l); simpl; by rewrite ?app_nil_r. }
  assert (Ha : ∀ acc, foldM (λ (cmds : list NfCmd) l, cs ← gen_delete_lease_cmds objs conf l; Ok (cmds ++ cs)) acc leases =
    Ok (acc ++ ((leases ≫= targets) ≫= (λ t, push_found (delete_cmd objs names t.1 t.2)))));
    [|by rewrite Ha].
  induction leases as [|l leases IH]; intros acc; simpl; [by rewrite app_nil_r|].
  rewrite Hg. simpl. rewrite IH. by rewrite bind_app, app_assoc.
Qed.

Lemma delete_batch_exec objs names ts rs0 rs rs' :
  listed objs ≡ₚ (λ hr, view hr.1 hr.2) <$> rs0 →
  NoDup ((λ hr, (hr.1, ru_family hr.2, ru_table hr.2)) <$> rs0) →
  (∀ x, x ∈ rs → x ∈ rs0) →
  nft_batch (delete_batch objs names ts) rs rs' →
  ∃ removed, rs ≡ₚ removed ++ rs' ∧
    Forall2 (λ (x : u32 * Rule) t, in_chain names x.2 = true ∧ ru_comment x.2 = comment_of t)
      removed (List.filter (target_found objs names) ts).
Proof.
  intros Hl Hnd. revert rs. induction ts as [|t ts IH]; intros rs Hsub Hb; simpl.
  - inversion Hb; subst. by exists [].
  - pose proof (lookup_handle_spec objs names t rs0 Hl) as Ht. unfold target_found at 1.
    unfold delete_batch in Hb. simpl in Hb. unfold delete_cmd in Hb at 1.
    unfold lookup_handle in *. revert Ht Hb.
    destruct (find_handle objs _ _ _ _ _) as [h|e|w]; intros Ht Hb; [|by apply IH|done].
    simpl in Hb. inversion Hb as [|c cs ? rs1 ? Hs Hb']; subst. clear Hb.
    inversion Hs as [|r h' r' rs2 rs3 Hh Hc|]; subst. simpl in Hh. injection Hh as <-.
    apply IH in Hb' as (removed & Hp & Hf).
    2:{ intros x Hx. apply Hsub. rewrite !elem_of_app, elem_of_cons in *. naive_solver. }
    exists ((h, r') :: removed). split.
    + rewrite <- Permutation_middle, Hp. done.
    + constructor; [|done]. simpl. destruct Ht as (r & Hin & Hcr & Hcm).
      assert (Hin' : (h, r') ∈ rs0) by (apply Hsub; set_solver).
      assert (Hc' : in_chain names r' = true) by exact (Is_true_true_1 _ Hc). split; [done|].
      assert (r' = r) as ->; [|done].
      unfold in_chain in *.
      repeat match goal with E : _ && _ = true |- _ => apply andb_true_iff in E as [E ?%bool_decide_eq_true] end.
      repeat match goal with E : bool_decide _ = true |- _ => apply bool_decide_eq_true in E end.
      apply list_elem_of_lookup in Hin as [i Hi]. apply list_elem_of_lookup in Hin' as [j Hj].
      assert (i = j) as ->; [|by simplify_eq].
      eapply (NoDup_lookup _ _ _ (h, n_family names, n_table names) Hnd);
        rewrite list_lookup_fmap; [rewrite Hi|rewrite Hj]; simpl; congruence.
Qed.

(** ** The leases in memory *)

Definition all_targets (leases : LeaseMap) : list (IpAddr * SingleLeasePort) :=
  (map_to_list leases).*2 ≫= targets.

(** A lease the firewall may hold: its address is supported by the family, its port is not the
    control port, and the protocols of the port are those that [kind] assigns to its number (every
    port number is configured for one resource, which determines the protocols). *)
Record lease_ok (conf : Config) (names : NftNames) (kind : u16 → LeasePort) (l : Lease) : Prop := {
  lo_supported : supported (n_family names) (l_addr l) = true;
  lo_kind : kind (lease_port_number (l_port l)) = l_port l;
  lo_number : 0 <= lease_port_number (l_port l);
  lo_not_control : lease_port_number (l_port l) ≠ cp_port (c_port conf);
}.

Definition leases_ok (conf : Config) (names : NftNames) (kind : u16 → LeasePort) (leases : LeaseMap) : Prop :=
  map_Forall (λ id l, id = (l_addr l, l_port l) ∧ lease_ok conf names kind l) leases.

Lemma elem_of_all_targets leases t :
  t ∈ all_targets leases ↔ ∃ id l, leases !! id = Some l ∧ t ∈ targets l.
Proof.
  unfold all_targets. rewrite list_elem_of_bind. setoid_rewrite list_elem_of_fmap. split.
  - intros (l & Ht & ([id l'] & -> & Hin%elem_of_map_to_list)). by exists id, l'.
  - intros (id & l & Hl & Ht). exists l. split; [done|]. exists (id, l). by rewrite elem_of_map_to_list.
Qed.

Lemma elem_of_targets l t :
  t ∈ targets l ↔ t.1 = l_addr l ∧ t.2 ∈ singles (l_port l).
Proof.
  unfold targets. rewrite list_elem_of_fmap. destruct t as [a p]; simpl. naive_solver.
Qed.

Lemma singles_number p port : p ∈ singles port → single_number p = lease_port_number port.
Proof.
  destruct port; simpl;
    repeat (rewrite elem_of_cons || rewrite elem_of_nil); naive_solver.
Qed.

Section targets.
Context (conf : Config) (names : NftNames) (kind : u16 → LeasePort).

Lemma targets_disjoint l1 l2 t :
  kind (lease_port_number (l_port l1)) = l_port l1 → kind (lease_port_number (l_port l2)) = l_port l2 →
  t ∈ targets l1 → t ∈ targets l2 → l_addr l1 = l_addr l2 ∧ l_port l1 = l_port l2.
Proof.
  intros Hl1 Hl2 [Ha1 Hp1]%elem_of_targets [Ha2 Hp2]%elem_of_targets. split; [congruence|].
  rewrite <- Hl1, <- Hl2. f_equal.
  by rewrite <- (singles_number _ _ Hp1), <- (singles_number _ _ Hp2).
Qed.

Lemma all_targets_number leases t :
  leases_ok conf names kind leases → t ∈ all_targets leases → 0 <= single_number t.2.
Proof.
  intros Hl (id & l & [_ Hok]%Hl & [_ Ht%singles_number]%elem_of_targets)%elem_of_all_targets.
  rewrite Ht. by apply Hok.
Qed.

Lemma expected_rules_targets fw :
  fw_shutdown fw = false →
  expected_rules conf names fw = ctrl_rules conf names ++ (target_rule names <$> all_targets (fw_leases fw)).
Proof.
  intros Hs. unfold expected_rules, all_targets. rewrite Hs. f_equal.
  generalize (map_to_list (fw_leases fw)).*2. intros ls. induction ls as [|l ls IH]; [done|].
  rewrite !bind_cons, fmap_app, IH. done.
Qed.

Lemma all_targets_insert leases id l :
  leases !! id = None → all_targets (<[id := l]> leases) ≡ₚ targets l ++ all_targets leases.
Proof. intros Hid. unfold all_targets. by rewrite map_to_list_insert. Qed.

Lemma all_targets_delete leases id l :
  leases !! id = Some l → all_targets leases ≡ₚ targets l ++ all_targets (delete id leases).
Proof. intros Hid. unfold all_targets. by rewrite <- (map_to_list_delete leases id l). Qed.

Lemma all_targets_refresh leases id l l' :
  leases !! id = Some l → targets l' = targets l → all_targets (<[id := l']> leases) ≡ₚ all_targets leases.
Proof.
  intros Hid Ht. rewrite <- insert_delete_eq, all_targets_insert by apply lookup_delete_eq.
  by rewrite Ht, <- all_targets_delete.
Qed.

Lemma map_to_list_filter_perm (leases : LeaseMap) (P : LeaseId * Lease → Prop) `{∀ x, Decision (P x)} :
  map_to_list (filter P leases) ≡ₚ filter P (map_to_list leases).
Proof.
  apply NoDup_Permutation; [apply NoDup_map_to_list|apply NoDup_filter, NoDup_map_to_list|].
  intros [id l]. rewrite elem_of_map_to_list, list_elem_of_filter, elem_of_map_to_list, map_lookup_filter_Some.
  tauto.
Qed.

(** Pruning splits the leases. *)
Lemma prune_spec `{HashOrder} now leases pruned rest :
  prune_all_lease_timeouts now leases = (pruned, rest) →
  all_targets leases ≡ₚ (pruned ≫= targets) ++ all_targets rest ∧
  rest = filter (λ kl, is_timed_out kl.2 now = false) leases ∧
  (∀ l, l ∈ pruned → ∃ id, leases !! id = Some l ∧ is_timed_out l now = true).
Proof.
  unfold prune_all_lease_timeouts. intros [= <- <-]. split_and!; [|done|].
  - unfold all_targets. rewrite map_to_list_filter_perm, <- (hash_iter_perm leases).
    generalize (hash_iter leases). intros ls. induction ls as [|[id l] ls IH]; [done|].
    rewrite !fmap_cons. simpl List.filter. destruct (is_timed_out l now) eqn:E.
    + rewrite filter_cons_False by (simpl; congruence). by rewrite !bind_cons, IH, app_assoc.
    + rewrite filter_cons_True by done. rewrite fmap_cons, !bind_cons, IH, !app_assoc.
      f_equiv. apply Permutation_app_comm.
  - intros l [Hin Ht]%list_elem_of_In%filter_In. apply list_elem_of_In, list_elem_of_fmap in Hin as ([id l'] & -> & Hin).
    exists id. by rewrite elem_of_hash_iter in Hin.
Qed.

End targets.

(** ** The effect of batches *)

Lemma chain_rules_cons names h r rs :
  chain_rules names ((h, r) :: rs) = if in_chain names r then r :: chain_rules names rs else chain_rules names rs.
Proof.
  unfold chain_rules. destruct (in_chain names r) eqn:E.
  - by rewrite filter_cons_True.
  - rewrite filter_cons_False; [done|]. simpl. congruence.
Qed.

Lemma chain_rules_app names rs1 rs2 :
  chain_rules names (rs1 ++ rs2) = chain_rules names rs1 ++ chain_rules names rs2.
Proof. unfold chain_rules. by rewrite filter_app, fmap_app. Qed.

Lemma chain_rules_all names (rs : active) :
  Forall (λ x, in_chain names x.2 = true) rs → chain_rules names rs = rs.*2.
Proof. induction 1 as [|[h r] rs Hr _ IH]; [done|]. rewrite chain_rules_cons. simpl in *. by rewrite Hr, IH. Qed.

Lemma elem_of_chain_rules names rs r :
  r ∈ chain_rules names rs ↔ ∃ h, (h, r) ∈ rs ∧ in_chain names r = true.
Proof.
  unfold chain_rules. rewrite list_elem_of_fmap. setoid_rewrite list_elem_of_filter. split.
  - intros ([h r'] & -> & Hr & Hin). by exists h.
  - intros (h & Hin & Hr). by exists (h, r).
Qed.

Lemma add_batch_exec names (l : list Rule) rs rs' :
  Forall (λ r, in_chain names r = true) l → nft_batch (AddRule <$> l) rs rs' →
  chain_rules names rs' ≡ₚ l ++ chain_rules names rs.
Proof.
  intros Hl. revert rs. induction Hl as [|r l Hr Hl IH]; intros rs Hb; [by inversion Hb|].
  rewrite fmap_cons in Hb. inversion Hb as [|? ? ? rs1 ? Hs Hb']; subst. inversion Hs; subst.
  rewrite (IH _ Hb'), chain_rules_cons, Hr. symmetry. apply Permutation_middle.
Qed.

Lemma flush_exec names rs rs' :
  nft_step (FlushChain (n_family names) (n_table names) (n_chain_input names)) rs rs' →
  chain_rules names rs' = [].
Proof.
  inversion 1; subst. destruct names as [f t c]; simpl in *. unfold chain_rules.
  rewrite list_filter_filter. clear. induction rs as [|[h r] rs IH]; [done|].
  rewrite filter_cons_False; [done|]. simpl. by intros [-> ?].
Qed.

Lemma target_rule_inj names t1 t2 :
  0 <= single_number t1.2 → 0 <= single_number t2.2 →
  ru_comment (target_rule names t1) = comment_of t2 → t1 = t2.
Proof.
  intros H1 H2 [= E]. apply gen_rule_comment_inj in E as [Ea Ep]; [|done..].
  destruct t1, t2; simpl in *. congruence.
Qed.

Lemma ctrl_rule_comment conf names r t : r ∈ ctrl_rules conf names → ru_comment r ≠ comment_of t.
Proof.
  intros Hr [= E]. assert (∃ p, r = rule_of names None p) as [p ->].
  { unfold ctrl_rules in Hr. destruct (cp_tcp (c_port conf)), (cp_udp (c_port conf));
      simpl in Hr; repeat (apply elem_of_cons in Hr as [->|Hr]; [eauto|]); by apply elem_of_nil in Hr. }
  simpl in E. injection E as E. apply (f_equal (find_char 47)) in E.
  rewrite !gen_rule_comment_prefix in E. injection E as E _.
  by apply (comment_prefix_inj None (Some t.1)) in E.
Qed.

Section remove.
Context (conf : Config) (names : NftNames) (all : list (IpAddr * SingleLeasePort)).

(** Deleting the rules of some targets, when the chain holds the rules of the targets [all]: the
    rules of those targets among [all] are removed, and nothing else. *)
Lemma remove_exact objs ts rs rs' :
  listed objs ≡ₚ (λ hr, view hr.1 hr.2) <$> rs →
  NoDup ((λ hr, (hr.1, ru_family hr.2, ru_table hr.2)) <$> rs) →
  chain_rules names rs ≡ₚ ctrl_rules conf names ++ (target_rule names <$> all) →
  (∀ t, t ∈ ts ++ all → 0 <= single_number t.2) →
  nft_batch (delete_batch objs names ts) rs rs' →
  chain_rules names rs ≡ₚ (target_rule names <$> filter (.∈ all) ts) ++ chain_rules names rs'.
Proof.
  intros Hl Hnd Hch Hnum Hb.
  assert (Hrule : ∀ h r t, t ∈ ts → (h, r) ∈ rs → in_chain names r = true → ru_comment r = comment_of t →
    t ∈ all ∧ r = target_rule names t).
  { intros h r t Ht Hin Hc Hcm.
    assert (Hr : r ∈ chain_rules names rs) by (apply elem_of_chain_rules; eauto).
    rewrite Hch in Hr. apply elem_of_app in Hr as [Hr|Hr]; [by eapply ctrl_rule_comment in Hr|].
    apply list_elem_of_fmap in Hr as (t' & -> & Ht'). apply target_rule_inj in Hcm as ->; [done|..];
      apply Hnum; set_solver. }
  assert (Hfound : ∀ t, t ∈ ts → target_found objs names t = bool_decide (t ∈ all)).
  { intros t Ht. unfold target_found. pose proof (lookup_handle_spec objs names t rs Hl) as Hs.
    destruct (lookup_handle objs names t) as [h|e|w]; [..|done].
    - destruct Hs as (r & Hin & Hc & Hcm). symmetry. apply bool_decide_eq_true. by eapply Hrule.
    - symmetry. apply bool_decide_eq_false. intros Hall.
      assert (Hr : target_rule names t ∈ chain_rules names rs).
      { rewrite Hch. apply elem_of_app. right. by apply list_elem_of_fmap_2. }
      apply elem_of_chain_rules in Hr as (h & Hin & Hc). by apply (Hs h _ Hin Hc). }
  destruct (delete_batch_exec _ _ _ _ _ _ Hl Hnd (λ x Hx, Hx) Hb) as (removed & Hp & Hf).
  assert (Hflt : List.filter (target_found objs names) ts = filter (.∈ all) ts).
  { clear Hb Hf Hrule Hnum. induction ts as [|t ts' IH]; [done|]. simpl.
    rewrite Hfound, IH by (by left || (intros; apply Hfound; by right)).
    rewrite filter_cons. by case_bool_decide; destruct (decide _). }
  rewrite Hflt in Hf.
  assert (Hrem : removed.*2 = target_rule names <$> filter (.∈ all) ts).
  { assert (Hsub : ∀ x, x ∈ removed → x ∈ rs) by (intros; rewrite Hp; set_solver).
    assert (Hts : ∀ t, t ∈ filter (.∈ all) ts → t ∈ ts) by (intros t [_ ?]%list_elem_of_filter; done).
    clear Hflt Hp Hb. induction Hf as [|[h r] t removed ts' [Hc Hcm] Hf IH]; [done|].
    rewrite !fmap_cons. f_equal.
    - eapply Hrule; [apply Hts; by left|apply Hsub; by left|done|done].
    - apply IH; [intros; apply Hsub; by right|intros; apply Hts; by right]. }
  rewrite <- Hrem, Hp, chain_rules_app. f_equiv. rewrite chain_rules_all; [done|].
  clear -Hf. induction Hf as [|x t removed ts' [Hc _] _ IH]; by constructor.
Qed.

End remove.
