(* ===== verification/Batches.v ===== *)
(** * Which commands the firewall hands to [nft]

    Every operation of [Nftables.v], on every path and with every answer of the system, only flushes
    its own chain, deletes rules of its own chain, and adds the rules of the control port and of
    leases that have been granted. The predicate on commands is a parameter: NftOps.v takes what
    stays inside of the chain, SystemSafe.v what adds authentic rules. *)

From S2P Require Import Prelude Prog Str FwProto Addr Ini Conf Nftables NftSpec.
Local Open Scope Z_scope.

(** Every command of every batch satisfies [P]. *)
Definition batches_ok (P : NfCmd → Prop) (_ : history fw_iface) (c : cmd fw_iface) : Prop :=
  match (c : fw_cmd) with FApply _ batch => Forall P batch | _ => True end.

(** What a program does to the rules, from what its commands do: [Rel] relates the active rules
    before and after. *)
Section exec_batches.
Context `{K : NftKernel} (P : NfCmd → Prop) (Rel : relation active).
Hypothesis Hperm : ∀ rs rs', rs ≡ₚ rs' → Rel rs rs'.
Hypothesis Htrans : Transitive Rel.
Hypothesis Hstep : ∀ c rs rs', P c → nft_step c rs rs' → Rel rs rs'.

Lemma nft_batch_rel batch rs rs' : Forall P batch → nft_batch batch rs rs' → Rel rs rs'.
Proof using Hperm Htrans Hstep.
  intros Hb Hs. induction Hs as [rs|c cs rs rs1 rs2 Hs _ IH]; [by apply Hperm|].
  apply Forall_cons in Hb as [Hc Hcs]. etransitivity; [by eapply Hstep|by apply IH].
Qed.

Lemma kernel_allows_rel t c x rs rs' : batches_ok P t c → kernel_allows c x rs rs' → Rel rs rs'.
Proof using Hperm Htrans Hstep.
  intros Hc. destruct c as [| | | |exe batch]; simpl; [intros Hp..|].
  1-3: by apply Hperm.
  - by apply Hperm, (symmetry (proj1 Hp)).
  - destruct x as [[]|e|w]; [intros (rs1 & Hb & Hp)|intros Hp|done]; [|by apply Hperm].
    etransitivity; [by eapply nft_batch_rel|by apply Hperm].
Qed.

Lemma exec_batches {R} (Q : R → Prop) t (p : prog fw_iface R) k r k' :
  wp (batches_ok P) (λ _, Q) t p → exec kstep k p r k' → Q r ∧ Rel (krules k) (krules k').
Proof using Hperm Htrans Hstep.
  revert t k. induction p as [a|c f IH]; intros t k Hw He.
  - apply exec_ret_inv in He as [-> ->]. split; [exact Hw|by apply Hperm].
  - apply exec_vis_inv in He as (x & k1 & Hs & He). destruct Hw as [Hc Hf].
    destruct (IH x _ _ (Hf x) He) as [Hr Hx]. split; [done|]. etransitivity; [|exact Hx].
    by eapply kernel_allows_rel, kstep_rules.
Qed.

End exec_batches.

Section granted.
Context `{HO : HashOrder} (conf : Config) (names : NftNames).
Hypothesis Hnames : NftNames_get conf = Ok names.

(** [G id]: a lease for this address and port has been granted. *)
Context (G : LeaseId → Prop) (P : NfCmd → Prop).

Definition allowed_rule (r : Rule) : Prop :=
  r ∈ ctrl_rules conf names ∨
  ∃ addr port p, G (addr, port) ∧ p ∈ singles port ∧ r = target_rule names (addr, p).

Definition leases_granted (fw : NftFirewall) : Prop :=
  map_Forall (λ id l, id = (l_addr l, l_port l) ∧ G id) (fw_leases fw).

Record commands_ok : Prop := {
  co_flush : P (FlushChain (n_family names) (n_table names) (n_chain_input names));
  co_delete r : chain_of r = names → P (DeleteRule r);
  co_add r : in_chain names r = true → allowed_rule r → P (AddRule r);
}.
Hypothesis HP : commands_ok.

Abbreviation ok_cmd := (batches_ok P).
Abbreviation wpg := (wpm ok_cmd).
Implicit Types (fw : NftFirewall) (t : history fw_iface).

Lemma lease_cmds_granted l cmds :
  G (l_addr l, l_port l) → gen_add_lease_cmds conf l = Ok cmds → Forall P cmds.
Proof using Hnames HP.
  intros Hg. rewrite (gen_add_lease_cmds_spec conf names Hnames). destruct (supported _ _); [|done].
  intros [= <-]. apply Forall_fmap, Forall_forall. intros r Hr.
  apply (co_add HP); [pose proof (lease_rules_in_chain names l) as Hin; rewrite Forall_forall in Hin; by apply Hin|]. right.
  apply list_elem_of_fmap in Hr as ([a p] & -> & [Ha Hp]%elem_of_targets).
  simpl in *. subst a. by exists (l_addr l), (l_port l), p.
Qed.

Lemma all_lease_cmds_granted fw cmds :
  leases_granted fw → all_lease_cmds conf (fw_leases fw) = Ok cmds → Forall P cmds.
Proof using Hnames HP.
  intros Hl. unfold all_lease_cmds.
  assert (Hin : ∀ kl, kl ∈ hash_iter (fw_leases fw) → G (l_addr kl.2, l_port kl.2)).
  { intros [id l] Hin%elem_of_hash_iter. destruct (Hl _ _ Hin) as [-> ?]. done. }
  revert Hin. generalize (hash_iter (fw_leases fw)) ([] : list NfCmd) (Forall_nil_2 P).
  intros ls. induction ls as [|kl ls IH]; intros acc Hacc Hin; simpl; [by intros [= <-]|].
  destruct (gen_add_lease_cmds conf kl.2) as [cs|e|w] eqn:E; [|done..]. apply IH.
  - apply Forall_app. split; [done|]. eapply lease_cmds_granted, E. apply Hin. by left.
  - intros kl' Hkl'. apply Hin. by right.
Qed.

(** The methods: what they leave in memory is granted, and they add only allowed rules. *)

Lemma wpg_call {A} (Q : history fw_iface → res A → NftFirewall → Prop) t (c : cmd fw_iface) (f : _ → fw_method A) fw :
  ok_cmd t c → (∀ t' x, wpg Q t' (f x) fw) → wpg Q t (method_bind (mcall c) f) fw.
Proof. intros Hc HQ. apply wpm_bind. unfold wpm, mcall. simpl. split; [done|]. intros x. apply HQ. Qed.

Lemma wpg_apply_batch Q t batch fw :
  Forall P batch → (∀ t' r, Q t' r fw) → wpg Q t (nftables_apply_batch conf batch) fw.
Proof. intros Hb HQ. apply wpg_call; [done|]. intros t' x. apply HQ. Qed.

Lemma wpg_from_kernel Q t fw : (∀ t' r, Q t' r fw) → wpg Q t (from_kernel conf) fw.
Proof. intros HQ. apply wpg_call; [done|]. intros t1 _. apply wpg_call; [done|]. intros t2 x. apply HQ. Qed.

Lemma wpg_remove_leases Q t ls fw : (∀ t' r, Q t' r fw) → wpg Q t (nftables_remove_leases conf ls) fw.
Proof using Hnames HP.
  intros HQ. unfold nftables_remove_leases. case_bool_decide; [apply HQ|].
  wpm_step. apply wpg_from_kernel. intros t1 r1.
  assert (Hm : wpg Q t1 (match r1 with
      | Ok objs => let! batch := mret (delete_cmds conf objs ls) in
          mtry (nftables_apply_batch conf batch) (λ r, mret (ignore_in_debug conf r))
      | Err e => mret (ignore_in_debug conf (Err e))
      | Panic w => mret (Panic w)
      end)%prog fw); [|by destruct r1].
  destruct r1 as [objs|e|w]; [|apply HQ..].
  rewrite (delete_cmds_targets _ _ _ _ Hnames). wpm_step. wpm_step. wpm_step. apply wpg_apply_batch.
  - unfold delete_batch. apply Forall_bind, Forall_forall. intros x _. unfold delete_cmd, push_found.
    simpl. destruct (find_handle _ _ _ _ _ _); repeat constructor. apply (co_delete HP). by destruct names.
  - intros t2 [[]|e|w]; apply HQ.
Qed.

Lemma wpg_add_ctrl_rule Q t (b : bool) port fw :
  (b = true → rule_of names None port ∈ ctrl_rules conf names) →
  (∀ cmds fw', Forall P cmds → fw_leases fw' = fw_leases fw → Q t (Ok cmds) fw') →
  wpg Q t (add_ctrl_rule conf b port) fw.
Proof using Hnames HP.
  intros Hb HQ. unfold add_ctrl_rule. destruct b; [|by apply HQ].
  rewrite (gen_add_lease_cmd_spec conf names Hnames). do 5 wpm_step. apply HQ; [|done].
  apply Forall_singleton, (co_add HP); [apply in_chain_rule|left; by apply Hb].
Qed.

Lemma wpg_full_rebuild Q t fw :
  leases_granted fw → (∀ t' r fw', leases_granted fw' → Q t' r fw') → wpg Q t (nftables_full_rebuild conf) fw.
Proof using Hnames HP.
  intros Hl HQ. unfold nftables_full_rebuild. rewrite Hnames. simpl context. do 7 wpm_step.
  set (Qc := λ t' (r : res (list NfCmd)) fw', leases_granted fw' ∧
    match r with Ok cmds => Forall P cmds | _ => True end).
  assert (Hc : wpg Qc t (if fw_shutdown (set_num_ctrl_rules 0 fw) then mret (Ok [])
     else
       let! tcp := add_ctrl_rule conf (cp_tcp (c_port conf)) (SlpTcp (cp_port (c_port conf))) in
       let! udp := add_ctrl_rule conf (cp_udp (c_port conf)) (SlpUdp (cp_port (c_port conf))) in
       let! cs := mret (all_lease_cmds conf (fw_leases (set_num_ctrl_rules 0 fw))) in
       mret (Ok (tcp ++ udp ++ cs)))%prog (set_num_ctrl_rules 0 fw)).
  { destruct (fw_shutdown _); [by split; [|constructor]|].
    wpm_step. apply wpg_add_ctrl_rule; [intros E; unfold ctrl_rules; rewrite E; set_solver|]. intros c1 fw1 Hc1 E1.
    wpm_step. apply wpg_add_ctrl_rule; [intros E; unfold ctrl_rules; rewrite E; set_solver|]. intros c2 fw2 Hc2 E2.
    assert (Hl2 : leases_granted fw2) by (unfold leases_granted; by rewrite E2, E1).
    wpm_step. wpm_step. destruct (all_lease_cmds conf _) as [cs|e|w] eqn:E; [|done..].
    wpm_step. split; [done|]. apply Forall_app. split; [done|]. apply Forall_app. split; [done|].
    eapply all_lease_cmds_granted, E. exact Hl. }
  revert Hc. apply wpm_mono. intros t' [cmds|e|w] fw' [Hl' Hcmds]; [|by apply HQ..].
  apply wpg_apply_batch; [constructor; [apply HP|done]|]. intros t2 r. by apply HQ.
Qed.

Lemma wpg_assert_running {A} (Q : history fw_iface → res A → NftFirewall → Prop) t (f : () → fw_method A) fw :
  (∀ e, Q t (Err e) fw) → (∀ w, Q t (Panic w) fw) → wpg Q t (f ()) fw →
  wpg Q t (method_bind assert_running f) fw.
Proof.
  intros He Hw Hf. wpm_step. unfold assert_running. wpm_step. wpm_step. wpm_step.
  by destruct (assert _ _) as [[]|e|w].
Qed.

(** Post: whatever is in memory is granted. *)
Abbreviation granted_after := (λ (_ : history fw_iface) (_ : res ()) fw', leases_granted fw').

Lemma wpg_new_timeout t d (Q : history fw_iface → res Lease → NftFirewall → Prop) (p : Instant → Lease) fw :
  (∀ t' e, Q t' (Err e) fw) → (∀ t' w, Q t' (Panic w) fw) → (∀ t' x, Q t' (Ok (p x)) fw) →
  wpg Q t (mlift (let* now := call (FNow : cmd fw_iface) in
    Ret (timeout ← instant_add now d; Ok (p timeout)))%prog) fw.
Proof.
  intros He Hw Hok. wpm_step. simpl. split; [done|]. intros x. by destruct (instant_add _ _); simpl.
Qed.

Lemma wpg_open_port t addr port fw :
  G (addr, port) → leases_granted fw → wpg granted_after t (open_port conf addr port) fw.
Proof using Hnames HP.
  intros Hg Hl. unfold open_port. apply wpg_assert_running; [done..|]. wpm_step. wpm_step.
  assert (Hins : ∀ x, leases_granted (set_leases <[(addr, port) := MkLease addr port x]> fw)).
  { intros x. by apply map_Forall_insert_2. }
  destruct (fw_leases fw !! (addr, port)) as [l|] eqn:E.
  - destruct (Hl _ _ E) as [[= -> ->] _]. wpm_step. apply wpg_new_timeout; [done..|]. intros t' x. apply Hins.
  - wpm_step. unfold Lease_new. destruct (_ =? _); [done|]. apply wpg_new_timeout; [done..|]. intros t' x.
    wpm_step. unfold nftables_add_lease. wpm_step. wpm_step.
    destruct (gen_add_lease_cmds conf _) as [cmds|e|w] eqn:Ec; [|done..].
    apply wpg_apply_batch; [by eapply lease_cmds_granted, Ec|]. intros t2 [[]|e|w]; [apply Hins|done..].
Qed.

Lemma wpg_close_port t addr port fw : leases_granted fw → wpg granted_after t (close_port conf addr port) fw.
Proof using Hnames HP.
  intros Hl. unfold close_port. apply wpg_assert_running; [done..|]. wpm_step. wpm_step.
  destruct (fw_leases fw !! (addr, port)) as [l|] eqn:E.
  - wpm_step. wpm_step. apply wpg_remove_leases. intros t' r id l' Hid. simpl in Hid.
    apply lookup_delete_Some in Hid as [_ ?]. by apply Hl.
  - wpm_step. unfold Lease_new. destruct (_ =? _); [done|]. apply wpg_new_timeout; [done..|]. intros t' x.
    by apply wpg_remove_leases.
Qed.

Lemma wpg_maintain t fw : leases_granted fw → wpg granted_after t (maintain conf) fw.
Proof using Hnames HP.
  intros Hl. unfold maintain. apply wpg_assert_running; [done..|]. apply wpg_call; [done|]. intros t1 now.
  wpm_step. wpm_step. destruct (prune_all_lease_timeouts now (fw_leases fw)) as [pruned rest] eqn:E.
  apply prune_spec in E as (_ & -> & _). wpm_step. wpm_step.
  assert (Hl' : leases_granted (set_leases (λ _, filter (λ kl, is_timed_out kl.2 now = false) (fw_leases fw)) fw)).
  { intros id l [Hid _]%map_lookup_filter_Some. by apply Hl. }
  case_bool_decide; [done|]. wpm_step. apply wpg_remove_leases. intros t2 [[]|e|w]; [done| |done].
  by apply wpg_full_rebuild.
Qed.

Lemma wpg_shutdown t fw : leases_granted fw → wpg granted_after t (shutdown conf) fw.
Proof using Hnames HP.
  intros Hl. unfold shutdown. apply wpg_assert_running; [done..|]. do 4 wpm_step.
  by apply wpg_full_rebuild.
Qed.

End granted.

(** Of this kind are the commands that keep to the chain: they leave the rules of all others alone. *)
Definition cmd_local (names : NftNames) (c : NfCmd) : Prop :=
  match c with
  | AddRule r => in_chain names r = true
  | DeleteRule r => chain_of r = names
  | FlushChain f t c => MkNftNames f t c = names
  end.

Lemma cmd_local_ok conf names G : commands_ok conf names G (cmd_local names).
Proof. split; simpl; [by destruct names|done|done]. Qed.

Lemma nft_step_foreign names c rs rs' :
  cmd_local names c → nft_step c rs rs' → foreign names rs ≡ₚ foreign names rs'.
Proof.
  intros Hc Hs. unfold foreign. destruct Hs as [r h rs|r h r' rs1 rs2 _ Hin|f t c rs]; simpl in Hc; subst.
  - rewrite filter_cons_False; [done|]. simpl. congruence.
  - rewrite !filter_app, filter_cons_False; [done|]. simpl. apply Is_true_true in Hin. congruence.
  - rewrite list_filter_filter. apply reflexive_eq, list_filter_iff. intros x. tauto.
Qed.

Lemma exec_foreign `{K : NftKernel} {R} names t (p : prog fw_iface R) k r k' :
  wp (batches_ok (cmd_local names)) (λ _ _, True) t p → exec kstep k p r k' →
  foreign names (krules k) ≡ₚ foreign names (krules k').
Proof.
  intros Hw He. refine (proj2 (exec_batches (cmd_local names) (λ rs rs', foreign names rs ≡ₚ foreign names rs')
    _ _ (nft_step_foreign names) (λ _, True) t p k r k' Hw He)).
  - intros rs rs' Hp. unfold foreign. by rewrite Hp.
  - intros rs1 rs2 rs3. apply transitivity.
Qed.
