(* ===== verification/NftOps.v ===== *)
(** * The operations of the firewall

    The relation between the leases in memory and the rules in the kernel, and what every operation
    of [Nftables.v] does to both, against any kernel that behaves as documented. A removal that [nft]
    refuses leaves rules behind that no lease stands for any more: these are the stale rules. *)

From S2P Require Import Prelude Prog Str FwProto Addr Ini Conf Nftables NftSpec Batches.
Local Open Scope Z_scope.

(** ** The methods, executed against the kernel *)

Section methods.
Context `{HO : HashOrder} `{K : NftKernel} (conf : Config) (names : NftNames).
Hypothesis Hnames : NftNames_get conf = Ok names.
Implicit Types (fw : NftFirewall) (k : kstate).

Definition chain_at k : list Rule := chain_rules names (krules k).

Lemma exec_apply_batch batch fw k r fw' k' :
  exec kstep k (nftables_apply_batch conf batch fw) (r, fw') k' →
  fw' = fw ∧ kclock k <= kclock k' ∧
  match r with
  | Ok _ => ∃ rs, nft_batch batch (krules k) rs ∧ krules k' ≡ₚ rs
  | Err _ => krules k' ≡ₚ krules k
  | Panic _ => False
  end ∧
  ∀ e, r = Err e → ∃ e', kstep k (FApply (c_nft_exe conf) batch) (Err e') k'.
Proof.
  unfold nftables_apply_batch. intros He. repeat inv_exec_step.
  match goal with Hs : kstep _ (FApply _ _) ?x _ |- _ =>
    pose proof (kstep_rules _ _ _ _ Hs) as Hr; pose proof (kstep_clock _ _ _ _ Hs);
    simpl in Hr; destruct x; by eauto end.
Qed.

Lemma exec_from_kernel fw k r fw' k' :
  exec kstep k (from_kernel conf fw) (r, fw') k' →
  fw' = fw ∧ kclock k <= kclock k' ∧ krules k' ≡ₚ krules k ∧
  match r with
  | Ok objs => listed objs ≡ₚ (λ hr, view hr.1 hr.2) <$> krules k'
  | Err _ => True
  | Panic _ => False
  end.
Proof.
  unfold from_kernel. intros He. repeat inv_exec_step.
  match goal with Hs : kstep _ (FSpawnList _) _ _, Hl : kstep _ (FList _) ?x _ |- _ =>
    pose proof (kstep_rules _ _ _ _ Hs) as Hr1; pose proof (kstep_clock _ _ _ _ Hs);
    pose proof (kstep_rules _ _ _ _ Hl) as [Hr2 Hr3]; pose proof (kstep_clock _ _ _ _ Hl);
    simpl in Hr1 end.
  split_and!; [done|lia|by rewrite Hr2, Hr1|].
  repeat case_match; simplify_eq; try done. by rewrite Hr3, Hr2.
Qed.

(** Removing leases. In debug mode a failure is reported as a success. *)
Lemma exec_remove_leases all ls fw k r fw' k' :
  chain_at k ≡ₚ ctrl_rules conf names ++ (target_rule names <$> all) →
  (∀ t, t ∈ (ls ≫= targets) ++ all → 0 <= single_number t.2) →
  exec kstep k (nftables_remove_leases conf ls fw) (r, fw') k' →
  fw' = fw ∧ kclock k <= kclock k' ∧ no_panic r ∧
  (chain_at k' ≡ₚ chain_at k ∧ (is_err r ∨ c_debug conf = true ∨ ls = []) ∨
   r = Ok () ∧
   chain_at k ≡ₚ (target_rule names <$> filter (.∈ all) (ls ≫= targets)) ++ chain_at k').
Proof using Hnames.
  intros Hch Hnum. unfold nftables_remove_leases.
  case_bool_decide as Hls.
  { intros He. repeat inv_exec_step. split_and!; [done|lia|done|]. left. by eauto. }
  intros He. repeat inv_exec_step.
  match goal with Hf : exec _ _ (from_kernel _ _) _ _ |- _ =>
    apply exec_from_kernel in Hf as (-> & Hck & Hrs & Hl) end.
  match goal with Hf : match ?x with _ => _ end |- _ => destruct x as [objs|e|w]; [..|done] end.
  2:{ repeat inv_exec_step. unfold ignore_in_debug, chain_at. destruct (c_debug conf); simpl.
      all: split_and!; [done|done|done|]; left; rewrite Hrs; by eauto. }
  rewrite (delete_cmds_targets _ _ _ _ Hnames) in He. repeat inv_exec_step.
  match goal with Ha : exec _ _ (nftables_apply_batch _ _ _) _ _ |- _ =>
    apply exec_apply_batch in Ha as (-> & Hck' & Hb & _) end.
  match goal with Hb : match ?x with _ => _ end |- _ => destruct x as [[]|e|w]; [..|done] end;
    repeat inv_exec_step; (split_and!; [done|lia|try done|]).
  - right. split; [done|]. destruct Hb as (rs & Hb & Hp). unfold chain_at in *.
    rewrite <- Hrs in Hch |- *. rewrite Hp. by eapply remove_exact, Hb; [exact Hl|apply krules_handles|..].
  - by destruct (c_debug conf).
  - left. unfold chain_at. rewrite Hb, Hrs. split; [done|]. simpl. destruct (c_debug conf); by eauto.
Qed.


Lemma expected_rules_in_chain fw : Forall (λ r, in_chain names r = true) (expected_rules conf names fw).
Proof.
  unfold expected_rules. destruct (fw_shutdown fw); [constructor|]. apply Forall_app. split.
  - unfold ctrl_rules. destruct (cp_tcp (c_port conf)), (cp_udp (c_port conf)); repeat constructor; apply in_chain_rule.
  - apply Forall_bind, Forall_forall. intros l _. unfold lease_rules. apply Forall_fmap, Forall_forall.
    intros t _. apply in_chain_rule.
Qed.

Definition leases_supported (leases : LeaseMap) : Prop :=
  map_Forall (λ _ l, supported (n_family names) (l_addr l) = true) leases.

Lemma all_lease_cmds_ok leases :
  leases_supported leases →
  ∃ rules, all_lease_cmds conf leases = Ok (AddRule <$> rules) ∧
    rules ≡ₚ target_rule names <$> all_targets leases.
Proof using Hnames.
  intros Hl. exists ((hash_iter leases).*2 ≫= lease_rules names). split.
  - assert (Hs : ∀ kl, kl ∈ hash_iter leases → supported (n_family names) (l_addr kl.2) = true).
    { intros [id l] Hin%elem_of_hash_iter. by eapply Hl. }
    unfold all_lease_cmds. revert Hs. generalize (hash_iter leases). intros ls Hs.
    assert (Hg : ∀ acc, foldM (λ (cmds : list NfCmd) (kl : LeaseId * Lease),
      cs ← gen_add_lease_cmds conf kl.2; Ok (cmds ++ cs)) acc ls =
      Ok (acc ++ (AddRule <$> (ls.*2 ≫= lease_rules names)))); [|by rewrite Hg].
    induction ls as [|kl ls IH]; intros acc; simpl; [by rewrite app_nil_r|].
    rewrite (gen_add_lease_cmds_spec conf names Hnames), Hs by (by left). simpl.
    rewrite IH by (intros; apply Hs; by right). by rewrite fmap_app, app_assoc.
  - unfold all_targets. rewrite (hash_iter_perm leases). generalize (map_to_list leases).*2.
    intros ls. induction ls as [|l ls IH]; [done|]. rewrite !bind_cons, fmap_app, IH. done.
Qed.

Definition ctrl_count : Z := Z.of_nat (length (ctrl_rules conf names)).

Lemma exec_add_ctrl_rule enabled port fw k r fw' k' :
  exec kstep k (add_ctrl_rule conf enabled port fw) (r, fw') k' →
  k' = k ∧ r = Ok (AddRule <$> if enabled then [rule_of names None port] else []) ∧
  fw' = set_num_ctrl_rules (fw_num_ctrl_rules fw + if enabled then 1 else 0) fw.
Proof using Hnames.
  unfold add_ctrl_rule. destruct enabled; intros He; repeat inv_exec_step.
  - rewrite (gen_add_lease_cmd_spec conf names Hnames) in He. simpl in He. by repeat inv_exec_step.
  - split_and!; [done|done|]. rewrite Z.add_0_r. match goal with |- ?x = _ => by destruct x end.
Qed.

(** [nft] has refused to replace the rules of the chain by those that [fw] asks for: the last thing
    that happened before [k']. *)
Definition rebuild_refused fw k' : Prop :=
  ∃ k rules e, rules ≡ₚ expected_rules conf names fw ∧
    kstep k (FApply (c_nft_exe conf) (FlushChain (n_family names) (n_table names) (n_chain_input names) :: (AddRule <$> rules)))
      (Err e) k'.

Lemma rebuild_refused_ext fw fw' k :
  fw_leases fw' = fw_leases fw → fw_shutdown fw' = fw_shutdown fw → rebuild_refused fw k → rebuild_refused fw' k.
Proof.
  intros Hl Hs (k1 & rules & e1 & Hrules & Hk). exists k1, rules, e1. split; [|exact Hk].
  rewrite Hrules. unfold expected_rules. by rewrite Hl, Hs.
Qed.

(** The full rebuild makes the chain exact, whatever it held before. *)
Lemma exec_full_rebuild fw k r fw' k' :
  leases_supported (fw_leases fw) →
  exec kstep k (nftables_full_rebuild conf fw) (r, fw') k' →
  kclock k <= kclock k' ∧ fw_leases fw' = fw_leases fw ∧ fw_shutdown fw' = fw_shutdown fw ∧
  fw_num_ctrl_rules fw' = (if fw_shutdown fw then 0 else ctrl_count) ∧
  match r with
  | Ok _ => chain_at k' ≡ₚ expected_rules conf names fw
  | Err _ => chain_at k' ≡ₚ chain_at k ∧ rebuild_refused fw k'
  | Panic _ => False
  end.
Proof using Hnames.
  intros Hl. unfold nftables_full_rebuild. rewrite Hnames. intros He. simpl context in He.
  repeat inv_exec_step.
  match goal with Hc : exec _ _ ((if ?b then _ else _) _) (?r, ?s) ?t |- _ =>
    assert (∃ rules, r = Ok (AddRule <$> rules) ∧ rules ≡ₚ expected_rules conf names fw ∧ t = k ∧
      s = set_num_ctrl_rules (if b then 0 else ctrl_count) fw) as (rules & -> & Hrules & -> & ->) end.
  { destruct (fw_shutdown fw) eqn:Hs; repeat inv_exec_step.
    { exists []. unfold expected_rules. by rewrite Hs. }
    repeat match goal with Ha : exec _ _ (add_ctrl_rule _ _ _ _) _ _ |- _ =>
      apply exec_add_ctrl_rule in Ha as (-> & -> & ->); repeat inv_exec_step end.
    destruct (all_lease_cmds_ok (fw_leases fw) Hl) as (rules & Hcs & Hp). simpl in *.
    repeat match goal with Hm : match all_lease_cmds _ _ with _ => _ end |- _ => rewrite Hcs in Hm end.
    repeat inv_exec_step.
    exists (ctrl_rules conf names ++ rules). split_and!; [| |done|].
    - unfold ctrl_rules. by rewrite !fmap_app, <- app_assoc.
    - by rewrite (expected_rules_targets _ _ _ Hs), Hp.
    - unfold ctrl_count, ctrl_rules, set_num_ctrl_rules. f_equal. simpl.
      by destruct (cp_tcp (c_port conf)), (cp_udp (c_port conf)). }
  apply exec_apply_batch in He as (-> & Hck & Hb & Hrefused). split_and!; [done|done|done|done|].
  destruct r as [[]|e|w]; [|split; [unfold chain_at; by rewrite Hb|]|done].
  2:{ destruct (Hrefused e eq_refl) as [e' Hs]. by exists k, rules, e'. }
  destruct Hb as (rs & Hb & Hp). inversion Hb as [|? ? ? rs1 ? Hf Hb']; subst.
  apply flush_exec in Hf. unfold chain_at. apply (add_batch_exec names) in Hb'.
  - by rewrite Hp, Hb', Hf, app_nil_r, Hrules.
  - rewrite Hrules. apply expected_rules_in_chain.
Qed.


(** ** The relation between the leases and the kernel *)

Context (kind : u16 → LeasePort).

Record fw_inv fw k : Prop := {
  fi_running : fw_shutdown fw = false;
  fi_leases : leases_ok conf names kind (fw_leases fw);
  fi_count : fw_num_ctrl_rules fw = ctrl_count;
  fi_chain : chain_at k ≡ₚ expected_rules conf names fw;
}.

(** The same with rules for targets that no lease stands for any more. *)
Record fw_inv_stale (stale : list (IpAddr * SingleLeasePort)) fw k : Prop := {
  fs_running : fw_shutdown fw = false;
  fs_leases : leases_ok conf names kind (fw_leases fw);
  fs_count : fw_num_ctrl_rules fw = ctrl_count;
  fs_stale : Forall (λ t, 0 <= single_number t.2) stale;
  fs_chain : chain_at k ≡ₚ ctrl_rules conf names ++ (target_rule names <$> all_targets (fw_leases fw) ++ stale);
}.

(** A port that a client of the firewall may ask for. *)
Record port_ok (port : LeasePort) : Prop := {
  po_kind : kind (lease_port_number port) = port;
  po_number : 0 <= lease_port_number port;
  po_not_control : lease_port_number port ≠ cp_port (c_port conf);
}.

Lemma leases_ok_supported leases : leases_ok conf names kind leases → leases_supported leases.
Proof. intros Hl id l Hid. apply Hl in Hid as [_ Hok]. apply Hok. Qed.

Lemma fw_inv_chain fw k :
  fw_inv fw k → chain_at k ≡ₚ ctrl_rules conf names ++ (target_rule names <$> all_targets (fw_leases fw)).
Proof. intros Hi. rewrite (fi_chain _ _ Hi). by rewrite expected_rules_targets by apply Hi. Qed.

Lemma fw_inv_no_stale fw k : fw_inv fw k ↔ fw_inv_stale [] fw k.
Proof.
  split; [intros [Hr ? ? Hch]|intros [Hr ? ? ? Hch]]; split; try done.
  - by rewrite app_nil_r, Hch, (expected_rules_targets _ _ _ Hr).
  - by rewrite Hch, (expected_rules_targets _ _ _ Hr), app_nil_r.
Qed.

Lemma fw_inv_chain_eq fw k k' : fw_inv fw k → chain_at k' ≡ₚ chain_at k → fw_inv fw k'.
Proof. intros [? ? ? Hch] Heq. split; [done..|]. by rewrite Heq. Qed.

Lemma fw_inv_stale_chain_eq stale fw k k' : fw_inv_stale stale fw k → chain_at k' ≡ₚ chain_at k → fw_inv_stale stale fw k'.
Proof. intros [? ? ? ? Hch] Heq. split; [done..|]. by rewrite Heq. Qed.

(** The rules of the chain, by their targets. *)
Lemma fw_inv_stale_numbers stale fw k t :
  fw_inv_stale stale fw k → t ∈ all_targets (fw_leases fw) ++ stale → 0 <= single_number t.2.
Proof.
  intros [_ Hl _ Hs _] [Ht|Ht]%elem_of_app; [by eapply (all_targets_number conf names kind)|].
  rewrite Forall_forall in Hs. by apply Hs.
Qed.

Lemma target_rule_in_chain stale fw k t :
  fw_inv_stale stale fw k → 0 <= single_number t.2 →
  target_rule names t ∈ chain_at k ↔ t ∈ all_targets (fw_leases fw) ++ stale.
Proof.
  intros Hi Ht. rewrite (fs_chain _ _ _ Hi), elem_of_app, list_elem_of_fmap. split.
  - intros [Hc|(t' & E & Hin)]; [by apply (ctrl_rule_comment conf names _ t) in Hc|].
    assert (Hn : 0 <= single_number t'.2) by (by eapply fw_inv_stale_numbers).
    enough (t = t') as -> by done. apply (target_rule_inj names); [done|done|]. by rewrite E.
  - intros Hin. right. by exists t.
Qed.

(** ** The operations *)

Lemma exec_assert_running fw k r fw' k' :
  fw_shutdown fw = false → exec kstep k (assert_running fw) (r, fw') k' → r = Ok () ∧ fw' = fw ∧ k' = k.
Proof. unfold assert_running. intros Hs He. repeat inv_exec_step. by rewrite Hs. Qed.

Lemma exec_now_timeout (d : Z) k now k' :
  kstep k FNow now k' →
  chain_at k' ≡ₚ chain_at k ∧ kclock k <= kclock k' ∧ kclock k <= now <= kclock k' ∧
  (instant_add now d = Ok (now + d) ∨
   ∃ w, instant_add now d = Panic w ∧ instant_max <= kclock k' + d).
Proof.
  intros Hs. pose proof (kstep_rules _ _ _ _ Hs) as Hr. pose proof (kstep_clock _ _ _ _ Hs).
  pose proof (kstep_now _ _ _ Hs). simpl in Hr. unfold chain_at. rewrite Hr. unfold instant_add.
  destruct (Z.ltb_spec (now + d) instant_max); split_and!; try done; try lia; [by left|right].
  eexists. split; [done|lia].
Qed.

Lemma exec_open_port_stale stale addr port fw k r fw' k' :
  fw_inv_stale stale fw k → port_ok port →
  exec kstep k (open_port conf addr port fw) (r, fw') k' →
  match r with
  | Ok _ => fw_inv_stale stale fw' k' ∧ ∃ now, kclock k <= now <= kclock k' ∧
      fw' = set_leases <[(addr, port) := MkLease addr port (now + c_nft_timeout conf)]> fw
  | Err _ => fw_inv_stale stale fw k' ∧ fw' = fw
  | Panic _ => instant_max <= kclock k' + c_nft_timeout conf
  end.
Proof using Hnames.
  intros Hi [Hk Hn Hc]. unfold open_port. intros He. repeat inv_exec_step.
  match goal with Ha : exec _ _ (assert_running _) _ _ |- _ =>
    apply exec_assert_running in Ha as (-> & -> & ->); [|apply Hi] end.
  repeat inv_exec_step. destruct (fw_leases fw !! (addr, port)) as [l|] eqn:Hl.
  - (* refresh *)
    repeat inv_exec_step. unfold refresh_timeout in *. repeat inv_exec_step.
    match goal with Hs : kstep _ FNow ?now _ |- _ =>
      apply (exec_now_timeout (c_nft_timeout conf)) in Hs as (Hch & Hck & Hnow & [Ht|(w & Ht & Hov)]) end;
      rewrite Ht in He; simpl in He; repeat inv_exec_step; [|done].
    destruct (fs_leases _ _ _ Hi _ _ Hl) as [[= -> ->] Hok].
    split; [|eexists; split; [exact Hnow|done]]. destruct Hi as [Hr Hls Hcnt Hst Hchain].
    split; [done| |done|done|].
    + apply map_Forall_insert_2; [|done]. split; [done|]. by destruct Hok.
    + rewrite Hch, Hchain. simpl. by rewrite (all_targets_refresh _ _ _ _ Hl).
  - (* new lease *)
    repeat inv_exec_step. unfold Lease_new in *.
    rewrite (proj2 (Z.eqb_neq _ _)) in * by congruence. repeat inv_exec_step.
    match goal with Hs : kstep _ FNow ?now _ |- _ =>
      apply (exec_now_timeout (c_nft_timeout conf)) in Hs as (Hch & Hck & Hnow & [Ht|(w & Ht & Hov)]) end;
      rewrite Ht in He; simpl in He; repeat inv_exec_step; [|done].
    unfold nftables_add_lease in *.
    rewrite (gen_add_lease_cmds_spec conf names Hnames) in *. simpl in *.
    destruct (supported (n_family names) addr) eqn:Hsup; repeat inv_exec_step.
    2:{ split; [by eapply fw_inv_stale_chain_eq|done]. }
    match goal with Ha : exec _ _ (nftables_apply_batch _ _ _) _ _ |- _ =>
      apply exec_apply_batch in Ha as (-> & Hck' & Hb & _) end.
    match goal with Hb : match ?x with _ => _ end |- _ => destruct x as [[]|e|w]; [..|done] end;
      repeat inv_exec_step.
    2:{ split; [|done]. eapply fw_inv_stale_chain_eq; [done|]. unfold chain_at in *. by rewrite Hb. }
    split; [|exists a; split; [lia|done]].
    destruct Hb as (rs & Hb & Hp). destruct Hi as [Hr Hls Hcnt Hst Hchain]. split; [done| |done|done|].
    + apply map_Forall_insert_2; [|done]. done.
    + apply (add_batch_exec names) in Hb; [|apply lease_rules_in_chain].
      unfold chain_at in *. rewrite Hp, Hb, Hch, Hchain. simpl.
      rewrite all_targets_insert by done. rewrite <- app_assoc, (fmap_app _ (targets _)), !app_assoc.
      f_equiv. apply Permutation_app_comm.
Qed.

(** Removing leases, and dropping them from memory. On a failure (in debug mode it is reported as a
    success) their rules become stale. *)
Definition removal_failed {A} (r : res A) : Prop := is_err r ∨ c_debug conf = true.

Lemma exec_remove_members stale ls leases' fw fw1 k r fw' k' :
  fw_inv_stale stale fw k → ls ≠ [] →
  leases_ok conf names kind leases' →
  all_targets (fw_leases fw) ≡ₚ (ls ≫= targets) ++ all_targets leases' →
  fw1 = set_leases (λ _, leases') fw →
  exec kstep k (nftables_remove_leases conf ls fw1) (r, fw') k' →
  fw' = fw1 ∧ kclock k <= kclock k' ∧ no_panic r ∧
  (r = Ok () ∧ fw_inv_stale stale fw' k' ∨
   removal_failed r ∧ chain_at k' ≡ₚ chain_at k ∧ fw_inv_stale ((ls ≫= targets) ++ stale) fw' k').
Proof using Hnames.
  intros Hi Hls Hok Hall -> He.
  assert (Hall' : all_targets (fw_leases fw) ++ stale ≡ₚ (ls ≫= targets) ++ all_targets leases' ++ stale)
    by (by rewrite Hall, <- app_assoc).
  pose proof (λ t, fw_inv_stale_numbers _ _ _ t Hi) as Hnum. pose proof (fs_chain _ _ _ Hi) as Hchain.
  revert Hall' Hnum Hchain He. generalize (all_targets (fw_leases fw) ++ stale). intros all Hall' Hnum Hchain He.
  apply (exec_remove_leases all) in He as (-> & Hck & Hnp & Heff); [|done|].
  2:{ intros t Ht. apply Hnum. rewrite Hall' in Ht |- *. set_solver. }
  destruct Hi as [Hr Hl Hcnt Hst _]. split_and!; [done..|].
  destruct Heff as [[Hch Hfail]|[-> Hch]]; [right|left; split; [done|]].
  - split_and!; [by destruct Hfail as [?|[?|?]]; [left|right|]|done|]. split; [done|done|done| |].
    + apply Forall_forall. intros t Ht. apply Hnum. rewrite Hall'. set_solver.
    + rewrite Hch, Hchain, Hall'. simpl. by rewrite (Permutation_app_swap_app (ls ≫= targets)).
  - rewrite filter_all_id in Hch by (intros t Ht; rewrite Hall'; set_solver).
    split; [done|done|done|done|]. simpl. rewrite Hchain, Hall', (fmap_app _ (ls ≫= targets)) in Hch.
    apply (Permutation_app_inv_l (target_rule names <$> (ls ≫= targets))). rewrite <- Hch.
    by rewrite Permutation_app_swap_app.
Qed.

(** What becomes of the stale rules when the port [port] is closed for [addr]: without a lease, the
    operation looks for rules all the same. *)
Definition close_stale (fw : NftFirewall) (addr : IpAddr) (port : LeasePort)
    (stale stale' : list (IpAddr * SingleLeasePort)) : Prop :=
  let ts := (λ p, (addr, p)) <$> singles port in
  match fw_leases fw !! (addr, port) with Some _ => stale' = stale | None => stale ≡ₚ filter (.∈ stale) ts ++ stale' end.

Definition close_lost (fw : NftFirewall) (addr : IpAddr) (port : LeasePort) : list (IpAddr * SingleLeasePort) :=
  match fw_leases fw !! (addr, port) with Some _ => (λ p, (addr, p)) <$> singles port | None => [] end.

Lemma target_numbers ls all :
  (∀ l, l ∈ ls → 0 <= lease_port_number (l_port l)) → (∀ t, t ∈ all → 0 <= single_number t.2) →
  ∀ t, t ∈ (ls ≫= targets) ++ all → 0 <= single_number t.2.
Proof.
  intros Hl Ha t [(l & [_ ->%singles_number]%elem_of_targets & Hin)%list_elem_of_bind|Hin]%elem_of_app;
    [by apply Hl|by apply Ha].
Qed.

Lemma exec_close_port_stale stale addr port fw k r fw' k' :
  fw_inv_stale stale fw k → port_ok port →
  exec kstep k (close_port conf addr port fw) (r, fw') k' →
  kclock k <= kclock k' ∧
  ((∃ w, r = Panic w) ∧ instant_max <= kclock k' + c_nft_timeout conf ∨
   no_panic r ∧ fw' = set_leases (delete (addr, port)) fw ∧
   (r = Ok () ∧ (∃ stale', close_stale fw addr port stale stale' ∧ fw_inv_stale stale' fw' k') ∨
    removal_failed r ∧ chain_at k' ≡ₚ chain_at k ∧ fw_inv_stale (close_lost fw addr port ++ stale) fw' k')).
Proof using Hnames.
  intros Hi [Hk Hn Hc]. unfold close_port. intros He. repeat inv_exec_step.
  match goal with Ha : exec _ _ (assert_running _) _ _ |- _ =>
    apply exec_assert_running in Ha as (-> & -> & ->); [|apply Hi] end.
  repeat inv_exec_step. unfold close_stale, close_lost.
  destruct (fw_leases fw !! (addr, port)) as [l|] eqn:Hl; repeat inv_exec_step.
  - destruct (fs_leases _ _ _ Hi _ _ Hl) as [[= -> ->] Hok].
    eapply (exec_remove_members stale [l] (delete (l_addr l, l_port l) (fw_leases fw)) fw) in He
      as (-> & Hck & Hnp & Heff); [|done..| | |done].
    + split; [done|]. right. split_and!; [done..|]. rewrite bind_single in Heff. fold (targets l).
      destruct Heff as [[-> ?]|?]; [left|by right]. split; [done|]. by exists stale.
    + intros id l' [_ Hid]%lookup_delete_Some. by apply (fs_leases _ _ _ Hi).
    + rewrite bind_single. by apply all_targets_delete.
  - unfold Lease_new in *. rewrite (proj2 (Z.eqb_neq _ _)) in * by congruence. repeat inv_exec_step.
    match goal with Hs : kstep _ FNow ?now _ |- _ =>
      apply (exec_now_timeout (c_nft_timeout conf)) in Hs as (Hch & Hck & Hnow & [Ht|(w & Ht & Hov)]) end;
      rewrite Ht in He; simpl in He; repeat inv_exec_step; [|split; [lia|left; by eauto]].
    match goal with Hr : exec _ ?t (nftables_remove_leases _ _ _) _ _ |- _ =>
      assert (Hi' : fw_inv_stale stale fw t) by (by eapply fw_inv_stale_chain_eq) end.
    set (l := MkLease addr port (a + c_nft_timeout conf)) in *.
    assert (Hfw : set_leases (delete (addr, port)) fw = fw).
    { destruct fw as [ls ? ?]. unfold set_leases. simpl in *. by rewrite delete_id. }
    assert (Hnot : ∀ t, t ∈ targets l → t ∉ all_targets (fw_leases fw)).
    { intros t Ht' (id & l2 & Hl2 & Ht2)%elem_of_all_targets. destruct (fs_leases _ _ _ Hi _ _ Hl2) as [-> Hok2].
      destruct (targets_disjoint kind l l2 t) as [Ea Ep]; [done|by apply Hok2|done|done|]. simpl in Ea, Ep. congruence. }
    apply (exec_remove_leases (all_targets (fw_leases fw) ++ stale)) in He as (-> & Hck' & Hnp & Heff); [|apply Hi'|].
    2:{ apply target_numbers; [by intros l' ->%list_elem_of_singleton|].
        intros t. by apply fw_inv_stale_numbers with (k := k). }
    split; [lia|right]. rewrite Hfw. split_and!; [done..|].
    destruct Heff as [[Hsame Hfail]|[-> Heff]]; [right|left; split; [done|]].
    + split_and!; [by destruct Hfail as [?|[?|?]]; [left|right|]|by rewrite Hsame|]. simpl.
      by eapply fw_inv_stale_chain_eq.
    + rewrite bind_single in Heff. fold (targets l).
      assert (Hflt : filter (.∈ all_targets (fw_leases fw) ++ stale) (targets l) = filter (.∈ stale) (targets l)).
      { apply filter_ext_in. intros t Ht'. rewrite elem_of_app. naive_solver. }
      rewrite Hflt in Heff. destruct (filter_in_submseteq (targets l) stale) as [stale' Hst'].
      { apply NoDup_fmap_2; [by intros ?? [= ?]|apply singles_NoDup]. }
      exists stale'. split; [done|]. destruct Hi' as [Hr2 Hl2 Hcnt2 Hst2 Hchain2]. split; [done..| |].
      * rewrite Hst', Forall_app in Hst2. apply Hst2.
      * apply (Permutation_app_inv_l (target_rule names <$> filter (.∈ stale) (targets l))).
        rewrite <- Heff, Hchain2. rewrite Hst' at 1. rewrite !fmap_app.
        rewrite (Permutation_app_swap_app (target_rule names <$> filter _ _) (ctrl_rules conf names)). f_equiv.
        by rewrite (Permutation_app_swap_app (target_rule names <$> all_targets _)).
Qed.

Definition live (now : Instant) (leases : LeaseMap) : LeaseMap :=
  filter (λ kl, is_timed_out kl.2 now = false) leases.

(** The maintenance drops exactly the leases that have timed out. If removing their rules fails, it
    rebuilds the chain; an error means that [nft] has refused that as well. *)
Lemma exec_maintain_stale stale fw k r fw' k' :
  fw_inv_stale stale fw k →
  exec kstep k (maintain conf fw) (r, fw') k' →
  kclock k <= kclock k' ∧ ∃ now, kclock k <= now <= kclock k' ∧ fw_leases fw' = live now (fw_leases fw) ∧ no_panic r ∧
  (r = Ok () ∧ (fw_inv_stale stale fw' k' ∨ fw_inv_stale [] fw' k') ∨
   removal_failed r ∧ chain_at k' ≡ₚ chain_at k ∧ (is_err r → rebuild_refused fw' k') ∧
   ∃ lost, all_targets (fw_leases fw) ≡ₚ lost ++ all_targets (fw_leases fw') ∧ fw_inv_stale (lost ++ stale) fw' k').
Proof using Hnames.
  intros Hi. unfold maintain. intros He. repeat inv_exec_step.
  match goal with Ha : exec _ _ (assert_running _) _ _ |- _ =>
    apply exec_assert_running in Ha as (-> & -> & ->); [|apply Hi] end.
  repeat inv_exec_step.
  match goal with Hs : kstep _ FNow ?now _ |- _ =>
    apply (exec_now_timeout 0) in Hs as (Hch & Hck & Hnow & _) end.
  rename x into now. pose proof (prune_spec now (fw_leases fw) _ _ eq_refl) as (Hall & _ & _).
  fold (live now (fw_leases fw)) in *.
  set (pruned := List.filter (λ l, is_timed_out l now) (hash_iter (fw_leases fw)).*2) in *.
  assert (Hok : leases_ok conf names kind (live now (fw_leases fw))).
  { intros id l [Hid _]%map_lookup_filter_Some. by apply (fs_leases _ _ _ Hi). }
  assert (Hi1 : fw_inv_stale stale fw t) by (by eapply fw_inv_stale_chain_eq).
  case_bool_decide as Hnil; repeat inv_exec_step.
  { split; [done|]. exists now. split_and!; [lia|lia|done|done|]. left. split; [done|left].
    destruct Hi1 as [Hr Hl Hcnt Hst Hchain]. split; [done..|]. rewrite Hnil in Hall. simpl in *. by rewrite Hchain, Hall. }
  match goal with Hx : exec _ _ (nftables_remove_leases _ _ _) _ _ |- _ =>
    eapply (exec_remove_members stale _ (live now (fw_leases fw)) fw) in Hx
      as (-> & Hck1 & Hnp & Heff); [|done..] end.
  match goal with Hx : no_panic ?x |- _ => destruct x as [[]|e|w]; [..|done] end; repeat inv_exec_step.
  - split; [lia|]. exists now. split_and!; [lia|lia|done|done|]. destruct Heff as [[_ Hs]|(Hf & Hch1 & Hs)]; [by left; auto|right].
    split_and!; [done|by rewrite Hch1, Hch|by intros []|]. by exists (pruned ≫= targets).
  - destruct Heff as [[? _]|(_ & Hch1 & Hs)]; [done|]. apply exec_full_rebuild in He as (Hck2 & Hl' & Hs' & Hcnt' & Hr');
      [|by eapply leases_ok_supported].
    split; [lia|]. exists now. simpl in *. destruct Hs as [Hrun2 _ _ Hst2 Hchain2]. simpl in *. rewrite Hrun2 in Hcnt'.
    split_and!; [lia|lia|done|by destruct r|].
    destruct r as [[]|e'|w']; [left; split; [done|right]|right|done].
    + split; [congruence|by rewrite Hl'|done|constructor|]. rewrite Hr', expected_rules_targets by done.
      by rewrite Hl', app_nil_r.
    + destruct Hr' as [Hr' Href]. split_and!; [by left|by rewrite Hr', Hch1, Hch| |].
      * intros _. by eapply rebuild_refused_ext, Href.
      * exists (pruned ≫= targets). split; [by rewrite Hl'|].
        split; [congruence|by rewrite Hl'|done|done|]. by rewrite Hr', Hchain2, Hl'.
Qed.

(** ** Without stale rules

    They arise only if removing rules has failed. *)

Lemma exec_open_port addr port fw k r fw' k' :
  fw_inv fw k → port_ok port →
  exec kstep k (open_port conf addr port fw) (r, fw') k' →
  match r with
  | Ok _ => fw_inv fw' k' ∧ ∃ now, kclock k <= now <= kclock k' ∧
      fw' = set_leases <[(addr, port) := MkLease addr port (now + c_nft_timeout conf)]> fw
  | Err _ => fw_inv fw k' ∧ fw' = fw
  | Panic _ => instant_max <= kclock k' + c_nft_timeout conf
  end.
Proof using Hnames.
  rewrite fw_inv_no_stale. intros Hi Hp He. apply (exec_open_port_stale []) in He; [|done..].
  destruct r; by rewrite ?fw_inv_no_stale.
Qed.

Lemma no_removal_failed {A} (r : res A) : removal_failed r → c_debug conf = false → is_err r.
Proof. intros [?|?]; [done|congruence]. Qed.

Lemma exec_close_port addr port fw k r fw' k' :
  fw_inv fw k → port_ok port → c_debug conf = false →
  exec kstep k (close_port conf addr port fw) (r, fw') k' →
  kclock k <= kclock k' ∧
  match r with
  | Ok _ => fw_inv fw' k' ∧ fw' = set_leases (delete (addr, port)) fw
  | Err _ => chain_at k' ≡ₚ chain_at k ∧ fw' = set_leases (delete (addr, port)) fw
  | Panic _ => instant_max <= kclock k' + c_nft_timeout conf
  end.
Proof using Hnames.
  rewrite fw_inv_no_stale. intros Hi Hp Hd He. eapply exec_close_port_stale in He as [Hck He]; [|done..]. split; [done|].
  destruct He as [[[w ->] ?]|(Hnp & Efw & [[-> (stale' & Hst & Hi')]|(Hf & Hch & _)])]; [done| |].
  - split; [|done]. apply fw_inv_no_stale. unfold close_stale in Hst.
    destruct (fw_leases fw !! (addr, port)); [by subst|].
    apply Permutation_nil_l in Hst. symmetry in Hst. by apply app_eq_nil in Hst as [_ ->].
  - pose proof (no_removal_failed _ Hf Hd). by destruct r.
Qed.

Lemma exec_maintain fw k r fw' k' :
  fw_inv fw k → c_debug conf = false →
  exec kstep k (maintain conf fw) (r, fw') k' →
  kclock k <= kclock k' ∧ ∃ now, kclock k <= now <= kclock k' ∧ fw_leases fw' = live now (fw_leases fw) ∧
  match r with
  | Ok _ => fw_inv fw' k'
  | Err _ => chain_at k' ≡ₚ chain_at k
  | Panic _ => False
  end.
Proof using Hnames.
  rewrite !fw_inv_no_stale. intros Hi Hd He. apply (exec_maintain_stale []) in He as (Hck & now & Hnow & Hl & Hnp & He); [|done].
  split; [done|]. exists now. split_and!; [lia|lia|done|]. destruct He as [[-> He]|(Hf & Hch & _)]; [apply fw_inv_no_stale; by destruct He|].
  pose proof (no_removal_failed _ Hf Hd). by destruct r.
Qed.

(** The chain need not agree with the leases. *)
Lemma exec_shutdown fw k r fw' k' :
  fw_shutdown fw = false →
  exec kstep k (shutdown conf fw) (r, fw') k' →
  fw_leases fw' = ∅ ∧ fw_shutdown fw' = true ∧
  match r with
  | Ok _ => chain_at k' = []
  | Err _ => chain_at k' ≡ₚ chain_at k ∧ rebuild_refused fw' k'
  | Panic _ => False
  end.
Proof using Hnames.
  intros Hi. unfold shutdown. intros He. repeat inv_exec_step.
  match goal with Ha : exec _ _ (assert_running _) _ _ |- _ =>
    apply exec_assert_running in Ha as (-> & -> & ->); [|exact Hi] end.
  repeat inv_exec_step. apply exec_full_rebuild in He as (Hck & Hl' & Hs' & _ & Hr);
    [|by intros ???; simplify_map_eq].
  split_and!; [done|done|]. destruct r; [by apply Permutation_nil_r in Hr| |done].
  split; [apply Hr|]. eapply rebuild_refused_ext, Hr; done.
Qed.

Lemma exec_new k r k' :
  exec kstep k (NftFirewall_new conf) r k' →
  kclock k <= kclock k' ∧
  match r with
  | Ok fw => fw_inv fw k' ∧ fw_leases fw = ∅
  | Err _ => chain_at k' ≡ₚ chain_at k
  | Panic _ => False
  end.
Proof using Hnames.
  unfold NftFirewall_new. intros He. repeat inv_exec_step.
  match goal with Hs : kstep _ (FHelp _) ?x _ |- _ =>
    pose proof (kstep_rules _ _ _ _ Hs) as Hh; pose proof (kstep_clock _ _ _ _ Hs) as Hck;
    simpl in Hh; destruct x; simpl in He end; repeat inv_exec_step.
  2:{ split; [done|]. unfold chain_at. by rewrite Hh. }
  match goal with Hx : exec _ _ (nftables_full_rebuild _ _) ?p _ |- _ => destruct p as [r1 fw1];
    apply exec_full_rebuild in Hx as (Hck' & Hl' & Hs' & Hcnt & Hr1);
    [|by intros ???; simplify_map_eq] end.
  repeat inv_exec_step. split; [lia|]. destruct r1 as [[]|e|w]; simpl in *; [|unfold chain_at in *; destruct Hr1 as [Hr1 _]; by rewrite Hr1, Hh|done].
  split; [|done]. split; [done| |done|].
  - rewrite Hl'. by intros ???; simplify_map_eq.
  - rewrite Hr1. unfold expected_rules. by rewrite Hs', Hl'.
Qed.

(** ** Other chains

    Whatever the outcome, the rules of all other chains are as before. *)

Lemma fw_inv_granted fw k : fw_inv fw k → leases_granted (λ _, True) fw.
Proof. intros Hi. eapply map_Forall_impl; [apply (fi_leases _ _ Hi)|]. by intros id l [-> _]. Qed.

Lemma exec_method_foreign {A} (m : fw_method A) (Q : history fw_iface → res A → NftFirewall → Prop) fw k r fw' k' :
  wpm (batches_ok (cmd_local names)) Q [] m fw → exec kstep k (m fw) (r, fw') k' →
  foreign names (krules k) ≡ₚ foreign names (krules k').
Proof. intros Hw. apply (exec_foreign names []). by eapply wp_mono, Hw. Qed.

Lemma exec_maintain_foreign fw k r fw' k' :
  fw_inv fw k → exec kstep k (maintain conf fw) (r, fw') k' → foreign names (krules k) ≡ₚ foreign names (krules k').
Proof using Hnames.
  intros Hi%fw_inv_granted. eapply exec_method_foreign, wpg_maintain, Hi; [done|apply cmd_local_ok].
Qed.

Lemma exec_shutdown_foreign fw k0 k r fw' k' :
  fw_inv fw k0 → exec kstep k (shutdown conf fw) (r, fw') k' → foreign names (krules k) ≡ₚ foreign names (krules k').
Proof using Hnames.
  intros Hi%fw_inv_granted. eapply exec_method_foreign, wpg_shutdown, Hi; [done|apply cmd_local_ok].
Qed.

Lemma exec_new_foreign k r k' :
  exec kstep k (NftFirewall_new conf) r k' → foreign names (krules k) ≡ₚ foreign names (krules k').
Proof using Hnames.
  apply (exec_foreign names []). unfold NftFirewall_new. simpl. split; [done|]. intros ok.
  destruct (negb ok); [done|]. apply wp_bind. eapply wp_mono; [done| |].
  2:{ eapply (wpg_full_rebuild conf names Hnames (λ _, True) (cmd_local names) (cmd_local_ok _ _ _)
        (λ _ _ _, True)); [|done]. by intros ???; simplify_map_eq. }
  by intros ? [].
Qed.

End methods.
