(* ===== verification/FwRefine.v ===== *)
(** * The firewall as an abstract machine

    The promise of the firewall daemon to its clients: a set of open ports, each with the time at
    which it closes, and the openings whose removal has failed. The theorems show that the firewall of [Nftables.v], run against any kernel
    that behaves as documented, implements this machine; an executable kernel shows that the
    assumptions can be met. *)

From S2P Require Import Prelude Prog Str Proto FwProto Addr Conf Nftables NftSpec NftOps.
Local Open Scope Z_scope.

(** ** An executable kernel

    The active rules are a map from handles to rules; a new rule gets the handle after the largest
    one in use. A call of [nft] may also fail without an effect. *)

Definition next_handle (m : gmap Z Rule) : Z := 1 + foldr Z.max 0 (map_to_list m).*1.

Lemma next_handle_fresh m : m !! next_handle m = None.
Proof.
  assert (Hmax : ∀ l : list Z, ∀ x, x ∈ l → x <= foldr Z.max 0 l).
  { intros l x Hin. induction Hin; simpl; lia. }
  apply eq_None_not_Some. intros [r Hr].
  assert (next_handle m ∈ (map_to_list m).*1) as Hin.
  { apply list_elem_of_fmap. exists (next_handle m, r). by rewrite elem_of_map_to_list. }
  apply Hmax in Hin. unfold next_handle in Hin. lia.
Qed.

Definition sim_exec (c : NfCmd) (m : gmap Z Rule) : option (gmap Z Rule) :=
  match c with
  | AddRule r => Some (<[next_handle m := r]> m)
  | DeleteRule r =>
      match ru_handle r with
      | Some h =>
          match m !! h with
          | Some r' => if in_chain (chain_of r) r' then Some (delete h m) else None
          | None => None
          end
      | None => None
      end
  | FlushChain f t c => Some (filter (λ hr, in_chain (MkNftNames f t c) hr.2 = false) m)
  end.

Fixpoint sim_batch (cs : list NfCmd) (m : gmap Z Rule) : option (gmap Z Rule) :=
  match cs with
  | [] => Some m
  | c :: cs' => match sim_exec c m with Some m' => sim_batch cs' m' | None => None end
  end.

Definition sim_listing (m : gmap Z Rule) : list NfObject :=
  ObjOther :: ((λ hr : Z * Rule, ObjRule (MkRule (ru_family hr.2) (ru_table hr.2) (ru_chain hr.2)
    (ru_expr hr.2) (Some hr.1) (ru_comment hr.2))) <$> map_to_list m).

Abbreviation sim_state := (gmap Z Rule * Instant)%type.

Definition sim_step (k : sim_state) (c : fw_cmd) : fw_resp c → sim_state → Prop :=
  match c with
  | FNow => λ x k', x = k.2 ∧ k' = k
  | FHelp _ | FSpawnList _ => λ _ k', k' = k
  | FList _ => λ x k', k' = k ∧ (x = Ok (sim_listing k.1) ∨ is_err x)
  | FApply _ batch => λ x k',
      x = Ok () ∧ sim_batch batch k.1 = Some k'.1 ∧ k'.2 = k.2 ∨ is_err x ∧ k' = k
  end.

Lemma nft_step_perm c rs rs1 rs2 :
  rs ≡ₚ rs1 → nft_step c rs rs2 → ∃ rs3, nft_step c rs1 rs3 ∧ rs2 ≡ₚ rs3.
Proof.
  intros Hp Hs. inversion Hs as [|r h r' l1 l2 Hh Hc|]; subst.
  - eexists. split; [constructor|]. by f_equiv.
  - assert (Hin : (h, r') ∈ rs1) by (rewrite <- Hp; set_solver).
    apply list_elem_of_split in Hin as (l3 & l4 & ->).
    exists (l3 ++ l4). split; [by constructor|].
    apply (Permutation_cons_inv (a := (h, r'))). by rewrite !Permutation_middle.
  - eexists. split; [constructor|]. by rewrite Hp.
Qed.

Lemma nft_batch_perm cs rs rs1 rs2 :
  rs ≡ₚ rs1 → nft_batch cs rs rs2 → ∃ rs3, nft_batch cs rs1 rs3 ∧ rs2 ≡ₚ rs3.
Proof.
  intros Hp Hb. revert rs1 Hp. induction Hb as [rs|c cs rs l1 l2 Hs Hb IH]; intros rs1 Hp.
  - exists rs1. by split; [constructor|].
  - destruct (nft_step_perm _ _ _ _ Hp Hs) as (l3 & Hs3 & Hp3). destruct (IH _ Hp3) as (l4 & Hb4 & Hp4).
    exists l4. split; [by econstructor|done].
Qed.

Lemma sim_exec_spec c m m' :
  sim_exec c m = Some m' → ∃ rs, nft_step c (map_to_list m) rs ∧ map_to_list m' ≡ₚ rs.
Proof.
  destruct c as [r|r|f t ch]; simpl.
  - intros [= <-]. eexists. split; [constructor|]. by rewrite map_to_list_insert by apply next_handle_fresh.
  - destruct (ru_handle r) as [h|] eqn:Hh; [|done]. destruct (m !! h) as [r'|] eqn:Hm; [|done].
    destruct (in_chain _ r') eqn:Hc; [|done]. intros [= <-].
    pose proof Hm as Hin. apply elem_of_map_to_list, list_elem_of_split in Hin as (l1 & l2 & El).
    exists (l1 ++ l2). split; [rewrite El; constructor; [done|by rewrite Hc]|].
    apply (Permutation_cons_inv (a := (h, r'))). by rewrite map_to_list_delete, El, <- Permutation_middle.
  - intros [= <-]. eexists. split; [constructor|].
    apply NoDup_Permutation; [apply NoDup_map_to_list|apply NoDup_filter, NoDup_map_to_list|].
    intros [h r]. rewrite elem_of_map_to_list, list_elem_of_filter, elem_of_map_to_list, map_lookup_filter_Some.
    tauto.
Qed.

Lemma sim_batch_spec cs m m' :
  sim_batch cs m = Some m' → ∃ rs, nft_batch cs (map_to_list m) rs ∧ map_to_list m' ≡ₚ rs.
Proof.
  revert m. induction cs as [|c cs IH]; intros m; simpl; [intros [= ->]; eexists; by split; [constructor|]|].
  destruct (sim_exec c m) as [m1|] eqn:E; [|done]. intros (rs2 & Hb & Hp2)%IH.
  apply sim_exec_spec in E as (rs1 & Hs & Hp1).
  destruct (nft_batch_perm _ _ _ _ Hp1 Hb) as (rs3 & Hb3 & Hp3).
  exists rs3. split; [by econstructor|by rewrite Hp2].
Qed.

Lemma sim_listing_spec m : listed (sim_listing m) = (λ hr, view hr.1 hr.2) <$> map_to_list m.
Proof.
  unfold listed, sim_listing. simpl. induction (map_to_list m) as [|[h r] l IH]; [done|].
  rewrite !fmap_cons. simpl. f_equal. exact IH.
Qed.

Program Definition sim_kernel : NftKernel := {|
  kstate := sim_state;
  kstep := sim_step;
  krules k := map_to_list k.1;
  kclock k := k.2;
|}.
Next Obligation.
  intros [m t]. simpl. apply (NoDup_fmap_1 (λ x, x.1.1)). rewrite <- list_fmap_compose.
  exact (NoDup_fst_map_to_list m).
Qed.
Next Obligation.
  intros [m t] c x [m' t'] Hs. destruct c; simpl in *.
  - by destruct Hs as [_ [= -> ->]].
  - by injection Hs as -> ->.
  - by injection Hs as -> ->.
  - destruct Hs as [[= -> ->] [->|Herr]]; (split; [done|]).
    + by rewrite sim_listing_spec.
    + by destruct x.
  - destruct Hs as [(-> & Hb & _)|[Herr [= -> ->]]]; [|by destruct x]. by apply sim_batch_spec.
Qed.
Next Obligation. intros [m t] c x [m' t'] Hs. destruct c; simpl in *; naive_solver lia. Qed.
Next Obligation. intros [m t] x [m' t'] [-> [= -> ->]]. simpl. lia. Qed.

(** The deterministic part of it. *)
Definition sim_handle (c : fw_cmd) (k : sim_state) : fw_resp c * sim_state :=
  match c with
  | FNow => (k.2, k)
  | FHelp _ => (true, k)
  | FSpawnList _ => ((), k)
  | FList _ => (Ok (sim_listing k.1), k)
  | FApply _ batch =>
      match sim_batch batch k.1 with
      | Some m => (Ok (), (m, k.2))
      | None => (Err "nft failed", k)
      end
  end.

Lemma sim_handle_step c k : sim_step k c (sim_handle c k).1 (sim_handle c k).2.
Proof.
  destruct c; simpl; try by split_and?; auto.
  destruct (sim_batch batch k.1) eqn:E; simpl; [by left|by right].
Qed.

Lemma sim_exec_run {R} (p : prog fw_iface R) k r k' t :
  run (I := fw_iface) sim_handle p k = (r, k', t) → exec (I := fw_iface) sim_step k p r k'.
Proof. apply run_exec, sim_handle_step. Qed.

(** ** The abstract machine

    Its state is a map from openings to the times at which they close, and the openings that it has
    lost control of because the rules of a closed or expired opening could not be removed. *)

Inductive fw_op : Type := OpOpen (addr : IpAddr) (port : LeasePort) | OpClose (addr : IpAddr) (port : LeasePort) | OpMaintain.

(** An operation of the firewall, its result, and the clock when it began and when it ended. *)
Record fw_event : Type := MkEvent { fe_op : fw_op; fe_result : res (); fe_from : Instant; fe_to : Instant }.

(** The open ports and the time until which each of them is open. *)
Abbreviation openings := (gmap LeaseId Instant).
Record spec_state : Type := MkSpec { sp_open : openings; sp_stale : list (IpAddr * SingleLeasePort) }.

(** What an opening, or all of them, admit. *)
Definition opening_targets (id : LeaseId) : list (IpAddr * SingleLeasePort) := (λ p, (id.1, p)) <$> singles id.2.
Definition open_targets (σ : openings) : list (IpAddr * SingleLeasePort) := (map_to_list σ).*1 ≫= opening_targets.

Definition admits (σ : spec_state) (addr : IpAddr) (p : SingleLeasePort) : Prop :=
  (∃ port, p ∈ singles port ∧ is_Some (sp_open σ !! (addr, port))) ∨ (addr, p) ∈ sp_stale σ.

Definition expire (now : Instant) (o : openings) : openings := filter (λ e, now < e.2) o.

(** One operation at the time [now]. Closing without an opening still removes the rules it finds; a
    maintenance may get rid of everything that is stale. *)
Inductive spec_step (conf : Config) : spec_state → fw_op → res () → Instant → spec_state → Prop :=
| spec_open o s addr port now :
    spec_step conf (MkSpec o s) (OpOpen addr port) (Ok ()) now (MkSpec (<[(addr, port) := now + c_nft_timeout conf]> o) s)
| spec_open_failed o s addr port e now :
    spec_step conf (MkSpec o s) (OpOpen addr port) (Err e) now (MkSpec o s)
| spec_close o s s' addr port now :
    match o !! (addr, port) with Some _ => s' = s | None => s ≡ₚ filter (.∈ s) (opening_targets (addr, port)) ++ s' end →
    spec_step conf (MkSpec o s) (OpClose addr port) (Ok ()) now (MkSpec (delete (addr, port) o) s')
| spec_close_failed o s addr port r now :
    removal_failed conf r →
    spec_step conf (MkSpec o s) (OpClose addr port) r now
      (MkSpec (delete (addr, port) o) (match o !! (addr, port) with Some _ => opening_targets (addr, port) | None => [] end ++ s))
| spec_maintain o s s' now :
    s' = s ∨ s' = [] → spec_step conf (MkSpec o s) OpMaintain (Ok ()) now (MkSpec (expire now o) s')
| spec_maintain_failed o s lost r now :
    removal_failed conf r → open_targets o ≡ₚ lost ++ open_targets (expire now o) →
    spec_step conf (MkSpec o s) OpMaintain r now (MkSpec (expire now o) (lost ++ s)).

(** The machine performs every operation at some time between its begin and its end. *)
Inductive spec_run (conf : Config) : list fw_event → spec_state → Prop :=
| spec_run_nil : spec_run conf [] (MkSpec ∅ [])
| spec_run_snoc log e σ now σ' :
    spec_run conf log σ → fe_from e <= now <= fe_to e → spec_step conf σ (fe_op e) (fe_result e) now σ' →
    spec_run conf (log ++ [e]) σ'.

(** No removal of rules has failed. *)
Definition removals_ok (conf : Config) (log : list fw_event) : Prop :=
  c_debug conf = false ∧ ∀ e, e ∈ log → is_err (fe_result e) → ∃ addr port, fe_op e = OpOpen addr port.

Lemma spec_run_no_stale conf log σ : spec_run conf log σ → removals_ok conf log → sp_stale σ = [].
Proof.
  intros Hrun [Hd Hok]. induction Hrun as [|log e σ now σ' _ IH _ Hs]; [done|].
  assert (Hs0 : sp_stale σ = []) by (apply IH; intros e' He'; apply Hok, elem_of_app; by left).
  assert (Hf : removal_failed conf (fe_result e) → ∃ addr port, fe_op e = OpOpen addr port).
  { intros Hf%no_removal_failed; [|done]. apply Hok; [apply elem_of_app; right; by left|done]. }
  destruct Hs; simpl in *; subst; try done.
  - destruct (o !! _); [done|]. symmetry in H. by apply Permutation_nil_r, app_eq_nil in H as [_ ->].
  - by destruct (Hf ltac:(done)) as (? & ? & ?).
  - by destruct H as [->| ->].
  - by destruct (Hf ltac:(done)) as (? & ? & ?).
Qed.

(** Whatever is open was opened, and is open until the timeout that runs from then. *)
Lemma spec_run_opened conf log σ addr port t :
  spec_run conf log σ → sp_open σ !! (addr, port) = Some t →
  ∃ e now, e ∈ log ∧ fe_op e = OpOpen addr port ∧ fe_result e = Ok () ∧ fe_from e <= now <= fe_to e ∧
    t = now + c_nft_timeout conf.
Proof.
  intros Hrun. induction Hrun as [|log e σ now σ' _ IH Hnow Hs]; simpl; [by rewrite lookup_empty|].
  assert (Hold : sp_open σ !! (addr, port) = Some t → ∃ e' now', e' ∈ log ++ [e] ∧ fe_op e' = OpOpen addr port ∧
    fe_result e' = Ok () ∧ fe_from e' <= now' <= fe_to e' ∧ t = now' + c_nft_timeout conf).
  { intros (e' & now' & Hin & Hrest)%IH. exists e', now'. split; [apply elem_of_app; by left|done]. }
  destruct e as [op r from to]. simpl in *.
  destruct Hs as [o s a p now|o s a p w now|o s s' a p now _|o s a p r now _|o s s' now _|o s lost r now _ _]; simpl in *.
  - rewrite lookup_insert. case_decide as E; [|done]. intros [= <-]. injection E as -> ->.
    eexists _, now. split; [apply elem_of_app; right; by left|done].
  - done.
  - by intros [_ ?]%lookup_delete_Some; apply Hold.
  - by intros [_ ?]%lookup_delete_Some; apply Hold.
  - by intros [? _]%map_lookup_filter_Some; apply Hold.
  - by intros [? _]%map_lookup_filter_Some; apply Hold.
Qed.

(** Whatever was opened and not closed is open until its timeout. *)
Lemma spec_run_stays conf log1 e log2 σ addr port :
  spec_run conf (log1 ++ e :: log2) σ → fe_op e = OpOpen addr port → fe_result e = Ok () →
  (∀ e', e' ∈ log2 → fe_op e' ≠ OpClose addr port ∧ fe_from e <= fe_from e' ∧ fe_to e' < fe_from e + c_nft_timeout conf) →
  ∃ t, sp_open σ !! (addr, port) = Some t ∧ fe_from e + c_nft_timeout conf <= t.
Proof.
  revert σ. induction log2 as [|e2 log2 IH] using rev_ind; intros σ Hrun Hop Hres Hlater.
  - inversion Hrun as [E|log e' σ0 now σ' Hrun0 Hnow Hs E]; [by destruct log1|].
    apply app_inj_tail in E as [-> ->]. rewrite Hop, Hres in Hs. inversion Hs; subst; simpl.
    rewrite lookup_insert_eq. eexists. split; [done|lia].
  - inversion Hrun as [E|log e' σ0 now σ' Hrun0 Hnow Hs E]; [by destruct log1|].
    change (e :: log2 ++ [e2]) with ((e :: log2) ++ [e2]) in E. rewrite app_assoc in E.
    apply app_inj_tail in E as [-> ->].
    destruct (IH σ0 Hrun0 Hop Hres) as (t & Ht & Hle); [intros e3 He3; apply Hlater, elem_of_app; by left|].
    destruct (Hlater e2) as (Hno & Hfrom & Hto); [apply elem_of_app; right; by left|].
    assert (Hclose : ∀ a p, fe_op e2 = OpClose a p → (a, p) ≠ (addr, port)) by (intros a p E [= -> ->]; congruence).
    assert (Hkept : now < t) by lia.
    destruct Hs as [o s a p now|o s a p w now|o s s' a p now _|o s a p r now _|o s s' now _|o s lost r now _ _]; simpl in *.
    + rewrite lookup_insert. case_decide; [eexists; split; [done|lia]|by exists t].
    + by exists t.
    + exists t. rewrite lookup_delete_ne; [done|]. by apply Hclose.
    + exists t. rewrite lookup_delete_ne; [done|]. by apply Hclose.
    + exists t. split; [|done]. by apply map_lookup_filter_Some.
    + exists t. split; [|done]. by apply map_lookup_filter_Some.
Qed.

Lemma exec_clock `{K : NftKernel} {R} (p : prog fw_iface R) k r k' :
  exec kstep k p r k' → kclock k <= kclock k'.
Proof.
  revert k. induction p as [a|c f IH]; intros k; [by intros [_ ->]%exec_ret_inv|].
  intros (x & k1 & Hs%kstep_clock & He%IH)%exec_vis_inv. lia.
Qed.

Section refine.
Context `{HO : HashOrder} `{K : NftKernel} (conf : Config) (names : NftNames) (kind : u16 → LeasePort).
Hypothesis Hnames : NftNames_get conf = Ok names.

Definition op_method (o : fw_op) : method fw_iface NftFirewall () :=
  match o with
  | OpOpen addr port => open_port conf addr port
  | OpClose addr port => close_port conf addr port
  | OpMaintain => maintain conf
  end.

Definition op_ok (o : fw_op) : Prop :=
  match o with OpOpen _ port | OpClose _ port => port_ok conf kind port | OpMaintain => True end.

(** Between two operations time passes and other programs may change other chains. *)
Definition env_step (k k' : kstate) : Prop := chain_at names k' ≡ₚ chain_at names k ∧ kclock k <= kclock k'.

(** The runs of the firewall, with every result except for a panic, which ends the process. The log
    has the clock of the kernel before and after every operation. *)
Inductive fw_run : list fw_event → NftFirewall → kstate → Prop :=
| run_new k fw k' : exec kstep k (NftFirewall_new conf) (Ok fw) k' → fw_run [] fw k'
| run_env log fw k k' : fw_run log fw k → env_step k k' → fw_run log fw k'
| run_op log fw k o r fw' k' :
    fw_run log fw k → op_ok o → exec kstep k (op_method o fw) (r, fw') k' → no_panic r →
    fw_run (log ++ [MkEvent o r (kclock k) (kclock k')]) fw' k'.

(** The log is in order. *)
Lemma fw_run_past log fw k : fw_run log fw k → ∀ e, e ∈ log → fe_from e <= fe_to e <= kclock k.
Proof.
  induction 1 as [k fw k' He|log fw k k' _ IH [_ Hck]|log fw k o r fw' k' _ IH _ He%exec_clock _]; intros e.
  - by intros ?%elem_of_nil.
  - intros Hin%IH. lia.
  - intros [Hin%IH| ->%list_elem_of_singleton]%elem_of_app; simpl; lia.
Qed.

Lemma fw_run_ordered log fw k log1 e log2 :
  fw_run log fw k → log = log1 ++ e :: log2 → ∀ e', e' ∈ log2 → fe_to e <= fe_from e'.
Proof.
  intros Hrun. revert log2. induction Hrun as [k fw k' He|log fw k k' _ IH _|log fw k o r fw' k' Hrun IH _ He _]; intros log2 El.
  - by destruct log1.
  - by apply IH.
  - destruct log2 as [|e2 log2 _] using rev_ind; [by intros e' ?%elem_of_nil|].
    change (e :: log2 ++ [e2]) with ((e :: log2) ++ [e2]) in El. rewrite app_assoc in El.
    apply app_inj_tail in El as [-> <-]. intros e' [Hin| ->%list_elem_of_singleton]%elem_of_app; [by apply (IH log2)|].
    simpl. eapply (fw_run_past _ _ _ Hrun e). apply elem_of_app. right. by left.
Qed.

(** The refinement relation. *)
Definition implements (fw : NftFirewall) (k : kstate) (σ : spec_state) : Prop :=
  fw_inv_stale conf names kind (sp_stale σ) fw k ∧ l_timeout <$> fw_leases fw = sp_open σ.

Lemma open_targets_leases leases :
  leases_ok conf names kind leases → open_targets (l_timeout <$> leases) = all_targets leases.
Proof.
  intros Hl. unfold open_targets, all_targets. rewrite map_to_list_fmap, <- list_fmap_compose.
  assert (Hin : ∀ kl, kl ∈ map_to_list leases → kl.1 = (l_addr kl.2, l_port kl.2)).
  { intros [id l] Hin%elem_of_map_to_list. by destruct (Hl _ _ Hin). }
  revert Hin. generalize (map_to_list leases). intros ls. induction ls as [|[id l] ls IH]; intros Hin; [done|].
  rewrite !fmap_cons, !bind_cons, IH by (intros; apply Hin; by right). f_equal.
  specialize (Hin (id, l) ltac:(by left)). simpl in *. by rewrite Hin.
Qed.

Lemma live_expire now leases : l_timeout <$> live now leases = expire now (l_timeout <$> leases).
Proof.
  unfold live, expire. apply map_eq. intros id. apply option_eq. intros t.
  rewrite lookup_fmap, fmap_Some, map_lookup_filter_Some, lookup_fmap, fmap_Some.
  setoid_rewrite map_lookup_filter_Some. unfold is_timed_out. simpl.
  split; [intros (l & [Hid Hto] & ->)|intros [(l & Hid & ->) Hto]].
  - split; [eauto|lia].
  - exists l. split; [|done]. split; [done|lia].
Qed.

Lemma implements_op fw k σ o r fw' k' :
  implements fw k σ → op_ok o → exec kstep k (op_method o fw) (r, fw') k' → no_panic r →
  ∃ now σ', kclock k <= now <= kclock k' ∧ spec_step conf σ o r now σ' ∧ implements fw' k' σ'.
Proof using Hnames.
  destruct σ as [op stale]. intros [Hi Hσ] Ho He Hnp. simpl in Hσ. subst op. pose proof (exec_clock _ _ _ _ He) as Hck.
  simpl in Hi. destruct o as [addr port|addr port|]; simpl in Ho, He.
  - apply (exec_open_port_stale conf names Hnames kind stale) in He; [|done..].
    destruct r as [[]|e|w]; [|destruct He as [Hi' ->]|done].
    + destruct He as (Hi' & now & Hnow & ->). exists now. eexists. split_and!; [lia|lia|constructor|].
      split; [done|]. simpl. by rewrite fmap_insert.
    + exists (kclock k). eexists. split_and!; [lia|lia|constructor|done].
  - apply (exec_close_port_stale conf names Hnames kind stale) in He as [_ He]; [|done..].
    destruct He as [[[w ->] _]|(_ & -> & He)]; [done|]. exists (kclock k).
    assert (Hlook : ∀ {A} (x y : A), match (l_timeout <$> fw_leases fw) !! (addr, port) with Some _ => x | None => y end =
      match fw_leases fw !! (addr, port) with Some _ => x | None => y end).
    { intros A x y. rewrite lookup_fmap. by destruct (fw_leases fw !! _). }
    destruct He as [[-> (stale' & Hst & Hi')]|(Hf & _ & Hi')]; eexists; (split_and!; [lia|lia| |]).
    + apply (spec_close _ _ _ stale'). by rewrite Hlook.
    + split; [done|]. simpl. by rewrite fmap_delete.
    + by apply spec_close_failed.
    + split; [|simpl; by rewrite fmap_delete]. simpl. by rewrite Hlook.
  - apply (exec_maintain_stale conf names Hnames kind stale) in He as (_ & now & Hnow & Hl & _ & He); [|done..].
    exists now. destruct He as [[-> Hi']|(Hf & _ & _ & lost & Hlost & Hi')].
    + assert (∃ s', (s' = stale ∨ s' = []) ∧ fw_inv_stale conf names kind s' fw' k') as (s' & Hs' & Hi2)
        by (destruct Hi'; eauto).
      eexists. split_and!; [lia|lia|by apply (spec_maintain _ _ _ s')|]. split; [done|]. simpl. by rewrite Hl, live_expire.
    + eexists. split_and!; [lia|lia|apply (spec_maintain_failed _ _ _ lost); [done|]|].
      * rewrite <- live_expire, <- Hl, !open_targets_leases; [done|apply Hi'|apply Hi].
      * split; [done|]. simpl. by rewrite Hl, live_expire.
Qed.

Lemma implements_env fw k k' σ : implements fw k σ → env_step k k' → implements fw k' σ.
Proof. intros [Hi Hσ] [Hch _]. split; [|done]. by eapply fw_inv_stale_chain_eq. Qed.

(** What is observable of the relation: which rules the chain holds. *)
Lemma implements_targets fw k σ addr p :
  implements fw k σ → (addr, p) ∈ all_targets (fw_leases fw) ++ sp_stale σ ↔ admits σ addr p.
Proof.
  intros [Hi Hσ]. rewrite elem_of_app. unfold admits. rewrite <- Hσ. f_equiv. rewrite elem_of_all_targets. split.
  - intros (id & l & Hl & [Ha Hs]%elem_of_targets). simpl in *.
    exists (l_port l). split; [done|]. destruct (fs_leases _ _ _ _ _ _ Hi _ _ Hl) as [-> _].
    rewrite lookup_fmap, Ha, Hl. by eexists.
  - intros (port & Hs & Hσ'). rewrite lookup_fmap in Hσ'. apply fmap_is_Some in Hσ' as [l Hl].
    exists (addr, port), l. split; [done|]. destruct (fs_leases _ _ _ _ _ _ Hi _ _ Hl) as [[= -> ->] _].
    by apply elem_of_targets.
Qed.

Lemma implements_observe fw k σ addr p :
  implements fw k σ → 0 <= single_number p →
  target_rule names (addr, p) ∈ chain_at names k ↔ admits σ addr p.
Proof.
  intros Hi Hp. rewrite <- (implements_targets _ _ _ _ _ Hi). destruct Hi as [Hi _].
  by apply (target_rule_in_chain conf names kind _ fw).
Qed.

(** Without stale rules, it is the leases that decide. *)
Lemma fw_inv_observe fw k addr p :
  fw_inv conf names kind fw k → 0 <= single_number p →
  target_rule names (addr, p) ∈ chain_at names k ↔ ∃ port, p ∈ singles port ∧ is_Some (fw_leases fw !! (addr, port)).
Proof.
  intros Hi%fw_inv_no_stale Hp.
  rewrite (implements_observe fw k (MkSpec (l_timeout <$> fw_leases fw) []) addr p (conj Hi eq_refl) Hp).
  unfold admits. simpl. setoid_rewrite lookup_fmap. setoid_rewrite fmap_is_Some. split; [|by left].
  by intros [?|[]%elem_of_nil].
Qed.

Lemma fw_run_implements log fw k : fw_run log fw k → ∃ σ, spec_run conf log σ ∧ implements fw k σ.
Proof using Hnames.
  induction 1 as [k fw k' He|log fw k k' _ (σ & Hrun & Hi) Hs|log fw k o r fw' k' _ (σ & Hrun & Hi) Ho He Hnp].
  - exists (MkSpec ∅ []). split; [constructor|].
    apply (exec_new conf names Hnames kind) in He as (_ & Hi%fw_inv_no_stale & Hl). split; [done|]. by rewrite Hl, fmap_empty.
  - exists σ. split; [done|]. by eapply implements_env.
  - destruct (implements_op _ _ _ _ _ _ _ Hi Ho He Hnp) as (now & σ' & Hnow & Hs & Hi').
    exists σ'. split; [|done]. by econstructor.
Qed.

(** C3 (refinement). The firewall implements the abstract machine: a map from (address, port) to
    closing times. For every run of the firewall against any kernel, with time passing, changes of
    other chains, and operations that fail (a panic ends the process), the machine can perform the
    same operations with the same results, each at some time between the clock before and after it,
    such that the kernel accepts packets of an address to a port exactly if the machine admits them;
    every other rule of the chain is a rule for the control port. What the machine admits is what is
    open and what is stale, that is, closed or expired while [nft] failed to remove the rules; outside
    of debug mode, as long as no close and no maintenance has failed, nothing is stale. *)
Theorem firewall_refines_spec log fw k :
  fw_run log fw k →
  ∃ σ, spec_run conf log σ ∧
    (∀ addr p, 0 <= single_number p →
       target_rule names (addr, p) ∈ chain_at names k ↔ admits σ addr p) ∧
    (∀ r, r ∈ chain_at names k →
       r ∈ ctrl_rules conf names ∨ ∃ addr p, r = target_rule names (addr, p) ∧ admits σ addr p) ∧
    (removals_ok conf log → sp_stale σ = []).
Proof using Hnames.
  intros (σ & Hrun & Hi)%fw_run_implements. exists σ. split_and!; [done| | |by eapply spec_run_no_stale].
  - intros addr p Hp. by apply implements_observe with (fw := fw).
  - intros r Hr. rewrite (fs_chain _ _ _ _ _ _ (proj1 Hi)) in Hr.
    apply elem_of_app in Hr as [?|([a p] & -> & Hin)%list_elem_of_fmap]; [by left|right].
    exists a, p. split; [done|]. by apply (implements_targets _ _ _ _ _ Hi).
Qed.

(** C6 (liveness). Once a maintenance has succeeded, the timeouts are enforced, both ways. If no
    removal has failed before, a rule for an address and a port is in the chain only if the port was
    opened for the address by an operation that ended less than the configured timeout before the
    maintenance began. And if a port was opened for an address, or the opening was refreshed, and
    it was not closed since then, the rule is in the chain, unless the timeout has passed since the
    operation began. *)
Theorem firewall_expiry log fw k fw' k' addr p :
  fw_run log fw k → exec kstep k (maintain conf fw) (Ok (), fw') k' → 0 <= single_number p →
  (removals_ok conf log → target_rule names (addr, p) ∈ chain_at names k' →
   ∃ port e, p ∈ singles port ∧ e ∈ log ∧ fe_op e = OpOpen addr port ∧ fe_result e = Ok () ∧
     kclock k < fe_to e + c_nft_timeout conf) ∧
  (∀ port log1 e log2, p ∈ singles port → log = log1 ++ e :: log2 →
   fe_op e = OpOpen addr port → fe_result e = Ok () → (∀ e', e' ∈ log2 → fe_op e' ≠ OpClose addr port) →
   kclock k' < fe_from e + c_nft_timeout conf → target_rule names (addr, p) ∈ chain_at names k').
Proof using Hnames.
  intros Hrun He Hp.
  assert (Hrun' : fw_run (log ++ [MkEvent OpMaintain (Ok ()) (kclock k) (kclock k')]) fw' k') by (by apply (run_op _ fw)).
  destruct (fw_run_implements _ _ _ Hrun') as (σ & Hs & Hi). pose proof (implements_observe _ _ _ addr _ Hi Hp) as Hobs. split.
  - intros [Hd Hok] Hr. apply Hobs in Hr. revert Hr. assert (Hst : sp_stale σ = []).
    { eapply spec_run_no_stale; [done|]. split; [done|].
      intros e [Hin| ->%list_elem_of_singleton]%elem_of_app; [by apply Hok|by intros []]. }
    unfold admits. rewrite Hst. intros [(port & Hps & [t Ht])|[]%elem_of_nil].
    inversion Hs as [E|log0 e0 σ0 nowm σ1 Hs0 Hnowm Hstep E]; [by destruct log|].
    apply app_inj_tail in E as [-> ->]. simpl in Hnowm, Hstep.
    assert (Hold : sp_open σ0 !! (addr, port) = Some t ∧ nowm < t).
    { inversion Hstep as [| | | |? ? ? ? _|? ? ? ? ? _ _]; subst; simpl in Ht; by apply map_lookup_filter_Some in Ht. }
    destruct Hold as [Ht0 Hlt]. destruct (spec_run_opened _ _ _ _ _ _ Hs0 Ht0) as (e & now & Hin & Hop & Hres & Hnow & ->).
    exists port, e. split_and!; [done..|lia].
  - intros port log1 e log2 Hps -> Hop Hres Hno Hlt. apply Hobs. left. exists port. split; [done|].
    assert (El : (log1 ++ e :: log2) ++ [MkEvent OpMaintain (Ok ()) (kclock k) (kclock k')] =
      log1 ++ e :: (log2 ++ [MkEvent OpMaintain (Ok ()) (kclock k) (kclock k')])) by (by rewrite <- app_assoc).
    rewrite El in Hs, Hrun'. pose proof (fw_run_ordered _ _ _ _ _ _ Hrun' eq_refl) as Hord.
    pose proof (fw_run_past _ _ _ Hrun') as Hpast.
    destruct (spec_run_stays _ _ _ _ _ _ _ Hs Hop Hres) as (t & Ht & _); [|by exists t].
    intros e' Hin. pose proof (Hord _ Hin). pose proof (Hpast e ltac:(set_solver)). pose proof (Hpast e' ltac:(set_solver)).
    split_and!; [|lia|lia]. apply elem_of_app in Hin as [Hin| ->%list_elem_of_singleton]; [by apply Hno|done].
Qed.

End refine.

(** C16 (functional). Opening a port, on every branch. A success adds or refreshes one lease, with
    the full timeout from the time of the call, and keeps chain and leases in agreement; an error
    changes neither the leases nor the chain; the only panic is an overflow of the clock. *)
Theorem open_port_correct `{HO : HashOrder} `{K : NftKernel} conf names kind addr port fw k r fw' k' :
  NftNames_get conf = Ok names → fw_inv conf names kind fw k → port_ok conf kind port →
  exec kstep k (open_port conf addr port fw) (r, fw') k' →
  match r with
  | Ok _ => fw_inv conf names kind fw' k' ∧ ∃ now, kclock k <= now <= kclock k' ∧
      fw' = set_leases <[(addr, port) := MkLease addr port (now + c_nft_timeout conf)]> fw
  | Err _ => fw_inv conf names kind fw k' ∧ fw' = fw
  | Panic _ => instant_max <= kclock k' + c_nft_timeout conf
  end.
Proof. intros Hn. by apply exec_open_port. Qed.

(** C15 (invariant). Maintenance drops exactly the leases that have timed out and touches no other
    chain, on every path. A success keeps chain and leases in agreement (in debug mode, where failures
    of [nft] are ignored, the chain may also be as before). If [nft] cannot remove the rules one by
    one, the chain is rebuilt from scratch: an error is only returned if [nft] has refused that as well,
    as the last thing that happened, and then the chain is unchanged. There is no panic. *)
Theorem maintain_correct `{HO : HashOrder} `{K : NftKernel} conf names kind fw k r fw' k' :
  NftNames_get conf = Ok names → fw_inv conf names kind fw k →
  exec kstep k (maintain conf fw) (r, fw') k' →
  (∃ now, kclock k <= now <= kclock k' ∧
    fw_leases fw' = filter (λ kl, is_timed_out kl.2 now = false) (fw_leases fw)) ∧
  foreign names (krules k') ≡ₚ foreign names (krules k) ∧
  match r with
  | Ok _ => fw_inv conf names kind fw' k' ∨ c_debug conf = true ∧ chain_at names k' ≡ₚ chain_at names k
  | Err _ => chain_at names k' ≡ₚ chain_at names k ∧ rebuild_refused conf names fw' k'
  | Panic _ => False
  end.
Proof.
  intros Hn Hi He. pose proof (exec_maintain_foreign conf names Hn kind _ _ _ _ _ Hi He) as Hf.
  apply fw_inv_no_stale in Hi. apply (exec_maintain_stale conf names Hn kind []) in He as (_ & now & Hnow & Hl & Hnp & He); [|done].
  split_and!; [by exists now|done|]. destruct He as [[-> Hi']|(Hfail & Hch & Href & _)].
  - left. apply fw_inv_no_stale. by destruct Hi'.
  - destruct r as [[]|e|w]; [|by auto|done]. by destruct Hfail; auto.
Qed.


(** C17 (error). Closing a port, outside of debug mode: a success removes the lease and its rules.
    After an error the lease is gone from the memory of the daemon, but the chain is unchanged:
    the rules of the lease are still active, and no later maintenance looks for them. *)
Theorem close_port_correct `{HO : HashOrder} `{K : NftKernel} conf names kind addr port fw k r fw' k' :
  NftNames_get conf = Ok names → fw_inv conf names kind fw k → port_ok conf kind port →
  c_debug conf = false → exec kstep k (close_port conf addr port fw) (r, fw') k' →
  match r with
  | Ok _ => fw_inv conf names kind fw' k' ∧ fw' = set_leases (delete (addr, port)) fw ∧
      ∀ p, p ∈ singles port → target_rule names (addr, p) ∉ chain_at names k'
  | Err _ => fw' = set_leases (delete (addr, port)) fw ∧ chain_at names k' ≡ₚ chain_at names k
  | Panic _ => instant_max <= kclock k' + c_nft_timeout conf
  end.
Proof.
  intros Hn Hi Hp Hd He. eapply exec_close_port in He as [_ He]; [|done..].
  destruct r as [[]|e|w]; [|naive_solver..]. destruct He as [Hi' ->]. split_and!; [done..|].
  intros p Hs Hr. assert (Hnum : 0 <= single_number p) by (rewrite (singles_number _ _ Hs); apply Hp).
  destruct (proj1 (fw_inv_observe conf names kind _ _ addr p Hi' Hnum) Hr) as (port' & Hs' & [l Hl]).
  destruct (fi_leases _ _ _ _ _ Hi' _ _ Hl) as [[= -> ->] Hok].
  assert (l_port l = port) as E.
  { rewrite <- (lo_kind _ _ _ _ Hok), <- (po_kind _ _ _ Hp). f_equal.
    by rewrite <- (singles_number _ _ Hs), <- (singles_number _ _ Hs'). }
  simpl in Hl. rewrite E, lookup_delete_eq in Hl. done.
Qed.

(** ** A concrete run *)

Definition sample_fw_conf : Config := {|
  c_variant := Server; c_path := None; c_debug := false; c_port := MkControlPort 5800 true true;
  c_control_timeout := DEFAULT_CONTROL_TIMEOUT; c_control_error_policy := Always;
  c_seccomp := SeccompOff; c_keys := ∅;
  c_resources := {[ MkResourceId 1 := MkResource 22 true false [] ]};
  c_default_user := MkUserId 0; c_nft_exe := lit "nft"; c_nft_family := lit "inet";
  c_nft_table := lit "filter"; c_nft_chain_input := lit "LETMEIN-INPUT";
  c_nft_timeout := DEFAULT_NFT_TIMEOUT;
|}.
Definition sample_names : NftNames := MkNftNames NfINet (lit "filter") (lit "LETMEIN-INPUT").

Lemma sample_names_ok : NftNames_get sample_fw_conf = Ok sample_names.
Proof. reflexivity. Qed.

#[local] Existing Instance sorted_order.
#[local] Existing Instance sim_kernel.

(** The chain holds a rule of somebody else at the start. *)
Definition sample_k0 : sim_state :=
  ({[ 7 := MkRule NfINet (lit "filter") (lit "LETMEIN-INPUT") [SAccept] None None ]}, 1000).

Definition sim_result {R} (d : R) (p : prog fw_iface (res R)) (k : sim_state) : R * sim_state :=
  match run (I := fw_iface) sim_handle p k with (Ok x, k', _) => (x, k') | (_, k', _) => (d, k') end.

Definition sample_fw1 : NftFirewall :=
  (sim_result (MkNftFirewall ∅ true 0) (NftFirewall_new sample_fw_conf) sample_k0).1.
Definition sample_k1 : sim_state :=
  (sim_result (MkNftFirewall ∅ true 0) (NftFirewall_new sample_fw_conf) sample_k0).2.
Definition sample_open : res () * NftFirewall * sim_state :=
  (run (I := fw_iface) sim_handle (open_port sample_fw_conf sample_v4 (LpTcp 22) sample_fw1) sample_k1).1.
Definition sample_fw2 : NftFirewall := sample_open.1.2.
Definition sample_k2 : sim_state := sample_open.2.
Definition sample_late : sim_state := (sample_k2.1, sample_k2.2 + DEFAULT_NFT_TIMEOUT).
Definition sample_maintain (k : sim_state) : res () * NftFirewall * sim_state :=
  (run (I := fw_iface) sim_handle (maintain sample_fw_conf sample_fw2) k).1.
Definition sample_close : res () * NftFirewall * sim_state :=
  (run (I := fw_iface) sim_handle (close_port sample_fw_conf sample_v4 (LpTcp 22) sample_fw2) sample_k2).1.

Definition rule_count (k : sim_state) : nat := length (chain_rules sample_names (krules k)).

(** Open, wait until after the timeout, maintain; and open, close. *)
Example sample_run_chain :
  rule_count sample_k0 = 1%nat ∧ rule_count sample_k1 = 2%nat ∧
  sample_open.1.1 = Ok () ∧ rule_count sample_k2 = 3%nat ∧
  rule_count (sample_maintain sample_k2).2 = 3%nat ∧
  (sample_maintain sample_late).1.1 = Ok () ∧ rule_count (sample_maintain sample_late).2 = 2%nat ∧
  sample_close.1.1 = Ok () ∧ rule_count sample_close.2 = 2%nat ∧
  map_to_list (fw_leases sample_close.1.2) = [].
Proof. by vm_compute. Qed.

Lemma sample_new_exec : exec kstep sample_k0 (NftFirewall_new sample_fw_conf) (Ok sample_fw1) sample_k1.
Proof. eapply sim_exec_run. vm_compute. reflexivity. Qed.

Lemma sample_open_exec :
  exec kstep sample_k1 (open_port sample_fw_conf sample_v4 (LpTcp 22) sample_fw1) (Ok (), sample_fw2) sample_k2.
Proof. eapply sim_exec_run. vm_compute. reflexivity. Qed.

Lemma sample_port_ok : port_ok sample_fw_conf LpTcp (LpTcp 22).
Proof. split; [done|done|by vm_compute]. Qed.

Lemma sample_inv1 : fw_inv sample_fw_conf sample_names LpTcp sample_fw1 sample_k1.
Proof.
  pose proof sample_new_exec as He.
  by apply (exec_new sample_fw_conf sample_names sample_names_ok LpTcp) in He as (_ & ? & _).
Qed.

Lemma sample_inv2 : fw_inv sample_fw_conf sample_names LpTcp sample_fw2 sample_k2.
Proof.
  pose proof sample_open_exec as He.
  eapply (exec_open_port sample_fw_conf sample_names sample_names_ok LpTcp) in He as (? & _);
    [done|apply sample_inv1|apply sample_port_ok].
Qed.

Definition sample_opened : fw_event := MkEvent (OpOpen sample_v4 (LpTcp 22)) (Ok ()) (kclock sample_k1) (kclock sample_k2).

Lemma sample_fw_run : fw_run sample_fw_conf sample_names LpTcp [sample_opened] sample_fw2 sample_k2.
Proof.
  refine (run_op (K := sim_kernel) sample_fw_conf sample_names LpTcp [] sample_fw1 sample_k1
    (OpOpen sample_v4 (LpTcp 22)) _ _ _ _ sample_port_ok sample_open_exec I).
  exact (run_new (K := sim_kernel) _ _ _ sample_k0 _ _ sample_new_exec).
Qed.

Lemma sample_removals_ok : removals_ok sample_fw_conf [sample_opened].
Proof. split; [done|]. by intros e ->%list_elem_of_singleton []. Qed.

Lemma firewall_refines_spec_witness :
  ∃ σ, spec_run sample_fw_conf [sample_opened] σ ∧ sp_stale σ = [] ∧
    (target_rule sample_names (sample_v4, SlpTcp 22) ∈ chain_at sample_names sample_k2 ↔ admits σ sample_v4 (SlpTcp 22)).
Proof.
  destruct (firewall_refines_spec (K := sim_kernel) sample_fw_conf sample_names LpTcp sample_names_ok _ _ _ sample_fw_run)
    as (σ & Hs & Hch & _ & Hst).
  exists σ. split; [exact Hs|]. split; [exact (Hst sample_removals_ok)|]. apply Hch. discriminate.
Defined.

(** A maintenance in time keeps the rule. *)
Lemma firewall_expiry_witness :
  target_rule sample_names (sample_v4, SlpTcp 22) ∈ chain_at sample_names (sample_maintain sample_k2).2 ∧
  ∃ port e, SlpTcp 22 ∈ singles port ∧ e ∈ [sample_opened] ∧ fe_op e = OpOpen sample_v4 port ∧ fe_result e = Ok () ∧
    1000 < fe_to e + DEFAULT_NFT_TIMEOUT.
Proof.
  destruct (firewall_expiry (K := sim_kernel) sample_fw_conf sample_names LpTcp sample_names_ok
    _ _ _ (sample_maintain sample_k2).1.2 (sample_maintain sample_k2).2 sample_v4 (SlpTcp 22) sample_fw_run) as [Hold Hstays].
  - eapply sim_exec_run. vm_compute. reflexivity.
  - discriminate.
  - assert (Hin : target_rule sample_names (sample_v4, SlpTcp 22) ∈ chain_at sample_names (sample_maintain sample_k2).2).
    { apply (Hstays (LpTcp 22) [] sample_opened []); [left|reflexivity|reflexivity|reflexivity| |vm_compute; reflexivity].
      intros e' He'. apply elem_of_nil in He'. destruct He'. }
    split; [exact Hin|]. exact (Hold sample_removals_ok Hin).
Defined.

Lemma open_port_correct_witness :
  fw_inv sample_fw_conf sample_names LpTcp sample_fw2 sample_k2.
Proof.
  exact (proj1 (open_port_correct (K := sim_kernel) _ _ LpTcp _ _ _ _ (Ok ()) _ _ sample_names_ok sample_inv1
    sample_port_ok sample_open_exec)).
Defined.

Lemma maintain_correct_witness :
  ∃ now, now = 1000 + DEFAULT_NFT_TIMEOUT ∧
    fw_leases (sample_maintain sample_late).1.2 =
    filter (λ kl, is_timed_out kl.2 now = false) (fw_leases sample_fw2).
Proof.
  destruct (maintain_correct (K := sim_kernel) sample_fw_conf sample_names LpTcp sample_fw2 sample_late (Ok ())
    (sample_maintain sample_late).1.2 (sample_maintain sample_late).2 sample_names_ok) as [(now & Hn & Hl) _].
  - eapply fw_inv_chain_eq; [exact sample_inv2|]. reflexivity.
  - eapply sim_exec_run. vm_compute. reflexivity.
  - exists now. split; [|exact Hl].
    change (sample_late.2 <= now <= (sample_maintain sample_late).2.2) in Hn.
    assert ((sample_maintain sample_late).2.2 = 1000 + DEFAULT_NFT_TIMEOUT) as E by (vm_compute; reflexivity).
    assert (sample_late.2 = 1000 + DEFAULT_NFT_TIMEOUT) as E' by (vm_compute; reflexivity).
    rewrite E, E' in Hn. lia.
Defined.


Lemma close_port_correct_witness :
  target_rule sample_names (sample_v4, SlpTcp 22) ∉ chain_at sample_names sample_close.2.
Proof.
  refine (proj2 (proj2 (close_port_correct (K := sim_kernel) sample_fw_conf sample_names LpTcp sample_v4 (LpTcp 22) sample_fw2
    sample_k2 (Ok ()) sample_close.1.2 sample_close.2 sample_names_ok sample_inv2 sample_port_ok eq_refl _))
    (SlpTcp 22) _).
  - eapply sim_exec_run. vm_compute. reflexivity.
  - left.
Defined.
