(* ===== verification/FwServer.v ===== *)
(** * The server of the firewall daemon (letmeinfwd/src/server.rs)

    Who may connect to the Unix socket, and what a connection may ask for. The server is written
    against the trait [FirewallOpen]; its theorems hold for every implementation of it, and the
    nftables firewall is one. *)

From Stdlib Require Import Ascii.
From S2P Require Import Prelude Prog Str Proto FwProto Addr Conf Nftables NftSpec NftOps FwRefine.
Local Open Scope Z_scope.

(** ** The trait [FirewallOpen] (letmeinfwd/src/firewall.rs) *)

Class FirewallOpen (J : iface) (F : Type) : Type := {
  fo_open_port : Config → IpAddr → LeasePort → method J F ();
  fo_close_port : Config → IpAddr → LeasePort → method J F ();
}.

#[export] Instance NftFirewall_open `{HashOrder} : FirewallOpen fw_iface NftFirewall := {|
  fo_open_port := open_port;
  fo_close_port := close_port;
|}.

(** ** Access to the socket *)

Definition i32_min : Z := - 2 ^ 31.
Definition i32_max : Z := 2 ^ 31 - 1.

(** [str::parse] into an [i32]. *)
Definition parse_i32 (s : str) : res Z :=
  match s with
  | [] => Err "cannot parse integer from empty string"
  | c :: rest =>
      if c =? ch "-" then
        match rest with
        | [] => Err "invalid digit found in string"
        | _ => z ← ok_or (parse_digits (- i32_min) 10 0 rest) "invalid digit found in string"; Ok (- z)
        end
      else from_str_radix i32_max s 10
  end.

(** [get_letmeind_pid]; [file] is the content of the PID file. *)
Definition get_letmeind_pid (file : res str) : res Z :=
  pid ← context "Open PID-file of 'letmeind' daemon" file;
  context "Parse 'letmeind' PID-file string to number" (parse_i32 (trim pid)).

Record Cred : Type := MkCred { cr_pid : option Z; cr_uid : u32; cr_gid : u32 }.

(** [FirewallServer::accept], after the connection has been accepted. [test_mode] is false in
    release builds; [uid] and [gid] are those of the user and group [letmeind]. *)
Definition accept_check (test_mode : bool) (uid gid : u32) (peer_cred : res Cred) (pidfile : res str)
    : res () :=
  cred ← context "Get Unix socket peer credentials" peer_cred;
  pid ← ok_or (cr_pid cred) "The connected pid is not known. Rejecting.";
  expected_pid ← get_letmeind_pid pidfile;
  if negb (pid =? expected_pid) then Err "The connected pid is not letmeind. Rejecting."
  else if test_mode then Ok ()
  else if negb (cr_uid cred =? uid) then Err "The connected uid is not letmeind. Rejecting."
  else if negb (cr_gid cred =? gid) then Err "The connected gid is not letmeind. Rejecting."
  else Ok ().

(** ** Requests *)

Definition addr_check (addr : IpAddr) : bool :=
  match addr with
  | V4 octets => let a := from_be_bytes octets in negb (a =? 0) && negb (a =? u32_max)
  | V6 octets => let a := from_be_bytes octets in negb (a =? 0) && negb (a =? 2 ^ 128 - 1)
  end.

Definition lease_port_of (t : PortType) (port : u16) : LeasePort :=
  match t with PtTcp => LpTcp port | PtUdp => LpUdp port | PtTcpUdp => LpTcpUdp port end.

(** The connection: [FirewallMessage::recv] and [FirewallMessage::send]. *)
Inductive conn_cmd : Type := ConnRecv | ConnSend (m : FirewallMessage).
Definition conn_resp (c : conn_cmd) : Type :=
  match c with ConnRecv => res (option FirewallMessage) | ConnSend _ => res () end.
Definition conn_iface : iface := Iface conn_cmd conn_resp.

Section server.
Context `{HO : HashOrder} {J : iface} {F : Type} `{FO : FirewallOpen J F} (conf : Config).
Local Open Scope prog_scope.

Abbreviation srv_method := (method (isum conn_iface J) F).

Definition conn_call (c : conn_cmd) : srv_method (conn_resp c) :=
  λ fw, Vis (inl c : cmd (isum conn_iface J)) (λ x, Ret (Ok x, fw)).

Definition recv_msg : srv_method (option FirewallMessage) :=
  let! r := conn_call ConnRecv in mret r.
Definition send_msg (m : FirewallMessage) : srv_method () :=
  let! r := conn_call (ConnSend m) in mret r.

Definition fw_call (m : method J F ()) : srv_method () := λ fw, inj_r (m fw).

(** [self.send_msg(&FirewallMessage::new_nack()).await?; return Err(..)] *)
Definition reject {A} (e : error) : srv_method A :=
  let! _ := send_msg new_nack in mret (Err e).

(** The checks at the start of the [Open] and of the [Close] branch, which are the same. *)
Definition checked_request (msg : FirewallMessage) : srv_method (IpAddr * LeasePort) :=
  match fwmsg_addr msg with
  | None => reject "No addr."
  | Some addr =>
      if negb (addr_check addr) then reject "Invalid addr."
      else
        match fwmsg_port msg with
        | None => reject "No port."
        | Some (port_type, port) =>
            if bool_decide (resource_id_by_port conf port None = None)
            then reject "The port is not configured in letmeind.conf."
            else if port =? cp_port (c_port conf)
            then reject "The port is the letmein control port."
            else mret (Ok (addr, lease_port_of port_type port))
        end
  end.

(** [fw.lock().await.open_port(..).await.is_ok()], then the acknowledgement. *)
Definition perform (m : method J F ()) : srv_method () :=
  mtry (fw_call m) (λ r, send_msg (if is_ok r then new_ack else new_nack)).

Definition handle_message : srv_method () :=
  let! msg := recv_msg in
  match msg with
  | None => mret (Err "Disconnected.")
  | Some msg =>
      match f_operation msg with
      | FwOpen =>
          let! (addr, lease_port) := checked_request msg in
          perform (fo_open_port conf addr lease_port)
      | FwClose =>
          let! (addr, lease_port) := checked_request msg in
          perform (fo_close_port conf addr lease_port)
      | FwAck | FwNack => mret (Err "Received invalid message")
      end
  end.

End server.

(** ** What a request amounts to *)

(** The request that a message carries, if the firewall daemon accepts it: whether to open or to
    close, the address and the port. *)
Definition request `{HashOrder} (conf : Config) (msg : FirewallMessage)
    : option (bool * IpAddr * LeasePort) :=
  let addr := octets_to_addr (f_addr_type msg) (f_addr msg) in
  if addr_check addr && negb (bool_decide (resource_id_by_port conf (f_port msg) None = None))
     && negb (f_port msg =? cp_port (c_port conf))
  then
    match f_operation msg with
    | FwOpen => Some (true, addr, lease_port_of (f_port_type msg) (f_port msg))
    | FwClose => Some (false, addr, lease_port_of (f_port_type msg) (f_port msg))
    | FwAck | FwNack => None
    end
  else None.

Section spec.
Context `{HO : HashOrder} {J : iface} {F : Type} `{FO : FirewallOpen J F} (conf : Config).
Context {S T : Type} (stC : S → ∀ c : cmd conn_iface, resp conn_iface c → S → Prop)
  (stJ : T → ∀ c : cmd J, resp J c → T → Prop).

Abbreviation execs := (exec (st_sum stC stJ)).

Lemma exec_send_msg m (fw : F) s t r fw' s' t' :
  execs (s, t) (send_msg (J := J) m fw) (r, fw') (s', t') →
  stC s (ConnSend m) r s' ∧ fw' = fw ∧ t' = t.
Proof.
  unfold send_msg, conn_call. intros He. inv_exec_step.
  match goal with Hx : exec _ _ (Vis _ _) _ _ |- _ =>
    apply exec_vis_inv in Hx as (x & [s1 t1] & [Hs Ht] & Hx); apply exec_ret_inv in Hx as [[= -> ->] ->] end.
  repeat inv_exec_step. by subst.
Qed.

Lemma exec_recv_msg (fw : F) s t r fw' s' t' :
  execs (s, t) (recv_msg (J := J) fw) (r, fw') (s', t') →
  stC s ConnRecv r s' ∧ fw' = fw ∧ t' = t.
Proof.
  unfold recv_msg, conn_call. intros He. inv_exec_step.
  match goal with Hx : exec _ _ (Vis _ _) _ _ |- _ =>
    apply exec_vis_inv in Hx as (x & [s1 t1] & [Hs Ht] & Hx); apply exec_ret_inv in Hx as [[= -> ->] ->] end.
  repeat inv_exec_step. by subst.
Qed.

Lemma exec_reject {A} e (fw : F) s t (r : res A) fw' s' t' :
  execs (s, t) (reject (J := J) e fw) (r, fw') (s', t') →
  fw' = fw ∧ t' = t ∧ is_ok r = false ∧ ∃ y, stC s (ConnSend new_nack) y s'.
Proof.
  unfold reject. intros He. inv_exec_step.
  match goal with Hx : exec _ _ (send_msg _ _) (?r1, _) ?st |- _ =>
    destruct st as [s1 t1]; apply exec_send_msg in Hx as (Hs & -> & ->); destruct r1 end;
    repeat inv_exec_step; eauto.
Qed.

(** The checks accept exactly the messages with a request. *)
Lemma exec_checked_request msg (fw : F) s t r fw' s' t' :
  f_operation msg = FwOpen ∨ f_operation msg = FwClose →
  execs (s, t) (checked_request (J := J) conf msg fw) (r, fw') (s', t') →
  fw' = fw ∧ t' = t ∧
  match request conf msg with
  | Some (_, addr, port) => r = Ok (addr, port) ∧ s' = s
  | None => is_ok r = false ∧ ∃ y, stC s (ConnSend new_nack) y s'
  end.
Proof.
  intros Hop. unfold checked_request, request. cbv zeta.
  assert (fwmsg_addr msg = Some (octets_to_addr (f_addr_type msg) (f_addr msg)) ∧
          fwmsg_port msg = Some (f_port_type msg, f_port msg)) as [-> ->].
  { unfold fwmsg_addr, fwmsg_port. by destruct Hop as [-> | ->]. }
  destruct (addr_check _); simpl; [|by intros (-> & -> & ?)%exec_reject].
  case_bool_decide; simpl; [by intros (-> & -> & ?)%exec_reject|].
  destruct (f_port msg =? _); simpl; [by intros (-> & -> & ?)%exec_reject|].
  intros He. repeat inv_exec_step. by destruct Hop as [-> | ->].
Qed.

Lemma exec_perform (m : method J F ()) (fw : F) s t r fw' s' t' :
  execs (s, t) (perform m fw) (r, fw') (s', t') →
  ∃ r1, exec stJ t (m fw) (r1, fw') t' ∧
    match r1 with
    | Panic w => r = Panic w ∧ s' = s
    | _ => stC s (ConnSend (if is_ok r1 then new_ack else new_nack)) r s'
    end.
Proof.
  unfold perform. intros He. inv_exec_step.
  match goal with Hx : exec _ _ (fw_call _ _) (?r1, _) ?st |- _ =>
    destruct st as [s1 t1]; unfold fw_call in Hx; apply exec_inj_r in Hx as [Hx ->]; exists r1; destruct r1 end;
    [apply exec_send_msg in He as (? & -> & ->); done..|].
  repeat inv_exec_step. by simplify_eq.
Qed.

Lemma exec_checked_perform msg (op : IpAddr → LeasePort → method J F ()) (fw : F) s t r fw' s' t' :
  f_operation msg = FwOpen ∨ f_operation msg = FwClose →
  execs (s, t) (method_bind (checked_request (J := J) conf msg)
    (λ '(addr, lease_port), perform (op addr lease_port)) fw) (r, fw') (s', t') →
  match request conf msg with
  | Some (_, addr, port) =>
      ∃ r1, exec stJ t (op addr port fw) (r1, fw') t' ∧
        match r1 with
        | Panic w => r = Panic w ∧ s' = s
        | _ => stC s (ConnSend (if is_ok r1 then new_ack else new_nack)) r s'
        end
  | None => fw' = fw ∧ t' = t ∧ is_ok r = false ∧ ∃ y, stC s (ConnSend new_nack) y s'
  end.
Proof.
  intros Hop He. inv_exec_step.
  match goal with Hx : exec _ _ (checked_request _ _ _) _ ?st |- _ =>
    destruct st as [s1 t1]; apply exec_checked_request in Hx as (-> & -> & Hreq); [|done] end.
  destruct (request conf msg) as [[[b addr] port]|].
  - destruct Hreq as [-> ->]. by apply exec_perform in He.
  - destruct Hreq as [Hr Hy].
    match goal with H0 : is_ok ?x = false |- _ => destruct x end; [done|..]; by repeat inv_exec_step.
Qed.

Lemma request_operation msg b addr port :
  request conf msg = Some (b, addr, port) → f_operation msg = if b then FwOpen else FwClose.
Proof. unfold request. cbv zeta. by destruct (_ && _), (f_operation msg); intros [= <- _ _]. Qed.

Lemma exec_handle_message (fw : F) s t r fw' s' t' :
  execs (s, t) (handle_message (J := J) conf fw) (r, fw') (s', t') →
  ∃ x s1, stC s ConnRecv x s1 ∧
    match x ≫= (λ msg, ok_or msg "Disconnected.") with
    | Ok msg =>
        match request conf msg with
        | Some (is_open, addr, port) =>
            ∃ r1, exec stJ t ((if is_open : bool then fo_open_port else fo_close_port) conf addr port fw)
                    (r1, fw') t' ∧
              match r1 with
              | Panic w => r = Panic w ∧ s' = s1
              | _ => stC s1 (ConnSend (if is_ok r1 then new_ack else new_nack)) r s'
              end
        | None =>
            fw' = fw ∧ t' = t ∧ is_ok r = false ∧
            (f_operation msg = FwOpen ∨ f_operation msg = FwClose → ∃ y, stC s1 (ConnSend new_nack) y s')
        end
    | _ => fw' = fw ∧ t' = t ∧ s' = s1 ∧ is_ok r = false
    end.
Proof.
  unfold handle_message. intros He. inv_exec_step.
  match goal with Hx : exec _ _ (recv_msg _) (?x, _) ?st |- _ =>
    destruct st as [s1 t1]; apply exec_recv_msg in Hx as (Hrecv & -> & ->); exists x, s1; split; [done|];
    destruct x as [[msg|]|e|w]; simpl end; [|by repeat inv_exec_step..].
  pose proof (request_operation msg) as Hop.
  destruct (f_operation msg) eqn:Eop.
  1,2: destruct (request conf msg) as [[[[] addr] port]|] eqn:Er; [by specialize (Hop _ _ _ eq_refl)..|];
    repeat inv_exec_step; split_and!; [done..|]; by intros [].
  - apply exec_checked_perform in He; [|by left]. destruct (request conf msg) as [[[[] addr] port]|];
      [done|by specialize (Hop _ _ _ eq_refl)|naive_solver].
  - apply exec_checked_perform in He; [|by right]. destruct (request conf msg) as [[[[] addr] port]|];
      [by specialize (Hop _ _ _ eq_refl)|done|naive_solver].
Qed.

(** C12 (functional). The whole handling of a connection, for every firewall and every peer. A
    message with an acceptable request leads to exactly one call of the firewall, for the address
    and port of the message, and is acknowledged if and only if that call succeeded. Every other
    message, including one for an unconfigured port, for the control port or for an invalid
    address, leaves the firewall alone, is an error, and is answered with a rejection if it asked to
    open or close. *)
Theorem handle_message_spec (fw : F) s t r fw' s' t' :
  execs (s, t) (handle_message (J := J) conf fw) (r, fw') (s', t') →
  ∃ x s1, stC s ConnRecv x s1 ∧
    match x ≫= (λ msg, ok_or msg "Disconnected.") with
    | Ok msg =>
        match request conf msg with
        | Some (is_open, addr, port) =>
            ∃ r1, exec stJ t ((if is_open : bool then fo_open_port else fo_close_port) conf addr port fw)
                    (r1, fw') t' ∧
              match r1 with
              | Panic w => r = Panic w ∧ s' = s1
              | _ => stC s1 (ConnSend (if is_ok r1 then new_ack else new_nack)) r s'
              end
        | None =>
            fw' = fw ∧ t' = t ∧ is_ok r = false ∧
            (f_operation msg = FwOpen ∨ f_operation msg = FwClose → ∃ y, stC s1 (ConnSend new_nack) y s')
        end
    | _ => fw' = fw ∧ t' = t ∧ s' = s1 ∧ is_ok r = false
    end.
Proof. apply exec_handle_message. Qed.

End spec.

(** ** A concrete connection *)

(** The peer sends the messages of a list; what the server sends is recorded. *)
Abbreviation script := (list FirewallMessage * list FirewallMessage)%type.

Definition script_step (s : script) (c : conn_cmd) : conn_resp c → script → Prop :=
  match c with
  | ConnRecv => λ x s', x = Ok (head s.1) ∧ s' = (tail s.1, s.2)
  | ConnSend m => λ x s', x = Ok () ∧ s' = (s.1, s.2 ++ [m])
  end.

Definition script_handle (c : conn_cmd) (s : script) : conn_resp c * script :=
  match c with
  | ConnRecv => (Ok (head s.1), (tail s.1, s.2))
  | ConnSend m => (Ok (), (s.1, s.2 ++ [m]))
  end.

Definition server_handle (c : cmd (isum conn_iface fw_iface)) (st : script * sim_state)
    : resp (isum conn_iface fw_iface) c * (script * sim_state) :=
  match c with
  | inl c => let (x, s') := script_handle c st.1 in (x, (s', st.2))
  | inr c => let (x, k') := sim_handle c st.2 in (x, (st.1, k'))
  end.

Lemma server_exec_run {R} (p : prog (isum conn_iface fw_iface) R) st r st' t :
  run server_handle p st = (r, st', t) →
  exec (st_sum (I := conn_iface) (J := fw_iface) script_step sim_step) st p r st'.
Proof.
  apply run_exec. intros [c|c] [s k]; simpl.
  - by destruct c.
  - pose proof (sim_handle_step c k) as Hs. by destruct (sim_handle c k).
Qed.

#[local] Existing Instance sorted_order.

Definition sample_serve (m : FirewallMessage) :=
  (run server_handle (handle_message sample_fw_conf sample_fw1) (([m], []), sample_k1)).1.

Example sample_serve_open :
  let '(r, fw, (s, k)) := sample_serve (new_open sample_v4 PtTcp 22) in
  r = Ok () ∧ s.2 = [new_ack] ∧ rule_count k = 3%nat.
Proof. by vm_compute. Qed.

Example sample_serve_control_port :
  let '(r, fw, (s, k)) := sample_serve (new_open sample_v4 PtTcp 5800) in
  is_err r = true ∧ s.2 = [new_nack] ∧ rule_count k = 2%nat.
Proof. by vm_compute. Qed.

Lemma handle_message_spec_witness :
  let '(r, fw, (s, k)) := sample_serve (new_open sample_v4 PtTcp 22) in
  ∃ r1, exec (I := fw_iface) sim_step sample_k1 (open_port sample_fw_conf sample_v4 (LpTcp 22) sample_fw1) (r1, fw) k ∧
    is_ok r1 = true.
Proof.
  destruct (sample_serve (new_open sample_v4 PtTcp 22)) as [[r fw] [s k]] eqn:E.
  assert (He : exec (st_sum (I := conn_iface) (J := fw_iface) script_step sim_step)
    (([new_open sample_v4 PtTcp 22], []), sample_k1)
    (handle_message sample_fw_conf sample_fw1) (r, fw) (s, k)).
  { unfold sample_serve in E.
    destruct (run server_handle (handle_message sample_fw_conf sample_fw1) _) as [[p st] t] eqn:Er.
    simpl in E. injection E as -> ->. exact (server_exec_run _ _ _ _ _ Er). }
  assert (Hs : s.2 = [new_ack]) by (change s with (s, k).1; rewrite <- (f_equal snd E : _ = (s, k)); vm_compute; reflexivity).
  apply handle_message_spec in He. destruct He as (x & s1 & [-> ->] & He). simpl in He.
  change (request sample_fw_conf (new_open sample_v4 PtTcp 22)) with (Some (true, sample_v4, LpTcp 22)) in He.
  destruct He as (r1 & He & Hr). exists r1. split; [exact He|].
  destruct r1; [reflexivity|..].
  - destruct Hr as [_ ->]. discriminate Hs.
  - destruct Hr as [_ ->]. discriminate Hs.
Defined.
