(* ===== verification/FwClient.v ===== *)
(** * The client side of the firewall socket (letmeind/src/firewall_client.rs)

    One request to the firewall daemon, and its reply. *)

From S2P Require Import Prelude Prog Str Proto FwProto Conf.

(** [UnixStream::connect], [FirewallMessage::send] and [FirewallMessage::recv]. *)
Inductive fwc_cmd : Type := FwcConnect | FwcSend (m : FirewallMessage) | FwcRecv.
Definition fwc_resp (c : fwc_cmd) : Type :=
  match c with
  | FwcConnect => res ()
  | FwcSend _ => res ()
  | FwcRecv => res (option FirewallMessage)
  end.
Definition fwc_iface : iface := Iface fwc_cmd fwc_resp.

Section firewall_client.
Local Open Scope prog_scope.

Definition fwc_call {A} (msg : string) (p : prog fwc_iface (res A)) : prog fwc_iface (res A) :=
  pbind p (λ r, Ret (context msg r)).

(** [FirewallClient::new]. *)
Definition FirewallClient_new : prog fwc_iface (res ()) :=
  fwc_call "Connect to Unix socket" (call (FwcConnect : cmd fwc_iface)).

Definition fwc_open_port (addr : IpAddr) (port_type : PortType) (port : u16) : prog fwc_iface (res ()) :=
  let? _ := fwc_call "Send port-open message"
              (call (FwcSend (new_open addr port_type port) : cmd fwc_iface)) in
  let? reply := fwc_call "Receive port-open reply" (call (FwcRecv : cmd fwc_iface)) in
  Ret match reply with
      | None => Err "Connection terminated"
      | Some msg_reply =>
          match f_operation msg_reply with
          | FwAck => Ok ()
          | FwNack => Err "The firewall rejected the port-open request"
          | FwOpen => Err "Received invalid reply"
          | FwClose => Err "Received invalid reply"
          end
      end.

Definition fwc_close_port (addr : IpAddr) (port_type : PortType) (port : u16) : prog fwc_iface (res ()) :=
  let? _ := fwc_call "Send port-close message"
              (call (FwcSend (new_close addr port_type port) : cmd fwc_iface)) in
  let? reply := fwc_call "Receive port-close reply" (call (FwcRecv : cmd fwc_iface)) in
  Ret match reply with
      | None => Err "Connection terminated"
      | Some msg_reply =>
          match f_operation msg_reply with
          | FwAck => Ok ()
          | FwNack => Err "The firewall rejected the port-close request"
          | FwOpen => Err "Received invalid reply"
          | FwClose => Err "Received invalid reply"
          end
      end.

End firewall_client.
