(* ===== verification/Protocol.v ===== *)
(** * The wire protocol on the server (letmeind/src/protocol.rs)

    One control connection of the daemon: the initial message, the challenge and the response, the
    request to the firewall daemon, and the error messages. The peer, the firewall daemon, the
    random source and the timeouts are the environment; the theorems are about everything they may
    do. *)

From S2P Require Import Prelude Prog Str Proto FwProto Conf FwClient.
Local Open Scope Z_scope.

(** ** The interface

    [timeout(d, conn.recv_msg())] and [timeout(d, conn.send_msg(..))] answer [None] if the time
    runs out. *)
Inductive net_cmd : Type := NRecv (timeout : Z) | NSend (timeout : Z) (m : Message) | NRandom (n : nat).
Definition net_resp (c : net_cmd) : Type :=
  match c with
  | NRecv _ => option (res (option Message))
  | NSend _ _ => option (res ())
  | NRandom n => option (vec byte n)
  end.
Definition net_iface : iface := Iface net_cmd net_resp.
Definition proto_iface : iface := isum net_iface fwc_iface.

#[export] Instance proto_random : HasRandom proto_iface := {|
  random_cmd n := inl (NRandom n) : cmd proto_iface;
  random_resp n x := x;
|}.

(** ** State *)

Inductive AuthState : Type := NotAuth | AuthBasicAuth | ChallengeResponseAuth.

#[export] Instance AuthState_eq_dec : EqDecision AuthState.
Proof. solve_decision. Defined.

Record Protocol : Type := MkProtocol {
  p_user_id : option UserId;
  p_resource_id : option ResourceId;
  p_auth_state : AuthState;
}.

Definition Protocol_new : Protocol := MkProtocol None None NotAuth.
Definition set_user_id (u : UserId) (p : Protocol) : Protocol :=
  MkProtocol (Some u) (p_resource_id p) (p_auth_state p).
Definition set_resource_id (r : ResourceId) (p : Protocol) : Protocol :=
  MkProtocol (p_user_id p) (Some r) (p_auth_state p).
Definition set_auth_state (a : AuthState) (p : Protocol) : Protocol :=
  MkProtocol (p_user_id p) (p_resource_id p) a.

Section protocol.
Context `{Crypto} (conf : Config) (peer_ip : IpAddr).
Local Open Scope prog_scope.

Abbreviation pmethod := (method proto_iface Protocol).

Definition net (c : net_cmd) : pmethod (net_resp c) :=
  λ p, Vis (inl c : cmd proto_iface) (λ x, Ret (Ok x, p)).

(** [let _ = m.await;] *)
Definition mignore (m : pmethod ()) : pmethod () := mtry m (λ _, mret (Ok ())).

Definition send_msg (msg : Message) : pmethod () :=
  let! r := net (NSend (c_control_timeout conf) msg) in
  mret (r ← ok_or r "TX communication with peer timed out"; r).

(** Whether the error policy allows a [GoAway] message in this state. *)
Definition go_away_allowed (a : AuthState) : bool :=
  match c_control_error_policy conf with
  | Always => true
  | BasicAuth => bool_decide (a = AuthBasicAuth) || bool_decide (a = ChallengeResponseAuth)
  | FullAuth => bool_decide (a = ChallengeResponseAuth)
  end.

Definition send_go_away : pmethod () :=
  let! p := mget in
  if go_away_allowed (p_auth_state p) then
    let! msg := mlift (Message_new GoAway (default (MkUserId u32_max) (p_user_id p))
                         (default (MkResourceId u32_max) (p_resource_id p))) in
    send_msg msg
  else mret (Ok ()).

(** [let _ = self.send_go_away().await; return Err(..)] *)
Definition fail {A} (e : error) : pmethod A :=
  let! _ := mignore send_go_away in mret (Err e).

Definition recv_msg (expect_operation : Operation) : pmethod Message :=
  let! r := net (NRecv (c_control_timeout conf)) in
  let! msg := mret (r ← ok_or r "RX communication with peer timed out"; r) in
  match msg with
  | Some msg =>
      let! p := mget in
      if negb (bool_decide (m_operation msg = expect_operation))
      then fail "Invalid reply message operation."
      else if match p_user_id p with Some u => negb (bool_decide (m_user msg = u)) | None => false end
      then fail "Received message user mismatch"
      else if match p_resource_id p with Some r => negb (bool_decide (m_resource msg = r)) | None => false end
      then fail "Received message resource mismatch"
      else mret (Ok msg)
  | None => mret (Err "Disconnected.")
  end.

Definition resource_port_type (r : Resource) : res PortType :=
  match r_tcp r, r_udp r with
  | true, false => Ok PtTcp
  | false, true => Ok PtUdp
  | true, true => Ok PtTcpUdp
  | false, false => Panic "internal error: entered unreachable code"
  end.

Definition fwc {A} (p : prog fwc_iface (res A)) : pmethod A := mlift (inj_r p).

(** The request to the firewall daemon. *)
Definition reconfigure_firewall (operation : Operation) (resource : Resource) : pmethod () :=
  let! port_type := mret (resource_port_type resource) in
  mtry (fwc FirewallClient_new) (λ r,
    match r with
    | Ok _ =>
        let! p := mget in
        let! _ := mret (assert (bool_decide (p_auth_state p = ChallengeResponseAuth))
                          "assertion `left == right` failed") in
        if bool_decide (operation = Close) then
          mtry (fwc (fwc_close_port peer_ip port_type (r_port resource))) (λ r,
            match r with Ok _ => mret (Ok ()) | _ => fail "letmeinfwd firewall close" end)
        else
          mtry (fwc (fwc_open_port peer_ip port_type (r_port resource))) (λ r,
            match r with Ok _ => mret (Ok ()) | _ => fail "letmeinfwd firewall open" end)
    | _ => fail "Failed to connect to letmeinfwd"
    end).

(** [Option] values with an early return that sends an error message. *)
Definition get_or_fail {A} (o : option A) (e : error) : pmethod A :=
  match o with Some a => mret (Ok a) | None => fail e end.
Definition check_or_fail (b : bool) (e : error) : pmethod () :=
  if b then mret (Ok ()) else fail e.

(** [Protocol::run]. *)
Definition Protocol_run : pmethod () :=
  let! _ := mset Protocol_new in
  let! r := net (NRecv (c_control_timeout conf)) in
  let! r := mret (ok_or r "RX communication with peer timed out") in
  let! knock := mret match r with
                     | Ok (Some msg) => Ok msg
                     | Ok None => Err "Disconnected."
                     | Err _ => Err "Failed to receive message"
                     | Panic w => Panic w
                     end in
  let! _ := check_or_fail (is_initial (m_operation knock)) "Invalid initial message operation." in
  let operation := m_operation knock in
  let user_id := m_user knock in
  let! _ := mmodify (set_user_id user_id) in
  let resource_id := m_resource knock in
  let! _ := mmodify (set_resource_id resource_id) in
  let! key := get_or_fail (conf_key conf user_id) "Unknown user" in
  let! ok := mret (check_auth_ok_no_challenge knock key) in
  let! _ := check_or_fail ok "Knock: Authentication failed" in
  let! _ := mmodify (set_auth_state AuthBasicAuth) in
  let! resource := get_or_fail (conf_resource conf resource_id) "Unknown resource" in
  let! _ := check_or_fail (contains_user resource user_id) "Resource not allowed for user" in
  let! _ := check_or_fail (negb (r_port resource =? cp_port (c_port conf)))
              "The resource uses the letmein control port." in
  let! challenge := mlift (Message_new Challenge user_id resource_id) in
  let! challenge := mlift (generate_challenge challenge) in
  let! _ := send_msg challenge in
  let! response := recv_msg Response in
  let! ok := mret (check_auth_ok response key challenge) in
  let! _ := check_or_fail ok "Response: Authentication failed" in
  let! _ := mmodify (set_auth_state ChallengeResponseAuth) in
  let! _ := reconfigure_firewall operation resource in
  let! comein := mlift (Message_new ComeIn user_id resource_id) in
  send_msg comein.

End protocol.
