(* ===== verification/ProtoSafe.v ===== *)
(** * What the control server guarantees

    The firewall daemon is asked to do something only after the full challenge-response
    authentication of a permitted request; an error message is sent only as far as the error policy
    allows. Both hold on every path, whatever the peer, the random source and the firewall daemon
    do, and whenever they stop answering. *)

From S2P Require Import Prelude Prog Str Proto FwProto Conf FwClient Protocol.
Local Open Scope Z_scope.

Abbreviation hist := (history proto_iface).
Abbreviation pevent := (event proto_iface).

Definition e_recv (d : Z) (x : option (res (option Message))) : pevent :=
  ev (inl (NRecv d) : cmd proto_iface) x.
Definition e_send (d : Z) (m : Message) (x : option (res ())) : pevent :=
  ev (inl (NSend d m) : cmd proto_iface) x.
Definition e_random (n : nat) (x : option (vec byte n)) : pevent :=
  ev (inl (NRandom n) : cmd proto_iface) x.
Definition e_fw (c : fwc_cmd) (x : fwc_resp c) : pevent := ev (inr c : cmd proto_iface) x.

(** A call that panicked, or random bytes that are missing or fail the sanity checks. *)
Definition panicking (e : pevent) : bool :=
  match e with
  | existT (inl (NRecv _)) x => match x with Some r => is_panic r | None => false end
  | existT (inl (NSend _ _)) x => match x with Some r => is_panic r | None => false end
  | existT (inl (NRandom _)) x =>
      match x with Some v => is_panic (secure_random_check v) | None => true end
  | existT (inr FwcConnect) x => is_panic x
  | existT (inr (FwcSend _)) x => is_panic x
  | existT (inr FwcRecv) x => is_panic x
  end.

Section safety.
Context `{Crypto} (conf : Config) (peer_ip : IpAddr).
Let d := c_control_timeout conf.

(** ** What the history of a connection shows *)

(** The initial message passed the basic authentication. *)
Record basic_auth (knock : Message) (key : list byte) : Prop := {
  ba_initial : is_initial (m_operation knock) = true;
  ba_key : conf_key conf (m_user knock) = Some key;
  ba_mac : m_auth knock = hmac_sha3_256 key (mac_input knock ZERO_AUTH);
}.

(** The requested resource exists, the user may access it and it is not the control port. *)
Record permitted (knock : Message) (resource : Resource) : Prop := {
  pm_resource : conf_resource conf (m_resource knock) = Some resource;
  pm_user : contains_user resource (m_user knock) = true;
  pm_port : r_port resource ≠ cp_port (c_port conf);
}.

(** The response is the one of the same user for the same resource to the nonce of this session. *)
Record response_auth (knock : Message) (key : list byte) (nonce : list byte) (response : Message) : Prop := {
  ra_operation : m_operation response = Response;
  ra_user : m_user response = m_user knock;
  ra_resource : m_resource response = m_resource knock;
  ra_mac : m_auth response = hmac_sha3_256 key (mac_input response nonce);
}.

Definition challenge_msg (knock : Message) (salt nonce : list byte) : Message :=
  MkMessage MAGIC Challenge (m_user knock) (m_resource knock) salt nonce.

(** The session up to the response: the interactions, in this order and nothing in between. *)
Definition auth_session (knock : Message) (salt : vec byte SALT_SIZE) (nonce : vec byte AUTH_SIZE)
    (response : Message) : hist :=
  [e_recv d (Some (Ok (Some knock))); e_random SALT_SIZE (Some salt); e_random AUTH_SIZE (Some nonce);
   e_send d (challenge_msg knock salt nonce) (Some (Ok ())); e_recv d (Some (Ok (Some response)))].

Definition basic_session (t : hist) (knock : Message) : Prop :=
  ∃ key rest, t = e_recv d (Some (Ok (Some knock))) :: rest ∧ basic_auth knock key.

(** The session [t] starts with a complete authentication for [resource]. *)
Definition full_session (t : hist) (knock : Message) (resource : Resource) : Prop :=
  ∃ key salt nonce response rest, t = auth_session knock salt nonce response ++ rest ∧
    basic_auth knock key ∧ permitted knock resource ∧ response_auth knock key nonce response.

(** The request that the knock stands for. *)
Definition fw_request (knock : Message) (resource : Resource) (port_type : PortType) : FirewallMessage :=
  (if bool_decide (m_operation knock = Close) then new_close else new_open)
    peer_ip port_type (r_port resource).

(** ** What may be sent when *)

Definition go_away_ok (t : hist) : Prop :=
  match c_control_error_policy conf with
  | Always => True
  | BasicAuth => ∃ knock, basic_session t knock
  | FullAuth => ∃ knock resource, full_session t knock resource
  end.

Definition acked (t : hist) : Prop :=
  ∃ msg, e_fw FwcRecv (Ok (Some msg)) ∈ t ∧ f_operation msg = FwAck.

Definition allowed (t : hist) (c : cmd proto_iface) : Prop :=
  match c with
  | inl (NRecv _) => True
  | inl (NRandom n) => n = SALT_SIZE ∨ n = AUTH_SIZE
  | inl (NSend _ m) =>
      match m_operation m with
      | Challenge => ∃ knock resource (salt : vec byte SALT_SIZE) (nonce : vec byte AUTH_SIZE), basic_session t knock ∧ permitted knock resource ∧
          m = challenge_msg knock salt nonce
      | ComeIn => ∃ knock resource, full_session t knock resource ∧ acked t ∧
          m_user m = m_user knock ∧ m_resource m = m_resource knock
      | GoAway => go_away_ok t
      | Knock | Response | Close => False
      end
  | inr FwcConnect => ∃ knock resource, full_session t knock resource
  | inr (FwcSend m) =>
      ∃ knock resource port_type key salt nonce response,
        t = auth_session knock salt nonce response ++ [e_fw FwcConnect (Ok ())] ∧
        basic_auth knock key ∧ permitted knock resource ∧ response_auth knock key nonce response ∧
        resource_port_type resource = Ok port_type ∧ m = fw_request knock resource port_type
  | inr FwcRecv => True
  end.

(** A successful session is a fully authenticated one whose request was acknowledged; a panic comes
    from a call that panicked. *)
Definition final (t : hist) (r : res ()) (p : Protocol) : Prop :=
  match r with
  | Ok _ => ∃ knock resource, full_session t knock resource ∧ acked t
  | Err _ => True
  | Panic _ => ∃ e, e ∈ t ∧ panicking e = true
  end.

(** ** Lemmas *)

Lemma basic_session_app t t' knock : basic_session t knock → basic_session (t ++ t') knock.
Proof. intros (key & rest & -> & Hb). by exists key, (rest ++ t'). Qed.
Lemma full_session_app t t' knock resource : full_session t knock resource → full_session (t ++ t') knock resource.
Proof.
  intros (key & salt & nonce & response & rest & -> & Hb). exists key, salt, nonce, response, (rest ++ t').
  by rewrite app_assoc.
Qed.
Lemma acked_app t t' : acked t → acked (t ++ t').
Proof. intros (msg & Hin & Ha). exists msg. split; [apply elem_of_app; by left|done]. Qed.
Lemma go_away_ok_app t t' : go_away_ok t → go_away_ok (t ++ t').
Proof.
  unfold go_away_ok. destruct (c_control_error_policy conf); [done|..].
  - intros (knock & ?). exists knock. by apply basic_session_app.
  - intros (knock & resource & ?). exists knock, resource. by apply full_session_app.
Qed.

Lemma panic_last (t : hist) e : panicking e = true → ∃ e', e' ∈ t ++ [e] ∧ panicking e' = true.
Proof. intros He. exists e. split; [apply elem_of_app; right; by left|done]. Qed.

Lemma wp_secure_random (Q : hist → res (list byte) → Prop) t n :
  (8 <= n)%nat → n = SALT_SIZE ∨ n = AUTH_SIZE →
  (∀ v : vec byte n, Q (t ++ [e_random n (Some v)]) (Ok (vec_to_list v))) →
  (∀ x w, panicking (e_random n x) = true → Q (t ++ [e_random n x]) (Panic w)) →
  wp allowed Q t (secure_random n).
Proof. intros Hn Hn' Hok Hp. apply wp_random; [done|done| |exact Hp]. intros x v E. simpl in E. subst x. apply Hok. Qed.

Lemma wp_Message_new (Q : hist → res Message → Prop) t op u r :
  (∀ v : vec byte SALT_SIZE, Q (t ++ [e_random SALT_SIZE (Some v)]) (Ok (MkMessage MAGIC op u r (vec_to_list v) ZERO_AUTH))) →
  (∀ x w, panicking (e_random SALT_SIZE x) = true → Q (t ++ [e_random SALT_SIZE x]) (Panic w)) →
  wp allowed Q t (Message_new op u r).
Proof. intros Hok Hp. apply wp_new; [by left| |exact Hp]. intros x v E. simpl in E. subst x. apply Hok. Qed.

Lemma wpm_net {c} (Q : hist → res (net_resp c) → Protocol → Prop) t p :
  allowed t (inl c) → (∀ x, Q (t ++ [ev (inl c : cmd proto_iface) x]) (Ok x) p) →
  wpm allowed Q t (net c) p.
Proof. intros Ha HQ. unfold wpm, net. simpl. by split. Qed.

(** Sending an error message is allowed if the authentication state is truthful. *)
Definition state_ok (t : hist) (p : Protocol) : Prop :=
  match p_auth_state p with
  | NotAuth => True
  | AuthBasicAuth => ∃ knock, basic_session t knock
  | ChallengeResponseAuth => (∃ knock, basic_session t knock) ∧ ∃ knock resource, full_session t knock resource
  end.

Lemma wpm_send_go_away t p :
  state_ok t p →
  wpm allowed (λ t' r p', p' = p ∧ match r with Panic _ => ∃ e, e ∈ t' ∧ panicking e = true | _ => True end)
    t (send_go_away conf) p.
Proof.
  intros Hs. unfold send_go_away. wpm_step. wpm_step.
  destruct (go_away_allowed conf (p_auth_state p)) eqn:Hg; [|by wpm_step].
  assert (Hok : go_away_ok t).
  { unfold go_away_ok, go_away_allowed, state_ok in *.
    destruct (c_control_error_policy conf), (p_auth_state p); try done; naive_solver. }
  wpm_step. wpm_step. apply wp_Message_new; [|intros x w Hx; split; [done|by apply panic_last]].
  intros v. unfold send_msg. wpm_step. apply wpm_net; [by apply go_away_ok_app|]. intros x. wpm_step.
  split; [done|]. destruct x as [[]|]; simpl; try done. by apply panic_last.
Qed.

(** An early return with an error message. *)
Lemma wpm_fail {A} (Q : hist → res A → Protocol → Prop) t p e :
  state_ok t p → (∀ t' e' p', Q t' (Err e') p') →
  (∀ t' w p', (∃ e, e ∈ t' ∧ panicking e = true) → Q t' (Panic w) p') →
  wpm allowed Q t (fail conf e) p.
Proof.
  intros Hs Herr Hp. unfold fail, mignore. wpm_step. wpm_step.
  eapply wpm_mono; [|by apply wpm_send_go_away].
  intros t' [[]|e'|w] p' [-> Hr]; simpl; [wpm_step; wpm_step; apply Herr..|by apply Hp].
Qed.


(** After [fail], nothing is left to prove about an error. *)
Ltac use_fail := apply wpm_fail; [try done|done|by intros t' w p' ?].

(** The response: it has the expected operation, user and resource. *)
Lemma wpm_recv_msg (Q : hist → res Message → Protocol → Prop) t p op :
  state_ok t p →
  (∀ msg, m_operation msg = op → (∀ u, p_user_id p = Some u → m_user msg = u) →
     (∀ r, p_resource_id p = Some r → m_resource msg = r) →
     Q (t ++ [e_recv d (Some (Ok (Some msg)))]) (Ok msg) p) →
  (∀ t' e' p', Q t' (Err e') p') →
  (∀ t' w p', (∃ e, e ∈ t' ∧ panicking e = true) → Q t' (Panic w) p') →
  wpm allowed Q t (recv_msg conf op) p.
Proof.
  intros Hs Hok Herr Hp. unfold recv_msg. wpm_step. apply wpm_net; [done|].
  intros [[[msg|]|e|w]|]; simpl; wpm_step; wpm_step; simpl; try (by apply Herr).
  2:{ apply Hp, panic_last. done. }
  wpm_step. wpm_step.
  assert (Hs' : state_ok (t ++ [e_recv d (Some (Ok (Some msg)))]) p).
  { unfold state_ok in *. destruct (p_auth_state p); naive_solver eauto using basic_session_app, full_session_app. }
  case_bool_decide as Hop; simpl; [|by apply wpm_fail].
  destruct (p_user_id p) as [u|] eqn:Hu; [destruct (bool_decide_reflect (m_user msg = u)); simpl; [|by apply wpm_fail]|];
  (destruct (p_resource_id p) as [r|] eqn:Hr;
    [destruct (bool_decide_reflect (m_resource msg = r)); simpl; [|by apply wpm_fail]|]);
  wpm_step; apply Hok; naive_solver.
Qed.

Lemma state_ok_app t t' p : state_ok t p → state_ok (t ++ t') p.
Proof.
  unfold state_ok. destruct (p_auth_state p); naive_solver eauto using basic_session_app, full_session_app.
Qed.

Lemma resource_port_type_ok resource : Resource_ok resource → ∃ pt, resource_port_type resource = Ok pt.
Proof.
  intros Hres. unfold resource_port_type. pose proof (ro_proto _ Hres).
  destruct (r_tcp resource), (r_udp resource); eauto. done.
Qed.

Lemma wpm_fwc {A} (Q : hist → res A → Protocol → Prop) t (q : prog fwc_iface (res A)) p :
  wp allowed (λ t' r, Q t' r p) t (inj_r q) → wpm allowed Q t (fwc q) p.
Proof. apply wpm_lift. Qed.

(** One exchange with the firewall daemon. *)
Lemma wp_fw_exchange (Q : hist → res () → Prop) t m (p : prog fwc_iface (res ())) :
  p = fwc_close_port (octets_to_addr (f_addr_type m) (f_addr m)) (f_port_type m) (f_port m) ∧
      m = new_close (octets_to_addr (f_addr_type m) (f_addr m)) (f_port_type m) (f_port m) ∨
  p = fwc_open_port (octets_to_addr (f_addr_type m) (f_addr m)) (f_port_type m) (f_port m) ∧
      m = new_open (octets_to_addr (f_addr_type m) (f_addr m)) (f_port_type m) (f_port m) →
  allowed t (inr (FwcSend m)) →
  (∀ t', acked (t ++ t') → Q (t ++ t') (Ok ())) →
  (∀ t' e', Q (t ++ t') (Err e')) →
  (∀ t' w, (∃ e, e ∈ t ++ t' ∧ panicking e = true) → Q (t ++ t') (Panic w)) →
  wp allowed Q t (inj_r p).
Proof.
  intros Hm Ha Hok Herr Hp.
  destruct Hm as [[-> Em]|[-> Em]]; simpl; rewrite <- Em; (split; [done|]);
    intros [[]|e|w]; simpl; rewrite <- ?app_assoc; try apply Herr;
    try (apply Hp; exists (e_fw (FwcSend m) (Panic w)); split; [set_solver|done]);
    (split; [done|]); intros [[msg|]|e|w]; simpl; rewrite <- ?app_assoc; try apply Herr;
    try (apply Hp; exists (e_fw FwcRecv (Panic w)); split; [set_solver|done]);
    destruct (f_operation msg) eqn:Eop; try apply Herr.
  all: apply Hok; exists msg; split; [set_solver|exact Eop].
Qed.

(** Asking the firewall daemon, after the full authentication. *)
Lemma wpm_reconfigure_firewall (Q : hist → res () → Protocol → Prop) p knock key salt nonce response resource :
  Resource_ok resource → p_auth_state p = ChallengeResponseAuth →
  basic_auth knock key → permitted knock resource → response_auth knock key (vec_to_list nonce) response →
  (∀ t', acked (auth_session knock salt nonce response ++ t') →
     Q (auth_session knock salt nonce response ++ t') (Ok ()) p) →
  (∀ t' e' p', Q t' (Err e') p') →
  (∀ t' w p', (∃ e, e ∈ t' ∧ panicking e = true) → Q t' (Panic w) p') →
  wpm allowed Q (auth_session knock salt nonce response)
    (reconfigure_firewall conf peer_ip (m_operation knock) resource) p.
Proof.
  intros Hres Hst Hb Hperm Hr Hok Herr Hp. remember (auth_session knock salt nonce response) as t eqn:Ht.
  assert (Hfull : ∀ t', full_session (t ++ t') knock resource) by (intros t'; subst t; by exists key, salt, nonce, response, t').
  assert (Hs : ∀ t', state_ok (t ++ t') p).
  { intros t'. unfold state_ok. rewrite Hst. split; [|by exists knock, resource].
    exists knock, key. subst t. eexists. split; [reflexivity|done]. }
  unfold reconfigure_firewall. wpm_step. wpm_step.
  destruct (resource_port_type_ok _ Hres) as [pt Hpt]. rewrite Hpt. simpl.
  wpm_step. apply wpm_fwc. simpl. split; [exists knock, resource; rewrite <- (app_nil_r t); apply Hfull|].
  intros [[]|e|w]; simpl; [|apply wpm_fail; [apply Hs|done..]|apply Hp; by apply panic_last].
  wpm_step. wpm_step. rewrite Hst. simpl. wpm_step. wpm_step. simpl.
  set (m := fw_request knock resource pt).
  assert (Hsend : allowed (t ++ [ev (inr FwcConnect : cmd proto_iface) (Ok ())]) (inr (FwcSend m))).
  { exists knock, resource, pt, key, salt, nonce, response. subst t. by split_and!. }
  assert (Hcase : ∀ (q : prog fwc_iface (res ())) e,
    q = (if bool_decide (m_operation knock = Close) then fwc_close_port else fwc_open_port)
          peer_ip pt (r_port resource) →
    wpm allowed Q (t ++ [ev (inr FwcConnect : cmd proto_iface) (Ok ())])
      (mtry (fwc q) (λ r, match r with Ok _ => mret (Ok ()) | _ => fail conf e end)) p).
  { intros q e ->. wpm_step. apply wpm_fwc. eapply (wp_fw_exchange _ _ m); [|exact Hsend|..].
    - unfold m, fw_request. case_bool_decide; [left|right];
        destruct (addr_to_octets peer_ip) as [ty o] eqn:Eo; pose proof (octets_to_addr_to_octets peer_ip) as E;
        rewrite Eo in E; unfold new_close, new_open; rewrite Eo; simpl; by rewrite E, Eo.
    - intros t' Hack. wpm_step. rewrite <- app_assoc. apply Hok. by rewrite app_assoc.
    - intros t' e'. rewrite <- app_assoc. by apply wpm_fail.
    - intros t' w Hw. by apply Hp. }
  case_bool_decide; by apply Hcase.
Qed.


Lemma wpm_check_or_fail (Q : hist → res () → Protocol → Prop) t p b e :
  state_ok t p → (b = true → Q t (Ok ()) p) → (∀ t' e' p', Q t' (Err e') p') →
  (∀ t' w p', (∃ e, e ∈ t' ∧ panicking e = true) → Q t' (Panic w) p') →
  wpm allowed Q t (check_or_fail conf b e) p.
Proof. intros Hs Hok Herr Hp. destruct b; simpl; [wpm_step; by apply Hok|by apply wpm_fail]. Qed.

Lemma wpm_get_or_fail {A} (Q : hist → res A → Protocol → Prop) t p o e :
  state_ok t p → (∀ a, o = Some a → Q t (Ok a) p) → (∀ t' e' p', Q t' (Err e') p') →
  (∀ t' w p', (∃ e, e ∈ t' ∧ panicking e = true) → Q t' (Panic w) p') →
  wpm allowed Q t (get_or_fail conf o e) p.
Proof. intros Hs Hok Herr Hp. destruct o; simpl; [wpm_step; by apply Hok|by apply wpm_fail]. Qed.

Lemma wpm_send_msg (Q : hist → res () → Protocol → Prop) t p m :
  allowed t (inl (NSend d m)) → Q (t ++ [e_send d m (Some (Ok ()))]) (Ok ()) p →
  (∀ t' e' p', Q t' (Err e') p') →
  (∀ t' w p', (∃ e, e ∈ t' ∧ panicking e = true) → Q t' (Panic w) p') →
  wpm allowed Q t (send_msg conf m) p.
Proof.
  intros Ha Hok Herr Hp. unfold send_msg. wpm_step. apply wpm_net; [done|].
  intros [[[]|e|w]|]; wpm_step; simpl; [exact Hok|apply Herr| |apply Herr]. apply Hp. by apply panic_last.
Qed.

(** The end of a session, after the response has been authenticated. *)
Lemma wpm_finish p knock key salt nonce response resource :
  Resource_ok resource → p_auth_state p = ChallengeResponseAuth →
  basic_auth knock key → permitted knock resource → response_auth knock key (vec_to_list nonce) response →
  wpm allowed final (auth_session knock salt nonce response)
    (let! _ := reconfigure_firewall conf peer_ip (m_operation knock) resource in
     let! comein := mlift (Message_new ComeIn (m_user knock) (m_resource knock)) in
     send_msg conf comein)%prog p.
Proof.
  intros Hres Hst Hb Hperm Hr. wpm_step. eapply wpm_reconfigure_firewall; [done..| |done|done].
  intros t' Hack.
  assert (Hfull : ∀ t'', full_session ((auth_session knock salt nonce response ++ t') ++ t'') knock resource).
  { intros t''. exists key, salt, nonce, response, (t' ++ t''). by rewrite app_assoc. }
  wpm_step. wpm_step. apply wp_Message_new; [|intros; by apply panic_last].
  intros v. apply wpm_send_msg; [| |done|done].
  - exists knock, resource. split_and!; [apply Hfull|by apply acked_app|done|done].
  - exists knock, resource. rewrite <- (app_assoc _ _ [_]). split; [apply Hfull|by apply acked_app].
Qed.

Lemma wpm_run p : Config_ok conf → wpm allowed final [] (Protocol_run conf peer_ip) p.
Proof.
  intros Hconf. unfold Protocol_run. wpm_step. wpm_step. wpm_step. apply wpm_net; [done|].
  intros r. wpm_step. wpm_step. destruct r as [r|]; simpl; [|done]. wpm_step. wpm_step.
  destruct r as [[knock|]|e|w]; simpl; [|done|done|by eexists; split; [by left|]].
  assert (Hno : ∀ t q, p_auth_state q = NotAuth → state_ok t q) by (intros t q E; unfold state_ok; by rewrite E).
  wpm_step. apply wpm_check_or_fail; [by apply Hno| |done|done]. intros Hinit.
  wpm_step. wpm_step. wpm_step. wpm_step. wpm_step.
  apply wpm_get_or_fail; [by apply Hno| |done|done]. intros key Hkey.
  destruct (co_keys _ Hconf _ _ Hkey) as [Hlen _]. rewrite check_auth_ok_no_challenge_spec by done.
  wpm_step. wpm_step. wpm_step. apply wpm_check_or_fail; [by apply Hno| |done|done].
  intros Hmac%bool_decide_eq_true. wpm_step. wpm_step.
  assert (Hb : basic_auth knock key) by done.
  assert (Hbs : ∀ rest, basic_session (e_recv d (Some (Ok (Some knock))) :: rest) knock) by (intros; by exists key, rest).
  assert (Hbasic : ∀ rest q, p_auth_state q = AuthBasicAuth → state_ok (e_recv d (Some (Ok (Some knock))) :: rest) q).
  { intros rest q E. unfold state_ok. rewrite E. by exists knock. }
  wpm_step. apply wpm_get_or_fail; [by apply Hbasic| |done|done]. intros resource Hres.
  wpm_step. apply wpm_check_or_fail; [by apply Hbasic| |done|done]. intros Huser.
  wpm_step. apply wpm_check_or_fail; [by apply Hbasic| |done|done].
  intros Hport%negb_true_iff%Z.eqb_neq.
  assert (Hperm : permitted knock resource) by done.
  wpm_step. wpm_step. apply wp_Message_new; [|intros; by apply panic_last]. intros salt.
  wpm_step. wpm_step. unfold generate_challenge. simpl bool_decide. cbn iota.
  apply wp_cbind. apply wp_secure_random; [unfold AUTH_SIZE; lia|by right| |intros; by apply panic_last].
  intros nonce. simpl. wpm_step. apply wpm_send_msg; [| |done|done].
  { exists knock, resource, salt, nonce. by split_and!. }
  wpm_step. apply wpm_recv_msg; [by apply Hbasic| |done|done]. intros response Hop Hru Hrr.
  specialize (Hru _ eq_refl). specialize (Hrr _ eq_refl).
  rewrite check_auth_ok_spec by (done || apply length_vec_to_list).
  wpm_step. wpm_step. wpm_step. apply wpm_check_or_fail; [by apply Hbasic| |done|done].
  intros Hmac2%bool_decide_eq_true. wpm_step. wpm_step.
  by apply (wpm_finish _ knock key salt nonce response resource); [by eapply co_resources|..].
Qed.

End safety.

(** ** Completeness *)

Section complete.
Context `{Crypto} (conf : Config) (peer_ip : IpAddr).
Let d := c_control_timeout conf.

Record good_session (knock : Message) (key : list byte) (resource : Resource) (pt : PortType)
    (salt : vec byte SALT_SIZE) (nonce : vec byte AUTH_SIZE) (response : Message) : Prop := {
  gs_basic : basic_auth conf knock key;
  gs_permitted : permitted conf knock resource;
  gs_response : response_auth knock key nonce response;
  gs_port_type : resource_port_type resource = Ok pt;
  gs_salt : secure_random_check salt = Ok (vec_to_list salt);
  gs_nonce : secure_random_check nonce = Ok (vec_to_list nonce);
  gs_key : length key = KEY_SIZE;
}.

Definition comein_msg (knock : Message) (salt : vec byte SALT_SIZE) : Message :=
  MkMessage MAGIC ComeIn (m_user knock) (m_resource knock) salt ZERO_AUTH.

(** The rest of the session, when the firewall daemon acknowledges the request. *)
Definition acked_session (request : FirewallMessage) (knock : Message) (salt : vec byte SALT_SIZE) : hist :=
  [e_fw (FwcSend request) (Ok ()); e_fw FwcRecv (Ok (Some new_ack)); e_random SALT_SIZE (Some salt);
   e_send d (comein_msg knock salt) (Some (Ok ()))].

Definition final_state (knock : Message) : Protocol :=
  MkProtocol (Some (m_user knock)) (Some (m_resource knock)) ChallengeResponseAuth.

Ltac run_cbn := cbn -[check_auth_ok_no_challenge check_auth_ok is_initial secure_random_check resource_port_type].
Ltac run_step := eapply steps_cons; run_cbn.

(** From the initial message up to the sending of the challenge. *)
Ltac run_challenge Hinit Hkey Hres Huser Hport Hsalt Hnonce :=
  unfold auth_session, Protocol_run, method_bind; cbn [mset pbind net take app];
  run_step; rewrite Hinit; run_cbn; rewrite Hkey; run_cbn;
  rewrite check_auth_ok_no_challenge_spec by done; run_cbn;
  rewrite bool_decide_eq_true_2 by done; run_cbn; rewrite Hres; run_cbn; rewrite Huser; run_cbn;
  rewrite (proj2 (Z.eqb_neq _ _)) by done; run_cbn;
  run_step; rewrite Hsalt; run_cbn; run_step; rewrite Hnonce; run_cbn; run_step.

Lemma run_reaches p knock key resource pt salt nonce response :
  good_session knock key resource pt salt nonce response →
  ∃ k, steps (Protocol_run conf peer_ip p)
         (auth_session conf knock salt nonce response ++ [e_fw FwcConnect (Ok ())])
         (Vis (inr (FwcSend (fw_request peer_ip knock resource pt)) : cmd proto_iface) k) ∧
    ∀ salt2 : vec byte SALT_SIZE, secure_random_check salt2 = Ok (vec_to_list salt2) →
      steps (Vis (inr (FwcSend (fw_request peer_ip knock resource pt)) : cmd proto_iface) k)
        (acked_session (fw_request peer_ip knock resource pt) knock salt2) (Ret (Ok (), final_state knock)).
Proof.
  intros [[Hinit Hkey Hmac] [Hres Huser Hport] [Hop Hru Hrr Hrm] Hpt Hsalt Hnonce Hlen].
  assert (∃ q, steps (Protocol_run conf peer_ip p)
         (auth_session conf knock salt nonce response ++ [e_fw FwcConnect (Ok ())]) q ∧
    ∃ k, q = Vis (inr (FwcSend (fw_request peer_ip knock resource pt)) : cmd proto_iface) k ∧
      ∀ salt2 : vec byte SALT_SIZE, secure_random_check salt2 = Ok (vec_to_list salt2) →
      steps (Vis (inr (FwcSend (fw_request peer_ip knock resource pt)) : cmd proto_iface) k)
        (acked_session (fw_request peer_ip knock resource pt) knock salt2) (Ret (Ok (), final_state knock)))
    as (q & Hq & k & -> & Hk); [|by exists k].
  eexists. split.
  - run_challenge Hinit Hkey Hres Huser Hport Hsalt Hnonce. run_step.
    rewrite !bool_decide_eq_true_2 by done. run_cbn.
    rewrite check_auth_ok_spec by (done || apply length_vec_to_list). run_cbn.
    rewrite bool_decide_eq_true_2 by done. run_cbn. rewrite Hpt. run_cbn. run_step. apply steps_nil.
  - rewrite bool_decide_eq_true_2 by done. cbn -[secure_random_check]. unfold fw_request.
    destruct (bool_decide (m_operation knock = Close)); eexists; (split; [reflexivity|]);
      intros salt2 Hsalt2; unfold acked_session; do 3 (eapply steps_cons; cbn -[secure_random_check]);
      rewrite Hsalt2; cbn; eapply steps_cons; cbn; apply steps_nil.
Qed.

(** An error while the server waits for the initial message, or for the response, is the end of
    the session. *)
Lemma run_recv_error p e :
  ∃ e' p', steps (Protocol_run conf peer_ip p) [e_recv d (Some (Err e))] (Ret (Err e', p')).
Proof. do 2 eexists. unfold Protocol_run, method_bind. cbn [mset pbind net]. run_step. apply steps_nil. Qed.

Lemma run_recv_error_response p knock key resource pt salt nonce response e :
  good_session knock key resource pt salt nonce response →
  ∃ e' p', steps (Protocol_run conf peer_ip p)
    (take 4 (auth_session conf knock salt nonce response) ++ [e_recv d (Some (Err e))]) (Ret (Err e', p')).
Proof.
  intros [[Hinit Hkey Hmac] [Hres Huser Hport] _ Hpt Hsalt Hnonce Hlen]. do 2 eexists.
  run_challenge Hinit Hkey Hres Huser Hport Hsalt Hnonce. run_step. apply steps_nil.
Qed.

End complete.

(** ** Properties *)

Section properties.
Context `{Crypto} (conf : Config) (peer_ip : IpAddr).

(** C1 (safety). The firewall daemon receives a request only at the end of a complete
    authentication. In every execution, when a request is sent, the interactions so far are
    exactly: the initial message, the two random strings of the challenge, the challenge, the
    response, and the connection to the firewall daemon; the initial message carries a valid MAC of
    a configured user, its resource is configured, accessible to the user and not on the control
    port, and the response carries a valid MAC of the same user over the nonce of this session. The
    request is the one of the initial message, for the address of the peer and the port and
    protocols of the resource. *)
Theorem firewall_request_authenticated p t m k :
  Config_ok conf →
  steps (Protocol_run conf peer_ip p) t (Vis (inr (FwcSend m) : cmd proto_iface) k) →
  ∃ knock resource port_type key salt nonce response,
    t = auth_session conf knock salt nonce response ++ [e_fw FwcConnect (Ok ())] ∧
    basic_auth conf knock key ∧ permitted conf knock resource ∧
    response_auth knock key (vec_to_list nonce) response ∧
    resource_port_type resource = Ok port_type ∧ m = fw_request peer_ip knock resource port_type.
Proof.
  intros Hc Hs. pose proof (wpm_run conf peer_ip p Hc) as Hw.
  apply wp_steps in Hw as [Hw _]. exact (Hw _ _ _ Hs).
Qed.

(** C13 (safety). The error policy. Unless the policy is to answer always, nothing at all is sent
    before the initial message has passed the basic authentication: the port is silent for
    everybody who does not know a key. With the policy of full authentication, an error message is
    sent only after the response has been authenticated as well. *)
Theorem error_policy_respected p t timeout m k :
  Config_ok conf →
  steps (Protocol_run conf peer_ip p) t (Vis (inl (NSend timeout m) : cmd proto_iface) k) →
  (c_control_error_policy conf ≠ Always → ∃ knock, basic_session conf t knock) ∧
  (c_control_error_policy conf = FullAuth → m_operation m = GoAway →
     ∃ knock resource, full_session conf t knock resource).
Proof.
  intros Hc Hs. pose proof (wpm_run conf peer_ip p Hc) as Hw.
  apply wp_steps in Hw as [Hw _]. specialize (Hw _ _ _ Hs). simpl in Hw.
  assert (Hfb : ∀ knock resource, full_session conf t knock resource → basic_session conf t knock).
  { intros knock resource (key & salt & nonce & response & rest & -> & Hb & _). exists key. by eexists. }
  unfold go_away_ok in Hw. split.
  - intros Hp. destruct (m_operation m); try done.
    + destruct Hw as (knock & _ & _ & _ & Hb & _). by exists knock.
    + destruct Hw as (knock & resource & Hf & _). exists knock. by eapply Hfb.
    + destruct (c_control_error_policy conf); [done|done|].
      destruct Hw as (knock & resource & Hf). exists knock. by eapply Hfb.
  - intros Hp Hm. by rewrite Hm, Hp in Hw.
Qed.

(** C11 (functional). A come-in message, and the successful end of a session, tell the peer the
    truth: the session was fully authenticated and the firewall daemon has acknowledged its
    request. Every other session ends with an error; the server panics only if one of its calls
    does, or the random source fails. *)
Theorem session_outcome p t :
  Config_ok conf →
  (∀ timeout m k, steps (Protocol_run conf peer_ip p) t (Vis (inl (NSend timeout m) : cmd proto_iface) k) →
     m_operation m = ComeIn →
     ∃ knock resource, full_session conf t knock resource ∧ acked t ∧
       m_user m = m_user knock ∧ m_resource m = m_resource knock) ∧
  (∀ r p', steps (Protocol_run conf peer_ip p) t (Ret (r, p')) →
     match r with
     | Ok _ => ∃ knock resource, full_session conf t knock resource ∧ acked t
     | Err _ => True
     | Panic _ => ∃ e, e ∈ t ∧ panicking e = true
     end).
Proof.
  intros Hc. pose proof (wpm_run conf peer_ip p Hc) as Hw. apply wp_steps in Hw as [Hw1 Hw2]. split.
  - intros timeout m k Hs Hm. specialize (Hw1 _ _ _ Hs). simpl in Hw1. by rewrite Hm in Hw1.
  - intros r p' Hs. exact (Hw2 _ _ Hs).
Qed.

(** C14 (liveness). The honest session succeeds: a permitted initial message and a response with
    valid MACs lead to the request, and if the firewall daemon acknowledges it, to the come-in
    message and success. *)
Theorem honest_session_succeeds p knock key resource pt salt nonce response salt2 :
  good_session conf knock key resource pt salt nonce response →
  secure_random_check (vec_to_list salt2) = Ok (vec_to_list salt2) →
  steps (Protocol_run conf peer_ip p)
    (auth_session conf knock salt nonce response ++ [e_fw FwcConnect (Ok ())] ++
     acked_session conf (fw_request peer_ip knock resource pt) knock salt2)
    (Ret (Ok (), final_state knock)).
Proof.
  intros Hg Hs. destruct (run_reaches conf peer_ip p _ _ _ _ _ _ _ Hg) as (k & Hk & Hrest).
  rewrite app_assoc. eapply steps_trans; [exact Hk|by apply Hrest].
Qed.

(** C25 (safety). The limits of the authentication: the response covers neither the operation of the
    initial message nor the address of the peer. A response that a user computed for the session of one
    peer completes, for the same nonce, a session of any other peer; and it completes a session that
    closes the resource instead of opening it, if the initial message of that session is an earlier
    one of the user (its MAC does not depend on the session), and conversely. *)
Theorem response_transferable p knock key resource pt salt nonce response peer' old :
  good_session conf knock key resource pt salt nonce response →
  m_user old = m_user knock → m_resource old = m_resource knock → is_initial (m_operation old) = true →
  m_auth old = hmac_sha3_256 key (mac_input old ZERO_AUTH) →
  (∃ k, steps (Protocol_run conf peer_ip p)
         (auth_session conf knock salt nonce response ++ [e_fw FwcConnect (Ok ())])
         (Vis (inr (FwcSend (fw_request peer_ip knock resource pt)) : cmd proto_iface) k)) ∧
  (∃ k, steps (Protocol_run conf peer' p)
         (auth_session conf old salt nonce response ++ [e_fw FwcConnect (Ok ())])
         (Vis (inr (FwcSend (fw_request peer' old resource pt)) : cmd proto_iface) k)).
Proof.
  intros Hg Eu Er Hio Hmo. split.
  { destruct (run_reaches conf peer_ip p _ _ _ _ _ _ _ Hg) as (k & Hsteps & _). by exists k. }
  destruct Hg as [[Hi Hk Hm] [Hr Hu Hp] [Ho Hru Hrr Hrm] Hpt Hs Hn Hl].
  destruct (run_reaches conf peer' p old key resource pt salt nonce response) as (k & Hsteps & _);
    [|by exists k].
  split; [| | |done..]; split; congruence.
Qed.

End properties.

(** ** A concrete session *)

#[local] Existing Instance toy_crypto.

Definition sample_key : list byte := default [] (conf_key sample_conf (MkUserId 0)).
Definition sample_salt : vec byte SALT_SIZE := list_to_vec (x01 :: replicate 7 x02).
Definition sample_nonce : vec byte AUTH_SIZE := list_to_vec (x03 :: replicate 31 x04).

Definition signed (op : Operation) (challenge : list byte) : Message :=
  let m := MkMessage MAGIC op (MkUserId 0) (MkResourceId 1) sample_salt ZERO_AUTH in
  set_auth (hmac_sha3_256 sample_key (mac_input m challenge)) m.
Definition sample_knock : Message := signed Knock ZERO_AUTH.
Definition sample_close_msg : Message := signed Close ZERO_AUTH.
Definition sample_response : Message := signed Response sample_nonce.
Definition sample_resource : Resource := MkResource 22 true false [MkUserId 0].

Lemma sample_good_session :
  good_session sample_conf sample_knock sample_key sample_resource PtTcp sample_salt sample_nonce sample_response.
Proof. split; [split| split|split|..]; vm_compute; (reflexivity || discriminate). Qed.

Lemma firewall_request_authenticated_witness :
  ∃ k, steps (Protocol_run sample_conf sample_v4 Protocol_new)
    (auth_session sample_conf sample_knock sample_salt sample_nonce sample_response ++ [e_fw FwcConnect (Ok ())])
    (Vis (inr (FwcSend (new_open sample_v4 PtTcp 22)) : cmd proto_iface) k) ∧
  ∃ knock resource port_type, new_open sample_v4 PtTcp 22 = fw_request sample_v4 knock resource port_type ∧
    permitted sample_conf knock resource.
Proof.
  destruct (run_reaches sample_conf sample_v4 Protocol_new _ _ _ _ _ _ _ sample_good_session) as (k & Hk & _).
  exists k. split; [exact Hk|].
  destruct (firewall_request_authenticated _ _ _ _ _ _ sample_conf_ok Hk)
    as (knock & resource & pt & key & salt & nonce & response & _ & _ & Hp & _ & _ & E).
  exists knock, resource, pt. split; [exact E|exact Hp].
Defined.

Definition stealth_conf : Config :=
  MkConfig (c_variant sample_conf) (c_path sample_conf) (c_debug sample_conf) (c_port sample_conf)
    (c_control_timeout sample_conf) BasicAuth (c_seccomp sample_conf) (c_keys sample_conf)
    (c_resources sample_conf) (c_default_user sample_conf) (c_nft_exe sample_conf) (c_nft_family sample_conf)
    (c_nft_table sample_conf) (c_nft_chain_input sample_conf) (c_nft_timeout sample_conf).

Lemma stealth_conf_ok : Config_ok stealth_conf.
Proof. destruct sample_conf_ok as [H1 H2 H3 H4 H5]. split; [exact H1|exact H2|exact H3|exact H4|exact H5]. Qed.

Lemma stealth_good_session :
  good_session stealth_conf sample_knock sample_key sample_resource PtTcp sample_salt sample_nonce sample_response.
Proof. split; [split| split|split|..]; vm_compute; (reflexivity || discriminate). Qed.

Definition sample_prefix : hist :=
  [e_recv (c_control_timeout stealth_conf) (Some (Ok (Some sample_knock)));
   e_random SALT_SIZE (Some sample_salt); e_random AUTH_SIZE (Some sample_nonce)].

(** The challenge is the first message that is sent. *)
Lemma error_policy_respected_witness :
  ∃ k, steps (Protocol_run stealth_conf sample_v4 Protocol_new) sample_prefix
    (Vis (inl (NSend (c_control_timeout stealth_conf)
       (challenge_msg sample_knock sample_salt sample_nonce)) : cmd proto_iface) k) ∧
  ∃ knock, basic_session stealth_conf sample_prefix knock.
Proof.
  destruct (run_reaches stealth_conf sample_v4 Protocol_new _ _ _ _ _ _ _ stealth_good_session) as (k & Hk & _).
  destruct (steps_split _ _ sample_prefix _ _ Hk) as [k' Hk']. exists k'. split; [exact Hk'|].
  apply (proj1 (error_policy_respected _ _ _ _ _ _ _ stealth_conf_ok Hk')). discriminate.
Defined.

Lemma session_outcome_witness :
  ∃ knock resource, full_session sample_conf
    (auth_session sample_conf sample_knock sample_salt sample_nonce sample_response ++
     [e_fw FwcConnect (Ok ())] ++
     acked_session sample_conf (new_open sample_v4 PtTcp 22) sample_knock sample_salt) knock resource.
Proof.
  destruct (run_reaches sample_conf sample_v4 Protocol_new _ _ _ _ _ _ _ sample_good_session) as (k & Hk & Hr).
  destruct (proj2 (session_outcome sample_conf sample_v4 Protocol_new _ sample_conf_ok) (Ok ()) (final_state sample_knock)
    (steps_trans _ _ _ _ _ Hk (Hr sample_salt eq_refl))) as (knock & resource & Hf & _).
  exists knock, resource. exact Hf.
Defined.

Lemma honest_session_succeeds_witness :
  steps (Protocol_run sample_conf sample_v4 Protocol_new)
    (auth_session sample_conf sample_knock sample_salt sample_nonce sample_response ++ [e_fw FwcConnect (Ok ())] ++
     acked_session sample_conf (new_open sample_v4 PtTcp 22) sample_knock sample_salt)
    (Ret (Ok (), final_state sample_knock)).
Proof.
  exact (honest_session_succeeds _ _ Protocol_new _ _ _ _ _ _ _ sample_salt sample_good_session eq_refl).
Defined.

(** The response to a knock closes the port for another peer, after the replay of an old close
    message. *)
Lemma response_transferable_witness :
  ∃ k, steps (Protocol_run sample_conf (V4 [# x0a; x00; x00; x01]) Protocol_new)
    (auth_session sample_conf sample_close_msg sample_salt sample_nonce sample_response ++ [e_fw FwcConnect (Ok ())])
    (Vis (inr (FwcSend (new_close (V4 [# x0a; x00; x00; x01]) PtTcp 22)) : cmd proto_iface) k).
Proof.
  exact (proj2 (response_transferable sample_conf sample_v4 Protocol_new _ _ _ _ _ _ _ _ sample_close_msg
    sample_good_session eq_refl eq_refl eq_refl eq_refl)).
Defined.
