(* ===== verification/Client.v ===== *)
(** * The client (letmein/src/resolver.rs, client.rs, command/knock.rs, command/close.rs)

    Name resolution, the control connection, the message sequence of a knock and of a close, and
    the choice of the addresses. The system, the resolver and the server are the environment. *)

From Stdlib Require Import Ascii.
From S2P Require Import Prelude Prog Str Proto FwProto Conf.
Local Open Scope Z_scope.

(** ** Parsing of addresses ([FromStr for IpAddr] of the standard library)

    A parser takes the rest of the input and returns a value with what remains; the failing parser
    consumes nothing. *)

Abbreviation parser A := (str → option (A * str)).

Definition read_given_char (c : Z) : parser () := λ s,
  match s with c' :: s' => if c' =? c then Some ((), s') else None | [] => None end.

(** The digits of a number with at most [max_digits] digits and a value of at most [max]. *)
Fixpoint read_digits (radix max : Z) (max_digits : nat) (result : Z) (count : nat) (s : str)
    : option (Z * nat * str) :=
  match s with
  | [] => Some (result, count, [])
  | c :: s' =>
      match to_digit radix c with
      | None => Some (result, count, s)
      | Some digit =>
          let result := result * radix + digit in
          if max <? result then None
          else if (max_digits <? S count)%nat then None
          else read_digits radix max max_digits result (S count) s'
      end
  end.

Definition read_number (radix max : Z) (max_digits : nat) (allow_zero_prefix : bool) : parser Z := λ s,
  let has_leading_zero := starts_with (ch "0") s in
  '(result, count, s') ← read_digits radix max max_digits 0 0 s;
  if (count =? 0)%nat then None
  else if negb allow_zero_prefix && has_leading_zero && (1 <? count)%nat then None
  else Some (result, s').

(** The separator is read before all elements but the first. *)
Definition read_separator {A} (sep : Z) (first : bool) (inner : parser A) : parser A := λ s,
  if first then inner s else '(_, s') ← read_given_char sep s; inner s'.

Definition read_ipv4_addr : parser (list Z) := λ s,
  let group first := read_separator (ch ".") first (read_number 10 255 3 false) in
  '(a, s) ← group true s; '(b, s) ← group false s; '(c, s) ← group false s; '(d, s) ← group false s;
  Some ([a; b; c; d], s).

(** [read_groups]: up to [limit] groups, and whether the last two stem from an embedded IPv4
    address, which needs room for two groups. *)
Fixpoint read_groups (limit : nat) (first : bool) (s : str) : list u16 * bool * str :=
  match limit with
  | O => ([], false, s)
  | S limit' =>
      let embedded := if (limit' =? 0)%nat then None else read_separator (ch ":") first read_ipv4_addr s in
      match embedded with
      | Some ([a; b; c; d], s') => ([a * 256 + b; c * 256 + d], true, s')
      | _ =>
          match read_separator (ch ":") first (read_number 16 u16_max 4 true) s with
          | Some (g, s') => let '(gs, v4, s'') := read_groups limit' false s' in (g :: gs, v4, s'')
          | None => ([], false, s)
          end
      end
  end.

Definition read_ipv6_addr : parser (list u16) := λ s,
  let '(head, head_ipv4, s) := read_groups 8 true s in
  if (length head =? 8)%nat then Some (head, s)
  else if head_ipv4 then None
  else
    '(_, s) ← read_given_char (ch ":") s; '(_, s) ← read_given_char (ch ":") s;
    let '(tail, _, s) := read_groups (8 - S (length head)) true s in
    Some (head ++ replicate (8 - length head - length tail) 0 ++ tail, s).

Definition ipv4_of (o : list Z) : option IpAddr := V4 <$> array_try_from 4 (o ≫= to_be_bytes 1).
Definition ipv6_of (g : list u16) : option IpAddr := V6 <$> array_try_from 16 (g ≫= to_be_bytes 2).

(** The whole input has to be an address. *)
Definition IpAddr_from_str (s : str) : option IpAddr :=
  match read_ipv4_addr s with
  | Some (o, rest) => if bool_decide (rest = []) then ipv4_of o else None
  | None =>
      '(g, rest) ← read_ipv6_addr s;
      if bool_decide (rest = []) then ipv6_of g else None
  end.

Example parse_v4 : IpAddr_from_str (lit "192.168.0.1") = Some (V4 [# xc0; xa8; x00; x01]).
Proof. by vm_compute. Qed.
Example parse_v6 : IpAddr_from_str (lit "2001:db8::8:800:200C:417A") =
  Some (V6 [# x20; x01; x0d; xb8; x00; x00; x00; x00; x00; x08; x08; x00; x20; x0c; x41; x7a]).
Proof. by vm_compute. Qed.
Example parse_v6_any : IpAddr_from_str (lit "::") = Some (V6 (Vector.const x00 16)).
Proof. by vm_compute. Qed.
Example parse_v6_mapped : IpAddr_from_str (lit "::ffff:1.2.3.4") =
  Some (V6 [# x00; x00; x00; x00; x00; x00; x00; x00; x00; x00; xff; xff; x01; x02; x03; x04]).
Proof. by vm_compute. Qed.
Example parse_no_addr :
  IpAddr_from_str <$> [lit "1.2.3"; lit "1.2.3.04"; lit "256.1.1.1"; lit "1::2::3"; lit "12345::"; lit "example.org"; lit "1.2.3.4 "]
  = replicate 7 None.
Proof. by vm_compute. Qed.

(** ** The interface to the system

    [TokioAsyncResolver::lookup] answers a list of records or fails; the creation of the resolver
    only decides which server is asked. *)

Inductive ResMode : Type := Ipv6 | Ipv4.

#[export] Instance ResMode_eq_dec : EqDecision ResMode.
Proof. solve_decision. Defined.

Inductive RData : Type := RD_AAAA (a : vec byte 16) | RD_A (a : vec byte 4) | RD_other.

(** The warnings of [check_reply]. *)
Inductive warning : Type := WarnUser (expected received : UserId) | WarnResource (expected received : ResourceId).

Inductive cli_cmd : Type :=
| CLookup (host : str) (mode : ResMode)
| CTcpConnect (addr : IpAddr) (port : u16)
| CTcpNodelay
| CUdpBind (ipv4 : bool)
| CUdpConnect (addr : IpAddr) (port : u16)
| CUdpPeerAddr
| CSend (timeout : Z) (m : Message)
| CRecv (timeout : Z)
| CRandom (n : nat)
| CWarn (w : warning).

Definition cli_resp (c : cli_cmd) : Type :=
  match c with
  | CLookup _ _ => option (list RData)
  | CTcpConnect _ _ | CTcpNodelay | CUdpBind _ | CUdpConnect _ _ | CUdpPeerAddr => res ()
  | CSend _ _ => option (res ())
  | CRecv _ => option (res (option Message))
  | CRandom n => option (vec byte n)
  | CWarn _ => ()
  end.

Definition cli_iface : iface := Iface cli_cmd cli_resp.

#[export] Instance cli_random : HasRandom cli_iface := {|
  random_cmd n := CRandom n : cmd cli_iface;
  random_resp n x := x;
|}.

Section client.
Context `{Crypto}.
Local Open Scope prog_scope.

Definition ccall (c : cmd cli_iface) : prog cli_iface (resp cli_iface c) := call c.

(** ** The resolver *)

Definition is_ipv4 (a : IpAddr) : bool := match a with V4 _ => true | V6 _ => false end.

Definition is_ipv4_addr (host : str) : bool := match IpAddr_from_str host with Some a => is_ipv4 a | None => false end.
Definition is_ipv6_addr (host : str) : bool := match IpAddr_from_str host with Some a => negb (is_ipv4 a) | None => false end.

(** The first record of the requested type. *)
Fixpoint first_addr (mode : ResMode) (lookup : list RData) : option IpAddr :=
  match lookup with
  | [] => None
  | r :: rest =>
      match mode, r with
      | Ipv6, RD_AAAA a => Some (V6 a)
      | Ipv4, RD_A a => Some (V4 a)
      | _, _ => first_addr mode rest
      end
  end.

Definition resolve (host : str) (mode : ResMode) : prog cli_iface (res IpAddr) :=
  match IpAddr_from_str host with
  | Some addr =>
      Ret match mode with
          | Ipv4 => if is_ipv4 addr then Ok addr
                    else Err "Supplied a raw IPv6 address, but resolution mode is set to IPv4"
          | Ipv6 => if is_ipv4 addr
                    then Err "Supplied a raw IPv4 address, but resolution mode is set to IPv6"
                    else Ok addr
          end
  | None =>
      let* lookup := ccall (CLookup host mode) in
      Ret match lookup with
          | None => Err "DNS lookup of host failed."
          | Some lookup => ok_or (first_addr mode lookup) "No IP address found for host."
          end
  end.

(** ** The control connection ([Client]) *)

Definition try {A} (msg : string) (p : prog cli_iface (res A)) : prog cli_iface (res A) :=
  let* r := p in Ret (context msg r).

(** [Client::new]; the socket is behind [CSend] and [CRecv]. *)
Definition Client_new (host : str) (control_port : ControlPort) (mode : ResMode) : prog cli_iface (res ()) :=
  let? addr := try "Resolve host name" (resolve host mode) in
  if cp_tcp control_port then
    let? _ := Ret (assert (negb (cp_udp control_port)) "assertion failed: !control_port.udp") in
    let? _ := try "Connect to server" (ccall (CTcpConnect addr (cp_port control_port))) in
    try "Set TCP_NODELAY" (ccall CTcpNodelay)
  else
    let? _ := Ret (assert (cp_udp control_port) "assertion failed: control_port.udp") in
    let? _ := try "Bind UDP socket" (ccall (CUdpBind (is_ipv4 addr))) in
    let? _ := try "Connect to server" (ccall (CUdpConnect addr (cp_port control_port))) in
    try "Get peer address" (ccall CUdpPeerAddr).

Definition cli_recv_msg (control_timeout : Z) : prog cli_iface (res (option Message)) :=
  let* r := ccall (CRecv control_timeout) in
  Ret (r ← ok_or r "RX communication with peer timed out"; r).

Definition cli_send_msg (control_timeout : Z) (msg : Message) : prog cli_iface (res ()) :=
  let* r := ccall (CSend control_timeout msg) in
  Ret (r ← ok_or r "TX communication with peer timed out"; r).

Definition recv_specific_msg (control_timeout : Z) (expect_operation : Operation) : prog cli_iface (res Message) :=
  let? reply := try "Receive knock reply" (cli_recv_msg control_timeout) in
  Ret match reply with
      | None => Err "Connection terminated"
      | Some reply =>
          if bool_decide (m_operation reply = GoAway) then Err "The server rejected the request"
          else if negb (bool_decide (m_operation reply = expect_operation))
          then Err "Invalid reply message operation."
          else Ok reply
      end.

(** ** [KnockSeq] and [CloseSeq] *)

Record Seq : Type := MkSeq {
  s_addr : str;
  s_control_port : ControlPort;
  s_control_timeout : Z;
  s_user : UserId;
  s_resource : ResourceId;
  s_key : Key;
}.

(** A different user or resource is only reported. *)
Definition check_reply (seq : Seq) (msg : Message) : prog cli_iface (res ()) :=
  let* _ := (if bool_decide (m_user msg = s_user seq) then Ret ()
             else ccall (CWarn (WarnUser (s_user seq) (m_user msg)))) in
  let* _ := (if bool_decide (m_resource msg = s_resource seq) then Ret ()
             else ccall (CWarn (WarnResource (s_resource seq) (m_resource msg)))) in
  Ret (Ok ()).

Definition send_context (operation : Operation) : string :=
  match operation with Close => "Send close" | _ => "Send knock" end.

(** The common text of [knock_sequence] and [close_sequence], which differ in the operation of the
    initial message and the context of its errors. *)
Definition sequence (operation : Operation) (seq : Seq) (resolver_mode : ResMode) : prog cli_iface (res ()) :=
  let d := s_control_timeout seq in
  let? _ := try "Client init" (Client_new (s_addr seq) (s_control_port seq) resolver_mode) in
  let? knock := Message_new operation (s_user seq) (s_resource seq) in
  let? knock := Ret (generate_auth_no_challenge knock (s_key seq)) in
  let? _ := try (send_context operation) (cli_send_msg d knock) in
  let? challenge := recv_specific_msg d Challenge in
  let? _ := check_reply seq challenge in
  let? response := Message_new Response (s_user seq) (s_resource seq) in
  let? response := Ret (generate_auth response (s_key seq) challenge) in
  let? _ := try "Send response" (cli_send_msg d response) in
  let? comein := recv_specific_msg d ComeIn in
  check_reply seq comein.

Definition knock_sequence : Seq → ResMode → prog cli_iface (res ()) := sequence Knock.
Definition close_sequence : Seq → ResMode → prog cli_iface (res ()) := sequence Close.

(** ** The commands *)

Inductive AddrMode : Type := TryBoth | Both | ModeIpv6 | ModeIpv4.

Definition AddrMode_from (ipv4_ipv6 : bool * bool) : AddrMode :=
  match ipv4_ipv6 with
  | (false, false) => TryBoth
  | (true, true) => Both
  | (false, true) => ModeIpv6
  | (true, false) => ModeIpv4
  end.

(** [KnockServer] and [CloseServer]. *)
Record TargetServer : Type := MkTargetServer {
  t_addr : str;
  t_addr_mode : AddrMode;
  t_port : option u16;
  t_port_tcp : bool;
  t_port_udp : bool;
}.

Definition to_control_port (server : TargetServer) (conf : Config) : ControlPort :=
  let control_port := c_port conf in
  let control_port :=
    match t_port server with
    | Some server_port => MkControlPort server_port (cp_tcp control_port) (cp_udp control_port)
    | None => control_port
    end in
  let control_port := if t_port_udp server then MkControlPort (cp_port control_port) false true else control_port in
  let control_port := if t_port_tcp server then MkControlPort (cp_port control_port) true false else control_port in
  if cp_tcp control_port && cp_udp control_port
  then MkControlPort (cp_port control_port) (cp_tcp control_port) false else control_port.

Context `{HO : HashOrder}.

(** The first part of [run_knock] and [run_close]. *)
Definition make_seq (conf : Config) (server : TargetServer) (port : u16) (user : option UserId) : res Seq :=
  let user := default (c_default_user conf) user in
  key ← ok_or (conf_key conf user) "No key found for user";
  resource ← ok_or (resource_id_by_port conf port (Some user)) "Port is not mapped to a resource";
  Ok (MkSeq (t_addr server) (to_control_port server conf) (c_control_timeout conf) user resource key).

Definition run_knock (conf : Config) (server : TargetServer) (knock_port : u16) (user : option UserId)
    : prog cli_iface (res ()) :=
  let? seq := Ret (make_seq conf server knock_port user) in
  match t_addr_mode server with
  | TryBoth =>
      if is_ipv4_addr (t_addr server) then knock_sequence seq Ipv4
      else if is_ipv6_addr (t_addr server) then knock_sequence seq Ipv6
      else
        let* res6 := knock_sequence seq Ipv6 in
        match res6 with
        | Panic w => Ret (Panic w)
        | _ =>
            let* res4 := knock_sequence seq Ipv4 in
            match res4 with
            | Panic w => Ret (Panic w)
            | _ => Ret (if is_err res6 && is_err res4 then res6 else Ok ())
            end
        end
  | Both => let? _ := knock_sequence seq Ipv6 in knock_sequence seq Ipv4
  | ModeIpv6 => knock_sequence seq Ipv6
  | ModeIpv4 => knock_sequence seq Ipv4
  end.

Definition run_close (conf : Config) (server : TargetServer) (close_port : u16) (user : option UserId)
    : prog cli_iface (res ()) :=
  let? seq := Ret (make_seq conf server close_port user) in
  match t_addr_mode server with
  | TryBoth =>
      if is_ipv4_addr (t_addr server) then close_sequence seq Ipv4
      else if is_ipv6_addr (t_addr server) then close_sequence seq Ipv6
      else
        let* res6 := close_sequence seq Ipv6 in
        match res6 with
        | Ok _ => Ret (Ok ())
        | Err _ => close_sequence seq Ipv4
        | Panic w => Ret (Panic w)
        end
  | Both => let? _ := close_sequence seq Ipv6 in close_sequence seq Ipv4
  | ModeIpv6 => close_sequence seq Ipv6
  | ModeIpv4 => close_sequence seq Ipv4
  end.

(** [run_genkey]: the line that is printed. *)
Definition run_genkey (conf : Config) (user : option UserId) : prog cli_iface (res str) :=
  let user := default (c_default_user conf) user in
  let? key := secure_random KEY_SIZE in
  let key := (λ b, show_HEX_padded 2 (byte.unsigned b)) <$> key in
  let key := concat key in
  Ret (Ok (UserId_display user ++ lit " = " ++ key)).

End client.
