(* ===== verification/ClientSafe.v ===== *)
(** * What the client guarantees

    The messages that a knock or a close may send, in every environment; what its success means;
    and how the commands combine the attempts for the two address families. *)

From Stdlib Require Import Ascii.
From S2P Require Import Prelude Prog Str Proto FwProto Parse Ini Conf Client.
Local Open Scope Z_scope.

Abbreviation cevent := (event cli_iface).
Abbreviation chist := (history cli_iface).

(** The messages that were sent, and those that arrived. *)
Definition sent_msg (e : cevent) : option Message :=
  match e with existT (CSend _ m) _ => Some m | _ => None end.
Definition received_msg (e : cevent) : option Message :=
  match e with existT (CRecv _) (Some (Ok (Some m))) => Some m | _ => None end.
Definition sends (t : chist) : list Message := omap sent_msg t.
Definition recvs (t : chist) : list Message := omap received_msg t.

(** A call that panicked, a failed random source, or a challenge whose authentication field does not
    have the size of its array, which does not exist in the program. *)
Definition cli_panicking (e : cevent) : bool :=
  match e with
  | existT (CSend _ _) x => match x with Some r => is_panic r | None => false end
  | existT (CRecv _) x =>
      match x with
      | Some (Ok (Some m)) => bool_decide (m_operation m = Challenge) && negb (length (m_auth m) =? AUTH_SIZE)%nat
      | Some (Panic _) => true
      | _ => false
      end
  | existT (CRandom _) x => bad_random x
  | existT (CTcpConnect _ _) x | existT CTcpNodelay x | existT (CUdpBind _) x
  | existT (CUdpConnect _ _) x | existT CUdpPeerAddr x => is_panic (A := ()) x
  | existT (CLookup _ _) _ | existT (CWarn _) _ => false
  end.

Lemma cbind_ok {I A B} (a : A) (f : A → prog I (res B)) : cbind (Ret (Ok a)) f = f a.
Proof. done. Qed.

Section safety.
Context `{Crypto} (op : Operation) (seq : Seq) (mode : ResMode).
Let d := s_control_timeout seq.

Record initial_msg (m : Message) : Prop := {
  im_operation : m_operation m = op;
  im_user : m_user m = s_user seq;
  im_resource : m_resource m = s_resource seq;
  im_mac : m_auth m = hmac_sha3_256 (s_key seq) (mac_input m ZERO_AUTH);
}.

Record response_msg (challenge m : Message) : Prop := {
  rm_challenge : m_operation challenge = Challenge;
  rm_operation : m_operation m = Response;
  rm_user : m_user m = s_user seq;
  rm_resource : m_resource m = s_resource seq;
  rm_mac : m_auth m = hmac_sha3_256 (s_key seq) (mac_input m (m_auth challenge));
}.

Definition good_target (addr : IpAddr) (port : u16) : Prop :=
  is_ipv4 addr = bool_decide (mode = Ipv4) ∧ port = cp_port (s_control_port seq).

(** What the client may do after the interactions [t]. *)
Definition cli_allowed (t : chist) (c : cli_cmd) : Prop :=
  match c with
  | CSend d' m =>
      d' = d ∧ (sends t = [] ∧ recvs t = [] ∧ initial_msg m ∨
                ∃ i ch, sends t = [i] ∧ recvs t = [ch] ∧ initial_msg i ∧ response_msg ch m)
  | CRecv d' => d' = d ∧ (length (recvs t) < length (sends t))%nat
  | CTcpConnect addr port => cp_tcp (s_control_port seq) = true ∧ good_target addr port
  | CUdpConnect addr port => cp_udp (s_control_port seq) = true ∧ good_target addr port
  | CUdpBind ipv4 => ipv4 = bool_decide (mode = Ipv4)
  | CLookup host m => host = s_addr seq ∧ m = mode
  | CWarn (WarnUser e r) => e = s_user seq ∧ r ≠ e ∧ ∃ msg, last (recvs t) = Some msg ∧ r = m_user msg
  | CWarn (WarnResource e r) => e = s_resource seq ∧ r ≠ e ∧ ∃ msg, last (recvs t) = Some msg ∧ r = m_resource msg
  | CRandom n => n = SALT_SIZE
  | CTcpNodelay | CUdpPeerAddr => True
  end.

Definition cli_final (t : chist) (r : res ()) : Prop :=
  match r with
  | Ok _ => ∃ i ch m comein, sends t = [i; m] ∧ recvs t = [ch; comein] ∧
      initial_msg i ∧ response_msg ch m ∧ m_operation comein = ComeIn
  | Err _ => True
  | Panic _ => ∃ e, e ∈ t ∧ cli_panicking e = true
  end.

(** ** Rules *)

Lemma sends_app t t' : sends (t ++ t') = sends t ++ sends t'.
Proof. apply omap_app. Qed.
Lemma recvs_app t t' : recvs (t ++ t') = recvs t ++ recvs t'.
Proof. apply omap_app. Qed.

Lemma sends_elem t msg : msg ∈ sends t ↔ ∃ d x, ev (CSend d msg : cmd cli_iface) x ∈ t.
Proof.
  unfold sends. rewrite list_elem_of_omap. split.
  - intros ([c x] & He & E). destruct c; simplify_eq/=. by do 2 eexists.
  - intros (d' & x & He). by eexists.
Qed.

Lemma cli_panic_last t e : cli_panicking e = true → ∃ e', e' ∈ t ++ [e] ∧ cli_panicking e' = true.
Proof. intros He. exists e. split; [apply elem_of_app; right; by left|done]. Qed.

Abbreviation cwp := (wp cli_allowed).

Lemma wp_try {A} (Q : chist → res A → Prop) t msg p :
  cwp (λ t' r, Q t' (context msg r)) t p → cwp Q t (try msg p).
Proof. intros Hp. apply wp_bind. revert Hp. by apply wp_mono. Qed.

(** Interactions without messages. *)
Definition silent (u : chist) : Prop := sends u = [] ∧ recvs u = [].

Lemma silent_app u u' : silent u → silent u' → silent (u ++ u').
Proof. intros [Hs Hr] [Hs' Hr']. unfold silent. by rewrite sends_app, recvs_app, Hs, Hr, Hs', Hr'. Qed.

Lemma sends_silent t u : silent u → sends (t ++ u) = sends t.
Proof. intros [Hs _]. by rewrite sends_app, Hs, app_nil_r. Qed.
Lemma recvs_silent t u : silent u → recvs (t ++ u) = recvs t.
Proof. intros [_ Hr]. by rewrite recvs_app, Hr, app_nil_r. Qed.

(** A computation that exchanges no message; a panic is the fault of a call. *)
Definition quiet {A} (K : A → Prop) (t : chist) (p : prog cli_iface (res A)) : Prop :=
  cwp (λ t' r, ∃ u, t' = t ++ u ∧ silent u ∧
    match r with
    | Ok a => K a
    | Err _ => True
    | Panic _ => ∃ e, e ∈ t' ∧ cli_panicking e = true
    end) t p.

Lemma quiet_bind {A} (K : A → Prop) t p (f : A → prog cli_iface (res ())) :
  quiet K t p → (∀ u a, K a → silent u → cwp cli_final (t ++ u) (f a)) → cwp cli_final t (cbind p f).
Proof.
  intros Hp Hf. apply wp_cbind. eapply wp_mono; [done| |exact Hp].
  intros t' [a|e|w] (u & -> & Hu & Ha); [by apply Hf|done|done].
Qed.

Lemma quiet_cbind {A B} (K : A → Prop) (K' : B → Prop) t p (f : A → prog cli_iface (res B)) :
  quiet K t p → (∀ u a, K a → silent u → quiet K' (t ++ u) (f a)) → quiet K' t (cbind p f).
Proof.
  intros Hp Hf. apply wp_cbind. eapply wp_mono; [done| |exact Hp].
  intros t' [a|e|w] (u & -> & Hu & Ha); [|by exists u..].
  eapply wp_mono; [done| |by apply Hf]. intros t2 r (u2 & -> & Hu2 & Hx).
  exists (u ++ u2). rewrite app_assoc. split_and!; [done|by apply silent_app|done].
Qed.

Lemma quiet_try {A} (K : A → Prop) t msg p : quiet K t p → quiet K t (try msg p).
Proof.
  intros Hp. apply wp_try. eapply wp_mono; [done| |exact Hp].
  intros t' [a|e|w] Hx; exact Hx.
Qed.

Lemma quiet_ret {A} (K : A → Prop) t (r : res A) :
  match r with Ok a => K a | Err _ => True | Panic _ => False end → quiet K t (Ret r).
Proof. intros Hr. exists []. rewrite app_nil_r. split_and!; [done..|]. by destruct r. Qed.

(** One call of the system that is not a message. *)
Ltac quiet_call :=
  unfold quiet; simpl; split; [|intros x; eexists; split; [reflexivity|split; [by split|
    destruct x; [exact I|exact I|apply cli_panic_last; reflexivity]]]].

Lemma quiet_resolve t : quiet (λ a, is_ipv4 a = bool_decide (mode = Ipv4)) t (resolve (s_addr seq) mode).
Proof.
  unfold resolve. destruct (IpAddr_from_str (s_addr seq)) as [a|].
  { apply quiet_ret. by destruct mode, (is_ipv4 a) eqn:E. }
  unfold quiet. simpl. split; [done|]. intros x. eexists. split; [reflexivity|]. split; [by split|].
  destruct x as [l|]; [|done]. simpl. destruct (first_addr mode l) as [a|] eqn:E; simpl; [|done].
  clear -E. induction l as [|r l IH]; [done|]. simpl in E. destruct mode, r; simplify_eq; by auto.
Qed.

Lemma quiet_Client_new t :
  cp_tcp (s_control_port seq) ≠ cp_udp (s_control_port seq) →
  quiet (λ _, True) t (Client_new (s_addr seq) (s_control_port seq) mode).
Proof.
  intros Hp. unfold Client_new. eapply quiet_cbind; [by apply quiet_try, quiet_resolve|].
  intros t1 a Ha _. destruct (cp_tcp (s_control_port seq)) eqn:Et, (cp_udp (s_control_port seq)) eqn:Eu; try done;
    (eapply quiet_cbind; [by apply (quiet_ret (λ _, True))|]; intros ? _ _ _).
  - eapply quiet_cbind; [apply quiet_try; by quiet_call|]. intros ? _ _ _. apply quiet_try. by quiet_call.
  - do 2 (eapply quiet_cbind; [apply quiet_try; by quiet_call|]; intros ? _ _ _). apply quiet_try. by quiet_call.
Qed.

Lemma quiet_Message_new t o u r :
  quiet (λ m, m_operation m = o ∧ m_user m = u ∧ m_resource m = r) t (Message_new o u r).
Proof.
  apply wp_new; [done|intros x v _|intros x w Hw]; (eexists; split; [reflexivity|split; [by split|]]);
    [by split_and!|by apply cli_panic_last].
Qed.

Lemma quiet_check_reply t msg : last (recvs t) = Some msg → quiet (λ _, True) t (check_reply seq msg).
Proof.
  intros Hl. unfold check_reply, quiet.
  destruct (bool_decide_reflect (m_user msg = s_user seq)) as [_|Hu]; simpl;
    [|split; [by split_and!; eauto|intros []]];
  (destruct (bool_decide_reflect (m_resource msg = s_resource seq)) as [_|Hr]; simpl;
    [|split; [split_and!; [done|done|]; exists msg; by rewrite ?recvs_app, ?app_nil_r|intros []]]);
  rewrite <- ?app_assoc; simpl.
  1: exists []; by rewrite app_nil_r.
  all: eexists; split; [reflexivity|]; by split.
Qed.

Lemma wp_send t m (f : () → prog cli_iface (res ())) msg :
  cli_allowed t (CSend d m) →
  (∀ x, cwp cli_final (t ++ [ev (CSend d m : cmd cli_iface) x]) (f ())) →
  cwp cli_final t (cbind (try msg (cli_send_msg d m)) f).
Proof.
  intros Ha Hf. apply wp_cbind, wp_try. unfold cli_send_msg. simpl. split; [done|].
  intros x. destruct x as [[[]|e|w]|]; simpl; [apply Hf|exact I|by apply cli_panic_last|exact I].
Qed.

(** A reply of the expected operation; the authentication field of a challenge has the size of its
    array, or the environment is to blame. *)
Lemma wp_recv_specific t o (f : Message → prog cli_iface (res ())) :
  (length (recvs t) < length (sends t))%nat →
  (∀ m, let e := ev (CRecv d : cmd cli_iface) (Some (Ok (Some m))) in
     m_operation m = o → (o = Challenge → length (m_auth m) = AUTH_SIZE ∨ cli_panicking e = true) → cwp cli_final (t ++ [e]) (f m)) →
  cwp cli_final t (cbind (recv_specific_msg d o) f).
Proof.
  intros Hlen Hf. apply wp_cbind. unfold recv_specific_msg. apply wp_cbind, wp_try. simpl. split; [done|].
  intros [[[m|]|e|w]|]; simpl; try done; [|by apply cli_panic_last].
  case_bool_decide; simpl; [done|]. destruct (bool_decide_reflect (m_operation m = o)) as [Ho|]; simpl; [|done].
  apply Hf; [done|]. intros ->. simpl. rewrite Ho, bool_decide_eq_true_2 by done.
  destruct (Nat.eqb_spec (length (m_auth m)) AUTH_SIZE) as [|Hne]; [by left|by right].
Qed.

(** ** The sequence *)

Lemma generate_auth_no_challenge_ok m key :
  length key = KEY_SIZE → is_initial (m_operation m) = true →
  generate_auth_no_challenge m key = Ok (set_auth (hmac_sha3_256 key (mac_input m ZERO_AUTH)) m).
Proof.
  intros Hk Hi. unfold generate_auth_no_challenge, authenticate_no_challenge. by rewrite Hi, authenticate_ok.
Qed.

Lemma generate_auth_ok m key ch :
  length key = KEY_SIZE → length (m_auth ch) = AUTH_SIZE → m_operation ch = Challenge → m_operation m = Response →
  generate_auth m key ch = Ok (set_auth (hmac_sha3_256 key (mac_input m (m_auth ch))) m).
Proof. intros Hk Hl Hc Hm. unfold generate_auth. by rewrite Hc, Hm, authenticate_ok. Qed.

Lemma sequence_wp :
  is_initial op = true → length (s_key seq) = KEY_SIZE → cp_tcp (s_control_port seq) ≠ cp_udp (s_control_port seq) →
  cwp cli_final [] (sequence op seq mode).
Proof.
  intros Hop Hkey Hport. unfold sequence.
  eapply quiet_bind; [by apply quiet_try, quiet_Client_new|]. intros u1 _ _ Hu1.
  eapply quiet_bind; [apply quiet_Message_new|]. intros u2 m (Hmo & Hmu & Hmr) Hu2.
  rewrite generate_auth_no_challenge_ok, cbind_ok by congruence.
  set (i := set_auth (hmac_sha3_256 (s_key seq) (mac_input m ZERO_AUTH)) m).
  assert (Hi : initial_msg i) by (by split).
  set (t2 := ([] ++ u1) ++ u2). assert (Ht2 : silent t2) by (by apply silent_app). clearbody t2.
  apply wp_send; [simpl; split; [done|left; by destruct Ht2]|]. intros x1.
  apply wp_recv_specific; [rewrite sends_app, recvs_app; destruct Ht2 as [-> ->]; simpl; lia|].
  intros ch e1 Hch Hwf. set (t4 := (t2 ++ _) ++ _).
  assert (Hs4 : sends t4 = [i] ∧ recvs t4 = [ch]).
  { unfold t4. rewrite !sends_app, !recvs_app. by destruct Ht2 as [-> ->]. }
  assert (He1 : e1 ∈ t4) by set_solver. clearbody t4. destruct Hs4 as [Hs4 Hr4].
  eapply quiet_bind; [apply (quiet_check_reply _ ch); by rewrite Hr4|]. intros u5 _ _ Hu5.
  eapply quiet_bind; [apply quiet_Message_new|]. intros u6 r (Hro & Hru & Hrr) Hu6.
  destruct (decide (length (m_auth ch) = AUTH_SIZE)) as [Hlen|Hlen].
  2:{ destruct (Hwf eq_refl) as [Hwf'|Hwf']; [done|]. unfold generate_auth, authenticate. rewrite Hch, Hro, Hkey. simpl.
      rewrite (proj2 (Nat.eqb_neq _ _) Hlen). simpl. exists e1. split; [set_solver|done]. }
  rewrite generate_auth_ok, cbind_ok by done.
  set (r' := set_auth (hmac_sha3_256 (s_key seq) (mac_input r (m_auth ch))) r).
  assert (Hr' : response_msg ch r') by (by split).
  set (t6 := (t4 ++ u5) ++ u6). assert (Hs6 : sends t6 = [i] ∧ recvs t6 = [ch]).
  { unfold t6. by rewrite !sends_silent, !recvs_silent. }
  clearbody t6. destruct Hs6 as [Hs6 Hr6].
  apply wp_send; [simpl; split; [done|right; by exists i, ch]|]. intros x2.
  apply wp_recv_specific; [rewrite sends_app, recvs_app, Hs6, Hr6; simpl; lia|].
  intros ci e2 Hci Hwf2. eapply wp_mono; [done| |apply (quiet_check_reply _ ci); rewrite recvs_app; exact (last_snoc ci _)].
  intros t' [[]|e|w] (u & -> & Hu & Hx); simpl; [|done|done].
  exists i, ch, r', ci. rewrite !sends_app, !recvs_app, Hs6, Hr6. destruct Hu as [-> ->]. by split_and!.
Qed.

End safety.

(** ** The commands *)

Lemma to_control_port_one_protocol server conf :
  cp_tcp (c_port conf) || cp_udp (c_port conf) = true →
  cp_tcp (to_control_port server conf) ≠ cp_udp (to_control_port server conf).
Proof.
  unfold to_control_port. destruct (t_port server), (t_port_udp server), (t_port_tcp server), (c_port conf) as [p [] []];
    simpl; by intros.
Qed.

Section commands.
Context `{Crypto} `{HashOrder}.

Lemma make_seq_ok conf server port user seq :
  make_seq conf server port user = Ok seq →
  s_addr seq = t_addr server ∧ s_control_port seq = to_control_port server conf ∧
  s_user seq = default (c_default_user conf) user ∧ conf_key conf (s_user seq) = Some (s_key seq) ∧
  resource_id_by_port conf port (Some (s_user seq)) = Some (s_resource seq).
Proof. unfold make_seq. intros Hm. by inv_res. Qed.

(** The calls of the client and its result. *)
Lemma client_allowed conf server port user op mode seq :
  Config_ok conf → is_initial op = true → make_seq conf server port user = Ok seq →
  (∀ t c k, steps (sequence op seq mode) t (Vis c k) → cli_allowed op seq mode t c) ∧
  (∀ t r, steps (sequence op seq mode) t (Ret r) → cli_final op seq t r).
Proof.
  intros Hc Hop Hs. apply make_seq_ok in Hs as (_ & Hcp & _ & Hk & _).
  eapply (wp_steps _ _ []), sequence_wp; [done|..].
  - by destruct (co_keys _ Hc _ _ Hk).
  - rewrite Hcp. by apply to_control_port_one_protocol, (co_port _ Hc).
Qed.

(** C29 (safety). What the client does, whatever the resolver, the network and the server do. It
    contacts only the host and control port of the command, with an address of the selected family
    and over one protocol; the first message is the request, signed with the key that the
    configuration has for the user; the second one is sent only in answer to a challenge and signs
    it; nothing else is sent. Success means that the exchange was complete and the server answered
    with a come-in message, and a panic is the fault of a call that panicked or of the random
    source. *)
Theorem client_session conf server port user op mode seq :
  Config_ok conf → is_initial op = true → make_seq conf server port user = Ok seq →
  conf_key conf (s_user seq) = Some (s_key seq) ∧
  (∀ t c k, steps (sequence op seq mode) t (Vis c k) → cli_allowed op seq mode t c) ∧
  (∀ t r, steps (sequence op seq mode) t (Ret r) → cli_final op seq t r).
Proof.
  intros Hc Hop Hs. split; [|by eapply client_allowed]. by apply make_seq_ok in Hs as (_ & _ & _ & Hk & _).
Qed.

(** The configuration file that holds the printed line. *)
Definition key_file (line : str) : str := [lit "[KEYS]"; line] ≫= (λ l : str, l ++ [10]).

Lemma UserId_display_option (user : UserId) (key : list byte) :
  fits 32 (UserId_0 user) → (0 < length key)%nat → option_ok (UserId_display user, hex_string key).
Proof.
  intros Hu Hk. destruct (id_display_roundtrip user (MkResourceId 0) Hu ltac:(done)) as (_ & Hl & _).
  assert (Hd : ∀ c, c ∈ UserId_display user → 48 <= c <= 122 ∧ is_whitespace c = false ∧ is_Some (to_digit 16 c)).
  { intros c Hc. pose proof (show_HEX_padded_digits 8 (UserId_0 user)) as Hf. rewrite Forall_forall in Hf.
    destruct (Hf c Hc) as [d Hd]. split; [by apply (to_digit_bounds 16 c d)|].
    split; [by apply (digit_not_whitespace 16 c d)|eauto]. }
  assert (Hx : ∀ c, c ∈ hex_string key → is_whitespace c = false).
  { intros c Hc. destruct (hex_string_chars key) as [Hf _]. rewrite Forall_forall in Hf. by apply Hf. }
  split; cbn [fst snd].
  - split; [by intros ?%Hx|]. intros Hc. apply last_Some_elem_of, Hx in Hc. done.
  - intros H10%Hd. lia.
  - intros Heq%Hd. change (ch "=") with 61 in Heq. destruct Heq as (_ & _ & d & Hd'). done.
  - destruct (UserId_display user) as [|c s]; [done|]. exists c.
    destruct (Hd c ltac:(by left)) as (_ & Hw & d & Hd').
    split_and!; [done|done|by intros ->|by intros ->].
  - destruct (last (UserId_display user)) as [c|] eqn:E; [|by apply last_None in E; rewrite E in Hl].
    exists c. split; [done|]. apply last_Some_elem_of in E. by apply Hd.
Qed.

Lemma key_file_keys `{HashOrder} (user : UserId) (key : list byte) :
  fits 32 (UserId_0 user) → key_ok key →
  ∃ ini, parse_str (key_file (UserId_display user ++ lit " = " ++ hex_string key)) = Ok ini ∧
    get_keys ini = Ok {[user := key]}.
Proof.
  intros Hu (Hk & Hz & Hf). assert (Hopt := UserId_display_option user key Hu ltac:(rewrite Hk; unfold KEY_SIZE; lia)).
  set (line := UserId_display user ++ lit " = " ++ hex_string key).
  assert (Hl : (10 ∉ line) ∧ last line ≠ Some 13).
  { unfold line. destruct Hopt as [[Hv1 Hv2] Hn _ _ _]. cbn [fst snd] in *. split.
    - intros [?|[Hin|?]%elem_of_app]%elem_of_app; [done| |done].
      by apply (bool_decide_unpack _) in Hin || (revert Hin; apply (bool_decide_unpack _); vm_compute).
    - rewrite !last_app. destruct (last (hex_string key)); [congruence|done]. }
  exists (MkIni {[lit "KEYS" := {[UserId_display user := ch " " :: hex_string key]}]}). split.
  - unfold parse_str, key_file. rewrite lines_concat by (repeat constructor; (done || set_solver)).
    cbn [parse_lines]. change (lit "[KEYS]") with ([ch "["] ++ lit "KEYS" ++ [ch "]"]).
    rewrite parse_line_section by done. cbn [mbind res_bind].
    unfold line. rewrite (parse_line_spaced _ _ ∅) by (done || by rewrite lookup_insert_eq).
    cbn [mbind res_bind is_sections]. by rewrite insert_insert_eq, !insert_empty.
  - unfold get_keys, options_iter. cbn [sections]. rewrite lookup_singleton_eq. cbn [fmap option_fmap option_map].
    assert (hash_iter {[UserId_display user := ch " " :: hex_string key]} = [(UserId_display user, ch " " :: hex_string key)]) as ->.
    { apply Permutation_singleton_r. rewrite (hash_iter_perm _). by rewrite map_to_list_singleton. }
    unfold keys_from_options. cbn [foldM]. unfold keys_step, key_entry. cbn [fst snd].
    destruct (id_display_roundtrip user (MkResourceId 0) Hu ltac:(done)) as (-> & _). cbn [context mbind res_bind].
    rewrite <- Hk, parse_hex_string; [cbn [context mbind res_bind]|].
    + rewrite Hk, !bool_decide_eq_false_2 by done. cbn [mbind res_bind].
      by rewrite bool_decide_eq_false_2 by (rewrite lookup_empty; by intros []).
    + unfold trim. cbn [trim_start]. change (is_whitespace (ch " ")) with true. cbn iota.
      apply trim_id. eapply Forall_impl; [apply hex_string_chars|]. by intros c [? _].
Qed.

(** C40 (round trip). The line that the key generator prints is a valid key: in the [KEYS] section of
    a configuration file it gives exactly one key, for the user it was generated for, and the key
    is the 32 bytes that were drawn from the random source. *)
Theorem genkey_roundtrip conf user t line :
  let user' := default (c_default_user conf) user in
  fits 32 (UserId_0 user') → steps (run_genkey conf user) t (Ret (Ok line)) →
  ∃ key : vec byte KEY_SIZE, t = [ev (CRandom KEY_SIZE : cmd cli_iface) (Some key)] ∧
    ∃ ini, parse_str (key_file line) = Ok ini ∧ get_keys ini = Ok {[user' := vec_to_list key]}.
Proof.
  intros user' Hu Hs.
  assert (Hw : wp (λ _ _, True) (λ t r, ∀ line, r = Ok line → ∃ key : vec byte KEY_SIZE,
    t = [ev (CRandom KEY_SIZE : cmd cli_iface) (Some key)] ∧ key_ok (vec_to_list key) ∧
    line = UserId_display user' ++ lit " = " ++ hex_string key) [] (run_genkey conf user)).
  { unfold run_genkey, cbind, secure_random. change (KEY_SIZE <? 8)%nat with false. cbn iota.
    split; [done|]. intros [key|]; [|done]. cbn [pbind random_resp cli_random].
    destruct (secure_random_check key) as [k|e|w] eqn:E; [|done..]. cbn [wp pbind].
    apply secure_random_check_ok in E as (-> & Hz & Hf). rewrite length_vec_to_list in Hz, Hf.
    intros l [= <-]. exists key. split_and!; [done| |done]. split; [apply length_vec_to_list|done]. }
  apply wp_steps in Hw as [_ Hw]. destruct (Hw _ _ Hs _ eq_refl) as (key & Ht & Hk & ->). cbn [app] in Ht.
  exists key. split; [done|]. by apply key_file_keys.
Qed.

(** The combination of the two address families for a host name without address
    options: a knock is tried over IPv6 and then over IPv4, whatever the first attempt did, and
    fails only if both fail; a closing is tried over IPv4 only after it failed over IPv6, so after
    a knock over both, the port stays open for the IPv4 address. *)
Lemma try_both_policy {S} (st : S → ∀ c : cmd cli_iface, resp cli_iface c → S → Prop)
    conf server port user seq s r s' :
  make_seq conf server port user = Ok seq → t_addr_mode server = TryBoth → IpAddr_from_str (t_addr server) = None →
  (exec st s (run_knock conf server port user) r s' ↔
   ∃ r6 s1, exec st s (knock_sequence seq Ipv6) r6 s1 ∧
     if is_panic r6 then r = r6 ∧ s' = s1
     else ∃ r4, exec st s1 (knock_sequence seq Ipv4) r4 s' ∧
       r = if is_panic r4 then r4 else if is_err r6 && is_err r4 then r6 else Ok ()) ∧
  (exec st s (run_close conf server port user) r s' ↔
   ∃ r6 s1, exec st s (close_sequence seq Ipv6) r6 s1 ∧
     if is_err r6 then exec st s1 (close_sequence seq Ipv4) r s' else r = r6 ∧ s' = s1).
Proof.
  intros Hm Ha Hn. unfold run_knock, run_close. rewrite Hm, Ha, !cbind_ok.
  unfold is_ipv4_addr, is_ipv6_addr. rewrite Hn. split; rewrite exec_bind_inv.
  - apply exist_proper. intros r6. apply exist_proper. intros s1. apply Morphisms_Prop.and_iff_morphism; [done|].
    destruct r6 as [[]|e|w]; cbn [is_panic is_err andb]; [| |by rewrite exec_ret_inv].
    all: rewrite exec_bind_inv; split;
      [intros (r4 & s2 & He & Hr); exists r4; destruct r4; apply exec_ret_inv in Hr as [-> ->]; done|
       intros (r4 & He & ->); exists r4, s'; destruct r4; by rewrite exec_ret_inv].
  - apply exist_proper. intros r6. apply exist_proper. intros s1. apply Morphisms_Prop.and_iff_morphism; [done|].
    destruct r6 as [[]|e|w]; cbn [is_err]; by rewrite ?exec_ret_inv.
Qed.

End commands.

(** ** A concrete client *)

#[local] Existing Instance toy_crypto.
#[local] Existing Instance sorted_order.

(** A system in which every address can be contacted and the server does not answer. *)
Definition fixed_random (n : nat) : vec byte n :=
  match n with O => [# ] | S n => x01 ::: Vector.const x02 n end.
Definition mute_handle (c : cli_cmd) (s : nat) : cli_resp c * nat :=
  match c with
  | CLookup _ _ => (Some [RD_other; RD_AAAA (fixed_random 16); RD_A (fixed_random 4)], s)
  | CTcpConnect _ _ | CTcpNodelay | CUdpBind _ | CUdpConnect _ _ | CUdpPeerAddr => (Ok (), s)
  | CSend _ _ => (Some (Ok ()), S s)
  | CRecv _ => (None, s)
  | CRandom n => (Some (fixed_random n), s)
  | CWarn _ => ((), s)
  end.
Definition mute_step (s : nat) (c : cli_cmd) (x : cli_resp c) (s' : nat) : Prop := mute_handle c s = (x, s').

Definition sample_server : TargetServer := MkTargetServer (lit "example.org") TryBoth None false false.
Definition sample_seq : Seq :=
  match make_seq sample_conf sample_server 22 (Some (MkUserId 0)) with
  | Ok seq => seq
  | _ => MkSeq [] (MkControlPort 0 false false) 0 (MkUserId 0) (MkResourceId 0) []
  end.

Lemma sample_make_seq : make_seq sample_conf sample_server 22 (Some (MkUserId 0)) = Ok sample_seq.
Proof. by vm_compute. Qed.

Example mute_server_runs :
  let knock := run (I := cli_iface) mute_handle (run_knock sample_conf sample_server 22 (Some (MkUserId 0))) 0%nat in
  let close := run (I := cli_iface) mute_handle (run_close sample_conf sample_server 22 (Some (MkUserId 0))) 0%nat in
  is_err knock.1.1 = true ∧ knock.1.2 = 2%nat ∧ is_err close.1.1 = true ∧ close.1.2 = 2%nat.
Proof. by vm_compute. Qed.

Lemma client_session_witness :
  conf_key sample_conf (s_user sample_seq) = Some (s_key sample_seq) ∧
  ∃ r t, steps (sequence Knock sample_seq Ipv6) t (Ret r) ∧ cli_final Knock sample_seq t r.
Proof.
  destruct (client_session sample_conf sample_server 22 (Some (MkUserId 0)) Knock Ipv6 sample_seq
    sample_conf_ok eq_refl sample_make_seq) as (Hk & _ & Hf).
  split; [exact Hk|].
  destruct (run_total (I := cli_iface) mute_handle (sequence Knock sample_seq Ipv6) 0%nat) as (r & s & t & _ & Hs).
  exists r, t. split; [exact Hs|]. exact (Hf t r Hs).
Defined.

Definition random_of (e : cevent) : option (list byte) :=
  match e with existT (CRandom _) (Some v) => Some (vec_to_list v) | _ => None end.

Lemma genkey_roundtrip_witness :
  ∃ line ini, parse_str (key_file line) = Ok ini ∧
    get_keys ini = Ok {[MkUserId 0 := vec_to_list (fixed_random KEY_SIZE)]}.
Proof.
  destruct (run (I := cli_iface) mute_handle (run_genkey sample_conf None) 0%nat) as [[r s] t] eqn:E.
  pose proof (run_steps (I := cli_iface) mute_handle _ _ _ _ _ E) as Hs. vm_compute in E.
  injection E as E _ Et. symmetry in E. rewrite E in Hs.
  destruct (genkey_roundtrip sample_conf None t _ ltac:(split; vm_compute; congruence) Hs) as (key & Hk & ini & Hp & Hg).
  rewrite <- Et in Hk. apply (f_equal (omap random_of)) in Hk. cbn [omap list_omap random_of ev] in Hk.
  injection Hk as Hk. eexists _, ini. split; [exact Hp|]. rewrite Hg. do 2 f_equal. symmetry. exact Hk.
Defined.
