(* ===== verification/System.v ===== *)
(** * The three programs side by side

    The client of Client.v, one session of the control daemon of Protocol.v and one connection of
    the firewall daemon of FwServer.v, joined by message queues. A step is one interaction of one of
    them; what the interaction may answer is the choice of the network. Two networks are given. With
    [reliable] the messages arrive in order and without loss once the connection is set up, sending
    succeeds, and a receiver gives up only when its peer has finished: this is an environment in
    which nobody is slower than the timeout. With [unreliable] a message may be lost, duplicated or
    overtaken, sending may fail, and every receiver may run into its timeout, an error or the end of
    the connection at any time, whether or not its peer still works: this covers a slow or dead
    peer, a slow firewall and a bad network, but not a forged message. *)

From S2P Require Import Prelude Prog Str Proto FwProto Addr Conf Nftables NftSpec NftOps FwRefine FwServer FwClient Protocol.
From S2P Require Import ProtoSafe Client ClientSafe.
Local Open Scope Z_scope.

(** ** Inevitability

    Every maximal run of [step] from [s] is finite up to a state of [P]. *)

Section inevitably.
Context {S : Type} (step : S → S → Prop) (P : S → Prop).

Inductive inevitably (s : S) : Prop :=
| inev_now : P s → inevitably s
| inev_step : (∃ s', step s s') → (∀ s', step s s' → inevitably s') → inevitably s.

End inevitably.

Lemma inevitably_mono {S} (step : S → S → Prop) (P Q : S → Prop) s :
  (∀ s, P s → Q s) → inevitably step P s → inevitably step Q s.
Proof. intros HPQ. induction 1 as [s Hs|s He _ IH]; [by apply inev_now, HPQ|by apply inev_step]. Qed.

(** ** The system *)

Definition finished {I R} (p : prog I R) : bool := match p with Ret _ => true | Vis _ _ => false end.

(** The messages under way, between the client, the control server and the firewall daemon. *)
Record queues : Type := MkQueues {
  c2s : list Message;
  s2c : list Message;
  s2f : list FirewallMessage;
  f2s : list FirewallMessage;
}.

Definition no_messages : queues := MkQueues [] [] [] [].

Definition good_random {n} (x : option (vec byte n)) : Prop :=
  ∃ v, x = Some v ∧ secure_random_check (vec_to_list v) = Ok (vec_to_list v).

(** Receiving from a queue: the oldest message, or the end of the connection. *)
Definition receives {M} (peer_done : bool) (q : list M) (x : option (res (option M))) (q' : list M) : Prop :=
  match q with
  | m :: q1 => x = Some (Ok (Some m)) ∧ q' = q1
  | [] => peer_done = true ∧ (x = Some (Ok None) ∨ x = None) ∧ q' = []
  end.

Definition client_answers (server_done : bool) (n : queues) (c : cli_cmd) : cli_resp c → queues → Prop :=
  match c with
  | CSend _ m => λ x n', x = Some (Ok ()) ∧ n' = MkQueues (c2s n ++ [m]) (s2c n) (s2f n) (f2s n)
  | CRecv _ => λ x n', ∃ q, receives server_done (s2c n) x q ∧ n' = MkQueues (c2s n) q (s2f n) (f2s n)
  | CRandom _ => λ x n', good_random x ∧ n' = n
  | CLookup _ _ | CWarn _ => λ _ n', n' = n
  | CTcpConnect _ _ | CTcpNodelay | CUdpBind _ | CUdpConnect _ _ | CUdpPeerAddr =>
      λ (x : res ()) n', is_panic x = false ∧ n' = n
  end.

Definition server_answers (client_done fwd_done : bool) (n : queues) (c : cmd proto_iface)
    : resp proto_iface c → queues → Prop :=
  match c with
  | inl (NSend _ m) => λ x n', x = Some (Ok ()) ∧ n' = MkQueues (c2s n) (s2c n ++ [m]) (s2f n) (f2s n)
  | inl (NRecv _) => λ x n', ∃ q, receives client_done (c2s n) x q ∧ n' = MkQueues q (s2c n) (s2f n) (f2s n)
  | inl (NRandom _) => λ x n', good_random x ∧ n' = n
  | inr FwcConnect => λ (x : res ()) n', is_panic x = false ∧ n' = n
  | inr (FwcSend m) => λ x n', x = Ok () ∧ n' = MkQueues (c2s n) (s2c n) (s2f n ++ [m]) (f2s n)
  | inr FwcRecv => λ x n', ∃ q, receives fwd_done (f2s n) (Some x) q ∧ n' = MkQueues (c2s n) (s2c n) (s2f n) q
  end.

Definition conn_answers (server_done : bool) (n : queues) (c : conn_cmd) : conn_resp c → queues → Prop :=
  match c with
  | ConnRecv => λ x n', ∃ q, receives server_done (s2f n) (Some x) q ∧ n' = MkQueues (c2s n) (s2c n) q (f2s n)
  | ConnSend m => λ x n', x = Ok () ∧ n' = MkQueues (c2s n) (s2c n) (s2f n) (f2s n ++ [m])
  end.

(** The answers of a network: what a call of a component may return, and the queues after it. The
    flags say which peers have finished. *)
Record network : Type := MkNetwork {
  client_side : bool → queues → ∀ c : cli_cmd, cli_resp c → queues → Prop;
  server_side : bool → bool → queues → ∀ c : cmd proto_iface, resp proto_iface c → queues → Prop;
  conn_side : bool → queues → ∀ c : conn_cmd, conn_resp c → queues → Prop;
}.

Definition reliable : network := MkNetwork client_answers server_answers conn_answers.

(** A message that is in the queue, or none. *)
Definition receives_any {M} (q : list M) (x : option (res (option M))) (q' : list M) : Prop :=
  q' ⊆ q ∧ match x with Some (Ok (Some m)) => m ∈ q | Some (Panic _) => False | _ => True end.

(** A send that may fail; whatever it reports, the message may get lost or arrive. *)
Definition sends_any {M} (q : list M) (m : M) (x : option (res ())) (q' : list M) : Prop :=
  q' ⊆ q ++ [m] ∧ (∀ w, x ≠ Some (Panic w)).

Definition client_faults (server_done : bool) (n : queues) (c : cli_cmd) : cli_resp c → queues → Prop :=
  match c with
  | CSend _ m => λ x n', ∃ q, sends_any (c2s n) m x q ∧ n' = MkQueues q (s2c n) (s2f n) (f2s n)
  | CRecv _ => λ x n', ∃ q, receives_any (s2c n) x q ∧ n' = MkQueues (c2s n) q (s2f n) (f2s n)
  | c' => client_answers server_done n c'
  end.

Definition server_faults (client_done fwd_done : bool) (n : queues) (c : cmd proto_iface)
    : resp proto_iface c → queues → Prop :=
  match c with
  | inl (NSend _ m) => λ x n', ∃ q, sends_any (s2c n) m x q ∧ n' = MkQueues (c2s n) q (s2f n) (f2s n)
  | inl (NRecv _) => λ x n', ∃ q, receives_any (c2s n) x q ∧ n' = MkQueues q (s2c n) (s2f n) (f2s n)
  | inr (FwcSend m) => λ x n', ∃ q, sends_any (s2f n) m (Some x) q ∧ n' = MkQueues (c2s n) (s2c n) q (f2s n)
  | inr FwcRecv => λ x n', ∃ q, receives_any (f2s n) (Some x) q ∧ n' = MkQueues (c2s n) (s2c n) (s2f n) q
  | c' => server_answers client_done fwd_done n c'
  end.

Definition conn_faults (server_done : bool) (n : queues) (c : conn_cmd) : conn_resp c → queues → Prop :=
  match c with
  | ConnRecv => λ x n', ∃ q, receives_any (s2f n) (Some x) q ∧ n' = MkQueues (c2s n) (s2c n) q (f2s n)
  | ConnSend m => λ x n', ∃ q, sends_any (f2s n) m (Some x) q ∧ n' = MkQueues (c2s n) (s2c n) (s2f n) q
  end.

Definition unreliable : network := MkNetwork client_faults server_faults conn_faults.

Section system.
Context (N : network) {J : iface} {F T : Type} (stJ : T → ∀ c : cmd J, resp J c → T → Prop).

Record sys : Type := MkSys {
  y_client : prog cli_iface (res ());
  y_server : prog proto_iface (res () * Protocol);
  y_fwd : prog (isum conn_iface J) (res () * F);
  y_queues : queues;
  y_firewall : T;
}.

(** One interaction of a component, on its next command. *)
Definition client_step (s s' : sys) : Prop :=
  match y_client s with
  | Ret _ => False
  | Vis c k => ∃ x n', client_side N (finished (y_server s)) (y_queues s) c x n' ∧
      s' = MkSys (k x) (y_server s) (y_fwd s) n' (y_firewall s)
  end.

Definition server_step (s s' : sys) : Prop :=
  match y_server s with
  | Ret _ => False
  | Vis c k => ∃ x n', server_side N (finished (y_client s)) (finished (y_fwd s)) (y_queues s) c x n' ∧
      s' = MkSys (y_client s) (k x) (y_fwd s) n' (y_firewall s)
  end.

Definition fwd_step (s s' : sys) : Prop :=
  match y_fwd s with
  | Ret _ => False
  | Vis (inl c) k => ∃ x n', conn_side N (finished (y_server s)) (y_queues s) c x n' ∧
      s' = MkSys (y_client s) (y_server s) (k x) n' (y_firewall s)
  | Vis (inr c) k => ∃ x t', stJ (y_firewall s) c x t' ∧
      s' = MkSys (y_client s) (y_server s) (k x) (y_queues s) t'
  end.

Inductive net_step (s s' : sys) : Prop :=
| step_client : client_step s s' → net_step s s'
| step_server : server_step s s' → net_step s s'
| step_fwd : fwd_step s s' → net_step s s'.

(** A component that waits for another one. *)
Definition waits (step : sys → sys → Prop) (s : sys) : Prop := ∀ s', ¬ step s s'.

Context (P : sys → Prop).
Abbreviation inev := (inevitably net_step P).

(** The rules: only one component can move. *)
Lemma inev_client c k p f n t :
  let s := MkSys (Vis c k) p f n t in
  waits server_step s → waits fwd_step s → (∃ x n', client_side N (finished p) n c x n') →
  (∀ x n', client_side N (finished p) n c x n' → inev (MkSys (k x) p f n' t)) → inev s.
Proof.
  intros s Hp Hf (x & n' & Hx) Hk. apply inev_step.
  - eexists. apply step_client. by exists x, n'.
  - intros s' [(x' & n2 & Hx' & ->)|Hs|Hs]; [by apply Hk|by apply Hp in Hs|by apply Hf in Hs].
Qed.

Lemma inev_server l c k f n t :
  let s := MkSys l (Vis c k) f n t in
  waits client_step s → waits fwd_step s → (∃ x n', server_side N (finished l) (finished f) n c x n') →
  (∀ x n', server_side N (finished l) (finished f) n c x n' → inev (MkSys l (k x) f n' t)) → inev s.
Proof.
  intros s Hl Hf (x & n' & Hx) Hk. apply inev_step.
  - eexists. apply step_server. by exists x, n'.
  - intros s' [Hs|(x' & n2 & Hx' & ->)|Hs]; [by apply Hl in Hs|by apply Hk|by apply Hf in Hs].
Qed.

Lemma inev_conn l p c k n t :
  let s := MkSys l p (Vis (inl c : cmd (isum conn_iface J)) k) n t in
  waits client_step s → waits server_step s → (∃ x n', conn_side N (finished p) n c x n') →
  (∀ x n', conn_side N (finished p) n c x n' → inev (MkSys l p (k x) n' t)) → inev s.
Proof.
  intros s Hl Hp (x & n' & Hx) Hk. apply inev_step.
  - eexists. apply step_fwd. by exists x, n'.
  - intros s' [Hs|Hs|(x' & n2 & Hx' & ->)]; [by apply Hl in Hs|by apply Hp in Hs|by apply Hk].
Qed.

(** The firewall daemon works on the firewall: the others see nothing of it. *)
Context (st_total : ∀ t (c : cmd J), ∃ x t', stJ t c x t').

Lemma inev_firewall {R} l p (q : prog J R) (K : R → prog (isum conn_iface J) (res () * F)) n t :
  (∀ f t, finished f = false → waits client_step (MkSys l p f n t) ∧ waits server_step (MkSys l p f n t)) →
  (∀ r t', exec stJ t q r t' → inev (MkSys l p (K r) n t')) →
  inev (MkSys l p (pbind (inj_r q) K) n t).
Proof using st_total.
  intros Hw. revert t. induction q as [r|c k IH]; intros t HK; simpl; [by apply HK|].
  apply inev_step.
  - destruct (st_total t c) as (x & t' & Hx). eexists. apply step_fwd. by exists x, t'.
  - destruct (Hw (Vis (inr c : cmd (isum conn_iface J)) (λ x, pbind (inj_r (k x)) K)) t eq_refl) as [Hl Hp].
    intros s' [Hs|Hs|(x & t' & Hx & ->)]; [by apply Hl in Hs|by apply Hp in Hs|].
    apply IH. intros r t2 He. apply HK. by exists x, t'.
Qed.

End system.

(** The system with the reliable network. *)
Definition sys_step {J : iface} {F T : Type} (stJ : T → ∀ c : cmd J, resp J c → T → Prop)
    : sys (J := J) (F := F) (T := T) → sys → Prop := net_step reliable stJ.

(** ** The connection of the firewall daemon *)

Section fwd_contract.
Context `{HO : HashOrder} {J : iface} {F : Type} `{FO : FirewallOpen J F} (conf : Config).

(** What is sent after the call of the firewall. *)
Definition fwd_reply (rf : res () * F) : prog (isum conn_iface J) (res () * F) :=
  match rf.1 with
  | Panic w => Ret (Panic w, rf.2)
  | r => Vis (inl (ConnSend (if is_ok r then new_ack else new_nack)) : cmd (isum conn_iface J)) (λ x, Ret (x, rf.2))
  end.

Definition fwd_session (fw : F) (msg : FirewallMessage) (m : method J F ()) (q : prog (isum conn_iface J) (res () * F)) : Prop :=
  ∃ k, q = Vis (inl ConnRecv : cmd (isum conn_iface J)) k ∧ (∃ e, k (Ok None) = Ret (Err e, fw)) ∧
    (∀ e, k (Err e) = Ret (Err e, fw)) ∧ ∃ K, k (Ok (Some msg)) = pbind (inj_r (m fw)) K ∧ ∀ rf, K rf = fwd_reply rf.

(** The firewall call that a request stands for. *)
Definition fwd_call (is_open : bool) (addr : IpAddr) (port : LeasePort) : method J F () :=
  (if is_open then fo_open_port else fo_close_port) conf addr port.

Lemma handle_message_session fw msg is_open addr port :
  request conf msg = Some (is_open, addr, port) →
  fwd_session fw msg (fwd_call is_open addr port) (handle_message conf fw).
Proof.
  intros Hreq. pose proof (request_operation conf _ _ _ _ Hreq) as Hop.
  eexists. split; [reflexivity|]. split; [by eexists|]. split; [done|]. cbn -[checked_request].
  assert (Hc : checked_request (J := J) (F := F) conf msg = mret (Ok (addr, port))).
  { unfold checked_request. revert Hreq. unfold request. cbv zeta.
    assert (fwmsg_addr msg = Some (octets_to_addr (f_addr_type msg) (f_addr msg)) ∧
            fwmsg_port msg = Some (f_port_type msg, f_port msg)) as [-> ->].
    { unfold fwmsg_addr, fwmsg_port. by destruct is_open; rewrite Hop. }
    destruct (addr_check _); [|done]. case_bool_decide; [done|]. destruct (f_port msg =? _); [done|].
    cbn. by destruct is_open; rewrite Hop; intros [= -> ->]. }
  unfold fwd_call. destruct is_open; rewrite Hop; cbn -[checked_request]; rewrite Hc; cbn;
    (eexists; split; [reflexivity|]; by intros [[[]|e|w] fw']).
Qed.

End fwd_contract.

(** The request of a permitted initial message is acceptable to the firewall daemon. *)
Lemma request_of_knock `{HashOrder} conf peer_ip knock resource pt :
  permitted conf knock resource → resource_port_type resource = Ok pt → addr_check peer_ip = true →
  request conf (fw_request peer_ip knock resource pt) =
    Some (negb (bool_decide (m_operation knock = Close)), peer_ip, lease_port_of pt (r_port resource)).
Proof.
  intros [Hres Hu Hp] Hpt Ha. unfold fw_request.
  assert (Hid : is_Some (resource_id_by_port conf (r_port resource) None)).
  { apply elem_of_hash_iter in Hres. by eapply first_resource_complete. }
  pose proof (octets_to_addr_to_octets peer_ip) as Hoct.
  destruct (bool_decide (m_operation knock = Close)); unfold request, new_open, new_close;
    destruct (addr_to_octets peer_ip) as [at' o]; cbn [f_addr_type f_addr f_port f_port_type f_operation negb] in *;
    rewrite Hoct, Ha, (proj2 (Z.eqb_neq _ _) Hp), bool_decide_eq_false_2 by (destruct Hid as [? E]; by rewrite E); done.
Qed.

(** The client and the daemons agree: both know the key, the user may access the resource, and the
    address of the client is one that the firewall daemon accepts. *)
Record matching (conf : Config) (op : Operation) (seq : Seq) (resource : Resource) (pt : PortType) (peer_ip : IpAddr)
    : Prop := {
  mt_operation : is_initial op = true;
  mt_protocol : cp_tcp (s_control_port seq) ≠ cp_udp (s_control_port seq);
  mt_key : conf_key conf (s_user seq) = Some (s_key seq);
  mt_resource : conf_resource conf (s_resource seq) = Some resource;
  mt_user : contains_user resource (s_user seq) = true;
  mt_port : r_port resource ≠ cp_port (c_port conf);
  mt_port_type : resource_port_type resource = Ok pt;
  mt_addr : addr_check peer_ip = true;
}.

Definition the_call `{HashOrder} {J F} `{FirewallOpen J F} (conf : Config) (op : Operation) (resource : Resource)
    (pt : PortType) (peer_ip : IpAddr) : method J F () :=
  fwd_call conf (negb (bool_decide (op = Close))) peer_ip (lease_port_of pt (r_port resource)).
