(* ===== verification/Unreliable.v ===== *)
(** * The system with an unreliable network

    The three programs of System.v when messages may be lost, duplicated or overtaken, when sending
    may fail and when every receiver may run into its timeout at any time. They still come to an
    end, and a success that the client or the control daemon reports is one of the firewall. The
    proof follows the histories of the two sessions: what one of them received, another one has
    sent, and what a session may send is known from ProtoSafe.v and ClientSafe.v. *)

From S2P Require Import Prelude Prog Str Proto FwProto Addr Conf Nftables NftSpec NftOps FwRefine FwServer FwClient Protocol.
From S2P Require Import ProtoSafe Client ClientSafe System.
Local Open Scope Z_scope.

(** ** Termination *)

(** A run that cannot go on forever and never gets stuck ends in the states it aims at. *)
Lemma inevitably_intro {S} (step : S → S → Prop) (I P : S → Prop) s :
  (∀ s s', I s → step s s' → I s') → (∀ s, I s → (∃ s', step s s') ∨ P s) →
  Acc (λ s' s, step s s') s → I s → inevitably step P s.
Proof.
  intros Hstep Hend Hacc. induction Hacc as [s _ IH]. intros Hs.
  destruct (Hend s Hs) as [He|Hp]; [|by apply inev_now]. apply inev_step; [done|]. eauto.
Qed.

Section termination.
Context (N : network) {J : iface} {F T : Type} (stJ : T → ∀ c : cmd J, resp J c → T → Prop).
Abbreviation state := (sys (J := J) (F := F) (T := T)).

(** Every step goes down in one of the three programs. *)
Lemma net_step_terminates (s : state) : Acc (λ s' s, net_step N stJ s s') s.
Proof.
  destruct s as [l p f n t]. revert p f n t.
  induction l as [rc|cl kl IHl]; intros p; induction p as [rs|cs ks IHp]; intros f;
    induction f as [rf|cf kf IHf]; intros n t; constructor; intros s' [Hs|Hs|Hs]; cbn in Hs;
    try contradiction.
  all: try (destruct Hs as (x & y & _ & ->); (apply IHl || apply IHp)).
  all: destruct cf; destruct Hs as (x & y & _ & ->); apply IHf.
Qed.

Lemma good_random_exists n : n = SALT_SIZE ∨ n = AUTH_SIZE → ∃ x : option (vec byte n), good_random x.
Proof. intros [-> | ->]; (exists (Some (fixed_random _)); by eexists). Qed.

(** Nobody waits forever: on the unreliable network every call can end. *)
Lemma unreliable_progress (s : state) :
  (∀ t (c : cmd J), ∃ x t', stJ t c x t') →
  (∀ n k, y_client s = Vis (CRandom n : cmd cli_iface) k → n = SALT_SIZE ∨ n = AUTH_SIZE) →
  (∀ n k, y_server s = Vis (inl (NRandom n) : cmd proto_iface) k → n = SALT_SIZE ∨ n = AUTH_SIZE) →
  (∃ s', net_step unreliable stJ s s') ∨
  ∃ rc rs rf, y_client s = Ret rc ∧ y_server s = Ret rs ∧ y_fwd s = Ret rf.
Proof.
  intros Ht Hc Hs. destruct s as [l p f n t]. destruct l as [rc|c k].
  - destruct p as [rs|c k].
    + destruct f as [rf|[[|m]|c] k]; [right; by eauto 6|left..].
      * eexists. apply step_fwd. exists (Ok None). do 2 eexists; [|done]. eexists. split; [|done]. by split.
      * eexists. apply step_fwd. exists (Ok ()). do 2 eexists; [|done]. eexists. split; [|done]. by split.
      * destruct (Ht t c) as (x & t' & Hx). eexists. apply step_fwd. by exists x, t'.
    + left. destruct c as [[d|d m|j]|[|m|]]; [| |destruct (good_random_exists j) as [r Hr]; [by eapply Hs|]|..];
        eexists; apply step_server.
      * exists None. do 2 eexists; [|done]. eexists. split; [|done]. by split.
      * exists None. do 2 eexists; [|done]. eexists. split; [|done]. by split.
      * exists r, n. by split.
      * by exists (Ok ()), n.
      * exists (Ok ()). do 2 eexists; [|done]. eexists. split; [|done]. by split.
      * exists (Ok None). do 2 eexists; [|done]. eexists. split; [|done]. by split.
  - left. destruct c as [h m|a po| |b|a po| |d m|d|j|w];
      [..|destruct (good_random_exists j) as [r Hr]; [by eapply Hc|]|]; eexists; apply step_client.
    + by exists None, n.
    + by exists (Ok ()), n.
    + by exists (Ok ()), n.
    + by exists (Ok ()), n.
    + by exists (Ok ()), n.
    + by exists (Ok ()), n.
    + exists None. do 2 eexists; [|done]. eexists. split; [|done]. by split.
    + exists None. do 2 eexists; [|done]. eexists. split; [|done]. by split.
    + exists r, n. by split.
    + by exists (), n.
Qed.

End termination.


(** The end on an unreliable network: nobody has panicked but the firewall itself; the firewall was
    called at most once; a success that the client or the control daemon reports is the success of
    that call; and without the call nothing has changed. *)
Definition concluded {J : iface} {F T : Type} (stJ : T → ∀ c : cmd J, resp J c → T → Prop) (fw : F) (t0 : T)
    (m : method J F ()) (s : sys (J := J) (F := F) (T := T)) : Prop :=
  ∃ rc rs p rf fw', y_client s = Ret rc ∧ y_server s = Ret (rs, p) ∧ y_fwd s = Ret (rf, fw') ∧
    is_panic rc = false ∧ is_panic rs = false ∧
    (is_ok rc = false ∧ is_ok rs = false ∧ is_panic rf = false ∧ fw' = fw ∧ y_firewall s = t0 ∨
     ∃ r1, exec stJ t0 (m fw) (r1, fw') (y_firewall s) ∧ is_panic rf = is_panic r1 ∧
       (is_ok rc || is_ok rs = true → is_ok r1 = true)).

(** ** The invariant *)

Section histories.
Context {I : iface} {R : Type}.

Lemma steps_snoc (p : prog I R) t c k x : steps p t (Vis c k) → steps p (t ++ [ev c x]) (k x).
Proof. intros Hs. eapply steps_trans; [exact Hs|]. apply steps_cons, steps_nil. Qed.

(** An interaction that took place was allowed. *)
Lemma steps_allowed (P : history I → cmd I → Prop) (Q : history I → R → Prop) p t q e :
  wp P Q [] p → steps p t q → e ∈ t → ∃ t1 t2, t = t1 ++ e :: t2 ∧ P t1 (projT1 e).
Proof.
  intros Hp Hs (t1 & t2 & ->)%list_elem_of_split. apply steps_split in Hs as [k Hs].
  exists t1, t2. split; [done|]. by apply (proj1 (proj1 (wp_steps P Q [] p) Hp) _ _ _ Hs).
Qed.

End histories.

Section unreliable.
Context `{HC : Crypto} `{HO : HashOrder} {J : iface} {F : Type} `{FO : FirewallOpen J F} {T : Type}.
Context (stJ : T → ∀ c : cmd J, resp J c → T → Prop) (st_total : ∀ t (c : cmd J), ∃ x t', stJ t c x t').
Context (conf : Config) (op : Operation) (seq : Seq) (mode : ResMode) (resource : Resource) (pt : PortType).
Context (peer_ip : IpAddr) (p0 : Protocol) (fw : F) (t0 : T).
Context (Hc : Config_ok conf) (Hm : matching conf op seq resource pt peer_ip).

Let m := the_call conf op resource pt peer_ip : method J F ().
Let request_msg := (if bool_decide (op = Close) then new_close else new_open) peer_ip pt (r_port resource).

Abbreviation state := (sys (J := J) (F := F) (T := T)).
Abbreviation ustep := (net_step unreliable stJ).

(** What the daemons have sent, from their own point of view. *)
Definition server_sent (ts : hist) (msg : Message) : Prop := ∃ d x, e_send d msg x ∈ ts.
Definition request_sent (ts : hist) (msg : FirewallMessage) : Prop := ∃ x, e_fw (FwcSend msg) x ∈ ts.
Definition fw_said (o : option (res ())) (msg : FirewallMessage) : Prop :=
  ∃ r, o = Some r ∧ msg = (if is_ok r then new_ack else new_nack).

(** Nobody is to blame for a panic, and what was received has been sent. *)
Definition fair_client (ts : hist) (e : cevent) : Prop :=
  cli_panicking e = false ∧ ∀ msg, received_msg e = Some msg → server_sent ts msg.

Definition fair_server (tc : chist) (o : option (res ())) (e : pevent) : Prop :=
  panicking e = false ∧
  match e with
  | existT (inl (NRecv _)) (Some (Ok (Some msg))) => msg ∈ sends tc
  | existT (inr FwcRecv) (Ok (Some msg)) => fw_said o msg
  | _ => True
  end.

(** How far the firewall daemon is. *)
Inductive fwd_phase (f : prog (isum conn_iface J) (res () * F)) (t : T) : option (res ()) → Prop :=
| ph_start : f = handle_message conf fw → t = t0 → fwd_phase f t None
| ph_idle e : f = Ret (Err e, fw) → t = t0 → fwd_phase f t None
| ph_call q K : f = pbind (inj_r q) K → (∀ rf, K rf = fwd_reply rf) →
    (∀ rf t', exec stJ t q rf t' → exec stJ t0 (m fw) rf t') → fwd_phase f t None
| ph_done r1 fw' x : f = Ret (x, fw') → exec stJ t0 (m fw) (r1, fw') t → is_panic x = false → is_panic r1 = false →
    fwd_phase f t (Some r1).

Record unreliable_inv (s : state) (tc : chist) (ts : hist) (o : option (res ())) : Prop := {
  ui_client : steps (sequence op seq mode) tc (y_client s);
  ui_server : steps (Protocol_run conf peer_ip p0) ts (y_server s);
  ui_fwd : fwd_phase (y_fwd s) (y_firewall s) o;
  ui_fair_client : Forall (fair_client ts) tc;
  ui_fair_server : Forall (fair_server tc o) ts;
  ui_c2s : ∀ msg, msg ∈ c2s (y_queues s) → msg ∈ sends tc;
  ui_s2c : ∀ msg, msg ∈ s2c (y_queues s) → server_sent ts msg;
  ui_s2f : ∀ msg, msg ∈ s2f (y_queues s) → request_sent ts msg;
  ui_f2s : ∀ msg, msg ∈ f2s (y_queues s) → fw_said o msg;
}.

(** *** What is sent *)

Lemma client_wp : wp (cli_allowed op seq mode) (cli_final op seq) [] (sequence op seq mode).
Proof using Hc Hm. destruct Hm. apply sequence_wp; [done| |done]. by destruct (co_keys _ Hc _ _ mt_key). Qed.

Lemma server_wp : wp (allowed conf peer_ip) (λ t rs, final conf t rs.1 rs.2) [] (Protocol_run conf peer_ip p0).
Proof using Hc. by apply wpm_run. Qed.

Lemma client_sends tc q msg : steps (sequence op seq mode) tc q → msg ∈ sends tc →
  initial_msg op seq msg ∨ m_operation msg = Response.
Proof using Hc Hm.
  intros Hs (d & x & He)%sends_elem. destruct (steps_allowed _ _ _ _ _ _ client_wp Hs He) as (t1 & t2 & _ & Ha).
  destruct Ha as [_ [(_ & _ & ?)|(i & ch & _ & _ & _ & [])]]; [by left|by right].
Qed.

Lemma server_sends_challenge ts q msg : steps (Protocol_run conf peer_ip p0) ts q → server_sent ts msg →
  m_operation msg = Challenge → length (m_auth msg) = AUTH_SIZE.
Proof using Hc.
  intros Hs (d & x & He) Ho. destruct (steps_allowed _ _ _ _ _ _ server_wp Hs He) as (t1 & t2 & _ & Ha).
  cbn in Ha. rewrite Ho in Ha. destruct Ha as (knock & res & salt & nonce & _ & _ & ->). apply length_vec_to_list.
Qed.

Lemma server_acked ts q msg : steps (Protocol_run conf peer_ip p0) ts q → server_sent ts msg →
  m_operation msg = ComeIn → acked ts.
Proof using Hc.
  intros Hs (d & x & He) Ho. destruct (steps_allowed _ _ _ _ _ _ server_wp Hs He) as (t1 & t2 & -> & Ha).
  cbn in Ha. rewrite Ho in Ha. destruct Ha as (_ & _ & _ & Ha & _). by apply acked_app.
Qed.

(** The request is the one of the client. *)
Lemma server_requests tc ts o q q' msg :
  steps (sequence op seq mode) tc q' → steps (Protocol_run conf peer_ip p0) ts q → Forall (fair_server tc o) ts →
  request_sent ts msg → msg = request_msg.
Proof using Hc Hm.
  intros Hsc Hs Hf (x & He). destruct (steps_allowed _ _ _ _ _ _ server_wp Hs He) as (t1 & t2 & -> & Ha).
  destruct Ha as (knock & res & pt' & key & salt & nonce & response & -> & [Hi _ _] & [Hres _ _] & _ & Hpt & ->).
  rewrite Forall_forall in Hf.
  destruct (Hf (e_recv (c_control_timeout conf) (Some (Ok (Some knock))))) as [_ Hk]; [by left|]. cbn in Hk.
  destruct (client_sends _ _ _ Hsc Hk) as [[Ho Hu Hr _]|Ho]; [|by rewrite Ho in Hi].
  destruct Hm as [_ _ _ Hres' _ _ Hpt' _]. rewrite Hr, Hres' in Hres. injection Hres as <-.
  rewrite Hpt' in Hpt. injection Hpt as <-. unfold fw_request, request_msg. by rewrite Ho.
Qed.

(** *** One interaction *)

Lemma good_random_fair {n} (x : option (vec byte n)) : good_random x → bad_random x = false.
Proof. intros (v & -> & Hv). unfold bad_random. by rewrite Hv. Qed.

Lemma client_event b n (c : cli_cmd) (x : cli_resp c) n' ts :
  client_faults b n c x n' →
  (∀ msg, msg ∈ s2c n → server_sent ts msg ∧ (m_operation msg = Challenge → length (m_auth msg) = AUTH_SIZE)) →
  fair_client ts (ev (c : cmd cli_iface) x) ∧ c2s n' ⊆ c2s n ++ sends [ev (c : cmd cli_iface) x] ∧
  s2c n' ⊆ s2c n ∧ s2f n' = s2f n ∧ f2s n' = f2s n.
Proof.
  intros Hx Hs. unfold fair_client.
  destruct c; cbn in Hx; first [destruct Hx as (q & [Hq Hp] & ->)|subst n'|destruct Hx as [Hx ->]];
    cbn; rewrite ?app_nil_r; split_and!; try done; try (by apply good_random_fair).
  - destruct x as [[[]|e|w]|]; try done. by destruct (Hp w).
  - destruct x as [[[msg|]|e|w]|]; try done. destruct (Hs msg Hp) as [_ Hl]. case_bool_decide as Ho; [|done].
    by rewrite (Hl Ho).
  - intros msg E. destruct x as [[[msg'|]|e|w]|]; simplify_eq. by apply Hs.
Qed.

Lemma server_event b b' n (c : cmd proto_iface) x n' tc o :
  server_faults b b' n c x n' → (∀ msg, msg ∈ c2s n → msg ∈ sends tc) → (∀ msg, msg ∈ f2s n → fw_said o msg) →
  fair_server tc o (ev c x) ∧ c2s n' ⊆ c2s n ∧ f2s n' ⊆ f2s n ∧
  (∀ msg, msg ∈ s2c n' → msg ∈ s2c n ∨ server_sent [ev c x] msg) ∧
  (∀ msg, msg ∈ s2f n' → msg ∈ s2f n ∨ request_sent [ev c x] msg).
Proof.
  intros Hx Hs Hf. unfold fair_server.
  destruct c as [[d|d msg|j]|[|msg|]]; cbn in Hx;
    first [destruct Hx as (q & [Hq Hp] & ->)|destruct Hx as [Hx ->]];
    cbn; split_and!; try done; try (by auto); try (by apply good_random_fair).
  - by destruct x as [[[msg|]|e|w]|].
  - destruct x as [[[msg|]|e|w]|]; try done. by apply Hs.
  - destruct x as [[[]|e|w]|]; try done. by destruct (Hp w).
  - intros msg' [?| ->%list_elem_of_singleton]%Hq%elem_of_app; [by left|right]. do 2 eexists. by left.
  - destruct x as [[]|e|w]; try done. by destruct (Hp w).
  - intros msg' [?| ->%list_elem_of_singleton]%Hq%elem_of_app; [by left|right]. eexists. by left.
  - by destruct x as [[msg|]|e|w].
  - destruct x as [[msg|]|e|w]; try done. by apply Hf.
Qed.

Lemma fair_client_app ts l e : fair_client ts e → fair_client (ts ++ l) e.
Proof.
  intros [Hp Hr]. split; [done|]. intros msg Hmsg. destruct (Hr msg Hmsg) as (d & x & He). exists d, x.
  apply elem_of_app. by left.
Qed.

Lemma fair_server_app tc l o e : fair_server tc o e → fair_server (tc ++ l) o e.
Proof.
  intros [Hp Hr]. split; [done|]. destruct e as [[[d|d m'|j]|[|m'|]] x]; try done.
  destruct x as [[[msg|]|e|w]|]; try done. rewrite sends_app. apply elem_of_app. by left.
Qed.

Lemma fair_server_said tc o e : fair_server tc None e → fair_server tc o e.
Proof.
  intros [Hp Hr]. split; [done|]. destruct e as [[[d|d m'|j]|[|m'|]] x]; try done.
  destruct x as [[msg|]|e|w]; try done. by destruct Hr as (r & ? & _).
Qed.

(** *** The steps keep the invariant *)

Lemma inv_client_step s s' tc ts o :
  unreliable_inv s tc ts o → client_step unreliable s s' → ∃ tc', unreliable_inv s' tc' ts o.
Proof using Hc Hm.
  intros [Hl Hp Hf Hfc Hfs H1 H2 H3 H4]. unfold client_step. destruct (y_client s) as [|c k]; [done|].
  intros (x & n' & Hx & ->). exists (tc ++ [ev (c : cmd cli_iface) x]).
  apply (client_event _ _ _ _ _ ts) in Hx as (He & E1 & E2 & E3 & E4).
  2:{ intros msg Hmsg. split; [by apply H2|]. eapply server_sends_challenge; [exact Hp|by apply H2]. }
  split; cbn; rewrite ?E3, ?E4; try done.
  - by apply steps_snoc.
  - apply Forall_app. split; [done|by apply Forall_singleton].
  - eapply Forall_impl; [exact Hfs|]. intros e. apply fair_server_app.
  - intros msg [Hmsg|Hmsg]%E1%elem_of_app; rewrite sends_app; apply elem_of_app; [left; by apply H1|by right].
  - intros msg Hmsg. by apply H2, E2.
Qed.

Lemma inv_server_step s s' tc ts o :
  unreliable_inv s tc ts o → server_step unreliable s s' → ∃ ts', unreliable_inv s' tc ts' o.
Proof.
  intros [Hl Hp Hf Hfc Hfs H1 H2 H3 H4]. unfold server_step. destruct (y_server s) as [|c k]; [done|].
  intros (x & n' & Hx & ->). exists (ts ++ [ev c x]).
  apply (server_event _ _ _ _ _ _ tc o) in Hx as (He & E1 & E2 & E3 & E4); [|done..].
  split; cbn; try done.
  - by apply steps_snoc.
  - eapply Forall_impl; [exact Hfc|]. intros e. apply fair_client_app.
  - apply Forall_app. split; [done|by apply Forall_singleton].
  - intros msg Hmsg. by apply H1, E1.
  - intros msg [Hmsg|Hmsg]%E3; [apply H2 in Hmsg|]; destruct Hmsg as (d & y & Hy); exists d, y;
      apply elem_of_app; by auto.
  - intros msg [Hmsg|Hmsg]%E4; [apply H3 in Hmsg|]; destruct Hmsg as (y & Hy); exists y;
      apply elem_of_app; by auto.
  - intros msg Hmsg. by apply H4, E2.
Qed.

Lemma the_session : fwd_session fw request_msg m (handle_message conf fw).
Proof using Hm.
  destruct Hm. apply handle_message_session.
  apply (request_of_knock conf peer_ip (MkMessage MAGIC op (s_user seq) (s_resource seq) [] []) resource pt); [by split|done..].
Qed.

(** The firewall daemon: it learns of the request, works on it and answers. *)
Lemma phase_step s s' o :
  fwd_phase (y_fwd s) (y_firewall s) o → (∀ msg, msg ∈ s2f (y_queues s) → msg = request_msg) →
  fwd_step unreliable stJ s s' →
  ∃ o', fwd_phase (y_fwd s') (y_firewall s') o' ∧ (o = None ∨ o' = o) ∧
    c2s (y_queues s') = c2s (y_queues s) ∧ s2c (y_queues s') = s2c (y_queues s) ∧
    s2f (y_queues s') ⊆ s2f (y_queues s) ∧
    ∀ msg, msg ∈ f2s (y_queues s') → msg ∈ f2s (y_queues s) ∨ fw_said o' msg.
Proof using Hm.
  intros Hf Hreq. unfold fwd_step.
  inversion Hf as [E Et|e E Et|q K E HK He|r1 fw' x E He Hx Hr]; subst o; rewrite E; [|done| |done].
  - destruct the_session as (k & -> & [e0 Hnone] & Herr & K & HK & Hrep).
    intros (x & n' & (q & [Hq Hx] & ->) & ->). exists None. split; [|split_and!; by auto].
    destruct x as [[msg|]|e|w]; [|eapply ph_idle; [exact Hnone|exact Et]|eapply ph_idle; [apply Herr|exact Et]|done].
    rewrite (Hreq msg Hx). eapply ph_call; [exact HK|exact Hrep|]. cbn. by rewrite Et.
  - destruct q as [[r1 fw']|c k]; cbn.
    + assert (Hd : exec stJ t0 (m fw) (r1, fw') (y_firewall s)) by (by apply He).
      rewrite HK. unfold fwd_reply. cbn [fst snd].
      destruct r1 as [[]|e|w]; [| |done]; intros (x & n' & (q & [Hq Hx] & ->) & ->); cbn.
      1: exists (Some (Ok ())). 2: exists (Some (Err e)).
      all: split; [eapply ph_done; [reflexivity|exact Hd|by destruct x as [| |w]; [| |destruct (Hx w)]|done]|].
      all: split_and!; try done; [by left|]; intros msg [?| ->%list_elem_of_singleton]%Hq%elem_of_app; [by left|right; by eexists].
    + intros (x & t' & Hx & ->). exists None. cbn. split; [|split_and!; by auto].
      eapply ph_call; [reflexivity|exact HK|]. intros rf t2 He2. apply He. by exists x, t'.
Qed.

Lemma inv_fwd_step s s' tc ts o :
  unreliable_inv s tc ts o → fwd_step unreliable stJ s s' → ∃ o', unreliable_inv s' tc ts o'.
Proof using Hc Hm.
  intros [Hl Hp Hf Hfc Hfs H1 H2 H3 H4] Hs.
  destruct (phase_step _ _ _ Hf (λ msg Hmsg, server_requests _ _ _ _ _ _ Hl Hp Hfs (H3 msg Hmsg)) Hs)
    as (o' & Hf' & Ho & E1 & E2 & E3 & E4).
  assert (y_client s' = y_client s ∧ y_server s' = y_server s) as [Ec Es].
  { revert Hs. unfold fwd_step. destruct (y_fwd s) as [|[c|c] k]; [done|by intros (x & n' & _ & ->)..]. }
  exists o'. split; rewrite ?Ec, ?Es, ?E1, ?E2; try done.
  - destruct Ho as [-> | ->]; [|done]. eapply Forall_impl; [exact Hfs|]. intros e. apply fair_server_said.
  - intros msg Hmsg. by apply H3, E3.
  - intros msg [Hmsg%H4|?]%E4; [|done]. by destruct Ho as [-> | ->]; [destruct Hmsg as (? & ? & _)|].
Qed.

Definition some_inv (s : state) : Prop := ∃ tc ts o, unreliable_inv s tc ts o.

Lemma some_inv_step s s' : some_inv s → ustep s s' → some_inv s'.
Proof using Hc Hm.
  intros (tc & ts & o & Hi) [Hs|Hs|Hs].
  - eapply inv_client_step in Hs as [tc' ?]; [|done]. by exists tc', ts, o.
  - eapply inv_server_step in Hs as [ts' ?]; [|done]. by exists tc, ts', o.
  - eapply inv_fwd_step in Hs as [o' ?]; [|done]. by exists tc, ts, o'.
Qed.

Definition start : state :=
  MkSys (sequence op seq mode) (Protocol_run conf peer_ip p0) (handle_message conf fw) no_messages t0.

Lemma some_inv_start : some_inv start.
Proof.
  exists [], [], None. split; [apply steps_nil|apply steps_nil|by apply ph_start|done|done|..];
    by intros msg ?%elem_of_nil.
Qed.

(** *** Whoever has finished *)

Lemma acked_success ts tc o : Forall (fair_server tc o) ts → acked ts → ∃ r, o = Some r ∧ is_ok r = true.
Proof.
  intros Hf (msg & Hin & Ho). rewrite Forall_forall in Hf. destruct (Hf _ Hin) as [_ (r & -> & ->)].
  exists r. split; [done|]. by destruct (is_ok r).
Qed.

(** A success needs the acknowledgement of the firewall daemon. *)
Lemma results_fair s tc ts o rc rs p :
  unreliable_inv s tc ts o → y_client s = Ret rc → y_server s = Ret (rs, p) →
  is_panic rc = false ∧ is_panic rs = false ∧ (is_ok rc || is_ok rs = true → ∃ r, o = Some r ∧ is_ok r = true).
Proof using Hc Hm.
  clear st_total. intros [Hl Hp _ Hfc Hfs _ _ _ _] El Ep. rewrite El in Hl. rewrite Ep in Hp.
  pose proof (proj2 (proj1 (wp_steps _ _ [] _) client_wp) _ _ Hl) as Hcf.
  pose proof (proj2 (proj1 (wp_steps _ _ [] _) server_wp) _ _ Hp) as Hsf. cbn in Hcf, Hsf.
  pose proof Hfc as Hfc'. pose proof Hfs as Hfs'. rewrite Forall_forall in Hfc'. rewrite Forall_forall in Hfs'.
  split_and!.
  - destruct rc as [|e|w]; [done..|]. destruct Hcf as (e & [He _]%Hfc' & He'). by rewrite He in He'.
  - destruct rs as [|e|w]; [done..|]. destruct Hsf as (e & [He _]%Hfs' & He'). by rewrite He in He'.
  - intros [Hok|Hok]%orb_true_iff; eapply acked_success; try exact Hfs.
    + destruct rc as [[]|e|w]; [|done..]. destruct Hcf as (i & ch & r & ci & _ & Hr & _ & _ & Ho).
      assert (ci ∈ recvs tc) as (e & [_ He]%Hfc' & Hci)%list_elem_of_omap by (rewrite Hr; set_solver).
      eapply server_acked; [exact Hp|by apply He|done].
    + destruct rs as [[]|e|w]; [|done..]. by destruct Hsf as (_ & _ & _ & ?).
Qed.

Lemma inv_concluded s : some_inv s → (∃ s', ustep s s') ∨ concluded stJ fw t0 m s.
Proof using Hc Hm st_total.
  intros (tc & ts & o & Hi).
  destruct (unreliable_progress stJ s st_total) as [Hs|(rc & [rs p] & [rf fw'] & El & Ep & Ef)]; [| |by left|right].
  { intros n k E. pose proof (ui_client _ _ _ _ Hi) as Hs. rewrite E in Hs. left.
    exact (proj1 (proj1 (wp_steps _ _ [] _) client_wp) _ _ _ Hs). }
  { intros n k E. pose proof (ui_server _ _ _ _ Hi) as Hs. rewrite E in Hs.
    exact (proj1 (proj1 (wp_steps _ _ [] _) server_wp) _ _ _ Hs). }
  destruct (results_fair _ _ _ _ _ _ _ Hi El Ep) as (Hpc & Hps & Hok). destruct Hi as [_ _ Hf _ _ _ _ _ _].
  exists rc, rs, p, rf, fw'. do 5 (split; [done|]).
  rewrite Ef in Hf. inversion Hf as [E Et|e E Et|[[r1 fw1]|c k] K E HK He|r1 fw1 x E He Hx Hr]; subst o; simplify_eq.
  - left. split_and!; try done.
    + destruct (is_ok rc); [|done]. by destruct Hok as (? & ? & _).
    + destruct (is_ok rs); [|done]. rewrite orb_true_r in Hok. by destruct Hok as (? & ? & _).
  - cbn in E. rewrite HK in E. right. exists r1.
    destruct r1 as [[]|e|w]; try done. unfold fwd_reply in E. cbn in E. injection E as -> ->.
    split; [by apply He|]. split; [done|]. intros H1. by destruct (Hok H1) as (? & ? & _).
  - right. exists r1. split; [done|]. split; [congruence|]. intros H1.
    destruct (Hok H1) as (r & [= ->] & ?). done.
Qed.

(** Every run of the system comes to such an end. *)
Lemma unreliable_concludes : Acc (λ s' s, ustep s s') start ∧ inevitably ustep (concluded stJ fw t0 m) start.
Proof using Hc Hm st_total.
  split; [apply net_step_terminates|]. eapply inevitably_intro; [apply some_inv_step|apply inv_concluded| |apply some_inv_start].
  apply net_step_terminates.
Qed.

End unreliable.
