(* ===== verification/EndToEnd.v ===== *)
(** * The whole system: agreement of the client and the daemons

    A knock or a close as the three programs of System.v that run side by side, and what they
    have done when all of them have finished. *)

From S2P Require Import Prelude Prog Str Proto FwProto Addr Conf Nftables NftSpec NftOps FwRefine FwServer FwClient Protocol.
From S2P Require Import ProtoSafe Client ClientSafe System Unreliable.
Local Open Scope Z_scope.

(** ** The session of the control server, as the other side sees it *)

Section server_contract.
Context `{Crypto} (conf : Config) (peer_ip : IpAddr).
Let d := c_control_timeout conf.

Abbreviation session := (prog proto_iface (res () * Protocol)).

(** Without a message from the peer, the session is over. *)
Definition srv_ends (q : session) : Prop :=
  ∃ r p, q = Ret (r, p) ∧ is_ok r = false ∧ is_panic r = false.

(** One last message is sent: the error message, or the come-in message. *)
Definition srv_last (m_ok : Message → Prop) (ok : bool) (q : session) : Prop :=
  ∃ k, q = Vis (inl (NRandom SALT_SIZE) : cmd proto_iface) k ∧ ∀ x, good_random x →
    ∃ m k2, k x = Vis (inl (NSend d m) : cmd proto_iface) k2 ∧ m_ok m ∧
      ∃ r p, k2 (Some (Ok ())) = Ret (r, p) ∧ is_ok r = ok ∧ is_panic r = false.

Definition srv_fails : session → Prop := srv_last (λ m, m_operation m = GoAway) false.
Definition srv_comein (knock : Message) : session → Prop :=
  srv_last (λ m, m_operation m = ComeIn ∧ m_user m = m_user knock ∧ m_resource m = m_resource knock) true.

(** The request to the firewall daemon. *)
Definition srv_await_ack (knock : Message) (q : session) : Prop :=
  ∃ k, q = Vis (inr FwcRecv : cmd proto_iface) k ∧ srv_fails (k (Ok None)) ∧
    srv_fails (k (Ok (Some new_nack))) ∧ srv_comein knock (k (Ok (Some new_ack))).

Definition srv_request (knock : Message) (request : FirewallMessage) (q : session) : Prop :=
  ∃ k, q = Vis (inr FwcConnect : cmd proto_iface) k ∧ (∀ e, srv_fails (k (Err e))) ∧
    ∃ k2, k (Ok ()) = Vis (inr (FwcSend request) : cmd proto_iface) k2 ∧ srv_await_ack knock (k2 (Ok ())).

Definition srv_await_response (knock : Message) (key nonce : list byte) (request : FirewallMessage) (q : session) : Prop :=
  ∃ k, q = Vis (inl (NRecv d) : cmd proto_iface) k ∧ srv_ends (k (Some (Ok None))) ∧ srv_ends (k None) ∧
    ∀ response, response_auth knock key nonce response → srv_request knock request (k (Some (Ok (Some response)))).

(** The challenge. *)
Definition srv_challenge (knock : Message) (key : list byte) (request : FirewallMessage) (q : session) : Prop :=
  ∃ k, q = Vis (inl (NRandom SALT_SIZE) : cmd proto_iface) k ∧ ∀ salt, good_random salt →
    ∃ k2, k salt = Vis (inl (NRandom AUTH_SIZE) : cmd proto_iface) k2 ∧ ∀ nonce, good_random nonce →
      ∃ m k3, k2 nonce = Vis (inl (NSend d m) : cmd proto_iface) k3 ∧
        m_operation m = Challenge ∧ m_user m = m_user knock ∧ m_resource m = m_resource knock ∧
        length (m_auth m) = AUTH_SIZE ∧
        srv_await_response knock key (m_auth m) request (k3 (Some (Ok ()))).

Definition srv_session (q : session) : Prop :=
  ∃ k, q = Vis (inl (NRecv d) : cmd proto_iface) k ∧ srv_ends (k (Some (Ok None))) ∧ srv_ends (k None) ∧
    ∀ knock key resource pt, basic_auth conf knock key → permitted conf knock resource → length key = KEY_SIZE →
      resource_port_type resource = Ok pt →
      srv_challenge knock key (fw_request peer_ip knock resource pt) (k (Some (Ok (Some knock)))).

Lemma go_away_after_auth : go_away_allowed conf ChallengeResponseAuth = true.
Proof. unfold go_away_allowed. by destruct (c_control_error_policy conf). Qed.

Ltac run_cbn := cbn -[check_auth_ok_no_challenge check_auth_ok is_initial secure_random_check resource_port_type
  go_away_allowed].

(** One more message, after random bytes for its salt. *)
Ltac run_last :=
  run_cbn; rewrite ?go_away_after_auth; run_cbn; eexists; split; [reflexivity|];
  intros ? (? & -> & Hgood); run_cbn; rewrite Hgood; run_cbn;
  do 2 eexists; split; [reflexivity|]; split; [done|]; do 2 eexists; by split.

Lemma Protocol_run_session p : srv_session (Protocol_run conf peer_ip p).
Proof.
  unfold srv_session, Protocol_run, method_bind. cbn [mset pbind net].
  eexists. split; [reflexivity|]. split; [run_cbn; by do 2 eexists|]. split; [run_cbn; by do 2 eexists|].
  intros knock key resource pt [Hinit Hkey Hmac] [Hres Huser Hport] Hlen Hpt.
  run_cbn. rewrite Hinit. run_cbn. rewrite Hkey. run_cbn.
  rewrite check_auth_ok_no_challenge_spec by done. run_cbn.
  rewrite bool_decide_eq_true_2 by done. run_cbn. rewrite Hres. run_cbn. rewrite Huser. run_cbn.
  rewrite (proj2 (Z.eqb_neq _ _)) by done. run_cbn.
  eexists. split; [reflexivity|]. intros ? (salt & -> & Hsalt). run_cbn. rewrite Hsalt. run_cbn.
  eexists. split; [reflexivity|]. intros ? (nonce & -> & Hnonce). run_cbn. rewrite Hnonce. run_cbn.
  do 2 eexists. split; [reflexivity|]. do 3 (split; [done|]). split; [apply length_vec_to_list|].
  eexists. split; [reflexivity|]. split; [run_cbn; by do 2 eexists|]. split; [run_cbn; by do 2 eexists|].
  intros response [Hop Hru Hrr Hrm]. run_cbn. rewrite !bool_decide_eq_true_2 by done. run_cbn.
  rewrite check_auth_ok_spec by (done || apply length_vec_to_list). run_cbn.
  rewrite bool_decide_eq_true_2 by done. run_cbn. rewrite Hpt. run_cbn.
  eexists. split; [reflexivity|]. split; [intros e; run_last|].
  run_cbn. unfold fw_request. destruct (bool_decide (m_operation knock = Close)); run_cbn;
    (eexists; split; [reflexivity|]); (eexists; split; [reflexivity|]); (split; [run_last|]);
    (split; [run_last|run_last]).
Qed.

End server_contract.

(** ** The session of the client, as the other side sees it *)

Section client_contract.
Context `{Crypto} (op : Operation) (seq : Seq) (mode : ResMode).
Let d := s_control_timeout seq.

Abbreviation cli_prog := (prog cli_iface (res ())).

(** Looking up the host and connecting. *)
Definition set_up_cmd (c : cli_cmd) : bool :=
  match c with
  | CLookup _ _ | CTcpConnect _ _ | CTcpNodelay | CUdpBind _ | CUdpConnect _ _ | CUdpPeerAddr => true
  | CSend _ _ | CRecv _ | CRandom _ | CWarn _ => false
  end.
Definition set_up_answer (c : cli_cmd) : cli_resp c → Prop :=
  match c with
  | CTcpConnect _ _ | CTcpNodelay | CUdpBind _ | CUdpConnect _ _ | CUdpPeerAddr => λ x : res (), is_panic x = false
  | _ => λ _, True
  end.

Fixpoint set_up {A} (p : prog cli_iface (res A)) : Prop :=
  match p with
  | Ret r => is_panic r = false
  | Vis c k => set_up_cmd c = true ∧ ∀ x, set_up_answer c x → set_up (k x)
  end.

Definition cli_ends (q : cli_prog) : Prop := ∃ r, q = Ret r ∧ is_ok r = false ∧ is_panic r = false.

(** Waiting for a message; an error message, or the end of the connection, ends the sequence. *)
Definition cli_await (q : cli_prog) (reply : (Message → cli_prog) → Prop) : Prop :=
  ∃ k, q = Vis (CRecv d : cmd cli_iface) k ∧ cli_ends (k (Some (Ok None))) ∧ cli_ends (k None) ∧
    (∀ m, m_operation m = GoAway → cli_ends (k (Some (Ok (Some m))))) ∧ reply (λ m, k (Some (Ok (Some m)))).

Definition reply_of (o : Operation) (m : Message) : Prop :=
  m_operation m = o ∧ m_user m = s_user seq ∧ m_resource m = s_resource seq.

Definition cli_await_comein (q : cli_prog) : Prop :=
  cli_await q (λ k, ∀ m, reply_of ComeIn m → k m = Ret (Ok ())).

Definition cli_await_challenge (q : cli_prog) : Prop :=
  cli_await q (λ k, ∀ ch, reply_of Challenge ch → length (m_auth ch) = AUTH_SIZE →
    ∃ k2, k ch = Vis (CRandom SALT_SIZE : cmd cli_iface) k2 ∧ ∀ x, good_random x →
      ∃ m k3, k2 x = Vis (CSend d m : cmd cli_iface) k3 ∧ response_msg seq ch m ∧
        cli_await_comein (k3 (Some (Ok ())))).

Definition cli_session (q : cli_prog) : Prop :=
  ∃ (p0 : prog cli_iface (res ())) K, q = pbind p0 K ∧ set_up p0 ∧ (∀ e, cli_ends (K (Err e))) ∧
    ∃ k, K (Ok ()) = Vis (CRandom SALT_SIZE : cmd cli_iface) k ∧ ∀ x, good_random x →
      ∃ m k2, k x = Vis (CSend d m : cmd cli_iface) k2 ∧ initial_msg op seq m ∧
        cli_await_challenge (k2 (Some (Ok ()))).

Lemma set_up_bind {A B} (p : prog cli_iface (res A)) (f : res A → prog cli_iface (res B)) :
  set_up p → (∀ r, is_panic r = false → set_up (f r)) → set_up (pbind p f).
Proof.
  intros Hp Hf. induction p as [r|c k IH]; simpl in *; [by apply Hf|].
  destruct Hp as [Hc Hk]. split; [done|]. intros x Hx. apply IH, Hk, Hx.
Qed.

Lemma set_up_cbind {A B} (p : prog cli_iface (res A)) (f : A → prog cli_iface (res B)) :
  set_up p → (∀ a, set_up (f a)) → set_up (cbind p f).
Proof. intros Hp Hf. apply set_up_bind; [done|]. intros [a|e|w] Hr; [apply Hf|done|done]. Qed.

Lemma set_up_try {A} msg (p : prog cli_iface (res A)) : set_up p → set_up (try msg p).
Proof. intros Hp. apply set_up_bind; [done|]. by intros [a|e|w]. Qed.

Lemma set_up_Client_new : cp_tcp (s_control_port seq) ≠ cp_udp (s_control_port seq) →
  set_up (Client_new (s_addr seq) (s_control_port seq) mode).
Proof.
  intros Hp. unfold Client_new. apply set_up_cbind.
  { apply set_up_try. unfold resolve. destruct (IpAddr_from_str (s_addr seq)) as [a|].
    - by destruct mode, (is_ipv4 a).
    - split; [done|]. intros [l|] _; simpl; [|done]. by destruct (first_addr mode l). }
  intros a. destruct (cp_tcp (s_control_port seq)), (cp_udp (s_control_port seq)); try done;
    (apply set_up_cbind; [done|]; intros _); repeat (apply set_up_cbind; [|intros _]);
    apply set_up_try; by split.
Qed.

Ltac cli_cbn := cbn -[check_reply generate_auth generate_auth_no_challenge secure_random_check resolve Client_new].

Lemma check_reply_same m : m_user m = s_user seq → m_resource m = s_resource seq → check_reply seq m = Ret (Ok ()).
Proof. intros Hu Hr. unfold check_reply. by rewrite !bool_decide_eq_true_2. Qed.

(** The first part of every wait. *)
Ltac run_await :=
  eexists; split; [reflexivity|]; split; [cli_cbn; by eexists|]; split; [cli_cbn; by eexists|];
  split; [intros ? Hm; cli_cbn; rewrite Hm, bool_decide_eq_true_2 by done; cli_cbn; by eexists|].

Lemma sequence_session :
  is_initial op = true → length (s_key seq) = KEY_SIZE → cp_tcp (s_control_port seq) ≠ cp_udp (s_control_port seq) →
  cli_session (sequence op seq mode).
Proof.
  intros Hop Hkey Hport. unfold cli_session, sequence.
  do 2 eexists. split; [reflexivity|]. split; [by apply set_up_try, set_up_Client_new|].
  split; [intros e; by eexists|]. cli_cbn.
  eexists. split; [reflexivity|]. intros ? (salt & -> & Hsalt). cli_cbn. rewrite Hsalt. cli_cbn.
  rewrite generate_auth_no_challenge_ok by done. cli_cbn.
  do 2 eexists. split; [reflexivity|]. split; [by split|]. run_await.
  intros ch (Ho & Hu & Hr) Hlen. cli_cbn.
  rewrite Ho, bool_decide_eq_false_2, bool_decide_eq_true_2 by done. cli_cbn. rewrite check_reply_same by done. cli_cbn.
  eexists. split; [reflexivity|]. intros ? (salt2 & -> & Hsalt2). cli_cbn. rewrite Hsalt2. cli_cbn.
  rewrite generate_auth_ok by done. cli_cbn.
  do 2 eexists. split; [reflexivity|]. split; [by split|]. run_await.
  intros m (Ho2 & Hu2 & Hr2). cli_cbn.
  rewrite Ho2, bool_decide_eq_false_2, bool_decide_eq_true_2 by done. cli_cbn. by rewrite check_reply_same.
Qed.

End client_contract.

(** ** The runs of the system *)

Section runs.
Context `{HC : Crypto} `{HO : HashOrder} {J : iface} {F : Type} `{FO : FirewallOpen J F}.
Context {T : Type} (stJ : T → ∀ c : cmd J, resp J c → T → Prop).
Context (st_total : ∀ t (c : cmd J), ∃ x t', stJ t c x t').
Context (fw : F) (t0 : T) (m : method J F ()).

(** The end on a reliable network: all three have finished, nobody has panicked but the firewall
    itself, and client and control server agree about the result: either nothing was done, or
    exactly one call of the firewall was made, and they report its success. *)
Definition settled (s : sys (F := F) (T := T) (J := J)) : Prop :=
  ∃ rc rs p rf fw', y_client s = Ret rc ∧ y_server s = Ret (rs, p) ∧ y_fwd s = Ret (rf, fw') ∧
    is_panic rc = false ∧ is_panic rs = false ∧ is_ok rs = is_ok rc ∧
    (is_ok rc = false ∧ is_panic rf = false ∧ fw' = fw ∧ y_firewall s = t0 ∨
     ∃ r1, exec stJ t0 (m fw) (r1, fw') (y_firewall s) ∧ is_ok rc = is_ok r1 ∧ is_panic rf = is_panic r1).

Abbreviation inev := (inevitably (sys_step stJ) settled).

(** What the firewall daemon has done, if the result is [ok]; [panic]: it has panicked. *)
Definition fw_done (ok panic : bool) (fw' : F) (t : T) : Prop :=
  ok = false ∧ panic = false ∧ fw' = fw ∧ t = t0 ∨
  ∃ r1, exec stJ t0 (m fw) (r1, fw') t ∧ ok = is_ok r1 ∧ panic = is_panic r1.

Lemma settled_now ok rc rs p rf fw' n t :
  is_ok rc = ok → is_ok rs = ok → is_panic rc = false → is_panic rs = false → fw_done ok (is_panic rf) fw' t →
  inev (MkSys (Ret rc) (Ret (rs, p)) (Ret (rf, fw')) n t).
Proof. intros Hc Hs Hc' Hs' Hd. apply inev_now. exists rc, rs, p, rf, fw'. unfold fw_done in Hd. by rewrite Hs, Hc. Qed.

Ltac waiting :=
  intros ?; cbn; try tauto; intros (? & ? & (? & (? & _) & _) & _); done.

Context (conf : Config) (op : Operation) (seq : Seq).

(** The last message reaches the client. *)
Lemma inev_client_last l reply msg rs p rf fw' t ok :
  cli_await seq l reply → is_ok rs = ok → is_panic rs = false → fw_done ok (is_panic rf) fw' t →
  (if ok then ∀ k, reply k → k msg = Ret (Ok ()) else m_operation msg = GoAway) →
  inev (MkSys l (Ret (rs, p)) (Ret (rf, fw')) (MkQueues [] [msg] [] []) t).
Proof.
  intros (k & -> & _ & _ & Hga & Hk) Hs Hs' Hd Hm. apply inev_client; [waiting|waiting| |].
  - do 2 eexists. exists []. by cbn.
  - intros x n' (q & [-> ->] & ->). cbn. destruct ok.
    + rewrite (Hm _ Hk : k (Some (Ok (Some msg))) = _). by apply (settled_now true).
    + destruct (Hga msg Hm) as (r & -> & Hr & Hr'). by apply (settled_now false).
Qed.

(** The server sends its last message and ends. *)
Lemma inev_server_last l reply q m_ok rf fw' t ok :
  cli_await seq l reply → srv_last conf m_ok ok q → fw_done ok (is_panic rf) fw' t →
  (∀ msg, m_ok msg → if ok then ∀ k, reply k → k msg = Ret (Ok ()) else m_operation msg = GoAway) →
  inev (MkSys l q (Ret (rf, fw')) no_messages t).
Proof.
  intros Hl (k & -> & Hk) Hd Hm. pose proof Hl as (kl & -> & _). apply inev_server; [waiting|waiting| |].
  { exists (Some (fixed_random SALT_SIZE)), no_messages. split; [|done]. by eexists. }
  intros x n' [Hx ->]. destruct (Hk x Hx) as (msg & k2 & -> & Hmsg & r & p & Hk2 & Hr & Hr').
  apply inev_server; [waiting|waiting|by do 2 eexists|].
  intros x2 n' [-> ->]. cbn. rewrite Hk2. by eapply inev_client_last; [..|apply Hm].
Qed.

(** After the firewall has been called: the reply, and what follows from it. *)
Lemma inev_reply l knock q rf fw' t :
  cli_await_comein seq l → m_user knock = s_user seq → m_resource knock = s_resource seq →
  srv_await_ack conf knock q → exec stJ t0 (m fw) (rf, fw') t →
  inev (MkSys l q (fwd_reply (rf, fw')) no_messages t).
Proof.
  intros Hl Hu Hr Hq He. pose proof Hl as (kl & -> & _). destruct Hq as (k & -> & Hnone & Hnack & Hack).
  assert (Hdone : fw_done (is_ok rf) (is_panic rf) fw' t) by (right; by exists rf).
  destruct rf as [[]|e|w]; unfold fwd_reply; cbn [fst snd is_ok].
  1,2: apply inev_conn; [waiting|waiting|by do 2 eexists|]; intros x n' [-> ->]; cbn;
    (apply inev_server; [waiting|waiting|do 2 eexists; exists []; by cbn|]);
    intros y n' (q' & [[= ->] ->] & ->); cbn.
  - eapply inev_server_last; [exact Hl|exact Hack|exact Hdone|].
    intros msg (Ho & Hu' & Hr') kk Hkk. apply Hkk. split_and!; congruence.
  - eapply inev_server_last; [exact Hl|exact Hnack|exact Hdone|done].
  - apply inev_server; [waiting|waiting|exists (Ok None), no_messages, []; cbn; by auto 6|].
    intros y n' (q' & (_ & [[= ->]|[=]] & ->) & ->). cbn.
    eapply inev_server_last; [exact Hl|exact Hnone|exact Hdone|done].
Qed.

(** The firewall daemon has received the request. *)
Lemma inev_call l knock q K :
  cli_await_comein seq l → m_user knock = s_user seq → m_resource knock = s_resource seq →
  srv_await_ack conf knock q → (∀ rf, K rf = fwd_reply rf) →
  inev (MkSys l q (pbind (inj_r (m fw)) K) no_messages t0).
Proof using st_total.
  intros Hl Hu Hr Hq HK. pose proof Hl as (kl & -> & _). pose proof Hq as (k & -> & _).
  apply inev_firewall; [done| |].
  - intros f t Hf. split; [waiting|]. intros s'. cbn. intros (? & ? & (? & (E & _) & _) & _). by rewrite Hf in E.
  - intros [rf fw'] t He. rewrite HK. by eapply inev_reply.
Qed.

(** The server cannot reach the firewall daemon: the error message to the client and the end of the
    unused connection, in any order. *)
Lemma inev_unreachable l q msg f :
  cli_await_comein seq l → srv_fails conf q → fwd_session fw msg m f →
  inev (MkSys l q f no_messages t0).
Proof.
  intros Hl (k & -> & Hk) (kf & -> & [e Hkf] & _). pose proof Hl as (kl & -> & _ & _ & Hga & _).
  apply inev_server; [waiting|waiting| |].
  { exists (Some (fixed_random SALT_SIZE)), no_messages. split; [|done]. by eexists. }
  intros x n' [Hx ->]. destruct (Hk x Hx) as (goaway & k2 & -> & Hm & r & p & Hk2 & Hr & Hr').
  apply inev_server; [waiting|waiting|by do 2 eexists|]. intros x2 n' [-> ->]. cbn. rewrite Hk2.
  assert (Hd : fw_done false false fw t0) by (by left).
  apply inev_step.
  { eexists. apply step_fwd. exists (Ok None). eexists. split; [exists []; cbn; by auto 6|done]. }
  intros s' [(y & n' & (q' & [-> ->] & ->) & ->)|[]|(y & n' & (q' & (_ & [[= ->]|[=]] & ->) & ->) & ->)]; cbn.
  - destruct (Hga _ Hm) as (rc & -> & Hrc & Hrc'). apply inev_conn; [waiting|waiting| |].
    { exists (Ok None). eexists. exists []. cbn. by auto 6. }
    intros y n' (q' & (_ & [[= ->]|[=]] & ->) & ->). cbn. rewrite Hkf. by apply (settled_now false).
  - rewrite Hkf. by eapply inev_client_last.
Qed.

(** The server has the response. *)
Lemma inev_request l knock q msg f :
  cli_await_comein seq l → m_user knock = s_user seq → m_resource knock = s_resource seq →
  srv_request conf knock msg q → fwd_session fw msg m f →
  inev (MkSys l q f no_messages t0).
Proof using st_total.
  intros Hl Hu Hr (k & -> & Herr & k2 & Hk2 & Hq) Hf. pose proof Hl as (kl & -> & _).
  pose proof Hf as (kf & -> & _ & _ & K & HK & Hrep).
  apply inev_server; [waiting|waiting|by exists (Ok ()), no_messages|].
  intros x n' [Hx ->]. destruct x as [[]|e|w]; [|by eapply inev_unreachable|done].
  rewrite Hk2. apply inev_server; [waiting|waiting|by do 2 eexists|]. intros x n' [-> ->]. cbn.
  pose proof Hq as (k3 & E & _). rewrite E in Hq |- *. apply inev_conn; [waiting|waiting|do 2 eexists; exists []; by cbn|].
  intros x n' (q' & [[= ->] ->] & ->). cbn. rewrite HK. by eapply inev_call.
Qed.

(** From the initial message on. *)
Lemma inev_exchange l knock q resource pt peer_ip f :
  basic_auth conf knock (s_key seq) → permitted conf knock resource → length (s_key seq) = KEY_SIZE →
  resource_port_type resource = Ok pt → initial_msg op seq knock →
  cli_await_challenge seq l → srv_session conf peer_ip q →
  fwd_session fw (fw_request peer_ip knock resource pt) m f →
  inev (MkSys l q f (MkQueues [knock] [] [] []) t0).
Proof using st_total.
  intros Hb Hp Hlen Hpt [_ Hiu Hir _] (kl & -> & _ & _ & _ & Hl) (k & -> & _ & _ & Hq) Hf.
  pose proof Hf as (kf & -> & _).
  apply inev_server; [waiting|waiting|do 2 eexists; exists []; by cbn|].
  intros x n' (q' & [-> ->] & ->). cbn. destruct (Hq knock _ resource pt Hb Hp Hlen Hpt) as (k2 & -> & Hk2).
  apply inev_server; [waiting|waiting| |].
  { exists (Some (fixed_random SALT_SIZE)). eexists. split; [|done]. by eexists. }
  intros salt n' [Hsalt ->]. destruct (Hk2 salt Hsalt) as (k3 & -> & Hk3).
  apply inev_server; [waiting|waiting| |].
  { exists (Some (fixed_random AUTH_SIZE)). eexists. split; [|done]. by eexists. }
  intros nonce n' [Hnonce ->]. destruct (Hk3 nonce Hnonce) as (ch & k4 & -> & Hco & Hcu & Hcr & Hca & Hresp).
  apply inev_server; [waiting|waiting|by do 2 eexists|]. intros x n' [-> ->]. cbn.
  pose proof Hresp as (k5 & E5 & _ & _ & Hk5). rewrite E5.
  apply inev_client; [waiting|waiting|do 2 eexists; exists []; by cbn|].
  intros x n' (q' & [-> ->] & ->). cbn.
  destruct (Hl ch) as (kl2 & -> & Hkl2); [split_and!; congruence|done|].
  apply inev_client; [waiting|waiting| |].
  { exists (Some (fixed_random SALT_SIZE)). eexists. split; [|done]. by eexists. }
  intros x n' [Hx ->]. destruct (Hkl2 x Hx) as (response & kl3 & -> & [_ Hro Hru Hrr Hrm] & Hcomein).
  apply inev_client; [waiting|waiting|by do 2 eexists|]. intros y n' [-> ->]. cbn.
  pose proof Hcomein as (kl4 & E4 & _). rewrite E4 in Hcomein |- *.
  apply inev_server; [waiting|waiting|do 2 eexists; exists []; by cbn|].
  intros y n' (q' & [-> ->] & ->). cbn. eapply inev_request; [exact Hcomein|exact Hiu|exact Hir| |exact Hf].
  apply Hk5. split; [done|congruence|congruence|done].
Qed.

(** The client has given up before it sent anything. *)
Lemma inev_client_gone r q peer_ip f msg :
  is_ok r = false → is_panic r = false → srv_session conf peer_ip q → fwd_session fw msg m f →
  inev (MkSys (Ret r) q f no_messages t0).
Proof.
  intros Hr Hr' (k & -> & H1 & H2 & _) (kf & -> & [e Hkf] & _).
  apply inev_server; [waiting|waiting| |].
  { exists None. eexists. exists []. cbn. by auto 6. }
  intros x n' (q' & (_ & Hx & ->) & ->). cbn.
  assert (srv_ends (k x)) as (rs & p & -> & Hs & Hs') by (by destruct Hx as [-> | ->]).
  apply inev_conn; [waiting|waiting| |].
  { exists (Ok None). eexists. exists []. cbn. by auto 6. }
  intros y n' (q' & (_ & [[= ->]|[=]] & ->) & ->). cbn. rewrite Hkf. apply (settled_now false); try done. by left.
Qed.

(** Looking up the host and connecting. *)
Lemma inev_set_up {A} (p : prog cli_iface (res A)) K q peer_ip f msg :
  set_up p → srv_session conf peer_ip q → fwd_session fw msg m f →
  (∀ r, is_panic r = false → inev (MkSys (K r) q f no_messages t0)) →
  inev (MkSys (pbind p K) q f no_messages t0).
Proof.
  intros Hp Hq Hf HK. pose proof Hq as (k & -> & _). pose proof Hf as (kf & -> & _).
  induction p as [r|c kc IH]; cbn [pbind]; [by apply HK|]. destruct Hp as [Hc Hp].
  apply inev_client; [waiting|waiting| |].
  - by destruct c; try done; [exists None|exists (Ok ())..]; eexists.
  - intros x n' Hx. assert (set_up_answer c x ∧ n' = no_messages) as [Hx' ->] by (by destruct c; try done; split).
    by apply IH, Hp.
Qed.

(** All together. *)
Lemma system_settles mode p resource pt peer_ip f msg :
  is_initial op = true → length (s_key seq) = KEY_SIZE → cp_tcp (s_control_port seq) ≠ cp_udp (s_control_port seq) →
  conf_key conf (s_user seq) = Some (s_key seq) → conf_resource conf (s_resource seq) = Some resource →
  contains_user resource (s_user seq) = true → r_port resource ≠ cp_port (c_port conf) →
  resource_port_type resource = Ok pt →
  msg = (if bool_decide (op = Close) then new_close else new_open) peer_ip pt (r_port resource) →
  fwd_session fw msg m f →
  inev (MkSys (sequence op seq mode) (Protocol_run conf peer_ip p) f no_messages t0).
Proof using st_total.
  intros Hop Hlen Hport Hkey Hres Huser Hcp Hpt -> Hf.
  destruct (sequence_session op seq mode Hop Hlen Hport) as (p0 & K & -> & Hset & Herr & k & Hk & Hk').
  pose proof (Protocol_run_session conf peer_ip p) as Hs. eapply inev_set_up; [exact Hset|exact Hs|exact Hf|].
  intros [[]|e|w] Hr; [|destruct (Herr e) as (r & -> & He & He'); by eapply inev_client_gone|done].
  rewrite Hk. pose proof Hs as (ks & Es & _). rewrite Es in Hs |- *. pose proof Hf as (kf & -> & _).
  apply inev_client; [waiting|waiting| |].
  { exists (Some (fixed_random SALT_SIZE)). eexists. split; [|done]. by eexists. }
  intros x n' [Hx ->]. destruct (Hk' x Hx) as (knock & k2 & -> & Hi & Hl).
  apply inev_client; [waiting|waiting|by do 2 eexists|]. intros y n' [-> ->]. cbn.
  pose proof Hi as [Hio Hiu Hir Him].
  eapply (inev_exchange _ knock _ resource pt peer_ip); [..|exact Hpt|exact Hi|exact Hl|exact Hs|].
  - split; [by rewrite Hio|by rewrite Hiu|done].
  - split; [by rewrite Hir|by rewrite Hiu|done].
  - done.
  - unfold fw_request. by rewrite Hio.
Qed.

End runs.

(** ** Properties *)

Lemma matching_settles `{Crypto} `{HashOrder} {J F} `{FirewallOpen J F} {T} (stJ : T → ∀ c : cmd J, resp J c → T → Prop)
    conf op seq mode resource pt peer_ip p fw t :
  (∀ t (c : cmd J), ∃ x t', stJ t c x t') → Config_ok conf → matching conf op seq resource pt peer_ip →
  inevitably (sys_step stJ) (settled stJ fw t (the_call conf op resource pt peer_ip))
    (MkSys (sequence op seq mode) (Protocol_run conf peer_ip p) (handle_message conf fw) no_messages t).
Proof.
  intros Ht Hc [Hop Hcp Hkey Hres Huser Hport Hpt Ha]. eapply system_settles; try done.
  - by destruct (co_keys _ Hc _ _ Hkey).
  - apply handle_message_session. set (m := MkMessage MAGIC op (s_user seq) (s_resource seq) [] []).
    apply (request_of_knock conf peer_ip m resource pt); [|done|done]. by split.
Qed.

(** C9 (termination). A knock or a close by a client that knows the key comes to an end, in every
    interleaving of the client, the control daemon and the firewall daemon, for every firewall
    behind the interface of the firewall daemon, and whether or not the set-up of the connections
    and the firewall succeed: there is no infinite run and no deadlock. This holds on two networks.

    On the reliable one, where messages arrive in order, no send fails and no receiver times out
    while its peer still works, the client and the control daemon report the same result, and it is
    the truth: if it is a success, the firewall was called exactly once, with the operation, the
    address of the client and the port of the resource, and that call succeeded; if it is an error,
    that call failed, or the firewall was not touched.

    On the unreliable one, where messages may be lost, duplicated or overtaken, sends may fail and
    every receiver may time out at any moment, the two results may differ (the client may time out
    although the port was opened), but neither is a false success: the firewall was called at most
    once, with the same arguments, and if the client or the control daemon reports a success then
    that call succeeded.

    On both, the client and the control daemon do not panic, and the firewall daemon panics only if
    the call of the firewall did. The random source delivers acceptable bytes, and no call of the
    operating system panics. *)
Theorem system_agreement `{Crypto} `{HashOrder} {J F} `{FirewallOpen J F} {T} (stJ : T → ∀ c : cmd J, resp J c → T → Prop)
    conf op seq mode resource pt peer_ip p fw t :
  let s := MkSys (sequence op seq mode) (Protocol_run conf peer_ip p) (handle_message conf fw) no_messages t in
  let the_call := the_call conf op resource pt peer_ip in
  (∀ t (c : cmd J), ∃ x t', stJ t c x t') → Config_ok conf → matching conf op seq resource pt peer_ip →
  (Acc (λ s' s, sys_step stJ s s') s ∧ inevitably (sys_step stJ) (settled stJ fw t the_call) s) ∧
  Acc (λ s' s, net_step unreliable stJ s s') s ∧
  inevitably (net_step unreliable stJ) (concluded stJ fw t the_call) s.
Proof.
  intros s m Ht Hc Hm. pose proof (matching_settles stJ conf op seq mode resource pt peer_ip p fw t Ht Hc Hm) as Hi.
  split; [split; [|exact Hi]; apply net_step_terminates|by eapply unreliable_concludes].
Qed.

(** What the call does to the leases and to the chain of the kernel. *)
Section nft_call.
Context `{HashOrder} `{K : NftKernel} (conf : Config) (names : NftNames) (kind : u16 → LeasePort).
Context (op : Operation) (resource : Resource) (pt : PortType) (peer_ip : IpAddr).
Let port := lease_port_of pt (r_port resource).

(** After a successful call the lease is there, with the full timeout, or gone, and the chain of the
    kernel agrees with the leases. *)
Definition lease_done (fw fw' : NftFirewall) (k k' : kstate) : Prop :=
  fw_inv conf names kind fw' k' ∧
  if bool_decide (op = Close) then fw_leases fw' = delete (peer_ip, port) (fw_leases fw)
  else ∃ now, kclock k <= now <= kclock k' ∧
    fw_leases fw' = <[(peer_ip, port) := MkLease peer_ip port (now + c_nft_timeout conf)]> (fw_leases fw).

Lemma the_call_effect fw k r fw' k' :
  NftNames_get conf = Ok names → fw_inv conf names kind fw k → port_ok conf kind port → c_debug conf = false →
  exec kstep k (the_call conf op resource pt peer_ip fw) (r, fw') k' →
  if is_ok r then lease_done fw fw' k k'
  else op = Close ∨ fw_leases fw' = fw_leases fw ∨ instant_max <= kclock k' + c_nft_timeout conf.
Proof.
  intros Hn Hi Hp Hd He. unfold the_call, fwd_call in He. unfold lease_done. case_bool_decide as Hop.
  - change (exec kstep k (close_port conf peer_ip port fw) (r, fw') k') in He.
    eapply exec_close_port in He as [_ He]; [|done..]. destruct r as [[]|e|w]; cbn [is_ok]; [|by left..].
    destruct He as [? ->]. by split.
  - change (exec kstep k (open_port conf peer_ip port fw) (r, fw') k') in He.
    eapply exec_open_port in He; [|done..]. destruct r as [[]|e|w]; cbn [is_ok].
    + destruct He as (? & now & ? & ->). split; [done|]. by exists now.
    + destruct He as [_ ->]. right. by left.
    + by do 2 right.
Qed.

End nft_call.

(** C10 (functional). The same for the nftables firewall, from the configuration of the client to the
    rules of the kernel. When the client reports the success of a knock, the lease for its address
    and the port of the resource is in the firewall daemon, with the full timeout, and the kernel
    chain agrees with the leases; when it reports the success of a close, the lease is gone and the
    chain agrees. This holds on the reliable and on the unreliable network of System.v. On the
    reliable one, when a knock fails, the leases are as before (or the clock has overflowed). *)
Theorem client_success_means_firewall `{Crypto} `{HashOrder} `{K : NftKernel} conf names kind op seq mode resource pt
    peer_ip p fw k :
  let port := lease_port_of pt (r_port resource) in
  let s := MkSys (sequence op seq mode) (Protocol_run conf peer_ip p) (handle_message conf fw) no_messages k in
  (∀ k c, ∃ x k', kstep k c x k') → Config_ok conf → matching conf op seq resource pt peer_ip →
  NftNames_get conf = Ok names → fw_inv conf names kind fw k → port_ok conf kind port → c_debug conf = false →
  inevitably (sys_step (J := fw_iface) kstep)
    (λ s, ∃ rc rf fw', y_client s = Ret rc ∧ y_fwd s = Ret (rf, fw') ∧
       if is_ok rc then lease_done conf names kind op resource pt peer_ip fw fw' k (y_firewall s)
       else op = Close ∨ fw_leases fw' = fw_leases fw ∨ instant_max <= kclock (y_firewall s) + c_nft_timeout conf) s ∧
  inevitably (net_step unreliable (J := fw_iface) kstep)
    (λ s, ∃ rc rf fw', y_client s = Ret rc ∧ y_fwd s = Ret (rf, fw') ∧
       (is_ok rc = true → lease_done conf names kind op resource pt peer_ip fw fw' k (y_firewall s))) s.
Proof.
  intros port s0 Ht Hc Hm Hn Hi Hp Hd.
  assert (Heff := λ r fw' k', the_call_effect conf names kind op resource pt peer_ip fw k r fw' k' Hn Hi Hp Hd).
  split; (eapply inevitably_mono; [|by (apply matching_settles || eapply unreliable_concludes)]).
  - intros s (rc & rs & p' & rf & fw' & El & _ & Ef & _ & _ & _ & Hr). exists rc, rf, fw'. do 2 (split; [done|]).
    destruct Hr as [(-> & _ & -> & _)|(r1 & He & -> & _)]; [by right; left|]. by apply Heff.
  - intros s (rc & rs & p' & rf & fw' & El & _ & Ef & _ & _ & Hr). exists rc, rf, fw'. do 2 (split; [done|]).
    intros Hok. rewrite Hok in Hr. destruct Hr as [(? & _)|(r1 & He & _ & Hr1)]; [done|].
    apply Heff in He. by rewrite (Hr1 eq_refl) in He.
Qed.

(** ** A concrete system *)

#[local] Existing Instance toy_crypto.
#[local] Existing Instance sorted_order.
#[local] Existing Instance sim_kernel.

(** The configuration of the daemons, with the [NFTABLES] section. *)
Definition system_conf : Config :=
  MkConfig (c_variant sample_conf) (c_path sample_conf) (c_debug sample_conf) (c_port sample_conf)
    (c_control_timeout sample_conf) (c_control_error_policy sample_conf) (c_seccomp sample_conf) (c_keys sample_conf)
    (c_resources sample_conf) (c_default_user sample_conf) (c_nft_exe sample_fw_conf) (c_nft_family sample_fw_conf)
    (c_nft_table sample_fw_conf) (c_nft_chain_input sample_fw_conf) (c_nft_timeout sample_fw_conf).

Lemma system_conf_ok : Config_ok system_conf.
Proof.
  destruct sample_conf_ok as [H1 H2 H3 H4 _]. split; [exact H1|exact H2|exact H3|exact H4|].
  apply (bool_decide_unpack _). vm_compute. exact I.
Qed.

Lemma sample_matching : matching system_conf Knock sample_seq sample_resource PtTcp sample_v4.
Proof. split; vm_compute; (reflexivity || discriminate). Qed.

Lemma sim_total k (c : cmd fw_iface) : ∃ x k', sim_step k c x k'.
Proof. do 2 eexists. exact (sim_handle_step c k). Qed.

(** The firewall daemon has just been started. *)
Definition sample_started : NftFirewall * sim_state :=
  sim_result (MkNftFirewall ∅ true 0) (NftFirewall_new system_conf) sample_k0.

Lemma sample_started_exec : exec kstep sample_k0 (NftFirewall_new system_conf) (Ok sample_started.1) sample_started.2.
Proof. eapply sim_exec_run. vm_compute. reflexivity. Qed.

Lemma system_conf_names : ∃ names, NftNames_get system_conf = Ok names.
Proof. eexists. vm_compute. reflexivity. Qed.

Definition sample_system : sys (J := fw_iface) (F := NftFirewall) (T := sim_state) :=
  MkSys (sequence Knock sample_seq Ipv4) (Protocol_run system_conf sample_v4 Protocol_new)
    (handle_message system_conf sample_started.1) no_messages sample_started.2.

Lemma system_agreement_witness :
  inevitably (sys_step (J := fw_iface) sim_step)
    (settled (J := fw_iface) sim_step sample_started.1 sample_started.2 (the_call system_conf Knock sample_resource PtTcp sample_v4))
    sample_system ∧
  inevitably (net_step unreliable (J := fw_iface) sim_step)
    (concluded (J := fw_iface) sim_step sample_started.1 sample_started.2 (the_call system_conf Knock sample_resource PtTcp sample_v4))
    sample_system.
Proof.
  pose proof (system_agreement (J := fw_iface) (F := NftFirewall) sim_step system_conf Knock sample_seq Ipv4
    sample_resource PtTcp sample_v4 Protocol_new sample_started.1 sample_started.2 sim_total system_conf_ok sample_matching)
    as [[_ H1] [_ H2]].
  split; [exact H1|exact H2].
Defined.

Lemma client_success_means_firewall_witness :
  ∃ names, inevitably (net_step unreliable (J := fw_iface) sim_step)
    (λ s, ∃ rc rf fw', y_client s = Ret rc ∧ y_fwd s = Ret (rf, fw') ∧
       (is_ok rc = true → fw_inv system_conf names LpTcp fw' (y_firewall s))) sample_system.
Proof.
  destruct system_conf_names as [names Hn]. exists names.
  eapply inevitably_mono; [|apply (client_success_means_firewall (K := sim_kernel) system_conf names LpTcp Knock sample_seq Ipv4
    sample_resource PtTcp sample_v4 Protocol_new sample_started.1 sample_started.2 sim_total system_conf_ok sample_matching Hn)].
  - intros s (rc & rf & fw' & El & Ef & H). exists rc, rf, fw'. split; [exact El|]. split; [exact Ef|].
    intros E. exact (proj1 (H E)).
  - exact (proj1 (proj2 (exec_new (K := sim_kernel) system_conf names Hn LpTcp _ _ _ sample_started_exec))).
  - split; vm_compute; (reflexivity || discriminate || congruence).
  - vm_compute. reflexivity.
Defined.

(** ** A scheduler

    The first component that can move does; the set-up succeeds, the random source answers with
    fixed bytes. A reachable success shows that the theorems are not about failures only. *)

Definition take_msg {M} (peer_done : bool) (q : list M) : option (res (option M) * list M) :=
  match q with m :: q' => Some (Ok (Some m), q') | [] => if peer_done then Some (Ok None, []) else None end.

Definition random_answer (k : nat) : option (option (vec byte k)) :=
  let v := fixed_random k in
  match secure_random_check (vec_to_list v) with Ok _ => Some (Some v) | _ => None end.

Definition client_handle (server_done : bool) (n : queues) (c : cli_cmd) : option (cli_resp c * queues) :=
  match c with
  | CLookup _ _ => Some (Some [RD_AAAA (fixed_random 16); RD_A (fixed_random 4)], n)
  | CTcpConnect _ _ | CTcpNodelay | CUdpBind _ | CUdpConnect _ _ | CUdpPeerAddr => Some (Ok (), n)
  | CSend _ m => Some (Some (Ok ()), MkQueues (c2s n ++ [m]) (s2c n) (s2f n) (f2s n))
  | CRecv _ => '(x, q) ← take_msg server_done (s2c n); Some (Some x, MkQueues (c2s n) q (s2f n) (f2s n))
  | CRandom k => x ← random_answer k; Some (x, n)
  | CWarn _ => Some ((), n)
  end.

Definition net_handle (client_done : bool) (n : queues) (c : net_cmd) : option (net_resp c * queues) :=
  match c with
  | NSend _ m => Some (Some (Ok ()), MkQueues (c2s n) (s2c n ++ [m]) (s2f n) (f2s n))
  | NRecv _ => '(x, q) ← take_msg client_done (c2s n); Some (Some x, MkQueues q (s2c n) (s2f n) (f2s n))
  | NRandom k => x ← random_answer k; Some (x, n)
  end.

Definition fwc_handle (fwd_done : bool) (n : queues) (c : fwc_cmd) : option (fwc_resp c * queues) :=
  match c with
  | FwcConnect => Some (Ok (), n)
  | FwcSend m => Some (Ok (), MkQueues (c2s n) (s2c n) (s2f n ++ [m]) (f2s n))
  | FwcRecv => '(x, q) ← take_msg fwd_done (f2s n); Some (x, MkQueues (c2s n) (s2c n) (s2f n) q)
  end.

Definition conn_handle (server_done : bool) (n : queues) (c : conn_cmd) : option (conn_resp c * queues) :=
  match c with
  | ConnRecv => '(x, q) ← take_msg server_done (s2f n); Some (x, MkQueues (c2s n) (s2c n) q (f2s n))
  | ConnSend m => Some (Ok (), MkQueues (c2s n) (s2c n) (s2f n) (f2s n ++ [m]))
  end.

Abbreviation sim_sys := (sys (J := fw_iface) (F := NftFirewall) (T := sim_state)).

Definition next_client (s : sim_sys) : option sim_sys :=
  match y_client s with
  | Ret _ => None
  | Vis c k => '(x, n) ← client_handle (finished (y_server s)) (y_queues s) c;
      Some (MkSys (k x) (y_server s) (y_fwd s) n (y_firewall s))
  end.

Definition next_server (s : sim_sys) : option sim_sys :=
  match y_server s with
  | Ret _ => None
  | Vis (inl c) k => '(x, n) ← net_handle (finished (y_client s)) (y_queues s) c;
      Some (MkSys (y_client s) (k x) (y_fwd s) n (y_firewall s))
  | Vis (inr c) k => '(x, n) ← fwc_handle (finished (y_fwd s)) (y_queues s) c;
      Some (MkSys (y_client s) (k x) (y_fwd s) n (y_firewall s))
  end.

Definition next_fwd (s : sim_sys) : option sim_sys :=
  match y_fwd s with
  | Ret _ => None
  | Vis (inl c) k => '(x, n) ← conn_handle (finished (y_server s)) (y_queues s) c;
      Some (MkSys (y_client s) (y_server s) (k x) n (y_firewall s))
  | Vis (inr c) k => let (x, t) := sim_handle c (y_firewall s) in
      Some (MkSys (y_client s) (y_server s) (k x) (y_queues s) t)
  end.

Fixpoint schedule (fuel : nat) (s : sim_sys) : sim_sys :=
  match fuel with
  | O => s
  | S fuel =>
      match next_client s with
      | Some s' => schedule fuel s'
      | None => match next_server s with
                | Some s' => schedule fuel s'
                | None => match next_fwd s with Some s' => schedule fuel s' | None => s end
                end
      end
  end.

Lemma take_msg_receives {M} done (q : list M) x q' : take_msg done q = Some (x, q') → receives done q (Some x) q'.
Proof. destruct q as [|m q]; simpl; [destruct done|]; intros [= <- <-]; [|done]. split_and!; [done|by left|done]. Qed.

Lemma random_answer_good k x : random_answer k = Some x → good_random x.
Proof.
  unfold random_answer. destruct (secure_random_check _) as [b|e|w] eqn:E; [|done..]. intros [= <-].
  eexists. split; [done|]. by pose proof (secure_random_check_ok _ _ E) as [-> _].
Qed.

Ltac handle_inv :=
  match goal with
  | H : take_msg _ _ ≫= _ = Some _ |- _ =>
      apply bind_Some in H as ([? ?] & ?%take_msg_receives & ?); simplify_eq; eexists; by split
  | H : random_answer _ ≫= _ = Some _ |- _ => apply bind_Some in H as (? & ?%random_answer_good & ?); by simplify_eq
  | H : Some _ = Some _ |- _ => by simplify_eq
  end.

Lemma schedule_step (s s' : sim_sys) :
  next_client s = Some s' ∨ next_server s = Some s' ∨ next_fwd s = Some s' → sys_step (J := fw_iface) sim_step s s'.
Proof.
  intros [Hs|[Hs|Hs]]; [apply step_client|apply step_server|apply step_fwd]; revert Hs;
    unfold next_client, next_server, next_fwd, client_step, server_step, fwd_step.
  - destruct (y_client s) as [|c k]; [done|]. intros ([x n] & Hx & [= <-])%bind_Some. exists x, n. split; [|done].
    destruct c; simpl in *; handle_inv.
  - destruct (y_server s) as [|[c|c] k]; [done| |]; intros ([x n] & Hx & [= <-])%bind_Some; exists x, n;
      (split; [|done]); destruct c; simpl in *; handle_inv.
  - destruct (y_fwd s) as [|[c|c] k]; [done| |].
    + intros ([x n] & Hx & [= <-])%bind_Some. exists x, n. split; [|done]. destruct c; simpl in *; handle_inv.
    + pose proof (sim_handle_step c (y_firewall s)) as Hk. destruct (sim_handle c (y_firewall s)) as [x t].
      intros [= <-]. by exists x, t.
Qed.

(** The knock succeeds, and one rule is added to the two of the control port. *)
Example sample_system_succeeds :
  let s := schedule 60 sample_system in
  (match y_client s, y_server s, y_fwd s with
   | Ret (Ok _), Ret (Ok _, _), Ret (Ok _, fw) => Some (length (map_to_list (fw_leases fw)))
   | _, _, _ => None
   end, rule_count (y_firewall sample_system), rule_count (y_firewall s)) = (Some 1%nat, 1%nat, 2%nat).
Proof. by vm_compute. Qed.
