(* ===== verification/Agreement.v ===== *)
(** * What client and control daemon agree on

    The challenge-response authentication between the client (letmein/src/command/knock.rs, close.rs)
    and the session of the control daemon (letmeind/src/protocol.rs), with the network between them
    in the hands of an attacker. Who forges no MAC has the MAC of every response from a client; these
    theorems say what the client has then agreed to. The hash function is not assumed to be free of
    collisions: the statements name the two inputs that would collide. *)

From S2P Require Import Prelude Prog Str Proto FwProto Conf FwClient Protocol ProtoSafe Client ClientSafe.
Local Open Scope Z_scope.

Section agreement.
Context `{HC : Crypto}.

(** Two different pairs of a key and an input with the same MAC. *)
Definition collides (key1 input1 key2 input2 : list byte) : Prop :=
  (key1, input1) ≠ (key2, input2) ∧ hmac_sha3_256 key1 input1 = hmac_sha3_256 key2 input2.

(** Equal MACs mean equal keys and fields, or a collision. *)
Lemma same_mac key1 key2 m1 m2 c1 c2 :
  Message_wf m1 → Message_wf m2 → length c2 = AUTH_SIZE →
  hmac_sha3_256 key1 (mac_input m1 c1) = hmac_sha3_256 key2 (mac_input m2 c2) →
  collides key1 (mac_input m1 c1) key2 (mac_input m2 c2) ∨
  key1 = key2 ∧ m_operation m1 = m_operation m2 ∧ m_user m1 = m_user m2 ∧ m_resource m1 = m_resource m2 ∧ c1 = c2.
Proof.
  intros Hm1 Hm2 Hc E.
  destruct (decide ((key1, mac_input m1 c1) = (key2, mac_input m2 c2))) as [Ek|Hne]; [right|by left].
  apply pair_equal_spec in Ek as [-> Ei].
  assert (length c1 = AUTH_SIZE).
  { apply (f_equal length) in Ei. unfold mac_input in Ei. rewrite !length_app, !length_to_be_bytes in Ei.
    destruct Hm1 as [_ _ _ Hs1 _], Hm2 as [_ _ _ Hs2 _]. rewrite Hs1, Hs2 in Ei. lia. }
  split; [done|]. destruct (mac_input_inj m1 m2 c1 c2) as (? & ? & ? & _ & ?); done.
Qed.

Context (conf : Config) (peer_ip : IpAddr).
Hypothesis Hconf : Config_ok conf.

(** The nonce that a session sent, and the response that it accepted, with the key that it used. *)
Record accepted (t : hist) (knock : Message) (key nonce : list byte) (response : Message) : Prop := {
  ac_history : ∃ salt nonce', nonce = vec_to_list nonce' ∧
    t = auth_session conf knock salt nonce' response ++ [e_fw FwcConnect (Ok ())];
  ac_key : conf_key conf (m_user knock) = Some key;
  ac_response : response_auth knock key nonce response;
}.

Lemma session_accepted p t req k :
  steps (Protocol_run conf peer_ip p) t (Vis (inr (FwcSend req) : cmd proto_iface) k) →
  ∃ knock resource pt key nonce response, accepted t knock key nonce response ∧
    permitted conf knock resource ∧ resource_port_type resource = Ok pt ∧ req = fw_request peer_ip knock resource pt.
Proof using Hconf.
  intros Hs. pose proof (wpm_run conf peer_ip p Hconf) as Hw. apply wp_steps in Hw as [Hw _].
  destruct (Hw _ _ _ Hs) as (knock & resource & pt & key & salt & nonce & response & Ht & [_ Hk _] & Hp & Hr & Hpt & E).
  exists knock, resource, pt, key, (vec_to_list nonce), response. split_and!; [|done..].
  split; [by exists salt, nonce|done|done].
Qed.

Lemma accepted_nonce t knock key nonce response : accepted t knock key nonce response → length nonce = AUTH_SIZE.
Proof. intros [(salt & nonce' & -> & _) _ _]. apply length_vec_to_list. Qed.

End agreement.

(** ** Properties *)

(** C7 (safety). What a response proves. Take any session of the control daemon that is about to
    send a request to the firewall daemon, and any run of the client, with the network between them
    under the control of an attacker. If the client sent a message with the MAC of the response that
    the session accepted, then, unless the MAC input of the response and that of the message (for the challenge that the client
    used) are a collision of the hash function, the client uses the key of the user; the message is its response to a challenge, the only message
    it had received, with the nonce of this very session; and the client has asked for the user and
    the resource of the session. If both configurations agree on that resource, the request is for
    the port of the command. *)
Theorem client_server_agreement `{HC : Crypto} `{HO : HashOrder} conf peer_ip p t req k cconf server port user op mode seq u pc :
  Config_ok conf → steps (Protocol_run conf peer_ip p) t (Vis (inr (FwcSend req) : cmd proto_iface) k) →
  Config_ok cconf → is_initial op = true → make_seq cconf server port user = Ok seq → steps (sequence op seq mode) u pc →
  ∃ knock key nonce response, accepted conf t knock key nonce response ∧
    ∀ m, m ∈ sends u → Message_wf m → Message_wf response → m_auth m = m_auth response →
      (∃ c, c ∈ ZERO_AUTH :: (m_auth <$> recvs u) ∧
         collides (s_key seq) (mac_input m c) key (mac_input response nonce)) ∨
      s_key seq = key ∧ s_user seq = m_user knock ∧ s_resource seq = m_resource knock ∧
      (∃ u1 x u2 i ch, u = u1 ++ ev (CSend (s_control_timeout seq) m : cmd cli_iface) x :: u2 ∧
         sends u1 = [i] ∧ recvs u1 = [ch] ∧ m_operation i = op ∧ m_operation ch = Challenge ∧ m_auth ch = nonce) ∧
      (conf_resource conf (s_resource seq) = conf_resource cconf (s_resource seq) → f_port req = port).
Proof.
  intros Hc Hs Hcc Hop Hseq Hu.
  destruct (session_accepted _ _ Hc _ _ _ _ Hs) as (knock & resource & pt & key & nonce & response & Ha & Hp & _ & ->).
  exists knock, key, nonce, response. split; [done|]. intros m Hm Hwm Hwr Hmac.
  destruct (proj1 (sends_elem _ _) Hm) as (d & x & (u1 & u2 & ->)%list_elem_of_split). destruct (steps_split _ _ _ _ _ Hu) as [ku Hu1].
  destruct (client_allowed _ _ _ _ _ mode _ Hcc Hop Hseq) as [Hallowed _]. specialize (Hallowed _ _ _ Hu1).
  pose proof (accepted_nonce _ _ _ _ _ _ Ha) as Hn. destruct (ac_response _ _ _ _ _ _ Ha) as [Ho Hru Hrr Hrm].
  simpl in Hallowed. destruct Hallowed as [-> [(_ & _ & [Hio _ _ Him])|(i & ch & Hsend & Hrecv & [Hio _ _ _] & [Hch Hmo Hmu Hmr Hrespm])]].
  - left. exists ZERO_AUTH. split; [by left|].
    destruct (same_mac (s_key seq) key m response ZERO_AUTH nonce Hwm Hwr Hn) as [?|(_ & Heq & _)]; [congruence|done|].
    rewrite Hio, Ho in Heq. by destruct op.
  - destruct (same_mac (s_key seq) key m response (m_auth ch) nonce Hwm Hwr Hn) as [?|(Hkey & _ & Hus & Hre & Hno)];
      [congruence|left; exists (m_auth ch); split; [|done]|right].
    { right. rewrite recvs_app, fmap_app, Hrecv. by left. }
    split_and!; [done|congruence|congruence|by exists u1, x, u2, i, ch|].
    intros Hsame. apply make_seq_ok in Hseq as (_ & _ & _ & _ & Hres).
    apply (resource_id_by_port_spec _ _ _ _ Hcc) in Hres as (r & Hr & Hport & _).
    destruct Hp as [Hpr _ _]. assert (r = resource) as -> by congruence.
    unfold fw_request, new_close, new_open. rewrite <- Hport. by case_bool_decide; destruct (addr_to_octets _).
Qed.

(** C8 (safety). The protection against replays: a response is good for one nonce. If two sessions
    of the control daemon, from any addresses, are both about to send a request to the firewall
    daemon and the responses they accepted have the same MAC, the two sessions have drawn the same
    nonce and are for the same user and resource, or the two MAC inputs are a collision of the hash
    function. *)
Theorem response_accepted_once `{HC : Crypto} conf peer1 peer2 p1 p2 t1 t2 req1 req2 k1 k2 :
  Config_ok conf →
  steps (Protocol_run conf peer1 p1) t1 (Vis (inr (FwcSend req1) : cmd proto_iface) k1) →
  steps (Protocol_run conf peer2 p2) t2 (Vis (inr (FwcSend req2) : cmd proto_iface) k2) →
  ∃ knock1 key1 nonce1 response1 knock2 key2 nonce2 response2,
    accepted conf t1 knock1 key1 nonce1 response1 ∧ accepted conf t2 knock2 key2 nonce2 response2 ∧
    (Message_wf response1 → Message_wf response2 → m_auth response1 = m_auth response2 →
     collides key1 (mac_input response1 nonce1) key2 (mac_input response2 nonce2) ∨
     nonce1 = nonce2 ∧ m_user knock1 = m_user knock2 ∧ m_resource knock1 = m_resource knock2 ∧ f_port req1 = f_port req2).
Proof.
  intros Hc Hs1 Hs2.
  destruct (session_accepted _ _ Hc _ _ _ _ Hs1) as (knock1 & r1 & pt1 & key1 & nonce1 & resp1 & Ha1 & [Hr1 _ _] & _ & ->).
  destruct (session_accepted _ _ Hc _ _ _ _ Hs2) as (knock2 & r2 & pt2 & key2 & nonce2 & resp2 & Ha2 & [Hr2 _ _] & _ & ->).
  exists knock1, key1, nonce1, resp1, knock2, key2, nonce2, resp2. split_and!; [done..|]. intros Hw1 Hw2 Hmac.
  pose proof (ac_response _ _ _ _ _ _ Ha1) as [_ Hu1 Hre1 Hm1]. pose proof (ac_response _ _ _ _ _ _ Ha2) as [_ Hu2 Hre2 Hm2].
  destruct (same_mac key1 key2 resp1 resp2 nonce1 nonce2 Hw1 Hw2 (accepted_nonce _ _ _ _ _ _ Ha2))
    as [?|(_ & _ & Hu & Hr & Hn)]; [congruence|by left|right].
  assert (m_resource knock1 = m_resource knock2) as E by congruence.
  split_and!; [done|congruence|done|]. assert (r1 = r2) as -> by congruence.
  unfold fw_request, new_close, new_open.
  by destruct (bool_decide (m_operation knock1 = Close)), (bool_decide (m_operation knock2 = Close)),
    (addr_to_octets peer1), (addr_to_octets peer2).
Qed.

(** ** A concrete session and client *)

#[local] Existing Instance toy_crypto.
#[local] Existing Instance sorted_order.

(** The server of a client: a challenge with the nonce of the session, then a come-in message. *)
Definition honest_handle (c : cli_cmd) (s : list Message) : cli_resp c * list Message :=
  match c with
  | CLookup _ _ => (Some [RD_AAAA (fixed_random 16)], s)
  | CTcpConnect _ _ | CTcpNodelay | CUdpBind _ | CUdpConnect _ _ | CUdpPeerAddr => (Ok (), s)
  | CSend _ _ => (Some (Ok ()), s)
  | CRecv _ => (Some (Ok (head s)), tail s)
  | CRandom n => (Some (fixed_random n), s)
  | CWarn _ => ((), s)
  end.

Definition honest_run :=
  run (I := cli_iface) honest_handle (sequence Knock sample_seq Ipv6)
    [challenge_msg sample_knock sample_salt sample_nonce; comein_msg sample_knock sample_salt].

Lemma run_trace {I : iface} {S R} (handle : ∀ c : cmd I, S → resp I c * S) (p : prog I R) s :
  steps p (run handle p s).2 (Ret (run handle p s).1.1).
Proof. destruct (run handle p s) as [[r s'] t] eqn:E. by eapply run_steps. Qed.

Lemma honest_run_steps : ∃ pc, steps (sequence Knock sample_seq Ipv6) honest_run.2 pc.
Proof. eexists. apply run_trace. Qed.

(** The MAC of the response is that of no other challenge of the run. *)
Lemma honest_run_mac c :
  c ∈ ZERO_AUTH :: (m_auth <$> recvs honest_run.2) →
  hmac_sha3_256 (s_key sample_seq) (mac_input sample_response c) =
    hmac_sha3_256 sample_key (mac_input sample_response (vec_to_list sample_nonce)) →
  c = vec_to_list sample_nonce ∧ s_key sample_seq = sample_key.
Proof.
  intros Hc Hmac. split; [|by vm_compute].
  set (P c := implb (bool_decide (hmac_sha3_256 (s_key sample_seq) (mac_input sample_response c) =
    hmac_sha3_256 sample_key (mac_input sample_response (vec_to_list sample_nonce))))
    (bool_decide (c = vec_to_list sample_nonce))).
  assert (Hall : forallb P (ZERO_AUTH :: (m_auth <$> recvs honest_run.2)) = true) by (vm_compute; reflexivity).
  rewrite forallb_forall in Hall. apply list_elem_of_In, Hall in Hc. unfold P in Hc.
  rewrite bool_decide_eq_true_2 in Hc by done. by apply bool_decide_eq_true in Hc.
Qed.

Lemma sample_session_request peer_ip :
  ∃ k, steps (Protocol_run sample_conf peer_ip Protocol_new)
    (auth_session sample_conf sample_knock sample_salt sample_nonce sample_response ++ [e_fw FwcConnect (Ok ())])
    (Vis (inr (FwcSend (new_open peer_ip PtTcp 22)) : cmd proto_iface) k).
Proof.
  destruct (run_reaches sample_conf peer_ip Protocol_new _ _ _ _ _ _ _ sample_good_session) as (k & Hk & _).
  by exists k.
Qed.

(** The messages of the session, in both directions. *)
Definition session_msg (e : pevent) : option Message :=
  match e with
  | existT (inl (NRecv _)) (Some (Ok (Some m))) => Some m
  | existT (inl (NSend _ m)) _ => Some m
  | _ => None
  end.

Lemma sample_accepted knock key nonce response :
  accepted sample_conf
    (auth_session sample_conf sample_knock sample_salt sample_nonce sample_response ++ [e_fw FwcConnect (Ok ())])
    knock key nonce response →
  knock = sample_knock ∧ key = sample_key ∧ nonce = vec_to_list sample_nonce ∧ response = sample_response.
Proof.
  intros [(salt & nonce' & -> & E) Hkey _]. apply (f_equal (omap session_msg)) in E.
  assert (E' : [sample_knock; challenge_msg sample_knock sample_salt sample_nonce; sample_response] =
    [knock; challenge_msg knock salt nonce'; response]) by exact E.
  clear E. pose proof (f_equal (λ l, m_auth <$> nth_error l 1) E') as En.
  pose proof (f_equal head E') as Ek. pose proof (f_equal last E') as Er. injection Ek as <-. injection Er as <-.
  split; [done|]. split; [|split; [by injection En|done]].
  assert (Hk : conf_key sample_conf (m_user sample_knock) = Some sample_key) by (vm_compute; reflexivity). congruence.
Qed.

Lemma sample_response_wf : Message_wf sample_response.
Proof. split; vm_compute; try split; (reflexivity || discriminate). Qed.

Lemma honest_run_no_collision c :
  c ∈ ZERO_AUTH :: (m_auth <$> recvs honest_run.2) →
  ~ collides (s_key sample_seq) (mac_input sample_response c)
      sample_key (mac_input sample_response (vec_to_list sample_nonce)).
Proof. intros Hc [Hne Hmac]. destruct (honest_run_mac c Hc Hmac) as [Ec Ek]. apply Hne. by rewrite Ec, Ek. Qed.

Lemma honest_run_response : sample_response ∈ sends honest_run.2.
Proof. apply (bool_decide_unpack _). vm_compute. exact I. Qed.

Lemma client_server_agreement_witness :
  ∃ i ch u1, sends u1 = [i] ∧ recvs u1 = [ch] ∧ m_operation ch = Challenge ∧ m_auth ch = vec_to_list sample_nonce.
Proof.
  destruct honest_run_steps as [pc Hpc]. destruct (sample_session_request sample_v4) as [k Hk].
  destruct (client_server_agreement sample_conf sample_v4 Protocol_new _ _ k sample_conf sample_server 22 (Some (MkUserId 0))
    Knock Ipv6 sample_seq _ pc sample_conf_ok Hk sample_conf_ok eq_refl sample_make_seq Hpc)
    as (knock & key & nonce & response & Ha & Hag).
  destruct (sample_accepted _ _ _ _ Ha) as (-> & -> & -> & ->).
  destruct (Hag sample_response honest_run_response sample_response_wf sample_response_wf eq_refl)
    as [(c & Hc & Hx)|(_ & _ & _ & (u1 & x & u2 & i & ch & _ & Hs & Hr & _ & Ho & Hn) & _)].
  - destruct (honest_run_no_collision c Hc Hx).
  - exists i, ch, u1. exact (conj Hs (conj Hr (conj Ho Hn))).
Defined.

(** The same nonce drawn twice: a second peer can replay the response. *)
Lemma response_accepted_once_witness :
  ∃ nonce1 nonce2 : list byte, nonce1 = vec_to_list sample_nonce ∧ nonce1 = nonce2 ∧
    f_port (new_open sample_v4 PtTcp 22) = f_port (new_open (V4 [# x0a; x00; x00; x01]) PtTcp 22).
Proof.
  destruct (sample_session_request sample_v4) as [k1 Hk1].
  destruct (sample_session_request (V4 [# x0a; x00; x00; x01])) as [k2 Hk2].
  destruct (response_accepted_once sample_conf _ _ Protocol_new Protocol_new _ _ _ _ _ _ sample_conf_ok Hk1 Hk2)
    as (knock1 & key1 & nonce1 & response1 & knock2 & key2 & nonce2 & response2 & Ha1 & Ha2 & Hag).
  destruct (sample_accepted _ _ _ _ Ha1) as (-> & -> & -> & ->).
  destruct (sample_accepted _ _ _ _ Ha2) as (-> & -> & -> & ->).
  destruct (Hag sample_response_wf sample_response_wf eq_refl) as [[Hne _]|(Hn & _ & _ & Hp)].
  - destruct (Hne eq_refl).
  - exists (vec_to_list sample_nonce), (vec_to_list sample_nonce). exact (conj eq_refl (conj Hn Hp)).
Defined.
