(* ===== verification/SystemSafe.v ===== *)
(** * The daemons in operation

    The control daemon with any number of sessions side by side, the requests under way between the
    daemons, the firewall daemon with its maintenance, its end and its restarts, and the kernel. The
    peers, the network, the random source and [nft] do whatever they like, at any time. Two
    theorems about every reachable state: a rule in the chain goes back to a complete authentication
    of its own address, and, while the calls of the firewall succeed, it is not older than the
    timeout and the age of the last maintenance together. The peers and [nft] are less restricted here
    than in System.v, which follows one honest client to its end. *)

From S2P Require Import Prelude Prog Str Proto FwProto Addr Conf Nftables NftSpec Batches NftOps FwRefine FwServer FwClient Protocol.
From S2P Require Import ProtoSafe Client ClientSafe EndToEnd.
Local Open Scope Z_scope.

(** The period of the maintenance, in nanoseconds (letmeinfwd/src/main.rs). *)
Definition FW_MAINTAIN_PERIOD : Z := 5000 * 1000000.

(** ** Programs that add only some rules

    Every rule that a batch adds to the chain satisfies [A]. *)

Section adds.
Context (names : NftNames) (A : Rule → Prop).

Definition add_ok (c : NfCmd) : Prop :=
  match c with AddRule r => in_chain names r = true → A r | DeleteRule _ | FlushChain _ _ _ => True end.

Lemma nft_step_adds c rs rs' r :
  add_ok c → nft_step c rs rs' → r ∈ chain_rules names rs' → r ∈ chain_rules names rs ∨ A r.
Proof.
  intros Hc Hs. destruct Hs as [r' h rs|r' h r2 rs1 rs2 _ _|f t c rs].
  - rewrite chain_rules_cons. destruct (in_chain names r') eqn:E; [|by left].
    intros [->|?]%elem_of_cons; [right; by apply Hc|by left].
  - rewrite !chain_rules_app, chain_rules_cons, !elem_of_app. destruct (in_chain names r2); [rewrite elem_of_cons|]; tauto.
  - intros (h & [_ Hin]%list_elem_of_filter & Hr)%elem_of_chain_rules. left. apply elem_of_chain_rules. by exists h.
Qed.

Lemma exec_adds `{K : NftKernel} {R} (Q : R → Prop) t (p : prog fw_iface R) k r k' :
  wp (batches_ok add_ok) (λ _, Q) t p → exec kstep k p r k' →
  Q r ∧ ∀ x, x ∈ chain_at names k' → x ∈ chain_at names k ∨ A x.
Proof.
  apply (exec_batches add_ok (λ rs rs', ∀ x, x ∈ chain_rules names rs' → x ∈ chain_rules names rs ∨ A x)).
  - intros rs rs' Hp x Hx. left. by rewrite Hp.
  - intros rs1 rs2 rs3 H12 H23 x [Hx|?]%H23; [by apply H12|by right].
  - intros c rs rs' Hc Hs x. by apply nft_step_adds with (c := c).
Qed.

Lemma add_ok_commands conf G : (∀ r, allowed_rule conf names G r → A r) → commands_ok conf names G add_ok.
Proof. intros HA. split; [done|done|]. intros r _ Hr _. by apply HA. Qed.

End adds.

(** ** The system *)

Section world.
Context `{HC : Crypto} `{HO : HashOrder} `{K : NftKernel}.

(** The configuration that the control daemon has loaded, and that of the firewall daemon: they
    were started at different times. *)
Context (conf fconf : Config) (names : NftNames).
Hypothesis Hconf : Config_ok conf.
Hypothesis Hnames : NftNames_get fconf = Ok names.

(** A session of the control daemon: the peer, the interactions so far, and what is left to do. *)
Record session : Type := MkSession {
  se_peer : IpAddr;
  se_hist : hist;
  se_prog : prog proto_iface (res () * Protocol);
}.
Definition session_new (peer : IpAddr) : session := MkSession peer [] (Protocol_run conf peer Protocol_new).

(** The firewall daemon: running, with or without its maintenance task, or not running. *)
Inductive fwd_state : Type := Running (fw : NftFirewall) (maintaining : bool) | Ended.

(** A request to open or to close that was acknowledged, and when the daemon began and ended to
    serve it. *)
Record acked_request : Type := MkAcked { sv_open : bool; sv_id : LeaseId; sv_from : Instant; sv_to : Instant }.

(** The last one for an address and a port. *)
Definition last_request (log : list acked_request) (id : LeaseId) : option acked_request :=
  last (filter (λ r, sv_id r = id) log).

Record world : Type := MkWorld {
  w_sessions : list session;
  (** requests on the connections between the daemons, not served yet *)
  w_flight : list FirewallMessage;
  w_fwd : fwd_state;
  w_kernel : kstate;
  (** For the statements only: the requests that the firewall daemon has acknowledged since it
      started; when the last successful maintenance (or the daemon) started; and whether a
      maintenance or a request to close has failed since the daemon started. *)
  w_log : list acked_request;
  w_maintained : Instant;
  w_failed : bool;
}.

(** One interaction of a session, with any answer, and the request that it sends. *)
Definition sent_by (c : cmd proto_iface) : list FirewallMessage :=
  match c with inr (FwcSend m) => [m] | _ => [] end.

Inductive session_step : session → session → list FirewallMessage → Prop :=
| session_interact peer t c k x :
    session_step (MkSession peer t (Vis c k)) (MkSession peer (t ++ [ev c x]) (k x)) (sent_by c).

(** A connection of the firewall daemon that delivers the request [m], or fails; its state is the
    list of the replies. *)
Definition serves (m : FirewallMessage) (replies : list FirewallMessage) (c : conn_cmd)
    : conn_resp c → list FirewallMessage → Prop :=
  match c with
  | ConnRecv => λ x s', s' = replies ∧ ∀ m', x = Ok (Some m') → m' = m
  | ConnSend a => λ _ s', s' = replies ++ [a]
  end.

Abbreviation exec_serve m := (exec (st_sum (I := conn_iface) (J := fw_iface) (serves m) kstep)).

Definition acknowledged (replies : list FirewallMessage) : bool := bool_decide (replies = [new_ack]).

(** The bookkeeping of a served request. *)
Definition served_by (m : FirewallMessage) (replies : list FirewallMessage) (from to : Instant) : list acked_request :=
  match request fconf m with
  | Some (b, addr, port) => if acknowledged replies then [MkAcked b (addr, port) from to] else []
  | None => []
  end.
Definition close_failed (m : FirewallMessage) (replies : list FirewallMessage) : bool :=
  match request fconf m with Some (false, _, _) => negb (acknowledged replies) | _ => false end.

(** A panic ends the process; an error of the maintenance ends its task. *)
Definition after_request {A} (r : res A) (fw : NftFirewall) (maintaining : bool) : fwd_state :=
  if is_panic r then Ended else Running fw maintaining.
Definition after_maintain {A} (r : res A) (fw : NftFirewall) : fwd_state := after_request r fw (is_ok r).

Inductive world_step : world → world → Prop :=
| world_accept ss q f k o m e peer :
    world_step (MkWorld ss q f k o m e) (MkWorld (ss ++ [session_new peer]) q f k o m e)
| world_session ss1 ss2 se se' sent q f k o m e :
    session_step se se' sent →
    world_step (MkWorld (ss1 ++ se :: ss2) q f k o m e) (MkWorld (ss1 ++ se' :: ss2) (q ++ sent) f k o m e)
| world_serve ss q1 msg q2 fw b k o m e r fw' replies k' :
    exec_serve msg ([], k) (handle_message fconf fw) (r, fw') (replies, k') →
    world_step (MkWorld ss (q1 ++ msg :: q2) (Running fw b) k o m e)
      (MkWorld ss (q1 ++ q2) (after_request r fw' b) k' (o ++ served_by msg replies (kclock k) (kclock k')) m
         (e || close_failed msg replies))
| world_maintain ss q fw k o m e r fw' k' :
    exec kstep k (maintain fconf fw) (r, fw') k' →
    world_step (MkWorld ss q (Running fw true) k o m e)
      (MkWorld ss q (after_maintain r fw') k' o (if is_ok r then kclock k else m) (e || negb (is_ok r)))
| world_exit ss q fw b k o m e r fw' k' :
    exec kstep k (shutdown fconf fw) (r, fw') k' →
    world_step (MkWorld ss q (Running fw b) k o m e) (MkWorld ss q Ended k' o m e)
| world_restart ss q k o m e r k' :
    exec kstep k (NftFirewall_new fconf) r k' →
    world_step (MkWorld ss q Ended k o m e)
      (MkWorld ss q (match r with Ok fw => Running fw true | _ => Ended end) k' [] (kclock k) false)
| world_time ss q f k o m e k' :
    env_step names k k' → world_step (MkWorld ss q f k o m e) (MkWorld ss q f k' o m e).

(** The firewall daemon has been started; there are no sessions yet. *)
Inductive world_init : world → Prop :=
| init_started k fw k' :
    exec kstep k (NftFirewall_new fconf) (Ok fw) k' → world_init (MkWorld [] [] (Running fw true) k' [] (kclock k) false).

Inductive reachable : world → Prop :=
| reach_init w : world_init w → reachable w
| reach_step w w' : reachable w → world_step w w' → reachable w'.

(** A session of [ss] with a complete authentication for an operation, an address and a port. *)
Definition authentic (ss : list session) (is_open : bool) (addr : IpAddr) (port : LeasePort) : Prop :=
  ∃ se knock resource pt, se ∈ ss ∧ se_peer se = addr ∧ full_session conf (se_hist se) knock resource ∧
    is_open = negb (bool_decide (m_operation knock = Close)) ∧
    resource_port_type resource = Ok pt ∧ port = lease_port_of pt (r_port resource).

Definition request_authentic (ss : list session) (m : FirewallMessage) : Prop :=
  ∃ se knock resource pt, se ∈ ss ∧ full_session conf (se_hist se) knock resource ∧
    resource_port_type resource = Ok pt ∧ m = fw_request (se_peer se) knock resource pt.

(** ** The invariant: sessions run the protocol, requests and leases are authentic *)

Definition session_ok (se : session) : Prop :=
  steps (Protocol_run conf (se_peer se) Protocol_new) (se_hist se) (se_prog se).

Definition fwd_ok (ss : list session) (f : fwd_state) : Prop :=
  match f with
  | Running fw _ => leases_granted (λ id, authentic ss true id.1 id.2) fw
  | Ended => True
  end.

Definition rules_ok (ss : list session) (k : kstate) : Prop :=
  ∀ r, r ∈ chain_at names k → allowed_rule fconf names (λ id, authentic ss true id.1 id.2) r.

(** The requests in the log are authentic. *)
Definition log_ok (ss : list session) (log : list acked_request) : Prop :=
  Forall (λ r, authentic ss (sv_open r) (sv_id r).1 (sv_id r).2) log.

Record world_ok (w : world) : Prop := {
  wo_sessions : Forall session_ok (w_sessions w);
  wo_flight : Forall (request_authentic (w_sessions w)) (w_flight w);
  wo_fwd : fwd_ok (w_sessions w) (w_fwd w);
  wo_rules : rules_ok (w_sessions w) (w_kernel w);
  wo_log : log_ok (w_sessions w) (w_log w);
}.

(** Sessions only advance. *)
Definition advances (ss ss' : list session) : Prop :=
  ∀ se, se ∈ ss → ∃ se' t, se' ∈ ss' ∧ se_peer se' = se_peer se ∧ se_hist se' = se_hist se ++ t.

Lemma authentic_advances ss ss' b addr port : advances ss ss' → authentic ss b addr port → authentic ss' b addr port.
Proof.
  intros Ha (se & knock & resource & pt & Hin & <- & Hf & Hrest). destruct (Ha _ Hin) as (se' & t & Hin' & Hp & Ht).
  exists se', knock, resource, pt. split_and!; [done|done|rewrite Ht; by apply full_session_app|apply Hrest..].
Qed.

Lemma request_advances ss ss' m : advances ss ss' → request_authentic ss m → request_authentic ss' m.
Proof.
  intros Ha (se & knock & resource & pt & Hin & Hf & Hrest). destruct (Ha _ Hin) as (se' & t & Hin' & Hp & Ht).
  exists se', knock, resource, pt. rewrite Hp, Ht. split_and!; [done|by apply full_session_app|apply Hrest..].
Qed.

Lemma allowed_rule_mono (G G' : LeaseId → Prop) r :
  (∀ id, G id → G' id) → allowed_rule fconf names G r → allowed_rule fconf names G' r.
Proof. intros HG [?|(addr & port & p & ? & ?)]; [by left|right]. exists addr, port, p. split; [by apply HG|done]. Qed.

Lemma world_ok_advances ss ss' q f k o m e m' e' :
  advances ss ss' → Forall session_ok ss' → world_ok (MkWorld ss q f k o m e) → world_ok (MkWorld ss' q f k o m' e').
Proof.
  intros Ha Hss [_ Hq Hf Hr Ho]. simpl in *. split; simpl; [done|..].
  - eapply Forall_impl; [exact Hq|]. intros x. by apply request_advances.
  - destruct f as [fw b|]; [|done]. eapply map_Forall_impl; [exact Hf|]. intros id l [? ?]. split; [done|].
    by eapply authentic_advances.
  - intros r Hin%Hr. eapply allowed_rule_mono; [|exact Hin]. intros id. by apply authentic_advances.
  - eapply Forall_impl; [exact Ho|]. intros x. by apply authentic_advances.
Qed.

(** What a request stands for. *)
Lemma request_of_authentic ss m b addr port :
  request_authentic ss m → request fconf m = Some (b, addr, port) → authentic ss b addr port.
Proof.
  intros (se & knock & resource & pt & Hin & Hf & Hpt & ->) Hreq.
  exists se, knock, resource, pt. pose proof (octets_to_addr_to_octets (se_peer se)) as Hoct.
  revert Hreq. unfold request, fw_request. cbv zeta.
  destruct (bool_decide (m_operation knock = Close)); unfold new_close, new_open;
    destruct (addr_to_octets (se_peer se)) as [ty o]; cbn [f_addr_type f_addr f_port f_port_type f_operation] in *;
    rewrite Hoct; (destruct (_ && _); [|done]); intros [= <- <- <-]; by split_and!.
Qed.

Lemma session_step_ok se se' sent :
  session_ok se → session_step se se' sent →
  session_ok se' ∧ se_peer se' = se_peer se ∧ (∃ t, se_hist se' = se_hist se ++ t) ∧
  ∀ ss, se' ∈ ss → Forall (request_authentic ss) sent.
Proof using Hconf.
  intros Hs Hst. destruct Hst as [peer t c k x]. unfold session_ok in *. cbn [se_peer se_hist se_prog] in *. split_and!; [|done|by eexists|].
  - eapply steps_trans; [exact Hs|]. by constructor; constructor.
  - intros ss Hin. destruct c as [c|[|m|]]; simpl; try constructor; [|constructor].
    pose proof (wpm_run conf peer Protocol_new Hconf) as Hw. apply wp_steps in Hw as [Hw _].
    destruct (Hw _ _ _ Hs) as (knock & resource & pt & key & salt & nonce & response & Ht & Hb & Hp & Hr & Hpt & ->).
    eexists _, knock, resource, pt. split_and!; [exact Hin| |done|done]. cbn [se_hist].
    exists key, salt, nonce, response. rewrite app_nil_l in Ht. rewrite Ht, <- app_assoc. by eexists.
Qed.

Lemma elem_of_serve ss q1 msg q2 :
  Forall (request_authentic ss) (q1 ++ msg :: q2) → request_authentic ss msg ∧ Forall (request_authentic ss) (q1 ++ q2).
Proof. rewrite !Forall_app, Forall_cons. tauto. Qed.

Lemma served_authentic ss m replies from to : request_authentic ss m → log_ok ss (served_by m replies from to).
Proof.
  intros Hm. unfold served_by. destruct (request fconf m) as [[[b addr] port]|] eqn:E; [|constructor].
  destruct (acknowledged replies); [|constructor]. apply Forall_singleton. by eapply request_of_authentic.
Qed.

(** The firewall calls keep leases and rules authentic. *)
Lemma call_ok {A} ss (m : fw_method A) fw k r fw' k' :
  (∀ t, wpm (batches_ok (add_ok names (allowed_rule fconf names (λ id, authentic ss true id.1 id.2))))
     (λ _ _ fw', leases_granted (λ id, authentic ss true id.1 id.2) fw') t m fw) →
  rules_ok ss k → exec kstep k (m fw) (r, fw') k' →
  leases_granted (λ id, authentic ss true id.1 id.2) fw' ∧ rules_ok ss k'.
Proof.
  intros Hw Hr He. apply (exec_adds _ _ _ [] _ _ _ _ (Hw [])) in He as [Hl Hx]. split; [done|].
  intros x [?|?]%Hx; [by apply Hr|done].
Qed.

Lemma fwd_ok_after {A} ss (r : res A) fw b : leases_granted (λ id, authentic ss true id.1 id.2) fw → fwd_ok ss (after_request r fw b).
Proof. intros Hl. unfold after_request. by destruct (is_panic r). Qed.

Lemma world_serve_ok ss msg fw k r fw' replies k' :
  request_authentic ss msg → leases_granted (λ id, authentic ss true id.1 id.2) fw → rules_ok ss k →
  exec_serve msg ([], k) (handle_message fconf fw) (r, fw') (replies, k') →
  leases_granted (λ id, authentic ss true id.1 id.2) fw' ∧ rules_ok ss k'.
Proof using Hnames.
  intros Hm Hl Hr He. apply exec_handle_message in He as (x & s1 & [-> Hx] & He).
  destruct x as [[m|]|e|w]; simpl in He; [|by destruct He as (-> & -> & _)..].
  rewrite (Hx _ eq_refl) in He. destruct (request fconf msg) as [[[b addr] port]|] eqn:Ereq;
    [|by destruct He as (-> & -> & _)].
  destruct He as (r1 & He & _). pose proof (request_of_authentic _ _ _ _ _ Hm Ereq) as Ha.
  destruct b; (eapply call_ok; [|exact Hr|exact He]); intros t.
  - eapply wpg_open_port; [done|by apply add_ok_commands|done..].
  - eapply wpg_close_port; [done|by apply add_ok_commands|done..].
Qed.

Lemma world_init_ok w : world_init w → world_ok w.
Proof using Hnames.
  intros [k fw k' He]. apply (exec_new fconf names Hnames LpTcp) in He as (_ & Hi & Hl). split; simpl; [done|done| | |constructor].
  - unfold leases_granted. rewrite Hl. by intros ???; simplify_map_eq.
  - intros r Hin. left. rewrite (fw_inv_chain _ _ _ _ _ Hi), Hl in Hin.
    unfold all_targets in Hin. by rewrite map_to_list_empty, app_nil_r in Hin.
Qed.

Lemma world_step_ok w w' : world_ok w → world_step w w' → world_ok w'.
Proof using Hconf Hnames.
  intros Hok Hs. destruct Hs as [ss q f k o m e peer|ss1 ss2 se se' sent q f k o m e Hse
    |ss q1 msg q2 fw b k o m e r fw' replies k' He|ss q fw k o m e r fw' k' He|ss q fw b k o m e r fw' k' He
    |ss q k o m e r k' He|ss q f k o m e k' [Hch _]].
  - eapply world_ok_advances, Hok.
    + intros se Hin. exists se, []. rewrite app_nil_r. split_and!; [set_solver|done..].
    + apply Forall_app. split; [apply Hok|]. apply Forall_singleton. constructor.
  - pose proof (wo_sessions _ Hok) as Hss. simpl in Hss. apply Forall_app in Hss as [H1 [Hse1 H2]%Forall_cons].
    destruct (session_step_ok _ _ _ Hse1 Hse) as (Hse' & Hp & [t Ht] & Hsent).
    assert (Ha : advances (ss1 ++ se :: ss2) (ss1 ++ se' :: ss2)).
    { intros x [?|[->|?]%elem_of_cons]%elem_of_app; [exists x, []|exists se', t|exists x, []];
        rewrite ?app_nil_r; (split_and!; [set_solver|done..]). }
    assert (Hok' : world_ok (MkWorld (ss1 ++ se' :: ss2) q f k o m e)).
    { eapply world_ok_advances; [exact Ha| |exact Hok]. apply Forall_app. by split; [|constructor]. }
    destruct Hok' as [Ha1 Ha2 Ha3 Ha4 Ha5]. split; [done| |done..]. apply Forall_app. split; [done|].
    apply Hsent. set_solver.
  - destruct Hok as [Hss Hq Hf Hr Ho]. simpl in *. apply elem_of_serve in Hq as [Hm Hq].
    destruct (world_serve_ok _ _ _ _ _ _ _ _ Hm Hf Hr He) as [Hl Hr'].
    split; simpl; [done|done|by apply fwd_ok_after|done|].
    apply Forall_app. split; [done|by apply served_authentic].
  - destruct Hok as [Hss Hq Hf Hr Ho]. simpl in *. eapply call_ok in He as [Hl Hr'];
      [|intros t; eapply wpg_maintain; [done|by apply add_ok_commands|done]|done]. split; simpl; [done|done|by apply fwd_ok_after|done..].
  - destruct Hok as [Hss Hq Hf Hr Ho]. simpl in *. eapply call_ok in He as [Hl Hr'];
      [|intros t; eapply wpg_shutdown; [done|by apply add_ok_commands|done]|done]. by split.
  - destruct Hok as [Hss Hq Hf Hr Ho]. simpl in *. pose proof He as He'.
    apply (exec_new fconf names Hnames LpTcp) in He as (_ & Hn). destruct r as [fw|err|w]; [|..|done].
    + destruct (world_init_ok _ (init_started _ _ _ He')) as [_ _ Hf' Hr' _]. split; simpl in *; [done|done| | |constructor].
      * eapply map_Forall_impl; [exact Hf'|]. intros id l [_ (se & ? & ? & ? & ?%elem_of_nil & _)]. done.
      * intros r [?|(addr & port & p & (se & ? & ? & ? & ?%elem_of_nil & _) & _)]%Hr'; [by left|done].
    + split; simpl; [done|done|done| |constructor]. intros r. rewrite Hn. apply Hr.
  - destruct Hok as [Hss Hq Hf Hr Ho]. simpl in *. split; simpl; [done|done|done| |done]. intros r. rewrite Hch. apply Hr.
Qed.

Lemma reachable_ok w : reachable w → world_ok w.
Proof using Hconf Hnames. induction 1 as [w Hi|w w' _ IH Hs]; [by apply world_init_ok|by eapply world_step_ok]. Qed.

(** Time does not run backwards. *)
Lemma serve_clock msg {R} (p : prog (isum conn_iface fw_iface) R) s k r s' k' :
  exec_serve msg (s, k) p r (s', k') → kclock k <= kclock k'.
Proof.
  clear. revert s k. induction p as [x|c f IH]; intros s k; [by intros [_ [= -> ->]]%exec_ret_inv|].
  intros (x & [s1 k1] & Hs & He%IH)%exec_vis_inv. etrans; [|exact He].
  destruct c as [c|c]; destruct Hs as [Hs E]; simpl in *; [by subst|by eapply kstep_clock].
Qed.

Lemma world_step_clock w w' :
  world_step w w' → w_maintained w <= kclock (w_kernel w) → w_maintained w' <= kclock (w_kernel w').
Proof.
  intros Hs. destruct Hs as [ | |ss q1 msg q2 fw b k o m e r fw' replies k' He%serve_clock
    |ss q fw k o m e r fw' k' He%exec_clock|ss q fw b k o m e r fw' k' He%exec_clock|ss q k o m e r k' He%exec_clock
    |ss q f k o m e k' [_ Hck]]; simpl; try lia. destruct (is_ok r); lia.
Qed.

End world.

(** ** The log and the leases *)

Section log.
Context (conf : Config).

Lemma last_request_snoc log r id :
  last_request (log ++ [r]) id = if decide (sv_id r = id) then Some r else last_request log id.
Proof.
  unfold last_request. rewrite filter_app, filter_cons, filter_nil.
  destruct (decide (sv_id r = id)); [apply last_snoc|by rewrite app_nil_r].
Qed.

Lemma last_request_elem log id r : last_request log id = Some r → r ∈ log ∧ sv_id r = id.
Proof. by intros [? ?]%last_Some_elem_of%list_elem_of_filter. Qed.

(** A lease that has not timed out by the start of the last maintenance, with the timeout that the
    request gave it. *)
Definition lease_of (maintained : Instant) (r : acked_request) (l : Lease) : Prop :=
  sv_open r = true ∧ maintained <= l_timeout l ∧
  sv_from r + c_nft_timeout conf <= l_timeout l <= sv_to r + c_nft_timeout conf.

(** The leases in memory are those of the ports whose last request was one to open, except for
    those that have timed out by now. *)
Definition leases_match (log : list acked_request) (maintained now : Instant) (leases : LeaseMap) : Prop :=
  ∀ id, match leases !! id with
        | Some l => ∃ r, last_request log id = Some r ∧ lease_of maintained r l
        | None => ∀ r, last_request log id = Some r → sv_open r = true → sv_from r + c_nft_timeout conf <= now
        end.

Lemma leases_match_later o m now now' ls : now <= now' → leases_match o m now ls → leases_match o m now' ls.
Proof. intros Hn Hl id. specialize (Hl id). destruct (ls !! id); [done|]. intros r Hr Hop. specialize (Hl r Hr Hop). lia. Qed.

(** A request is added to the log. *)
Lemma leases_match_open o m now ls id l from to :
  lease_of m (MkAcked true id from to) l → leases_match o m now ls →
  leases_match (o ++ [MkAcked true id from to]) m now (<[id := l]> ls).
Proof.
  intros Hl Ho id'. rewrite last_request_snoc. simpl. destruct (decide (id = id')) as [<-|Hne].
  - rewrite lookup_insert_eq. eauto.
  - rewrite lookup_insert_ne by done. apply Ho.
Qed.

Lemma leases_match_close o m now ls id from to :
  leases_match o m now ls → leases_match (o ++ [MkAcked false id from to]) m now (delete id ls).
Proof.
  intros Ho id'. rewrite last_request_snoc. simpl. destruct (decide (id = id')) as [<-|Hne].
  - rewrite lookup_delete_eq. by intros r [= <-].
  - rewrite lookup_delete_ne by done. apply Ho.
Qed.

(** Maintenance with the time [t] takes away leases that have timed out. *)
Lemma leases_match_maintain o m m' now t ls :
  m' <= t → t <= now → leases_match o m now ls →
  leases_match o m' now (filter (λ kl, is_timed_out kl.2 t = false) ls).
Proof.
  intros Hm Ht Ho id. specialize (Ho id).
  destruct (filter _ _ !! id) as [l|] eqn:E.
  - apply map_lookup_filter_Some in E as [E Hto]. rewrite E in Ho. destruct Ho as (r & Hr & Hop & _ & Hx).
    exists r. unfold is_timed_out in Hto. simpl in Hto. split; [done|]. split; [done|]. split; [lia|done].
  - intros r Hr Hop. apply map_lookup_filter_None in E as [E|E].
    + rewrite E in Ho. by apply Ho.
    + destruct (ls !! id) as [l|] eqn:El; [|by apply Ho]. specialize (E l eq_refl). unfold is_timed_out in E. simpl in E.
      destruct Ho as (r' & Hr' & _ & _ & Hx). assert (r' = r) as -> by congruence. lia.
Qed.

End log.

(** ** Freshness: one configuration, and no failing call *)

Section fresh.
Context `{HC : Crypto} `{HO : HashOrder} `{K : NftKernel} (conf : Config) (names : NftNames).
Hypothesis Hconf : Config_ok conf.
Hypothesis Hnames : NftNames_get conf = Ok names.
Hypothesis Hdebug : c_debug conf = false.
Hypothesis Htimeout : 0 <= c_nft_timeout conf.

(** The protocols of a port: those of the one resource that it is configured for. *)
Definition port_kind (n : u16) : LeasePort :=
  match resource_id_by_port conf n None ≫= conf_resource conf with
  | Some r => match resource_port_type r with Ok pt => lease_port_of pt n | _ => LpTcp n end
  | None => LpTcp n
  end.

Lemma lease_port_of_number pt n : lease_port_number (lease_port_of pt n) = n.
Proof. by destruct pt. Qed.

Lemma authentic_port_ok ss b addr port : authentic conf ss b addr port → port_ok conf port_kind port.
Proof using Hconf.
  intros (se & knock & resource & pt & _ & _ & (key & salt & nonce & response & rest & _ & _ & [Hr _ Hp] & _) & _ & Hpt & ->).
  split; rewrite lease_port_of_number; [|apply (ro_port _ (co_resources _ Hconf _ _ Hr))|done].
  unfold port_kind. rewrite (proj2 (resource_id_by_port_spec conf _ None _ Hconf)) by (by exists resource).
  simpl. by rewrite Hr, Hpt.
Qed.

Abbreviation w_inv := (fw_inv conf names port_kind).

Definition fresh (w : world) : Prop :=
  match w_fwd w with
  | Running fw _ => w_failed w = false →
      w_inv fw (w_kernel w) ∧ leases_match conf (w_log w) (w_maintained w) (kclock (w_kernel w)) (fw_leases fw)
  | Ended => True
  end.

Lemma fresh_new ss q k fw k' : exec kstep k (NftFirewall_new conf) (Ok fw) k' → fresh (MkWorld ss q (Running fw true) k' [] (kclock k) false).
Proof using Hnames.
  intros He _. apply (exec_new conf names Hnames port_kind) in He as (Hck & Hi & Hl). simpl. split; [done|].
  rewrite Hl. intros id. by rewrite lookup_empty.
Qed.

(** Serving a request: what the daemon holds afterwards, if no request to close has failed. *)
Lemma serve_fresh ss fw b m q msg k o e r fw' replies k' :
  request_authentic conf ss msg → m <= kclock k → w_inv fw k → leases_match conf o m (kclock k) (fw_leases fw) →
  exec (st_sum (I := conn_iface) (J := fw_iface) (serves msg) kstep) ([], k) (handle_message conf fw) (r, fw') (replies, k') →
  fresh (MkWorld ss q (after_request r fw' b) k' (o ++ served_by conf msg replies (kclock k) (kclock k')) m
    (e || close_failed conf msg replies)).
Proof using Hconf Hnames Hdebug Htimeout.
  intros Hm Hclk Hi Hl He. pose proof (serve_clock _ _ _ _ _ _ _ He) as Hck.
  apply (leases_match_later _ _ _ _ _ _ Hck) in Hl.
  unfold fresh, after_request. simpl. destruct (is_panic r) eqn:Epanic; [done|]. intros [_ Hfail]%orb_false_iff.
  assert (Hsame : w_inv fw k' → fw' = fw →
    w_inv fw' k' ∧ leases_match conf (o ++ []) m (kclock k') (fw_leases fw')).
  { intros Hi' ->. by rewrite app_nil_r. }
  apply exec_handle_message in He as (x & s1 & [-> Hx] & He). unfold served_by, close_failed in *.
  destruct x as [[m1|]|er|w]; simpl in He.
  2-4: destruct He as (-> & -> & -> & _); destruct (request conf msg) as [[[[] ?] ?]|]; by apply Hsame.
  rewrite (Hx _ eq_refl) in He.
  destruct (request conf msg) as [[[bo addr] port]|] eqn:Ereq; [|by destruct He as (-> & -> & _); apply Hsame].
  pose proof (authentic_port_ok _ _ _ _ (request_of_authentic _ _ _ _ _ _ _ Hm Ereq)) as Hport.
  destruct He as (r1 & He & Hrep). destruct bo.
  - change (exec kstep k (open_port conf addr port fw) (r1, fw') k') in He.
    apply (exec_open_port conf names Hnames port_kind) in He; [|done..].
    destruct r1 as [[]|er|w]; [|destruct He; simpl in Hrep; subst replies; by apply Hsame|by destruct Hrep as [-> _]].
    destruct He as (Hi' & now & Hnow & ->). split; [done|]. simpl in *. subst replies.
    unfold acknowledged. rewrite bool_decide_eq_true_2 by done. apply leases_match_open; [|done].
    split; [done|]. simpl. lia.
  - change (exec kstep k (close_port conf addr port fw) (r1, fw') k') in He.
    apply (exec_close_port conf names Hnames port_kind) in He as [_ He]; [|done..].
    destruct r1 as [[]|er|w]; [|simpl in Hrep; by subst replies|by destruct Hrep as [-> _]].
    simpl in Hrep. subst replies. unfold acknowledged. rewrite bool_decide_eq_true_2 by done.
    destruct He as (Hi' & ->). split; [done|]. by apply leases_match_close.
Qed.

Lemma fresh_step w w' :
  world_ok conf conf names w → w_maintained w <= kclock (w_kernel w) → fresh w →
  world_step conf conf names w w' → fresh w'.
Proof using Hconf Hnames Hdebug Htimeout.
  intros Hok Hclk Hf Hs. destruct Hs as [ss q f k o m e peer|ss1 ss2 se se' sent q f k o m e Hse
    |ss q1 msg q2 fw b k o m e r fw' replies k' He|ss q fw k o m e r fw' k' He|ss q fw b k o m e r fw' k' He
    |ss q k o m e r k' He|ss q f k o m e k' [Hch Hck]]; simpl in *; [done|done|..].
  - destruct e; [unfold fresh; simpl; by destruct (after_request _ _ _)|].
    destruct (Hf eq_refl) as [Hi Hl].
    pose proof (wo_flight _ _ _ _ Hok) as Hq. simpl in Hq. apply elem_of_serve in Hq as [Hm _].
    by eapply serve_fresh.
  - unfold fresh, after_maintain, after_request. simpl. destruct (is_panic r) eqn:Epanic; [done|].
    intros [-> Hr]%orb_false_iff. destruct (Hf eq_refl) as [Hi Hl].
    apply (exec_maintain conf names Hnames port_kind) in He as (Hck & now & Hnow & El & Hi'); [|done..].
    destruct r as [[]|er|w]; [|done..]. split; [done|]. rewrite El. simpl in *.
    eapply leases_match_maintain, leases_match_later, Hl; lia.
  - done.
  - destruct r as [fw|er|w]; [by eapply fresh_new|done..].
  - unfold fresh in *. simpl in *. destruct f as [fw b|]; [|done]. intros He. destruct (Hf He) as [Hi Hl].
    split; [by eapply fw_inv_chain_eq|by eapply leases_match_later].
Qed.

Lemma reachable_fresh w : reachable conf conf names w → w_maintained w <= kclock (w_kernel w) ∧ fresh w.
Proof using Hconf Hnames Hdebug Htimeout.
  induction 1 as [w Hi|w w' Hr [Hclk Hf] Hs].
  - destruct Hi as [k fw k' He]. split; [by apply exec_clock in He|by apply fresh_new].
  - split; [by eapply world_step_clock|]. eapply fresh_step; [|exact Hclk|exact Hf|exact Hs]. by apply reachable_ok.
Qed.

(** The firewall daemon that runs, and its chain in terms of the leases. *)
Lemma reachable_running w fw b :
  reachable conf conf names w → w_fwd w = Running fw b → w_failed w = false →
  leases_match conf (w_log w) (w_maintained w) (kclock (w_kernel w)) (fw_leases fw) ∧
  leases_granted (λ id, authentic conf (w_sessions w) true id.1 id.2) fw ∧
  ∀ addr p, 0 <= single_number p → target_rule names (addr, p) ∈ chain_at names (w_kernel w) ↔
    ∃ port, p ∈ singles port ∧ is_Some (fw_leases fw !! (addr, port)).
Proof using Hconf Hnames Hdebug Htimeout.
  intros Hr Hfw Hfail. destruct (reachable_ok _ _ _ Hconf Hnames _ Hr) as [_ _ Hg _ _].
  destruct (reachable_fresh _ Hr) as [_ Hf]. unfold fresh, fwd_ok in *. rewrite Hfw in *. destruct (Hf Hfail) as [Hi Hl].
  split_and!; [done..|]. intros addr p Hp.
  by apply (fw_inv_observe conf names port_kind).
Qed.

(** The protocols of a port are determined by its number. *)
Lemma authentic_port_unique ss b b' addr addr' port port' p :
  authentic conf ss b addr port → authentic conf ss b' addr' port' → p ∈ singles port → p ∈ singles port' → port = port'.
Proof using Hconf HO.
  intros [E _]%authentic_port_ok [E' _]%authentic_port_ok Hp Hp'. rewrite <- E, <- E'.
  by rewrite <- (singles_number _ _ Hp), <- (singles_number _ _ Hp').
Qed.

End fresh.

(** ** Properties *)

(** C2 (safety). Every rule of the chain is authentic. In every state that the daemons can reach, with
    any number of sessions in any interleaving, whatever the peers send, whenever the calls of [nft]
    or the maintenance fail, in debug mode or not, and across restarts of the firewall daemon: every
    rule in the chain is a rule for the control port of the firewall daemon, or it accepts exactly
    one port, from exactly the address of the peer of a session that has completed the
    challenge-response authentication, as a configured user, for a resource with that port that the
    user may access; and that session did not ask to close. *)
Theorem chain_rules_authentic `{Crypto} `{HashOrder} `{K : NftKernel} conf fconf names w r :
  Config_ok conf → NftNames_get fconf = Ok names → reachable conf fconf names w →
  r ∈ chain_at names (w_kernel w) →
  r ∈ ctrl_rules fconf names ∨
  ∃ se knock resource pt p, se ∈ w_sessions w ∧ full_session conf (se_hist se) knock resource ∧
    m_operation knock ≠ Close ∧ resource_port_type resource = Ok pt ∧
    p ∈ singles (lease_port_of pt (r_port resource)) ∧ r = target_rule names (se_peer se, p).
Proof.
  intros Hc Hn Hr Hin. destruct (reachable_ok _ _ _ Hc Hn _ Hr) as [_ _ _ Hrules].
  destruct (Hrules _ Hin) as [?|(addr & port & p & Ha & Hp & ->)]; [by left|right].
  simpl in Ha. destruct Ha as (se & knock & resource & pt & Hse & <- & Hf & Hop & Hpt & ->).
  exists se, knock, resource, pt, p. split_and!; [done|done| |done..].
  intros E. by rewrite bool_decide_eq_true_2 in Hop.
Qed.

(** C4 (bounds). Rules do not outlive their timeout, nor their closing. While the firewall daemon
    runs, and as long as no maintenance and no request to close has failed since it started, outside
    of debug mode: if the last successful maintenance is late by at most [delay], then every rule
    for an address and a port was requested by an authenticated session of that address; that
    request is the last one for the address and port that the daemon has acknowledged, so there was
    no closing after it; and it was acknowledged at most the timeout, the period of the maintenance
    and [delay] ago. *)
Theorem rules_expire `{Crypto} `{HashOrder} `{K : NftKernel} conf names w fw b addr p delay :
  Config_ok conf → NftNames_get conf = Ok names → c_debug conf = false → 0 <= c_nft_timeout conf →
  reachable conf conf names w → w_fwd w = Running fw b → w_failed w = false →
  kclock (w_kernel w) <= w_maintained w + FW_MAINTAIN_PERIOD + delay →
  0 <= single_number p → target_rule names (addr, p) ∈ chain_at names (w_kernel w) →
  ∃ port r, p ∈ singles port ∧ authentic conf (w_sessions w) true addr port ∧
    last_request (w_log w) (addr, port) = Some r ∧ sv_open r = true ∧
    kclock (w_kernel w) <= sv_to r + c_nft_timeout conf + FW_MAINTAIN_PERIOD + delay.
Proof.
  intros Hc Hn Hd Ht Hr Hfw Hfail Hdelay Hp Hin.
  destruct (reachable_running _ _ Hc Hn Hd Ht _ _ _ Hr Hfw Hfail) as (Hl & Hg & Hchain).
  apply Hchain in Hin as (port & Hs & l & Hport); [|done]. specialize (Hl (addr, port)). rewrite Hport in Hl.
  destruct Hl as (r & Hreq & Hop & Hm & Hto). destruct (Hg _ _ Hport) as [_ Ha]. exists port, r.
  split_and!; [done|exact Ha|done|done|lia].
Qed.

(** C5 (liveness). The last acknowledged request decides. In every reachable state with a running firewall
    daemon, under the same conditions but however late the maintenance is: if the last request for
    an address and a port that the daemon has acknowledged was one to open, the port is open for the
    address, over every protocol of the port, until the timeout has passed; if it was one to close,
    no rule accepts it. *)
Theorem last_request_decides `{Crypto} `{HashOrder} `{K : NftKernel} conf names w fw b addr port r p :
  Config_ok conf → NftNames_get conf = Ok names → c_debug conf = false → 0 <= c_nft_timeout conf →
  reachable conf conf names w → w_fwd w = Running fw b → w_failed w = false →
  last_request (w_log w) (addr, port) = Some r → p ∈ singles port →
  if sv_open r
  then kclock (w_kernel w) < sv_from r + c_nft_timeout conf → target_rule names (addr, p) ∈ chain_at names (w_kernel w)
  else target_rule names (addr, p) ∉ chain_at names (w_kernel w).
Proof.
  intros Hc Hn Hd Ht Hr Hfw Hfail Hreq Hp.
  destruct (reachable_running _ _ Hc Hn Hd Ht _ _ _ Hr Hfw Hfail) as (Hl & Hg & Hchain).
  pose proof (wo_log _ _ _ _ (reachable_ok _ _ _ Hc Hn _ Hr)) as Hlog. unfold log_ok in Hlog. rewrite Forall_forall in Hlog.
  destruct (last_request_elem _ _ _ Hreq) as [Ha%Hlog Hid]. rewrite Hid in Ha. simpl in Ha.
  assert (Hnum : 0 <= single_number p).
  { rewrite (singles_number _ _ Hp). by apply (authentic_port_ok _ Hc) in Ha as [_ ?]. }
  destruct (sv_open r) eqn:Hop.
  - intros Hnow. apply Hchain; [done|]. exists port. split; [done|]. specialize (Hl (addr, port)).
    destruct (fw_leases fw !! (addr, port)); [by eexists|]. specialize (Hl r Hreq Hop). lia.
  - rewrite Hchain by done. intros (port' & Hp' & l & Hport). destruct (Hg _ _ Hport) as [_ Ha'].
    assert (port' = port) as -> by (by eapply authentic_port_unique).
    specialize (Hl (addr, port)). rewrite Hport in Hl. destruct Hl as (r' & Hr' & Hop' & _). congruence.
Qed.

(** ** A concrete run *)

Lemma reach_session `{Crypto} `{HashOrder} `{K : NftKernel} conf fconf names ss1 ss2 peer t t' p p' q f k o m e :
  reachable conf fconf names (MkWorld (ss1 ++ MkSession peer t p :: ss2) q f k o m e) → steps p t' p' →
  reachable conf fconf names
    (MkWorld (ss1 ++ MkSession peer (t ++ t') p' :: ss2) (q ++ (t' ≫= λ x, sent_by (projT1 x))) f k o m e).
Proof.
  intros Hr Hs. revert t q Hr. induction Hs as [p|c kc x t' p' _ IH]; intros t q Hr; [by rewrite !app_nil_r|].
  rewrite bind_cons, (app_assoc q), (cons_middle (ev c x)), (app_assoc t). apply IH.
  eapply reach_step; [exact Hr|]. apply world_session. constructor.
Qed.

#[local] Existing Instance toy_crypto.
#[local] Existing Instance sorted_order.
#[local] Existing Instance sim_kernel.

Lemma system_names_ok : NftNames_get system_conf = Ok sample_names.
Proof. vm_compute. reflexivity. Qed.

Lemma system_good_session :
  good_session system_conf sample_knock sample_key sample_resource PtTcp sample_salt sample_nonce sample_response.
Proof. split; [split| split|split|..]; vm_compute; (reflexivity || discriminate). Qed.

Definition sample_request : FirewallMessage := new_open sample_v4 PtTcp 22.

(** The connection that delivers the request. *)
Definition serve_handle (msg : FirewallMessage) (c : cmd (isum conn_iface fw_iface)) (st : list FirewallMessage * sim_state)
    : resp (isum conn_iface fw_iface) c * (list FirewallMessage * sim_state) :=
  match c with
  | inl ConnRecv => (Ok (Some msg), st)
  | inl (ConnSend a) => (Ok (), (st.1 ++ [a], st.2))
  | inr c => let (x, k') := sim_handle c st.2 in (x, (st.1, k'))
  end.

Lemma serve_exec_run msg {R} (p : prog (isum conn_iface fw_iface) R) st r st' t :
  run (serve_handle msg) p st = (r, st', t) →
  exec (st_sum (I := conn_iface) (J := fw_iface) (serves msg) sim_step) st p r st'.
Proof.
  apply run_exec. intros [[|a]|c] [s k]; simpl.
  - split; [split; [done|]|done]. by intros m' [= ->].
  - done.
  - pose proof (sim_handle_step c k) as Hs. by destruct (sim_handle c k).
Qed.

Definition sample_served : res () * NftFirewall * (list FirewallMessage * sim_state) :=
  (run (serve_handle sample_request) (handle_message system_conf sample_started.1) ([], sample_started.2)).1.

(** A session of [sample_v4] authenticates itself and its request is served. *)
Lemma sample_world :
  ∃ ss, reachable system_conf system_conf sample_names
    (MkWorld ss [] (Running sample_served.1.2 true) sample_served.2.2
       [MkAcked true (sample_v4, LpTcp 22) (kclock sample_started.2) (kclock sample_served.2.2)] (kclock sample_k0) false).
Proof.
  destruct (run_reaches system_conf sample_v4 Protocol_new _ _ _ _ _ _ _ system_good_session) as (k & Hk & _).
  eexists. eapply (reach_step _ _ _ _ _).
  - refine (reach_session system_conf system_conf sample_names [] [] sample_v4 [] _ _ _ [] _ _ [] _ _ _
      (steps_trans _ _ _ _ _ Hk (steps_cons _ k (Ok ()) _ _ (steps_nil _)))).
    eapply reach_step; [apply reach_init, init_started, sample_started_exec|].
    exact (world_accept _ _ _ [] _ _ _ _ _ _ sample_v4).
  - destruct (sample_served) as [[r fw] [replies k']] eqn:E.
    assert (He : exec (st_sum (I := conn_iface) (J := fw_iface) (serves sample_request) sim_step)
      ([], sample_started.2) (handle_message system_conf sample_started.1) (r, fw) (replies, k')).
    { unfold sample_served in E.
      destruct (run (serve_handle sample_request) (handle_message system_conf sample_started.1) _) as [[p st] t] eqn:Er.
      simpl in E. injection E as -> ->. exact (serve_exec_run _ _ _ _ _ _ Er). }
    assert (Hr : r = Ok ()) by (change r with (r, fw, (replies, k')).1.1; rewrite <- E; vm_compute; reflexivity).
    assert (Hrep : replies = [new_ack]) by (change replies with (r, fw, (replies, k')).2.1; rewrite <- E; vm_compute; reflexivity).
    pose proof (world_serve (K := sim_kernel) system_conf system_conf sample_names
      ([] ++ [MkSession sample_v4 ([] ++ (auth_session system_conf sample_knock sample_salt sample_nonce sample_response ++
        [e_fw FwcConnect (Ok ())]) ++ [ev (inr (FwcSend sample_request) : cmd proto_iface) (Ok ())]) (k (Ok ()))])
      [] sample_request [] _ true _ [] (kclock sample_k0) false _ _ _ _ He) as Hs.
    rewrite Hr, Hrep in Hs. exact Hs.
Qed.

Lemma sample_rule : target_rule sample_names (sample_v4, SlpTcp 22) ∈ chain_at sample_names sample_served.2.2.
Proof. apply (bool_decide_unpack _). vm_compute. exact I. Qed.

Lemma chain_rules_authentic_witness :
  ∃ w, reachable system_conf system_conf sample_names w ∧
    target_rule sample_names (sample_v4, SlpTcp 22) ∈ chain_at sample_names (w_kernel w) ∧
    ∃ se knock resource, se ∈ w_sessions w ∧ full_session system_conf (se_hist se) knock resource.
Proof.
  destruct sample_world as [ss Hw]. eexists. split; [exact Hw|]. split; [exact sample_rule|].
  destruct (chain_rules_authentic (K := sim_kernel) _ _ _ _ _ system_conf_ok system_names_ok Hw sample_rule)
    as [Hc|(se & knock & resource & pt & p & Hse & Hf & _)].
  - exfalso. apply (ctrl_rule_comment _ _ _ (sample_v4, SlpTcp 22) Hc). reflexivity.
  - exists se, knock, resource. split; [exact Hse|exact Hf].
Defined.

Lemma rules_expire_witness :
  ∃ w r, reachable system_conf system_conf sample_names w ∧ last_request (w_log w) (sample_v4, LpTcp 22) = Some r ∧
    kclock (w_kernel w) <= sv_to r + c_nft_timeout system_conf + FW_MAINTAIN_PERIOD.
Proof.
  destruct sample_world as [ss Hw].
  destruct (rules_expire (K := sim_kernel) system_conf sample_names _ _ _ sample_v4 (SlpTcp 22) 0 system_conf_ok system_names_ok
    eq_refl ltac:(vm_compute; discriminate) Hw eq_refl eq_refl ltac:(vm_compute; discriminate) ltac:(discriminate) sample_rule)
    as (port & r & Hp & _ & Ho & _ & Ht).
  assert (Hport : port = LpTcp 22) by (destruct (last_request_elem _ _ _ Ho) as [Hin Hid]; apply list_elem_of_singleton in Hin;
    rewrite Hin in Hid; simpl in Hid; congruence). rewrite Hport in Ho.
  eexists _, r. split; [exact Hw|]. split; [exact Ho|]. rewrite Z.add_0_r in Ht. exact Ht.
Defined.

Lemma last_request_decides_witness :
  ∃ w, reachable system_conf system_conf sample_names w ∧
    target_rule sample_names (sample_v4, SlpTcp 22) ∈ chain_at sample_names (w_kernel w).
Proof.
  destruct sample_world as [ss Hw]. eexists. split; [exact Hw|].
  apply (last_request_decides (K := sim_kernel) system_conf sample_names _ _ _ sample_v4 (LpTcp 22) _ (SlpTcp 22)
    system_conf_ok system_names_ok eq_refl ltac:(vm_compute; discriminate) Hw eq_refl eq_refl eq_refl ltac:(by left)).
  vm_compute. reflexivity.
Defined.
