(* ===== verification/Systemd.v ===== *)
(** * Sockets from systemd (letmein-systemd/src/lib.rs)

    Which file descriptors that systemd passes are accepted, and as what. The system calls and the
    [sd_notify] crate are the environment; the constants are those of Linux. *)

From S2P Require Import Prelude Prog.
Local Open Scope Z_scope.

Definition S_IFMT : Z := 61440.
Definition S_IFSOCK : Z := 49152.
Definition SOCK_STREAM : Z := 1.
Definition SOCK_DGRAM : Z := 2.
Definition AF_UNIX : Z := 1.
Definition AF_INET : Z := 2.
Definition AF_INET6 : Z := 10.
Definition SIZEOF_INT : Z := 4.
Definition SIZEOF_SOCKADDR : Z := 16.

(** [sd_notify::booted] and [listen_fds]; [fstat64] answers the mode, [getsockopt] and
    [getsockname] the value and its length, or they fail. *)
Inductive sysd_cmd : Type :=
| SdBooted | SdListenFds | SdNotifyReady | SdFstat (fd : Z) | SdSockType (fd : Z) | SdSockName (fd : Z).
Definition sysd_resp (c : sysd_cmd) : Type :=
  match c with
  | SdBooted => res bool
  | SdListenFds => res (list Z)
  | SdNotifyReady => res ()
  | SdFstat _ => option Z
  | SdSockType _ | SdSockName _ => option (Z * Z)
  end.
Definition sysd_iface : iface := Iface sysd_cmd sysd_resp.

Inductive SystemdSocket : Type := SdUdp (fd : Z) | SdTcp (fd : Z) | SdUnix (fd : Z).

#[export] Instance SystemdSocket_eq_dec : EqDecision SystemdSocket.
Proof. solve_decision. Defined.

Definition socket_fd (s : SystemdSocket) : Z := match s with SdUdp fd | SdTcp fd | SdUnix fd => fd end.

(** The Cargo features of the crate. *)
Record features : Type := MkFeatures { feat_udp : bool; feat_tcp : bool; feat_unix : bool }.

Section systemd.
Local Open Scope prog_scope.

Definition sd_call (c : cmd sysd_iface) : prog sysd_iface (resp sysd_iface c) := call c.

Definition is_socket (fd : Z) : prog sysd_iface bool :=
  let* r := sd_call (SdFstat fd) in
  Ret match r with Some st_mode => Z.land st_mode S_IFMT =? S_IFSOCK | None => false end.

Definition get_socket_type (fd : Z) : prog sysd_iface (option Z) :=
  let* r := sd_call (SdSockType fd) in
  Ret match r with Some (sotype, len) => if SIZEOF_INT <=? len then Some sotype else None | None => None end.

Definition get_socket_family (fd : Z) : prog sysd_iface (option Z) :=
  let* r := sd_call (SdSockName fd) in
  Ret match r with Some (family, len) => if SIZEOF_SOCKADDR <=? len then Some family else None | None => None end.

(** [&&] evaluates its second operand only if the first one holds. *)
Definition and_then (a b : prog sysd_iface bool) : prog sysd_iface bool := let* x := a in if x then b else Ret false.

Definition INET46 : list (option Z) := [Some AF_INET; Some AF_INET6].

Definition has_type (fd ty : Z) : prog sysd_iface bool :=
  let* t := get_socket_type fd in Ret (bool_decide (t = Some ty)).
Definition has_family (fd : Z) (families : list (option Z)) : prog sysd_iface bool :=
  let* f := get_socket_family fd in Ret (bool_decide (f ∈ families)).

Definition is_udp_socket (fd : Z) : prog sysd_iface bool :=
  and_then (is_socket fd) (and_then (has_type fd SOCK_DGRAM) (has_family fd INET46)).
Definition is_tcp_socket (fd : Z) : prog sysd_iface bool :=
  and_then (is_socket fd) (and_then (has_type fd SOCK_STREAM) (has_family fd INET46)).
Definition is_unix_socket (fd : Z) : prog sysd_iface bool :=
  and_then (is_socket fd) (and_then (has_type fd SOCK_STREAM) (has_family fd [Some AF_UNIX])).

(** The body of the loop of [get_all]: the first kind that fits, of those that are compiled in. *)
Definition classify (feat : features) (fd : Z) : prog sysd_iface (res SystemdSocket) :=
  let* udp := if feat_udp feat then is_udp_socket fd else Ret false in
  if udp then Ret (Ok (SdUdp fd))
  else
    let* tcp := if feat_tcp feat then is_tcp_socket fd else Ret false in
    if tcp then Ret (Ok (SdTcp fd))
    else
      let* unix := if feat_unix feat then is_unix_socket fd else Ret false in
      if unix then Ret (Ok (SdUnix fd)) else Ret (Err "Received unknown socket from systemd").

Fixpoint classify_all (feat : features) (fds : list Z) : prog sysd_iface (res (list SystemdSocket)) :=
  match fds with
  | [] => Ret (Ok [])
  | fd :: fds =>
      let? s := classify feat fd in
      let? ss := classify_all feat fds in
      Ret (Ok (s :: ss))
  end.

(** [SystemdSocket::get_all]. *)
Definition get_all (feat : features) : prog sysd_iface (res (list SystemdSocket)) :=
  let* booted := sd_call SdBooted in
  match booted with
  | Ok true =>
      let* fds := sd_call SdListenFds in
      let? fds := Ret (context "Systemd listen_fds" fds) in
      classify_all feat fds
  | Panic w => Ret (Panic w)
  | _ => Ret (Ok [])
  end.

Definition systemd_notify_ready : prog sysd_iface (res ()) := sd_call SdNotifyReady.

End systemd.

(** ** What is accepted

    A table of what the descriptors are: their mode, socket type and family. *)

Record fd_info : Type := MkFdInfo { fi_mode : Z; fi_type : Z; fi_family : Z }.

Section table.
Context (table : Z → option fd_info) (fds : list Z).

(** An operating system that answers from the table. *)
Definition table_handle (c : cmd sysd_iface) (u : ()) : resp sysd_iface c * () :=
  match c with
  | SdBooted => (Ok true, u)
  | SdListenFds => (Ok fds, u)
  | SdNotifyReady => (Ok (), u)
  | SdFstat fd => (fi_mode <$> table fd, u)
  | SdSockType fd => ((λ i, (fi_type i, SIZEOF_INT)) <$> table fd, u)
  | SdSockName fd => ((λ i, (fi_family i, SIZEOF_SOCKADDR)) <$> table fd, u)
  end.

Definition sock_kind (i : fd_info) (fd : Z) : option SystemdSocket :=
  if negb (Z.land (fi_mode i) S_IFMT =? S_IFSOCK) then None
  else if bool_decide (fi_family i ∈ [AF_INET; AF_INET6]) then
    if fi_type i =? SOCK_DGRAM then Some (SdUdp fd)
    else if fi_type i =? SOCK_STREAM then Some (SdTcp fd) else None
  else if (fi_family i =? AF_UNIX) && (fi_type i =? SOCK_STREAM) then Some (SdUnix fd)
  else None.

Definition enabled (feat : features) (s : SystemdSocket) : bool :=
  match s with SdUdp _ => feat_udp feat | SdTcp _ => feat_tcp feat | SdUnix _ => feat_unix feat end.

Definition accepted (feat : features) (fd : Z) : option SystemdSocket :=
  i ← table fd; s ← sock_kind i fd; if enabled feat s then Some s else None.

Definition answer {A} (p : prog sysd_iface A) : A := (run (I := sysd_iface) table_handle p ()).1.1.

Lemma answer_bind {A B} (p : prog sysd_iface A) (f : A → prog sysd_iface B) : answer (pbind p f) = answer (f (answer p)).
Proof.
  unfold answer. rewrite run_bind. destruct (run table_handle p ()) as [[a []] t]. simpl.
  by destruct (run table_handle (f a) ()) as [[b []] t'].
Qed.

Lemma answer_and_then a b : answer (and_then a b) = answer a && answer b.
Proof. unfold and_then. rewrite answer_bind. by destruct (answer a). Qed.

Lemma answer_is_socket fd :
  answer (is_socket fd) = match table fd with Some i => Z.land (fi_mode i) S_IFMT =? S_IFSOCK | None => false end.
Proof. unfold answer. simpl. by destruct (table fd). Qed.

Lemma answer_has_type fd ty :
  answer (has_type fd ty) = match table fd with Some i => fi_type i =? ty | None => false end.
Proof.
  unfold answer. simpl. destruct (table fd) as [i|]; simpl; [|done].
  apply bool_decide_ext_eqb || (case_bool_decide as E; [injection E as ->; by rewrite Z.eqb_refl|
    symmetry; apply Z.eqb_neq; congruence]).
Qed.

Lemma answer_has_family fd l :
  answer (has_family fd (Some <$> l)) = match table fd with Some i => bool_decide (fi_family i ∈ l) | None => false end.
Proof.
  unfold answer. simpl. destruct (table fd) as [i|]; simpl; apply bool_decide_ext || apply bool_decide_eq_false_2.
  - rewrite list_elem_of_fmap. naive_solver.
  - rewrite list_elem_of_fmap. naive_solver.
Qed.

(** Each descriptor is accepted as what it is, if that kind is compiled in; the three kinds exclude
    each other, so the order of the tests does not matter. *)
Lemma answer_classify feat fd :
  answer (classify feat fd) =
    match accepted feat fd with Some s => Ok s | None => Err "Received unknown socket from systemd" end.
Proof.
  assert (Hif : ∀ (b : bool) p, answer (if b then p else Ret false) = b && answer p) by (by intros []).
  assert (Hc : answer (classify feat fd) =
    if feat_udp feat && answer (is_udp_socket fd) then Ok (SdUdp fd)
    else if feat_tcp feat && answer (is_tcp_socket fd) then Ok (SdTcp fd)
    else if feat_unix feat && answer (is_unix_socket fd) then Ok (SdUnix fd)
    else Err "Received unknown socket from systemd").
  { unfold classify. rewrite answer_bind, Hif. case_match; [done|].
    rewrite answer_bind, Hif. case_match; [done|]. rewrite answer_bind, Hif. by case_match. }
  rewrite Hc. unfold is_udp_socket, is_tcp_socket, is_unix_socket.
  change INET46 with (Some <$> [AF_INET; AF_INET6]). change [Some AF_UNIX] with (Some <$> [AF_UNIX]).
  rewrite !answer_and_then, answer_is_socket, !answer_has_type, !answer_has_family.
  unfold accepted, sock_kind. destruct (table fd) as [[m ty fam]|]; cbn [mbind option_bind fi_mode fi_type fi_family];
    [|by rewrite !andb_false_r].
  destruct (Z.land m S_IFMT =? S_IFSOCK); cbn [negb andb]; [|by rewrite !andb_false_r].
  assert (bool_decide (fam ∈ [AF_UNIX]) = (fam =? AF_UNIX)) as ->.
  { apply Bool.eq_iff_eq_true. rewrite bool_decide_eq_true, list_elem_of_singleton. by rewrite Z.eqb_eq. }
  destruct (bool_decide_reflect (fam ∈ [AF_INET; AF_INET6])) as [Hf|_].
  - assert ((fam =? AF_UNIX) = false) as -> by (apply Z.eqb_neq; intros ->; revert Hf; by apply (bool_decide_unpack _); vm_compute).
    by destruct feat as [[] [] []], (ty =? SOCK_DGRAM) eqn:E1, (ty =? SOCK_STREAM) eqn:E2;
      try (exfalso; unfold SOCK_DGRAM, SOCK_STREAM in *; lia).
  - by destruct feat as [[] [] []], (ty =? SOCK_DGRAM), (ty =? SOCK_STREAM), (fam =? AF_UNIX).
Qed.

Lemma answer_get_all feat :
  answer (get_all feat) =
    match mapM (accepted feat) fds with Some ss => Ok ss | None => Err "Received unknown socket from systemd" end.
Proof.
  assert (answer (get_all feat) = answer (classify_all feat fds)) as ->.
  { unfold get_all. rewrite answer_bind. change (answer (sd_call SdBooted)) with (Ok true). cbn iota beta.
    rewrite answer_bind. by change (answer (sd_call SdListenFds)) with (Ok fds). }
  induction fds as [|fd l IH]; [done|]. cbn [classify_all mapM]. unfold cbind. rewrite answer_bind.
  rewrite answer_classify. destruct (accepted feat fd) as [s|]; cbn [mbind option_bind]; [|done].
  rewrite answer_bind. rewrite IH. by destruct (mapM (accepted feat) l).
Qed.

End table.
