(* ===== verification/Os.v ===== *)
(** * Files and paths (parts of the main.rs of all programs, letmein-conf/src/lib.rs)

    The steps at the start of the programs that work on the file system: reading the configuration,
    the run directory, the PID file. A program over the interface of the file system is a program
    over every interface that includes it. *)

From Stdlib Require Import Ascii.
From S2P Require Import Prelude Prog Str Proto Ini Conf Systemd.
Local Open Scope Z_scope.

(** ** Inclusion of interfaces *)

Class Sub (I J : iface) : Type := {
  sub_cmd : cmd I → cmd J;
  sub_resp : ∀ c, resp J (sub_cmd c) → resp I c;
}.

Fixpoint lift {I J R} `{Sub I J} (p : prog I R) : prog J R :=
  match p with
  | Ret r => Ret r
  | Vis c k => Vis (sub_cmd c) (λ x, lift (k (sub_resp c x)))
  end.

Definition perform_cmd {I J} `{Sub I J} (c : cmd I) : prog J (resp I c) := lift (call c).

#[export] Instance sub_l I J : Sub I (isum I J) | 1 :=
  {| sub_cmd c := inl c : cmd (isum I J); sub_resp c x := x |}.
#[export] Instance sub_r I I' J `{Sub I J} : Sub I (isum I' J) | 2 :=
  {| sub_cmd c := inr (sub_cmd c) : cmd (isum I' J); sub_resp c x := sub_resp c x |}.
#[export] Instance sub_refl I : Sub I I | 0 := {| sub_cmd c := c; sub_resp c x := x |}.

(** ** The file system

    [OsReadText] reads a file whose content is UTF-8; [OsStat] yields the mode. *)

Inductive os_cmd : Type :=
| OsReadText (path : str)
| OsStat (path : str)
| OsCreateDirAll (path : str)
| OsRemove (path : str)
| OsChown (path : str) (uid gid : u32)
| OsChmod (path : str) (mode : Z)
| OsTruncate (path : str)
| OsWriteAll (path : str) (data : str)
| OsPid.

Definition os_resp (c : os_cmd) : Type :=
  match c with OsReadText _ => res str | OsStat _ => res Z | OsPid => u32 | _ => res () end.

Definition os_iface : iface := Iface os_cmd os_resp.

(** [PathBuf::push] and [Path::join]. *)
Definition push (self path : str) : str :=
  if starts_with (ch "/") path then path
  else if bool_decide (self = []) || ends_with (ch "/") self then self ++ path
  else self ++ lit "/" ++ path.

Definition S_IFDIR : Z := 16384.

Definition with_context {J A} (msg : string) (p : prog J (res A)) : prog J (res A) :=
  (let* r := p in Ret (context msg r))%prog.

Section os.
Context {J : iface} `{Sub os_iface J}.
Local Open Scope prog_scope.

Definition os (c : cmd os_iface) : prog J (resp os_iface c) := perform_cmd c.

(** [create_dir_if_not_exists]. *)
Definition create_dir_if_not_exists (path : str) : prog J (res ()) :=
  let* meta := os (OsStat path) in
  match meta with
  | Panic w => Ret (Panic w)
  | Err _ => os (OsCreateDirAll path)
  | Ok mode => Ret (if negb (Z.land mode S_IFMT =? S_IFDIR) then Err "Path exists, but is not a directory." else Ok ())
  end.

(** [set_owner_mode]. *)
Definition set_owner_mode (path : str) (uid gid : u32) (mode : Z) : prog J (res ()) :=
  let? _ := with_context "Stat path" (os (OsStat path)) in
  let? _ := with_context "Set path owner" (os (OsChown path uid gid)) in
  with_context "Set path mode" (os (OsChmod path mode)).

(** [make_pidfile]; the file is [letmeind/letmeind.pid] or [letmeinfwd/letmeinfwd.pid]. *)
Definition make_pidfile (rundir file : str) : prog J (res ()) :=
  let path := push rundir file in
  let? _ := with_context "Open PID-file" (os (OsTruncate path)) in
  let* pid := os OsPid in
  with_context "Write to PID-file" (os (OsWriteAll path (show_dec pid ++ [10]))).

(** ** The configuration file

    [env_prefix] is the prefix that was given at build time, if any. *)

Definition SERVER_CONF_PATH : str := lit "etc/letmeind.conf".
Definition CLIENT_CONF_PATH : str := lit "etc/letmein.conf".

Definition get_default_path (env_prefix : option str) (variant : ConfigVariant) : str :=
  push (push [] (default (lit "/") env_prefix))
    (match variant with Client => CLIENT_CONF_PATH | Server => SERVER_CONF_PATH end).

(** [Opts::get_config] of a program. *)
Definition get_config (env_prefix : option str) (variant : ConfigVariant) (config : option str) : str :=
  match config with Some config => config | None => get_default_path env_prefix variant end.

(** [Ini::new_from_file], with [read_file] and [parse_bytes]. *)
Definition new_from_file (path : str) : prog J (res Ini) :=
  let? content := with_context "Read configuration file" (os (OsReadText path)) in
  Ret (parse_str content).

(** [Config::new] and [load], as at the start of every program. *)
Definition load_config `{HashOrder} (variant : ConfigVariant) (path : str) : prog J (res Config) :=
  let* file := new_from_file path in
  let '(r, conf) := load (Config_new variant) path file in
  Ret (_ ← context "Configuration file" r; Ok conf).

End os.

(** Where the programs look for their configuration. *)
Example default_paths :
  (get_default_path None <$> [Client; Server]) = [lit "/etc/letmein.conf"; lit "/etc/letmeind.conf"] ∧
  get_default_path (Some (lit "/opt/letmein")) Server = lit "/opt/letmein/etc/letmeind.conf" ∧
  get_config (Some (lit "/opt/letmein/")) Client None = lit "/opt/letmein/etc/letmein.conf" ∧
  get_config None Client (Some (lit "x.conf")) = lit "x.conf".
Proof. by vm_compute. Qed.

(** ** What a successful program has done

    [seen c x t]: the command [c] of an included interface was answered with [x] in the history [t].
    [grows P Q t p]: started after [t], [p] issues only commands allowed by [P], and a success
    satisfies [Q]; the history only gets longer, so what was seen stays seen. *)

Definition seen {I J} `{Sub I J} (c : cmd I) (x : resp I c) (t : history J) : Prop :=
  ∃ y, ev (sub_cmd c) y ∈ t ∧ sub_resp c y = x.

Definition grows {J A} (P : history J → cmd J → Prop) (Q : history J → A → Prop) (t : history J) (p : prog J (res A)) : Prop :=
  wp P (λ t' r, t `prefix_of` t' ∧ ∀ a, r = Ok a → Q t' a) t p.

Lemma seen_mono {I J} `{Sub I J} (c : cmd I) x (t t' : history J) : t `prefix_of` t' → seen c x t → seen c x t'.
Proof. intros [l ->] (y & Hin & Hy). exists y. split; [|done]. apply elem_of_app. by left. Qed.

Section grows.
Context {J : iface} (P : history J → cmd J → Prop).
Local Open Scope prog_scope.

Lemma grows_ret {A} (Q : history J → A → Prop) t r : (∀ a, r = Ok a → Q t a) → grows P Q t (Ret r).
Proof. by split. Qed.

Lemma grows_bind {A B} (Q : history J → A → Prop) (Q' : history J → B → Prop) t p (f : A → prog J (res B)) :
  grows P Q t p → (∀ t' a, t `prefix_of` t' → Q t' a → grows P Q' t' (f a)) → grows P Q' t (cbind p f).
Proof.
  intros Hp Hf. apply wp_cbind. eapply wp_mono, Hp; [done|]. intros t' r [Hpre Hr].
  destruct r as [a|e|w]; [|done..]. eapply wp_mono; [done| |by apply Hf, Hr].
  intros t2 r [Hpre' ?]. split; [by etransitivity|done].
Qed.

Lemma grows_step {I B} `{Sub I J} (Q' : history J → B → Prop) t (c : cmd I) (f : resp I c → prog J (res B)) :
  P t (sub_cmd c) → (∀ t' x, t `prefix_of` t' → seen c x t' → grows P Q' t' (f x)) →
  grows P Q' t (pbind (perform_cmd c) f).
Proof.
  intros HP Hf. split; [done|]. intros y. simpl.
  assert (Hpre : t `prefix_of` t ++ [ev (sub_cmd c) y]) by (by apply prefix_app_r).
  eapply wp_mono; [done| |apply (Hf _ _ Hpre)].
  - intros t2 r [Hpre' ?]. split; [by etransitivity|done].
  - exists y. split; [|done]. apply elem_of_app. right. by left.
Qed.

Lemma grows_context {A} (Q : history J → A → Prop) t msg p : grows P Q t p → grows P Q t (with_context msg p).
Proof.
  intros Hp. apply wp_bind. eapply wp_mono, Hp; [done|]. intros t' r [Hpre Hr]. split; [done|].
  intros a Ha. apply Hr. by destruct r.
Qed.

Lemma grows_mono {A} (Q Q' : history J → A → Prop) t p :
  (∀ t' a, t `prefix_of` t' → Q t' a → Q' t' a) → grows P Q t p → grows P Q' t p.
Proof. intros HQ. apply wp_mono; [done|]. intros t' r [Hpre Hr]. split; [done|]. intros a Ha. by apply HQ, Hr. Qed.

Lemma grows_lift {I A} `{Sub I J} (Q : A → Prop) t (p : prog I (res A)) :
  (∀ t' c, t `prefix_of` t' → P t' (sub_cmd c)) → leaves (λ r, ∀ a, r = Ok a → Q a) p → grows P (λ _, Q) t (lift p).
Proof.
  intros HP Hl. enough (Hg : ∀ t0, t `prefix_of` t0 → wp P (λ t' r, t `prefix_of` t' ∧ ∀ a, r = Ok a → Q a) t0 (lift p))
    by (by apply Hg).
  induction p as [r|c k IH]; intros t0 Ht; simpl; [done|]. split; [by apply HP|]. intros x. apply IH; [apply Hl|].
  etransitivity; [exact Ht|]. by apply prefix_app_r.
Qed.

End grows.

(** Without conditions on the commands. *)
Abbreviation anything := (λ _ _, True).

Lemma grows_anything {J A} t (p : prog J (res A)) : grows anything anything t p.
Proof.
  enough (Hg : ∀ t0, t `prefix_of` t0 → wp anything (λ t' r, t `prefix_of` t' ∧ ∀ a, r = Ok a → True) t0 p) by (by apply Hg).
  induction p as [r|c k IH]; intros t0 Ht; simpl; [done|]. split; [done|]. intros x. apply IH.
  etransitivity; [exact Ht|]. by apply prefix_app_r.
Qed.

(** ** What the steps on files have done *)

Section files.
Context {J : iface} `{Sub os_iface J} (P : history J → cmd J → Prop) (HP : ∀ t (c : cmd os_iface), P t (sub_cmd c)).

Lemma grows_os {A} (c : cmd os_iface) (g : resp os_iface c → res A) (Q : history J → A → Prop) t :
  (∀ t' x, t `prefix_of` t' → seen c x t' → ∀ a, g x = Ok a → Q t' a) →
  grows P Q t (pbind (os c) (λ x, Ret (g x))).
Proof using HP.
  intros HQ. apply grows_step; [apply HP|]. intros t' x Hpre Hx. apply grows_ret. intros a. by apply HQ.
Qed.

Lemma grows_create_dir path t : grows P (λ _ _, True) t (create_dir_if_not_exists path).
Proof using HP.
  apply grows_step; [apply HP|]. intros t' [mode|e|w] _ _; try by apply grows_ret.
  split; [apply HP|]. intros x. by split; [apply prefix_app_r|].
Qed.

Lemma grows_make_pidfile rundir file t : grows P (λ _ _, True) t (make_pidfile rundir file).
Proof using HP.
  unfold make_pidfile, with_context. apply (grows_bind P (λ _ _, True)); [by apply grows_os|]. intros t1 _ _ _.
  apply grows_step; [apply HP|]. intros t2 pid _ _. by apply grows_os.
Qed.

(** The owner and the mode of [path] have been set. *)
Definition owned (path : str) (uid gid : u32) (mode : Z) (t : history J) : Prop :=
  seen (OsChown path uid gid : cmd os_iface) (Ok ()) t ∧ seen (OsChmod path mode : cmd os_iface) (Ok ()) t.

Lemma grows_set_owner_mode path uid gid mode t :
  grows P (λ t' _, owned path uid gid mode t') t (set_owner_mode path uid gid mode).
Proof using HP.
  unfold set_owner_mode, with_context. apply (grows_bind P (λ _ _, True)); [by apply grows_os|].
  intros t1 _ _ _. apply (grows_bind P (λ t' _, seen (OsChown path uid gid : cmd os_iface) (Ok ()) t')).
  { apply grows_os. intros t' x _ Hx [] Hr. by destruct x as [[]| |]. }
  intros t2 _ _ Ho. apply grows_os. intros t' x Hpre Hx [] Hr. split; [by eapply seen_mono|]. by destruct x as [[]| |].
Qed.

(** The configuration is that of the file at [path]. *)
Definition loaded `{HashOrder} (variant : ConfigVariant) (path : str) (conf : Config) (t : history J) : Prop :=
  ∃ content, seen (OsReadText path : cmd os_iface) content t ∧
    load (Config_new variant) path (text ← context "Read configuration file" content; parse_str text) = (Ok (), conf).

Lemma loaded_mono `{HashOrder} variant path conf t t' : t `prefix_of` t' → loaded variant path conf t → loaded variant path conf t'.
Proof. intros Hpre (content & Hc & ?). exists content. split; [by eapply seen_mono|done]. Qed.

Lemma grows_load_config `{HashOrder} variant path t :
  grows P (λ t' conf, loaded variant path conf t') t (load_config variant path).
Proof using HP.
  pose (c := OsReadText path : cmd os_iface). split; [apply HP|]. intros y.
  assert (Hs : seen c (sub_resp c y) (t ++ [ev (sub_cmd c) y])).
  { exists y. split; [|done]. apply elem_of_app. right. by left. }
  assert (Hpre : t `prefix_of` t ++ [ev (sub_cmd c) y]) by (by apply prefix_app_r).
  revert Hs Hpre. change (OsReadText path) with c. generalize (t ++ [ev (sub_cmd c) y]). generalize (sub_resp c y).
  intros content t1 Hs Hpre. cbn [pbind lift call].
  assert (Hc : ∀ file, file = (text ← context "Read configuration file" content; parse_str text) →
    t `prefix_of` t1 ∧ ∀ conf, (let '(r, conf) := load (Config_new variant) path file in
      _ ← context "Configuration file" r; Ok conf) = Ok conf → loaded variant path conf t1).
  { intros file ->. split; [done|]. intros conf Hr. exists content. split; [done|]. revert Hr.
    by destruct (load _ _ _) as [[[]| |] conf']; intros; simplify_eq/=. }
  specialize (Hc _ eq_refl). destruct content as [text|e|w]; cbn [context pbind];
    (match goal with |- wp _ _ _ (let '(_, _) := load ?v ?p ?f in _) =>
       change (text ← _; parse_str text) with f in Hc; by destruct (load v p f) end).
Qed.

End files.
