(* ===== verification/Daemon.v ===== *)
(** * The daemons around their protocols (letmeind/src/server.rs, main.rs, letmeinfwd/src/main.rs, server.rs)

    The sockets a daemon listens on, the task that accepts connections, and the main loop with the
    exit of the process. *)

From Stdlib Require Import Ascii.
From S2P Require Import Prelude Prog Str Proto FwProto Addr Conf Nftables NftSpec NftOps FwRefine FwServer Systemd Os.
Local Open Scope Z_scope.

(** ** The sockets of the control daemon (letmeind/src/server.rs)

    A socket from systemd is known by its descriptor; a bound one by its port. *)

Inductive Sock : Type := Passed (fd : Z) | Bound (port : u16).

Inductive sock_cmd : Type := SetNonblocking (fd : Z) | FromStd (fd : Z) | BindTcp (port : u16) | BindUdp (port : u16).
Definition sock_resp (c : sock_cmd) : Type := res ().
Definition sock_iface : iface := Iface sock_cmd sock_resp.
Definition srv_iface : iface := isum sysd_iface sock_iface.

(** [Server]: the listener and the UDP dispatcher; the accept tasks are derived from them. *)
Record Server : Type := MkServer { srv_tcp : option Sock; srv_udp : option Sock }.

Section server_new.
Context (feat : features) (conf : Config).
Local Open Scope prog_scope.

Definition sock (c : cmd sock_iface) (msg : string) : prog srv_iface (res ()) :=
  let* r := inj_r (call c) in Ret (context msg r).

(** The two steps that take over a socket from systemd. *)
Definition adopt (fd : Z) (msg : string) : prog srv_iface (res ()) :=
  let? _ := sock (SetNonblocking fd) "Set socket non-blocking" in
  sock (FromStd fd) msg.

(** The body of the loop over the sockets from systemd. *)
Definition take_socket (srv : Server) (socket : SystemdSocket) : prog srv_iface (res Server) :=
  match socket with
  | SdTcp fd =>
      if bool_decide (is_Some (srv_tcp srv)) then Ret (Err "Received multiple TCP sockets from systemd.")
      else if negb (cp_tcp (c_port conf)) then Ret (Ok srv)
      else
        let? _ := adopt fd "Convert std TcpListener to tokio TcpListener" in
        Ret (Ok (MkServer (Some (Passed fd)) (srv_udp srv)))
  | SdUdp fd =>
      if bool_decide (is_Some (srv_udp srv)) then Ret (Err "Received multiple UDP sockets from systemd.")
      else if negb (cp_udp (c_port conf)) then Ret (Ok srv)
      else
        let? _ := adopt fd "Convert std UdpSocket to tokio UdpSocket" in
        Ret (Ok (MkServer (srv_tcp srv) (Some (Passed fd))))
  | SdUnix _ => Ret (Err "Received an unusable socket from systemd.")
  end.

Fixpoint take_sockets (srv : Server) (sockets : list SystemdSocket) : prog srv_iface (res Server) :=
  match sockets with
  | [] => Ret (Ok srv)
  | socket :: sockets => let? srv := take_socket srv socket in take_sockets srv sockets
  end.

Definition has_socket (srv : Server) : bool :=
  bool_decide (is_Some (srv_tcp srv)) || bool_decide (is_Some (srv_udp srv)).

Definition from_systemd (no_systemd : bool) : prog srv_iface (res Server) :=
  if no_systemd then Ret (Ok (MkServer None None))
  else
    let? sockets := inj_l (get_all feat) in
    let? srv := take_sockets (MkServer None None) sockets in
    if has_socket srv then let? _ := inj_l systemd_notify_ready in Ret (Ok srv) else Ret (Ok srv).

Definition bind_sockets : prog srv_iface (res Server) :=
  let port := cp_port (c_port conf) in
  let? tcp := (if cp_tcp (c_port conf) then let? _ := sock (BindTcp port) "Bind" in Ret (Ok (Some (Bound port)))
               else Ret (Ok None)) in
  let? udp := (if cp_udp (c_port conf) then let? _ := sock (BindUdp port) "Bind" in Ret (Ok (Some (Bound port)))
               else Ret (Ok None)) in
  Ret (Ok (MkServer tcp udp)).

(** [Server::new]. *)
Definition Server_new (no_systemd : bool) : prog srv_iface (res Server) :=
  let? srv := from_systemd no_systemd in
  if has_socket srv then Ret (Ok srv) else bind_sockets.

End server_new.

(** [Server::accept]: the accept task of one of the sockets has finished, with the peer or an
    error of the task or of the system. Converting the stream may fail as well. *)
Inductive accept_done : Type := TcpDone (r : res IpAddr) (from_tcp : res ()) | UdpDone (r : res IpAddr).

Definition Server_accept (d : accept_done) : res (IpAddr * string) :=
  match d with
  | TcpDone r from_tcp => peer_addr ← r; _ ← from_tcp; Ok (peer_addr, "TCP"%string)
  | UdpDone r => peer_addr ← r; Ok (peer_addr, "UDP"%string)
  end.

(** ** The socket of the firewall daemon (letmeinfwd/src/server.rs) *)

Inductive fwsock_cmd : Type := FsNonblocking (fd : Z) | FsFromStd (fd : Z) | FsBind (path : str).
Definition fwsock_iface : iface := Iface fwsock_cmd (λ _, res ()).

(** The listener: passed by systemd, or bound to a path. *)
Inductive UnixSock : Type := PassedUnix (fd : Z) | BoundUnix (path : str).

Definition SOCK_FILE : str := lit "letmeinfwd.sock".
Definition sock_path (rundir : str) : str := push (push rundir (lit "letmeinfwd")) SOCK_FILE.

Section fwserver_new.
Context (feat : features) {J : iface} `{Sub sysd_iface J, Sub os_iface J, Sub fwsock_iface J}.
Local Open Scope prog_scope.

Definition fs (c : cmd fwsock_iface) : prog J (res ()) := perform_cmd c.

(** [FirewallServer::new]; the mode 432 is 0o660. *)
Definition FirewallServer_new (no_systemd test_mode : bool) (rundir : str) (letmeind_gid : u32) : prog J (res UnixSock) :=
  if negb no_systemd then
    let? sockets := lift (get_all feat) in
    match head sockets with
    | Some (SdUnix fd) =>
        let? _ := with_context "Set socket non-blocking" (fs (FsNonblocking fd)) in
        let? _ := with_context "Convert std UnixListener to tokio UnixListener" (fs (FsFromStd fd)) in
        let? _ := lift systemd_notify_ready in
        Ret (Ok (PassedUnix fd))
    | _ => Ret (Err "Received an unusable socket from systemd.")
    end
  else
    let sock_path := sock_path rundir in
    let* meta := os (OsStat sock_path) in
    let? _ := match meta with
              | Ok mode => if Z.land mode S_IFMT =? S_IFSOCK
                           then with_context "Remove existing socket" (os (OsRemove sock_path)) else Ret (Ok ())
              | Err _ => Ret (Ok ())
              | Panic w => Ret (Panic w)
              end in
    let? _ := with_context "Bind socket" (fs (FsBind sock_path)) in
    if negb test_mode then
      let? _ := with_context "Set unix socket owner and mode" (set_owner_mode sock_path 0 letmeind_gid 432) in
      Ret (Ok (BoundUnix sock_path))
    else Ret (Ok (BoundUnix sock_path)).

End fwserver_new.

(** ** The accept task (both main.rs)

    [Semaphore::acquire] takes a permit, or waits; the permit is given back when the value that
    holds it goes out of scope. The task takes connections one by one; each is handled by a task of
    its own. [C] identifies connections. *)

Section accept_task.
Context {C : Type} `{EqDecision C}.

Record tasks : Type := MkTasks {
  permits : nat;
  pending : option C;
  running : list C;
  accept_error : option error;
}.

(** [Semaphore::new(opts.num_connections)]. *)
Definition tasks_new (num_connections : nat) : tasks := MkTasks num_connections None [] None.

Definition acquire (s : tasks) : option tasks :=
  match permits s with
  | O => None
  | S n => Some (MkTasks n (pending s) (running s) (accept_error s))
  end.
Definition drop_permit (s : tasks) : tasks := MkTasks (S (permits s)) (pending s) (running s) (accept_error s).
Definition spawn (c : C) (s : tasks) : tasks := MkTasks (permits s) None (c :: running s) (accept_error s).

(** [if let Ok(_permit) = conn_semaphore.acquire().await { task::spawn(..); }]: the permit is a
    variable of the block and is dropped at its end, which does not wait for the task. *)
Definition start_connection (s : tasks) : option tasks :=
  c ← pending s;
  s ← acquire s;
  Some (drop_permit (spawn c s)).

Inductive task_event : Type :=
| Accepted (c : C)
| AcceptFailed (e : error)
| Started
| Finished (c : C).

Definition task_step (s : tasks) (ev : task_event) : option tasks :=
  match ev with
  | Accepted c =>
      match pending s, accept_error s with
      | None, None => Some (MkTasks (permits s) (Some c) (running s) None)
      | _, _ => None
      end
  | AcceptFailed e =>
      match pending s, accept_error s with
      | None, None => Some (MkTasks (permits s) None (running s) (Some e))
      | _, _ => None
      end
  | Started => start_connection s
  | Finished c =>
      if bool_decide (c ∈ running s)
      then Some (MkTasks (permits s) (pending s) (filter (λ c', c' ≠ c) (running s)) (accept_error s))
      else None
  end.

Fixpoint task_run (s : tasks) (evs : list task_event) : option tasks :=
  match evs with [] => Some s | ev :: evs => s ← task_step s ev; task_run s evs end.

Lemma task_step_permits s ev s' : task_step s ev = Some s' → permits s' = permits s.
Proof.
  destruct s as [p q r e], ev; simpl.
  1,2: by destruct q, e; intros; simplify_eq.
  - unfold start_connection. destruct q; simpl; [|done]. destruct p; simpl; [done|]. by intros [= <-].
  - case_bool_decide; [|done]. by intros [= <-].
Qed.

Lemma task_run_permits s evs s' : task_run s evs = Some s' → permits s' = permits s.
Proof.
  revert s. induction evs as [|ev evs IH]; intros s; simpl; [by intros [= ->]|].
  intros (s1 & H1 & H2)%bind_Some. apply IH in H2 as ->. by eapply task_step_permits.
Qed.

Lemma task_run_app s evs evs' : task_run s (evs ++ evs') = (s ← task_run s evs; task_run s evs').
Proof. revert s. induction evs as [|ev evs IH]; intros s; simpl; [done|]. destruct (task_step s ev); simpl; [apply IH|done]. Qed.

(** All the permits are available whenever a connection has been started, so nothing bounds the
    number of running tasks. *)
Lemma task_run_all num (cs : list C) r :
  (0 < num)%nat →
  task_run (MkTasks num None r None) (cs ≫= (λ c, [Accepted c; Started])) = Some (MkTasks num None (rev cs ++ r) None).
Proof.
  intros Hn. revert r. destruct num as [|n]; [lia|]. induction cs as [|c cs IH]; intros r; [done|].
  change ((c :: cs) ≫= (λ c, [Accepted c; Started])) with (Accepted c :: Started :: (cs ≫= (λ c, [Accepted c; Started]))).
  etransitivity; [exact (IH (c :: r))|]. simpl. by rewrite <- app_assoc.
Qed.

End accept_task.

Arguments tasks : clear implicits.
Arguments task_event : clear implicits.

(** ** The main loop and the exit of the process *)

Inductive main_event : Type := SigTerm | SigInt | SigHup | ExitSock (code : option error) | ExitFw (code : option error).

(** The exit code, if the loop ends; a closed channel counts as an error. *)
Definition main_event_exit (ev : main_event) : option (res ()) :=
  match ev with
  | SigTerm => Some (Ok ())
  | SigInt => Some (Err "Interrupted by SIGINT.")
  | SigHup => None
  | ExitSock code | ExitFw code => Some (Err (default "Unknown error code." code))
  end.

Fixpoint main_loop (evs : list main_event) : option (res ()) :=
  match evs with
  | [] => None
  | ev :: evs => match main_event_exit ev with Some code => Some code | None => main_loop evs end
  end.

(** ** The firewall daemon (letmeinfwd/src/main.rs)

    The mutex makes every operation on the firewall atomic, so the tasks that handle connections and
    the task that maintains the leases amount to a sequence of their steps. The last event ends the
    main loop. *)

Inductive fwd_event : Type := Connection | MaintainTick.

(** An attempt to connect: what the listener says, the credentials of the peer, and the PID file of
    the control daemon at that time. *)
Record attempt : Type := MkAttempt { at_listen : res (); at_cred : res Cred; at_pidfile : res str }.

Definition FirewallServer_accept (test_mode : bool) (uid gid : u32) (a : attempt) : res () :=
  _ ← at_listen a;
  accept_check test_mode uid gid (at_cred a) (at_pidfile a).

(** The task that accepts connections, for a limit of at least one connection (the permit of a
    connection is given back at once, see [start_connection]): the connections that it starts, and
    what it sends to the main loop when it ends. A task that panics closes its channel. *)
Fixpoint socket_task (accept : attempt → res ()) (attempts : list attempt) : list fwd_event * option main_event :=
  match attempts with
  | [] => ([], None)
  | a :: attempts =>
      match accept a with
      | Ok _ => let (evs, ev) := socket_task accept attempts in (Connection :: evs, ev)
      | Err e => ([], Some (ExitSock (Some e)))
      | Panic _ => ([], Some (ExitSock None))
      end
  end.

Section fwd.
Context `{HashOrder} (conf : Config).
Local Open Scope prog_scope.

Abbreviation fwd_method := (method (isum conn_iface fw_iface) NftFirewall).

(** The two kinds of tasks: an error of a connection is printed; an error of the maintenance ends its
    task and, once the main loop has received it, the main loop. [maintained] is what the maintenance
    task has come to. *)
Fixpoint serve (maintained : res ()) (evs : list fwd_event) : fwd_method () :=
  match evs with
  | [] => mret maintained
  | Connection :: evs => mtry (handle_message conf) (λ _, serve maintained evs)
  | MaintainTick :: evs =>
      match maintained with
      | Ok _ => mtry (fw_call (maintain conf)) (λ r, serve r evs)
      | _ => serve maintained evs
      end
  end.

(** The end of [async_main]: the rules are removed. *)
Definition fwd_exit (exitcode : res ()) : fwd_method () :=
  mtry (fw_call (shutdown conf)) (λ r,
    mret match r with
         | Err _ => if is_ok exitcode then Err "Failed to remove firewall rules" else exitcode
         | _ => exitcode
         end).

(** The part of [async_main] with the tasks. [stop] is the exit code of the main loop, unless it
    takes the error of the maintenance task ([fw_first]): if both are ready, [select!] takes either. *)
Definition fwd_main (evs : list fwd_event) (stop : res ()) (fw_first : bool) : fwd_method () :=
  mtry (serve (Ok ()) evs) (λ r, fwd_exit (match r with Err e => if fw_first then Err e else stop | _ => stop end)).

(** ** Lemmas: nothing but [shutdown] marks the firewall as shut down *)

Definition alive (fw : NftFirewall) : Prop := fw_shutdown fw = false.

Create HintDb keeps.
Ltac keeps_step :=
  lazymatch goal with
  | |- keeps _ (method_bind _ _) => apply keeps_bind; [|intros ?]
  | |- keeps _ (mtry _ _) => apply keeps_try; [|intros ?]
  | |- keeps _ (mmodify _) => apply keeps_modify; intros ? ?; assumption
  | |- keeps _ (mret _) => apply keeps_ret
  | |- keeps _ mget => apply keeps_get
  | |- keeps _ (mcall _) => apply keeps_call
  | |- keeps _ (mlift _) => apply keeps_lift
  end.
Ltac keeps_tac := repeat (keeps_step || case_match || solve [auto with keeps]).

Lemma keeps_full_rebuild : keeps alive (nftables_full_rebuild conf).
Proof. unfold nftables_full_rebuild, nftables_apply_batch, add_ctrl_rule. keeps_tac. Qed.

Lemma keeps_remove_leases ls : keeps alive (nftables_remove_leases conf ls).
Proof. unfold nftables_remove_leases, nftables_apply_batch, from_kernel. keeps_tac. Qed.

#[local] Hint Resolve keeps_full_rebuild keeps_remove_leases : keeps.

Lemma keeps_open_port addr port : keeps alive (open_port conf addr port).
Proof. unfold open_port, assert_running, nftables_add_lease, nftables_apply_batch. keeps_tac. Qed.

Lemma keeps_close_port addr port : keeps alive (close_port conf addr port).
Proof. unfold close_port, assert_running. keeps_tac. Qed.

Lemma keeps_maintain : keeps alive (maintain conf).
Proof. unfold maintain, assert_running. keeps_tac. Qed.
#[local] Hint Resolve keeps_open_port keeps_close_port keeps_maintain : keeps.

Lemma keeps_fw_call (m : method fw_iface NftFirewall ()) : keeps alive m → keeps alive (fw_call m).
Proof. intros Hm fw Hfw. unfold fw_call. by apply leaves_inj_r, Hm. Qed.

Lemma keeps_send_msg m : keeps alive (FwServer.send_msg (J := fw_iface) m).
Proof. unfold FwServer.send_msg, conn_call. keeps_tac. by intros fw Hfw x. Qed.
#[local] Hint Resolve keeps_fw_call keeps_send_msg : keeps.

Lemma keeps_handle_message : keeps alive (handle_message (J := fw_iface) conf).
Proof.
  unfold handle_message, FwServer.recv_msg, conn_call, checked_request, reject, perform.
  keeps_tac; by intros fw Hfw x.
Qed.
#[local] Hint Resolve keeps_handle_message : keeps.

Lemma keeps_serve r evs : keeps alive (serve r evs).
Proof.
  revert r. induction evs as [|[] evs IH]; intros r; simpl; keeps_tac.
Qed.

End fwd.

(** ** Lemmas: the exit, and who is served *)

(** The last thing that happened before [k']: [nft] has refused to flush the chain. *)
Definition flush_refused `{K : NftKernel} (conf : Config) (names : NftNames) (k' : kstate) : Prop :=
  ∃ k e, kstep k (FApply (c_nft_exe conf) [FlushChain (n_family names) (n_table names) (n_chain_input names)]) (Err e) k'.

(** [fwd_exit] keeps an error, and removes the rules, unless [nft] refuses to flush the chain. *)
Lemma exec_fwd_exit `{HashOrder} `{K : NftKernel} {S} (stC : S → ∀ c : cmd conn_iface, resp conn_iface c → S → Prop)
    conf names exitcode fw s k r fw' s' k' :
  NftNames_get conf = Ok names → alive fw →
  exec (st_sum (J := fw_iface) stC kstep) (s, k) (fwd_exit conf exitcode fw) (r, fw') (s', k') →
  (is_ok exitcode = false → r = exitcode) ∧
  (chain_at names k' = [] ∨ is_ok r = false ∧ chain_at names k' ≡ₚ chain_at names k ∧ flush_refused conf names k').
Proof.
  intros Hn Ha Hexit. unfold fwd_exit in Hexit. apply exec_mtry_inv in Hexit as (rx & fw3 & [s4 k4] & Hshut & Hx).
  unfold fw_call in Hshut. apply exec_inj_r in Hshut as [Hshut ->].
  apply (exec_shutdown conf names Hn) in Hshut as (_ & Hs & Hc); [|done].
  destruct rx as [[]|e'|w']; [| |done]; apply exec_mret_inv in Hx as (-> & _ & [= -> ->]).
  - split; [done|by left].
  - destruct Hc as [Hc Href]. assert (flush_refused conf names k4).
    { destruct Href as (k1 & rules & e1 & Hrules & Hk). unfold expected_rules in Hrules. rewrite Hs in Hrules.
      apply Permutation_nil_r in Hrules as ->. by exists k1, e1. }
    by destruct exitcode as [[]|e|w]; (split; [done|by right]).
Qed.

(** At the end the chain is empty, or [nft] has refused to flush it; whatever the connections and the
    maintenance did. The exit code is that of the main loop or an error of the maintenance. *)
Lemma exec_fwd_main `{HashOrder} `{K : NftKernel} {S} (stC : S → ∀ c : cmd conn_iface, resp conn_iface c → S → Prop)
    conf names evs stop fw_first fw s k r fw' s' k' :
  NftNames_get conf = Ok names → alive fw →
  exec (st_sum (J := fw_iface) stC kstep) (s, k) (fwd_main conf evs stop fw_first fw) (r, fw') (s', k') →
  is_panic r = true ∨
  (is_ok r = true → is_ok stop = true) ∧ (chain_at names k' = [] ∨ is_ok r = false ∧ flush_refused conf names k').
Proof.
  intros Hn Hfw Hmain. unfold fwd_main in Hmain. apply exec_mtry_inv in Hmain as (rs & fw1 & [s3 k3] & Hserve & Hexit).
  assert (Ha : alive fw1) by (apply (leaves_exec _ _ _ _ _ _ (keeps_serve conf (Ok ()) evs fw Hfw) Hserve)).
  set (code := match rs with Err e => if fw_first then Err e else stop | _ => stop end).
  assert (Hcode : is_ok code = true → is_ok stop = true) by (by subst code; destruct rs, fw_first).
  destruct rs as [rs0|e|w]; [..|destruct Hexit as (-> & _); by left]; right;
    apply (exec_fwd_exit _ _ _ _ _ _ _ _ _ _ _ Hn Ha) in Hexit as [Hstop Hc]; fold code in Hstop;
    (split; [|destruct Hc as [?|(? & _ & ?)]; auto]);
    intros Hr; apply Hcode; (destruct (is_ok code) eqn:E; [done|]); by rewrite Hstop, E in Hr.
Qed.

(** The peer of an attempt is the process in the PID file, of the user and group [letmeind]. *)
Definition from_letmeind (uid gid : u32) (a : attempt) : Prop :=
  at_listen a = Ok () ∧ ∃ cred text pid, at_cred a = Ok cred ∧ at_pidfile a = Ok text ∧
    parse_i32 (trim text) = Ok pid ∧ cr_pid cred = Some pid ∧ cr_uid cred = uid ∧ cr_gid cred = gid.

Lemma accept_letmeind uid gid a : FirewallServer_accept false uid gid a = Ok () ↔ from_letmeind uid gid a.
Proof.
  destruct a as [[[]|e|w] [[[pid|] uid' gid']|e'|w'] [text|e''|w'']]; unfold FirewallServer_accept, accept_check, get_letmeind_pid, from_letmeind; simpl;
    try (split; [done|naive_solver]).
  destruct (parse_i32 (trim text)) as [expected|e|w] eqn:E; simpl.
  2-3: split; [done|]; intros (_ & ? & ? & ? & _ & [= <-] & ? & _); congruence.
  destruct (Z.eqb_spec pid expected), (Z.eqb_spec uid' uid), (Z.eqb_spec gid' gid); simpl;
    (split; [first [done | intros _; split; [done|]; eexists _, _, _; by subst]|];
     intros (_ & ? & ? & ? & [= <-] & [= <-] & ? & [= <-] & <- & <-); simpl in *; congruence).
Qed.

Lemma socket_task_spec accept attempts evs stop :
  socket_task accept attempts = (evs, stop) →
  ∃ served rest, attempts = served ++ rest ∧ evs = replicate (length served) Connection ∧
    Forall (λ a, accept a = Ok ()) served ∧
    match stop with
    | None => rest = []
    | Some ev => (∃ a rest', rest = a :: rest' ∧ accept a ≠ Ok ()) ∧ ∃ e, main_event_exit ev = Some (Err e)
    end.
Proof.
  revert evs. induction attempts as [|a attempts IH]; intros evs; simpl; [intros [= <- <-]; by exists [], []|].
  destruct (accept a) as [[]|e|w] eqn:E.
  - destruct (socket_task accept attempts) as [evs' ev]. intros [= <- ->].
    destruct (IH evs' eq_refl) as (served & rest & -> & -> & Hs & Hr). exists (a :: served), rest.
    split_and!; [done|done|by constructor|done].
  - intros [= <- <-]. exists [], (a :: attempts). split_and!; [done|done|done| |by eexists].
    exists a, attempts. by rewrite E.
  - intros [= <- <-]. exists [], (a :: attempts). split_and!; [done|done|done| |by eexists].
    exists a, attempts. by rewrite E.
Qed.

(** ** Lemmas: where the sockets come from *)

Section sockets.
Context (feat : features) (conf : Config).

Definition passed_ok (srv : Server) : Prop :=
  (∀ s, srv_tcp srv = Some s → cp_tcp (c_port conf) = true ∧ ∃ fd, s = Passed fd) ∧
  (∀ s, srv_udp srv = Some s → cp_udp (c_port conf) = true ∧ ∃ fd, s = Passed fd).

Abbreviation oks Q := (leaves (λ r, ∀ srv, r = Ok srv → Q srv)).

Lemma take_socket_passed srv socket : passed_ok srv → oks passed_ok (take_socket conf srv socket).
Proof.
  intros Hs. destruct socket as [fd|fd|fd]; simpl; [| |done]; (case_bool_decide; [done|]).
  - destruct (negb (cp_udp (c_port conf))) eqn:E; [by intros ? [= <-]|]. apply negb_false_iff in E.
    apply (leaves_ok_bind _ (λ _, True)); [by apply leaves_any|]. intros _ _ ? [= <-].
    split; [apply Hs|]. intros s [= <-]. eauto.
  - destruct (negb (cp_tcp (c_port conf))) eqn:E; [by intros ? [= <-]|]. apply negb_false_iff in E.
    apply (leaves_ok_bind _ (λ _, True)); [by apply leaves_any|]. intros _ _ ? [= <-].
    split; [|apply Hs]. intros s [= <-]. eauto.
Qed.

Lemma take_sockets_passed sockets srv : passed_ok srv → oks passed_ok (take_sockets conf srv sockets).
Proof.
  revert srv. induction sockets as [|socket sockets IH]; intros srv Hs; simpl; [by intros ? [= <-]|].
  eapply leaves_ok_bind; [by apply take_socket_passed|]. intros srv'. apply IH.
Qed.

Lemma from_systemd_passed no_systemd :
  oks (λ srv, passed_ok srv ∧ (no_systemd = true → has_socket srv = false)) (from_systemd feat conf no_systemd).
Proof.
  unfold from_systemd. destruct no_systemd; [by intros ? [= <-]|].
  apply (leaves_ok_bind _ (λ _, True)); [by apply leaves_any|]. intros sockets _.
  eapply leaves_ok_bind; [by apply take_sockets_passed|]. intros srv Hs. destruct (has_socket srv); [|by intros ? [= <-]].
  apply (leaves_ok_bind _ (λ _, True)); [by apply leaves_any|]. by intros _ _ ? [= <-].
Qed.

Definition bound (srv : Server) : Prop :=
  let port := cp_port (c_port conf) in
  srv_tcp srv = (if cp_tcp (c_port conf) then Some (Bound port) else None) ∧
  srv_udp srv = (if cp_udp (c_port conf) then Some (Bound port) else None).

Lemma bind_sockets_bound : oks bound (bind_sockets conf).
Proof.
  unfold bind_sockets, bound. cbv zeta.
  assert (Hb : ∀ (b : bool) (p : prog srv_iface (res ())) (x : Sock),
    leaves (λ r, ∀ a, r = Ok a → a = if b then Some x else None)
      (if b then cbind p (λ _, Ret (Ok (Some x))) else Ret (Ok None))).
  { intros [] p x; [|by intros ? [= <-]]. apply (leaves_ok_bind _ (λ _, True)); [by apply leaves_any|].
    by intros _ _ ? [= <-]. }
  eapply leaves_ok_bind; [apply Hb|]. intros tcp ->. eapply leaves_ok_bind; [apply Hb|]. intros udp ->.
  by intros ? [= <-].
Qed.

Lemma bound_has_socket srv : Config_ok conf → bound srv → has_socket srv = true.
Proof.
  intros [[_ Hp] _ _ _ _] [Ht Hu]. unfold has_socket. rewrite Ht, Hu.
  by destruct (cp_tcp (c_port conf)), (cp_udp (c_port conf)).
Qed.

Lemma Server_new_sockets no_systemd :
  Config_ok conf →
  oks (λ srv, has_socket srv = true ∧ (no_systemd = false ∧ passed_ok srv ∨ bound srv)) (Server_new feat conf no_systemd).
Proof.
  intros Hok. eapply leaves_ok_bind; [apply from_systemd_passed|]. intros srv [Hs Hno].
  destruct (has_socket srv) eqn:E.
  - intros ? [= <-]. split; [done|]. left. split; [|done]. destruct no_systemd; [by specialize (Hno eq_refl)|done].
  - eapply leaves_mono, bind_sockets_bound. intros r Hr srv' ->. specialize (Hr _ eq_refl).
    split; [by apply bound_has_socket|by right].
Qed.

End sockets.

(** ** Properties *)

(** C34 (safety). The control daemon listens on a protocol only if it is configured, and on at least
    one. The sockets either all come from systemd, or they are exactly the configured ones, bound to
    the control port; with the option to ignore systemd, it is the latter. *)
Theorem server_sockets_configured feat conf no_systemd t srv :
  Config_ok conf → steps (Server_new feat conf no_systemd) t (Ret (Ok srv)) →
  let port := cp_port (c_port conf) in
  has_socket srv = true ∧
  (is_Some (srv_tcp srv) → cp_tcp (c_port conf) = true) ∧ (is_Some (srv_udp srv) → cp_udp (c_port conf) = true) ∧
  ((no_systemd = false ∧ ∀ s, srv_tcp srv = Some s ∨ srv_udp srv = Some s → ∃ fd, s = Passed fd) ∨
   srv_tcp srv = (if cp_tcp (c_port conf) then Some (Bound port) else None) ∧
   srv_udp srv = (if cp_udp (c_port conf) then Some (Bound port) else None)).
Proof.
  intros Hok Hs port. destruct (leaves_steps _ _ _ _ (Server_new_sockets feat conf no_systemd Hok) Hs _ eq_refl)
    as [Hh [[-> [Ht Hu]]|[Ht Hu]]]; (split; [done|]).
  - split_and!; [by intros [s [? _]%Ht]|by intros [s [? _]%Hu]|]. left. split; [done|].
    intros s [[_ ?]%Ht|[_ ?]%Hu]; done.
  - rewrite Ht, Hu. split_and!; [by destruct (cp_tcp _); [|intros []]|by destruct (cp_udp _); [|intros []]|]. by right.
Qed.

(** C35 (bounds). The limit on the number of connections is not enforced: with any limit but zero, any
    number of connections can be handled at the same time, since the permit of a connection is
    given back as soon as its task has been started. With a limit of zero no connection is ever
    handled, and the first one blocks the accept task for good. *)
Theorem connection_limit_not_enforced {C : Type} `{EqDecision C} (num : nat) :
  (∀ (cs : list C), (0 < num)%nat → ∃ evs s, task_run (tasks_new num) evs = Some s ∧ running s = cs) ∧
  (∀ evs (s : tasks C), task_run (tasks_new num) evs = Some s → permits s = num) ∧
  (∀ evs (s : tasks C), num = 0%nat → task_run (tasks_new num) evs = Some s → running s = []).
Proof.
  split_and!.
  - intros cs Hn. exists (rev cs ≫= (λ c, [Accepted c; Started])). eexists.
    rewrite (task_run_all num (rev cs) []) by done. by rewrite app_nil_r, rev_involutive.
  - intros evs s Hs. by apply task_run_permits in Hs.
  - intros evs s -> Hs.
    enough (H : ∀ s0, permits s0 = 0%nat → running s0 = [] → ∀ s, task_run s0 evs = Some s → running s = [])
      by exact (H (tasks_new 0) eq_refl eq_refl s Hs).
    clear. intros s0 Hp Hr s Hs. revert s0 Hp Hr Hs. induction evs as [|ev evs IH]; intros s0 Hp Hr; simpl; [by intros [= <-]|].
    intros (s1 & H1 & H2)%bind_Some. apply (IH s1); [by rewrite (task_step_permits _ _ _ H1)| |done].
    revert H1. destruct s0 as [p q r e]. simpl in *. subst. destruct ev; simpl.
    1,2: by destruct q, e; intros; simplify_eq.
    + unfold start_connection. by destruct q.
    + by intros.
Qed.

(** C31 (error). Who may connect to the firewall daemon, and what happens to others. Outside of the
    test mode the daemon handles a connection only if the peer is the process in the PID file of the
    control daemon and runs as the user and the group [letmeind]. The first peer that is not, or an
    error of the listener, is the end of the accept task, which tells the main loop so. When the main
    loop acts on it, whatever the connections and the maintenance do until then, the daemon ends: unless
    it panics, its exit code is an error, and its chain is empty at the end, unless the last thing
    that happened was that [nft] refused to flush the chain. *)
Theorem only_letmeind_is_served `{HashOrder} `{K : NftKernel} {S} (stC : S → ∀ c : cmd conn_iface, resp conn_iface c → S → Prop)
    conf names uid gid attempts evs stop :
  NftNames_get conf = Ok names →
  socket_task (FirewallServer_accept false uid gid) attempts = (evs, stop) →
  ∃ served rest, attempts = served ++ rest ∧ evs = replicate (length served) Connection ∧
    Forall (from_letmeind uid gid) served ∧
    match stop with
    | None => rest = []
    | Some ev =>
        (∃ a rest', rest = a :: rest' ∧ ~ from_letmeind uid gid a) ∧
        ∃ e, main_loop [ev] = Some (Err e) ∧
          ∀ evs' fw_first fw s k r fw' s' k', alive fw →
            exec (st_sum (J := fw_iface) stC kstep) (s, k) (fwd_main conf evs' (Err e) fw_first fw) (r, fw') (s', k') →
            is_panic r = true ∨ is_ok r = false ∧ (chain_at names k' = [] ∨ flush_refused conf names k')
    end.
Proof.
  intros Hn Ht. destruct (socket_task_spec _ _ _ _ Ht) as (served & rest & Ha & He & Hs & Hr).
  exists served, rest. split_and!; [done|done| |].
  - eapply Forall_impl; [exact Hs|]. intros a. apply accept_letmeind.
  - destruct stop as [ev|]; [|done]. destruct Hr as [(a & rest' & -> & Hrej) (e & Hev)]. split.
    + exists a, rest'. split; [done|]. by rewrite <- accept_letmeind.
    + exists e. split; [simpl; by rewrite Hev|]. intros evs' fw_first fw s k r fw' s' k' Hfw Hx.
      apply (exec_fwd_main _ _ _ _ _ _ _ _ _ _ _ _ _ Hn Hfw) in Hx as [?|[Hok Hc]]; [by left|right].
      split; [by destruct (is_ok r); [specialize (Hok eq_refl)|]|]. destruct Hc as [?|[_ ?]]; auto.
Qed.

(** ** Concrete daemons *)

#[local] Existing Instance sorted_order.
#[local] Existing Instance sim_kernel.

(** systemd passes one TCP socket; every system call succeeds. *)
Definition srv_handle (c : cmd srv_iface) (u : ()) : resp srv_iface c * () :=
  match c with
  | inl c => table_handle (λ _, Some (MkFdInfo S_IFSOCK SOCK_STREAM AF_INET6)) [3] c u
  | inr _ => (Ok (), u)
  end.

Definition both_conf : Config :=
  MkConfig Conf.Server None false (MkControlPort 5800 true true) DEFAULT_CONTROL_TIMEOUT Always SeccompOff ∅ ∅ (MkUserId 0)
    [] [] [] [] DEFAULT_NFT_TIMEOUT.

(** A configured protocol that systemd does not pass a socket for is not served. *)
Example systemd_tcp_only :
  (run srv_handle (Server_new (MkFeatures true true false) both_conf false) ()).1.1 = Ok (MkServer (Some (Passed 3)) None) ∧
  (run srv_handle (Server_new (MkFeatures true true false) both_conf true) ()).1.1 =
    Ok (MkServer (Some (Bound 5800)) (Some (Bound 5800))).
Proof. by vm_compute. Qed.

Lemma server_sockets_configured_witness :
  ∃ t srv, steps (Server_new (MkFeatures true true false) sample_conf true) t (Ret (Ok srv)) ∧ has_socket srv = true.
Proof.
  destruct (run srv_handle (Server_new (MkFeatures true true false) sample_conf true) ()) as [[r u] t] eqn:E.
  pose proof (run_steps srv_handle _ _ _ _ _ E) as Hs.
  assert (r = Ok (MkServer None (Some (Bound 5800)))) as -> by (change r with (r, u, t).1.1; rewrite <- E; vm_compute; reflexivity).
  eexists _, _. split; [exact Hs|].
  exact (proj1 (server_sockets_configured _ sample_conf true t _ sample_conf_ok Hs)).
Defined.

(** The control daemon connects, then another process of its user. *)
Definition sample_attempts : list attempt :=
  [MkAttempt (Ok ()) (Ok (MkCred (Some 42) 990 991)) (Ok (lit "42
")); MkAttempt (Ok ()) (Ok (MkCred (Some 43) 990 991)) (Ok (lit "42
")); MkAttempt (Ok ()) (Ok (MkCred (Some 42) 990 991)) (Ok (lit "42
"))].

Lemma only_letmeind_is_served_witness :
  ∃ served rest a rest', sample_attempts = served ++ rest ∧ length served = 1%nat ∧
    rest = a :: rest' ∧ ~ from_letmeind 990 991 a.
Proof.
  destruct (socket_task (FirewallServer_accept false 990 991) sample_attempts) as [evs stop] eqn:E.
  destruct (only_letmeind_is_served (K := sim_kernel) script_step sample_fw_conf sample_names 990 991 sample_attempts
    evs stop sample_names_ok E) as (served & rest & Ha & He & _ & Hr).
  vm_compute in E. injection E as Ee Es. rewrite <- Es in Hr. destruct Hr as [(a & rest' & Hrest & Hno) _].
  exists served, rest, a, rest'. split; [exact Ha|]. split; [|split; [exact Hrest|exact Hno]].
  rewrite <- (length_replicate (length served) Connection), <- He, <- Ee. reflexivity.
Defined.

Lemma connection_limit_not_enforced_witness :
  ∃ evs s, task_run (tasks_new (C := nat) 8) evs = Some s ∧ running s = seq 0 100.
Proof. apply (proj1 (connection_limit_not_enforced (C := nat) 8) (seq 0 100)). lia. Defined.
