(* ===== verification/Sessions.v ===== *)
(** * The connections of the control daemon (letmein-proto/src/socket.rs, letmeind/src/server.rs, main.rs)

    The sockets that the sessions use, with their closed-flags, and the life of a connection: it is
    accepted, waits for a permit, is served by a task of its own, is closed, and is dropped, which
    asserts that it has been closed. All UDP sessions share one dispatcher; every step takes its lock
    once, so that the tasks amount to a sequence of steps in any order. *)

From S2P Require Import Prelude Prog Str Proto FwProto Stream UdpDispatch Addr Conf FwClient Protocol ProtoSafe.
From S2P Require Import Systemd Os Daemon.
Local Open Scope nat_scope.

(** The length of the receive queue of a UDP connection (letmein-proto/src/lib.rs). *)
Definition UDP_RX_QUEUE_SIZE : nat := 4.

Section sessions.
Context `{HO : HashOrder} {SocketAddr : Type} `{Countable SocketAddr}.

Abbreviation recv_ev := (UdpDispatch.recv_ev SocketAddr).
Abbreviation MsgUdpDispatcherRx := (UdpDispatcherRx SocketAddr).

(** ** [NetSocket] (letmein-proto/src/socket.rs)

    The stream and the dispatcher are not part of it: what they do is an argument of the operations. *)

Inductive NetSocket : Type := NsTcp (closed : bool) | NsUdp (peer_addr : SocketAddr) (closed : bool).

(** [stream.set_nodelay(true)] may fail. *)
Definition from_tcp (nodelay : res ()) : res NetSocket :=
  _ ← context "Set TCP_NODELAY" nodelay;
  Ok (NsTcp false).

Definition from_udp (peer_addr : SocketAddr) : res NetSocket := Ok (NsUdp peer_addr false).

Definition is_closed (sock : NetSocket) : bool :=
  match sock with NsTcp closed | NsUdp _ closed => closed end.

(** [UdpDispatcher::send_to]: waiting for the socket to be writable, and sending. *)
Definition send_to (writable sent : res ()) : res () :=
  _ ← context "Socket await writable" writable;
  _ ← context "UDP socket send_to" sent;
  Ok ().

(** The result, and the bytes that the operating system has accepted for a stream. *)
Definition NetSocket_send (sock : NetSocket) (buf : list byte) (stream : list write_ev) (writable sent : res ())
    : option (res ()) * list byte :=
  match sock with
  | NsTcp closed => tcp_send closed buf stream
  | NsUdp _ true => (Some (Err "Socket is closed."), [])
  | NsUdp _ false => (Some (send_to writable sent), [])
  end.

Definition NetSocket_recv (sock : NetSocket) (stream : list read_ev) (dgrams : list recv_ev) (rx : MsgUdpDispatcherRx)
    : option (res (option (list byte))) * MsgUdpDispatcherRx :=
  match sock with
  | NsTcp closed => (tcp_recv closed stream, rx)
  | NsUdp peer_addr closed => udp_recv MSG_SIZE UDP_RX_QUEUE_SIZE closed dgrams peer_addr rx
  end.

(** [NetSocket::close]: the flag is set at once; a UDP connection that was open is then
    disconnected, which waits for the lock of the dispatcher. *)
Definition close_flag (sock : NetSocket) : NetSocket * option SocketAddr :=
  match sock with
  | NsTcp _ => (NsTcp true, None)
  | NsUdp peer_addr closed => (NsUdp peer_addr true, if closed then None else Some peer_addr)
  end.

Definition NetSocket_close (sock : NetSocket) (rx : MsgUdpDispatcherRx) : res () * NetSocket * MsgUdpDispatcherRx :=
  match close_flag sock with
  | (sock, Some peer_addr) => let (r, rx) := disconnect peer_addr rx in (r, sock, rx)
  | (sock, None) => (Ok (), sock, rx)
  end.

(** ** [Connection] (letmeind/src/server.rs) *)

Record Connection : Type := MkConnection {
  c_socket : NetSocket;
  c_peer_addr : SocketAddr;
  c_l4proto : string;
}.

Definition Connection_new (socket : NetSocket) (peer_addr : SocketAddr) (l4proto : string) : res Connection :=
  Ok (MkConnection socket peer_addr l4proto).

(** [<Connection as Drop>::drop]. *)
Definition drop_connection (c : Connection) : res () :=
  assert (is_closed (c_socket c)) "assertion failed: self.socket.is_closed()".

(** ** The connections in operation

    A connection is served until its protocol has run ([Serving]), then it is closed: the flag is
    set and, for UDP, the disconnect is still to come ([Closing]), and then the task ends. *)

Inductive phase : Type := Serving | Closing | Closed.

Record server : Type := MkServer {
  v_rx : MsgUdpDispatcherRx;
  (** the peer that the UDP accept task has accepted, not yet taken by [Server::accept] *)
  v_ready : option SocketAddr;
  v_tasks : tasks nat;
  v_conns : gmap nat (Connection * phase);
  v_next : nat;
}.

Definition server_new (num_connections : nat) : server :=
  MkServer (UdpDispatcherRx_new num_connections) None (tasks_new num_connections) ∅ 0.

Inductive srv_event : Type :=
| EvTcp (peer : SocketAddr) (nodelay : bool)
| EvUdp (ev : recv_ev)
| EvTake
| EvStart
| EvRecv (id : nat) (ev : recv_ev)
| EvClose (id : nat)
| EvDisconnect (id : nat)
| EvEnd (id : nat).

Definition set_tasks (t : tasks nat) (s : server) : server := MkServer (v_rx s) (v_ready s) t (v_conns s) (v_next s).
Definition set_rx (rx : MsgUdpDispatcherRx) (s : server) : server :=
  MkServer rx (v_ready s) (v_tasks s) (v_conns s) (v_next s).
Definition set_conns (f : gmap nat (Connection * phase) → gmap nat (Connection * phase)) (s : server) : server :=
  MkServer (v_rx s) (v_ready s) (v_tasks s) (f (v_conns s)) (v_next s).

(** [Server::accept] has returned a connection: the accept loop holds it. *)
Definition accepted_connection (c : Connection) (s : server) : option (res server) :=
  t ← task_step (v_tasks s) (Accepted (v_next s));
  Some (Ok (MkServer (v_rx s) (v_ready s) t (<[v_next s := (c, Serving)]> (v_conns s)) (S (v_next s)))).

(** ... or an error, which ends the accept loop. *)
Definition accept_failed (e : error) (s : server) : option (res server) :=
  t ← task_step (v_tasks s) (AcceptFailed e);
  Some (Ok (set_tasks t s)).

Definition accept_result (r : res Connection) (s : server) : option (res server) :=
  match r with
  | Ok c => accepted_connection c s
  | Err e => accept_failed e s
  | Panic w => Some (Panic w)
  end.

(** The task of [spawn_udp_accept]: one iteration of the loop of [UdpDispatcher::accept]; the task
    ends with the first peer. *)
Definition udp_accept_task (ev : recv_ev) (s : server) : option (res server) :=
  match v_ready s with
  | Some _ => None
  | None =>
      match try_accept MSG_SIZE UDP_RX_QUEUE_SIZE ev (v_rx s) with
      | (Ok peer, rx, _) => Some (Ok (MkServer rx peer (v_tasks s) (v_conns s) (v_next s)))
      | (Err e, _, _) => Some (Err e)
      | (Panic w, _, _) => Some (Panic w)
      end
  end.

(** A connection that a task works on. *)
Definition served (id : nat) (s : server) : option (Connection * phase) :=
  if bool_decide (id ∈ running (v_tasks s)) then v_conns s !! id else None.

(** One step; [None] if the event cannot happen now, a panic if the process aborts. *)
Definition srv_step (s : server) (ev : srv_event) : option (res server) :=
  match ev with
  | EvTcp peer nodelay =>
      accept_result (ns ← from_tcp (if nodelay then Ok () else Err "set_nodelay"); Connection_new ns peer "TCP") s
  | EvUdp ev => udp_accept_task ev s
  | EvTake =>
      peer ← v_ready s;
      accept_result (ns ← from_udp peer; Connection_new ns peer "UDP")
        (MkServer (v_rx s) None (v_tasks s) (v_conns s) (v_next s))
  | EvStart => t ← task_step (v_tasks s) Started; Some (Ok (set_tasks t s))
  | EvRecv id ev =>
      match served id s with
      | Some (c, Serving) =>
          match NetSocket_recv (c_socket c) [] [ev] (v_rx s) with
          | (Some (Panic w), _) => Some (Panic w)
          | (_, rx) => Some (Ok (set_rx rx s))
          end
      | _ => None
      end
  | EvClose id =>
      match served id s with
      | Some (c, Serving) =>
          let (ns, to_disconnect) := close_flag (c_socket c) in
          let c := MkConnection ns (c_peer_addr c) (c_l4proto c) in
          let ph := match to_disconnect with Some _ => Closing | None => Closed end in
          Some (Ok (set_conns <[id := (c, ph)]> s))
      | _ => None
      end
  | EvDisconnect id =>
      match served id s with
      | Some (c, Closing) =>
          match disconnect (c_peer_addr c) (v_rx s) with
          | (Ok _, rx) => Some (Ok (set_conns <[id := (c, Closed)]> (set_rx rx s)))
          | (Err e, _) => Some (Err e)
          | (Panic w, _) => Some (Panic w)
          end
      | _ => None
      end
  | EvEnd id =>
      match served id s with
      | Some (c, Closed) =>
          t ← task_step (v_tasks s) (Finished id);
          Some (_ ← drop_connection c; Ok (set_conns (delete id) (set_tasks t s)))
      | _ => None
      end
  end.

(** The end of the process: [async_main] returns and the runtime drops all tasks, with the
    connections that they hold. *)
Definition process_exit (s : server) : res () :=
  foldM (λ _ (c : nat * (Connection * phase)), drop_connection c.2.1) () (map_to_list (v_conns s)).

(** A datagram for a full receive queue. *)
Definition ev_overflows (s : server) (ev : srv_event) : bool :=
  match ev with
  | EvUdp ev | EvRecv _ ev => overflows MSG_SIZE UDP_RX_QUEUE_SIZE ev (v_rx s)
  | _ => false
  end.

Inductive srv_reach (num : nat) : server → Prop :=
| srv_start : srv_reach num (server_new num)
| srv_next s ev s' :
    srv_reach num s → ev_overflows s ev = false → srv_step s ev = Some (Ok s') → srv_reach num s'.

(** ** The invariant *)

(** The peer whose dispatcher connection belongs to a connection: until it is disconnected. *)
Definition attached (c : Connection * phase) : option SocketAddr :=
  match c_socket c.1, c.2 with NsUdp a _, (Serving | Closing) => Some a | _, _ => None end.

Lemma attached_closed c : attached (c, Closed) = None.
Proof. unfold attached. simpl. by destruct (c_socket c). Qed.

(** Who holds a dispatcher connection: the result of the accept task, or a connection. *)
Definition holds (s : server) (h : option nat) (a : SocketAddr) : Prop :=
  match h with None => v_ready s = Some a | Some id => ∃ c, v_conns s !! id = Some c ∧ attached c = Some a end.

(** The closed-flag tells the phase; only UDP connections are disconnected. *)
Record conn_ok (c : Connection * phase) : Prop := {
  ck_closed : is_closed (c_socket c.1) = match c.2 with Serving => false | _ => true end;
  ck_peer : ∀ a b, c_socket c.1 = NsUdp a b → c_peer_addr c.1 = a;
  ck_closing : c.2 = Closing → ∃ a b, c_socket c.1 = NsUdp a b;
}.

Record srv_inv (num : nat) (s : server) : Prop := {
  vi_rx : rx_inv UDP_RX_QUEUE_SIZE (v_rx s);
  vi_max : max_nr_conn (v_rx s) = num;
  vi_next : ∀ id, is_Some (v_conns s !! id) → id < v_next s;
  vi_conns : map_Forall (λ _, conn_ok) (v_conns s);
  vi_unique : ∀ h1 h2 a, holds s h1 a → holds s h2 a → h1 = h2;
  vi_accepted : ∀ a, is_accepted (v_rx s) a = true ↔ ∃ h, holds s h a;
}.

Lemma srv_inv_new num : srv_inv num (server_new num).
Proof.
  split; simpl; [apply rx_inv_new|done|by intros ? [? ?]|done| |].
  - intros [id|] h2 a; simpl; [|done]. intros (c & Hc & _). done.
  - intros a. split; [done|]. intros [[id|] Hh]; simpl in Hh; [|done]. by destruct Hh as (? & ? & _).
Qed.

(** The same dispatcher connections, held by the same. *)
Lemma srv_inv_same num s s' :
  srv_inv num s → v_rx s' = v_rx s → (∀ id, is_Some (v_conns s' !! id) → id < v_next s') →
  map_Forall (λ _, conn_ok) (v_conns s') → (∀ h a, holds s' h a ↔ holds s h a) → srv_inv num s'.
Proof.
  intros [Hrx Hm Hn Hc Hu Ha] E Hn' Hc' Hh. split; rewrite ?E; try done.
  - intros h1 h2 a H1%Hh H2%Hh. by eapply Hu.
  - intros a. rewrite Ha. by setoid_rewrite Hh.
Qed.

Lemma srv_inv_tasks num s t : srv_inv num s → srv_inv num (set_tasks t s).
Proof. by intros [? ? ? ? ? ?]. Qed.

(** The dispatcher changes, but not which connections are accepted. *)
Lemma srv_inv_rx num s rx :
  srv_inv num s → rx_inv UDP_RX_QUEUE_SIZE rx → max_nr_conn rx = num →
  (∀ a, is_accepted rx a = is_accepted (v_rx s) a) → srv_inv num (set_rx rx s).
Proof. intros [? ? ? ? ? Ha] Hrx Hm Hacc. split; [done..|]. intros a. simpl. rewrite Hacc. apply Ha. Qed.

(** A new TCP connection. *)
Lemma srv_inv_tcp num s c r :
  accepted_connection c s = Some r → srv_inv num s → conn_ok (c, Serving) → attached (c, Serving) = None →
  ∃ s', r = Ok s' ∧ srv_inv num s'.
Proof.
  unfold accepted_connection. intros (t & _ & [= <-])%bind_Some Hi Hok Hat. eexists. split; [done|].
  assert (Hfresh : v_conns s !! v_next s = None).
  { apply eq_None_not_Some. intros Hs%(vi_next _ _ Hi). lia. }
  apply (srv_inv_same _ _ _ Hi); simpl; [done| | |].
  - intros id. rewrite lookup_insert. case_decide; [lia|]. intros Hs%(vi_next _ _ Hi). lia.
  - apply map_Forall_insert_2; [done|apply Hi].
  - intros [id|] a; simpl; [|done]. rewrite lookup_insert. case_decide as E; [subst id|done].
    rewrite Hfresh. split; [intros (x & [= <-] & E); congruence|by intros (? & ? & _)].
Qed.

(** A new connection for the peer that is ready. *)
Lemma srv_inv_take num s ready c r :
  accepted_connection c s = Some r → v_ready s = None →
  srv_inv num (MkServer (v_rx s) ready (v_tasks s) (v_conns s) (v_next s)) →
  conn_ok (c, Serving) → attached (c, Serving) = ready → ∃ s', r = Ok s' ∧ srv_inv num s'.
Proof.
  unfold accepted_connection. intros (t & _ & [= <-])%bind_Some Hr [Hrx Hm Hn Hc Hu Ha] Hok Hat.
  eexists. split; [done|]. simpl in *.
  assert (Hfresh : v_conns s !! v_next s = None).
  { apply eq_None_not_Some. intros Hs. apply Hn in Hs. lia. }
  assert (Hh : ∀ h a, holds (MkServer (v_rx s) (v_ready s) t (<[v_next s := (c, Serving)]> (v_conns s)) (S (v_next s))) h a ↔
    holds (MkServer (v_rx s) ready (v_tasks s) (v_conns s) (v_next s))
      (if decide (h = Some (v_next s)) then None else h) a ∧ h ≠ None).
  { intros [id|] a; simpl.
    - case_decide as E; simpl.
      + injection E as ->. setoid_rewrite lookup_insert_eq. split; [intros (? & [= <-] & E); split; congruence|].
        intros [E _]. exists (c, Serving). split; [done|congruence].
      + rewrite lookup_insert_ne by congruence. naive_solver.
    - rewrite Hr. naive_solver. }
  split; simpl; [done|done| | | |].
  - intros id. rewrite lookup_insert. case_decide; [lia|]. intros Hs%Hn. lia.
  - by apply map_Forall_insert_2.
  - intros h1 h2 a [H1 Hn1]%Hh [H2 Hn2]%Hh. pose proof (Hu _ _ _ H1 H2) as E. by repeat case_decide; congruence.
  - intros a. rewrite Ha. split; intros [h Hx].
    + destruct h as [id|].
      * exists (Some id). apply Hh. split; [|done]. rewrite decide_False; [done|]. intros [= ->].
        destruct Hx as (x & Hx & _). simpl in Hx. congruence.
      * exists (Some (v_next s)). apply Hh. by rewrite decide_True.
    + apply Hh in Hx as [Hx _]. by eexists.
Qed.

(** A connection changes its state, but keeps its dispatcher connection. *)
Lemma srv_inv_update num s id c c' :
  srv_inv num s → v_conns s !! id = Some c → conn_ok c' → attached c' = attached c →
  srv_inv num (set_conns <[id := c']> s).
Proof.
  intros Hi Hid Hok Hat. apply (srv_inv_same _ _ _ Hi); simpl; [done| | |].
  - intros i. rewrite lookup_insert. case_decide; [subst i; intros _; apply (vi_next _ _ Hi); by eexists|apply Hi].
  - apply map_Forall_insert_2; [done|apply Hi].
  - intros [i|] a; simpl; [|done]. rewrite lookup_insert. case_decide as E; [subst i|done].
    rewrite Hid. split; intros (x & [= <-] & Hx); eexists; (split; [done|congruence]).
Qed.

Lemma srv_inv_disconnect num s id c rx u :
  srv_inv num s → v_conns s !! id = Some (c, Closing) → disconnect (c_peer_addr c) (v_rx s) = (Ok u, rx) →
  srv_inv num (set_conns <[id := (c, Closed)]> (set_rx rx s)).
Proof.
  intros [Hrx Hm Hn Hc Hu Ha] Hid Hd. pose proof (disconnect_inv _ _ _ _ _ Hrx Hd) as (_ & Hrx' & _).
  destruct (Hc _ _ Hid) as [Hcl Hpeer Hcg]. destruct (Hcg eq_refl) as (p & b & Hp). simpl in *.
  pose proof (Hpeer _ _ Hp) as Epeer.
  assert (Hat : attached (c, Closing) = Some p) by (unfold attached; simpl; by rewrite Hp).
  assert (Hhold : holds s (Some id) p) by (by exists (c, Closing)).
  assert (Hh : ∀ h a, holds (set_conns <[id := (c, Closed)]> (set_rx rx s)) h a ↔ holds s h a ∧ a ≠ p).
  { intros [i|] a; simpl.
    - rewrite lookup_insert. case_decide as E.
      + subst i. rewrite Hid. split.
        * intros (x & [= <-] & E). by rewrite attached_closed in E.
        * intros [(x & [= <-] & E) Hne]. congruence.
      + split; [|tauto]. intros Hx. split; [done|]. intros ->. apply E.
        pose proof (Hu (Some id) (Some i) p Hhold Hx). congruence.
    - split; [|tauto]. intros Hx. split; [done|]. intros ->. by pose proof (Hu (Some id) None p Hhold Hx). }
  split; simpl; [done| | | | |].
  - unfold disconnect in Hd. destruct (_ <? _); [done|]. destruct (_ && _); [done|]. by injection Hd as _ <-.
  - intros i. rewrite lookup_insert. case_decide; [subst i; intros _; apply Hn; by eexists|apply Hn].
  - apply map_Forall_insert_2; [|done]. split; simpl; [by rewrite Hcl|done|done].
  - intros h1 h2 a [H1 _]%Hh [H2 _]%Hh. by eapply Hu.
  - intros a. rewrite (disconnect_accepted _ _ _ _ a Hd), Epeer, andb_true_iff, negb_true_iff, bool_decide_eq_false, Ha.
    setoid_rewrite Hh. naive_solver.
Qed.

(** A closed connection is dropped. *)
Lemma srv_inv_end num s id c : srv_inv num s → v_conns s !! id = Some (c, Closed) → srv_inv num (set_conns (delete id) s).
Proof.
  intros Hi Hid. apply (srv_inv_same _ _ _ Hi); simpl; [done| | |].
  - intros i [x [_ Hx]%lookup_delete_Some]. apply (vi_next _ _ Hi). by eexists.
  - apply map_Forall_delete, Hi.
  - intros [i|] a; simpl; [|done]. rewrite lookup_delete. case_decide as E; [subst i|done].
    rewrite Hid. split; [by intros (? & ? & _)|]. intros (x & [= <-] & E). by rewrite attached_closed in E.
Qed.

(** The accept task has found a peer, or nothing. *)
Lemma srv_inv_udp num s peer rx :
  srv_inv num s → v_ready s = None → rx_inv UDP_RX_QUEUE_SIZE rx → max_nr_conn rx = num →
  match peer with
  | Some p => is_accepted (v_rx s) p = false ∧ ∀ a, is_accepted rx a = bool_decide (p = a) || is_accepted (v_rx s) a
  | None => ∀ a, is_accepted rx a = is_accepted (v_rx s) a
  end → srv_inv num (MkServer rx peer (v_tasks s) (v_conns s) (v_next s)).
Proof.
  intros [Hrx Hm Hn Hc Hu Ha] Hr Hrx' Hm' Hp.
  assert (Hh : ∀ h a, holds (MkServer rx peer (v_tasks s) (v_conns s) (v_next s)) h a ↔
    h = None ∧ peer = Some a ∨ holds s h a).
  { intros [id|] a; simpl; [naive_solver|]. rewrite Hr. naive_solver. }
  split; simpl; [done|done|done|done| |].
  - intros h1 h2 a. rewrite !Hh. destruct peer as [p|]; [|intros [[_ ?]|H1] [[_ ?]|H2]; by eauto].
    destruct Hp as [Hp _].
    assert (Hno : ∀ h, ¬ holds s h p) by (intros h Hx; by rewrite (proj2 (Ha p)) in Hp by eauto).
    intros [[-> ?]|H1] [[-> ?]|H2]; simplify_eq; [done|by apply Hno in H2|by apply Hno in H1|by eapply Hu].
  - intros a. setoid_rewrite Hh. destruct peer as [p|].
    + destruct Hp as [_ ->]. rewrite orb_true_iff, bool_decide_eq_true, Ha. naive_solver.
    + rewrite Hp, Ha. naive_solver.
Qed.

(** No step panics, and every step keeps the invariant, unless a receive queue overflows. *)
Lemma srv_step_inv num s ev r :
  srv_inv num s → ev_overflows s ev = false → srv_step s ev = Some r → ∃ s', r = Ok s' ∧ srv_inv num s'.
Proof.
  intros Hi Hov. assert (HQ : 0 < UDP_RX_QUEUE_SIZE) by (unfold UDP_RX_QUEUE_SIZE; lia).
  assert (Hserved : ∀ id c, served id s = Some c → v_conns s !! id = Some c).
  { intros id c. unfold served. by case_bool_decide. }
  destruct ev as [peer nodelay|ev| | |id ev|id|id|id]; simpl in *.
  - destruct nodelay; simpl.
    + intros Hr. eapply srv_inv_tcp; [exact Hr|done|by split|done].
    + intros (t & _ & [= <-])%bind_Some. eexists. split; [done|]. by apply srv_inv_tasks.
  - unfold udp_accept_task. destruct (v_ready s) eqn:Er; [done|].
    destruct (try_accept MSG_SIZE UDP_RX_QUEUE_SIZE ev (v_rx s)) as [[rr rx] ns] eqn:E.
    destruct (try_accept_inv _ _ _ _ _ _ _ (vi_rx _ _ Hi) HQ Hov E) as (Herr & Hp & Hrx & _).
    pose proof (try_accept_accepted _ _ _ _ _ _ _ (vi_rx _ _ Hi) HQ Hov E) as Hacc.
    pose proof (try_accept_max MSG_SIZE UDP_RX_QUEUE_SIZE ev (v_rx s)) as Hmax. rewrite E in Hmax.
    destruct rr as [peer|e|w]; [|done..]. intros [= <-]. eexists. split; [done|].
    apply srv_inv_udp; [done|done|done| |by destruct peer]. simpl in Hmax. rewrite Hmax. apply Hi.
  - intros (peer & Er & Hr)%bind_Some. eapply (srv_inv_take _ _ (Some peer)); [exact Hr|done| | |done].
    + simpl. rewrite <- Er. by destruct s.
    + split; simpl; [done| |done]. by intros ? ? [= ->].
  - intros (t & _ & [= <-])%bind_Some. eexists. split; [done|]. by apply srv_inv_tasks.
  - destruct (served id s) as [[c []]|] eqn:Es; [|done..]. apply Hserved in Es.
    unfold NetSocket_recv. destruct (vi_conns _ _ Hi _ _ Es) as [Hcl _ _]. simpl in Hcl.
    destruct (c_socket c) as [b|a b]; simpl in Hcl; subst b; simpl.
    { intros [= <-]. eexists. split; [done|]. by destruct s. }
    destruct (try_recv_from MSG_SIZE UDP_RX_QUEUE_SIZE ev a (v_rx s)) as [[rr rx] ns] eqn:E.
    destruct (try_recv_from_inv _ _ _ _ _ _ _ _ (vi_rx _ _ Hi) HQ Hov E) as [Hp Hrx].
    pose proof (try_recv_from_max MSG_SIZE UDP_RX_QUEUE_SIZE ev a (v_rx s)) as Hmax. rewrite E in Hmax. simpl in Hmax.
    assert (Hi' : srv_inv num (set_rx rx s)).
    { apply srv_inv_rx; [done|done|rewrite Hmax; apply Hi|]. intros a'.
      by eapply (try_recv_from_accepted _ _ _ _ _ _ _ _ a' (vi_rx _ _ Hi)). }
    destruct rr as [[buf|]|e|w]; [| | |done]; intros [= <-]; by eexists.
  - destruct (served id s) as [[c []]|] eqn:Es; [|done..]. apply Hserved in Es.
    destruct (vi_conns _ _ Hi _ _ Es) as [Hcl Hpeer _]. simpl in *. unfold close_flag.
    destruct (c_socket c) as [b|a b] eqn:Ec; simpl in *; subst b; intros [= <-]; (eexists; split; [done|]);
      eapply srv_inv_update; try done; unfold attached; simpl; rewrite ?Ec; try done; split; simpl; try done.
    + by intros ? ? [= -> _]; eapply Hpeer.
    + intros _. by do 2 eexists.
  - destruct (served id s) as [[c []]|] eqn:Es; [done| |done..]. apply Hserved in Es.
    destruct (disconnect (c_peer_addr c) (v_rx s)) as [rr rx] eqn:Ed.
    destruct (disconnect_inv _ _ _ _ _ (vi_rx _ _ Hi) Ed) as (-> & _ & _). intros [= <-].
    eexists. split; [done|]. by eapply srv_inv_disconnect.
  - destruct (served id s) as [[c []]|] eqn:Es; [done..| |done]. apply Hserved in Es.
    intros (t & _ & [= <-])%bind_Some. unfold drop_connection.
    destruct (vi_conns _ _ Hi _ _ Es) as [Hcl _ _]. simpl in *. rewrite Hcl. simpl. eexists. split; [done|].
    eapply (srv_inv_end num (set_tasks t s)); [by apply srv_inv_tasks|done].
Qed.

Lemma srv_reach_inv num s : srv_reach num s → srv_inv num s.
Proof.
  induction 1 as [|s ev s' _ IH Hov Hs]; [apply srv_inv_new|].
  by destruct (srv_step_inv _ _ _ _ IH Hov Hs) as (? & [= <-] & ?).
Qed.

(** The peers of the UDP connections that are not disconnected. *)
Definition udp_peers (s : server) : list SocketAddr := omap (λ c, attached c.2) (map_to_list (v_conns s)).

Lemma elem_of_udp_peers s a : a ∈ udp_peers s ↔ ∃ id, holds s (Some id) a.
Proof.
  unfold udp_peers. rewrite list_elem_of_omap. split.
  - intros ([id c] & Hin%elem_of_map_to_list & Hc). by exists id, c.
  - intros (id & c & Hid & Hc). exists (id, c). by rewrite elem_of_map_to_list.
Qed.

Lemma udp_peers_bound num s : srv_inv num s → NoDup (udp_peers s) ∧ length (udp_peers s) <= num.
Proof.
  intros Hi. assert (Hnd : NoDup (udp_peers s)).
  { apply NoDup_omap_inj; [apply NoDup_map_to_list|].
    intros [i x] [j y] a Hx%elem_of_map_to_list Hy%elem_of_map_to_list Hxa Hya.
    assert (Some i = Some j) as [= ->] by (eapply (vi_unique _ _ Hi); by eexists). simplify_eq. done. }
  split; [done|]. rewrite <- (vi_max _ _ Hi). etrans; [|apply (ri_size _ _ (vi_rx _ _ Hi))].
  rewrite <- size_dom, <- (size_list_to_set (C := gset SocketAddr)) by done. apply subseteq_size.
  intros a Ha%elem_of_list_to_set%elem_of_udp_peers. apply elem_of_dom.
  assert (Hacc : is_accepted (v_rx s) a = true) by (apply (vi_accepted _ _ Hi); destruct Ha as [id ?]; by exists (Some id)).
  unfold is_accepted in Hacc. destruct (conn (v_rx s) !! a); [by eexists|done].
Qed.

Lemma drop_all_spec (cs : list (nat * (Connection * phase))) :
  let r := foldM (λ _ (c : nat * (Connection * phase)), drop_connection c.2.1) () cs in
  (r = Ok () ∨ is_panic r = true) ∧ (r = Ok () ↔ ∀ c, c ∈ cs → is_closed (c_socket c.2.1) = true).
Proof.
  induction cs as [|c cs IH]; simpl in *; [split; [by left|]; split; [by intros _ ? ?%elem_of_nil|done]|].
  assert (Hd : drop_connection c.2.1 = if is_closed (c_socket c.2.1) then Ok () else Panic "assertion failed: self.socket.is_closed()").
  { unfold drop_connection. by destruct (is_closed _). }
  rewrite Hd. destruct (is_closed (c_socket c.2.1)) eqn:E; simpl.
  - destruct IH as [Hr IH]. split; [done|]. rewrite IH. setoid_rewrite elem_of_cons. naive_solver.
  - split; [by right|]. split; [done|]. intros Hall. rewrite Hall in E by (by left). done.
Qed.

Lemma process_exit_spec num s :
  srv_inv num s →
  (process_exit s = Ok () ∨ is_panic (process_exit s) = true) ∧
  (process_exit s = Ok () ↔ ∀ id c ph, v_conns s !! id = Some (c, ph) → ph ≠ Serving).
Proof.
  intros Hi. destruct (drop_all_spec (map_to_list (v_conns s))) as [Hr He]. split; [exact Hr|].
  unfold process_exit. rewrite He. clear Hr He.
  assert (Hcl : ∀ id c ph, v_conns s !! id = Some (c, ph) → is_closed (c_socket c) = true ↔ ph ≠ Serving).
  { intros id c ph Hid. pose proof (ck_closed _ (vi_conns _ _ Hi _ _ Hid)) as Hc. simpl in Hc. rewrite Hc. by destruct ph. }
  split.
  - intros Hall id c ph Hid. apply (Hcl _ _ _ Hid), (Hall (id, (c, ph))). by apply elem_of_map_to_list.
  - intros Hall [id [c ph]] Hin%elem_of_map_to_list. eapply Hcl, Hall; exact Hin.
Qed.

(** A datagram that the dispatcher rejects ends the wait of whoever receives it. *)
Lemma recv_rejected ev (rx rx' : MsgUdpDispatcherRx) e ns a closed :
  try_recv MSG_SIZE UDP_RX_QUEUE_SIZE ev rx = (Err e, rx', ns) → closed = false →
  NetSocket_recv (NsUdp a closed) [] [ev] rx = (Some (Err e), rx').
Proof. intros E ->. unfold NetSocket_recv, udp_recv. simpl. unfold try_recv_from. by rewrite E. Qed.

End sessions.

Arguments NetSocket : clear implicits.
Arguments Connection : clear implicits.
Arguments server SocketAddr {_ _}.
Arguments srv_event : clear implicits.


(** ** Properties *)

(** C21 (bounds). The UDP sessions of the control daemon. As long as no receive queue overflows, in every
    interleaving of accepting, serving, closing and ending connections, with any datagrams: no step
    panics (no assertion of the dispatcher, no underflow, no connection dropped unclosed); the
    connections that are not disconnected have different peers, and there are at most as many as the
    limit. The TCP connections, in contrast, are not limited. *)
Theorem udp_sessions_bounded `{HashOrder} {SocketAddr : Type} `{Countable SocketAddr} (num : nat) (s : server SocketAddr) :
  srv_reach num s →
  (∀ ev r, ev_overflows s ev = false → srv_step s ev = Some r → ∃ s', r = Ok s') ∧
  NoDup (udp_peers s) ∧ length (udp_peers s) <= num ∧
  ∀ a, a ∈ udp_peers s → is_accepted (v_rx s) a = true.
Proof.
  intros Hi%srv_reach_inv. destruct (udp_peers_bound num s Hi) as [Hnd Hlen]. split_and!; [|done..|].
  - intros ev r Hov Hs. destruct (srv_step_inv _ _ _ _ Hi Hov Hs) as (s' & -> & _). by exists s'.
  - intros a [id Ha]%elem_of_udp_peers. apply (vi_accepted _ _ Hi). by exists (Some id).
Qed.

(** C22 (error). The end of the process panics unless every connection has been closed: a connection
    that has been accepted, whether it waits for its permit or its protocol runs, turns the end of
    the daemon into an abort, also if the daemon was asked to terminate. *)
Theorem exit_needs_closed_connections `{HashOrder} {SocketAddr : Type} `{Countable SocketAddr} (num : nat) (s : server SocketAddr) :
  srv_reach num s →
  (process_exit s = Ok () ↔ ∀ id c ph, v_conns s !! id = Some (c, ph) → ph ≠ Serving) ∧
  ∀ peer s', srv_step s (EvTcp peer true) = Some (Ok s') → srv_reach num s' ∧ is_panic (process_exit s') = true.
Proof.
  intros Hr. pose proof (srv_reach_inv _ _ Hr) as Hi. split; [by apply (process_exit_spec num)|]. intros peer s' Hs.
  pose proof (srv_next num s (EvTcp peer true) s' Hr eq_refl Hs) as Hr'. split; [done|].
  destruct (process_exit_spec num _ (srv_reach_inv _ _ Hr')) as [[E|?] Hex]; [|done].
  exfalso. rewrite Hex in E. simpl in Hs. unfold accepted_connection in Hs. apply bind_Some in Hs as (t & _ & [= <-]).
  by eapply E; [apply lookup_insert_eq|].
Qed.

(** C23 (error). Anybody can end the session of another peer: while the task of a UDP session waits for a
    message, a datagram of the wrong size from any address, or one from a new address when the table
    of connections is full, makes the receive of that session fail; the dispatcher keeps the same
    connections. Whether it was waiting for the initial message or, after a complete first half of an
    honest authentication, for the response, the session then ends with an error. *)
Theorem foreign_datagram_ends_session `{Crypto} `{HashOrder} {SocketAddr : Type} `{Countable SocketAddr} (num : nat)
    (s : server SocketAddr) id c (a b : SocketAddr) n buf conf peer_ip p knock key resource pt salt nonce response :
  srv_reach num s → served id s = Some (c, Serving) → c_socket c = NsUdp a false →
  n ≠ MSG_SIZE ∨ conn (v_rx s) !! b = None ∧ size (conn (v_rx s)) = num →
  good_session conf knock key resource pt salt nonce response →
  let d := c_control_timeout conf in
  let received := NetSocket_recv (c_socket c) [] [RecvData n buf b] (v_rx s) in
  ∃ e, Message_recv received.1 = Some (Err e) ∧ conn received.2 = conn (v_rx s) ∧
    (∃ e' p', steps (Protocol_run conf peer_ip p) [e_recv d (Some (Err e))] (Ret (Err e', p'))) ∧
    (∃ e' p', steps (Protocol_run conf peer_ip p)
       (take 4 (auth_session conf knock salt nonce response) ++ [e_recv d (Some (Err e))]) (Ret (Err e', p'))).
Proof.
  intros Hi%srv_reach_inv Hs Hc Hn Hg d received.
  assert (Htry : ∃ e rx ns, try_recv MSG_SIZE UDP_RX_QUEUE_SIZE (RecvData n buf b) (v_rx s) = (Err e, rx, ns) ∧
    conn rx = conn (v_rx s)).
  { simpl. destruct (Nat.eqb_spec n MSG_SIZE) as [En|En]; simpl; [|by do 3 eexists].
    destruct Hn as [?|[Hb Hsz]]; [done|]. rewrite (vi_max _ _ Hi), Hb. simpl.
    rewrite (proj2 (Nat.ltb_ge _ _)) by lia. rewrite insert_insert_eq.
    rewrite map_size_insert_None, (proj2 (Nat.ltb_lt _ _)) by (done || lia).
    do 3 eexists. split; [done|]. simpl. by rewrite insert_insert_eq, delete_insert_eq, delete_id. }
  destruct Htry as (e & rx & ns & Htry & Hconn). exists e. unfold received.
  rewrite Hc, (recv_rejected _ _ _ _ _ _ _ Htry) by done.
  split_and!; [done|done|apply run_recv_error|by eapply run_recv_error_response].
Qed.

(** ** Concrete connections *)

#[local] Existing Instance toy_crypto.
#[local] Existing Instance sorted_order.

Definition sample_dgram (peer : nat) : recv_ev nat := RecvData MSG_SIZE (replicate MSG_SIZE x00) peer.

Fixpoint srv_run (s : server nat) (evs : list (srv_event nat)) : option (res (server nat)) :=
  match evs with
  | [] => Some (Ok s)
  | ev :: evs =>
      if ev_overflows s ev then None
      else match srv_step s ev with Some (Ok s) => srv_run s evs | r => r end
  end.

Lemma srv_run_reach num s evs s' : srv_reach num s → srv_run s evs = Some (Ok s') → srv_reach num s'.
Proof.
  revert s. induction evs as [|ev evs IH]; intros s Hr; simpl; [by intros [= <-]|].
  destruct (ev_overflows s ev) eqn:Eo; [done|]. destruct (srv_step s ev) as [[s1|e|w]|] eqn:E; [|done..].
  apply IH. by eapply srv_next.
Qed.

(** Two peers knock over UDP and one over TCP; all are served at once. *)
Definition sample_events : list (srv_event nat) :=
  [EvUdp (sample_dgram 7); EvTake; EvStart; EvUdp (sample_dgram 9); EvTake; EvStart; EvTcp 5 true; EvStart].
Definition sample_server : server nat :=
  match srv_run (server_new 2) sample_events with Some (Ok s) => s | _ => server_new 2 end.

Lemma sample_server_run : srv_run (server_new 2) sample_events = Some (Ok sample_server).
Proof.
  assert (Hok : match srv_run (server_new 2) sample_events with Some (Ok _) => true | _ => false end = true)
    by (vm_compute; reflexivity).
  unfold sample_server. revert Hok. by destruct (srv_run (server_new 2) sample_events) as [[]|].
Qed.

Lemma sample_server_reach : srv_reach 2 sample_server.
Proof. exact (srv_run_reach 2 _ _ _ (srv_start 2) sample_server_run). Qed.

(** From the first datagram to the end of the session; a queue too full is an overflow. *)
Example sample_lifecycle :
  match srv_run (server_new 2) [EvUdp (sample_dgram 7); EvTake; EvStart; EvRecv 0 RecvWouldBlock; EvClose 0; EvDisconnect 0; EvEnd 0] with
  | Some (Ok s) => (udp_peers s, length (running (v_tasks s)), process_exit s) = ([], 0%nat, Ok ())
  | _ => False
  end ∧
  srv_run (server_new 2) (replicate 5 (EvUdp (sample_dgram 7))) = None ∧ is_panic (process_exit sample_server) = true.
Proof. by vm_compute. Qed.

Lemma udp_sessions_bounded_witness :
  NoDup (udp_peers sample_server) ∧ length (udp_peers sample_server) = 2 ∧ length (udp_peers sample_server) <= 2.
Proof.
  destruct (udp_sessions_bounded 2 sample_server sample_server_reach) as (_ & Hnd & Hlen & _).
  split; [exact Hnd|]. split; [vm_compute; reflexivity|exact Hlen].
Defined.

Lemma exit_needs_closed_connections_witness : ∃ s : server nat, srv_reach 2 s ∧ is_panic (process_exit s) = true.
Proof.
  destruct (srv_step sample_server (EvTcp 11 true)) as [[s'|e|w]|] eqn:E.
  - exists s'. exact (proj2 (exit_needs_closed_connections 2 sample_server sample_server_reach) 11 s' E).
  - exfalso. revert E. vm_compute. discriminate.
  - exfalso. revert E. vm_compute. discriminate.
  - exfalso. revert E. vm_compute. discriminate.
Defined.

(** A datagram of one byte from address 13 ends the session of peer 7. *)
Lemma foreign_datagram_ends_session_witness :
  ∃ e, Message_recv (NetSocket_recv (NsUdp 7 false) [] [RecvData 1 [x00] 13] (v_rx sample_server)).1 = Some (Err e) ∧
    ∃ e' p', steps (Protocol_run sample_conf sample_v4 Protocol_new)
      (take 4 (auth_session sample_conf sample_knock sample_salt sample_nonce sample_response) ++
       [e_recv (c_control_timeout sample_conf) (Some (Err e))]) (Ret (Err e', p')).
Proof.
  destruct (foreign_datagram_ends_session 2 sample_server 0 (MkConnection (NsUdp 7 false) 7 "UDP") 7 13 1 [x00]
    sample_conf sample_v4 Protocol_new sample_knock sample_key sample_resource PtTcp sample_salt sample_nonce sample_response
    sample_server_reach) as (e & He & _ & _ & Hr).
  - vm_compute. reflexivity.
  - reflexivity.
  - left. discriminate.
  - exact sample_good_session.
  - exists e. split; [exact He|exact Hr].
Defined.
