(* ===== verification/OsUsers.v ===== *)
(** * Users, groups and the rule verification (letmeinfwd/src/uid_gid.rs, verify.rs)

    The lookup of the user and group [letmeind] in the system databases, whose content is a
    parameter, and the test command that looks for a firewall rule. *)

From Stdlib Require Import Ascii.
From S2P Require Import Prelude Prog Str Proto FwProto Addr Conf Nftables NftSpec NftOps Client Os.
Local Open Scope Z_scope.

(** ** [str::splitn]: at most [n] pieces, the last one with everything that remains. *)

Fixpoint splitn (n : nat) (c : Z) (s : str) : list str :=
  match n with
  | O => []
  | S O => [s]
  | S n => match find_char c s with Some (a, b) => a :: splitn n c b | None => [s] end
  end.

Section lookup.
Context (fields : nat) (db idn what : string).

(** One line: [None] for another name, otherwise the third field as a number. *)
Definition id_of_line (wanted : str) (line : str) : option (res u32) :=
  match splitn fields (ch ":") line with
  | [] => Some (Err ("Get " +:+ db +:+ " name"))
  | name :: rest =>
      if bool_decide (name = wanted) then
        Some match rest with
             | [] => Err ("Get " +:+ db +:+ " password")
             | [_] => Err ("Get " +:+ db +:+ " " +:+ idn)
             | _ :: id :: _ => context ("Parse " +:+ db +:+ " " +:+ idn) (parse_uint u32_max id)
             end
      else None
  end.

(** The loop over the lines returns at the first one with the name. *)
Fixpoint id_of_lines (wanted : str) (ls : list str) : res u32 :=
  match ls with
  | [] => Err what
  | line :: ls => match id_of_line wanted line with Some r => r | None => id_of_lines wanted ls end
  end.

Definition id_of_file (file : res str) (wanted : str) : res u32 :=
  data ← context ("Read /etc/" +:+ db +:+ " database") file;
  id_of_lines wanted (lines data).

End lookup.

(** [/etc/passwd] has seven fields, [/etc/group] four. *)
Definition os_get_uid (passwd : res str) (user_name : str) : res u32 :=
  id_of_file 7 "passwd" "uid" "User not found in /etc/passwd" passwd user_name.
Definition os_get_gid (group : res str) (group_name : str) : res u32 :=
  id_of_file 4 "group" "gid" "Group not found in /etc/group" group group_name.

(** [read_etc_passwd]: the identities that [accept_check] compares with; in test mode they stay at
    their initial value. *)
Definition read_etc_passwd {J} `{Sub os_iface J} (test_mode : bool) : prog J (res (u32 * u32)) :=
  (if negb test_mode then
    let* passwd := os (OsReadText (lit "/etc/passwd")) in
    let? uid := Ret (os_get_uid passwd (lit "letmeind")) in
    let* group := os (OsReadText (lit "/etc/group")) in
    let? gid := Ret (os_get_gid group (lit "letmeind")) in
    Ret (Ok (uid, gid))
  else Ret (Ok (u32_max, u32_max)))%prog.

(** ** Databases that are well formed *)

(** An entry: the name, the password, the number, and the text of the other fields. *)
Record entry : Type := MkEntry { e_name : str; e_pw : str; e_id : u32; e_rest : str }.

Definition render_entry (e : entry) : str :=
  e_name e ++ ch ":" :: e_pw e ++ ch ":" :: show_dec (e_id e) ++ ch ":" :: e_rest e.

Record entry_ok (e : entry) : Prop := {
  eo_name : ch ":" ∉ e_name e ∧ 10 ∉ e_name e;
  eo_pw : ch ":" ∉ e_pw e ∧ 10 ∉ e_pw e;
  eo_id : fits 32 (e_id e);
  eo_rest : 10 ∉ e_rest e ∧ last (e_rest e) ≠ Some 13;
}.

Lemma show_dec_chars z c : c ∈ show_dec z → 48 <= c <= 57.
Proof.
  intros Hc. pose proof (show_radix_valid 10 false z ltac:(lia)) as Hf. rewrite Forall_forall in Hf.
  destruct (Hf c Hc) as [d Hd]. pose proof (to_digit_bounds 10 c d ltac:(lia) Hd) as [Hdb _].
  revert Hd. unfold to_digit. repeat (case_match; try done); intros; simplify_eq; lia.
Qed.

Lemma splitn_cons n c a b : (2 <= n)%nat → c ∉ a → splitn n c (a ++ c :: b) = a :: splitn (pred n) c b.
Proof.
  intros Hn Ha. destruct n as [|[|n]]; [lia..|]. cbn [splitn pred].
  by rewrite Ini.find_char_app.
Qed.

Lemma id_of_line_entry n db idn wanted e :
  (4 <= n)%nat → entry_ok e →
  id_of_line n db idn wanted (render_entry e) = if bool_decide (e_name e = wanted) then Some (Ok (e_id e)) else None.
Proof.
  intros Hn [[Hname _] [Hpw _] Hid _]. unfold id_of_line, render_entry.
  assert (ch ":" ∉ show_dec (e_id e)) as Hd by (intros Hc%show_dec_chars; change (ch ":") with 58 in Hc; lia).
  rewrite !splitn_cons by (done || lia). case_bool_decide; [|done]. do 2 f_equal.
  unfold parse_uint. change (show_dec (e_id e)) with (replicate 0 (ch "0") ++ show_radix 10 false (e_id e)).
  rewrite from_str_radix_padded; [done|lia|]. unfold fits, u32_max in *. lia.
Qed.

Lemma render_entry_line e : entry_ok e → (10 ∉ render_entry e) ∧ last (render_entry e) ≠ Some 13.
Proof.
  intros [[_ Hname] [_ Hpw] _ [Hrest Hcr]]. unfold render_entry. split.
  - rewrite !elem_of_app, !elem_of_cons, !elem_of_app, !elem_of_cons, !elem_of_app, !elem_of_cons.
    intros [?|[?|[?|[?|[Hd|[?|?]]]]]]; try done. apply show_dec_chars in Hd. lia.
  - rewrite !last_app, !last_cons, !last_app, !last_cons, !last_app, !last_cons. by destruct (last (e_rest e)).
Qed.

(** In a well-formed database, the lookup of a user (or group) gives the number of the
    first entry with that name, for every name, and an error if there is none. *)
Lemma os_get_id_correct (es : list entry) (wanted : str) :
  Forall entry_ok es →
  let file := Ok (es ≫= (λ e, render_entry e ++ [10])) in
  let found := list_find (λ e, e_name e = wanted) es in
  os_get_uid file wanted = (match found with Some (_, e) => Ok (e_id e) | None => Err "User not found in /etc/passwd" end) ∧
  os_get_gid file wanted = (match found with Some (_, e) => Ok (e_id e) | None => Err "Group not found in /etc/group" end).
Proof.
  intros Hes file found.
  assert (Hall : ∀ n db idn what, (4 <= n)%nat → id_of_file n db idn what file wanted =
    match found with Some (_, e) => Ok (e_id e) | None => Err what end).
  { intros n db idn what Hn. unfold id_of_file, file, found. cbn [context mbind res_bind].
    assert (lines (es ≫= (λ e, render_entry e ++ [10])) = render_entry <$> es) as ->.
    { rewrite <- (lines_concat (render_entry <$> es)).
      - f_equal. clear. induction es as [|e es IH]; [done|]. cbn. by rewrite IH.
      - apply Forall_fmap. eapply Forall_impl; [exact Hes|]. intros e. apply render_entry_line. }
    clear file found. induction Hes as [|e es He Hes IH]; [done|]. cbn [fmap list_fmap id_of_lines list_find].
    rewrite id_of_line_entry by done. rewrite bool_decide_decide. destruct (decide (e_name e = wanted)); [done|].
    rewrite IH. by destruct (list_find _ es) as [[? ?]|]. }
  split; apply Hall; lia.
Qed.

(** ** The rule verification (letmeinfwd/src/verify.rs)

    The text of a rule is that of the derived [Debug] of the nftables crate; the ruleset is the answer
    of [nft]. Output is left out. *)

Section verify.
Context (debug_text : Rule → str).

(** [str::contains]. *)
Fixpoint contains (needle s : str) : bool :=
  match strip_prefix needle s with
  | Some _ => true
  | None => match s with [] => false | _ :: s' => contains needle s' end
  end.

Definition verify_comment (addr : IpAddr) (port : u16) (proto : str) : str :=
  lit "letmein_" ++ ip_display addr ++ lit "-" ++ show_dec port ++ lit "/" ++ proto.

Definition rule_matches (comment : str) (obj : NfObject) : bool :=
  match obj with ObjRule rule => contains comment (debug_text rule) | _ => false end.

Definition verify_nft_rule (ruleset : res (list NfObject)) (addr_str : str) (port : u16) (proto : str)
    (should_exist : bool) : res bool :=
  match IpAddr_from_str addr_str with
  | None => Ok false
  | Some addr =>
      let comment := verify_comment addr port proto in
      objects ← ruleset;
      let rule_exists := existsb (rule_matches comment) objects in
      Ok (if should_exist then rule_exists else negb rule_exists)
  end.

End verify.

Lemma contains_chars c needle s : contains needle s = true → c ∈ needle → c ∈ s.
Proof.
  assert (Hp : ∀ s rest, strip_prefix needle s = Some rest → s = needle ++ rest).
  { induction needle as [|a needle IH]; intros [|b l] rest; simpl; try (by intros [= <-]).
    destruct (Z.eqb_spec a b) as [->|]; [|done]. by intros ->%IH. }
  induction s as [|b s IH]; simpl; (destruct (strip_prefix needle _) as [rest|] eqn:E;
    [apply Hp in E as ->; intros _ ?; apply elem_of_app; by left|]); [done|].
  intros Hc Hin. right. by apply IH.
Qed.

Lemma no_underscore addr p : ch "_" ∉ gen_rule_comment addr p.
Proof.
  unfold gen_rule_comment. rewrite !not_elem_of_app.
  assert (Hd : ∀ n, ch "_" ∉ show_dec n) by (intros n Hc%show_dec_chars; change (ch "_") with 95 in Hc; lia).
  split_and!.
  - destruct addr as [a|]; [|by apply (bool_decide_unpack _); vm_compute].
    rewrite not_elem_of_app. split; [by apply ip_display_no_char|by apply (bool_decide_unpack _); vm_compute].
  - destruct p; simpl; rewrite not_elem_of_app; (split; [apply Hd|by apply (bool_decide_unpack _); vm_compute]).
  - by apply (bool_decide_unpack _); vm_compute.
Qed.

(** The comments that identify the rules: two rules with the same comment are for the same
    address and the same port and protocol. The comment that the verification command looks for is
    part of none of them. *)
Lemma rule_comments_identify (a b : option IpAddr) (p q : SingleLeasePort) :
  (0 <= single_number p → 0 <= single_number q → gen_rule_comment a p = gen_rule_comment b q → a = b ∧ p = q) ∧
  ∀ addr port proto, contains (verify_comment addr port proto) (gen_rule_comment a p) = false.
Proof.
  split; [apply gen_rule_comment_inj|]. intros addr port proto. apply not_true_iff_false. intros Hc.
  apply (no_underscore a p). eapply contains_chars; [exact Hc|]. unfold verify_comment.
  apply elem_of_app. left. by apply (bool_decide_unpack _); vm_compute.
Qed.
