(* ===== verification/Seccomp.v ===== *)
(** * System call filters (letmein-seccomp/src/lib.rs and seccomp.rs of the three programs)

    The rules that are handed to the compiler of the [seccompiler] crate, and what they let the
    programs do. The model is for Linux on x86_64: the items for other targets are left out. A system
    call is named by its constant in the [libc] crate. *)

From S2P Require Import Prelude Prog Str Conf Os.
Local Open Scope Z_scope.

(** ** The interface of the [seccompiler] crate *)

(** [SeccompCmpArgLen]; the only operator in use is equality. *)
Inductive CmpArgLen : Type := Dword | Qword.

#[export] Instance CmpArgLen_eq_dec : EqDecision CmpArgLen.
Proof. solve_decision. Defined.

Record SeccompCondition : Type := MkCondition { sc_arg : Z; sc_len : CmpArgLen; sc_value : Z }.

#[export] Instance SeccompCondition_eq_dec : EqDecision SeccompCondition.
Proof. solve_decision. Defined.

(** A rule is the conjunction of its conditions. *)
Abbreviation SeccompRule := (list SeccompCondition).
Abbreviation RulesMap := (gmap string (list SeccompRule)).

Inductive SeccompAction : Type := ActAllow | ActKillProcess | ActLog.

(** What the rules say about a call with the given arguments, as the documentation of the crate
    states it: a system call without rules matches; otherwise one of its rules has to match, with all
    of its conditions. A [Dword] condition looks at the lower half of the argument. *)
Definition arg_value (len : CmpArgLen) (v : Z) : Z := match len with Dword => v mod 2 ^ 32 | Qword => v end.

Definition condition_matches (args : list Z) (c : SeccompCondition) : bool :=
  match args !! Z.to_nat (sc_arg c) with
  | Some v => arg_value (sc_len c) v =? sc_value c
  | None => false
  end.

Definition matches (map : RulesMap) (sys : string) (args : list Z) : bool :=
  match map !! sys with
  | None => false
  | Some [] => true
  | Some rules => existsb (forallb (condition_matches args)) rules
  end.

(** The compiler: it may reject the rules; the program it returns decides as the rules say. *)
Class Seccompiler : Type := {
  BpfProgram : Type;
  bpf_compile : RulesMap → SeccompAction → SeccompAction → res BpfProgram;
  bpf_verdict : BpfProgram → string → list Z → SeccompAction;
  bpf_compile_ok map mismatch matched p sys args :
    bpf_compile map mismatch matched = Ok p →
    bpf_verdict p sys args = if matches map sys args then matched else mismatch;
}.

(** ** Conditions *)

Definition NULL : Z := 0.
Definition PTR : Z := 255.

(** [seccomp_cond], on a target with pointers of 64 bits. *)
Definition seccomp_cond (idx value bit_width : Z) : res SeccompCondition :=
  let bit_width := if bit_width =? PTR then 64 else bit_width in
  arglen ← (if bit_width =? 32 then
              _ ← assert (Z.land value 18446744069414584320 =? 0) "assertion failed: value & 0xFFFF_FFFF_0000_0000 == 0";
              Ok Dword
            else if bit_width =? 64 then Ok Qword
            else Panic "seccomp_cond: Invalid bit_width");
  Ok (MkCondition idx arglen value).

(** The macro [args!]: the value is converted to an [u64]. *)
Definition args_rule (conds : list (Z * Z * Z)) : res SeccompRule :=
  mapM (λ '(arg, bit_width, value), seccomp_cond arg (value mod 2 ^ 64) bit_width) conds.

(** ** Rules *)

Inductive Allow : Type :=
| Mmap | Mprotect | GetUidGid | ArchPrctl (op : option Z) | Dup | Pipe | Listen | UnixAccept | UnixConnect
| TcpAccept | TcpConnect | Netlink | SetSockOpt (level_optname : option (Z * Z)) | Access | Open | Read | Write
| Ioctl (op : option Z) | Fcntl (op : option Z) | Stat | Recv | Send | Signal | SigAction | Futex
| SetTidAddress | Rseq | Clone | Exec | Wait | GetRlimit | Uname | Pidfd.

Inductive Action : Type := Kill | Log.

Definition add_sys (map : RulesMap) (sys : string) : RulesMap := <[sys := default [] (map !! sys)]> map.
Definition add_sys_args_match (map : RulesMap) (sys : string) (rule : SeccompRule) : RulesMap :=
  <[sys := default [] (map !! sys) ++ [rule]]> map.

Definition add_all (map : RulesMap) (syss : list string) : RulesMap := foldl add_sys map syss.

(** The calls that are always allowed. *)
Definition base_rules (map : RulesMap) : RulesMap :=
  add_all map ["SYS_brk"; "SYS_close"; "SYS_close_range"; "SYS_exit"; "SYS_exit_group"; "SYS_getpid"; "SYS_getrandom";
    "SYS_gettid"; "SYS_madvise"; "SYS_munmap"; "SYS_sched_getaffinity"; "SYS_sigaltstack"; "SYS_nanosleep";
    "SYS_clock_gettime"; "SYS_clock_getres"; "SYS_clock_nanosleep"; "SYS_gettimeofday"].

Definition add_read_write_rules (map : RulesMap) : RulesMap :=
  add_all map ["SYS_epoll_create1"; "SYS_epoll_ctl"; "SYS_epoll_pwait"; "SYS_epoll_pwait2"; "SYS_epoll_wait";
    "SYS_lseek"; "SYS_poll"; "SYS_ppoll"; "SYS_pselect6"].

Definition AF_UNIX : Z := 1.
Definition AF_INET : Z := 2.
Definition AF_INET6 : Z := 10.
Definition AF_NETLINK : Z := 16.
Definition IPPROTO_TCP : Z := 6.
Definition TCP_NODELAY : Z := 1.
Definition F_GETFD : Z := 1.

Definition add_match (map : RulesMap) (sys : string) (conds : list (Z * Z * Z)) : res RulesMap :=
  rule ← args_rule conds; Ok (add_sys_args_match map sys rule).

(** The match over the features: calls on sockets and files, ... *)
Definition allow_sockets (map : RulesMap) (allow : Allow) : res RulesMap :=
  match allow with
  | Listen => Ok (add_all map ["SYS_bind"; "SYS_listen"])
  | UnixAccept =>
      let map := add_sys map "SYS_accept4" in
      map ← add_match map "SYS_socket" [(0, 32, AF_UNIX)];
      Ok (add_all map ["SYS_getsockopt"; "SYS_getpeername"])
  | UnixConnect =>
      let map := add_sys map "SYS_connect" in
      map ← add_match map "SYS_socket" [(0, 32, AF_UNIX)];
      Ok (add_all map ["SYS_getsockopt"; "SYS_getpeername"])
  | TcpAccept =>
      let map := add_sys map "SYS_accept4" in
      map ← add_match map "SYS_socket" [(0, 32, AF_INET)];
      map ← add_match map "SYS_socket" [(0, 32, AF_INET6)];
      Ok (add_all map ["SYS_getsockopt"; "SYS_getpeername"])
  | TcpConnect =>
      let map := add_sys map "SYS_connect" in
      map ← add_match map "SYS_socket" [(0, 32, AF_INET)];
      map ← add_match map "SYS_socket" [(0, 32, AF_INET6)];
      Ok (add_all map ["SYS_getsockopt"; "SYS_getpeername"])
  | Netlink =>
      let map := add_sys map "SYS_connect" in
      map ← add_match map "SYS_socket" [(0, 32, AF_NETLINK)];
      Ok (add_sys map "SYS_getsockopt")
  | SetSockOpt (Some (level, optname)) => add_match map "SYS_setsockopt" [(1, 32, level); (2, 32, optname)]
  | SetSockOpt None => Ok (add_sys map "SYS_setsockopt")
  | Recv => Ok (add_all map ["SYS_recvfrom"; "SYS_recvmsg"; "SYS_recvmmsg"])
  | Send => Ok (add_all map ["SYS_sendto"; "SYS_sendmsg"; "SYS_sendmmsg"])
  | _ => Ok map
  end.

Definition allow_files (map : RulesMap) (allow : Allow) : res RulesMap :=
  match allow with
  | Dup => Ok (add_all map ["SYS_dup"; "SYS_dup2"; "SYS_dup3"])
  | Pipe => Ok (add_all map ["SYS_pipe"; "SYS_pipe2"])
  | Access => Ok (add_all map ["SYS_access"; "SYS_faccessat"; "SYS_faccessat2"])
  | Open => Ok (add_all map ["SYS_open"; "SYS_openat"])
  | Read => Ok (add_read_write_rules (add_all map ["SYS_pread64"; "SYS_preadv2"; "SYS_read"; "SYS_readv"]))
  | Write =>
      Ok (add_read_write_rules
            (add_all map ["SYS_fdatasync"; "SYS_fsync"; "SYS_pwrite64"; "SYS_pwritev2"; "SYS_write"; "SYS_writev"]))
  | Ioctl _ => Ok (add_sys map "SYS_ioctl")
  | Fcntl (Some op) => add_match map "SYS_fcntl" [(1, 32, op)]
  | Fcntl None => Ok (add_sys map "SYS_fcntl")
  | Stat => Ok (add_all map ["SYS_fstat"; "SYS_statx"; "SYS_newfstatat"])
  | _ => Ok map
  end.

(** ... and on memory, processes and signals. *)
Definition allow_process (map : RulesMap) (allow : Allow) : res RulesMap :=
  match allow with
  | Mmap => Ok (add_all map ["SYS_mmap"; "SYS_mremap"; "SYS_munmap"])
  | Mprotect => Ok (add_sys map "SYS_mprotect")
  | GetUidGid => Ok (add_all map ["SYS_getuid"; "SYS_geteuid"; "SYS_getgid"; "SYS_getegid"])
  | ArchPrctl _ => Ok (add_sys map "SYS_arch_prctl")
  | Signal => Ok (add_all map ["SYS_rt_sigreturn"; "SYS_rt_sigprocmask"])
  | SigAction => Ok (add_sys map "SYS_rt_sigaction")
  | Futex => Ok (add_all map ["SYS_futex"; "SYS_get_robust_list"; "SYS_set_robust_list"; "SYS_futex_waitv"])
  | SetTidAddress => Ok (add_sys map "SYS_set_tid_address")
  | Rseq => Ok (add_sys map "SYS_rseq")
  | Clone => Ok (add_sys map "SYS_clone3")
  | Exec => Ok (add_sys map "SYS_execve")
  | Wait => Ok (add_sys map "SYS_wait4")
  | GetRlimit => add_match map "SYS_prlimit64" [(0, 32, 0); (2, PTR, NULL)]
  | Uname => Ok (add_sys map "SYS_uname")
  | Pidfd => Ok (add_sys map "SYS_pidfd_open")
  | _ => Ok map
  end.

(** One round of the loop; every feature belongs to one of the three parts. *)
Definition apply_allow (map : RulesMap) (allow : Allow) : res RulesMap :=
  map ← allow_sockets map allow; map ← allow_files map allow; allow_process map allow.

(** The map that is handed to [SeccompFilter::new]. *)
Definition rules_of (allow : list Allow) : res RulesMap :=
  _ ← assert (negb (bool_decide (allow = []))) "assertion failed: !allow.is_empty()";
  foldM apply_allow (base_rules ∅) allow.

Section filter.
Context `{Seccompiler}.

(** [Filter::compile_for_arch], for a supported architecture. *)
Definition compile (allow : list Allow) (deny_action : Action) : res BpfProgram :=
  map ← rules_of allow;
  context "Create seccomp filter"
    (bpf_compile map (match deny_action with Kill => ActKillProcess | Log => ActLog end) ActAllow).

End filter.

(** ** The three programs *)

(** letmeind/src/seccomp.rs. *)
Definition letmeind_ALLOW_LIST : list Allow :=
  [Mmap; Mprotect; Read; Write; Fcntl (Some F_GETFD); Recv; Send; Listen; TcpAccept; UnixConnect;
   SetSockOpt (Some (IPPROTO_TCP, TCP_NODELAY)); Signal; Futex].

(** letmeinfwd/src/seccomp.rs. *)
Definition letmeinfwd_ALLOW_LIST : list Allow :=
  [Mmap; Mprotect; GetUidGid; ArchPrctl None; Dup; Pipe; Access; Open; Read; Write; Ioctl None; Fcntl None; Stat; Recv;
   Send; Listen; UnixAccept; Netlink; SetSockOpt None; Signal; SigAction; Futex; SetTidAddress; Rseq; Clone; Exec; Wait;
   GetRlimit; Pidfd].

(** letmein/src/seccomp.rs. *)
Definition letmein_ALLOW_LIST : list Allow :=
  [Mmap; Mprotect; Open; Read; Write; Fcntl (Some F_GETFD); Stat; Recv; Send; Listen; TcpConnect;
   SetSockOpt (Some (IPPROTO_TCP, TCP_NODELAY)); Futex; Uname].

Section install.
Context `{Seccompiler}.

(** [apply_filter_all_threads]. *)
Inductive sec_cmd : Type := SecInstall (p : BpfProgram).
Definition sec_iface : iface := Iface sec_cmd (λ _, res ()).

Context {J : iface} `{Sub sec_iface J} (seccomp_supported : bool).
Local Open Scope prog_scope.

(** [Filter::install]. *)
Definition Filter_install (p : BpfProgram) : prog J (res ()) :=
  with_context "Apply seccomp filter" (perform_cmd (SecInstall p : cmd sec_iface)).

(** [do_install_seccomp_rules], the same in all programs but for the list; without support on the
    target, only a warning is printed. *)
Definition do_install_seccomp_rules (allow_list : list Allow) (seccomp : Seccomp) : prog J (res ()) :=
  match seccomp with
  | SeccompOff => Ret (Ok ())
  | _ =>
      let? action := Ret match seccomp with
                         | SeccompLog => Ok Log
                         | SeccompKill => Ok Kill
                         | SeccompOff => Panic "internal error: entered unreachable code"
                         end in
      if seccomp_supported then
        let? p := Ret (context "Compile seccomp filter" (compile allow_list action)) in
        with_context "Install seccomp filter" (Filter_install p)
      else Ret (Ok ())
  end.

(** [install_seccomp_rules]. *)
Definition install_seccomp_rules (allow_list : list Allow) (seccomp : Seccomp) : prog J (res ()) :=
  let? _ := do_install_seccomp_rules allow_list seccomp in Ret (Ok ()).

End install.

(** ** Lemmas *)

(** The map of a list that compiles; computed for the three programs. *)
Definition map_of (allow : list Allow) : RulesMap := match rules_of allow with Ok map => map | _ => ∅ end.

Lemma map_of_ok allow : is_ok (rules_of allow) = true → rules_of allow = Ok (map_of allow).
Proof. unfold map_of. by destruct (rules_of allow). Qed.

Lemma compile_verdict `{Seccompiler} allow action p sys args :
  compile allow action = Ok p →
  bpf_verdict p sys args =
    if matches (map_of allow) sys args then ActAllow else match action with Kill => ActKillProcess | Log => ActLog end.
Proof.
  unfold compile, map_of. destruct (rules_of allow) as [map|e|w]; cbn; [|done..].
  destruct (bpf_compile map _ _) as [q|e|w] eqn:E; [|done..]. intros [= <-]. by rewrite (bpf_compile_ok _ _ _ _ _ _ E).
Qed.

(** What a list amounts to: the calls without a condition, and those with rules. *)
Definition covers (map : RulesMap) (calls : list string) (conds : list (string * list SeccompRule)) : bool :=
  forallb (λ kv, match kv.2 with [] => bool_decide (kv.1 ∈ calls) | _ => bool_decide (kv ∈ conds) end) (map_to_list map) &&
  forallb (λ k, bool_decide (map !! k = Some [])) calls &&
  forallb (λ kv, bool_decide (kv.2 ≠ []) && bool_decide (map !! kv.1 = Some kv.2)) conds.

Definition rule_met (args : list Z) (rules : list SeccompRule) : Prop :=
  ∃ rule, rule ∈ rules ∧ ∀ c, c ∈ rule → condition_matches args c = true.

Lemma rule_met_existsb args rules : existsb (forallb (condition_matches args)) rules = true ↔ rule_met args rules.
Proof.
  rewrite existsb_exists. unfold rule_met. f_equiv. intros rule. rewrite <- list_elem_of_In, forallb_forall.
  by setoid_rewrite <- list_elem_of_In.
Qed.

Lemma covers_spec map calls conds sys args :
  covers map calls conds = true →
  matches map sys args = true ↔ sys ∈ calls ∨ ∃ rules, (sys, rules) ∈ conds ∧ rule_met args rules.
Proof.
  unfold covers. rewrite !andb_true_iff, !forallb_forall. intros [[Hm Hc] Hr].
  setoid_rewrite <- list_elem_of_In in Hm. setoid_rewrite <- list_elem_of_In in Hc. setoid_rewrite <- list_elem_of_In in Hr.
  unfold matches. split.
  - destruct (map !! sys) as [rules|] eqn:E; [|done]. apply elem_of_map_to_list, Hm in E. simpl in E.
    destruct rules as [|rule rules]; apply bool_decide_eq_true in E; [by left|].
    intros Hmet%rule_met_existsb. right. by eexists.
  - intros [Hin%Hc%bool_decide_eq_true|(rules & Hin & Hmet)]; [by rewrite Hin|].
    apply Hr, andb_true_iff in Hin as [Hne%bool_decide_eq_true E%bool_decide_eq_true]. simpl in *. rewrite E.
    destruct rules; [done|]. by apply rule_met_existsb.
Qed.

(** Conditions on the arguments of a call. *)
Definition arg_is (args : list Z) (i : nat) (v : Z) : Prop := ∃ a, args !! i = Some a ∧ a mod 2 ^ 32 = v.

Lemma condition_arg args n i v : n = Z.of_nat i → condition_matches args (MkCondition n Dword v) = true ↔ arg_is args i v.
Proof.
  intros ->. unfold condition_matches, arg_is. cbn. rewrite Nat2Z.id. destruct (args !! i) as [a|].
  - rewrite Z.eqb_eq. naive_solver.
  - naive_solver.
Qed.

Lemma condition_qword args n i v : n = Z.of_nat i → condition_matches args (MkCondition n Qword v) = true ↔ args !! i = Some v.
Proof.
  intros ->. unfold condition_matches. cbn. rewrite Nat2Z.id. destruct (args !! i) as [a|]; [|done].
  rewrite Z.eqb_eq. naive_solver.
Qed.

(** One argument has one of several values. *)
Definition family_rules (i : nat) (vs : list Z) : list SeccompRule := (λ v, [MkCondition (Z.of_nat i) Dword v]) <$> vs.

Lemma family_met args i vs : rule_met args (family_rules i vs) ↔ ∃ v, v ∈ vs ∧ arg_is args i v.
Proof.
  unfold rule_met, family_rules. setoid_rewrite list_elem_of_fmap. split.
  - intros (rule & (v & -> & Hv) & Hc). exists v. split; [done|]. eapply condition_arg, Hc; [done|by left].
  - intros (v & Hv & Ha). eexists. split; [by exists v|]. intros c ->%list_elem_of_singleton. by apply (condition_arg _ _ i).
Qed.

Lemma single_met args c cs : rule_met args [c :: cs] ↔ condition_matches args c = true ∧ ∀ c', c' ∈ cs → condition_matches args c' = true.
Proof.
  unfold rule_met. setoid_rewrite list_elem_of_singleton. split.
  - intros (? & -> & Hc). split; [apply Hc; by left|]. intros c' Hin. apply Hc. by right.
  - intros [Hc Hcs]. eexists. split; [done|]. intros c' [->|?]%elem_of_cons; auto.
Qed.

(** ** What the programs may do *)

(** Memory, time, descriptors that are open, sockets that exist, and the end of the process. *)
Definition common_calls : list string :=
  ["SYS_brk"; "SYS_madvise"; "SYS_mmap"; "SYS_mprotect"; "SYS_mremap"; "SYS_munmap";
   "SYS_clock_getres"; "SYS_clock_gettime"; "SYS_clock_nanosleep"; "SYS_gettimeofday"; "SYS_nanosleep"; "SYS_getrandom";
   "SYS_exit"; "SYS_exit_group"; "SYS_getpid"; "SYS_gettid"; "SYS_sched_getaffinity"; "SYS_sigaltstack";
   "SYS_futex"; "SYS_futex_waitv"; "SYS_get_robust_list"; "SYS_set_robust_list";
   "SYS_close"; "SYS_close_range"; "SYS_lseek"; "SYS_poll"; "SYS_ppoll"; "SYS_pselect6";
   "SYS_epoll_create1"; "SYS_epoll_ctl"; "SYS_epoll_pwait"; "SYS_epoll_pwait2"; "SYS_epoll_wait";
   "SYS_read"; "SYS_readv"; "SYS_pread64"; "SYS_preadv2";
   "SYS_write"; "SYS_writev"; "SYS_pwrite64"; "SYS_pwritev2"; "SYS_fsync"; "SYS_fdatasync";
   "SYS_recvfrom"; "SYS_recvmsg"; "SYS_recvmmsg"; "SYS_sendto"; "SYS_sendmsg"; "SYS_sendmmsg";
   "SYS_bind"; "SYS_listen"; "SYS_connect"; "SYS_getsockopt"; "SYS_getpeername"].

Definition letmeind_calls : list string := ["SYS_accept4"; "SYS_rt_sigprocmask"; "SYS_rt_sigreturn"].

Definition letmein_calls : list string :=
  ["SYS_open"; "SYS_openat"; "SYS_fstat"; "SYS_newfstatat"; "SYS_statx"; "SYS_uname"].

(** To run [nft], the firewall daemon needs the calls for processes. *)
Definition letmeinfwd_calls : list string :=
  ["SYS_accept4"; "SYS_access"; "SYS_arch_prctl"; "SYS_clone3"; "SYS_dup"; "SYS_dup2"; "SYS_dup3"; "SYS_execve";
   "SYS_faccessat"; "SYS_faccessat2"; "SYS_fcntl"; "SYS_fstat"; "SYS_getegid"; "SYS_geteuid"; "SYS_getgid"; "SYS_getuid";
   "SYS_ioctl"; "SYS_newfstatat"; "SYS_open"; "SYS_openat"; "SYS_pidfd_open"; "SYS_pipe"; "SYS_pipe2"; "SYS_rseq";
   "SYS_rt_sigaction"; "SYS_rt_sigprocmask"; "SYS_rt_sigreturn"; "SYS_set_tid_address"; "SYS_setsockopt"; "SYS_statx";
   "SYS_wait4"].

(** Creating sockets of some families only, the no-delay option only, and so on. *)
Definition socket_of (families : list Z) (sys : string) (args : list Z) : Prop :=
  sys = "SYS_socket" ∧ ∃ v, v ∈ families ∧ arg_is args 0 v.
Definition sets_nodelay (sys : string) (args : list Z) : Prop :=
  sys = "SYS_setsockopt" ∧ arg_is args 1 IPPROTO_TCP ∧ arg_is args 2 TCP_NODELAY.
Definition gets_fd_flags (sys : string) (args : list Z) : Prop := sys = "SYS_fcntl" ∧ arg_is args 1 F_GETFD.
Definition gets_own_limits (sys : string) (args : list Z) : Prop :=
  sys = "SYS_prlimit64" ∧ arg_is args 0 0 ∧ args !! 2%nat = Some NULL.

Definition letmeind_may (sys : string) (args : list Z) : Prop :=
  sys ∈ common_calls ++ letmeind_calls ∨ socket_of [AF_INET; AF_INET6; AF_UNIX] sys args ∨
  sets_nodelay sys args ∨ gets_fd_flags sys args.
Definition letmein_may (sys : string) (args : list Z) : Prop :=
  sys ∈ common_calls ++ letmein_calls ∨ socket_of [AF_INET; AF_INET6] sys args ∨
  sets_nodelay sys args ∨ gets_fd_flags sys args.
Definition letmeinfwd_may (sys : string) (args : list Z) : Prop :=
  sys ∈ common_calls ++ letmeinfwd_calls ∨ socket_of [AF_UNIX; AF_NETLINK] sys args ∨ gets_own_limits sys args.

Definition nodelay_rule : list SeccompRule := [[MkCondition 1 Dword IPPROTO_TCP; MkCondition 2 Dword TCP_NODELAY]].
Definition fd_flags_rule : list SeccompRule := [[MkCondition 1 Dword F_GETFD]].
Definition limits_rule : list SeccompRule := [[MkCondition 0 Dword 0; MkCondition 2 Qword NULL]].

Lemma nodelay_met args : rule_met args nodelay_rule ↔ arg_is args 1 IPPROTO_TCP ∧ arg_is args 2 TCP_NODELAY.
Proof.
  unfold nodelay_rule. rewrite single_met, (condition_arg _ _ 1) by done. setoid_rewrite list_elem_of_singleton.
  rewrite <- (condition_arg _ 2 2) by done. naive_solver.
Qed.
Lemma fd_flags_met args : rule_met args fd_flags_rule ↔ arg_is args 1 F_GETFD.
Proof.
  unfold fd_flags_rule. rewrite single_met, (condition_arg _ _ 1) by done. setoid_rewrite elem_of_nil. naive_solver.
Qed.
Lemma limits_met args : rule_met args limits_rule ↔ arg_is args 0 0 ∧ args !! 2%nat = Some NULL.
Proof.
  unfold limits_rule. rewrite single_met, (condition_arg _ _ 0) by done. setoid_rewrite list_elem_of_singleton.
  rewrite <- (condition_qword _ 2 2) by done. naive_solver.
Qed.

Ltac conditional_calls :=
  unfold letmeind_may, letmein_may, letmeinfwd_may, socket_of, sets_nodelay, gets_fd_flags, gets_own_limits; f_equiv;
  rewrite <- family_met, <- ?nodelay_met, <- ?fd_flags_met, <- ?limits_met; repeat setoid_rewrite elem_of_cons;
  setoid_rewrite elem_of_nil; naive_solver.

Lemma letmeind_matches sys args : matches (map_of letmeind_ALLOW_LIST) sys args = true ↔ letmeind_may sys args.
Proof.
  rewrite (covers_spec _ (common_calls ++ letmeind_calls) [("SYS_socket", family_rules 0 [AF_INET; AF_INET6; AF_UNIX]);
    ("SYS_setsockopt", nodelay_rule); ("SYS_fcntl", fd_flags_rule)]) by (vm_compute; reflexivity).
  conditional_calls.
Qed.

Lemma letmein_matches sys args : matches (map_of letmein_ALLOW_LIST) sys args = true ↔ letmein_may sys args.
Proof.
  rewrite (covers_spec _ (common_calls ++ letmein_calls) [("SYS_socket", family_rules 0 [AF_INET; AF_INET6]);
    ("SYS_setsockopt", nodelay_rule); ("SYS_fcntl", fd_flags_rule)]) by (vm_compute; reflexivity).
  conditional_calls.
Qed.

Lemma letmeinfwd_matches sys args : matches (map_of letmeinfwd_ALLOW_LIST) sys args = true ↔ letmeinfwd_may sys args.
Proof.
  rewrite (covers_spec _ (common_calls ++ letmeinfwd_calls) [("SYS_socket", family_rules 0 [AF_UNIX; AF_NETLINK]);
    ("SYS_prlimit64", limits_rule)]) by (vm_compute; reflexivity).
  conditional_calls.
Qed.

(** Running programs, opening files, inspecting processes, changing credentials or the file system. *)
Definition dangerous : list string :=
  ["SYS_execve"; "SYS_execveat"; "SYS_fork"; "SYS_vfork"; "SYS_clone"; "SYS_clone3"; "SYS_open"; "SYS_openat"; "SYS_openat2";
   "SYS_creat"; "SYS_unlink"; "SYS_rename"; "SYS_chmod"; "SYS_chown"; "SYS_mount"; "SYS_ptrace"; "SYS_process_vm_writev";
   "SYS_kill"; "SYS_setuid"; "SYS_setgid"; "SYS_setresuid"; "SYS_capset"; "SYS_prctl"; "SYS_bpf"; "SYS_init_module"].

Definition not_in (syss calls : list string) : bool := forallb (λ s, negb (bool_decide (s ∈ calls))) syss.

Lemma not_in_spec syss calls sys : not_in syss calls = true → sys ∈ syss → sys ∉ calls.
Proof.
  unfold not_in. rewrite forallb_forall. setoid_rewrite <- list_elem_of_In. intros Hn Hin%Hn.
  by apply negb_true_iff, bool_decide_eq_false in Hin.
Qed.

Lemma letmeind_harmless sys args : sys ∈ dangerous → ¬ letmeind_may sys args.
Proof.
  intros Hd. pose proof (not_in_spec dangerous
    (common_calls ++ letmeind_calls ++ ["SYS_socket"; "SYS_setsockopt"; "SYS_fcntl"]) sys ltac:(by vm_compute) Hd) as Hn.
  rewrite app_assoc, elem_of_app, !elem_of_cons in Hn. intros [?|[[-> _]|[[-> _]|[-> _]]]]; tauto.
Qed.

(** The verdict of a filter that kills: the calls with [X] go through, all others end the process. *)
Definition decides (v : SeccompAction) (X : Prop) : Prop := v = ActAllow ∧ X ∨ v = ActKillProcess ∧ ~ X.

Lemma compile_decides `{Seccompiler} allow p sys args X :
  compile allow Kill = Ok p → matches (map_of allow) sys args = true ↔ X → decides (bpf_verdict p sys args) X.
Proof.
  intros Hc HX. rewrite (compile_verdict _ _ _ _ _ Hc). unfold decides. rewrite <- HX.
  destruct (matches (map_of allow) sys args); [by left|by right].
Qed.

(** C33 (safety). What a program can still do under its filter, for every call with any arguments. With
    the action [Kill] the filters let through exactly the listed calls, and every other call ends the
    process: all programs may use memory, time and the descriptors and sockets they have; the control
    daemon may in addition accept connections, create only Unix and internet sockets, set only the
    no-delay option and read only descriptor flags, so it cannot run a program, open a file or touch
    another process; the client may open files, but accepts no connection and creates only internet
    sockets; the firewall daemon, which has to run [nft], may start programs and open files, but creates
    no internet sockets and may only read its own resource limits. With the action [Log] no filter
    ever stops a call. *)
Theorem programs_confined `{Seccompiler} sys args :
  (∀ p, compile letmeind_ALLOW_LIST Kill = Ok p →
     decides (bpf_verdict p sys args) (letmeind_may sys args) ∧
     (sys ∈ dangerous → bpf_verdict p sys args = ActKillProcess)) ∧
  (∀ p, compile letmein_ALLOW_LIST Kill = Ok p → decides (bpf_verdict p sys args) (letmein_may sys args)) ∧
  (∀ p, compile letmeinfwd_ALLOW_LIST Kill = Ok p → decides (bpf_verdict p sys args) (letmeinfwd_may sys args)) ∧
  (∀ allow p, compile allow Log = Ok p → bpf_verdict p sys args ≠ ActKillProcess).
Proof.
  split_and!.
  - intros p Hc. pose proof (compile_decides _ _ _ _ _ Hc (letmeind_matches sys args)) as Hv. split; [done|].
    intros Hd%(letmeind_harmless sys args). by destruct Hv as [[_ ?]|[? _]].
  - intros p Hc. by apply (compile_decides _ _ _ _ _ Hc), letmein_matches.
  - intros p Hc. by apply (compile_decides _ _ _ _ _ Hc), letmeinfwd_matches.
  - intros allow p Hc. rewrite (compile_verdict _ _ _ _ _ Hc). by destruct (matches _ _ _).
Qed.

(** A compiler that keeps the rules and decides by them. *)
Definition rules_compiler : Seccompiler := {|
  BpfProgram := RulesMap * SeccompAction * SeccompAction;
  bpf_compile map mismatch matched := Ok (map, mismatch, matched);
  bpf_verdict p sys args := if matches p.1.1 sys args then p.2 else p.1.2;
  bpf_compile_ok map mismatch matched p sys args E := f_equal (λ r, match r with Ok p => if matches p.1.1 sys args then p.2 else p.1.2 | _ => mismatch end) (eq_sym E);
|}.

(** The control daemon may create its socket to the firewall daemon, but not run a program. *)
Lemma programs_confined_witness :
  ∃ p, compile (H := rules_compiler) letmeind_ALLOW_LIST Kill = Ok p ∧
    decides (bpf_verdict p "SYS_socket" [AF_UNIX; 1; 0]) (letmeind_may "SYS_socket" [AF_UNIX; 1; 0]) ∧
    bpf_verdict p "SYS_socket" [AF_UNIX; 1; 0] = ActAllow ∧
    bpf_verdict p "SYS_execve" [0; 0; 0] = ActKillProcess.
Proof.
  pose (p := (map_of letmeind_ALLOW_LIST, ActKillProcess, ActAllow) : BpfProgram (Seccompiler := rules_compiler)).
  assert (Hc : compile (H := rules_compiler) letmeind_ALLOW_LIST Kill = Ok p).
  { unfold compile. rewrite map_of_ok by (vm_compute; reflexivity). reflexivity. }
  exists p. split; [exact Hc|]. split; [|split].
  - exact (proj1 (proj1 (programs_confined (H := rules_compiler) "SYS_socket" [AF_UNIX; 1; 0]) p Hc)).
  - vm_compute. reflexivity.
  - refine (proj2 (proj1 (programs_confined (H := rules_compiler) "SYS_execve" [0; 0; 0]) p Hc) _). left.
Defined.

(** Rules only restrict: a feature without conditions does not widen a call that another feature
    restricts, whatever their order. *)
Example conditional_wins :
  (λ l, matches (map_of l) "SYS_fcntl" [3; 2; 0]) <$>
    [[Fcntl None]; [Fcntl (Some F_GETFD)]; [Fcntl None; Fcntl (Some F_GETFD)]; [Fcntl (Some F_GETFD); Fcntl None]]
  = [true; false; false; false].
Proof. by vm_compute. Qed.
