(* ===== verification/Mains.v ===== *)
(** * The programs from their start (letmein/src/main.rs, letmeind/src/main.rs, letmeinfwd/src/main.rs)

    What each program does with its command line until it serves or executes the command: the
    system databases, the run directory, the configuration, the sockets, the PID file and the system
    call filter, in this order. *)

From Stdlib Require Import Ascii.
From S2P Require Import Prelude Prog Str Proto FwProto Addr Ini Conf Nftables NftSpec NftOps FwRefine FwServer Client ClientSafe.
From S2P Require Import Systemd Os Daemon OsUsers Seccomp.
Local Open Scope Z_scope.

(** ** The command line *)

Inductive Command : Type :=
| CmdKnock (host : str) (port : u16) (user : option UserId) (server_port : option u16)
    (server_port_tcp server_port_udp ipv4 ipv6 : bool)
| CmdClose (host : str) (port : u16) (user : option UserId) (server_port : option u16)
    (server_port_tcp server_port_udp ipv4 ipv6 : bool)
| CmdGenKey (user : option UserId).

Record ClientOpts : Type := MkClientOpts {
  co_config : option str; co_command : option Command; co_seccomp : option Seccomp; co_version : bool;
}.

Record DaemonOpts : Type := MkDaemonOpts {
  do_config : option str; do_rundir : str; do_num_connections : nat; do_no_systemd : bool;
  do_seccomp : option Seccomp; do_test_mode : bool;
}.

Section mains.
Context `{Crypto} `{HashOrder} `{Seccompiler} (env_prefix : option str) (seccomp_supported : bool) (feat : features).
Local Open Scope prog_scope.

(** ** The client *)

Definition letmein_iface : iface := isum os_iface (isum sec_iface cli_iface).

(** The key line is what [genkey] prints. *)
Definition run_command (conf : Config) (command : Command) : prog cli_iface (res (option str)) :=
  match command with
  | CmdKnock host port user server_port server_port_tcp server_port_udp ipv4 ipv6 =>
      let server := MkTargetServer host (AddrMode_from (ipv4, ipv6)) server_port server_port_tcp server_port_udp in
      let? _ := run_knock conf server port user in Ret (Ok None)
  | CmdClose host port user server_port server_port_tcp server_port_udp ipv4 ipv6 =>
      let server := MkTargetServer host (AddrMode_from (ipv4, ipv6)) server_port server_port_tcp server_port_udp in
      let? _ := run_close conf server port user in Ret (Ok None)
  | CmdGenKey user => let? line := run_genkey conf user in Ret (Ok (Some line))
  end.

Definition letmein_async_main (opts : ClientOpts) : prog letmein_iface (res (option str)) :=
  let? conf := load_config Client (get_config env_prefix Client (co_config opts)) in
  let? _ := install_seccomp_rules seccomp_supported letmein_ALLOW_LIST (default (c_seccomp conf) (co_seccomp opts)) in
  match co_command opts with
  | Some command => lift (run_command conf command)
  | None => Ret (Err "'letmein' requires a subcommand but one was not provided. Please run 'letmein --help' for more information.")
  end.

Definition letmein_main (opts : ClientOpts) : prog letmein_iface (res (option str)) :=
  if co_version opts then Ret (Ok None) else letmein_async_main opts.

(** ** The control daemon *)

Definition letmeind_iface : iface := isum os_iface (isum sec_iface srv_iface).

Definition letmeind_make_run_subdir {J} `{Sub os_iface J} (rundir : str) : prog J (res ()) :=
  with_context "Create /run subdirectory" (create_dir_if_not_exists (push rundir (lit "letmeind"))).

Definition letmeind_install_seccomp_rules {J} `{Sub sec_iface J} (seccomp : Seccomp) : prog J (res ()) :=
  do_install_seccomp_rules seccomp_supported letmeind_ALLOW_LIST seccomp.

(** [async_main] up to the accept task. *)
Definition letmeind_startup (opts : DaemonOpts) : prog letmeind_iface (res (Config * Server)) :=
  let? _ := letmeind_make_run_subdir (do_rundir opts) in
  let? conf := load_config Conf.Server (get_config env_prefix Conf.Server (do_config opts)) in
  let? srv := with_context "Server init" (lift (Server_new feat conf (do_no_systemd opts))) in
  let? _ := make_pidfile (do_rundir opts) (lit "letmeind/letmeind.pid") in
  let? _ := letmeind_install_seccomp_rules (default (c_seccomp conf) (do_seccomp opts)) in
  Ret (Ok (conf, srv)).

(** [async_main] with its main loop, given the events that the loop receives: the result, once there
    is one. *)
Definition letmeind_async_main (opts : DaemonOpts) (evs : list main_event) : prog letmeind_iface (option (res ())) :=
  let* r := letmeind_startup opts in
  Ret match r with Ok _ => main_loop evs | Err e => Some (Err e) | Panic w => Some (Panic w) end.

(** [main]: the version, or the runtime and [async_main]. *)
Definition letmeind_main (version : bool) (builder : res ()) (opts : DaemonOpts) (evs : list main_event)
    : prog letmeind_iface (option (res ())) :=
  if version then Ret (Some (Ok ()))
  else
    match context "Tokio runtime builder" builder with
    | Ok _ => letmeind_async_main opts evs
    | Err e => Ret (Some (Err e))
    | Panic w => Ret (Some (Panic w))
    end.

(** ** The firewall daemon *)

Definition letmeinfwd_install_seccomp_rules {J} `{Sub sec_iface J} (seccomp : Seccomp) : prog J (res ()) :=
  do_install_seccomp_rules seccomp_supported letmeinfwd_ALLOW_LIST seccomp.

Definition letmeinfwd_iface : iface :=
  isum os_iface (isum sec_iface (isum sysd_iface (isum fwsock_iface (isum conn_iface fw_iface)))).

(** The mode 488 is 0o750. *)
Definition letmeinfwd_make_run_subdir {J} `{Sub os_iface J} (test_mode : bool) (rundir : str) (gid : u32) : prog J (res ()) :=
  let runsubdir := push rundir (lit "letmeinfwd") in
  let? _ := with_context "Create /run subdirectory" (create_dir_if_not_exists runsubdir) in
  if negb test_mode
  then with_context "Set /run subdirectory owner and mode" (set_owner_mode runsubdir 0 gid 488)
  else Ret (Ok ()).

(** [async_main] up to the tasks. *)
Definition letmeinfwd_startup (opts : DaemonOpts)
    : prog letmeinfwd_iface (res (u32 * u32 * Config * NftFirewall * UnixSock)) :=
  let? (uid, gid) := read_etc_passwd (do_test_mode opts) in
  let? _ := letmeinfwd_make_run_subdir (do_test_mode opts) (do_rundir opts) gid in
  let? conf := load_config Conf.Server (get_config env_prefix Conf.Server (do_config opts)) in
  let? fw := lift (NftFirewall_new conf) in
  let? srv := with_context "Firewall server init"
                (FirewallServer_new feat (do_no_systemd opts) (do_test_mode opts) (do_rundir opts) gid) in
  let? _ := make_pidfile (do_rundir opts) (lit "letmeinfwd/letmeinfwd.pid") in
  let? _ := letmeinfwd_install_seccomp_rules (default (c_seccomp conf) (do_seccomp opts)) in
  Ret (Ok (uid, gid, conf, fw, srv)).

(** [async_main]: the start, the tasks until the main loop ends with [stop], and the exit. A failed
    start ends the process at once. *)
Definition letmeinfwd_async_main (opts : DaemonOpts) (evs : list fwd_event) (stop : res ())
    (fw_first : bool) : prog letmeinfwd_iface (res ()) :=
  let? (_, _, conf, fw, _) := letmeinfwd_startup opts in
  let* (r, _) := lift (fwd_main conf evs stop fw_first fw) in
  Ret r.

(** The [verify] command of [main]: the exit code of the process, or the error that [main] returns. *)
Definition letmeinfwd_verify {J} `{Sub os_iface J} (debug_text : Rule → str) (config : option str) (builder : res ())
    (ruleset : res (list NfObject)) (address : str) (port : u16) (protocol : str) (should_exist : bool) : prog J (res Z) :=
  let? _ := load_config Conf.Server (get_config env_prefix Conf.Server config) in
  let? _ := Ret (context "Tokio runtime builder" builder) in
  Ret match verify_nft_rule debug_text ruleset address port protocol should_exist with
      | Ok true => Ok 0
      | Ok false => Ok 1
      | Err _ => Ok 1
      | Panic w => Panic w
      end.

(** [main]: the version, the [verify] command, or the runtime and [async_main]; a success is the
    exit code. *)
Definition letmeinfwd_main (debug_text : Rule → str) (version : bool) (command : option (str * u16 * str * bool))
    (builder : res ()) (ruleset : res (list NfObject)) (opts : DaemonOpts) (evs : list fwd_event) (stop : res ())
    (fw_first : bool) : prog letmeinfwd_iface (res Z) :=
  if version then Ret (Ok 0)
  else
    match command with
    | Some (address, port, protocol, should_exist) =>
        letmeinfwd_verify debug_text (do_config opts) builder ruleset address port protocol should_exist
    | None =>
        let? _ := Ret (context "Tokio runtime builder" builder) in
        let? _ := letmeinfwd_async_main opts evs stop fw_first in
        Ret (Ok 0)
    end.

End mains.

(** ** What has happened at the end of the start *)

Section startup.
Context `{Crypto} `{HashOrder} `{Seccompiler} (env_prefix : option str) (supported : bool) (feat : features).

Definition action_of (seccomp : Seccomp) : Action := match seccomp with SeccompLog => Log | _ => Kill end.

(** The filter compiled from [allow_list], with the action in the configuration, is installed, unless
    it is switched off (the default) or the target has no support. *)
Definition filter_installed {J} `{Sub sec_iface J} (allow_list : list Allow) (seccomp : Seccomp) (t : history J) : Prop :=
  supported = true → seccomp ≠ SeccompOff →
  ∃ p, compile allow_list (action_of seccomp) = Ok p ∧ seen (SecInstall p : cmd sec_iface) (Ok ()) t.

(** If the configured action is to kill, the process can do no more than [may] says. *)
Definition confined {J} `{Sub sec_iface J} (may : string → list Z → Prop) (seccomp : Seccomp) (t : history J) : Prop :=
  supported = true → seccomp = SeccompKill →
  ∃ p, seen (SecInstall p : cmd sec_iface) (Ok ()) t ∧ ∀ sys args, decides (bpf_verdict p sys args) (may sys args).

Lemma installed_confined {J} `{Sub sec_iface J} allow_list may seccomp (t : history J) :
  (∀ sys args, matches (map_of allow_list) sys args = true ↔ may sys args) →
  filter_installed allow_list seccomp t → confined may seccomp t.
Proof.
  intros Hmay Hf Hs ->. destruct (Hf Hs ltac:(done)) as (p & Hc & Hseen). exists p. split; [done|].
  intros sys args. by apply (compile_decides _ _ _ _ _ Hc).
Qed.

Lemma filter_installed_mono {J} `{Sub sec_iface J} allow_list seccomp (t t' : history J) :
  t `prefix_of` t' → filter_installed allow_list seccomp t → filter_installed allow_list seccomp t'.
Proof. intros Hpre Hc Hs Ho. destruct (Hc Hs Ho) as (p & Hp & Hseen). exists p. split; [done|by eapply seen_mono]. Qed.

Lemma grows_do_install {J} `{Sub sec_iface J} (P : history J → cmd J → Prop) (HP : ∀ t (c : cmd sec_iface), P t (sub_cmd c))
    allow_list seccomp t :
  grows P (λ t' _, filter_installed allow_list seccomp t') t (do_install_seccomp_rules supported allow_list seccomp).
Proof.
  assert (Hgo : ∀ act, action_of seccomp = act →
    grows P (λ t' _, filter_installed allow_list seccomp t') t
      (if supported then cbind (Ret (context "Compile seccomp filter" (compile allow_list act)))
         (λ p, with_context "Install seccomp filter" (Filter_install p)) else Ret (Ok ()))).
  { intros act Hact. destruct supported eqn:Es; [|apply grows_ret; intros ? _ ?; congruence].
    destruct (compile allow_list act) as [p|e|w] eqn:Ec; cbn [context cbind pbind]; [|by apply grows_ret..].
    apply grows_context. apply grows_step; [apply HP|]. intros t1 x _ Hx. apply grows_ret. intros [] Hr _ _.
    exists p. rewrite Hact. split; [done|]. destruct x as [[]|e|w]; done. }
  destruct seccomp; cbn [do_install_seccomp_rules].
  - apply grows_ret. by intros ? _ _ ?.
  - exact (Hgo Log eq_refl).
  - exact (Hgo Kill eq_refl).
Qed.

Lemma grows_install {J} `{Sub sec_iface J} (P : history J → cmd J → Prop) (HP : ∀ t (c : cmd sec_iface), P t (sub_cmd c))
    allow_list seccomp t :
  grows P (λ t' _, filter_installed allow_list seccomp t') t (install_seccomp_rules supported allow_list seccomp).
Proof.
  apply (grows_bind P (λ t' _, filter_installed allow_list seccomp t')); [by apply grows_do_install|].
  intros t' [] _ Hc. by apply grows_ret.
Qed.

Lemma grows_read_etc_passwd {J} `{Sub os_iface J} (P : history J → cmd J → Prop) (HP : ∀ t (c : cmd os_iface), P t (sub_cmd c))
    test_mode t :
  grows P (λ t' '(uid, gid), test_mode = false →
    ∃ passwd group, seen (OsReadText (lit "/etc/passwd") : cmd os_iface) passwd t' ∧
      seen (OsReadText (lit "/etc/group") : cmd os_iface) group t' ∧
      os_get_uid passwd (lit "letmeind") = Ok uid ∧ os_get_gid group (lit "letmeind") = Ok gid)
    t (read_etc_passwd test_mode).
Proof.
  unfold read_etc_passwd. destruct test_mode; cbn [negb]; [apply grows_ret; by intros [] _|].
  apply grows_step; [apply HP|]. intros t1 passwd _ Hp.
  apply (grows_bind P (λ _ uid, os_get_uid passwd (lit "letmeind") = Ok uid)); [by apply grows_ret|]. intros t2 uid Hpre Hu.
  apply grows_step; [apply HP|]. intros t3 group Hpre' Hg.
  apply (grows_bind P (λ _ gid, os_get_gid group (lit "letmeind") = Ok gid)); [by apply grows_ret|]. intros t4 gid Hpre'' Hg'.
  apply grows_ret. intros [] [= <- <-] _. exists passwd, group. split_and!; [|by eapply seen_mono|done..].
  eapply seen_mono; [|exact Hp]. by do 2 (etransitivity; [eassumption|]).
Qed.

(** The directory of the socket is only accessible to root and the group of the control daemon, and
    so is a socket that the daemon has created itself. *)
Definition guarded {J} `{Sub os_iface J} (opts : DaemonOpts) (gid : u32) (srv : UnixSock) (t : history J) : Prop :=
  do_test_mode opts = false →
  owned (push (do_rundir opts) (lit "letmeinfwd")) 0 gid 488 t ∧
  (∀ path, srv = BoundUnix path → path = sock_path (do_rundir opts) ∧ owned path 0 gid 432 t).

Lemma owned_mono {J} `{Sub os_iface J} path uid gid mode (t t' : history J) :
  t `prefix_of` t' → owned path uid gid mode t → owned path uid gid mode t'.
Proof. intros Hpre [H1' H2']. by split; eapply seen_mono. Qed.

Lemma grows_run_subdir {J} `{Sub os_iface J} (P : history J → cmd J → Prop) (HP : ∀ t (c : cmd os_iface), P t (sub_cmd c))
    test_mode rundir gid t :
  grows P (λ t' _, test_mode = false → owned (push rundir (lit "letmeinfwd")) 0 gid 488 t') t
    (letmeinfwd_make_run_subdir test_mode rundir gid).
Proof.
  apply (grows_bind P (λ _ _, True)); [by apply grows_context, grows_create_dir|]. intros t1 _ _ _.
  destruct test_mode; cbn [negb]; [by apply grows_ret|].
  eapply grows_mono, grows_context, grows_set_owner_mode; [|done]. done.
Qed.

Lemma grows_FirewallServer_new {J} `{Sub sysd_iface J, Sub os_iface J, Sub fwsock_iface J} (P : history J → cmd J → Prop)
    (HP : ∀ t (c : cmd os_iface), P t (sub_cmd c)) (HPs : ∀ t (c : cmd sysd_iface), P t (sub_cmd c))
    (HPf : ∀ t (c : cmd fwsock_iface), P t (sub_cmd c)) no_systemd test_mode rundir gid t :
  grows P (λ t' srv, test_mode = false → ∀ path, srv = BoundUnix path → path = sock_path rundir ∧ owned path 0 gid 432 t')
    t (FirewallServer_new (J := J) feat no_systemd test_mode rundir gid).
Proof.
  assert (Hsys : ∀ A (p : prog sysd_iface (res A)) t', grows P (λ _ _, True) t' (lift p)).
  { intros A p t'. apply grows_lift; [auto|]. by apply leaves_any. }
  assert (Hone : ∀ I (HI : Sub I J) (c : cmd I) (g : resp I c → res ()) t', P t' (sub_cmd c) →
    grows P (λ _ _, True) t' (pbind (perform_cmd c) (λ x, Ret (g x)))).
  { intros I HI c g t' Hc. apply grows_step; [done|]. intros. by apply grows_ret. }
  unfold FirewallServer_new. destruct no_systemd; cbn [negb].
  - apply grows_step; [apply HP|]. intros t1 meta _ _.
    eapply grows_bind.
    { destruct meta as [mode|e|w]; [|by apply (grows_ret _ (λ _ _, True))..].
      destruct (_ =? _); [by apply Hone|by apply (grows_ret _ (λ _ _, True))]. }
    intros t2 _ _ _. eapply grows_bind; [by apply Hone|]. intros t3 _ _ _.
    destruct test_mode; cbn [negb]; [by apply grows_ret|].
    eapply grows_bind; [by apply grows_context, grows_set_owner_mode|]. intros t4 [] _ Ho. apply grows_ret.
    by intros ? [= <-] _ ? [= <-].
  - eapply grows_bind; [apply Hsys|]. intros t1 sockets _ _.
    destruct (head sockets) as [[]|]; [by apply grows_ret..| |by apply grows_ret].
    do 2 (eapply grows_bind; [by apply Hone|]; intros ? _ _ _).
    eapply grows_bind; [apply Hsys|]. intros t4 _ _ _. apply grows_ret. by intros ? [= <-].
Qed.

Lemma grows_steps {J A} P (Q : history J → A → Prop) (p : prog J (res A)) t a :
  grows P Q [] p → steps p t (Ret (Ok a)) → Q t a.
Proof. intros Hg Hs. apply wp_steps in Hg as [_ Hg]. by destruct (Hg _ _ Hs) as [_ Hq]; apply Hq. Qed.

Lemma loaded_ok {J} `{Sub os_iface J} variant path conf (t : history J) : loaded variant path conf t → Config_ok conf.
Proof.
  intros (content & _ & Hl). revert Hl. generalize (text ← context "Read configuration file" content; parse_str text).
  intros file. assert (Hset : ∀ conf', Config_ok conf' → Config_ok (set_path path conf')) by (by intros conf' []; split).
  unfold load. destruct file as [ini|e|w]; [|case_bool_decide|done]; [|done|].
  - pose proof (load_ini_snd_ok (Config_new variant) ini (Config_new_ok _)) as Hok.
    destruct (load_ini _ ini) as [[[]| |] conf']; [|done..]. intros [= <-]. by apply Hset.
  - intros [= <-]. apply Hset, Config_new_ok.
Qed.

(** The three starts. The control daemon touches a socket only after its configuration has been
    loaded. *)
Definition sockets_after_load (opts : DaemonOpts) (t : history letmeind_iface) (c : cmd letmeind_iface) : Prop :=
  match c with
  | inr (inr _) => ∃ conf, loaded Conf.Server (get_config env_prefix Conf.Server (do_config opts)) conf t
  | _ => True
  end.

Lemma letmeind_startup_grows opts :
  grows (sockets_after_load opts) (λ t '(conf, srv),
    loaded Conf.Server (get_config env_prefix Conf.Server (do_config opts)) conf t ∧ has_socket srv = true ∧
    filter_installed letmeind_ALLOW_LIST (default (c_seccomp conf) (do_seccomp opts)) t)
    [] (letmeind_startup env_prefix supported feat opts).
Proof.
  eapply grows_bind; [by apply grows_context, grows_create_dir|]. intros t1 _ _ _.
  eapply grows_bind; [by apply grows_load_config|]. intros t2 conf _ Hl.
  pose proof (loaded_ok _ _ _ _ Hl) as Hok.
  eapply grows_bind.
  { apply grows_context, (grows_lift _ (λ srv, has_socket srv = true)).
    - intros t' c Hpre. exists conf. by eapply loaded_mono, Hl.
    - eapply leaves_mono, Server_new_sockets, Hok. intros r Hr srv ->. by destruct (Hr _ eq_refl). }
  intros t3 srv Hp3 Hs. eapply grows_bind; [by apply grows_make_pidfile|]. intros t4 _ Hp4 _.
  eapply grows_bind; [by apply grows_do_install|]. intros t5 [] Hp5 Hc. apply grows_ret. intros [] [= <- <-].
  split_and!; [|done|done]. eapply loaded_mono, Hl. by do 2 (etransitivity; [eassumption|]).
Qed.

Lemma letmeinfwd_startup_grows opts :
  grows anything (λ t '(uid, gid, conf, fw, srv),
    loaded Conf.Server (get_config env_prefix Conf.Server (do_config opts)) conf t ∧
    (do_test_mode opts = false → ∃ passwd group, seen (OsReadText (lit "/etc/passwd") : cmd os_iface) passwd t ∧
      seen (OsReadText (lit "/etc/group") : cmd os_iface) group t ∧
      os_get_uid passwd (lit "letmeind") = Ok uid ∧ os_get_gid group (lit "letmeind") = Ok gid) ∧
    guarded opts gid srv t ∧
    filter_installed letmeinfwd_ALLOW_LIST (default (c_seccomp conf) (do_seccomp opts)) t)
    [] (letmeinfwd_startup env_prefix supported feat opts).
Proof.
  eapply grows_bind; [by apply grows_read_etc_passwd|]. intros t1 [uid gid] _ Hid.
  eapply grows_bind; [by apply grows_run_subdir|]. intros t2 [] Hp2 Hdir.
  eapply grows_bind; [by apply grows_load_config|]. intros t3 conf Hp3 Hl.
  eapply grows_bind; [apply grows_anything|]. intros t4 fw Hp4 _.
  eapply grows_bind; [by apply grows_context, grows_FirewallServer_new|]. intros t5 srv Hp5 Hs.
  eapply grows_bind; [apply grows_anything|]. intros t6 _ Hp6 _.
  eapply grows_bind; [by apply grows_do_install|]. intros t7 [] Hp7 Hc. apply grows_ret. intros ? [= <-].
  cbv beta in *.
  assert (H57 : t5 `prefix_of` t7) by (by etransitivity).
  assert (H37 : t3 `prefix_of` t7) by (do 2 (etransitivity; [eassumption|]); done).
  assert (H27 : t2 `prefix_of` t7) by (by etransitivity).
  assert (H17 : t1 `prefix_of` t7) by (by etransitivity).
  split_and!; [by eapply loaded_mono, Hl| | |done].
  - intros Ht. destruct (Hid Ht) as (passwd & group & Hp & Hg & ?). exists passwd, group.
    split_and!; [by eapply seen_mono, Hp|by eapply seen_mono, Hg|tauto|tauto].
  - intros Ht. split; [exact (owned_mono _ _ _ _ _ _ H27 (Hdir Ht))|]. intros path E. destruct (Hs Ht path E) as [? Ho].
    split; [done|exact (owned_mono _ _ _ _ _ _ H57 Ho)].
Qed.

(** The client issues a command to the network or the random source only after the configuration
    has been loaded and the filter has been installed. *)
Lemma letmein_main_wp opts :
  wp (λ t (c : cmd letmein_iface), match c with
             | inr (inr _) => ∃ conf, loaded Client (get_config env_prefix Client (co_config opts)) conf t ∧
                 filter_installed letmein_ALLOW_LIST (default (c_seccomp conf) (co_seccomp opts)) t
             | _ => True
             end) (λ _ _, True) [] (letmein_main env_prefix supported opts).
Proof.
  unfold letmein_main. destruct (co_version opts); [done|].
  match goal with |- wp ?P _ _ _ =>
    enough (grows P anything [] (letmein_async_main env_prefix supported opts)) as Hg by (by eapply wp_mono, Hg) end.
  eapply grows_bind; [by apply grows_load_config|].
  intros t1 conf _ Hl. eapply grows_bind; [by apply grows_install|]. intros t2 [] Hp2 Hc.
  destruct (co_command opts) as [command|]; [|by apply grows_ret].
  eapply grows_mono, (grows_lift _ (λ _, True)); [done| |by apply leaves_any].
  intros t0 c Hp. exists conf. split; [by eapply loaded_mono, Hl; etransitivity|by eapply filter_installed_mono].
Qed.

End startup.

(** ** The firewall daemon from its start to its end

    The environment of the process: files with a fixed content, the kernel, and a system that
    answers everything else as it likes, without touching the rules. *)

Section process.
Context `{HO : HashOrder} `{HSec : Seccompiler} `{K : NftKernel} (env_prefix : option str) (supported : bool) (feat : features).
Context (files : str → res str).

Definition proc_step (k : kstate) (c : cmd letmeinfwd_iface) : resp letmeinfwd_iface c → kstate → Prop :=
  match c with
  | inl (OsReadText path) => λ x k', x = files path ∧ k' = k
  | inr (inr (inr (inr (inr c)))) => λ x k', kstep k c x k'
  | _ => λ _ k', k' = k
  end.

(** The configuration in a file. *)
Definition file_conf (path : str) : res Config :=
  let '(r, conf) := load (Config_new Conf.Server) path
    (text ← context "Read configuration file" (files path); parse_str text) in
  _ ← context "Configuration file" r; Ok conf.

(** Programs that leave the firewall alone. *)
Definition no_fw (_ : history letmeinfwd_iface) (c : cmd letmeinfwd_iface) : Prop :=
  match c with inr (inr (inr (inr (inr _)))) => False | _ => True end.

Lemma no_fw_os t (c : cmd os_iface) : no_fw t (sub_cmd c).
Proof. done. Qed.
Lemma no_fw_sec t (c : cmd sec_iface) : no_fw t (sub_cmd c).
Proof. done. Qed.
Lemma no_fw_sysd t (c : cmd sysd_iface) : no_fw t (sub_cmd c).
Proof. done. Qed.
Lemma no_fw_fwsock t (c : cmd fwsock_iface) : no_fw t (sub_cmd c).
Proof. done. Qed.

Lemma exec_no_fw {A} (Q : history letmeinfwd_iface → A → Prop) t (p : prog letmeinfwd_iface (res A)) k r k' :
  grows no_fw Q t p → exec proc_step k p r k' → k' = k.
Proof.
  intros Hg. assert (Hw : wp no_fw (λ _ _, True) t p) by (eapply wp_mono, Hg; done). clear Hg. revert t k Hw.
  induction p as [x|c f IH]; intros t k Hw He; [by apply exec_ret_inv in He as [_ ->]|].
  apply exec_vis_inv in He as (x & k1 & Hs & He). destruct Hw as [Hc Hf]. apply (IH _ _ _ (Hf x)) in He as ->.
  destruct c as [[]|[?|[?|[?|[?|?]]]]]; simpl in *; tauto.
Qed.

Lemma exec_cbind_ok {A B} (p : prog letmeinfwd_iface (res A)) (f : A → prog letmeinfwd_iface (res B)) k b k' :
  exec proc_step k (cbind p f) (Ok b) k' → ∃ a k1, exec proc_step k p (Ok a) k1 ∧ exec proc_step k1 (f a) (Ok b) k'.
Proof.
  intros (r & k1 & Hp & Hf)%exec_bind_inv. destruct r as [a|e|w]; [by exists a, k1|by apply exec_ret_inv in Hf as [? _]..].
Qed.

(** The part with the firewall and the connections. *)
Lemma exec_lift_tasks {R} (p : prog (isum conn_iface fw_iface) R) k r k' :
  exec proc_step k (lift p) r k' → exec (st_sum (I := conn_iface) (J := fw_iface) (λ _ _ _ _, True) kstep) ((), k) p r ((), k').
Proof.
  revert k. induction p as [x|c f IH]; intros k He; simpl lift in He; [by apply exec_ret_inv in He as [-> ->]|].
  apply exec_vis_inv in He as (x & k1 & Hs & He%IH). apply exec_vis_inv. exists x, ((), k1). split; [|exact He].
  destruct c; simpl in *; [by subst k1|done].
Qed.

Lemma exec_lift_fw {R} (p : prog fw_iface R) k r k' : exec proc_step k (lift p) r k' → exec kstep k p r k'.
Proof.
  revert k. induction p as [x|c f IH]; intros k He; simpl lift in He; [exact He|].
  apply exec_vis_inv in He as (x & k1 & Hs & He%IH). apply exec_vis_inv. by exists x, k1.
Qed.

Lemma exec_load_config path k conf k' :
  exec proc_step k (load_config Conf.Server path) (Ok conf) k' → file_conf path = Ok conf ∧ k' = k.
Proof.
  intros He. assert (k' = k) as -> by (eapply exec_no_fw, He; by apply (grows_load_config no_fw no_fw_os Conf.Server path [])).
  split; [|done]. apply exec_vis_inv in He as (x & k1 & [-> ->] & He). unfold file_conf.
  change (sub_resp _ _) with (files path) in He.
  destruct (files path) as [text|e|w]; cbn [context mbind res_bind pbind] in He |- *;
    (match type of He with context [load ?v ?p ?f] => destruct (load v p f) as [r1 conf1] end);
    apply exec_ret_inv in He as [He _]; by rewrite He.
Qed.

Lemma exec_startup opts k uid gid conf fw srv k' :
  exec proc_step k (letmeinfwd_startup env_prefix supported feat opts) (Ok (uid, gid, conf, fw, srv)) k' →
  file_conf (get_config env_prefix Conf.Server (do_config opts)) = Ok conf ∧
  exec kstep k (NftFirewall_new conf) (Ok fw) k'.
Proof.
  intros He. unfold letmeinfwd_startup in He.
  apply exec_cbind_ok in He as ([uid1 gid1] & k1 & H1 & He).
  eapply exec_no_fw in H1 as ->; [|exact (grows_read_etc_passwd no_fw no_fw_os _ [])].
  apply exec_cbind_ok in He as ([] & k2 & H2 & He).
  eapply exec_no_fw in H2 as ->; [|exact (grows_run_subdir no_fw no_fw_os _ _ _ [])].
  apply exec_cbind_ok in He as (conf1 & k3 & [Hconf ->]%exec_load_config & He).
  apply exec_cbind_ok in He as (fw1 & k4 & H4%exec_lift_fw & He).
  apply exec_cbind_ok in He as (srv1 & k5 & H5 & He).
  eapply exec_no_fw in H5 as ->;
    [|exact (grows_context _ _ _ _ _ (grows_FirewallServer_new feat no_fw no_fw_os no_fw_sysd no_fw_fwsock _ _ _ _ []))].
  apply exec_cbind_ok in He as ([] & k6 & H6 & He).
  eapply exec_no_fw in H6 as ->; [|exact (grows_make_pidfile no_fw no_fw_os _ _ [])].
  apply exec_cbind_ok in He as ([] & k7 & H7 & He).
  eapply exec_no_fw in H7 as ->; [|exact (grows_do_install supported no_fw no_fw_sec _ _ [])].
  by apply exec_ret_inv in He as [[= -> -> -> -> ->] ->].
Qed.

(** The firewall does not start without the names of its chain. *)
Lemma new_names conf : leaves (λ r, is_ok r = true → ∃ names, NftNames_get conf = Ok names) (NftFirewall_new conf).
Proof.
  destruct (NftNames_get conf) as [names|e|w] eqn:E; [by apply leaves_any; eauto|..];
    intros []; simpl; try done; unfold nftables_full_rebuild; by rewrite E.
Qed.

End process.

(** ** Property *)

(** C32 (safety). What the start of the three programs guarantees, whatever the system answers. The
    client talks to the name server and the network only after its configuration has been loaded and
    its filter is in place. The control daemon touches a socket only after its configuration has been
    loaded; when it comes to serve, it has a well-formed configuration, listens on a socket, and has
    its filter in place (its sockets were bound before). When the firewall daemon comes to serve, it has
    its filter in place; outside of the test mode it knows the identity of [letmeind] from the
    databases of the system, and has given its run directory, and a socket it has created, to the group
    of [letmeind] alone (a socket from systemd is as systemd has made it). In place means: on a
    supported target, and if seccomp is not off, as it is by default, the filter of the program with
    the configured action was installed; if the action is to kill, the process can only make the calls
    of its list. If it is to log, the filter is installed but stops no call. *)
Theorem startup_confined `{Crypto} `{HashOrder} `{Seccompiler} env_prefix supported feat copts opts :
  (∀ t c k, steps (letmein_main env_prefix supported copts) t (Vis (inr (inr c) : cmd letmein_iface) k) →
     ∃ conf, loaded Client (get_config env_prefix Client (co_config copts)) conf t ∧
       let seccomp := default (c_seccomp conf) (co_seccomp copts) in
       filter_installed supported letmein_ALLOW_LIST seccomp t ∧ confined supported letmein_may seccomp t) ∧
  (∀ t c k, steps (letmeind_startup env_prefix supported feat opts) t (Vis (inr (inr c) : cmd letmeind_iface) k) →
     ∃ conf, loaded Conf.Server (get_config env_prefix Conf.Server (do_config opts)) conf t) ∧
  (∀ t conf srv, steps (letmeind_startup env_prefix supported feat opts) t (Ret (Ok (conf, srv))) →
     let seccomp := default (c_seccomp conf) (do_seccomp opts) in
     Config_ok conf ∧ has_socket srv = true ∧
     filter_installed supported letmeind_ALLOW_LIST seccomp t ∧ confined supported letmeind_may seccomp t) ∧
  (∀ t uid gid conf fw srv, steps (letmeinfwd_startup env_prefix supported feat opts) t (Ret (Ok (uid, gid, conf, fw, srv))) →
     let seccomp := default (c_seccomp conf) (do_seccomp opts) in
     Config_ok conf ∧
     filter_installed supported letmeinfwd_ALLOW_LIST seccomp t ∧ confined supported letmeinfwd_may seccomp t ∧
     guarded opts gid srv t ∧
     (do_test_mode opts = false → ∃ passwd group, seen (OsReadText (lit "/etc/passwd") : cmd os_iface) passwd t ∧
        seen (OsReadText (lit "/etc/group") : cmd os_iface) group t ∧
        os_get_uid passwd (lit "letmeind") = Ok uid ∧ os_get_gid group (lit "letmeind") = Ok gid)).
Proof.
  split_and!.
  - intros t c k Hs. pose proof (letmein_main_wp env_prefix supported copts) as Hw. apply wp_steps in Hw as [Hw _].
    destruct (Hw _ _ _ Hs) as (conf & Hl & Hf). exists conf. split; [done|]. split; [done|]. apply (installed_confined _ letmein_ALLOW_LIST); [apply letmein_matches|exact Hf].
  - intros t c k Hs. pose proof (letmeind_startup_grows env_prefix supported feat opts) as Hw. apply wp_steps in Hw as [Hw _].
    exact (Hw _ _ _ Hs).
  - intros t conf srv Hs. destruct (grows_steps _ _ _ _ _ (letmeind_startup_grows env_prefix supported feat opts) Hs) as (Hl & ? & Hf).
    split_and!; [exact (loaded_ok _ _ _ _ Hl)|done..|]. apply (installed_confined _ letmeind_ALLOW_LIST); [apply letmeind_matches|exact Hf].
  - intros t uid gid conf fw srv Hs.
    destruct (grows_steps _ _ _ _ _ (letmeinfwd_startup_grows env_prefix supported feat opts) Hs) as (Hl & ? & ? & Hf).
    split_and!; [exact (loaded_ok _ _ _ _ Hl)|done| |done..]. apply (installed_confined _ letmeinfwd_ALLOW_LIST); [apply letmeinfwd_matches|exact Hf].
Qed.

(** C30 (safety). The whole life of the process of the firewall daemon. If it ends successfully, it was
    asked to terminate, and the chain of its configuration is empty: whatever the connections, the
    maintenance, failing calls of [nft] and the rest of the system did from the start to the end,
    no rule is left. So while the rules cannot be removed, the exit code is an error. *)
Theorem clean_exit_leaves_no_rules `{HashOrder} `{Seccompiler} `{K : NftKernel} env_prefix supported feat files opts evs stop fw_first k r k' :
  exec (proc_step files) k (letmeinfwd_async_main env_prefix supported feat opts evs stop fw_first) r k' →
  is_ok r = true →
  ∃ conf names, file_conf files (get_config env_prefix Conf.Server (do_config opts)) = Ok conf ∧
    NftNames_get conf = Ok names ∧ chain_at names k' = [] ∧ is_ok stop = true.
Proof.
  intros He Hr. destruct r as [[]|e|w]; [clear Hr|done..].
  apply exec_cbind_ok in He as ([[[[uid gid] conf] fw] srv] & k1 & [Hconf Hnew]%exec_startup & He).
  destruct (leaves_exec _ _ _ _ _ _ (new_names conf) Hnew eq_refl) as [names Hn].
  exists conf, names. split; [done|]. split; [done|].
  apply (exec_new conf names Hn LpTcp) in Hnew as (_ & Hi & _).
  apply exec_bind_inv in He as ([r fw'] & k2 & Hmain%exec_lift_tasks & [<- ->]%exec_ret_inv).
  apply (exec_fwd_main _ conf names _ _ _ _ _ _ _ _ _ _ Hn (fi_running _ _ _ _ _ Hi)) in Hmain as [?|[Hstop Hc]]; [done|].
  split; [|by apply Hstop]. by destruct Hc as [?|[? _]].
Qed.

(** ** A concrete start *)

#[local] Existing Instance sorted_order.
#[local] Existing Instance rules_compiler.

(** Every file has the text of the sample configuration, nothing exists yet, and every step
    succeeds; one TCP socket is passed by systemd. *)
Definition os_handle (c : cmd os_iface) : resp os_iface c :=
  match c with
  | OsReadText _ => Ok sample_text
  | OsStat _ => Err "No such file or directory"
  | OsPid => 1
  | _ => Ok ()
  end.

Definition letmeind_handle (c : cmd letmeind_iface) (u : ()) : resp letmeind_iface c * () :=
  match c with
  | inl c => (os_handle c, u)
  | inr (inl c) => (Ok (), u)
  | inr (inr c) => srv_handle c u
  end.

Definition sample_opts : DaemonOpts := MkDaemonOpts None (lit "/run") 8 true (Some SeccompKill) false.

(** The control daemon starts, binds the UDP socket of the sample configuration, and is confined. *)
Lemma startup_confined_witness :
  ∃ t conf, steps (letmeind_startup None true (MkFeatures true true false) sample_opts) t
    (Ret (Ok (conf, MkServer None (Some (Bound 5800))))) ∧
    filter_installed true letmeind_ALLOW_LIST SeccompKill t ∧ confined true letmeind_may SeccompKill t.
Proof.
  destruct (run letmeind_handle (letmeind_startup None true (MkFeatures true true false) sample_opts) ()) as [[r u] t] eqn:E.
  pose proof (run_steps letmeind_handle _ _ _ _ _ E) as Hs.
  assert (Hr : match r with Ok (conf, srv) => srv = MkServer None (Some (Bound 5800)) | _ => False end).
  { change r with (r, u, t).1.1. rewrite <- E. vm_compute. reflexivity. }
  destruct r as [[conf srv]| |]; [|destruct Hr..]. subst srv. exists t, conf. split; [exact Hs|].
  exact (proj2 (proj2 (proj1 (proj2 (proj2 (startup_confined (H := toy_crypto) None true (MkFeatures true true false)
    (MkClientOpts None None None false) sample_opts))) t conf _ Hs))).
Defined.

#[local] Existing Instance sim_kernel.

(** The firewall daemon without systemd, with one request, one maintenance, and SIGTERM. *)
Definition sample_files (path : str) : res str :=
  if bool_decide (path = lit "/etc/passwd") then Ok (lit "letmeind:x:990:991::/nonexistent:/bin/false
")
  else if bool_decide (path = lit "/etc/group") then Ok (lit "letmeind:x:991:
")
  else Ok (sample_text ++ lit "[NFTABLES]
family = inet
table = filter
chain-input = LETMEIN-INPUT
timeout = 600
").

Definition fwd_os_handle (c : os_cmd) : os_resp c :=
  match c with OsReadText path => sample_files path | OsStat _ => Ok S_IFDIR | OsPid => 1 | _ => Ok () end.
Definition fwd_conn_handle (c : conn_cmd) : conn_resp c :=
  match c with ConnRecv => Ok (Some (new_open sample_v4 PtTcp 22)) | ConnSend _ => Ok () end.

Definition letmeinfwd_handle (c : cmd letmeinfwd_iface) (k : sim_state) : resp letmeinfwd_iface c * sim_state :=
  match c with
  | inl c => (fwd_os_handle c, k)
  | inr (inl c) => (Ok (), k)
  | inr (inr (inl c)) => ((table_handle (λ _, None) [] c ()).1, k)
  | inr (inr (inr (inl c))) => (Ok (), k)
  | inr (inr (inr (inr (inl c)))) => (fwd_conn_handle c, k)
  | inr (inr (inr (inr (inr c)))) => sim_handle c k
  end.

Lemma letmeinfwd_handle_step k c : proc_step (K := sim_kernel) sample_files k c (letmeinfwd_handle c k).1 (letmeinfwd_handle c k).2.
Proof. destruct c as [[]|[?|[?|[?|[?|c]]]]]; try done. exact (sim_handle_step c k). Qed.

Abbreviation sample_process :=
  (run letmeinfwd_handle (letmeinfwd_async_main None true (MkFeatures true true false) sample_opts
    [Connection; MaintainTick] (Ok ()) false) sample_k0).

Lemma run_proc {R} (p : prog letmeinfwd_iface R) k :
  exec (proc_step (K := sim_kernel) sample_files) k p (run letmeinfwd_handle p k).1.1 (run letmeinfwd_handle p k).1.2.
Proof.
  destruct (run letmeinfwd_handle p k) as [[r k'] t] eqn:E.
  exact (run_exec _ letmeinfwd_handle _ _ _ _ _ (λ c k, letmeinfwd_handle_step k c) E).
Qed.

Lemma sample_process_ok : is_ok sample_process.1.1 = true.
Proof. vm_compute. reflexivity. Qed.

Lemma sample_process_names conf names :
  file_conf sample_files (get_config None Conf.Server (do_config sample_opts)) = Ok conf →
  NftNames_get conf = Ok names → names = sample_names.
Proof.
  assert (Hnames : match file_conf sample_files (get_config None Conf.Server (do_config sample_opts)) with
    | Ok conf => NftNames_get conf | Err e => Err e | Panic w => Panic w end = Ok sample_names) by (vm_compute; reflexivity).
  intros Hc Hn. rewrite Hc, Hn in Hnames. by injection Hnames.
Qed.

Lemma clean_exit_leaves_no_rules_witness :
  is_ok sample_process.1.1 = true ∧ chain_at sample_names sample_process.1.2 = [].
Proof.
  split; [exact sample_process_ok|].
  destruct (clean_exit_leaves_no_rules (K := sim_kernel) None true (MkFeatures true true false) sample_files sample_opts
    [Connection; MaintainTick] (Ok ()) false sample_k0 _ _ (run_proc _ _) sample_process_ok) as (conf & names & Hc & Hn & Hx & _).
  rewrite (sample_process_names conf names Hc Hn) in Hx. exact Hx.
Defined.
